(* ===== verification/_CoqProject ===== *)
-Q . S2P
Prelude.v
HttpUtils.v
HttpMethod.v
OrderedMap.v
Paths.v
RouteCache.v
Regex.v
SegmentTrie.v
HttpEndpoint.v
RouteTable.v
Registration.v
Concurrency.v
LiveResources.v
Cookie.v
IpAddress.v
PeerAddress.v
HttpResponse.v
HookBus.v
HookThreads.v
ResourceTables.v
Request.v
RequestFacts.v
Upload.v
Dispatch.v
DispatchSafety.v
DispatchSpec.v
EndToEnd.v
HookOrder.v
HookTrace.v
ResourceClass.v
Diagnostics.v
Aliases.v
Config.v
Lifecycle.v
Connection.v
WebSocket.v
Upgrade.v
Tls.v
ClientCert.v
Construction.v
TestRequests.v
