(* ===== verification/Prelude.v ===== *)
(** * libhttpserver: a verified model of the server

    libhttpserver wraps the C library libmicrohttpd.  This development models
    the C++ sources under [src/src/]: how a server is configured, started and
    stopped, how routes are registered and found, how a request is read,
    dispatched, answered and logged, and the data types on the way.  All names
    of the model are those of the code.

    ** How the parts interact

    A [webserver] is built from the configuration a [create_webserver] collects
    (Config) and starts a libmicrohttpd daemon (Lifecycle).  The daemon asks
    about each peer (IpAddress) and calls back for each request (Dispatch).
    The first callback decodes and normalises the path (HttpUtils, Paths) and
    picks the method (HttpMethod); the next ones feed the body to the request
    (Request, Upload); the last one looks up the route (RouteTable, over the LRU
    cache of RouteCache, the trie of SegmentTrie and the keys of HttpEndpoint),
    runs hooks (HookBus, Aliases) and the handler of the resource
    (Registration), and hands the response (HttpResponse, Cookie) to
    libmicrohttpd.  With websockets the last callback first tries an upgrade
    (Upgrade, WebSocket).  TLS callbacks and digest tokens are in Tls.

    ** The files

    - Prelude: byte strings, outcomes, the state monad [stx], word arithmetic,
      list lemmas and the tactics and hints the other files share.
    - HttpUtils: [string_utilities.cpp], the pure functions of
      [http_utils.cpp], [detail/unescape_helpers.hpp].
    - HttpMethod: [http_method.hpp], [detail/method_utils.hpp] and the mask of
      [http_resource].
    - OrderedMap: [std::map] with the comparators of [http_utils.hpp].
    - Paths: the path functions of [detail/webserver_callbacks.cpp].
    - RouteCache, Regex, SegmentTrie, HttpEndpoint, RouteTable: the files of
      those names under [detail/].
    - Registration: the registration half of [webserver.cpp] and
      [detail/webserver_impl.cpp], on a heap of shared resources.
    - Concurrency: the same operations as steps under their locks.
    - LiveResources: the accesses of requests and registrations to one resource
      ([http_resource.cpp], [detail/lambda_resource.hpp]).
    - Cookie: [cookie.cpp].  IpAddress: [detail/ip_representation.cpp],
      [detail/ip_access_control.cpp].  PeerAddress: [peer_address.cpp].
    - HttpResponse: [http_response.cpp], [http_response_factories.cpp],
      [detail/response_body.cpp].
    - HookBus: [detail/hook_bus.cpp], [resource_hook_table.cpp],
      [hook_handle.cpp].  HookThreads: [detail/hook_bus.cpp] with many threads and
      with hooks that use the bus.  ResourceTables: the copies and the first hook of
      a resource ([http_resource.cpp]).
    - Request, RequestFacts: [http_request.cpp], [http_request_auth.cpp],
      [detail/http_request_impl.cpp], [detail/http_request_impl_args.cpp].
      TestRequests: [create_test_request.hpp], [create_test_request.cpp].
    - Upload: [detail/upload_pipeline.cpp], [file_info.cpp].
    - Dispatch, DispatchSafety, DispatchSpec: the request callbacks of
      [detail/webserver_callbacks.cpp], [detail/request_pipeline.cpp],
      [detail/request_dispatcher.cpp], [detail/hook_dispatcher.cpp],
      [detail/error_pages.cpp], [detail/response_materializer.cpp].
    - EndToEnd: the routes and the dispatch together, against an abstract router.
      HookOrder, HookTrace: the calls of user code over a whole request, for any
      hooks and for hooks that only observe.
      ResourceClass: the virtual methods of [http_resource.hpp] under dispatch.
    - Diagnostics: [detail/webserver_body_pipeline.cpp], the text of a response,
      [load_file].
    - Aliases: the hooks the constructor in [webserver.cpp] installs.
    - Config: [create_webserver.hpp], [create_webserver_setters.hpp],
      [create_webserver.cpp], [detail/daemon_lifecycle.cpp].
    - Lifecycle: [start], [stop] and the calls that reach the daemon in
      [webserver.cpp].  Construction: the constructor, where all parts start.
    - Connection: the objects a connection and its requests own, their arena
      ([detail/connection_state.hpp], [detail/secure_zero.hpp]) and the callbacks
      that create and destroy them.
    - WebSocket, Upgrade: [detail/ws_registry.cpp],
      [detail/websocket_upgrader.cpp], [websocket_handler.cpp].
    - Tls: the SNI callback, [detail/http_request_impl_tls.cpp], the digest
      checks and the opaque value.  ClientCert: the certificate accessors of
      [http_request_auth.cpp] when allocations fail.

    ** How state and effects are modelled

    A C++ function is a Rocq function on the state it reaches.  A call that can
    throw or run into undefined behaviour returns an [outcome]; one that also
    changes state is an [stx S A], state in, state and outcome out.  Objects with
    identity (resources, cache nodes, hook slots, file descriptors, GnuTLS
    credentials, daemons) are numbers in maps, so that sharing, double release
    and dangling references can be stated.  User code (handlers, hooks, the
    configured callbacks) is a class of arbitrary functions on what the code is
    given and a world the server shares; theorems that need something of it say
    so in a class ([UserCodeOk]) of laws.  libmicrohttpd, the file system, GnuTLS,
    sockets and the regular expression engine are parameters.  Locks are step
    boundaries: one operation under a lock is one step; Concurrency, HookThreads,
    ResourceTables, Tls (the SNI callback), Diagnostics and the module [Handover] of
    Lifecycle interleave such steps.  LiveResources goes further: there each
    access to a field is a step, so that data races can be stated.

    ** What the theorems show

    - Routing.  The trie, the cache and the three-tier table implement a map, a
      bounded recency list and one resolution function; a search walks the trie
      in one way only, literal segments first.  Every sequence of registrations,
      removals and lookups keeps the cache invisible, as long as the constraints
      of the paths compile; with interleaved threads a lookup answers what some
      version of the table said, and the cache stays fresh unless an update
      overtakes a lookup that has not stored its result yet.  With handlers on
      literal paths the whole server answers as a map from paths and methods to
      handlers would.
    - Requests.  Every request is answered once, without undefined behaviour,
      when user code returns responses whose cookies can be rendered and the
      not-found handler returns.  Without hooks and with the default error pages
      the answer is the one a short specification names; it is silent where the
      code and its documents part (a response without a status, TRACE and CONNECT
      to a lambda resource).  A request that is dispatched is shown to the
      authentication handler first, which cannot be passed by throwing; a
      websocket upgrade is not dispatched and does pass it.  Limits on arguments,
      content and in-memory uploads hold; uploads stay in their directory, and
      arrive whole when the disk works and their names differ; diagnostics hide
      passwords, and cookies unless the raw Cookie header is there.
    - Order.  The calls of a request come in the order of the phases, whatever hooks
      and handlers do; for hooks that only observe, the calls of a request are
      known exactly, those of a handler that throws and of the end of the request
      included.  The hook of an authentication handler is first from construction
      on.
    - Threads.  A firing runs the hooks of one moment, unless a hook fires its own
      phase on its own thread; the first hooks of a resource share one table;
      requests on a resource do not race, find a handler when they are allowed
      and never wait for ever, as long as none is registered meanwhile (that is a
      data race); the warning of the body dump is printed once.
    - Responses, hooks, handles, descriptors, daemons, credentials and the objects
      of a connection have one owner and are released once; nothing of a request
      is left in the memory of the next.
    - Data.  Percent decoding, cookies, addresses and certificate texts are read
      back from what was written, and so is what a test request was built from;
      the parsers stay inside their buffers; certificate fields are true or empty,
      whichever allocation fails.
    - Websockets.  Without hooks, a handshake is upgraded, refused with 400 or left
      to the dispatcher as its headers and path say; a session sends whole frames
      and is closed once, unless a handler throws, which terminates the process.
    - Termination.  The hand-over of a blocking [start] and [stop] ends; the
      websocket decoder consumes its buffer.

    Some theorems state, mostly on concrete inputs, where the code does something
    other than its comments or documents say, or where a condition of a theorem
    above is needed, such as [handler_leaks_to_other_route],
    [cached_answer_outlives_failure], [empty_path_undefined],
    [same_filename_overwrites], [rejected_request_upgraded],
    [upgrade_not_authenticated], [throwing_handler_terminates],
    [reentered_phase_is_wild], [registrations_race], [negative_settings_accepted],
    [bare_class_is_not_405] or [after_handler_chain_continues].

    ** Bounds and fuel

    Machine integers are [Z] with their wrap-around written out ([wrap8] to
    [wrap64]).  Recursion is structural wherever a loop consumes a list or a
    counter.  A loop that moves a position has fuel: one more than the length of
    its text ([string_split], [unescape_buf_raw], [normalize_path], the cookie
    parser, [Trie.find]), since every round but the last consumes a byte; nine
    rounds for the eight groups of an IPv6 address; the length of the data for
    the websocket send and decode loops, whose rounds consume a byte each.
    That this is enough is part of the theorems that equate these loops with
    references without fuel ([string_split_filter], [unescape_buf_raw_correct],
    [normalize_path_segments], [parse_cookie_header_roundtrip], [find_spec],
    [peer_text_roundtrip]) or, for the websocket decoder, show that more fuel
    changes nothing ([decode_loop_terminates]).  The hand-over of [start] and
    [stop] has a bound on its steps ([blocked_start_returns]).

    ** Not modelled

    - TCP_NODELAY and other socket options, clocks and durations in hook contexts:
      system calls without a result the server uses.
    - libmicrohttpd's own parsing, the TLS handshake and digest computation.
    - Headers that only declare, and the members of [webserver.hpp] and its
      parts that only forward.  What is left of the other files is constants
      (status codes, header names), using-declarations, static assertions and the
      overloads of one setter for objects and temporaries.
    - Builds without the optional features, where the code only throws
      [feature_unavailable]; the model is of a build with basic and digest
      authentication, GnuTLS and websockets (Dispatch without its websocket
      probe, which Upgrade adds). *)

From Stdlib Require Export ZArith Lia Bool Ascii.
From Stdlib Require String.
From stdpp Require Export prelude gmap strings list list_numbers.

#[global] Open Scope nat_scope.

(** ** Byte strings

    A C++ [std::string] / [std::string_view] is a list of bytes.  Literals
    are written [bs "..."]; the code of a byte is the value of the
    [unsigned char]. *)

Abbreviation bytes := (list ascii).

Definition bs (s : string) : bytes := Stdlib.Strings.String.list_ascii_of_string s.

Definition code (c : ascii) : Z := Z.of_N (N_of_ascii c).

Definition chr (z : Z) : ascii := ascii_of_N (Z.to_N (z mod 256)).

Definition NUL : ascii := "000"%char.
Definition LF : ascii := "010"%char.
Definition CR : ascii := "013"%char.
Definition TAB : ascii := "009"%char.
Definition DQUOTE : ascii := "034"%char.

Definition ascii_eqb (a b : ascii) : bool := bool_decide (a = b).

Definition bytes_eqb (a b : bytes) : bool := bool_decide (a = b).

Definition is_empty {A} (l : list A) : bool :=
  match l with [] => true | _ => false end.

(** ** Outcomes of C++ code

    A call returns a value, throws, or runs into undefined behaviour (an
    access outside an object).  [exn] keeps what a handler can observe of the
    exception: its class and its [what()]. *)

Inductive exn : Type :=
| invalid_argument (msg : bytes)
| std_exception (what : bytes)
| unknown_exception.

Inductive outcome (A : Type) : Type :=
| Ok (a : A)
| Throw (e : exn)
| Undefined.
Arguments Ok {A} a.
Arguments Throw {A} e.
Arguments Undefined {A}.

#[export] Instance outcome_ret : MRet outcome := fun A a => Ok a.
#[export] Instance outcome_bind : MBind outcome := fun A B f m =>
  match m with Ok a => f a | Throw e => Throw e | Undefined => Undefined end.
#[export] Instance outcome_fmap : FMap outcome := fun A B f m =>
  match m with Ok a => Ok (f a) | Throw e => Throw e | Undefined => Undefined end.

(** State that survives an exception: a C++ object mutated by a call that then
    throws keeps the mutations made before the throw. *)
Definition stx (S A : Type) : Type := S -> S * outcome A.

#[export] Instance stx_ret {S} : MRet (stx S) := fun A a s => (s, Ok a).
#[export] Instance stx_bind {S} : MBind (stx S) := fun A B f m s =>
  match m s with
  | (s', Ok a) => f a s'
  | (s', Throw e) => (s', Throw e)
  | (s', Undefined) => (s', Undefined)
  end.

Definition stx_get {S} : stx S S := fun s => (s, Ok s).
Definition stx_put {S} (s : S) : stx S unit := fun _ => (s, Ok ()).
Definition stx_lift {S A} (o : outcome A) : stx S A := fun s => (s, o).
Definition stx_throw {S A} (e : exn) : stx S A := fun s => (s, Throw e).

(** [try { body } catch (e) { handler }] *)
Definition stx_try {S A} (body : stx S A) (handler : exn -> stx S A) : stx S A := fun s =>
  match body s with
  | (s, Throw e) => handler e s
  | r => r
  end.

Definition stx_modify {S} (f : S -> S) : stx S unit := fun s => (f s, Ok ()).
Definition stx_gets {S A} (f : S -> A) : stx S A := fun s => (s, Ok (f s)).
Definition stx_when {S} (b : bool) (f : stx S unit) : stx S unit := if b then f else mret ().

Definition is_ok {A} (o : outcome A) : bool :=
  match o with Ok _ => true | _ => false end.

(** ** Operations of [std::string] the sources use *)

(** [s.find(c)] *)
Fixpoint find_char (c : ascii) (s : bytes) : option nat :=
  match s with
  | [] => None
  | x :: s' => if ascii_eqb x c then Some 0 else S <$> find_char c s'
  end.

(** [s.find(c, pos)] *)
Definition find_from (c : ascii) (s : bytes) (pos : nat) : option nat :=
  (fun i => pos + i) <$> find_char c (drop pos s).

(** [s.find_first_of(set) != npos] *)
Definition contains_any (set : bytes) (s : bytes) : bool :=
  existsb (fun c => existsb (ascii_eqb c) set) s.

(** [s.substr(pos, n)] for [pos <= s.size()] *)
Definition substr (s : bytes) (pos n : nat) : bytes := take n (drop pos s).

(** [s.substr(pos)] *)
Definition substr_from (s : bytes) (pos : nat) : bytes := drop pos s.

(** [s[i]]: defined for [i <= s.size()], where [s[s.size()]] is the
    terminating NUL. *)
Definition str_at (s : bytes) (i : Z) : outcome ascii :=
  if decide (0 <= i <= Z.of_nat (length s))%Z
  then Ok (default NUL (s !! Z.to_nat i))
  else Undefined.

(** A lookup in a list with one element replaced. *)
Lemma insert_cases {A} (l : list A) i x k y : <[i := x]> l !! k = Some y -> (k = i /\ y = x) \/ (k <> i /\ l !! k = Some y).
Proof.
  destruct (decide (k = i)) as [->|Hk]; [|rewrite list_lookup_insert_ne by done; auto].
  intros H. pose proof (lookup_lt_Some _ _ _ H) as Hl. rewrite length_insert in Hl. rewrite list_lookup_insert_eq in H by done.
  left. by simplify_eq.
Qed.

(** What every step preserves holds along any number of steps. *)
Lemma rtc_preserves {A} (step : A -> A -> Prop) (P : A -> Prop) x y :
  (forall a b, step a b -> P a -> P b) -> rtc step x y -> P x -> P y.
Proof. intros H. induction 1; eauto. Qed.

(** ** Machine words *)

Definition wrap32 (z : Z) : Z := (z mod 2 ^ 32)%Z.
Definition wrap64 (z : Z) : Z := (z mod 2 ^ 64)%Z.
Definition wrap16 (z : Z) : Z := (z mod 2 ^ 16)%Z.
Definition wrap8 (z : Z) : Z := (z mod 2 ^ 8)%Z.

(** ** Decimal text *)

Definition digit (z : Z) : ascii := chr (48 + z mod 10).

Fixpoint dec_loop (fuel : nat) (z : Z) (acc : bytes) : bytes :=
  match fuel with
  | 0 => acc
  | S fuel => if (z <? 10)%Z then digit z :: acc else dec_loop fuel (z / 10) (digit z :: acc)
  end.

(** The decimal digits of a number below [10 ^ 20]. *)
Definition dec (z : Z) : bytes := dec_loop 20 z [].

(** ** Automation *)

Create HintDb lhs.
Create Rewrite HintDb lhs_rw.

(** Case analysis on the outcome of a subcomputation bound in [H]. *)
Ltac bind_inv H :=
  repeat match type of H with
  | context [match ?o with Ok _ => _ | Throw _ => _ | Undefined => _ end] =>
      let E := fresh "E" in destruct o eqn:E; try discriminate H
  end.

(** Turn the boolean tests of the sources into propositions. *)
Ltac bool_prop :=
  repeat match goal with
  | H : _ && _ = true |- _ => apply andb_true_iff in H as [? ?]
  | H : _ || _ = false |- _ => apply orb_false_iff in H as [? ?]
  | H : negb _ = true |- _ => apply negb_true_iff in H
  | H : negb _ = false |- _ => apply negb_false_iff in H
  | H : bool_decide _ = true |- _ => apply bool_decide_eq_true in H
  | H : bool_decide _ = false |- _ => apply bool_decide_eq_false in H
  | H : (_ <=? _) = true |- _ => apply Nat.leb_le in H
  | H : (_ <=? _) = false |- _ => apply Nat.leb_gt in H
  | H : (_ <? _) = true |- _ => apply Nat.ltb_lt in H
  | H : (_ <? _) = false |- _ => apply Nat.ltb_ge in H
  | H : (_ =? _) = true |- _ => apply Nat.eqb_eq in H
  | H : (_ =? _) = false |- _ => apply Nat.eqb_neq in H
  | H : (_ <=? _)%Z = true |- _ => apply Z.leb_le in H
  | H : (_ <=? _)%Z = false |- _ => apply Z.leb_gt in H
  | H : (_ <? _)%Z = true |- _ => apply Z.ltb_lt in H
  | H : (_ <? _)%Z = false |- _ => apply Z.ltb_ge in H
  | H : (_ =? _)%Z = true |- _ => apply Z.eqb_eq in H
  | H : (_ =? _)%Z = false |- _ => apply Z.eqb_neq in H
  end.

(** Evaluate the codes of character literals. *)
Ltac code_lits :=
  repeat match goal with
  | H : context [code (Ascii ?a ?b ?c ?d ?e ?f ?g ?h)] |- _ =>
      let t := constr:(code (Ascii a b c d e f g h)) in
      let v := eval vm_compute in t in change t with v in H
  | |- context [code (Ascii ?a ?b ?c ?d ?e ?f ?g ?h)] =>
      let t := constr:(code (Ascii a b c d e f g h)) in
      let v := eval vm_compute in t in change t with v
  end.

(** ** Lemmas on bytes *)

Lemma ascii_eqb_refl c : ascii_eqb c c = true.
Proof. by apply bool_decide_eq_true. Qed.

Lemma ascii_eqb_true a b : ascii_eqb a b = true <-> a = b.
Proof. apply bool_decide_eq_true. Qed.

Lemma ascii_eqb_false a b : ascii_eqb a b = false <-> a <> b.
Proof. apply bool_decide_eq_false. Qed.

Lemma bytes_eqb_true a b : bytes_eqb a b = true <-> a = b.
Proof. apply bool_decide_eq_true. Qed.

Lemma bytes_eqb_false a b : bytes_eqb a b = false <-> a <> b.
Proof. apply bool_decide_eq_false. Qed.

Lemma code_range c : (0 <= code c < 256)%Z.
Proof.
  unfold code. pose proof (N_ascii_bounded c) as H. lia.
Qed.

Lemma chr_code c : chr (code c) = c.
Proof.
  unfold chr. rewrite Z.mod_small by apply code_range.
  unfold code. rewrite N2Z.id. apply ascii_N_embedding.
Qed.

Lemma code_chr z : (0 <= z < 256)%Z -> code (chr z) = z.
Proof.
  intros H. unfold code, chr. rewrite Z.mod_small by done.
  rewrite N_ascii_embedding by lia. lia.
Qed.

Lemma code_inj a b : code a = code b -> a = b.
Proof. intros H. rewrite <-(chr_code a), <-(chr_code b). by f_equal. Qed.

Lemma is_empty_true {A} (l : list A) : is_empty l = true <-> l = [].
Proof. by destruct l. Qed.

Lemma is_empty_false {A} (l : list A) : is_empty l = false <-> l <> [].
Proof. by destruct l. Qed.

#[export] Hint Rewrite ascii_eqb_refl : lhs_rw.

(** ** [find] *)

Lemma find_char_None c s : find_char c s = None <-> c ∉ s.
Proof.
  induction s as [|x s IH]; simpl; [split; [intros _; apply not_elem_of_nil|done]|].
  rewrite not_elem_of_cons. destruct (ascii_eqb x c) eqn:E.
  - apply ascii_eqb_true in E as ->. split; [done|tauto].
  - apply ascii_eqb_false in E. rewrite fmap_None, IH. split; [intros H; split; congruence|tauto].
Qed.

Lemma find_char_Some c s i :
  find_char c s = Some i -> s = take i s ++ c :: drop (S i) s /\ c ∉ take i s.
Proof.
  revert i. induction s as [|x s IH]; intros i; simpl; [done|].
  destruct (ascii_eqb x c) eqn:E.
  - apply ascii_eqb_true in E as ->. intros [= <-]. split; [done|]. apply not_elem_of_nil.
  - apply ascii_eqb_false in E. intros (j & Hj & ->)%fmap_Some.
    apply IH in Hj as [Hs Hn]. simpl. rewrite not_elem_of_cons. split; [by f_equal|done].
Qed.

Lemma find_char_app c s t : c ∉ s -> find_char c (s ++ c :: t) = Some (length s).
Proof.
  induction s as [|x s IH]; simpl; intros H; [by rewrite ascii_eqb_refl|].
  apply not_elem_of_cons in H as [Hx Hs].
  rewrite (proj2 (ascii_eqb_false x c)) by done. by rewrite IH.
Qed.

Lemma find_char_lt c s i : find_char c s = Some i -> i < length s.
Proof.
  intros [H _]%find_char_Some. apply (f_equal length) in H.
  rewrite length_app, length_take in H. simpl in H. rewrite length_drop in H. lia.
Qed.

Lemma find_char_split c s :
  (exists a b, find_char c s = Some (length a) /\ s = a ++ c :: b /\ c ∉ a)
  \/ (find_char c s = None /\ c ∉ s).
Proof.
  destruct (find_char c s) as [i|] eqn:E.
  - left. pose proof (find_char_lt _ _ _ E). apply find_char_Some in E as [Hs Hn].
    exists (take i s), (drop (S i) s). rewrite length_take_le by lia. done.
  - right. split; [done|]. by apply find_char_None.
Qed.

(** ** Splitting on a separator

    [split_on sep s] is the list of fields of [s]: one more than the number of
    separators, none of which contains the separator. *)
Fixpoint split_on (sep : ascii) (s : bytes) : list bytes :=
  match s with
  | [] => [[]]
  | c :: s' =>
      if ascii_eqb c sep then [] :: split_on sep s'
      else match split_on sep s' with
           | [] => [[c]]
           | f :: fs => (c :: f) :: fs
           end
  end.

Lemma split_on_cons sep s : exists f fs, split_on sep s = f :: fs.
Proof.
  destruct s as [|c s]; simpl; [eauto|]. destruct (ascii_eqb c sep); [eauto|].
  destruct (split_on sep s); eauto.
Qed.

Lemma split_on_nosep sep s : sep ∉ s -> split_on sep s = [s].
Proof.
  induction s as [|c s IH]; simpl; [done|]. intros H.
  apply not_elem_of_cons in H as [Hc Hs].
  rewrite (proj2 (ascii_eqb_false c sep)) by done. by rewrite IH.
Qed.

Lemma split_on_app sep a b :
  sep ∉ a -> split_on sep (a ++ sep :: b) = a :: split_on sep b.
Proof.
  induction a as [|c a IH]; simpl; intros H; [by rewrite ascii_eqb_refl|].
  apply not_elem_of_cons in H as [Hc Ha].
  rewrite (proj2 (ascii_eqb_false c sep)) by done. by rewrite IH.
Qed.

Lemma split_on_fields sep s : Forall (fun f => sep ∉ f) (split_on sep s).
Proof.
  induction s as [|c s IH]; simpl; [repeat constructor; apply not_elem_of_nil|].
  destruct (ascii_eqb c sep) eqn:E.
  - constructor; [apply not_elem_of_nil|done].
  - apply ascii_eqb_false in E. destruct (split_on sep s) as [|f fs].
    + repeat constructor. apply not_elem_of_cons; split; [done|apply not_elem_of_nil].
    + inversion IH; subst. constructor; [|done]. by apply not_elem_of_cons.
Qed.

(** The inverse of [split_on]. *)
Fixpoint join (sep : bytes) (l : list bytes) : bytes :=
  match l with
  | [] => []
  | [x] => x
  | x :: l' => x ++ sep ++ join sep l'
  end.

Lemma join_cons sep x y l : join sep (x :: y :: l) = x ++ sep ++ join sep (y :: l).
Proof. done. Qed.

Lemma join_split sep s : join [sep] (split_on sep s) = s.
Proof.
  induction s as [|c s IH]; [done|]. simpl.
  destruct (split_on_cons sep s) as (f & fs & E). destruct (ascii_eqb c sep) eqn:Ec.
  - apply ascii_eqb_true in Ec as ->. rewrite E in *. rewrite join_cons, IH. done.
  - rewrite E in *. destruct fs; simpl in *; by rewrite IH.
Qed.

Lemma split_join sep l :
  l <> [] -> Forall (fun f => sep ∉ f) l -> split_on sep (join [sep] l) = l.
Proof.
  induction l as [|x [|y l] IH]; intros Hne Hall; [done| |].
  - apply split_on_nosep. by inversion Hall.
  - rewrite join_cons. inversion Hall as [|? ? Hx Hrest]; subst.
    etrans; [apply (split_on_app sep x _ Hx)|]. by rewrite IH.
Qed.

Lemma split_join_app sep (l : list bytes) u :
  l <> [] -> Forall (fun f => sep ∉ f) l ->
  split_on sep (join [sep] l ++ sep :: u) = l ++ split_on sep u.
Proof.
  intros Hl HF. induction HF as [|x [|y l] Hx HF IH]; [done|by apply split_on_app|].
  rewrite join_cons, <-app_assoc.
  etrans; [apply (split_on_app sep x _ Hx)|]. cbn [app]. f_equal. by apply IH.
Qed.

(** ** Lists updated in place *)

Lemma take_S_insert {A} (l : list A) i x :
  i < length l -> take (i + 1) (<[i:=x]> l) = take i l ++ [x].
Proof.
  intros H. rewrite Nat.add_1_r. rewrite (take_S_r _ _ x).
  - by rewrite take_insert_ge.
  - by apply list_lookup_insert_eq.
Qed.

Lemma drop_lookup {A} (l : list A) i x : l !! i = Some x -> drop i l = x :: drop (i + 1) l.
Proof. intros H. rewrite Nat.add_1_r. by apply drop_S. Qed.

Lemma drop_cons_inv {A} (l : list A) i x t :
  drop i l = x :: t -> i < length l /\ l !! i = Some x /\ drop (i + 1) l = t.
Proof.
  intros H. assert (Hi : i < length l).
  { apply (f_equal length) in H. rewrite length_drop in H. simpl in H. lia. }
  split; [done|]. assert (Hx : l !! i = Some x).
  { rewrite <-(Nat.add_0_r i), <-lookup_drop, H. done. }
  split; [done|]. apply drop_lookup in Hx. congruence.
Qed.

Lemma filter_true {A} (l : list A) : List.filter (fun _ => true) l = l.
Proof. induction l as [|x l IH]; [done|]. simpl. by rewrite IH. Qed.

(** ** Word arithmetic *)

Lemma lor_shiftl k hi lo :
  (0 <= k)%Z -> (0 <= lo < 2 ^ k)%Z -> Z.lor (Z.shiftl hi k) lo = (2 ^ k * hi + lo)%Z.
Proof.
  intros Hk Hlo. rewrite <-Z.add_nocarry_lor.
  - rewrite Z.shiftl_mul_pow2 by lia. lia.
  - apply Z.bits_inj'. intros n Hn. rewrite Z.land_spec, Z.bits_0.
    destruct (decide (n < k)%Z).
    + rewrite Z.shiftl_spec_low by lia. done.
    + assert (Hb : Z.testbit lo n = false).
      { apply Z.testbit_false; [lia|]. rewrite Z.div_small; [done|].
        assert (2 ^ k <= 2 ^ n)%Z by (apply Z.pow_le_mono_r; lia). lia. }
      rewrite Hb. apply andb_false_r.
Qed.

Lemma lor_shiftl4 hi lo :
  (0 <= lo < 16)%Z -> Z.lor (Z.shiftl hi 4) lo = (16 * hi + lo)%Z.
Proof. intros H. by rewrite (lor_shiftl 4) by lia. Qed.

Lemma lor_shiftl8 hi lo :
  (0 <= lo < 256)%Z -> Z.lor (Z.shiftl hi 8) lo = (256 * hi + lo)%Z.
Proof. intros H. by rewrite (lor_shiftl 8) by lia. Qed.

Lemma wrap32_small z : (0 <= z < 2 ^ 32)%Z -> wrap32 z = z.
Proof. apply Z.mod_small. Qed.

Lemma wrap64_small z : (0 <= z < 2 ^ 64)%Z -> wrap64 z = z.
Proof. apply Z.mod_small. Qed.

#[export] Hint Resolve code_range : lhs.
