(* ===== verification/HttpUtils.v ===== *)
(** * String utilities

    [string_utilities.cpp] (splitting, hex), the pure functions of
    [http_utils.cpp] (URL tokenizing and standardizing, upload file names,
    unescaping) and the in-place percent decoder of
    [detail/unescape_helpers.hpp]. *)

From S2P Require Import Prelude.

Module StringUtilities.

(** [std::toupper] / [std::tolower] in the C locale. *)
Definition toupper (c : ascii) : ascii :=
  if (97 <=? code c)%Z && (code c <=? 122)%Z then chr (code c - 32) else c.

Definition tolower (c : ascii) : ascii :=
  if (65 <=? code c)%Z && (code c <=? 90)%Z then chr (code c + 32) else c.

Definition to_upper_copy (s : bytes) : bytes := map toupper s.

Definition to_lower_copy (s : bytes) : bytes := map tolower s.

(** The [while ((end = s.find(sep, start)) != npos)] loop of [string_split]
    and the statement after it.  One iteration consumes a separator, so
    [S (length s)] units of fuel are enough ([string_split_filter]). *)
Fixpoint string_split_loop (fuel : nat) (s : bytes) (sep : ascii) (collapse : bool)
    (start : nat) (result : list bytes) : list bytes :=
  match fuel with
  | 0 => result
  | S fuel =>
      match find_from sep s start with
      | Some end_ =>
          let token := substr s start (end_ - start) in
          let result := if negb collapse || negb (is_empty token)
                        then result ++ [token] else result in
          string_split_loop fuel s sep collapse (end_ + 1) result
      | None =>
          if start <? length s then
            let token := substr_from s start in
            if negb collapse || negb (is_empty token) then result ++ [token] else result
          else result
      end
  end.

Definition string_split (s : bytes) (sep : ascii) (collapse : bool) : list bytes :=
  if is_empty s then []
  else string_split_loop (S (length s)) s sep collapse 0 [].

Definition is_hex_char (c : ascii) : bool :=
  ((code "0" <=? code c) && (code c <=? code "9"))%Z
  || ((code "a" <=? code c) && (code c <=? code "f"))%Z
  || ((code "A" <=? code c) && (code c <=? code "F"))%Z.

Definition is_valid_hex (s : bytes) : bool := forallb is_hex_char s.

Definition hex_char_to_val (c : ascii) : Z :=
  if ((code "0" <=? code c) && (code c <=? code "9"))%Z then (code c - code "0")%Z
  else if ((code "a" <=? code c) && (code c <=? code "f"))%Z then (code c - code "a" + 10)%Z
  else if ((code "A" <=? code c) && (code c <=? code "F"))%Z then (code c - code "A" + 10)%Z
  else 0%Z.

End StringUtilities.
Import StringUtilities.

Module Unescape.

Definition hex_digit_value (c : ascii) : Z :=
  if ((code "0" <=? code c) && (code c <=? code "9"))%Z then (code c - code "0")%Z
  else if ((code "a" <=? code c) && (code c <=? code "f"))%Z then (code c - code "a" + 10)%Z
  else if ((code "A" <=? code c) && (code c <=? code "F"))%Z then (code c - code "A" + 10)%Z
  else (-1)%Z.

(** [data[i]] and [data[i] = c] on the caller's buffer: undefined outside it. *)
Definition buf_get (data : bytes) (i : nat) : outcome ascii :=
  match data !! i with Some c => Ok c | None => Undefined end.

Definition buf_set (data : bytes) (i : nat) (c : ascii) : outcome bytes :=
  if i <? length data then Ok (<[i:=c]> data) else Undefined.

(** The decoding loop of [unescape_buf_raw]: [rpos] reads, [wpos] writes the
    same buffer.  Each iteration advances [rpos]. *)
Fixpoint unescape_loop (fuel : nat) (data : bytes) (size rpos wpos : nat)
    : outcome (bytes * nat) :=
  match fuel with
  | 0 => Ok (data, wpos)
  | S fuel =>
      if rpos <? size then
        c ← buf_get data rpos;
        if ascii_eqb c NUL then Ok (data, wpos)
        else
          let copy :=
            data' ← buf_set data wpos c;
            unescape_loop fuel data' size (rpos + 1) (wpos + 1) in
          if ascii_eqb c "+" then
            data' ← buf_set data wpos " ";
            unescape_loop fuel data' size (rpos + 1) (wpos + 1)
          else if ascii_eqb c "%" then
            if 2 <? size - rpos then
              h ← buf_get data (rpos + 1);
              l ← buf_get data (rpos + 2);
              let hi := hex_digit_value h in
              let lo := hex_digit_value l in
              if ((0 <=? hi) && (0 <=? lo))%Z then
                data' ← buf_set data wpos (chr (Z.lor (Z.shiftl hi 4) lo));
                unescape_loop fuel data' size (rpos + 3) (wpos + 1)
              else copy
            else copy
          else copy
      else Ok (data, wpos)
  end.

(** Returns the buffer after the call and the number of bytes kept. *)
Definition unescape_buf_raw (data : bytes) (size : nat) : outcome (bytes * nat) :=
  if size =? 0 then Ok (data, 0)
  else unescape_loop (S size) data size 0 0.

(** [http_unescape]: decodes, writes the terminator into the
    string's own byte [new_size] and shrinks it.  Returns the new contents and
    the returned size. *)
Definition http_unescape (val : bytes) : outcome (bytes * nat) :=
  if is_empty val then Ok (val, 0)
  else
    '(data, new_size) ← unescape_buf_raw val (length val);
    _ ← str_at data (Z.of_nat new_size);
    Ok (take new_size data, new_size).

(** [base_unescaper]: the optional user unescaper rewrites the string. *)
Definition base_unescaper (s : bytes) (unescaper : option (bytes -> bytes))
    : outcome (bytes * nat) :=
  c ← str_at s 0;
  if ascii_eqb c NUL then Ok (s, 0)
  else match unescaper with
       | Some f => Ok (f s, length (f s))
       | None => http_unescape s
       end.

(** Reference: decoding as a function on the list of bytes. *)
Fixpoint decode (s : bytes) : bytes :=
  match s with
  | [] => []
  | c :: t =>
      if ascii_eqb c NUL then []
      else if ascii_eqb c "+" then " "%char :: decode t
      else if ascii_eqb c "%" then
        match t with
        | h :: l :: t' =>
            if ((0 <=? hex_digit_value h) && (0 <=? hex_digit_value l))%Z
            then chr (16 * hex_digit_value h + hex_digit_value l) :: decode t'
            else c :: decode t
        | _ => c :: decode t
        end
      else c :: decode t
  end.

(** Percent encoding of every byte, as a client may send it. *)
Definition hex_digit (z : Z) : ascii :=
  if (z <? 10)%Z then chr (code "0" + z) else chr (code "A" + (z - 10)).

Definition percent_encode (s : bytes) : bytes :=
  flat_map (fun c => ["%"%char; hex_digit (code c / 16); hex_digit (code c mod 16)]) s.

End Unescape.

Module HttpUtils.

Definition tokenize_url (str : bytes) (separator : ascii) : list bytes :=
  string_split str separator true.

(** [std::unique] with a predicate: each element is compared with the last
    one kept. *)
Fixpoint unique_from {A} (p : A -> A -> bool) (last : A) (s : list A) : list A :=
  match s with
  | [] => []
  | y :: t => if p last y then unique_from p last t else y :: unique_from p y t
  end.

Definition std_unique {A} (p : A -> A -> bool) (s : list A) : list A :=
  match s with [] => [] | x :: t => x :: unique_from p x t end.

Definition both_slash (a b : ascii) : bool := ascii_eqb a b && ascii_eqb a "/".

Definition standardize_url (url : bytes) : bytes :=
  if is_empty url then url
  else
    let result := std_unique both_slash url in
    if (1 <? length result) && bool_decide (last result = Some "/"%char)
    then removelast result else result.

(** [s.find_last_of(set)] *)
Fixpoint find_last_of (set : bytes) (s : bytes) : option nat :=
  match s with
  | [] => None
  | c :: t =>
      match find_last_of set t with
      | Some i => Some (S i)
      | None => if existsb (ascii_eqb c) set then Some 0 else None
      end
  end.

Definition sanitize_upload_filename (filename : bytes) : bytes :=
  if is_empty filename then []
  else if bool_decide (NUL ∈ filename) then []
  else
    let basename := match find_last_of ["/"%char; "\"%char] filename with
                    | Some pos => substr_from filename (pos + 1)
                    | None => filename
                    end in
    if is_empty basename || bytes_eqb basename (bs ".") || bytes_eqb basename (bs "..")
    then [] else basename.

(** [webserver_impl::psk_cred_handler_func] after the user's handler returned
    [psk_hex]: [None] is the [-1] return, [Some psk] the key handed to GnuTLS
    (which owns the allocation; [malloc] is assumed to succeed). *)
Definition psk_byte (psk_hex : bytes) (i : nat) : Z :=
  Z.lor (Z.shiftl (hex_char_to_val (default NUL (psk_hex !! (i * 2)))) 4)
        (hex_char_to_val (default NUL (psk_hex !! (i * 2 + 1)))).

Definition psk_cred_handler_func (psk_cred_handler : option (bytes -> bytes))
    (username : bytes) : option (list Z) :=
  match psk_cred_handler with
  | None => None
  | Some f =>
      let psk_hex := f username in
      if is_empty psk_hex then None
      else
        let psk_len := length psk_hex / 2 in
        if (psk_len =? 0) || negb (length psk_hex mod 2 =? 0) || negb (is_valid_hex psk_hex)
        then None
        else Some (map (psk_byte psk_hex) (seq 0 psk_len))
  end.

End HttpUtils.
Import Unescape HttpUtils.

(** ** Splitting *)

(** The fields of [s] without a trailing empty one, which the loop never
    emits. *)
Definition fields_no_tail (sep : ascii) (s : bytes) : list bytes :=
  match last (split_on sep s) with
  | Some [] => removelast (split_on sep s)
  | _ => split_on sep s
  end.

Lemma fields_no_tail_cons sep a b :
  sep ∉ a -> fields_no_tail sep (a ++ sep :: b) = a :: fields_no_tail sep b.
Proof.
  intros Ha. unfold fields_no_tail. rewrite split_on_app by done.
  destruct (split_on_cons sep b) as (f & fs & ->).
  change (last (a :: f :: fs)) with (last (f :: fs)).
  destruct (last (f :: fs)) as [[|]|]; done.
Qed.

Lemma fields_no_tail_last sep s : sep ∉ s -> s <> [] -> fields_no_tail sep s = [s].
Proof.
  intros Hs Hne. unfold fields_no_tail. rewrite split_on_nosep by done. by destruct s.
Qed.

Lemma string_split_loop_fields fuel s sep collapse start result :
  length (drop start s) < fuel ->
  string_split_loop fuel s sep collapse start result =
  result ++ List.filter (fun t => negb collapse || negb (is_empty t))
                        (fields_no_tail sep (drop start s)).
Proof.
  revert start result. induction fuel as [|fuel IH]; intros start result Hf; [lia|].
  simpl. unfold find_from.
  destruct (find_char_split sep (drop start s)) as [(a & b & -> & Hd & Ha)|[-> Hn]]; simpl.
  - assert (Hb : drop (start + length a + 1) s = b).
    { replace (start + length a + 1) with (start + (length a + 1)) by lia.
      rewrite <-drop_drop, Hd, <-drop_drop, drop_app_length. done. }
    unfold substr. replace (start + length a - start) with (length a) by lia.
    rewrite IH, Hb.
    2: { rewrite Hb. rewrite Hd, length_app in Hf. simpl in Hf. lia. }
    rewrite !Hd, !take_app_length, fields_no_tail_cons by done.
    cbn [List.filter].
    destruct (negb collapse || negb (is_empty a)); [|done]. by rewrite <-app_assoc.
  - destruct (start <? length s) eqn:E; bool_prop.
    + rewrite fields_no_tail_last; [|done|].
      2: { intros H%(f_equal length). rewrite length_drop in H. simpl in H. lia. }
      simpl. unfold substr_from. destruct (_ || _); [done|by rewrite app_nil_r].
    + rewrite drop_ge by lia. simpl. by rewrite app_nil_r.
Qed.

(** [string_split] returns the separated fields of its argument, the empty
    ones dropped when [collapse] is set and a trailing empty one always. *)
Lemma string_split_filter s sep collapse :
  string_split s sep collapse =
  List.filter (fun t => negb collapse || negb (is_empty t)) (fields_no_tail sep s).
Proof.
  unfold string_split. destruct s as [|c s]; [done|]. simpl is_empty.
  rewrite string_split_loop_fields by (rewrite drop_0; lia). by rewrite drop_0.
Qed.

Lemma fields_no_tail_incl sep s f : f ∈ fields_no_tail sep s -> f ∈ split_on sep s.
Proof.
  unfold fields_no_tail. destruct (last (split_on sep s)) as [[|c l]|] eqn:E; [|done|done].
  apply last_Some in E as [l' ->]. rewrite removelast_last, elem_of_app. tauto.
Qed.

(** Tokens carry no separator and, when collapsing, are never empty. *)
Lemma tokenize_url_segments s sep t :
  t ∈ tokenize_url s sep -> t <> [] /\ sep ∉ t.
Proof.
  unfold tokenize_url. rewrite string_split_filter, list_elem_of_In, filter_In.
  intros [Hin Ht]. apply list_elem_of_In, fields_no_tail_incl in Hin.
  split; [by destruct t|]. pose proof (split_on_fields sep s) as HF.
  rewrite Forall_forall in HF. by apply HF.
Qed.

(** ** Unescaping *)

Lemma hex_digit_value_range c : (-1 <= hex_digit_value c <= 15)%Z.
Proof.
  unfold hex_digit_value. pose proof (code_range c).
  code_lits. repeat case_match; bool_prop; lia.
Qed.

Lemma buf_set_ok data i c : i < length data -> buf_set data i c = Ok (<[i:=c]> data).
Proof. intros H. unfold buf_set. by rewrite (proj2 (Nat.ltb_lt _ _) H). Qed.

Lemma buf_get_drop data i c t : drop i data = c :: t -> buf_get data i = Ok c.
Proof. intros (_ & H & _)%drop_cons_inv. unfold buf_get. by rewrite H. Qed.

(** What one run of the loop establishes: it stays inside the buffer, keeps
    its size, and leaves the decoded bytes in front. *)
Definition unescape_post (data : bytes) (rpos wpos : nat) (o : outcome (bytes * nat)) : Prop :=
  exists data' n, o = Ok (data', n) /\ length data' = length data /\ n <= length data
    /\ take n data' = take wpos data ++ decode (drop rpos data).

Lemma unescape_post_write data rpos wpos r c o :
  wpos < length data -> wpos <= rpos -> rpos < r ->
  decode (drop rpos data) = c :: decode (drop r data) ->
  unescape_post (<[wpos:=c]> data) r (wpos + 1) o -> unescape_post data rpos wpos o.
Proof.
  intros Hw Hle Hr Hdec (d' & n & -> & Hlen & Hn & Ht).
  rewrite length_insert in *. exists d', n. split_and!; [done|done|lia|].
  rewrite Ht, take_S_insert by done. rewrite drop_insert_lt by lia.
  by rewrite Hdec, <-app_assoc.
Qed.

Lemma unescape_loop_ok fuel data rpos wpos :
  wpos <= rpos -> wpos <= length data -> length (drop rpos data) < fuel ->
  unescape_post data rpos wpos (unescape_loop fuel data (length data) rpos wpos).
Proof.
  revert data rpos wpos. induction fuel as [|fuel IH]; intros data rpos wpos Hle Hw Hf; [lia|].
  simpl. destruct (rpos <? length data) eqn:Er; bool_prop; last first.
  { exists data, wpos. rewrite drop_ge by lia. simpl. by rewrite app_nil_r. }
  destruct (drop rpos data) as [|c t] eqn:Ed.
  { apply (f_equal length) in Ed. rewrite length_drop in Ed. simpl in Ed. lia. }
  rewrite (buf_get_drop _ _ _ _ Ed). simpl.
  assert (Hstep : forall r x, rpos < r -> decode (drop rpos data) = x :: decode (drop r data) ->
    unescape_post data rpos wpos
      (data' ← buf_set data wpos x; unescape_loop fuel data' (length data) r (wpos + 1))).
  { intros r x Hr Hdec. rewrite buf_set_ok by lia. simpl.
    eapply unescape_post_write; [| |exact Hr|exact Hdec|]; [lia|done|].
    rewrite <-(length_insert data wpos x) at 1. apply IH; [lia| |]; rewrite ?length_insert; [lia|].
    rewrite drop_insert_lt by lia. rewrite <-Ed, !length_drop in Hf. rewrite length_drop. lia. }
  pose proof (drop_cons_inv _ _ _ _ Ed) as (_ & _ & Ed1).
  rewrite Ed in Hstep. simpl decode in Hstep.
  destruct (ascii_eqb c NUL) eqn:E0.
  { exists data, wpos. rewrite Ed. simpl. rewrite E0, app_nil_r. split_and!; [done|done|lia|done]. }
  destruct (ascii_eqb c "+") eqn:E1; [apply Hstep; [lia|by rewrite Ed1]|].
  destruct (ascii_eqb c "%") eqn:E2; [|apply Hstep; [lia|by rewrite Ed1]].
  destruct (2 <? length data - rpos) eqn:E3; bool_prop; last first.
  { apply Hstep; [lia|]. rewrite Ed1. destruct t as [|h [|l t]]; [done|done|].
    apply (f_equal length) in Ed. rewrite length_drop in Ed. simpl in Ed. lia. }
  destruct t as [|h [|l t]];
    try (apply (f_equal length) in Ed; rewrite length_drop in Ed; simpl in Ed; lia).
  apply drop_cons_inv in Ed1 as Ed2. destruct Ed2 as (_ & Hh & Ed2).
  apply drop_cons_inv in Ed2 as Ed3. destruct Ed3 as (_ & Hl & Ed3).
  replace (rpos + 2) with (rpos + 1 + 1) by lia.
  rewrite (buf_get_drop _ _ _ _ Ed1), (buf_get_drop _ _ _ _ Ed2). simpl.
  destruct ((0 <=? hex_digit_value h) && (0 <=? hex_digit_value l))%Z eqn:E4; bool_prop.
  - apply Hstep; [lia|]. replace (rpos + 3) with (rpos + 1 + 1 + 1) by lia. rewrite Ed3.
    pose proof (hex_digit_value_range l). by rewrite lor_shiftl4 by lia.
  - apply Hstep; [lia|]. by rewrite Ed1.
Qed.

Lemma unescape_buf_raw_ok data :
  unescape_post data 0 0 (unescape_buf_raw data (length data)).
Proof.
  unfold unescape_buf_raw. destruct (length data =? 0) eqn:E; bool_prop.
  - apply length_zero_iff_nil in E as ->. exists [], 0. split_and!; done.
  - apply unescape_loop_ok; rewrite ?drop_0; lia.
Qed.

(** C40: The in-place percent decoder never touches a byte outside the buffer it is
    given, terminates within its size, and the [n] bytes it keeps are exactly
    the reference decoding of the input. *)
Theorem unescape_buf_raw_correct data :
  exists data' n,
    unescape_buf_raw data (length data) = Ok (data', n)
    /\ length data' = length data /\ n <= length data
    /\ take n data' = decode data.
Proof. apply unescape_buf_raw_ok. Qed.

Lemma http_unescape_decode s : http_unescape s = Ok (decode s, length (decode s)).
Proof.
  unfold http_unescape. destruct (is_empty s) eqn:Es; [by apply is_empty_true in Es as ->|].
  destruct (unescape_buf_raw_ok s) as (d & n & -> & Hlen & Hn & Ht). simpl.
  assert (Hdec : take n d = decode s) by (by rewrite Ht, drop_0).
  unfold str_at. case_decide; [|lia]. simpl.
  by rewrite <-Hdec, length_take_le by lia.
Qed.

Lemma hex_digit_roundtrip z : (0 <= z < 16)%Z -> hex_digit_value (hex_digit z) = z.
Proof.
  intros H. assert (Hz : z ∈ seqZ 0 16) by (apply elem_of_seqZ; lia).
  apply list_elem_of_In in Hz. vm_compute in Hz.
  repeat destruct Hz as [<-|Hz]; by vm_compute.
Qed.

Lemma decode_percent_encode s : NUL ∉ s -> decode (percent_encode s) = s.
Proof.
  induction s as [|c s IH]; [done|]. intros [Hc Hs]%not_elem_of_cons. simpl.
  pose proof (code_range c).
  assert (0 <= code c / 16 < 16)%Z by (split; [apply Z.div_pos|apply Z.div_lt_upper_bound]; lia).
  assert (0 <= code c mod 16 < 16)%Z by (apply Z.mod_pos_bound; lia).
  rewrite !hex_digit_roundtrip by done.
  rewrite !(proj2 (Z.leb_le _ _)) by lia. simpl.
  rewrite <-Z.div_mod by lia. rewrite chr_code. f_equal. by apply IH.
Qed.

(** A NUL-free string survives percent encoding by a client followed by
    [http_unescape], byte for byte. *)
Theorem http_unescape_roundtrip s :
  NUL ∉ s -> http_unescape (percent_encode s) = Ok (s, length s).
Proof. intros H. by rewrite http_unescape_decode, decode_percent_encode. Qed.

Lemma http_unescape_roundtrip_witness :
  NUL ∉ bs "a b/%?" /\ http_unescape (percent_encode (bs "a b/%?")) = Ok (bs "a b/%?", 6).
Proof.
  split; [by apply (bool_decide_unpack _)|]. apply http_unescape_roundtrip.
  by apply (bool_decide_unpack _).
Defined.

(** ** [standardize_url] *)

(** No two adjacent slashes. *)
Fixpoint no_double_slash (s : bytes) : bool :=
  match s with
  | a :: (b :: _) as t => negb (both_slash a b) && no_double_slash t
  | _ => true
  end.

Lemma both_slash_true a b : both_slash a b = true <-> a = "/"%char /\ b = "/"%char.
Proof. unfold both_slash. rewrite andb_true_iff, !ascii_eqb_true. naive_solver. Qed.

Lemma unique_from_no_double x s : no_double_slash (x :: unique_from both_slash x s) = true.
Proof.
  revert x. induction s as [|y s IH]; intros x; [done|]. simpl unique_from.
  destruct (both_slash x y) eqn:E; [apply IH|]. simpl. rewrite E. apply IH.
Qed.

Lemma no_double_slash_app a b :
  no_double_slash (a ++ b) = true -> no_double_slash a = true.
Proof.
  induction a as [|x [|y a] IH]; [done|done|]. simpl. intros H; bool_prop.
  rewrite H. by apply IH.
Qed.

Lemma std_unique_fixed s : no_double_slash s = true -> std_unique both_slash s = s.
Proof.
  destruct s as [|x s]; [done|]. simpl std_unique. intros H. f_equal. revert x H.
  induction s as [|y s IH]; intros x H; [done|]. simpl in *. bool_prop.
  rewrite H. f_equal. by apply IH.
Qed.

Definition no_trailing_slash (s : bytes) : Prop := last s <> Some "/"%char \/ length s <= 1.

Lemma removelast_last_ne (s : bytes) :
  no_double_slash s = true -> 1 < length s -> last s = Some "/"%char ->
  last (removelast s) <> Some "/"%char.
Proof.
  intros Hn Hl [l ->]%last_Some. rewrite removelast_last. intros [l' ->]%last_Some.
  rewrite <-app_assoc in Hn. clear Hl. induction l' as [|x l' IH]; [done|].
  apply IH. destruct l'; simpl in *; by bool_prop.
Qed.

Lemma standardize_url_shape url :
  no_double_slash (standardize_url url) = true /\ no_trailing_slash (standardize_url url).
Proof.
  unfold standardize_url, no_trailing_slash. destruct url as [|x url]; [split; [done|right; simpl; lia]|].
  simpl is_empty. cbv iota. set (r := std_unique both_slash (x :: url)).
  assert (Hr : no_double_slash r = true) by apply unique_from_no_double.
  destruct ((1 <? length r) && bool_decide (last r = Some "/"%char)) eqn:E.
  - bool_prop. split; [|left; by apply removelast_last_ne].
    destruct (last r) eqn:El; [|done]. apply last_Some in El as [l ->].
    rewrite removelast_last. by eapply no_double_slash_app.
  - split; [done|]. apply andb_false_iff in E as [E|E]; bool_prop; auto.
Qed.

Lemma standardize_url_fixed url :
  no_double_slash url = true -> no_trailing_slash url -> standardize_url url = url.
Proof.
  intros Hn Ht. unfold standardize_url. destruct (is_empty url); [done|].
  rewrite std_unique_fixed by done.
  destruct ((1 <? length url) && bool_decide (last url = Some "/"%char)) eqn:E; [|done].
  bool_prop. destruct Ht; [done|lia].
Qed.

(** [standardize_url] produces a canonical form: no doubled slash, no trailing
    slash except in the URL that is one slash, and standardizing again changes
    nothing. *)
Theorem standardize_url_canonical url :
  no_double_slash (standardize_url url) = true
  /\ no_trailing_slash (standardize_url url)
  /\ standardize_url (standardize_url url) = standardize_url url.
Proof.
  destruct (standardize_url_shape url) as [H1 H2]. split_and!; [done|done|].
  by apply standardize_url_fixed.
Qed.

(** ** Upload file names *)

Lemma find_last_of_None set s : find_last_of set s = None -> Forall (fun c => c ∉ set) s.
Proof.
  induction s as [|c s IH]; [constructor|]. simpl.
  destruct (find_last_of set s); [done|]. destruct (existsb (ascii_eqb c) set) eqn:E; [done|].
  intros _. constructor; [|by apply IH]. intros Hin. apply not_true_iff_false in E. apply E.
  apply existsb_exists. exists c. rewrite <-list_elem_of_In. split; [done|apply ascii_eqb_refl].
Qed.

Lemma find_last_of_Some set s i :
  find_last_of set s = Some i -> Forall (fun c => c ∉ set) (drop (i + 1) s).
Proof.
  revert i. induction s as [|c s IH]; intros i; [done|]. simpl.
  destruct (find_last_of set s) as [j|] eqn:E.
  - intros [= <-]. by apply IH.
  - destruct (existsb (ascii_eqb c) set); [|done]. intros [= <-]. simpl. rewrite drop_0.
    by apply find_last_of_None.
Qed.

Lemma basename_no_separator (f b : bytes) :
  b = match find_last_of ["/"%char; "\"%char] f with
      | Some pos => substr_from f (pos + 1) | None => f end ->
  Forall (fun c => c ∉ ["/"%char; "\"%char]) b /\ exists p, f = p ++ b.
Proof.
  intros ->. destruct (find_last_of _ f) as [pos|] eqn:E.
  - split; [by apply find_last_of_Some|]. exists (take (pos + 1) f). symmetry. apply take_drop.
  - split; [by apply find_last_of_None|]. by exists [].
Qed.

(** [sanitize_upload_filename] cannot be used to leave the upload directory: a
    name it accepts is a non-empty suffix of the client's, without a path
    separator of either platform, without NUL, and neither of the two special
    directory names. *)
Theorem sanitize_upload_filename_safe filename :
  sanitize_upload_filename filename <> [] ->
  let b := sanitize_upload_filename filename in
  "/"%char ∉ b /\ "\"%char ∉ b /\ NUL ∉ b /\ b <> bs "." /\ b <> bs ".."
  /\ exists dir, filename = dir ++ b.
Proof.
  unfold sanitize_upload_filename. destruct (is_empty filename); [done|].
  destruct (bool_decide (NUL ∈ filename)) eqn:E0; [done|]. bool_prop.
  destruct (basename_no_separator filename _ eq_refl) as [Hsep [dir Hdir]]. cbv zeta.
  set (b := match find_last_of _ _ with Some _ => _ | None => _ end) in *.
  destruct (is_empty b || bytes_eqb b (bs ".") || bytes_eqb b (bs "..")) eqn:E1; [done|].
  intros _. bool_prop. rewrite bytes_eqb_false in *. rewrite Forall_forall in Hsep.
  split_and!; try done; [| | |by exists dir]; intros Hin.
  - by apply (Hsep _ Hin), elem_of_cons; left.
  - apply (Hsep _ Hin), elem_of_cons; right. by apply list_elem_of_singleton.
  - apply E0. rewrite Hdir, elem_of_app. by right.
Qed.

Lemma sanitize_upload_filename_safe_witness :
  let b := sanitize_upload_filename (bs "../../etc/passwd") in
  b = bs "passwd" /\ "/"%char ∉ b.
Proof.
  split; [by vm_compute|].
  apply (sanitize_upload_filename_safe (bs "../../etc/passwd")). by vm_compute.
Defined.
