(* ===== verification/HttpMethod.v ===== *)
(** * HTTP methods and method sets

    [http_method.hpp]: the enumeration, the 32-bit [method_set] and its
    operators; [detail/method_utils.hpp]: the [Allow] header; the allowed-method
    mask of [http_resource] with its lazily cached [Allow] header. *)

From S2P Require Import Prelude.

Inductive http_method : Type :=
| get | head | post | put | del | connect | options | trace | patch
| count_.

#[export] Instance http_method_eq_dec : EqDecision http_method.
Proof. solve_decision. Defined.

(** [static_cast<std::uint8_t>(m)] *)
Definition method_index (m : http_method) : Z :=
  match m with
  | get => 0 | head => 1 | post => 2 | put => 3 | del => 4 | connect => 5
  | options => 6 | trace => 7 | patch => 8 | count_ => 9
  end.

(** The enumerators before the sentinel, in the order of the loops
    [for (i = 0; i < count_; ++i)]. *)
Definition all_methods : list http_method :=
  [get; head; post; put; del; connect; options; trace; patch].

#[export] Instance http_method_countable : Countable http_method.
Proof.
  apply (inj_countable' (fun m => Z.to_nat (method_index m))
    (fun n => nth n (all_methods ++ [count_]) count_)).
  by intros [].
Defined.

Definition method_bit (m : http_method) : Z := wrap32 (Z.shiftl 1 (method_index m)).

Definition valid_method_mask : Z := wrap32 (wrap32 (Z.shiftl 1 (method_index count_)) - 1).

(** [~x] on [std::uint32_t] *)
Definition not32 (x : Z) : Z := wrap32 (Z.lnot x).

Record method_set : Type := MethodSet { bits : Z }.

#[export] Instance method_set_eq_dec : EqDecision method_set.
Proof. solve_decision. Defined.

Module MethodSetOps.

Definition contains (s : method_set) (m : http_method) : bool :=
  negb (Z.land (bits s) (method_bit m) =? 0)%Z.

Definition set (s : method_set) (m : http_method) : method_set :=
  MethodSet (Z.lor (bits s) (method_bit m)).

Definition clear (s : method_set) (m : http_method) : method_set :=
  MethodSet (Z.land (bits s) (not32 (method_bit m))).

Definition set_all : method_set := MethodSet valid_method_mask.

Definition clear_all : method_set := MethodSet 0.

Definition empty (s : method_set) : bool :=
  (Z.land (bits s) valid_method_mask =? 0)%Z.

(** The set-set operators (and their compound-assignment forms). *)
Definition or_ (a b : method_set) : method_set := MethodSet (Z.lor (bits a) (bits b)).
Definition and_ (a b : method_set) : method_set := MethodSet (Z.land (bits a) (bits b)).
Definition xor_ (a b : method_set) : method_set := MethodSet (Z.lxor (bits a) (bits b)).
Definition not_ (s : method_set) : method_set :=
  MethodSet (Z.land valid_method_mask (not32 (bits s))).

(** The method-method operators. *)
Definition or_mm (a b : http_method) : method_set :=
  MethodSet (Z.lor (method_bit a) (method_bit b)).
Definition and_mm (a b : http_method) : method_set :=
  MethodSet (Z.land (method_bit a) (method_bit b)).
Definition xor_mm (a b : http_method) : method_set :=
  MethodSet (Z.lxor (method_bit a) (method_bit b)).
Definition not_m (m : http_method) : method_set :=
  MethodSet (Z.land valid_method_mask (not32 (method_bit m))).

(** The mixed operators. *)
Definition or_sm (s : method_set) (m : http_method) : method_set :=
  MethodSet (Z.lor (bits s) (method_bit m)).
Definition and_sm (s : method_set) (m : http_method) : method_set :=
  MethodSet (Z.land (bits s) (method_bit m)).
Definition xor_sm (s : method_set) (m : http_method) : method_set :=
  MethodSet (Z.lxor (bits s) (method_bit m)).

End MethodSetOps.
Import MethodSetOps.

Definition method_names : list bytes :=
  [bs "GET"; bs "HEAD"; bs "POST"; bs "PUT"; bs "DELETE"; bs "CONNECT";
   bs "OPTIONS"; bs "TRACE"; bs "PATCH"].

(** [to_string(http_method)]: the empty view for the sentinel. *)
Definition to_string (m : http_method) : bytes :=
  let idx := Z.to_nat (method_index m) in
  if length method_names <=? idx then [] else default [] (method_names !! idx).

(** The body of [format_allow_header]'s loop. *)
Definition allow_step (allowed : method_set) (header_value : bytes) (m : http_method) : bytes :=
  if negb (contains allowed m) then header_value
  else
    let header_value := if negb (is_empty header_value)
                        then header_value ++ bs ", " else header_value in
    header_value ++ to_string m.

Definition format_allow_header (allowed : method_set) : bytes :=
  foldl (allow_step allowed) [] all_methods.

(** ** The method mask of [http_resource] *)

Module ResourceMask.

(** The fields of [http_resource] these operations touch; the mutex only
    orders them. *)
Record resource_mask : Type := ResourceMask_ {
  methods_allowed_ : method_set;
  cached_allow_header_ : bytes;
  cached_allow_mask_ : method_set;
  cached_allow_valid_ : bool;
}.

Definition new_resource : resource_mask :=
  ResourceMask_ set_all [] clear_all false.

Definition set_allowing (r : resource_mask) (m : http_method) (allow : bool) : resource_mask :=
  if decide (m = count_) then r
  else
    ResourceMask_ (if allow then set (methods_allowed_ r) m else clear (methods_allowed_ r) m)
      (cached_allow_header_ r) (cached_allow_mask_ r) (cached_allow_valid_ r).

Definition allow_all (r : resource_mask) : resource_mask :=
  ResourceMask_ set_all (cached_allow_header_ r) (cached_allow_mask_ r) (cached_allow_valid_ r).

Definition disallow_all (r : resource_mask) : resource_mask :=
  ResourceMask_ clear_all (cached_allow_header_ r) (cached_allow_mask_ r) (cached_allow_valid_ r).

Definition is_allowed (r : resource_mask) (m : http_method) : bool :=
  contains (methods_allowed_ r) m.

Definition get_allowed_methods (r : resource_mask) : method_set := methods_allowed_ r.

(** Copy and move construction take the mask and start with an invalid cache;
    assignment keeps the target's cached mask and clears the rest. *)
Definition copy_construct (b : resource_mask) : resource_mask :=
  ResourceMask_ (methods_allowed_ b) [] clear_all false.

Definition assign (r b : resource_mask) : resource_mask :=
  ResourceMask_ (methods_allowed_ b) [] (cached_allow_mask_ r) false.

(** [get_allow_header]: the fast path under the shared lock, then the
    double-checked rebuild under the exclusive lock. *)
Definition get_allow_header (r : resource_mask) : resource_mask * bytes :=
  if cached_allow_valid_ r && bool_decide (cached_allow_mask_ r = methods_allowed_ r)
  then (r, cached_allow_header_ r)
  else
    let live := methods_allowed_ r in
    let r' := if negb (cached_allow_valid_ r) || negb (bool_decide (cached_allow_mask_ r = live))
              then ResourceMask_ live (format_allow_header live) live true
              else r in
    (r', cached_allow_header_ r').

End ResourceMask.

(** ** Bits *)

Lemma method_index_range m : (0 <= method_index m < 10)%Z.
Proof. by destruct m. Qed.

Lemma method_index_inj a b : method_index a = method_index b -> a = b.
Proof. by destruct a, b. Qed.

Lemma method_bit_pow m : method_bit m = (2 ^ method_index m)%Z.
Proof. by destruct m. Qed.

(** Membership is the test of one bit. *)
Lemma contains_testbit s m : contains s m = Z.testbit (bits s) (method_index m).
Proof.
  unfold contains. rewrite method_bit_pow. pose proof (method_index_range m) as Hm.
  destruct (Z.testbit (bits s) (method_index m)) eqn:E.
  - apply negb_true_iff, Z.eqb_neq. intros H.
    assert (Z.testbit (Z.land (bits s) (2 ^ method_index m)) (method_index m) = false) as Hb
      by (rewrite H; apply Z.bits_0).
    rewrite Z.land_spec, E, Z.pow2_bits_true in Hb by lia. done.
  - apply negb_false_iff, Z.eqb_eq. apply Z.bits_inj'. intros n Hn.
    rewrite Z.land_spec, Z.bits_0. destruct (decide (n = method_index m)) as [->|Hne].
    + by rewrite E.
    + rewrite Z.pow2_bits_false by lia. apply andb_false_r.
Qed.

Lemma testbit_method_bit m n :
  (0 <= n)%Z -> Z.testbit (method_bit m) n = bool_decide (n = method_index m).
Proof.
  intros Hn. rewrite method_bit_pow. pose proof (method_index_range m).
  case_bool_decide as E; subst; [by apply Z.pow2_bits_true|apply Z.pow2_bits_false; lia].
Qed.

Lemma not32_testbit x n : (0 <= n < 32)%Z -> Z.testbit (not32 x) n = negb (Z.testbit x n).
Proof.
  intros Hn. unfold not32, wrap32. rewrite Z.mod_pow2_bits_low by lia.
  apply Z.lnot_spec. lia.
Qed.

Lemma valid_mask_testbit m : Z.testbit valid_method_mask (method_index m) = bool_decide (m <> count_).
Proof. by destruct m. Qed.

Lemma decide_method_index a b :
  bool_decide (method_index a = method_index b) = bool_decide (b = a).
Proof. apply bool_decide_ext. split; [intros H; symmetry; by apply method_index_inj|by intros ->]. Qed.



Ltac method_bits m :=
  pose proof (method_index_range m); rewrite ?contains_testbit; simpl bits;
  rewrite ?Z.lor_spec, ?Z.land_spec, ?Z.lxor_spec, ?not32_testbit,
    ?testbit_method_bit, ?valid_mask_testbit, ?decide_method_index by lia.

(** ** Method sets are sets *)

(** The operators of [method_set] are the set operations on the enumerators:
    union, intersection, symmetric difference, complement within the nine
    methods (never the sentinel), insertion and removal, in the set, method and
    mixed forms. *)
Theorem method_set_operators a b x y m :
  contains (or_ a b) m = contains a m || contains b m
  /\ contains (and_ a b) m = contains a m && contains b m
  /\ contains (xor_ a b) m = xorb (contains a m) (contains b m)
  /\ contains (not_ a) m = bool_decide (m <> count_) && negb (contains a m)
  /\ contains (set a x) m = contains a m || bool_decide (x = m)
  /\ contains (clear a x) m = contains a m && negb (bool_decide (x = m))
  /\ contains (or_mm x y) m = bool_decide (x = m) || bool_decide (y = m)
  /\ contains (and_mm x y) m = bool_decide (x = m) && bool_decide (y = m)
  /\ contains (xor_mm x y) m = xorb (bool_decide (x = m)) (bool_decide (y = m))
  /\ contains (not_m x) m = bool_decide (m <> count_) && negb (bool_decide (x = m))
  /\ contains (or_sm a x) m = contains a m || bool_decide (x = m)
  /\ contains (and_sm a x) m = contains a m && bool_decide (x = m)
  /\ contains (xor_sm a x) m = xorb (contains a m) (bool_decide (x = m)).
Proof. split_and!; method_bits m; reflexivity. Qed.

Lemma contains_set s x m : contains (set s x) m = contains s m || bool_decide (x = m).
Proof. method_bits m; reflexivity. Qed.

Lemma contains_or a b m : contains (or_ a b) m = contains a m || contains b m.
Proof. method_bits m; reflexivity. Qed.

Lemma contains_set_all m : contains set_all m = bool_decide (m <> count_).
Proof. by destruct m. Qed.

Lemma contains_clear_all m : contains clear_all m = false.
Proof. by destruct m. Qed.

#[export] Hint Rewrite contains_set contains_or contains_set_all contains_clear_all : lhs_rw.

Lemma all_methods_complete m : m <> count_ <-> m ∈ all_methods.
Proof.
  rewrite list_elem_of_In. destruct m; simpl; split; intros H; try tauto;
    repeat destruct H as [H|H]; done.
Qed.

(** [empty] ignores the bits above the nine methods, set or not. *)
Theorem method_set_empty s :
  empty s = true <-> forall m, m <> count_ -> contains s m = false.
Proof.
  unfold empty. rewrite Z.eqb_eq. split.
  - intros H m Hm. rewrite contains_testbit. pose proof (method_index_range m).
    assert (Z.testbit (Z.land (bits s) valid_method_mask) (method_index m) = false) as Hb
      by (rewrite H; apply Z.bits_0).
    rewrite Z.land_spec, valid_mask_testbit, bool_decide_true, andb_true_r in Hb by done. done.
  - intros H. apply Z.bits_inj'. intros n Hn. rewrite Z.land_spec, Z.bits_0.
    destruct (decide (n < 9)%Z) as [Hlt|Hge].
    + assert (exists m, m <> count_ /\ method_index m = n) as (m & Hm & <-).
      { assert (Hz : n ∈ map method_index all_methods).
        { change (map method_index all_methods) with (seqZ 0 9). apply elem_of_seqZ. lia. }
        apply list_elem_of_fmap in Hz as (m & -> & Hm). exists m. split; [|done].
        by apply all_methods_complete. }
      by rewrite <-contains_testbit, H.
    + replace (Z.testbit valid_method_mask n) with false; [apply andb_false_r|].
      symmetry. change valid_method_mask with (Z.ones 9). apply Z.ones_spec_high. lia.
Qed.

(** ** The Allow header *)

Lemma allow_fold_join s l h :
  Forall (fun m => m <> count_) l ->
  foldl (allow_step s) h l =
  join (bs ", ") ((if is_empty h then [] else [h]) ++ map to_string (List.filter (contains s) l)).
Proof.
  intros HF. revert h. induction HF as [|m l Hm HF IH]; intros h.
  - simpl. rewrite app_nil_r. by destruct h.
  - cbn [foldl]. rewrite IH. cbn [List.filter]. unfold allow_step.
    destruct (contains s m) eqn:E; simpl; [|done].
    destruct h as [|c h]; simpl; [by destruct m|].
    destruct (map to_string _); simpl; by rewrite <-?app_assoc.
Qed.

Lemma format_allow_header_join s :
  format_allow_header s = join (bs ", ") (map to_string (List.filter (contains s) all_methods)).
Proof.
  unfold format_allow_header. rewrite allow_fold_join; [done|].
  apply Forall_forall. intros m. by rewrite all_methods_complete.
Qed.

(** How a client reads the header: comma separated, spaces ignored. *)
Definition allow_tokens (h : bytes) : list bytes :=
  split_on "," (List.filter (fun c => negb (ascii_eqb c " ")) h).

Lemma filter_space_join (l : list bytes) :
  Forall (fun x => " "%char ∉ x) l ->
  List.filter (fun c => negb (ascii_eqb c " ")) (join (bs ", ") l) = join [","%char] l.
Proof.
  assert (Hf : forall x : bytes, " "%char ∉ x -> List.filter (fun c => negb (ascii_eqb c " ")) x = x).
  { induction x as [|c x IH]; [done|]. intros [Hc Hx]%not_elem_of_cons. simpl.
    rewrite (proj2 (ascii_eqb_false c " ")) by done. simpl. by rewrite IH. }
  induction l as [|x [|y l] IH]; intros HF; [done| |]; inversion HF as [|? ? Hx Hl]; subst.
  - by apply Hf.
  - rewrite !join_cons, !List.filter_app, (Hf x), IH by done. done.
Qed.

Lemma to_string_clean m : " "%char ∉ to_string m /\ ","%char ∉ to_string m.
Proof. destruct m; split; by apply (bool_decide_unpack _). Qed.

Lemma to_string_inj a b : to_string a = to_string b -> a = b.
Proof. by destruct a, b. Qed.

(** The [Allow] header loses nothing: a client that splits it on commas finds
    the name of exactly the methods in the mask. *)
Theorem format_allow_header_tokens s m :
  m <> count_ ->
  to_string m ∈ allow_tokens (format_allow_header s) <-> contains s m = true.
Proof.
  intros Hm. unfold allow_tokens. rewrite format_allow_header_join, filter_space_join.
  2: { apply Forall_forall. intros ? (? & -> & _)%list_elem_of_fmap. apply to_string_clean. }
  destruct (List.filter (contains s) all_methods) as [|x l] eqn:E.
  - simpl. rewrite list_elem_of_singleton. split; [by destruct m|]. intros Hc.
    assert (In m (List.filter (contains s) all_methods)) as Hin.
    { apply filter_In. by rewrite <-list_elem_of_In, <-all_methods_complete. }
    by rewrite E in Hin.
  - rewrite split_join; [|done|].
    2: { apply Forall_forall. intros ? (? & -> & _)%list_elem_of_fmap. apply to_string_clean. }
    rewrite <-E, list_elem_of_fmap. split.
    + intros (m' & ->%to_string_inj & Hin). apply list_elem_of_In, filter_In in Hin. tauto.
    + intros Hc. exists m. split; [done|]. apply list_elem_of_In, filter_In.
      by rewrite <-list_elem_of_In, <-all_methods_complete.
Qed.

Lemma format_allow_header_tokens_witness :
  format_allow_header (or_mm get del) = bs "GET, DELETE"
  /\ (to_string del ∈ allow_tokens (format_allow_header (or_mm get del))
      <-> contains (or_mm get del) del = true).
Proof. split; [by vm_compute|]. by apply (format_allow_header_tokens (or_mm get del) del). Defined.

(** ** The cached header of a resource *)

Import ResourceMask.

Inductive resource_op : Type :=
| OpSetAllowing (m : http_method) (allow : bool)
| OpAllowAll
| OpDisallowAll
| OpGetAllowHeader
| OpCopyOf
| OpAssignFrom (b : resource_mask).

Definition resource_step (r : resource_mask) (op : resource_op) : resource_mask :=
  match op with
  | OpSetAllowing m allow => set_allowing r m allow
  | OpAllowAll => allow_all r
  | OpDisallowAll => disallow_all r
  | OpGetAllowHeader => fst (get_allow_header r)
  | OpCopyOf => copy_construct r
  | OpAssignFrom b => assign r b
  end.

(** The cache, when valid, holds the header of the mask it was built for. *)
Definition cache_ok (r : resource_mask) : Prop :=
  cached_allow_valid_ r = true ->
  cached_allow_header_ r = format_allow_header (cached_allow_mask_ r).

Lemma resource_step_ok r op : cache_ok r -> cache_ok (resource_step r op).
Proof.
  unfold cache_ok. intros H. destruct op; simpl; try done.
  - unfold set_allowing. case_decide; [done|]. by destruct allow.
  - unfold get_allow_header. case_match; [done|]. simpl. case_match; done.
Qed.

Lemma resource_run_ok ops r : cache_ok r -> cache_ok (foldl resource_step r ops).
Proof. revert r. induction ops as [|op ops IH]; intros r H; [done|]. by apply IH, resource_step_ok. Qed.

Lemma get_allow_header_ok r :
  cache_ok r -> snd (get_allow_header r) = format_allow_header (methods_allowed_ r)
                /\ methods_allowed_ (fst (get_allow_header r)) = methods_allowed_ r.
Proof.
  intros H. unfold get_allow_header.
  destruct (cached_allow_valid_ r) eqn:E1; simpl; [|done].
  destruct (bool_decide _) eqn:E2; simpl; [|done]. bool_prop. by rewrite H, E2.
Qed.

(** Whatever a resource went through since its construction (mask changes,
    copies, assignments, earlier header reads), [get_allow_header] returns the
    header of the current mask, and reading it changes no mask: the cache is
    unobservable. *)
Theorem get_allow_header_fresh ops :
  let r := foldl resource_step new_resource ops in
  snd (get_allow_header r) = format_allow_header (methods_allowed_ r)
  /\ methods_allowed_ (fst (get_allow_header r)) = methods_allowed_ r.
Proof. apply get_allow_header_ok, resource_run_ok. done. Qed.
