(* ===== verification/OrderedMap.v ===== *)
(** * [std::map] with a comparator

    [http_utils.hpp]: the [COMPARATOR] macro, and [std::map] as the list its
    iterators walk, sorted by a strict weak ordering. *)

From Stdlib Require Import Sorted.
From S2P Require Import Prelude.

(** ** Strict weak orderings *)

Class StrictWeak {K : Type} (lt : K -> K -> bool) : Prop := {
  sw_irrefl a : lt a a = false;
  sw_trans a b c : lt a b = true -> lt b c = true -> lt a c = true;
  sw_incomp a b c : lt a b = false -> lt b c = false -> lt a c = false;
}.
Arguments sw_irrefl {K} lt {_} a.
Arguments sw_trans {K} lt {_} a b c.
Arguments sw_incomp {K} lt {_} a b c.

Section Map.
Context {K V : Type} (lt : K -> K -> bool).

(** Equivalent keys: neither is less. *)
Definition equivb (a b : K) : bool := negb (lt a b) && negb (lt b a).

(** [m.find(k)] *)
Fixpoint map_find (k : K) (m : list (K * V)) : option V :=
  match m with
  | [] => None
  | e :: m => if lt (fst e) k then map_find k m else if lt k (fst e) then None else Some (snd e)
  end.

(** [m.insert_or_assign(k, v)]: an entry found keeps its key. *)
Fixpoint insert_or_assign (k : K) (v : V) (m : list (K * V)) : list (K * V) :=
  match m with
  | [] => [(k, v)]
  | e :: m' =>
      if lt (fst e) k then e :: insert_or_assign k v m'
      else if lt k (fst e) then (k, v) :: m else (fst e, v) :: m'
  end.

Definition sorted (m : list (K * V)) : Prop := StronglySorted (fun e f => lt (fst e) (fst f) = true) m.

End Map.

Section MapTheory.
Context {K V : Type} (lt : K -> K -> bool) `{!StrictWeak lt}.
Implicit Types (m : list (K * V)).

Lemma sw_asym a b : lt a b = true -> lt b a = false.
Proof.
  intros H. apply not_true_iff_false. intros H'. pose proof (sw_trans lt _ _ _ H H') as Hc.
  by rewrite (sw_irrefl lt) in Hc.
Qed.

Lemma equivb_lt_l a b c : equivb lt a b = true -> lt a c = lt b c.
Proof.
  unfold equivb. intros [?%negb_true_iff ?%negb_true_iff]%andb_true_iff.
  destruct (lt a c) eqn:E1, (lt b c) eqn:E2; try done.
  - by rewrite (sw_incomp lt a b c) in E1.
  - by rewrite (sw_incomp lt b a c) in E2.
Qed.

Lemma equivb_lt_r a b c : equivb lt a b = true -> lt c a = lt c b.
Proof.
  unfold equivb. intros [?%negb_true_iff ?%negb_true_iff]%andb_true_iff.
  destruct (lt c a) eqn:E1, (lt c b) eqn:E2; try done.
  - by rewrite (sw_incomp lt c b a) in E1.
  - by rewrite (sw_incomp lt c a b) in E2.
Qed.

Lemma equivb_refl a : equivb lt a a = true.
Proof. unfold equivb. by rewrite (sw_irrefl lt). Qed.

Lemma equivb_sym a b : equivb lt a b = equivb lt b a.
Proof. unfold equivb. apply andb_comm. Qed.

Lemma map_find_below k m : Forall (fun e => lt k (fst e) = true) m -> map_find lt k m = None.
Proof. intros [|e m' He _]; [done|]. simpl. rewrite (sw_asym _ _ He), He. done. Qed.

(** Lookup after insertion. *)
Lemma map_find_insert k v m k' :
  sorted lt m ->
  map_find lt k' (insert_or_assign lt k v m) = if equivb lt k k' then Some v else map_find lt k' m.
Proof.
  induction 1 as [|[e w] m Hm IH Hall]; simpl.
  { unfold equivb. by destruct (lt k k'), (lt k' k). }
  destruct (lt e k) eqn:E1; simpl.
  - destruct (lt e k') eqn:E2; [done|]. assert (Hk : lt k' k = true).
    { destruct (lt k' k) eqn:E; [done|]. by rewrite (sw_incomp lt e k' k) in E1. }
    unfold equivb. by rewrite Hk, andb_false_r.
  - destruct (lt k e) eqn:E2; simpl.
    + unfold equivb. destruct (lt k k') eqn:E3; [done|]. destruct (lt k' k) eqn:E4; [|done]. simpl.
      pose proof (sw_trans lt _ _ _ E4 E2) as Hke. by rewrite (sw_asym _ _ Hke), Hke.
    + assert (He : equivb lt e k = true) by (unfold equivb; by rewrite E1, E2).
      rewrite (equivb_lt_l _ _ k' He), (equivb_lt_r _ _ k' He). unfold equivb.
      destruct (lt k k') eqn:E3; [done|]. by destruct (lt k' k).
Qed.

Lemma insert_or_assign_keys k v m P :
  P k -> Forall (fun e => P (fst e)) m -> Forall (fun e => P (fst e)) (insert_or_assign lt k v m).
Proof.
  intros Hk. induction 1 as [|e m He Hm IH]; simpl; [by constructor|].
  destruct (lt (fst e) k); [by constructor|]. destruct (lt k (fst e)); repeat (constructor; [done|]); done.
Qed.

Lemma insert_or_assign_sorted k v m : sorted lt m -> sorted lt (insert_or_assign lt k v m).
Proof.
  induction 1 as [|[e w] m Hm IH Hall]; simpl; [constructor; constructor|].
  destruct (lt e k) eqn:E1; [|destruct (lt k e) eqn:E2].
  - constructor; [done|]. by apply (insert_or_assign_keys k v m (fun x => lt e x = true)).
  - constructor; [by constructor|]. constructor; [done|]. eapply Forall_impl; [exact Hall|].
    simpl. intros [e' w'] He'. simpl in *. by apply (sw_trans lt _ e).
  - by constructor.
Qed.

(** Every entry of a sorted map is the one its key finds. *)
Lemma map_find_elem m e : sorted lt m -> e ∈ m -> map_find lt (fst e) m = Some (snd e).
Proof.
  induction 1 as [|f m Hm IH Hall]; [by intros ?%not_elem_of_nil|].
  intros [->|He]%elem_of_cons; simpl; [by rewrite (sw_irrefl lt)|].
  rewrite Forall_forall in Hall. rewrite (Hall e He). auto.
Qed.

End MapTheory.

(** ** The [COMPARATOR] macro *)

Section Comparator.
Context (op : ascii -> Z).

Fixpoint comparator_chars (x y : bytes) : bool :=
  match x, y with
  | a :: x, b :: y =>
      if (op a <? op b)%Z then true else if (op b <? op a)%Z then false else comparator_chars x y
  | _, _ => false
  end.

(** Length first, then character by character under [op]. *)
Definition COMPARATOR (x y : bytes) : bool :=
  if length x <? length y then true
  else if length y <? length x then false
  else comparator_chars x y.

Lemma comparator_chars_irrefl x : comparator_chars x x = false.
Proof. induction x as [|a x IH]; simpl; [done|]. by rewrite Z.ltb_irrefl. Qed.

Lemma comparator_chars_trans x y z :
  comparator_chars x y = true -> comparator_chars y z = true -> comparator_chars x z = true.
Proof.
  revert y z. induction x as [|a x IH]; intros [|b y] [|c z]; simpl; try done.
  repeat case_match; bool_prop; try done; try lia. eauto.
Qed.

Lemma comparator_chars_incomp x y z :
  length x = length y -> length y = length z ->
  comparator_chars x y = false -> comparator_chars y z = false -> comparator_chars x z = false.
Proof.
  revert y z. induction x as [|a x IH]; intros [|b y] [|c z]; simpl; try done. intros [=] [=].
  repeat case_match; bool_prop; try done; try lia. eauto.
Qed.

#[export] Instance COMPARATOR_strict_weak : StrictWeak COMPARATOR.
Proof.
  unfold COMPARATOR. constructor.
  - intros a. by rewrite Nat.ltb_irrefl, comparator_chars_irrefl.
  - intros a b c. repeat case_match; bool_prop; try done; try lia. apply comparator_chars_trans.
  - intros a b c. repeat case_match; bool_prop; try done; try lia. apply comparator_chars_incomp; lia.
Qed.

(** Equivalent strings are those [op] maps to the same text. *)
Lemma COMPARATOR_equiv x y : equivb COMPARATOR x y = bool_decide (map op x = map op y).
Proof.
  assert (Hc : forall x y, length x = length y ->
    negb (comparator_chars x y) && negb (comparator_chars y x) = bool_decide (map op x = map op y)).
  { clear. induction x as [|a x IH]; intros [|b y]; simpl; try done. intros [=].
    destruct (op a <? op b)%Z eqn:E1; bool_prop.
    { rewrite bool_decide_false by (intros [=]; lia). done. }
    destruct (op b <? op a)%Z eqn:E2; bool_prop.
    { rewrite bool_decide_false by (intros [=]; lia). done. }
    rewrite IH by done. apply bool_decide_ext. assert (op a = op b) as -> by lia.
    split; [by intros ->|by intros [=]]. }
  unfold equivb, COMPARATOR. destruct (decide (length x = length y)) as [Hl|Hl].
  - rewrite Hl, Nat.ltb_irrefl. by apply Hc.
  - rewrite bool_decide_false by (intros Hm%(f_equal length); rewrite !length_map in Hm; lia).
    destruct (Nat.ltb_spec (length x) (length y)); [done|].
    by destruct (Nat.ltb_spec (length y) (length x)); [|lia].
Qed.

End Comparator.
