(* ===== verification/Paths.v ===== *)
(** * Path normalization and the auth skip list

    [normalize_path], [normalize_auth_skip_paths] and [should_skip_auth] of
    [detail/webserver_callbacks.cpp], [canonicalize_lookup_path] of
    [detail/route_table.cpp], and [append_sanitized] of [webserver.cpp]. *)

From S2P Require Import Prelude HttpUtils.
Import HttpUtils.HttpUtils.

(** The loop of [normalize_path]: [out] is the output buffer, [seg_marks] the
    stack (top first) of the sizes [out] had before each retained segment.
    Every iteration moves [start] past a separator or past the end. *)
Fixpoint normalize_loop (fuel : nat) (path : bytes) (start : nat) (out : bytes)
    (seg_marks : list nat) : bytes :=
  match fuel with
  | 0 => out
  | S fuel =>
      if start <? length path then
        let end_ := default (length path) (find_from "/" path start) in
        let seg := substr path start (end_ - start) in
        let start := end_ + 1 in
        if is_empty seg || bytes_eqb seg (bs ".") then
          normalize_loop fuel path start out seg_marks
        else if bytes_eqb seg (bs "..") then
          match seg_marks with
          | [] => normalize_loop fuel path start out seg_marks
          | back :: rest => normalize_loop fuel path start (take back out) rest
          end
        else
          let seg_marks := length out :: seg_marks in
          let out := if 1 <? length out then out ++ bs "/" else out in
          normalize_loop fuel path start (out ++ seg) seg_marks
      else out
  end.

Definition normalize_path (path : bytes) : bytes :=
  let start := match path with c :: _ => if ascii_eqb c "/" then 1 else 0 | [] => 0 end in
  normalize_loop (S (length path)) path start (bs "/") [].

(** [entry.size() >= 2 && entry.back() == '*' && entry[entry.size()-2] == '/'] *)
Definition ends_with_slash_star (e : bytes) : bool :=
  (2 <=? length e)
  && bool_decide (last e = Some "*"%char)
  && bool_decide (e !! (length e - 2) = Some "/"%char).

Definition skip_entry_error (entry : bytes) : bytes :=
  bs "auth_skip_paths entry contains a percent-encoded sequence ('" ++ entry
  ++ bs "'). Skip-path entries must be provided in decoded form (e.g. '/public/test', not '/public%2Ftest').".

Definition normalize_skip_entry (entry : bytes) : outcome bytes :=
  if bool_decide ("%"%char ∈ entry) then Throw (invalid_argument (skip_entry_error entry))
  else if ends_with_slash_star entry then
    if length entry =? 2 then Ok (bs "/*")
    else
      let prefix := substr entry 0 (length entry - 2) in
      let normalized_prefix := normalize_path prefix in
      if bytes_eqb normalized_prefix (bs "/") then Ok (bs "/*")
      else Ok (normalized_prefix ++ bs "/*")
  else Ok (normalize_path entry).

Fixpoint normalize_auth_skip_paths (raw : list bytes) : outcome (list bytes) :=
  match raw with
  | [] => Ok []
  | entry :: raw =>
      e ← normalize_skip_entry entry;
      es ← normalize_auth_skip_paths raw;
      Ok (e :: es)
  end.

(** One iteration of the loop of [should_skip_auth]. *)
Definition skip_entry_matches (normalized skip_path : bytes) : bool :=
  bytes_eqb skip_path normalized
  || (ends_with_slash_star skip_path
      && (let prefix := substr skip_path 0 (length skip_path - 1) in
          bytes_eqb (take (length prefix) normalized) prefix)).

Definition should_skip_auth (auth_skip_paths_normalized : list bytes) (path : bytes) : bool :=
  if is_empty auth_skip_paths_normalized then false
  else
    let normalized := normalize_path path in
    existsb (skip_entry_matches normalized) auth_skip_paths_normalized.

Definition canonicalize_lookup_path (path : bytes) : bytes :=
  match path with
  | [] => bs "/"
  | c :: _ =>
      let has_leading_slash := ascii_eqb c "/" in
      let has_trailing_slash := (1 <? length path) && bool_decide (last path = Some "/"%char) in
      if has_leading_slash && negb has_trailing_slash then path
      else
        let scratch := if negb has_leading_slash then bs "/" else [] in
        if has_trailing_slash then scratch ++ take (length path - 1) path
        else scratch ++ path
  end.

Definition sanitize_byte (c : ascii) : ascii :=
  if (code c <? 32)%Z || (code c =? 127)%Z then "-"%char else c.

Definition append_sanitized (out sv : bytes) : bytes := out ++ map sanitize_byte sv.

(** ** Reference: a stack of segments *)

(** Segments are kept top first. *)
Definition seg_step (st : list bytes) (seg : bytes) : list bytes :=
  if is_empty seg || bytes_eqb seg (bs ".") then st
  else if bytes_eqb seg (bs "..") then tail st
  else seg :: st.

Definition render (st : list bytes) : bytes := bs "/" ++ join (bs "/") (reverse st).

(** The canonical segments of a path, outermost first. *)
Definition path_segments (path : bytes) : list bytes :=
  reverse (foldl seg_step [] (split_on "/" path)).

(** A segment that survives normalization. *)
Definition plain_segment (seg : bytes) : Prop :=
  seg <> [] /\ seg <> bs "." /\ seg <> bs ".." /\ "/"%char ∉ seg.

Fixpoint marks_of (st : list bytes) : list nat :=
  match st with [] => [] | _ :: st => length (render st) :: marks_of st end.

Lemma join_snoc (sep : bytes) l x :
  l <> [] -> join sep (l ++ [x]) = join sep l ++ sep ++ x.
Proof.
  induction l as [|y [|z l] IH]; intros H; [done|done|].
  change ((y :: z :: l) ++ [x]) with (y :: z :: (l ++ [x])).
  rewrite !join_cons. change (z :: l ++ [x]) with ((z :: l) ++ [x]).
  rewrite IH by done. by rewrite <-!app_assoc.
Qed.

Lemma render_cons st x :
  render (x :: st) = render st ++ (if is_empty st then [] else bs "/") ++ x.
Proof.
  unfold render. rewrite reverse_cons. destruct st as [|y st]; [done|].
  rewrite join_snoc; [by rewrite <-!app_assoc|].
  rewrite reverse_cons. by destruct (reverse st).
Qed.

Lemma render_length st :
  Forall (fun x => x <> []) st -> (1 <? length (render st)) = negb (is_empty st).
Proof.
  intros H. destruct H as [|x st Hx H]; [done|]. rewrite render_cons.
  apply Nat.ltb_lt. unfold render. rewrite !length_app.
  destruct x; [done|]. simpl. lia.
Qed.

Lemma seg_step_plain st seg :
  "/"%char ∉ seg -> Forall plain_segment st -> Forall plain_segment (seg_step st seg).
Proof.
  intros Hs H. unfold seg_step. destruct (is_empty seg || bytes_eqb seg (bs ".")) eqn:E1; [done|].
  destruct (bytes_eqb seg (bs "..")) eqn:E2; [by destruct H|].
  bool_prop. rewrite bytes_eqb_false, is_empty_false in *. by constructor.
Qed.

Lemma foldl_seg_step_plain segs st :
  Forall (fun f => "/"%char ∉ f) segs -> Forall plain_segment st ->
  Forall plain_segment (foldl seg_step st segs).
Proof.
  intros Hs. revert st. induction Hs as [|f fs Hf Hs IH]; intros st H; [done|].
  by apply IH, seg_step_plain.
Qed.

Lemma path_segments_plain path : Forall plain_segment (path_segments path).
Proof.
  unfold path_segments. apply Forall_reverse, foldl_seg_step_plain;
    [apply split_on_fields|constructor].
Qed.

(** One step of the buffer loop is one step of the stack machine. *)
Lemma normalize_step_buffer fuel path start st seg :
  Forall (fun x => x <> []) st ->
  (if is_empty seg || bytes_eqb seg (bs ".") then
     normalize_loop fuel path start (render st) (marks_of st)
   else if bytes_eqb seg (bs "..") then
     match marks_of st with
     | [] => normalize_loop fuel path start (render st) (marks_of st)
     | back :: rest => normalize_loop fuel path start (take back (render st)) rest
     end
   else
     normalize_loop fuel path start
       ((if 1 <? length (render st) then render st ++ bs "/" else render st) ++ seg)
       (length (render st) :: marks_of st))
  = normalize_loop fuel path start (render (seg_step st seg)) (marks_of (seg_step st seg)).
Proof.
  intros Hne. unfold seg_step. destruct (is_empty seg || _); [done|].
  destruct (bytes_eqb seg (bs "..")).
  - destruct st as [|x st]; [done|]. cbn [marks_of tail].
    rewrite render_cons, take_app_length. done.
  - cbn [marks_of]. rewrite render_cons, render_length by done.
    by destruct st; simpl; rewrite <-?app_assoc.
Qed.

Lemma plain_nonempty st : Forall plain_segment st -> Forall (fun x => x <> []) st.
Proof. intros H. eapply Forall_impl; [exact H|]. by intros x [? _]. Qed.

Lemma normalize_loop_segments fuel path start st :
  length (drop start path) < fuel -> Forall plain_segment st ->
  normalize_loop fuel path start (render st) (marks_of st)
  = render (foldl seg_step st (split_on "/" (drop start path))).
Proof.
  revert start st. induction fuel as [|fuel IH]; intros start st Hf Hst; [lia|].
  cbn [normalize_loop]. destruct (start <? length path) eqn:E; bool_prop.
  2: { rewrite drop_ge by lia. done. }
  cbv zeta. rewrite normalize_step_buffer by (by apply plain_nonempty).
  unfold find_from, substr.
  destruct (find_char_split "/" (drop start path)) as [(a & b & -> & Hd & Ha)|[-> Hn]]; simpl default.
  - assert (Hb : drop (start + length a + 1) path = b).
    { replace (start + length a + 1) with (start + (length a + 1)) by lia.
      rewrite <-drop_drop, Hd, <-drop_drop, drop_app_length. done. }
    replace (start + length a - start) with (length a) by lia.
    rewrite Hd, take_app_length, split_on_app by done. simpl foldl. rewrite IH, Hb; [done| |].
    + rewrite Hb. rewrite Hd, length_app in Hf. simpl in Hf. lia.
    + by apply seg_step_plain.
  - rewrite take_ge by (rewrite length_drop; lia). rewrite split_on_nosep by done. simpl foldl.
    destruct fuel; [rewrite length_drop in Hf; lia|]. cbn [normalize_loop].
    by replace (length path + 1 <? length path) with false by (symmetry; apply Nat.ltb_ge; lia).
Qed.

Lemma split_leading_slash path :
  foldl seg_step [] (split_on "/" (drop
    (match path with c :: _ => if ascii_eqb c "/" then 1 else 0 | [] => 0 end) path))
  = foldl seg_step [] (split_on "/" path).
Proof.
  destruct path as [|c path]; [done|]. destruct (ascii_eqb c "/") eqn:E; [|done].
  simpl. rewrite E. done.
Qed.

Lemma normalize_path_join path :
  normalize_path path = bs "/" ++ join (bs "/") (path_segments path).
Proof.
  unfold normalize_path, path_segments. rewrite <-split_leading_slash.
  apply (normalize_loop_segments _ _ _ []); [|constructor].
  rewrite length_drop. lia.
Qed.

(** The single-pass buffer implementation of [normalize_path] computes the
    specification of dot-segment removal: split on slashes, drop empty and
    [.] segments, let [..] pop, and join under a leading slash. *)
Theorem normalize_path_segments path :
  normalize_path path = bs "/" ++ join (bs "/") (path_segments path).
Proof. apply normalize_path_join. Qed.

Lemma foldl_plain segs st :
  Forall plain_segment segs -> foldl seg_step st segs = reverse segs ++ st.
Proof.
  intros H. revert st. induction H as [|x l (H1 & H2 & H3 & _) H IH]; intros st; [done|].
  cbn [foldl]. rewrite IH, reverse_cons, <-app_assoc. unfold seg_step.
  destruct x; [done|]. simpl is_empty.
  by rewrite (proj2 (bytes_eqb_false _ _) H2), (proj2 (bytes_eqb_false _ _) H3).
Qed.

Lemma split_plain l :
  Forall plain_segment l -> l <> [] -> split_on "/" (join (bs "/") l) = l.
Proof.
  intros H Hne. apply split_join; [done|]. eapply Forall_impl; [exact H|].
  by intros x (_ & _ & _ & ?).
Qed.

(** Canonical paths and lists of plain segments are in bijection. *)
Lemma path_segments_render l :
  Forall plain_segment l -> path_segments (bs "/" ++ join (bs "/") l) = l.
Proof.
  intros H. unfold path_segments. destruct (decide (l = [])) as [->|Hne]; [done|].
  change (bs "/" ++ join (bs "/") l) with ([] ++ "/"%char :: join (bs "/") l).
  rewrite split_on_app, split_plain by (done || apply not_elem_of_nil). cbn [foldl].
  rewrite foldl_plain by done. rewrite app_nil_r. apply reverse_involutive.
Qed.

Lemma path_segments_normalize path : path_segments (normalize_path path) = path_segments path.
Proof. rewrite normalize_path_join. apply path_segments_render, path_segments_plain. Qed.

Lemma normalize_path_idem path : normalize_path (normalize_path path) = normalize_path path.
Proof. rewrite !(normalize_path_join (normalize_path path)), path_segments_normalize.
  by rewrite <-normalize_path_join. Qed.

Lemma last_app_nonempty {A} (l k : list A) : k <> [] -> last (l ++ k) = last k.
Proof. intros H. rewrite last_app. destruct (last k) eqn:E; [done|]. by apply last_None in E. Qed.

Lemma join_last_plain l :
  Forall plain_segment l -> l <> [] -> exists c, last (join (bs "/") l) = Some c /\ c <> "/"%char.
Proof.
  intros H Hne. induction H as [|x [|y l] (Hx & _ & _ & Hs) H IH]; [done| |].
  - simpl. destruct (last x) as [c|] eqn:E; [|by apply last_None in E].
    exists c. split; [done|]. intros ->. apply Hs. apply last_Some in E as [l' ->].
    rewrite elem_of_app, list_elem_of_singleton. by right.
  - destruct IH as (c & Hc & Hn); [done|]. exists c. split; [|done].
    rewrite join_cons, last_app_nonempty; [rewrite last_app_nonempty; [done|]|done].
    intros E. rewrite E in Hc. done.
Qed.

Lemma no_double_slash_cons a b t :
  no_double_slash (a :: b :: t) = negb (both_slash a b) && no_double_slash (b :: t).
Proof. done. Qed.

Lemma no_double_slash_seg (seg t : bytes) :
  "/"%char ∉ seg -> no_double_slash t = true -> no_double_slash (seg ++ t) = true.
Proof.
  induction seg as [|c seg IH]; [done|]. intros [Hc Hs]%not_elem_of_cons Ht.
  specialize (IH Hs Ht). simpl app.
  destruct (seg ++ t) as [|d u]; [done|]. rewrite no_double_slash_cons, IH.
  assert (both_slash c d = false) as ->; [|done].
  apply not_true_iff_false. rewrite both_slash_true. intros [? _]. congruence.
Qed.

Lemma no_double_slash_render l :
  Forall plain_segment l -> no_double_slash (bs "/" ++ join (bs "/") l) = true.
Proof.
  induction 1 as [|x l (Hx & _ & _ & Hs) H IH]; [done|].
  assert (Ht : no_double_slash (join (bs "/") (x :: l)) = true).
  { destruct l; [rewrite <-(app_nil_r (join _ _)); by apply no_double_slash_seg|].
    rewrite join_cons. by apply no_double_slash_seg. }
  destruct x as [|c x]; [done|]. apply not_elem_of_cons in Hs as [Hc _].
  assert (exists u, join (bs "/") ((c :: x) :: l) = c :: u) as [u E].
  { destruct l; [by exists x|]. by eexists. }
  rewrite E in *. change (bs "/" ++ c :: u) with ("/"%char :: c :: u).
  rewrite no_double_slash_cons, Ht. replace (both_slash "/" c) with false; [done|].
  symmetry. apply not_true_iff_false. rewrite both_slash_true. intros [_ ?]. congruence.
Qed.

(** What [normalize_path] returns is canonical for the whole dispatch chain: no
    empty, [.] or [..] segment is left, and neither a second [normalize_path]
    (run by [should_skip_auth]), nor [canonicalize_lookup_path] (run by the
    route table), nor [standardize_url] changes it, so authentication and
    routing see the same path. *)
Theorem normalize_path_canonical path :
  Forall plain_segment (path_segments (normalize_path path))
  /\ normalize_path (normalize_path path) = normalize_path path
  /\ canonicalize_lookup_path (normalize_path path) = normalize_path path
  /\ standardize_url (normalize_path path) = normalize_path path.
Proof.
  pose proof (path_segments_plain path) as Hp.
  split_and!; [rewrite path_segments_normalize; done|apply normalize_path_idem| |].
  - rewrite normalize_path_join. unfold canonicalize_lookup_path.
    destruct (decide (path_segments path = [])) as [->|Hne]; [done|].
    destruct (join_last_plain _ Hp Hne) as (c & Hc & Hns).
    rewrite bool_decide_false; [by rewrite andb_false_r|].
    rewrite last_app_nonempty; [congruence|]. intros E. by rewrite E in Hc.
  - rewrite normalize_path_join. apply standardize_url_fixed; [by apply no_double_slash_render|].
    unfold no_trailing_slash. destruct (decide (path_segments path = [])) as [->|Hne]; [right; simpl; lia|].
    destruct (join_last_plain _ Hp Hne) as (c & Hc & Hns). left.
    rewrite last_app_nonempty; [congruence|]. intros E. by rewrite E in Hc.
Qed.

(** ** The skip list *)

Lemma ends_with_slash_star_app e :
  ends_with_slash_star e = true <-> exists pre, e = pre ++ bs "/*".
Proof.
  unfold ends_with_slash_star. rewrite !andb_true_iff, !bool_decide_eq_true, Nat.leb_le. split.
  - intros [[H H0] H1]. apply last_Some in H0 as [l ->].
    rewrite length_app in *. simpl in *. replace (length l + 1 - 2) with (length l - 1) in * by lia.
    rewrite lookup_app_l in H1 by lia.
    destruct (last l) as [c|] eqn:E; [|apply last_None in E; subst; simpl in *; lia].
    apply last_Some in E as [l' ->]. rewrite length_app in *. simpl in *.
    replace (length l' + 1 - 1) with (length l') in H1 by lia.
    rewrite lookup_app_r, Nat.sub_diag in H1 by lia. injection H1 as ->.
    exists l'. by rewrite <-app_assoc.
  - intros [pre ->]. rewrite length_app. change (length (bs "/*")) with 2.
    split; [split|].
    + lia.
    + rewrite last_app. done.
    + replace (length pre + 2 - 2) with (length pre) by lia.
      rewrite lookup_app_r, Nat.sub_diag by lia. done.
Qed.

Lemma join_app (l k : list bytes) sep :
  l <> [] -> k <> [] -> join sep (l ++ k) = join sep l ++ sep ++ join sep k.
Proof.
  intros Hl Hk. induction l as [|x [|y l] IH]; [done|by destruct k|].
  change ((x :: y :: l) ++ k) with (x :: y :: (l ++ k)). rewrite !join_cons.
  change (y :: l ++ k) with ((y :: l) ++ k). rewrite IH by done. by rewrite <-!app_assoc.
Qed.

(** A wildcard prefix matches exactly the paths strictly below it. *)
Lemma starts_with_segments P S :
  Forall plain_segment P -> Forall plain_segment S -> P <> [] ->
  (exists u, bs "/" ++ join (bs "/") S = (bs "/" ++ join (bs "/") P ++ bs "/") ++ u)
  <-> exists rest, rest <> [] /\ S = P ++ rest.
Proof.
  intros HP HS HPne. split.
  - intros [u E]. rewrite <-!app_assoc in E. apply app_inv_head in E.
    assert (S <> []) as HSne.
    { intros ->. simpl in E. symmetry in E. apply app_nil in E as [_ ?]. done. }
    apply (f_equal (split_on "/")) in E. rewrite split_plain in E by done.
    change (bs "/" ++ u) with ("/"%char :: u) in E.
    assert (E' : split_on "/" (join (bs "/") P ++ "/"%char :: u) = P ++ split_on "/" u).
    { apply split_join_app; [done|]. eapply Forall_impl; [exact HP|]. by intros x (_ & _ & _ & ?). }
    rewrite E' in E. exists (split_on "/" u). split; [|done].
    destruct (split_on_cons "/" u) as (f & fs & ->). done.
  - intros (rest & Hr & ->). exists (join (bs "/") rest). rewrite join_app by done.
    by rewrite <-!app_assoc.
Qed.

Lemma starts_with_take (n s : bytes) :
  bytes_eqb (take (length n) s) n = true <-> exists u, s = n ++ u.
Proof.
  rewrite bytes_eqb_true. split.
  - intros E. exists (drop (length n) s). rewrite <-E at 1. by rewrite take_drop.
  - intros [u ->]. by rewrite take_app_length.
Qed.

(** What an entry of the configured list means. *)
Definition skip_spec (entry path : bytes) : Prop :=
  if ends_with_slash_star entry then
    let below := path_segments (take (length entry - 2) entry) in
    below = [] \/ exists rest, rest <> [] /\ path_segments path = below ++ rest
  else path_segments path = path_segments entry.

Lemma skip_wildcard_matches (e : bytes) P S :
  Forall plain_segment P -> Forall plain_segment S ->
  e = bs "/" ++ join (bs "/") P ->
  skip_entry_matches (bs "/" ++ join (bs "/") S)
    (if bytes_eqb e (bs "/") then bs "/*" else e ++ bs "/*") = true
  <-> P = [] \/ exists rest, rest <> [] /\ S = P ++ rest.
Proof.
  intros HP HS ->. destruct (decide (P = [])) as [->|Hne].
  - split; [by left|]. intros _. unfold skip_entry_matches. apply orb_true_iff. right. done.
  - rewrite (proj2 (bytes_eqb_false _ _)).
    2: { intros E. apply (f_equal length) in E. rewrite length_app in E.
         destruct (join_last_plain P HP Hne) as (c & Hc & _).
         destruct (join (bs "/") P); [done|]. simpl in E. lia. }
    transitivity (exists rest, rest <> [] /\ S = P ++ rest);
      [|split; [by right|by intros [?|?]]].
    rewrite <-starts_with_segments by done. unfold skip_entry_matches.
    set (e := bs "/" ++ join (bs "/") P).
    rewrite (proj2 (ends_with_slash_star_app (e ++ bs "/*"))) by eauto.
    replace (substr (e ++ bs "/*") 0 (length (e ++ bs "/*") - 1)) with (e ++ bs "/").
    2: { unfold substr. rewrite drop_0, length_app. change (length (bs "/*")) with 2.
         replace (length e + 2 - 1) with (length (e ++ bs "/")) by (rewrite length_app; simpl; lia).
         change (bs "/*") with (bs "/" ++ bs "*"). by rewrite app_assoc, take_app_length. }
    rewrite orb_true_iff, andb_true_l, starts_with_take, bytes_eqb_true.
    unfold e. rewrite <-!app_assoc. split; [|by right]. intros [<-|H]; [|done].
    exists (bs "*"). by rewrite <-!app_assoc.
Qed.

Lemma normalize_skip_entry_spec entry e path :
  normalize_skip_entry entry = Ok e ->
  (ends_with_slash_star entry = false -> last (path_segments entry) <> Some (bs "*")) ->
  skip_entry_matches (normalize_path path) e = true <-> skip_spec entry path.
Proof.
  unfold normalize_skip_entry, skip_spec. case_bool_decide; [done|].
  destruct (ends_with_slash_star entry) eqn:Es; intros He Hstar.
  - assert (e = if bytes_eqb (normalize_path (take (length entry - 2) entry)) (bs "/")
                then bs "/*" else normalize_path (take (length entry - 2) entry) ++ bs "/*") as ->.
    { unfold substr in He. rewrite drop_0 in He. destruct (length entry =? 2) eqn:E2; bool_prop.
      - rewrite E2. by injection He as <-.
      - destruct (bytes_eqb _ _); by injection He as <-. }
    rewrite (normalize_path_join path).
    apply skip_wildcard_matches; [apply path_segments_plain..|apply normalize_path_join].
  - injection He as <-. specialize (Hstar eq_refl). unfold skip_entry_matches.
    rewrite orb_true_iff, bytes_eqb_true. rewrite !normalize_path_join.
    assert (Hns : ends_with_slash_star (bs "/" ++ join (bs "/") (path_segments entry)) = false).
    { apply not_true_iff_false. intros [pre E]%ends_with_slash_star_app.
      pose proof (path_segments_plain entry) as Hp.
      destruct (decide (path_segments entry = [])) as [E0|Hne]; [rewrite E0 in E; by destruct pre as [|? []]|].
      destruct pre as [|c pre]; [injection E as E|injection E as _ E].
      { apply (f_equal (split_on "/")) in E. rewrite split_plain in E by done.
        apply Hstar. by rewrite E. }
      change (bs "/*") with ("/"%char :: bs "*") in E.
      apply (f_equal (split_on "/")) in E. rewrite split_plain in E by done.
      apply Hstar. rewrite E.
      rewrite <-(join_split "/" pre). destruct (split_on_cons "/" pre) as (f & fs & Ef).
      rewrite split_join_app; [by rewrite last_app|by rewrite Ef|apply split_on_fields]. }
    rewrite Hns. split.
    + intros [E|E]; [|done]. apply app_inv_head in E.
      rewrite <-path_segments_normalize, normalize_path_join, <-E.
      apply path_segments_render, path_segments_plain.
    + intros ->. by left.
Qed.

Lemma normalize_auth_skip_paths_Forall2 raw norm :
  normalize_auth_skip_paths raw = Ok norm <->
  Forall2 (fun r n => normalize_skip_entry r = Ok n) raw norm.
Proof.
  revert norm. induction raw as [|r raw IH]; intros norm; simpl.
  - split; [intros [= <-]; constructor|by inversion 1].
  - split.
    + intros H. unfold mbind, outcome_bind in H. bind_inv H. injection H as <-.
      constructor; [done|]. by apply IH.
    + inversion 1 as [|? n ? ns Hr Hrest]; subst. rewrite Hr. simpl.
      by rewrite (proj2 (IH ns) Hrest).
Qed.

(** The skip decision means what the configured list says: a path skips
    authentication iff some entry names it (equal canonical segments) or is a
    wildcard [pre/*] whose canonical prefix is a proper prefix of the path's
    segments (or the root).  In particular no dot segments, doubled slashes or
    sibling with a longer last segment can reach the list. *)
Theorem should_skip_auth_spec raw norm path :
  normalize_auth_skip_paths raw = Ok norm ->
  (forall e, e ∈ raw -> ends_with_slash_star e = false ->
     last (path_segments e) <> Some (bs "*")) ->
  should_skip_auth norm path = true <-> exists e, e ∈ raw /\ skip_spec e path.
Proof.
  intros Hn Hstar. apply normalize_auth_skip_paths_Forall2 in Hn.
  transitivity (existsb (skip_entry_matches (normalize_path path)) norm = true).
  { unfold should_skip_auth. destruct norm; [done|]. done. }
  rewrite existsb_exists. split.
  - intros (n & Hin & Hm). apply list_elem_of_In in Hin.
    apply list_elem_of_lookup in Hin as [i Hi].
    destruct (Forall2_lookup_r _ _ _ _ _ Hn Hi) as (e & He & Hen).
    apply list_elem_of_lookup_2 in He. exists e. split; [done|].
    eapply normalize_skip_entry_spec; eauto.
  - intros (e & Hin & Hs). apply list_elem_of_lookup in Hin as [i Hi].
    destruct (Forall2_lookup_l _ _ _ _ _ Hn Hi) as (n & Hni & Hen).
    apply list_elem_of_lookup_2 in Hi, Hni. exists n. split; [by apply list_elem_of_In|].
    eapply normalize_skip_entry_spec; eauto.
Qed.

Lemma should_skip_auth_spec_witness :
  should_skip_auth [bs "/public/*"; bs "/login"] (bs "//public/./a/../x") = true
  /\ (should_skip_auth [bs "/public/*"; bs "/login"] (bs "/public/../admin") = true <->
      exists e, e ∈ [bs "/public/*"; bs "login/"] /\ skip_spec e (bs "/public/../admin")).
Proof.
  split; [by vm_compute|]. apply should_skip_auth_spec; [by vm_compute|].
  intros e He Hs. apply list_elem_of_In in He.
  destruct He as [<-|[<-|[]]]; [by vm_compute in Hs|by vm_compute].
Defined.

(** The decision is the same on the raw path and on the path dispatch uses. *)
Lemma should_skip_auth_normalized skips path :
  should_skip_auth skips (normalize_path path) = should_skip_auth skips path.
Proof. unfold should_skip_auth. by rewrite normalize_path_idem. Qed.

(** ** Access log *)

(** Whatever the request carried, the bytes the access log receives contain no
    control character, so a request cannot forge a log line; printable and
    high bytes are kept in place. *)
Theorem append_sanitized_safe out sv :
  exists t, append_sanitized out sv = out ++ t /\ length t = length sv
    /\ (forall i c, t !! i = Some c -> (32 <= code c)%Z /\ code c <> 127%Z)
    /\ (forall i c, sv !! i = Some c -> (32 <= code c)%Z -> code c <> 127%Z -> t !! i = Some c).
Proof.
  exists (map sanitize_byte sv). unfold append_sanitized.
  split_and!; [done|apply length_map| |].
  - intros i c. change (map sanitize_byte sv) with (sanitize_byte <$> sv); rewrite list_lookup_fmap. intros (d & Hd & ->)%fmap_Some.
    unfold sanitize_byte. destruct (_ || _) eqn:E; [by vm_compute|]. bool_prop. lia.
  - intros i c Hc Hlo Hne. change (map sanitize_byte sv) with (sanitize_byte <$> sv); rewrite list_lookup_fmap, Hc. simpl. f_equal.
    unfold sanitize_byte. rewrite (proj2 (Z.ltb_ge _ _)), (proj2 (Z.eqb_neq _ _)) by lia. done.
Qed.
