(* ===== verification/RouteCache.v ===== *)
(** * The LRU route cache

    [detail/route_cache.hpp]: a [std::list] of (key, value) nodes, most recently
    used first, and an [unordered_map] from key to list iterator.  An iterator
    is the identity of a node, so it survives splicing; dereferencing one whose
    node is gone is undefined.  [route_cache] is shown to implement an abstract
    bounded recency list. *)

From S2P Require Import Prelude HttpMethod.

Record cache_key : Type := CacheKey { ck_method : http_method; ck_path : bytes }.

#[export] Instance cache_key_eq_dec : EqDecision cache_key.
Proof. solve_decision. Defined.

#[export] Instance cache_key_countable : Countable cache_key.
Proof.
  apply (inj_countable' (fun k => (ck_method k, ck_path k)) (fun p => CacheKey p.1 p.2)).
  by intros [].
Defined.

(** [operator==] *)
Definition cache_key_eqb (a b : cache_key) : bool :=
  bool_decide (ck_method a = ck_method b) && bytes_eqb (ck_path a) (ck_path b).

(** What the standard library leaves open: the hash of a string (the same for
    [std::string] and [std::string_view] with equal contents) and how many
    buckets the table has after an insertion, of which the code relies on
    there being at least one. *)
Class StdHash : Type := {
  str_hash : bytes -> Z;
  rehash : Z -> nat -> Z;
  initial_buckets : Z;
}.

Class StdHashOk `{StdHash} : Prop := {
  rehash_pos : forall b n, (0 < n)%nat -> (0 < rehash b n)%Z;
}.

Definition kHashMix : Z := 0x9e3779b97f4a7c15%Z.

Definition cache_key_hash `{StdHash} (k : cache_key) : Z :=
  let h1 := wrap64 (str_hash (ck_path k)) in
  let h2 := method_index (ck_method k) in
  Z.lxor h1 (wrap64 (h2 + kHashMix + wrap64 (Z.shiftl h1 6) + Z.shiftr h1 2)).

Module LruCache.

Section RouteCache.
Context {V : Type} `{StdHash}.

#[local] Abbreviation node := (nat * (cache_key * V))%type.

Record route_cache : Type := Cache {
  max_entries_ : nat;
  list_ : list node;
  map_ : gmap cache_key nat;
  bucket_count : Z;
  next_node : nat;
}.

(** The constructor. *)
Definition new_cache (max_entries : nat) : outcome route_cache :=
  if max_entries =? 0
  then Throw (invalid_argument (bs "route_cache max_entries must be > 0"))
  else Ok (Cache max_entries [] ∅ initial_buckets 0).

(** [*it] for a list iterator [it]. *)
Fixpoint node_at (it : nat) (l : list node) : option (cache_key * V) :=
  match l with
  | [] => None
  | (i, kv) :: l => if decide (i = it) then Some kv else node_at it l
  end.

Definition without (it : nat) (l : list node) : list node :=
  filter (fun n => n.1 <> it) l.

(** [list_.splice(list_.begin(), list_, it)] *)
Definition splice_front (it : nat) (l : list node) : outcome (list node) :=
  match node_at it l with
  | Some kv => Ok ((it, kv) :: without it l)
  | None => Undefined
  end.

Definition with_list (c : route_cache) (l : list node) : route_cache :=
  Cache (max_entries_ c) l (map_ c) (bucket_count c) (next_node c).

(** Promote the node of an iterator found in the map and copy its value. *)
Definition promote (c : route_cache) (it : nat) : outcome (route_cache * option V) :=
  l ← splice_front it (list_ c);
  match node_at it l with
  | Some (_, v) => Ok (with_list c l, Some v)
  | None => Undefined
  end.

Definition find (c : route_cache) (key : cache_key) : outcome (route_cache * option V) :=
  match map_ c !! key with
  | None => Ok (c, None)
  | Some it => promote c it
  end.

(** The bucket walk of [find_by_view]: [map_.begin(b)] to [map_.end(b)]. *)
Definition bucket_of (k : cache_key) (n : Z) : Z := (cache_key_hash k mod n)%Z.

Definition bucket (c : route_cache) (b : Z) : list (cache_key * nat) :=
  filter (fun e => bucket_of e.1 (bucket_count c) = b) (map_to_list (map_ c)).

Definition find_by_view (c : route_cache) (method : http_method) (path : bytes)
    : outcome (route_cache * option V) :=
  let h1 := wrap64 (str_hash path) in
  let h2 := method_index method in
  let bucket_hash := Z.lxor h1 (wrap64 (h2 + kHashMix + wrap64 (Z.shiftl h1 6) + Z.shiftr h1 2)) in
  if (bucket_count c =? 0)%Z then Ok (c, None)
  else
    let b := (bucket_hash mod bucket_count c)%Z in
    match List.find (fun e => cache_key_eqb (fst e) (CacheKey method path)) (bucket c b) with
    | Some (_, it) => promote c it
    | None => Ok (c, None)
    end.

(** [it->second->second = std::move(value)] *)
Definition set_value (it : nat) (v : V) (l : list node) : list node :=
  map (fun n => if decide (n.1 = it) then (n.1, (n.2.1, v)) else n) l.

Definition insert (c : route_cache) (key : cache_key) (value : V) : outcome route_cache :=
  match map_ c !! key with
  | Some it =>
      l ← splice_front it (set_value it value (list_ c));
      Ok (with_list c l)
  | None =>
      let it := next_node c in
      let l := (it, (key, value)) :: list_ c in
      let m := <[key := it]> (map_ c) in
      let bc := rehash (bucket_count c) (size m) in
      if max_entries_ c <? size m then
        match last l with
        | Some (_, (back_key, _)) =>
            Ok (Cache (max_entries_ c) (removelast l) (delete back_key m) bc (S it))
        | None => Undefined
        end
      else Ok (Cache (max_entries_ c) l m bc (S it))
  end.

Definition clear (c : route_cache) : route_cache :=
  Cache (max_entries_ c) [] ∅ (bucket_count c) (next_node c).

Definition cache_size (c : route_cache) : nat := size (map_ c).

(** ** The abstract cache: a recency list *)

#[local] Abbreviation entry := (cache_key * V)%type.

Definition drop_key (k : cache_key) (l : list entry) : list entry :=
  filter (fun e => e.1 <> k) l.

Fixpoint lru_lookup (k : cache_key) (l : list entry) : option V :=
  match l with
  | [] => None
  | (k', v) :: l => if decide (k' = k) then Some v else lru_lookup k l
  end.

(** A hit moves the entry to the front. *)
Definition lru_find (k : cache_key) (l : list entry) : list entry * option V :=
  match lru_lookup k l with
  | Some v => ((k, v) :: drop_key k l, Some v)
  | None => (l, None)
  end.

(** An insertion puts the entry in front and keeps the [max] most recent. *)
Definition lru_insert (max : nat) (k : cache_key) (v : V) (l : list entry) : list entry :=
  take max ((k, v) :: drop_key k l).

(** The entries of the implementation, most recent first. *)
Definition abs (c : route_cache) : list entry := map snd (list_ c).

(** ** Invariant *)

Definition index (l : list node) : list (cache_key * nat) := map (fun n => (n.2.1, n.1)) l.

Record wf (c : route_cache) : Prop := {
  wf_ids : NoDup (map fst (list_ c));
  wf_keys : NoDup (map fst (index (list_ c)));
  wf_map : map_ c = list_to_map (index (list_ c));
  wf_fresh : Forall (fun n => n.1 < next_node c) (list_ c);
  wf_size : length (list_ c) <= max_entries_ c;
  wf_max : 0 < max_entries_ c;
  wf_buckets : map_ c <> ∅ -> (0 < bucket_count c)%Z;
}.

Lemma index_keys l : map fst (index l) = map fst (map snd l).
Proof. unfold index. rewrite !map_map. done. Qed.

Lemma node_at_elem it l kv : NoDup (map fst l) -> node_at it l = Some kv <-> (it, kv) ∈ l.
Proof.
  induction l as [|[i kv'] l IH]; simpl; intros Hnd; [split; [done|by intros ?%not_elem_of_nil]|].
  apply NoDup_cons in Hnd as [Hi Hnd]. rewrite elem_of_cons. case_decide as E; subst.
  - split; [intros [= ->]; by left|]. intros [[= ->]|Hin]; [done|].
    destruct Hi. apply list_elem_of_In, in_map_iff. exists (it, kv). split; [done|].
    by apply list_elem_of_In.
  - rewrite IH by done. split; [by right|]. intros [[= ? ?]|?]; done.
Qed.

Lemma map_index c k it :
  wf c -> map_ c !! k = Some it <-> exists v, (it, (k, v)) ∈ list_ c.
Proof.
  intros Hc. rewrite (wf_map _ Hc), <-elem_of_list_to_map by apply Hc.
  unfold index. rewrite list_elem_of_In, in_map_iff. split.
  - intros ([i [k' v]] & [= -> ->] & Hin). exists v. by apply list_elem_of_In.
  - intros [v Hin]. exists (it, (k, v)). split; [done|]. by apply list_elem_of_In.
Qed.

Lemma map_size_index c : wf c -> size (map_ c) = length (list_ c).
Proof.
  intros Hc. rewrite (wf_map _ Hc), map_size_list_to_map by apply Hc.
  unfold index. apply length_map.
Qed.

Lemma lru_lookup_elem k l v :
  NoDup (map fst l) -> lru_lookup k l = Some v <-> (k, v) ∈ l.
Proof.
  induction l as [|[k' v'] l IH]; simpl; intros Hnd; [split; [done|by intros ?%not_elem_of_nil]|].
  apply NoDup_cons in Hnd as [Hi Hnd]. rewrite elem_of_cons. case_decide as E; subst.
  - split; [intros [= ->]; by left|]. intros [[= ->]|Hin]; [done|].
    destruct Hi. apply list_elem_of_In, in_map_iff. exists (k, v). split; [done|].
    by apply list_elem_of_In.
  - rewrite IH by done. split; [by right|]. intros [[= ? ?]|?]; done.
Qed.

Lemma abs_keys c : wf c -> NoDup (map fst (abs c)).
Proof. intros Hc. unfold abs. rewrite <-index_keys. apply Hc. Qed.

(** The concrete lookup and the abstract one agree. *)
Lemma lookup_abs c k :
  wf c -> match map_ c !! k with
          | Some it => exists v, (it, (k, v)) ∈ list_ c /\ lru_lookup k (abs c) = Some v
          | None => lru_lookup k (abs c) = None
          end.
Proof.
  intros Hc. destruct (map_ c !! k) as [it|] eqn:E.
  - apply map_index in E as [v Hv]; [|done]. exists v. split; [done|].
    apply lru_lookup_elem; [by apply abs_keys|]. unfold abs.
    apply list_elem_of_In, in_map_iff. exists (it, (k, v)). split; [done|]. by apply list_elem_of_In.
  - destruct (lru_lookup k (abs c)) as [v|] eqn:E'; [|done].
    apply lru_lookup_elem in E'; [|by apply abs_keys]. unfold abs in E'.
    apply list_elem_of_In, in_map_iff in E' as ([it kv] & Hkv & Hin). simpl in Hkv. subst.
    assert (map_ c !! k = Some it) by (apply map_index; [done|]; exists v; by apply list_elem_of_In).
    congruence.
Qed.

Lemma without_abs it k v (l : list node) :
  NoDup (map fst l) -> NoDup (map fst (index l)) -> (it, (k, v)) ∈ l ->
  map snd (without it l) = drop_key k (map snd l).
Proof.
  intros Hid Hk Hin. unfold without, drop_key.
  assert (Heq : forall i k' v', (i, (k', v')) ∈ l -> i = it <-> k' = k).
  { intros i k' v' Hin'. split; intros ->.
    - apply node_at_elem in Hin, Hin'; [|done..]. congruence.
    - rewrite index_keys in Hk.
      assert (Hkk : forall a b : node, a ∈ l -> b ∈ l -> a.2.1 = b.2.1 -> a = b).
      { clear -Hk. rewrite map_map in Hk. induction l as [|n l IH]; [by intros ? ? ?%not_elem_of_nil|].
        simpl in Hk. apply NoDup_cons in Hk as [Hn Hk].
        assert (Hno : forall b : node, b ∈ l -> n.2.1 <> b.2.1).
        { intros b Hb E. apply Hn. rewrite E. apply list_elem_of_In, (in_map (fun x => x.2.1)).
          by apply list_elem_of_In. }
        intros a b Ha Hb E.
        apply elem_of_cons in Ha as [->|Ha], Hb as [->|Hb];
          [done|by apply Hno in Hb|symmetry in E; by apply Hno in Ha|eauto]. }
      specialize (Hkk _ _ Hin' Hin eq_refl). congruence. }
  clear Hid Hk Hin. induction l as [|[i [k' v']] l IH]; [done|].
  assert (Hrest : forall i k' v', (i, (k', v')) ∈ l -> i = it <-> k' = k).
  { intros ? ? ? Hin. eapply Heq. apply elem_of_cons. by right. }
  rewrite filter_cons. simpl map. rewrite filter_cons. simpl.
  pose proof (Heq i k' v' (proj2 (elem_of_cons _ _ _) (or_introl eq_refl))) as Hi.
  do 2 case_decide; try tauto; simpl; f_equal; by apply IH.
Qed.

Lemma without_cons it i kv l :
  without it ((i, kv) :: l) = if decide (i = it) then without it l else (i, kv) :: without it l.
Proof.
  unfold without. rewrite filter_cons. simpl. repeat case_decide; try tauto; done.
Qed.

Lemma without_fresh it l : it ∉ map fst l -> without it l = l.
Proof.
  induction l as [|[i kv] l IH]; [done|]. simpl. intros [Hi Hl]%not_elem_of_cons.
  rewrite without_cons, decide_False by congruence. by rewrite IH.
Qed.

Lemma elem_of_ids it kv (l : list node) : (it, kv) ∈ l -> it ∈ map fst l.
Proof.
  rewrite !list_elem_of_In. intros Hin. apply (in_map fst _ (it, kv) Hin).
Qed.

Lemma splice_permutation it kv (l : list node) :
  NoDup (map fst l) -> (it, kv) ∈ l -> (it, kv) :: without it l ≡ₚ l.
Proof.
  induction l as [|[i kv'] l IH]; [by intros _ ?%not_elem_of_nil|].
  simpl map. intros [Hi Hnd]%NoDup_cons Hin. rewrite without_cons.
  apply elem_of_cons in Hin as [[= -> ->]|Hin].
  - rewrite decide_True by done. by rewrite without_fresh.
  - rewrite decide_False by (intros ->; apply Hi; by eapply elem_of_ids).
    rewrite Permutation_swap. constructor. by apply IH.
Qed.

(** Reordering nodes preserves the invariant. *)
Lemma wf_permute c l : wf c -> l ≡ₚ list_ c -> wf (with_list c l).
Proof.
  intros [H1 H2 H3 H4 H5 H6 H7] Hp.
  assert (Hk : map fst (index l) ≡ₚ map fst (index (list_ c))) by (unfold index; by rewrite Hp).
  assert (Hnd : NoDup (map fst (index l))) by (by rewrite Hk).
  constructor; simpl; [by rewrite Hp|done| |by rewrite Hp|by rewrite Hp|done|done].
  rewrite H3. apply list_to_map_proper; [done|]. unfold index. by rewrite Hp.
Qed.

(** Promotion of an indexed node is the abstract move to front. *)
Lemma promote_refines c k it v :
  wf c -> (it, (k, v)) ∈ list_ c ->
  exists c', promote c it = Ok (c', Some v) /\ wf c'
    /\ abs c' = (k, v) :: drop_key k (abs c) /\ max_entries_ c' = max_entries_ c.
Proof.
  intros Hc Hin. unfold promote, splice_front.
  rewrite (proj2 (node_at_elem it _ (k, v) (wf_ids _ Hc)) Hin). simpl.
  rewrite decide_True by done.
  eexists. split; [done|]. split_and!; 
    [|unfold abs; simpl; f_equal; eapply without_abs; (done || apply Hc)|done].
  apply wf_permute; [done|]. apply splice_permutation; [apply Hc|done].
Qed.

Lemma find_refines c k :
  wf c -> exists c' r, find c k = Ok (c', r) /\ wf c' /\ (abs c', r) = lru_find k (abs c)
    /\ max_entries_ c' = max_entries_ c.
Proof.
  intros Hc. unfold find, lru_find. pose proof (lookup_abs c k Hc) as Hl.
  destruct (map_ c !! k) as [it|].
  - destruct Hl as (v & Hin & ->). destruct (promote_refines c k it v Hc Hin) as (c' & -> & Hw & Ha & Hm).
    exists c', (Some v). split_and!; try done. by rewrite Ha.
  - rewrite Hl. by exists c, None.
Qed.

Lemma set_value_abs it k v v' (l : list node) :
  NoDup (map fst l) -> (it, (k, v')) ∈ l ->
  map fst (set_value it v l) = map fst l
  /\ index (set_value it v l) = index l
  /\ (it, (k, v)) ∈ set_value it v l
  /\ without it (set_value it v l) = without it l.
Proof.
  intros Hnd Hin. unfold set_value, index. rewrite !map_map. split_and!.
  - apply map_ext. intros [i [k0 v0]]. simpl. by case_decide.
  - apply map_ext. intros [i [k0 v0]]. simpl. by case_decide.
  - apply list_elem_of_In, in_map_iff. exists (it, (k, v')). simpl. rewrite decide_True by done.
    split; [done|]. by apply list_elem_of_In.
  - clear. induction l as [|[i kv] l IH]; [done|]. cbn [map].
    destruct (decide (i = it)) as [->|Hne]; cbn [fst snd].
    + rewrite decide_True by done. rewrite !without_cons, !decide_True by done. done.
    + rewrite decide_False by done. rewrite !without_cons, !decide_False by done. by rewrite IH.
Qed.

Lemma drop_key_fresh k l : lru_lookup k l = None -> drop_key k l = l.
Proof.
  induction l as [|[k' v] l IH]; [done|]. simpl. case_decide; [done|]. intros Hl.
  unfold drop_key. rewrite filter_cons, decide_True by done. f_equal. by apply IH.
Qed.

Lemma insert_hit_refines c k v it v' :
  wf c -> map_ c !! k = Some it -> (it, (k, v')) ∈ list_ c ->
  exists c', insert c k v = Ok c' /\ wf c' /\ abs c' = (k, v) :: drop_key k (abs c)
    /\ max_entries_ c' = max_entries_ c.
Proof.
  intros Hc Hm Hin. unfold insert. rewrite Hm. pose proof Hc as [Hid Hk Hmap Hf Hs Hmax Hb].
  destruct (set_value_abs it k v v' (list_ c) Hid Hin) as (E1 & E2 & Hin' & E4).
  set (c1 := with_list c (set_value it v (list_ c))).
  assert (Hc1 : wf c1).
  { constructor; simpl; rewrite ?E1, ?E2; try done.
    - unfold set_value. apply Forall_forall. intros n Hn.
      apply list_elem_of_In, in_map_iff in Hn as (n0 & <- & Hn0).
      rewrite Forall_forall in Hf. apply list_elem_of_In, Hf in Hn0. by case_decide.
    - unfold set_value. by rewrite length_map. }
  unfold splice_front. change (set_value it v (list_ c)) with (list_ c1).
  rewrite (proj2 (node_at_elem it _ (k, v) (wf_ids _ Hc1)) Hin'). simpl. rewrite E4. eexists. split; [done|]. split_and!; [|unfold abs; simpl; f_equal; by eapply without_abs|done].
  rewrite <-E4. apply (wf_permute c1); [done|]. by apply splice_permutation; [apply Hc1|].
Qed.

(** The state after [emplace_front] and [map_[key] = begin()], before the
    eviction. *)
Lemma insert_front_wf c k v bc :
  wf c -> map_ c !! k = None -> (0 < bc)%Z ->
  wf (Cache (S (max_entries_ c)) ((next_node c, (k, v)) :: list_ c)
        (<[k := next_node c]> (map_ c)) bc (S (next_node c))).
Proof.
  intros Hc Hm Hbc. pose proof Hc as [Hid Hk Hmap Hf Hs Hmax Hb]. constructor; simpl; try lia.
  - constructor; [|done]. intros Hin. apply list_elem_of_In, in_map_iff in Hin as (n & E & Hn).
    rewrite Forall_forall in Hf. apply list_elem_of_In, Hf in Hn. lia.
  - constructor; [|done]. rewrite Hmap in Hm. by apply not_elem_of_list_to_map_2.
  - by rewrite Hmap.
  - constructor; [simpl; lia|]. eapply Forall_impl; [exact Hf|]. simpl. lia.
Qed.

(** Dropping the last node and its key preserves the invariant. *)
Lemma evict_wf max l i k v m bc nn :
  wf (Cache (S max) (l ++ [(i, (k, v))]) m bc nn) -> length l = max -> 0 < max ->
  wf (Cache max l (delete k m) bc nn).
Proof.
  intros [Hid Hk Hmap Hf Hs Hmax Hb] Hl Hm0. simpl in *.
  unfold index in *. rewrite map_app in Hid. rewrite !map_app in Hk. simpl in Hk.
  rewrite map_app in Hmap. simpl in Hmap.
  apply NoDup_app in Hid as (Hid & _ & _). apply NoDup_app in Hk as (Hk & Hdisj & _).
  assert (Hkl : k ∉ map fst (map (fun n : node => (n.2.1, n.1)) l)).
  { intros Hin. apply (Hdisj _ Hin). by apply list_elem_of_singleton. }
  constructor; simpl; [done|done| | |lia|done|].
  - rewrite Hmap, list_to_map_snoc by done. apply delete_insert_id.
    by apply not_elem_of_list_to_map_1.
  - by apply Forall_app in Hf as [? _].
  - intros Hne. apply Hb. intros E. apply Hne. by rewrite E, delete_empty.
Qed.

Context `{!StdHashOk}.

Lemma insert_miss_refines c k v :
  wf c -> map_ c !! k = None ->
  exists c', insert c k v = Ok c' /\ wf c' /\ abs c' = take (max_entries_ c) ((k, v) :: abs c)
    /\ max_entries_ c' = max_entries_ c.
Proof.
  intros Hc Hm. unfold insert. rewrite Hm.
  assert (Hsz : size (<[k := next_node c]> (map_ c)) = S (length (list_ c))).
  { rewrite map_size_insert_None, map_size_index by done. done. }
  set (bc := rehash _ _).
  assert (Hbc : (0 < bc)%Z) by (apply rehash_pos; lia).
  pose proof (insert_front_wf c k v bc Hc Hm Hbc) as Hw. pose proof (wf_size _ Hc).
  pose proof (wf_max _ Hc). rewrite Hsz.
  destruct (max_entries_ c <? S (length (list_ c))) eqn:E; bool_prop.
  - destruct (last ((next_node c, (k, v)) :: list_ c)) as [[i [bk bv]]|] eqn:El;
      [|by apply last_None in El].
    apply last_Some in El as [l El]. rewrite El in Hw |- *. rewrite removelast_last.
    assert (Hll : length l = max_entries_ c).
    { apply (f_equal length) in El. rewrite length_app in El. simpl in El. lia. }
    eexists. split; [done|]. split_and!; [by eapply evict_wf| |done].
    unfold abs. simpl list_. change ((k, v) :: map snd (list_ c)) with
      (map snd ((next_node c, (k, v)) :: list_ c)).
    rewrite El, map_app, take_app_le, take_ge by (rewrite length_map; lia). done.
  - eexists. split; [done|]. destruct Hw as [W1 W2 W3 W4 W5 W6 W7].
    split_and!; [constructor; simpl in *; try done; lia| |done].
    unfold abs. simpl. rewrite take_ge; [done|]. simpl. rewrite length_map. lia.
Qed.

Lemma insert_refines c k v :
  wf c -> exists c', insert c k v = Ok c' /\ wf c' /\ abs c' = lru_insert (max_entries_ c) k v (abs c)
    /\ max_entries_ c' = max_entries_ c.
Proof.
  intros Hc. unfold lru_insert. pose proof (lookup_abs c k Hc) as Hl.
  destruct (map_ c !! k) as [it|] eqn:E.
  - destruct Hl as (v' & Hin & Hv').
    destruct (insert_hit_refines c k v it v' Hc E Hin) as (c' & -> & Hw & Ha & Hm).
    exists c'. split_and!; try done. rewrite Ha, take_ge; [done|].
    rewrite <-Ha. unfold abs. rewrite length_map, <-Hm. by apply wf_size.
  - destruct (insert_miss_refines c k v Hc E) as (c' & -> & Hw & Ha & Hm).
    exists c'. split_and!; try done. by rewrite Ha, drop_key_fresh.
Qed.

Lemma clear_wf c : wf c -> wf (clear c) /\ abs (clear c) = [].
Proof. intros [? ? ? ? ? ? ?]. split; [|done]. constructor; simpl; try done; [constructor..|lia]. Qed.

Lemma cache_key_eqb_true a b : cache_key_eqb a b = true <-> a = b.
Proof.
  unfold cache_key_eqb. rewrite andb_true_iff, bool_decide_eq_true, bytes_eqb_true.
  destruct a, b; simpl. split; [by intros [-> ->]|by intros [= -> ->]].
Qed.

Lemma find_bucket c m p it :
  map_ c !! CacheKey m p = Some it <->
  exists k, List.find (fun e => cache_key_eqb (fst e) (CacheKey m p))
    (bucket c (bucket_of (CacheKey m p) (bucket_count c))) = Some (k, it).
Proof.
  set (f := fun e : cache_key * nat => cache_key_eqb (fst e) (CacheKey m p)).
  assert (Hin : forall k i, (k, i) ∈ bucket c (bucket_of (CacheKey m p) (bucket_count c)) <->
    bucket_of k (bucket_count c) = bucket_of (CacheKey m p) (bucket_count c) /\ map_ c !! k = Some i).
  { intros k i. unfold bucket. rewrite list_elem_of_filter, elem_of_map_to_list. done. }
  split.
  - intros Hm. destruct (List.find f (bucket c (bucket_of (CacheKey m p) (bucket_count c))))
      as [[k i]|] eqn:E.
    + exists k. apply find_some in E as [Hi Hk]. apply cache_key_eqb_true in Hk. simpl in Hk. subst.
      apply list_elem_of_In, Hin in Hi as [_ Hi]. congruence.
    + exfalso. eapply find_none in E; [|apply list_elem_of_In, Hin; split; [|exact Hm]; done].
      apply not_true_iff_false in E. apply E. by apply cache_key_eqb_true.
  - intros [k E]. apply find_some in E as [Hi Hk]. apply cache_key_eqb_true in Hk. simpl in Hk. subst.
    by apply list_elem_of_In, Hin in Hi as [_ Hi].
Qed.

(** The allocation-free probe agrees with the map lookup. *)
Lemma find_by_view_find c m p : wf c -> find_by_view c m p = find c (CacheKey m p).
Proof.
  intros Hc. unfold find.
  change (find_by_view c m p) with
    (if (bucket_count c =? 0)%Z then Ok (c, None)
     else match List.find (fun e => cache_key_eqb (fst e) (CacheKey m p))
                  (bucket c (bucket_of (CacheKey m p) (bucket_count c))) with
          | Some (_, it) => promote c it
          | None => Ok (c, None)
          end).
  destruct (bucket_count c =? 0)%Z eqn:E; bool_prop.
  { destruct (decide (map_ c = ∅)) as [->|Hne]; [done|]. pose proof (wf_buckets _ Hc Hne). lia. }
  destruct (map_ c !! CacheKey m p) as [it|] eqn:Em.
  - apply find_bucket in Em as [k ->]. done.
  - destruct (List.find _ _) as [[k it]|] eqn:Ef; [|done].
    assert (map_ c !! CacheKey m p = Some it) by (apply find_bucket; eauto). congruence.
Qed.

(** ** Sequences of operations *)

Inductive cache_op : Type :=
| COpFind (k : cache_key)
| COpFindByView (m : http_method) (p : bytes)
| COpInsert (k : cache_key) (v : V)
| COpClear.

(** Runs an operation, with the value a lookup returned. *)
Definition cache_exec (c : route_cache) (op : cache_op) : outcome (route_cache * option V) :=
  match op with
  | COpFind k => find c k
  | COpFindByView m p => find_by_view c m p
  | COpInsert k v => c' ← insert c k v; Ok (c', None)
  | COpClear => Ok (clear c, None)
  end.

Definition lru_exec (max : nat) (l : list entry) (op : cache_op) : list entry * option V :=
  match op with
  | COpFind k => lru_find k l
  | COpFindByView m p => lru_find (CacheKey m p) l
  | COpInsert k v => (lru_insert max k v l, None)
  | COpClear => ([], None)
  end.

Fixpoint cache_run (c : route_cache) (ops : list cache_op) : outcome (route_cache * list (option V)) :=
  match ops with
  | [] => Ok (c, [])
  | op :: ops =>
      '(c', r) ← cache_exec c op;
      '(c'', rs) ← cache_run c' ops;
      Ok (c'', r :: rs)
  end.

Fixpoint lru_run (max : nat) (l : list entry) (ops : list cache_op) : list entry * list (option V) :=
  match ops with
  | [] => (l, [])
  | op :: ops =>
      let '(l', r) := lru_exec max l op in
      let '(l'', rs) := lru_run max l' ops in
      (l'', r :: rs)
  end.

Lemma cache_exec_refines c op :
  wf c -> exists c' r, cache_exec c op = Ok (c', r) /\ wf c'
    /\ (abs c', r) = lru_exec (max_entries_ c) (abs c) op /\ max_entries_ c' = max_entries_ c.
Proof.
  intros Hc. destruct op as [k|m p|k v|]; simpl.
  - by apply find_refines.
  - rewrite find_by_view_find by done. by apply find_refines.
  - destruct (insert_refines c k v Hc) as (c' & -> & Hw & Ha & Hm). simpl.
    exists c', None. split_and!; try done. by rewrite Ha.
  - destruct (clear_wf c Hc) as [Hw Ha]. exists (clear c), None. split_and!; try done.
Qed.

Lemma cache_run_refines ops c :
  wf c -> exists c' rs, cache_run c ops = Ok (c', rs) /\ wf c'
    /\ (abs c', rs) = lru_run (max_entries_ c) (abs c) ops /\ max_entries_ c' = max_entries_ c.
Proof.
  revert c. induction ops as [|op ops IH]; intros c Hc; simpl; [by exists c, []|].
  destruct (cache_exec_refines c op Hc) as (c1 & r & -> & Hw & Hr & Hm). simpl.
  destruct (IH c1 Hw) as (c2 & rs & -> & Hw2 & Hrs & Hm2). simpl.
  exists c2, (r :: rs). split_and!; [done|done| |congruence]. rewrite <-Hr, <-Hm.
  by destruct (lru_run _ _ ops); injection Hrs as -> ->.
Qed.

Lemma new_cache_wf max c : new_cache max = Ok c -> wf c /\ abs c = [] /\ max_entries_ c = max.
Proof.
  unfold new_cache. destruct (max =? 0) eqn:E; [done|]. bool_prop. intros [= <-].
  split_and!; try done. constructor; simpl; try done; try constructor; lia.
Qed.

(** C26: Any sequence of lookups, allocation-free lookups, insertions and clears on
    a freshly constructed cache runs without touching a dead list node, returns
    exactly what the abstract recency list returns, never holds more than
    [max] entries, and keeps the map and the list in agreement. *)
Theorem route_cache_refines_lru max c ops :
  new_cache max = Ok c ->
  exists c' rs, cache_run c ops = Ok (c', rs)
    /\ (abs c', rs) = lru_run max [] ops
    /\ cache_size c' = length (abs c') /\ cache_size c' <= max.
Proof.
  intros Hn. destruct (new_cache_wf max c Hn) as (Hw & Ha & <-).
  destruct (cache_run_refines ops c Hw) as (c' & rs & Hrun & Hw' & Hrs & Hm).
  exists c', rs. rewrite <-Ha. unfold cache_size. rewrite map_size_index by done.
  split_and!; [done|done|unfold abs; by rewrite length_map|].
  rewrite <-Hm. by apply wf_size.
Qed.

End RouteCache.
Arguments route_cache V : clear implicits.

End LruCache.
Import LruCache.

(** A table whose hash is the length and which always has seven buckets. *)
Definition len_hash : StdHash :=
  {| str_hash := fun s => Z.of_nat (length s); rehash := fun _ _ => 7%Z; initial_buckets := 0%Z |}.

Lemma len_hash_ok : @StdHashOk len_hash.
Proof. constructor. intros. simpl. lia. Qed.

Lemma route_cache_refines_lru_witness :
  let H := len_hash in
  exists (c : route_cache nat), new_cache 2 = Ok c /\
  exists c' rs,
    cache_run c [COpInsert (CacheKey get (bs "/a")) 1; COpInsert (CacheKey get (bs "/b")) 2;
                 COpFindByView get (bs "/a"); COpInsert (CacheKey get (bs "/c")) 3;
                 COpFind (CacheKey get (bs "/b")); COpFindByView get (bs "/a")] = Ok (c', rs)
    /\ (abs c', rs) = lru_run 2 []
        [COpInsert (CacheKey get (bs "/a")) 1; COpInsert (CacheKey get (bs "/b")) 2;
         COpFindByView get (bs "/a"); COpInsert (CacheKey get (bs "/c")) 3;
         COpFind (CacheKey get (bs "/b")); COpFindByView get (bs "/a")]
    /\ cache_size c' = length (abs c') /\ cache_size c' <= 2.
Proof.
  exists (Cache 2 [] ∅ 0%Z 0). split; [done|].
  apply (@route_cache_refines_lru nat len_hash len_hash_ok). done.
Defined.

(** The evicted key misses, the promoted one hits. *)
Example route_cache_evicts_lru :
  (lru_run 2 [] [COpInsert (CacheKey get (bs "/a")) 1; COpInsert (CacheKey get (bs "/b")) 2;
                 COpFind (CacheKey get (bs "/a")); COpInsert (CacheKey get (bs "/c")) 3;
                 COpFind (CacheKey get (bs "/b")); COpFind (CacheKey get (bs "/a"))]).2
  = [None; None; Some 1; None; None; Some 1].
Proof. reflexivity. Qed.
