(* ===== verification/Regex.v ===== *)
(** * The regular expression engine

    The route layer compiles patterns with [std::regex] (extended syntax, case
    insensitive, no captures) and tests whole strings with [std::regex_match].
    The engine is a parameter: every theorem of the route layer holds for any
    engine.  [literal_engine] is the instance the concrete examples run. *)

From S2P Require Import Prelude HttpUtils.

Class RegexEngine : Type := {
  regex : Type;
  (** [std::regex(src, extended | icase | nosubs)]; [None] is [std::regex_error]. *)
  regex_compile : bytes -> option regex;
  (** [what()] of that error. *)
  regex_error_what : bytes -> bytes;
  (** [std::regex_match(s, re)] *)
  regex_match : bytes -> regex -> bool;
}.

(** Patterns of literal characters, [.] and the class [[0-9]+]; anchors at the
    ends are accepted, an unbalanced bracket is an error. *)
Definition strip_anchors (src : bytes) : bytes :=
  let src := match src with c :: t => if ascii_eqb c "^" then t else src | [] => [] end in
  match last src with
  | Some c => if ascii_eqb c "$" then removelast src else src
  | None => src
  end.

Definition is_digit (c : ascii) : bool := ((48 <=? code c) && (code c <=? 57))%Z.

Fixpoint dots_match (pat s : bytes) : bool :=
  match pat, s with
  | [], [] => true
  | p :: pat, c :: s =>
      (ascii_eqb p "." || ascii_eqb (StringUtilities.toupper p) (StringUtilities.toupper c))
      && dots_match pat s
  | _, _ => false
  end.

Definition literal_engine : RegexEngine := {|
  regex := bytes;
  regex_compile := fun src =>
    if bytes_eqb src (bs "[0-9]+") then Some src
    else if contains_any (bs "[]()") src then None else Some src;
  regex_error_what := fun _ => bs "Mismatched brackets";
  regex_match := fun s re =>
    if bytes_eqb re (bs "[0-9]+") then negb (is_empty s) && forallb is_digit s
    else dots_match (strip_anchors re) s;
|}.
