(* ===== verification/SegmentTrie.v ===== *)
(** * The segment trie

    [detail/segment_trie.hpp]: routes with [{name}] or [{name|regex}] segments
    and prefix routes, one node per path segment.  [Trie] holds the code; the
    lemmas after it relate it to the map from route patterns to entries it
    represents and to the routes a request path may match. *)

From S2P Require Import Prelude HttpUtils Regex.
Import HttpUtils.HttpUtils.

Module Trie.

Section SegmentTrie.
Context `{RegexEngine} {T : Type}.

(** [segment_trie_node] *)
#[warnings="-register-all"] Inductive trie_node : Type := Node {
  children_ : gmap bytes trie_node;
  wildcard_child_ : option trie_node;
  wildcard_name_ : bytes;
  wildcard_constraint_ : option regex;
  exact_terminus_ : option T;
  prefix_terminus_ : option T;
}.

Definition empty_node : trie_node := Node ∅ None [] None None None.

Definition set_children (n : trie_node) (ch : gmap bytes trie_node) : trie_node :=
  Node ch (wildcard_child_ n) (wildcard_name_ n) (wildcard_constraint_ n)
       (exact_terminus_ n) (prefix_terminus_ n).

Definition set_wildcard (n w : trie_node) : trie_node :=
  Node (children_ n) (Some w) (wildcard_name_ n) (wildcard_constraint_ n)
       (exact_terminus_ n) (prefix_terminus_ n).

Definition set_terminus (n : trie_node) (is_prefix : bool) (e : option T) : trie_node :=
  if is_prefix
  then Node (children_ n) (wildcard_child_ n) (wildcard_name_ n) (wildcard_constraint_ n)
            (exact_terminus_ n) e
  else Node (children_ n) (wildcard_child_ n) (wildcard_name_ n) (wildcard_constraint_ n)
            e (prefix_terminus_ n).

Definition terminus (n : trie_node) (is_prefix : bool) : option T :=
  if is_prefix then prefix_terminus_ n else exact_terminus_ n.

Definition tokenize (path : bytes) : list bytes := tokenize_url path "/".

Definition is_wildcard_segment (seg : bytes) : bool :=
  (2 <=? length seg) && bool_decide (head seg = Some "{"%char)
  && bool_decide (last seg = Some "}"%char).

Definition parse_wildcard (seg : bytes) : bytes * bytes :=
  match find_char "|" seg with
  | None => (substr seg 1 (length seg - 2), [])
  | Some bar => (substr seg 1 (bar - 1), substr seg (bar + 1) (length seg - bar - 2))
  end.

(** The node created for a wildcard segment: the name is set before the
    constraint is compiled, and the node is already attached when that throws. *)
Definition new_wildcard (seg : bytes) : trie_node * outcome unit :=
  let '(name, constraint_src) := parse_wildcard seg in
  if is_empty constraint_src then (Node ∅ None name None None None, Ok ())
  else match regex_compile constraint_src with
       | Some re => (Node ∅ None name (Some re) None None, Ok ())
       | None => (Node ∅ None name None None None,
                  Throw (invalid_argument (bs "Not a valid regex in URL: " ++ constraint_src)))
       end.

(** [insert] from a node down: [descend_or_create] for each segment, then the
    terminus.  The first component is the node after the call, whether or not
    the call threw. *)
Fixpoint insert_at (segments : list bytes) (entry : T) (is_prefix : bool) (node : trie_node)
    : trie_node * outcome unit :=
  match segments with
  | [] => (set_terminus node is_prefix (Some entry), Ok ())
  | seg :: segments =>
      if is_wildcard_segment seg then
        match wildcard_child_ node with
        | Some w =>
            let '(w', o) := insert_at segments entry is_prefix w in
            (set_wildcard node w', o)
        | None =>
            match new_wildcard seg with
            | (w, Ok _) =>
                let '(w', o) := insert_at segments entry is_prefix w in
                (set_wildcard node w', o)
            | (w, e) => (set_wildcard node w, e)
            end
        end
      else
        let child := default empty_node (children_ node !! seg) in
        let '(child', o) := insert_at segments entry is_prefix child in
        (set_children node (<[seg := child']> (children_ node)), o)
  end.

Definition insert (path : bytes) (entry : T) (is_prefix : bool) : stx trie_node unit :=
  fun root => insert_at (tokenize path) entry is_prefix root.

(** [segment_trie_match], for a successful [find]. *)
Record trie_match : Type := Match {
  entry : T;
  captures : list (bytes * bytes);
  is_prefix_match : bool;
}.

Definition match_root_terminus (root : trie_node) : option trie_match :=
  match exact_terminus_ root with
  | Some e => Some (Match e [] false)
  | None =>
      match prefix_terminus_ root with
      | Some e => Some (Match e [] true)
      | None => None
      end
  end.

(** Returns the segment and the rest. *)
Definition pop_next_segment_ (rest : bytes) : bytes * bytes :=
  match find_char "/" rest with
  | None => (rest, [])
  | Some slash => (substr rest 0 slash, substr_from rest (slash + 1))
  end.

Definition try_consume_exact_terminus_ (rest : bytes) (node : trie_node)
    (caps : list (bytes * bytes)) : option trie_match :=
  if negb (is_empty rest) then None
  else match exact_terminus_ node with
       | Some e => Some (Match e caps false)
       | None => None
       end.

Definition step_to_child_ (node : trie_node) (seg : bytes) (caps : list (bytes * bytes))
    : option (trie_node * list (bytes * bytes)) :=
  match children_ node !! seg with
  | Some c => Some (c, caps)
  | None =>
      match wildcard_child_ node with
      | None => None
      | Some candidate =>
          let capture := Some (candidate, caps ++ [(wildcard_name_ candidate, seg)]) in
          match wildcard_constraint_ candidate with
          | Some re => if negb (regex_match seg re) then None else capture
          | None => capture
          end
      end
  end.

(** The [while] loop of [find]; [best] is the pair (best_prefix,
    best_prefix_caps).  Each iteration removes a segment from [rest]. *)
Fixpoint find_loop (fuel : nat) (rest : bytes) (node : trie_node)
    (best : option (T * list (bytes * bytes))) (caps : list (bytes * bytes)) : option trie_match :=
  let miss := match best with Some (e, c) => Some (Match e c true) | None => None end in
  match fuel with
  | 0 => miss
  | S fuel =>
      if is_empty rest then miss
      else
        let '(seg, rest) := pop_next_segment_ rest in
        match step_to_child_ node seg caps with
        | None => miss
        | Some (node, caps) =>
            let best := match prefix_terminus_ node with Some e => Some (e, caps) | None => best end in
            match try_consume_exact_terminus_ rest node caps with
            | Some m => Some m
            | None => find_loop fuel rest node best caps
            end
        end
  end.

Definition find (root : trie_node) (path : bytes) : option trie_match :=
  let rest := match path with c :: t => if ascii_eqb c "/" then t else path | [] => [] end in
  if is_empty rest then match_root_terminus root
  else find_loop (S (length rest)) rest root
         (match prefix_terminus_ root with Some e => Some (e, []) | None => None end) [].

Fixpoint walk_registered_pattern_ (node : trie_node) (segments : list bytes) : option trie_node :=
  match segments with
  | [] => Some node
  | seg :: segments =>
      match children_ node !! seg with
      | Some c => walk_registered_pattern_ c segments
      | None =>
          match wildcard_child_ node with
          | Some w => if is_wildcard_segment seg then walk_registered_pattern_ w segments else None
          | None => None
          end
      end
  end.

Definition has_terminus_at (root : trie_node) (path : bytes) (is_prefix : bool) : bool :=
  match walk_registered_pattern_ root (tokenize path) with
  | None => false
  | Some node => bool_decide (is_Some (terminus node is_prefix))
  end.

(** [remove]: the same walk, then [reset()] on the terminus.  [None]: nothing
    was cleared. *)
Fixpoint remove_at (segments : list bytes) (is_prefix : bool) (node : trie_node) : option trie_node :=
  match segments with
  | [] => match terminus node is_prefix with
          | Some _ => Some (set_terminus node is_prefix None)
          | None => None
          end
  | seg :: segments =>
      match children_ node !! seg with
      | Some c =>
          match remove_at segments is_prefix c with
          | Some c' => Some (set_children node (<[seg := c']> (children_ node)))
          | None => None
          end
      | None =>
          match wildcard_child_ node with
          | Some w =>
              if is_wildcard_segment seg then
                match remove_at segments is_prefix w with
                | Some w' => Some (set_wildcard node w')
                | None => None
                end
              else None
          | None => None
          end
      end
  end.

Definition remove (root : trie_node) (path : bytes) (is_prefix : bool) : trie_node * bool :=
  match remove_at (tokenize path) is_prefix root with
  | Some root' => (root', true)
  | None => (root, false)
  end.

Fixpoint is_node_empty (n : trie_node) : bool :=
  match n with
  | Node ch wc _ _ ex pr =>
      match ex, pr with
      | None, None =>
          map_fold (fun _ c acc => is_node_empty c && acc) true ch
          && match wc with Some w => is_node_empty w | None => true end
      | _, _ => false
      end
  end.

End SegmentTrie.
Arguments trie_node {_} T.
Arguments trie_match T : clear implicits.

End Trie.
Import Trie.

Section Patterns.
Context `{RegexEngine} {T : Type}.
Implicit Types (n w root : trie_node T) (segs : list bytes) (pre : bool).

(** ** The map a trie represents

    A route pattern is a list of literal segments ([Some s]) and wildcards
    ([None]); the names and constraints of wildcards are properties of the node,
    not of the pattern. *)
Definition canon (seg : bytes) : option bytes :=
  if is_wildcard_segment seg then None else Some seg.

Definition pattern (path : bytes) : list (option bytes) := map canon (tokenize path).

Fixpoint node_for n (pat : list (option bytes)) : option (trie_node T) :=
  match pat with
  | [] => Some n
  | Some s :: pat => match children_ n !! s with Some c => node_for c pat | None => None end
  | None :: pat => match wildcard_child_ n with Some w => node_for w pat | None => None end
  end.

Definition terminus_at n (pat : list (option bytes)) (pre : bool) : option T :=
  match node_for n pat with Some m => terminus m pre | None => None end.

(** Literal children are never wildcard-shaped. *)
Definition pat_ok (p : option bytes) : Prop :=
  match p with Some s => is_wildcard_segment s = false | None => True end.

Definition trie_ok n : Prop := forall pat, is_Some (node_for n pat) -> Forall pat_ok pat.

Lemma canon_ok seg : pat_ok (canon seg).
Proof. unfold canon. destruct (is_wildcard_segment seg) eqn:E; done. Qed.

Lemma pattern_ok segs : Forall pat_ok (map canon segs).
Proof. induction segs; constructor; [apply canon_ok|done]. Qed.

Lemma empty_node_for pat : is_Some (node_for (@empty_node _ T) pat) -> pat = [].
Proof. destruct pat as [|[s|] pat]; [done| |]; simpl; rewrite ?lookup_empty; by intros [? ?]. Qed.

Lemma trie_ok_empty : trie_ok (@empty_node _ T).
Proof. intros pat ->%empty_node_for. constructor. Qed.

Lemma trie_ok_child n p c : trie_ok n -> node_for n [p] = Some c -> trie_ok c.
Proof.
  intros Hn Hc pat Hp. cut (Forall pat_ok (p :: pat)); [by inversion 1|].
  apply Hn. destruct p as [s|]; simpl in *.
  - by destruct (children_ n !! s); simplify_eq.
  - by destruct (wildcard_child_ n); simplify_eq.
Qed.

(** A fresh wildcard node carries no route. *)
Lemma new_wildcard_leaf seg pat :
  terminus_at (fst (@new_wildcard _ T seg)) pat true = None
  /\ terminus_at (fst (@new_wildcard _ T seg)) pat false = None
  /\ (is_Some (node_for (fst (@new_wildcard _ T seg)) pat) -> pat = []).
Proof.
  unfold new_wildcard, terminus_at. destruct (parse_wildcard seg) as [name src].
  assert (Hl : forall re, let w := @Node _ T ∅ None name re None None in
    match node_for w pat with Some m => terminus m true | None => None end = None
    /\ match node_for w pat with Some m => terminus m false | None => None end = None
    /\ (is_Some (node_for w pat) -> pat = [])).
  { intros re w. destruct pat as [|[s|] pat]; [done| |]; simpl; rewrite ?lookup_empty;
      split_and!; try done; by intros [? ?]. }
  destruct (is_empty src); [apply Hl|]. destruct (regex_compile src); apply Hl.
Qed.

Lemma terminus_set n pre e pre' :
  terminus (set_terminus n pre e) pre' = if bool_decide (pre' = pre) then e else terminus n pre'.
Proof. by destruct pre, pre'. Qed.

(** One level of the trie after an update of the subtrie under [p]. *)
Definition graft n (p : option bytes) (m : trie_node T) : trie_node T :=
  match p with
  | Some s => set_children n (<[s := m]> (children_ n))
  | None => set_wildcard n m
  end.

Definition subtrie n (p : option bytes) : option (trie_node T) :=
  match p with Some s => children_ n !! s | None => wildcard_child_ n end.

Lemma node_for_cons n p pat :
  node_for n (p :: pat) = match subtrie n p with Some c => node_for c pat | None => None end.
Proof. by destruct p. Qed.

Lemma terminus_at_cons n p pat pre :
  terminus_at n (p :: pat) pre = match subtrie n p with Some c => terminus_at c pat pre | None => None end.
Proof. unfold terminus_at. rewrite node_for_cons. by destruct (subtrie n p). Qed.

Lemma subtrie_graft n p m q :
  subtrie (graft n p m) q = if bool_decide (q = p) then Some m else subtrie n q.
Proof.
  destruct p as [s|], q as [t|]; simpl; try done.
  case_bool_decide as E; simplify_eq; [by rewrite lookup_insert_eq|].
  rewrite lookup_insert_ne; [done|]. congruence.
Qed.

Lemma terminus_graft n p m pre : terminus (graft n p m) pre = terminus n pre.
Proof. by destruct p, pre. Qed.

(** The subtrie [insert_at] continues in, created if missing. *)
Definition descend n (seg : bytes) : trie_node T * outcome unit :=
  match subtrie n (canon seg) with
  | Some c => (c, Ok ())
  | None => if is_wildcard_segment seg then new_wildcard seg else (empty_node, Ok ())
  end.

Lemma insert_at_cons seg segs e pre n :
  insert_at (seg :: segs) e pre n =
  match descend n seg with
  | (c, Ok _) => let '(c', o) := insert_at segs e pre c in (graft n (canon seg) c', o)
  | (c, o) => (graft n (canon seg) c, o)
  end.
Proof.
  simpl. unfold descend, canon. destruct (is_wildcard_segment seg) eqn:E; simpl.
  - by destruct (wildcard_child_ n).
  - by destruct (children_ n !! seg).
Qed.

Lemma descend_terminus n seg pat pre :
  terminus_at (fst (descend n seg)) pat pre = terminus_at n (canon seg :: pat) pre.
Proof.
  unfold descend, terminus_at at 2. rewrite node_for_cons.
  destruct (subtrie n (canon seg)) as [c|] eqn:E; [done|].
  destruct (is_wildcard_segment seg).
  - pose proof (new_wildcard_leaf seg pat). destruct pre; tauto.
  - unfold terminus_at. cbn [fst]. destruct (node_for (@empty_node _ T) pat) eqn:E'; [|done].
    assert (pat = []) as -> by (apply empty_node_for; eauto). simpl in E'. simplify_eq.
    by destruct pre.
Qed.

(** The effect of an insertion on the represented map: exactly the binding of
    the pattern changes, and only if the call returned. *)
Lemma insert_at_terminus segs e pre n pat pre' :
  terminus_at (fst (insert_at segs e pre n)) pat pre' =
  if is_ok (snd (insert_at segs e pre n)) && bool_decide (pat = map canon segs)
     && bool_decide (pre' = pre)
  then Some e else terminus_at n pat pre'.
Proof.
  revert n pat. induction segs as [|seg segs IH]; intros n pat.
  - simpl. unfold terminus_at. destruct pat as [|p pat].
    + simpl. by rewrite terminus_set.
    + rewrite bool_decide_false by done. cbn [is_ok snd fst insert_at andb].
      by destruct p, pre.
  - rewrite insert_at_cons. pose proof (descend_terminus n seg) as Hd.
    destruct (descend n seg) as [c o]. simpl in Hd.
    assert (Hg : forall c', (forall pat', terminus_at c' pat' pre' = terminus_at c pat' pre') ->
      terminus_at (graft n (canon seg) c') pat pre' = terminus_at n pat pre').
    { intros c' Hc'. destruct pat as [|p pat]; unfold terminus_at; [by simpl; rewrite terminus_graft|].
      rewrite !node_for_cons, subtrie_graft. destruct (decide (p = canon seg)) as [->|E];
        [rewrite bool_decide_true by done|by rewrite bool_decide_false by done].
      rewrite <-node_for_cons. specialize (Hc' pat). specialize (Hd pat pre'). unfold terminus_at in *. congruence. }
    destruct o as [[]|ex|]; simpl; [|by apply Hg..].
    specialize (IH c). destruct (insert_at segs e pre c) as [c' o']. simpl in *.
    destruct pat as [|p pat]; unfold terminus_at.
    { simpl. rewrite terminus_graft. by rewrite andb_false_r. }
    rewrite node_for_cons, subtrie_graft. destruct (decide (p = canon seg)) as [->|E];
      [rewrite (bool_decide_true (canon seg = _)) by done|rewrite (bool_decide_false (p = _)) by done].
    + change (match node_for c' pat with Some m => terminus m pre' | None => None end)
        with (terminus_at c' pat pre'). rewrite IH.
      rewrite (bool_decide_ext _ (canon seg :: pat = canon seg :: map canon segs)) by naive_solver.
      by rewrite (Hd pat pre').
    + rewrite (bool_decide_false (p :: pat = _)) by congruence. rewrite andb_false_r. by destruct p.
Qed.

(** Insertion creates nodes along its own pattern only. *)
Lemma insert_at_node_for segs e pre n pat :
  is_Some (node_for (fst (insert_at segs e pre n)) pat) ->
  is_Some (node_for n pat) \/ pat `prefix_of` map canon segs.
Proof.
  revert n pat. induction segs as [|seg segs IH]; intros n pat.
  - destruct pat as [|p pat]; [by eauto|]. left. simpl in *. by destruct p, pre.
  - rewrite insert_at_cons. destruct pat as [|p pat]; [by eauto|].
    assert (Hd : forall pat', is_Some (node_for (fst (descend n seg)) pat') ->
      is_Some (node_for n (canon seg :: pat')) \/ pat' = []).
    { intros pat' Hp. unfold descend in Hp. rewrite node_for_cons.
      destruct (subtrie n (canon seg)); [by left|]. right.
      destruct (is_wildcard_segment seg); [by apply new_wildcard_leaf in Hp|by apply empty_node_for]. }
    assert (Hg : forall c', (is_Some (node_for c' pat) ->
        is_Some (node_for n (canon seg :: pat)) \/ pat `prefix_of` map canon segs) ->
      is_Some (node_for (graft n (canon seg) c') (p :: pat)) ->
      is_Some (node_for n (p :: pat)) \/ p :: pat `prefix_of` map canon (seg :: segs)).
    { intros c' Hc'. rewrite node_for_cons, subtrie_graft.
      destruct (decide (p = canon seg)) as [->|E];
        [rewrite bool_decide_true by done|rewrite bool_decide_false by done].
      - intros [?|?]%Hc'; [by left|]. right. by apply prefix_cons.
      - rewrite <-node_for_cons. by left. }
    destruct (descend n seg) as [c o]. simpl in Hd.
    assert (Hc : is_Some (node_for c pat) ->
        is_Some (node_for n (canon seg :: pat)) \/ pat `prefix_of` map canon segs).
    { intros [?| ->]%Hd; [by left|]. right. apply prefix_nil. }
    destruct o as [[]|ex|]; [|by apply Hg..].
    specialize (IH c pat). destruct (insert_at segs e pre c) as [c' o']. apply Hg.
    intros [?|?]%IH; [by apply Hc|by right].
Qed.

Lemma insert_at_trie_ok segs e pre n : trie_ok n -> trie_ok (fst (insert_at segs e pre n)).
Proof.
  intros Hn pat [?|[k Hk]]%insert_at_node_for; [by apply Hn|].
  pose proof (pattern_ok segs) as Ho. rewrite Hk in Ho. by apply Forall_app in Ho as [? _].
Qed.

(** The walk of [remove] and [has_terminus_at] reaches the node of the pattern. *)
Lemma trie_ok_wildcard_child n seg :
  trie_ok n -> is_wildcard_segment seg = true -> children_ n !! seg = None.
Proof.
  intros Hn Hw. destruct (children_ n !! seg) as [c|] eqn:E; [|done]. exfalso.
  assert (Hf : Forall pat_ok [Some seg]) by (apply Hn; simpl; rewrite E; eauto).
  inversion Hf as [|? ? Hp]; subst. simpl in Hp. congruence.
Qed.

Lemma walk_cons n seg segs :
  trie_ok n ->
  walk_registered_pattern_ n (seg :: segs) =
  match subtrie n (canon seg) with Some c => walk_registered_pattern_ c segs | None => None end.
Proof.
  intros Hn. simpl. unfold canon. destruct (is_wildcard_segment seg) eqn:E; simpl.
  - by rewrite (trie_ok_wildcard_child n seg).
  - destruct (children_ n !! seg); [done|]. by destruct (wildcard_child_ n).
Qed.

Lemma trie_ok_subtrie n p c : trie_ok n -> subtrie n p = Some c -> trie_ok c.
Proof. intros Hn Hc. apply (trie_ok_child n p); [done|]. by rewrite node_for_cons, Hc. Qed.

Lemma walk_node_for n segs :
  trie_ok n -> walk_registered_pattern_ n segs = node_for n (map canon segs).
Proof.
  revert n. induction segs as [|seg segs IH]; intros n Hn; [done|].
  rewrite walk_cons by done. cbn [map]. rewrite node_for_cons.
  destruct (subtrie n (canon seg)) eqn:E; [|done]. apply IH. by eapply trie_ok_subtrie.
Qed.

Lemma has_terminus_at_spec n path pre :
  trie_ok n -> has_terminus_at n path pre = bool_decide (is_Some (terminus_at n (pattern path) pre)).
Proof.
  intros Hn. unfold has_terminus_at, terminus_at. rewrite walk_node_for by done.
  fold (pattern path). by destruct (node_for n (pattern path)).
Qed.

(** ** Removal *)

Lemma remove_at_cons n seg segs pre :
  trie_ok n ->
  remove_at (seg :: segs) pre n =
  match subtrie n (canon seg) with
  | Some c => graft n (canon seg) <$> remove_at segs pre c
  | None => None
  end.
Proof.
  intros Hn. simpl. unfold canon. destruct (is_wildcard_segment seg) eqn:E; simpl.
  - rewrite (trie_ok_wildcard_child n seg) by done. destruct (wildcard_child_ n); [|done].
    by destruct (remove_at segs pre _).
  - destruct (children_ n !! seg); [by destruct (remove_at segs pre _)|]. by destruct (wildcard_child_ n).
Qed.

Lemma remove_at_effect segs pre n :
  trie_ok n ->
  match remove_at segs pre n with
  | None => terminus_at n (map canon segs) pre = None
  | Some n' =>
      is_Some (terminus_at n (map canon segs) pre)
      /\ (forall pat, is_Some (node_for n' pat) <-> is_Some (node_for n pat))
      /\ forall pat pre', terminus_at n' pat pre' =
           if bool_decide (pat = map canon segs) && bool_decide (pre' = pre)
           then None else terminus_at n pat pre'
  end.
Proof.
  revert n. induction segs as [|seg segs IH]; intros n Hn.
  - simpl. destruct (terminus n pre) eqn:E; [|done]. split_and!; [unfold terminus_at; simpl; eauto| |].
    + intros [|[s|] pat]; simpl; [split; eauto|by destruct pre..].
    + intros pat pre'. unfold terminus_at. destruct pat as [|p pat].
      * simpl. by rewrite terminus_set.
      * rewrite bool_decide_false by done. by destruct p, pre.
  - rewrite remove_at_cons by done. cbn [map]. rewrite terminus_at_cons.
    destruct (subtrie n (canon seg)) as [c|] eqn:Ec; [|done].
    specialize (IH c (trie_ok_subtrie _ _ _ Hn Ec)).
    destruct (remove_at segs pre c) as [c'|]; [|done]. simpl. destruct IH as (Hs & Hnode & Hterm).
    split_and!; [done| |].
    + intros [|p pat]; [simpl; split; eauto|]. rewrite !node_for_cons, subtrie_graft.
      destruct (decide (p = canon seg)) as [->|E];
        [rewrite bool_decide_true by done; rewrite Ec; apply Hnode|by rewrite bool_decide_false by done].
    + intros [|p pat] pre'; unfold terminus_at; [simpl; by rewrite terminus_graft|].
      rewrite !node_for_cons, subtrie_graft. destruct (decide (p = canon seg)) as [->|E].
      * rewrite (bool_decide_true (canon seg = _)), Ec by done. cbn [map]. specialize (Hterm pat pre').
        unfold terminus_at in Hterm. rewrite Hterm.
        by rewrite (bool_decide_ext (pat = _) (canon seg :: pat = canon seg :: map canon segs)) by naive_solver.
      * rewrite (bool_decide_false (p = _)), (bool_decide_false (p :: pat = _)) by congruence. by destruct p.
Qed.

(** ** The trie as a map from patterns to entries *)

(** Every constraint of the path compiles. *)
Definition segment_compiles (seg : bytes) : bool :=
  negb (is_wildcard_segment seg)
  || is_empty (snd (parse_wildcard seg))
  || bool_decide (is_Some (regex_compile (snd (parse_wildcard seg)))).

Definition constraints_compile (path : bytes) : bool := forallb segment_compiles (tokenize path).

Lemma descend_ok n seg : segment_compiles seg = true -> snd (descend n seg) = Ok ().
Proof.
  unfold segment_compiles, descend, new_wildcard. intros Hs.
  destruct (subtrie n (canon seg)); [done|]. destruct (is_wildcard_segment seg); [|done].
  destruct (parse_wildcard seg) as [name src]. simpl in Hs. destruct (is_empty src); [done|].
  simpl in Hs. bool_prop. destruct Hs as [re ->]. done.
Qed.

Lemma insert_at_ok segs e pre n :
  forallb segment_compiles segs = true -> snd (insert_at segs e pre n) = Ok ().
Proof.
  revert n. induction segs as [|seg segs IH]; intros n; [done|]. cbn [forallb]. intros Hs. bool_prop.
  rewrite insert_at_cons. pose proof (descend_ok n seg) as Hd. destruct (descend n seg) as [c o].
  simpl in Hd. rewrite Hd by done. specialize (IH c). destruct (insert_at segs e pre c). by apply IH.
Qed.

Inductive trie_op : Type :=
| OpInsert (path : bytes) (entry : T) (is_prefix : bool)
| OpRemove (path : bytes) (is_prefix : bool)
| OpHas (path : bytes) (is_prefix : bool).

(** The boolean of a step: the call returned, something was removed, the
    terminus exists. *)
Definition trie_exec (op : trie_op) (root : trie_node T) : trie_node T * bool :=
  match op with
  | OpInsert p e pre => let '(root', o) := insert p e pre root in (root', is_ok o)
  | OpRemove p pre => remove root p pre
  | OpHas p pre => (root, has_terminus_at root p pre)
  end.

Fixpoint trie_run (ops : list trie_op) (root : trie_node T) : trie_node T * list bool :=
  match ops with
  | [] => (root, [])
  | op :: ops =>
      let '(root, b) := trie_exec op root in
      let '(root, bs) := trie_run ops root in (root, b :: bs)
  end.

(** The specification: [None] when the observed boolean is not allowed.  An
    insertion may only fail when a constraint of its path does not compile. *)
Abbreviation route_map := (gmap (list (option bytes) * bool) T).

Definition map_step (op : trie_op) (b : bool) (m : route_map) : option route_map :=
  match op with
  | OpInsert p e pre =>
      if b then Some (<[(pattern p, pre) := e]> m)
      else if constraints_compile p then None else Some m
  | OpRemove p pre =>
      if bool_decide (b = bool_decide (is_Some (m !! (pattern p, pre))))
      then Some (base.delete (pattern p, pre) m) else None
  | OpHas p pre =>
      if bool_decide (b = bool_decide (is_Some (m !! (pattern p, pre)))) then Some m else None
  end.

Fixpoint map_replay (ops : list trie_op) (bs : list bool) (m : route_map) : option route_map :=
  match ops, bs with
  | [], [] => Some m
  | op :: ops, b :: bs => match map_step op b m with Some m => map_replay ops bs m | None => None end
  | _, _ => None
  end.

Definition represents (root : trie_node T) (m : route_map) : Prop :=
  trie_ok root /\ forall pat pre, terminus_at root pat pre = m !! (pat, pre).

Lemma represents_empty : represents (@empty_node _ T) ∅.
Proof.
  split; [apply trie_ok_empty|]. intros pat pre. rewrite lookup_empty. unfold terminus_at.
  destruct (node_for empty_node pat) eqn:E; [|done].
  assert (pat = []) as -> by (apply empty_node_for; eauto). simpl in E. simplify_eq. by destruct pre.
Qed.

Lemma insert_represents root m p e pre :
  represents root m ->
  represents (fst (insert p e pre root))
    (if is_ok (snd (insert p e pre root)) then <[(pattern p, pre) := e]> m else m).
Proof.
  intros [Hok Hm]. unfold insert. split; [by apply insert_at_trie_ok|]. intros pat pre'.
  rewrite insert_at_terminus, Hm. fold (pattern p). destruct (is_ok _); [|done]. simpl.
  destruct (decide ((pattern p, pre) = (pat, pre'))) as [[= <- <-]|E].
  - by rewrite !bool_decide_true, lookup_insert_eq by done.
  - rewrite lookup_insert_ne by done. do 2 case_bool_decide; simplify_eq; done.
Qed.

Lemma remove_represents root m p pre :
  represents root m ->
  snd (remove root p pre) = bool_decide (is_Some (m !! (pattern p, pre)))
  /\ represents (fst (remove root p pre)) (base.delete (pattern p, pre) m).
Proof.
  intros [Hok Hm]. unfold remove. pose proof (remove_at_effect (tokenize p) pre root Hok) as Hr.
  rewrite <-(Hm (pattern p) pre). fold (pattern p) in Hr.
  destruct (remove_at (tokenize p) pre root) as [root'|]; simpl.
  - destruct Hr as (Hs & Hnode & Hterm). split; [by rewrite bool_decide_true|]. split.
    + intros pat ?%Hnode. by apply Hok.
    + intros pat pre'. rewrite Hterm, Hm. destruct (decide ((pattern p, pre) = (pat, pre'))) as [[= <- <-]|E].
      * by rewrite !bool_decide_true, lookup_delete_eq by done.
      * rewrite lookup_delete_ne by done. do 2 case_bool_decide; simplify_eq; done.
  - split; [rewrite bool_decide_false; [done|]; rewrite Hr; by intros [? ?]|]. split; [done|].
    intros pat pre'. rewrite Hm. rewrite delete_id; [done|]. by rewrite <-Hm.
Qed.

Lemma trie_exec_refines op root m :
  represents root m ->
  exists m', map_step op (snd (trie_exec op root)) m = Some m' /\ represents (fst (trie_exec op root)) m'.
Proof.
  intros Hr. destruct op as [p e pre|p pre|p pre]; simpl.
  - pose proof (insert_represents root m p e pre Hr) as Hi.
    pose proof (insert_at_ok (tokenize p) e pre root) as Hc. unfold insert in *.
    destruct (insert_at (tokenize p) e pre root) as [root' o]. simpl in *.
    destruct (is_ok o) eqn:Eo; [by eauto|]. unfold constraints_compile.
    destruct (forallb segment_compiles (tokenize p)); [|by eauto].
    rewrite Hc in Eo by done. done.
  - apply (remove_represents root m p pre) in Hr as [-> Hr]. rewrite bool_decide_true by done. eauto.
  - destruct Hr as [Hok Hm]. rewrite has_terminus_at_spec, Hm by done.
    rewrite bool_decide_true by done. exists m. done.
Qed.

Lemma trie_run_refines ops root m :
  represents root m ->
  exists m', map_replay ops (snd (trie_run ops root)) m = Some m'
    /\ represents (fst (trie_run ops root)) m'.
Proof.
  revert root m. induction ops as [|op ops IH]; intros root m Hr; [by exists m|]. simpl.
  destruct (trie_exec_refines op root m Hr) as (m' & Hs & Hr').
  destruct (trie_exec op root) as [root1 b]. simpl in Hs, Hr'.
  specialize (IH root1 m' Hr'). destruct (trie_run ops root1) as [root2 bs]. simpl in *.
  by rewrite Hs.
Qed.

(** C27: The trie implements a map from (route pattern, prefix flag) to entries:
    for every sequence of insertions, removals and probes, the observed
    results are those of the map, an insertion fails only on a constraint that
    does not compile and then changes no binding, and the final trie
    represents the final map. *)
Theorem trie_refines_map ops :
  exists m, map_replay ops (snd (trie_run ops (@empty_node _ T))) ∅ = Some m
    /\ represents (fst (trie_run ops empty_node)) m.
Proof.
  apply trie_run_refines, represents_empty.
Qed.

End Patterns.

(** ** Lookup *)

Section Lookup.
Context `{RegexEngine} {T : Type}.
Implicit Types (n c root : trie_node T) (caps : list (bytes * bytes)).

(** The segments of a request path: one leading slash is stripped, a trailing
    slash adds no segment, inner empty segments stay. *)
Definition request_segments (path : bytes) : list bytes :=
  fields_no_tail "/" (match path with c :: t => if ascii_eqb c "/" then t else path | [] => [] end).

(** The nodes a request visits, with the captures made on the way: at each
    node the literal child is preferred to the wildcard. *)
Fixpoint trail n caps (segs : list bytes) : list (trie_node T * list (bytes * bytes)) :=
  (n, caps) :: match segs with
               | [] => []
               | seg :: segs =>
                   match step_to_child_ n seg caps with
                   | Some (c, caps) => trail c caps segs
                   | None => []
                   end
               end.

Definition prefix_entry (p : trie_node T * list (bytes * bytes)) : option (T * list (bytes * bytes)) :=
  (fun e => (e, snd p)) <$> prefix_terminus_ (fst p).

Definition deepest_prefix (tr : list (trie_node T * list (bytes * bytes))) : option (trie_match T) :=
  (fun '(e, caps) => Match e caps true) <$> last (omap prefix_entry tr).

Definition exact_entry (tr : list (trie_node T * list (bytes * bytes))) (segs : list bytes)
    : option (trie_match T) :=
  if length tr =? S (length segs) then
    match last tr with
    | Some (n, caps) => (fun e => Match e caps false) <$> exact_terminus_ n
    | None => None
    end
  else None.

(** The exact route at the end of the visited nodes, otherwise the deepest
    prefix route on the way. *)
Definition find_ref root (segs : list bytes) : option (trie_match T) :=
  let tr := trail root [] segs in
  match exact_entry tr segs with Some m => Some m | None => deepest_prefix tr end.

Definition or_best (p : trie_node T * list (bytes * bytes)) (best : option (T * list (bytes * bytes))) :=
  match prefix_entry p with Some x => Some x | None => best end.

Definition miss (best : option (T * list (bytes * bytes))) : option (trie_match T) :=
  (fun '(e, caps) => Match e caps true) <$> best.

Fixpoint find_segs n caps (best : option (T * list (bytes * bytes))) (segs : list bytes)
    : option (trie_match T) :=
  match segs with
  | [] => match exact_terminus_ n with Some e => Some (Match e caps false) | None => miss best end
  | seg :: segs =>
      match step_to_child_ n seg caps with
      | None => miss best
      | Some (c, caps) => find_segs c caps (or_best (c, caps) best) segs
      end
  end.

Lemma last_cons_or {A} (x : A) l : last (x :: l) = Some (default x (last l)).
Proof. rewrite last_cons. by destruct (last l). Qed.

Lemma trail_last n caps segs : is_Some (last (trail n caps segs)).
Proof. destruct segs; simpl trail; rewrite last_cons_or; eauto. Qed.

Lemma exact_entry_cons n caps seg segs c caps' :
  step_to_child_ n seg caps = Some (c, caps') ->
  exact_entry (trail n caps (seg :: segs)) (seg :: segs) = exact_entry (trail c caps' segs) segs.
Proof.
  intros Hs. unfold exact_entry. cbn [trail]. rewrite Hs. cbn [length Nat.eqb].
  destruct (trail_last c caps' segs) as [x Hx]. by rewrite last_cons_or, Hx.
Qed.

Lemma find_segs_trail segs n caps best :
  find_segs n caps best segs =
  match exact_entry (trail n caps segs) segs with
  | Some m => Some m
  | None => miss match last (omap prefix_entry (tail (trail n caps segs))) with
                 | Some x => Some x | None => best end
  end.
Proof.
  revert n caps best. induction segs as [|seg segs IH]; intros n caps best; simpl find_segs.
  - unfold exact_entry. simpl. by destruct (exact_terminus_ n).
  - destruct (step_to_child_ n seg caps) as [[c caps']|] eqn:E.
    + rewrite (exact_entry_cons _ _ _ _ _ _ E), IH. cbn [trail tail]. rewrite E.
      destruct (exact_entry _ _); [done|]. f_equal. unfold or_best.
      destruct segs as [|seg' segs]; cbn [trail tail omap list_omap].
      * by destruct (prefix_entry (c, caps')).
      * destruct (prefix_entry (c, caps')) as [x|]; [|done]. rewrite last_cons_or.
        by destruct (last _).
    + unfold exact_entry. cbn [trail]. rewrite E. done.
Qed.

Lemma find_loop_segs fuel rest n best caps :
  length rest < fuel -> rest <> [] ->
  find_loop fuel rest n best caps = find_segs n caps best (fields_no_tail "/" rest).
Proof.
  revert rest n best caps. induction fuel as [|fuel IH]; intros rest n best caps Hf Hne; [lia|].
  simpl find_loop. rewrite (proj2 (is_empty_false rest)) by done.
  assert (Hm : (match best with Some (e, c) => Some (Match e c true) | None => None end) = miss best)
    by by destruct best as [[? ?]|].
  unfold pop_next_segment_.
  destruct (find_char_split "/" rest) as [(a & b & Hi & -> & Ha)|[Hi Hn]]; rewrite Hi.
  - unfold substr, substr_from. rewrite drop_0, take_app_length.
    assert (Hd : drop (length a + 1) (a ++ "/"%char :: b) = b).
    { rewrite drop_app_ge, Nat.add_sub_swap, Nat.sub_diag by lia. done. }
    rewrite Hd, fields_no_tail_cons by done. cbn [find_segs].
    destruct (step_to_child_ n a caps) as [[c caps']|]; [|done].
    unfold try_consume_exact_terminus_, or_best, prefix_entry. cbn [fst snd].
    assert (Hbest : match prefix_terminus_ c with Some e => Some (e, caps') | None => best end
      = match (fun e => (e, caps')) <$> prefix_terminus_ c with Some x => Some x | None => best end)
      by by destruct (prefix_terminus_ c).
    rewrite Hbest. destruct b as [|x b].
    + change (fields_no_tail "/" []) with (@nil bytes). simpl. destruct (exact_terminus_ c); [done|].
      destruct fuel; simpl; by destruct (prefix_terminus_ c), best as [[? ?]|].
    + simpl is_empty. simpl negb. apply IH; [|done]. rewrite length_app in Hf. simpl in *. lia.
  - rewrite fields_no_tail_last by done. cbn [find_segs].
    destruct (step_to_child_ n rest caps) as [[c caps']|]; [|done].
    unfold try_consume_exact_terminus_, or_best, prefix_entry. simpl.
    destruct (exact_terminus_ c); [done|].
    destruct fuel; simpl; by destruct (prefix_terminus_ c), best as [[? ?]|].
Qed.

Lemma find_find_ref root path : find root path = find_ref root (request_segments path).
Proof.
  unfold find, request_segments, find_ref.
  set (rest := match path with c :: t => if ascii_eqb c "/" then t else path | [] => [] end).
  assert (Hs : forall segs, find_segs root [] (prefix_entry (root, [])) segs =
    match exact_entry (trail root [] segs) segs with
    | Some m => Some m | None => deepest_prefix (trail root [] segs) end).
  { intros segs. rewrite find_segs_trail. destruct (exact_entry _ _); [done|].
    unfold deepest_prefix, miss. f_equal.
    destruct segs; cbn [trail tail omap list_omap]; destruct (prefix_entry (root, [])) as [x|];
      rewrite ?last_cons_or; simpl; try done; by destruct (last _). }
  rewrite <-Hs. destruct (is_empty rest) eqn:E.
  - apply is_empty_true in E as ->. change (fields_no_tail "/" []) with (@nil bytes). simpl.
    unfold match_root_terminus, prefix_entry. simpl. by destruct (exact_terminus_ root), (prefix_terminus_ root).
  - apply is_empty_false in E. rewrite find_loop_segs by (done || lia). unfold prefix_entry. simpl.
    by destruct (prefix_terminus_ root).
Qed.

(** The walk of a request, stated on the tree alone.  From a node, a segment
    leads to the literal child of that name; only where there is none, to the
    wildcard child, provided its constraint matches the segment, and the segment
    is then captured under the child's name. *)
Inductive leads_to : trie_node T -> bytes -> trie_node T -> list (bytes * bytes) -> Prop :=
| leads_literal n seg c : children_ n !! seg = Some c -> leads_to n seg c []
| leads_wildcard n seg w :
    children_ n !! seg = None -> wildcard_child_ n = Some w ->
    (forall re, wildcard_constraint_ w = Some re -> regex_match seg re = true) ->
    leads_to n seg w [(wildcard_name_ w, seg)].

(** The nodes visited, with the captures made up to each: the walk goes on to
    the last segment, or to the first one that leads nowhere. *)
Inductive visits : trie_node T -> list (bytes * bytes) -> list bytes ->
    list (trie_node T * list (bytes * bytes)) -> Prop :=
| visits_all n caps : visits n caps [] [(n, caps)]
| visits_stuck n caps seg segs :
    (forall c cap, ~ leads_to n seg c cap) -> visits n caps (seg :: segs) [(n, caps)]
| visits_next n caps seg segs c cap tr :
    leads_to n seg c cap -> visits c (caps ++ cap) segs tr ->
    visits n caps (seg :: segs) ((n, caps) :: tr).

Lemma leads_to_functional n seg c cap c' cap' :
  leads_to n seg c cap -> leads_to n seg c' cap' -> c = c' /\ cap = cap'.
Proof. destruct 1; inversion 1; simplify_eq; done. Qed.

Lemma visits_functional n caps segs tr tr' :
  visits n caps segs tr -> visits n caps segs tr' -> tr' = tr.
Proof.
  intros Hv. revert tr'. induction Hv as [n caps|n caps seg segs Hno|n caps seg segs c cap tr Hl _ IH];
    intros tr' Hv'; inversion Hv'; simplify_eq; try done; try (exfalso; naive_solver).
  match goal with H : leads_to _ _ _ _ |- _ =>
    destruct (leads_to_functional _ _ _ _ _ _ Hl H) as [<- <-] end. f_equal. by apply IH.
Qed.

Lemma step_leads n seg caps c caps' :
  step_to_child_ n seg caps = Some (c, caps') -> exists cap, leads_to n seg c cap /\ caps' = caps ++ cap.
Proof.
  unfold step_to_child_. destruct (children_ n !! seg) as [d|] eqn:Ed.
  { intros [= <- <-]. exists []. rewrite app_nil_r. split; [by constructor|done]. }
  destruct (wildcard_child_ n) as [w|] eqn:Ew; [|done].
  destruct (wildcard_constraint_ w) as [re|] eqn:Er; [destruct (regex_match seg re) eqn:Em; [|done]|];
    intros [= <- <-]; (eexists; split; [apply leads_wildcard; [done..|]|done]); intros re'; rewrite Er;
    [by intros [= <-]|done].
Qed.

Lemma step_stuck n seg caps c cap : step_to_child_ n seg caps = None -> ~ leads_to n seg c cap.
Proof.
  intros Hs Hl. unfold step_to_child_ in Hs. destruct Hl as [n seg c Hc|n seg w Hc Hw Hm].
  - by rewrite Hc in Hs.
  - rewrite Hc, Hw in Hs. destruct (wildcard_constraint_ w) as [re|]; [|done].
    by rewrite (Hm re) in Hs.
Qed.

Lemma trail_visits n caps segs : visits n caps segs (trail n caps segs).
Proof.
  revert n caps. induction segs as [|seg segs IH]; intros n caps; simpl; [constructor|].
  destruct (step_to_child_ n seg caps) as [[c caps']|] eqn:E.
  - apply step_leads in E as (cap & Hl & ->). by eapply visits_next.
  - apply visits_stuck. intros c cap. by eapply step_stuck.
Qed.

(** C35: Every request path has exactly one walk through the trie, in which a
    literal child is taken first and a wildcard child only where there is no
    literal one and its constraint matches; [find] returns the exact route at
    the end of a completed walk, otherwise the deepest prefix route passed, with
    the captures made up to it, otherwise nothing. *)
Theorem find_spec root path :
  let segs := request_segments path in
  exists tr, visits root [] segs tr
    /\ (forall tr', visits root [] segs tr' -> tr' = tr)
    /\ find root path = match exact_entry tr segs with Some m => Some m | None => deepest_prefix tr end.
Proof.
  exists (trail root [] (request_segments path)). pose proof (trail_visits root [] (request_segments path)) as Hv.
  split_and!; [done| |apply find_find_ref]. intros tr'. by apply visits_functional.
Qed.

(** A pattern accepts segments: literals are equal, a wildcard segment
    satisfies the node's constraint and is captured under the node's name. *)
Inductive accepts : trie_node T -> list (option bytes) -> list bytes -> list (bytes * bytes) -> Prop :=
| accepts_nil n : accepts n [] [] []
| accepts_literal n s c pat segs caps :
    children_ n !! s = Some c -> accepts c pat segs caps ->
    accepts n (Some s :: pat) (s :: segs) caps
| accepts_wildcard n s w pat segs caps :
    wildcard_child_ n = Some w ->
    (forall re, wildcard_constraint_ w = Some re -> regex_match s re = true) ->
    accepts w pat segs caps ->
    accepts n (None :: pat) (s :: segs) ((wildcard_name_ w, s) :: caps).

Lemma accepts_node_for n pat segs caps :
  accepts n pat segs caps -> is_Some (node_for n pat).
Proof. induction 1 as [|n s c pat segs caps Hc _ IH|n s w pat segs caps Hw _ _ IH]; simpl;
  [eauto|by rewrite Hc|by rewrite Hw]. Qed.

Lemma step_to_child_accepts n seg caps c caps' :
  step_to_child_ n seg caps = Some (c, caps') ->
  exists p cap, subtrie n p = Some c /\ caps' = caps ++ cap
    /\ forall pat segs cs, accepts c pat segs cs -> accepts n (p :: pat) (seg :: segs) (cap ++ cs).
Proof.
  unfold step_to_child_. destruct (children_ n !! seg) as [d|] eqn:Ed.
  { intros [= <- <-]. exists (Some seg), []. rewrite app_nil_r. split_and!; [done..|].
    intros. by eapply accepts_literal. }
  destruct (wildcard_child_ n) as [w|] eqn:Ew; [|done].
  destruct (wildcard_constraint_ w) as [re|] eqn:Er.
  - destruct (regex_match seg re) eqn:Em; [|done]. simpl. intros [= <- <-].
    exists None, [(wildcard_name_ w, seg)]. split_and!; [done..|]. intros. apply accepts_wildcard; [done| |done].
    intros re'. rewrite Er. congruence.
  - intros [= <- <-]. exists None, [(wildcard_name_ w, seg)]. split_and!; [done..|]. intros.
    apply accepts_wildcard; [done| |done]. by rewrite Er.
Qed.

(** Every visited node is the node of a pattern that accepts the segments read
    so far. *)
Lemma trail_accepts segs n caps i m caps' :
  trail n caps segs !! i = Some (m, caps') ->
  exists pat cap, node_for n pat = Some m /\ caps' = caps ++ cap /\ accepts n pat (take i segs) cap.
Proof.
  revert n caps i. induction segs as [|seg segs IH]; intros n caps [|i] Hi; simpl in Hi.
  1,3: simplify_eq; exists [], []; rewrite app_nil_r; split_and!; [done..|constructor].
  - by rewrite lookup_nil in Hi.
  - destruct (step_to_child_ n seg caps) as [[c caps1]|] eqn:E; [|by rewrite lookup_nil in Hi].
    apply step_to_child_accepts in E as (p & cap & Hsub & -> & Hacc).
    apply IH in Hi as (pat & cap' & Hnode & -> & Ha).
    exists (p :: pat), (cap ++ cap'). rewrite node_for_cons, Hsub, app_assoc.
    split_and!; [done..|]. by apply Hacc.
Qed.

Lemma last_omap_elem {A B} (f : A -> option B) l y :
  last (omap f l) = Some y -> exists i x, l !! i = Some x /\ f x = Some y.
Proof.
  intros Hl%last_Some_elem_of. apply list_elem_of_omap in Hl as (x & Hx & Hf).
  apply list_elem_of_lookup in Hx as [i Hi]. eauto.
Qed.

Lemma find_terminus root path r :
  find root path = Some r ->
  exists pat i,
    terminus_at root pat (is_prefix_match r) = Some (entry r)
    /\ accepts root pat (take i (request_segments path)) (captures r)
    /\ (is_prefix_match r = false -> take i (request_segments path) = request_segments path).
Proof.
  rewrite find_find_ref. generalize (request_segments path) as segs. intros segs.
  unfold find_ref. destruct (exact_entry (trail root [] segs) segs) as [r'|] eqn:E.
  - intros [= ->]. unfold exact_entry in E. destruct (_ =? _) eqn:El; [|done]. bool_prop.
    destruct (last (trail root [] segs)) as [[n caps]|] eqn:Hl; [|done].
    apply fmap_Some in E as (e & He & ->). rewrite last_lookup in Hl.
    rewrite El in Hl. simpl in Hl. apply trail_accepts in Hl as (pat & cap & Hn & -> & Ha).
    exists pat, (length segs). simpl. unfold terminus_at. rewrite Hn.
    split_and!; [done..|]. intros _. by rewrite firstn_all.
  - unfold deepest_prefix. intros ([e caps] & Hl & ->)%fmap_Some.
    apply last_omap_elem in Hl as (i & [n caps'] & Hi & Hp). unfold prefix_entry in Hp. simpl in Hp.
    apply fmap_Some in Hp as (e' & He & [= <- <-]).
    apply trail_accepts in Hi as (pat & cap & Hn & -> & Ha).
    exists pat, i. simpl. unfold terminus_at. rewrite Hn. done.
Qed.

(** A match is sound: the entry is bound in the represented map to a pattern
    that accepts all segments of the request, or for a prefix route a leading
    part of them, and the captures are those of that pattern. *)
Theorem find_sound root m path r :
  represents root m -> find root path = Some r ->
  exists pat i,
    m !! (pat, is_prefix_match r) = Some (entry r)
    /\ accepts root pat (take i (request_segments path)) (captures r)
    /\ (is_prefix_match r = false -> take i (request_segments path) = request_segments path).
Proof.
  intros [_ Hm] (pat & i & Ht & Ha & He)%find_terminus. exists pat, i. by rewrite <-Hm.
Qed.

Lemma find_ref_literal segs root e caps best :
  terminus_at root (map Some segs) false = Some e ->
  find_segs root caps best segs = Some (Match e caps false).
Proof.
  revert root best. induction segs as [|seg segs IH]; intros root best; unfold terminus_at; simpl.
  - by intros ->.
  - unfold step_to_child_. destruct (children_ root !! seg) as [c|]; [|done]. apply IH.
Qed.

(** A literal route is never shadowed: whatever else is registered, a request
    whose segments are those of a bound exact route is served by it. *)
Theorem find_literal_route root m path e :
  represents root m ->
  m !! (map Some (request_segments path), false) = Some e ->
  find root path = Some (Match e [] false).
Proof.
  intros [_ Hm] He. rewrite <-Hm in He. rewrite find_find_ref. unfold find_ref.
  pose proof (find_ref_literal _ _ _ [] None He) as Hf. rewrite find_segs_trail in Hf.
  destruct (exact_entry _ _); [by simplify_eq|]. unfold miss in Hf.
  destruct (last _) as [[? ?]|]; simpl in Hf; by simplify_eq.
Qed.

End Lookup.

(** ** Concrete tries *)

Section Examples.
#[local] Existing Instance literal_engine.

Definition example_ops : list (trie_op (T := nat)) :=
  [OpInsert (bs "/users/{id|[0-9]+}") 1 false; OpInsert (bs "/users/me") 2 false;
   OpInsert (bs "/users") 3 true; OpInsert (bs "/x/{a|(}") 4 false;
   OpHas (bs "/users/{name}") false; OpRemove (bs "/x") true].

Definition example_trie : trie_node nat := fst (trie_run example_ops empty_node).

Example example_find :
  snd (trie_run example_ops empty_node) = [true; true; true; false; true; false]
  /\ find example_trie (bs "/users/42") = Some (Match 1 [(bs "id", bs "42")] false)
  /\ find example_trie (bs "/users/me") = Some (Match 2 [] false)
  /\ find example_trie (bs "/users/bob/x") = Some (Match 3 [] true)
  /\ find example_trie (bs "/other") = None.
Proof. by vm_compute. Qed.

Definition example_map : gmap (list (option bytes) * bool) nat :=
  default ∅ (map_replay example_ops (snd (trie_run example_ops empty_node)) ∅).

Lemma example_represents : represents example_trie example_map.
Proof.
  unfold example_trie, example_map. generalize example_ops as ops.
  intros ops. destruct (trie_run_refines ops empty_node ∅ represents_empty) as (m & -> & Hr). done.
Qed.

Lemma find_sound_witness :
  represents example_trie example_map
  /\ find example_trie (bs "/users/42") = Some (Match 1 [(bs "id", bs "42")] false)
  /\ exists pat i, example_map !! (pat, false) = Some 1
       /\ accepts example_trie pat (take i (request_segments (bs "/users/42"))) [(bs "id", bs "42")]
       /\ (false = false -> take i (request_segments (bs "/users/42")) = request_segments (bs "/users/42")).
Proof.
  assert (Hf : find example_trie (bs "/users/42") = Some (Match 1 [(bs "id", bs "42")] false))
    by by vm_compute.
  split; [apply example_represents|]. split; [exact Hf|].
  exact (find_sound _ _ _ _ example_represents Hf).
Defined.

Lemma find_literal_route_witness :
  example_map !! (map Some (request_segments (bs "/users/me")), false) = Some 2
  /\ find example_trie (bs "/users/me") = Some (Match 2 [] false).
Proof.
  assert (Hm : example_map !! (map Some (request_segments (bs "/users/me")), false) = Some 2)
    by by vm_compute.
  split; [exact Hm|]. exact (find_literal_route _ _ _ _ example_represents Hm).
Defined.

End Examples.
