(* ===== verification/HttpEndpoint.v ===== *)
(** * Endpoints

    [detail/http_endpoint.cpp]: the parsed form of a route path (registration)
    or of a request path.  [url_complete] is the key every table of the route
    layer uses. *)

From S2P Require Import Prelude HttpUtils Paths Regex SegmentTrie.
Import HttpUtils.HttpUtils.

Module Endpoint.

Section Endpoint.
Context `{RegexEngine}.

(** [re_url_normalized = None] is the default-constructed [std::regex]. *)
Record http_endpoint : Type := Endpoint {
  url_complete : bytes;
  url_normalized : bytes;
  url_pars : list bytes;
  url_pieces : list bytes;
  chunk_positions : list nat;
  re_url_normalized : option regex;
  family_url : bool;
  reg_compiled : bool;
}.

Definition default_endpoint : http_endpoint :=
  Endpoint (bs "/") (bs "/") [] [] [] None false false.

Definition set_url_normalized (h : http_endpoint) (s : bytes) : http_endpoint :=
  Endpoint (url_complete h) s (url_pars h) (url_pieces h) (chunk_positions h)
           (re_url_normalized h) (family_url h) (reg_compiled h).

Definition push_piece (h : http_endpoint) (part : bytes) : http_endpoint :=
  Endpoint (url_complete h) (url_normalized h) (url_pars h) (url_pieces h ++ [part])
           (chunk_positions h) (re_url_normalized h) (family_url h) (reg_compiled h).

Definition push_par (h : http_endpoint) (name : bytes) (i : nat) : http_endpoint :=
  Endpoint (url_complete h) (url_normalized h) (url_pars h ++ [name]) (url_pieces h)
           (chunk_positions h ++ [i]) (re_url_normalized h) (family_url h) (reg_compiled h).

(** [url_complete[url_complete.size() - 1]] wraps around on an empty string:
    the access is then outside the string. *)
Definition normalize_url_complete (url : bytes) : outcome bytes :=
  last ← str_at url (Z.of_nat (length url) - 1);
  let url := if ascii_eqb last "/" then substr url 0 (length url - 1) else url in
  c ← str_at url 0;
  Ok (if ascii_eqb c "/" then url else bs "/" ++ url).

(** Each part function returns the endpoint; [first] is false afterwards. *)
Definition append_non_registration_part (part : bytes) (first : bool) (h : http_endpoint)
    : http_endpoint :=
  push_piece (set_url_normalized h
    (url_normalized h ++ (if first then [] else bs "/") ++ part)) part.

Definition append_literal_url_part (part : bytes) (first : bool) (h : http_endpoint)
    : outcome http_endpoint :=
  if first then
    c ← str_at part 0;
    Ok (push_piece (set_url_normalized h
          ((if ascii_eqb c "^" then [] else url_normalized h) ++ part)) part)
  else Ok (push_piece (set_url_normalized h (url_normalized h ++ bs "/" ++ part)) part).

Definition append_parameter_url_part (part : bytes) (i : nat) (first : bool) (h : http_endpoint)
    : outcome http_endpoint :=
  if (length part <? 3) || negb (bool_decide (head part = Some "{"%char))
     || negb (bool_decide (last part = Some "}"%char))
  then Throw (invalid_argument (bs "Bad URL format"))
  else
    let bar := find_char "|" part in
    let name := match bar with
                | Some bar => substr part 1 (bar - 1)
                | None => substr part 1 (length part - 2)
                end in
    let re := match bar with
              | Some bar => substr part (bar + 1) (length part - bar - 2)
              | None => bs "([^\/]+)"
              end in
    Ok (push_piece (push_par (set_url_normalized h
          (url_normalized h ++ (if first then [] else bs "/") ++ re)) name i) part).

Definition process_url_part (part : bytes) (i : nat) (first registration : bool)
    (h : http_endpoint) : outcome http_endpoint :=
  if negb registration then Ok (append_non_registration_part part first h)
  else if negb (is_empty part) && negb (bool_decide (head part = Some "{"%char))
  then append_literal_url_part part first h
  else append_parameter_url_part part i first h.

(** The loop over the parts of the constructor. *)
Fixpoint process_url_parts (parts : list bytes) (i : nat) (first registration : bool)
    (h : http_endpoint) : outcome http_endpoint :=
  match parts with
  | [] => Ok h
  | part :: parts =>
      h ← process_url_part part i first registration h;
      process_url_parts parts (S i) false registration h
  end.

Definition compile_regex_url (h : http_endpoint) : outcome http_endpoint :=
  let src := url_normalized h ++ bs "$" in
  match regex_compile src with
  | Some re => Ok (Endpoint (url_complete h) src (url_pars h) (url_pieces h)
                            (chunk_positions h) (Some re) (family_url h) true)
  | None => Throw (invalid_argument (bs "Not a valid regex in URL: " ++ src))
  end.

(** The constructor (built without [CASE_INSENSITIVE]). *)
Definition make_endpoint (url : bytes) (family registration use_regex : bool)
    : outcome http_endpoint :=
  if use_regex && negb registration then
    Throw (invalid_argument (bs "Cannot use regex if not during registration"))
  else
    complete ← normalize_url_complete url;
    let h := Endpoint complete (if use_regex then bs "^/" else bs "/") [] [] [] None family false in
    h ← process_url_parts (tokenize_url url "/") 0 true registration h;
    if use_regex then compile_regex_url h else Ok h.

(** [char] is signed; [std::toupper] of the int in the C locale. *)
Definition schar (c : ascii) : Z := if (code c <? 128)%Z then code c else (code c - 256)%Z.

Definition toupper_int (z : Z) : Z := if (97 <=? z)%Z && (z <=? 122)%Z then (z - 32)%Z else z.

(** The loop of [COMPARATOR] on strings of equal length. *)
Fixpoint comparator_loop (x y : bytes) : bool :=
  match x, y with
  | a :: x, b :: y =>
      let xc := toupper_int (schar a) in
      let yc := toupper_int (schar b) in
      if (xc <? yc)%Z then true else if (yc <? xc)%Z then false else comparator_loop x y
  | _, _ => false
  end.

Definition comparator (x y : bytes) : bool :=
  if length x <? length y then true
  else if length y <? length x then false
  else comparator_loop x y.

Definition endpoint_lt (a b : http_endpoint) : bool :=
  if negb (Bool.eqb (family_url a) (family_url b)) then family_url a
  else comparator (url_normalized a) (url_normalized b).

Definition re_match (s : bytes) (re : option regex) : bool :=
  match re with Some re => regex_match s re | None => false end.

(** The loop that rebuilds the first [n] segments of the request. *)
Fixpoint rebuild (n : nat) (pieces : list bytes) (nn : bytes) (first : bool) : bytes :=
  match n, pieces with
  | S n, p :: pieces => rebuild n pieces (nn ++ (if first then [] else bs "/") ++ p) false
  | _, _ => nn
  end.

(** [h.match(url)] *)
Definition endpoint_match (h url : http_endpoint) : outcome bool :=
  if negb (reg_compiled h) then
    Throw (invalid_argument (bs "Cannot run match. Regex suppressed."))
  else if negb (family_url h) || (length (url_pieces url) <? length (url_pieces h))
  then Ok (re_match (url_complete url) (re_url_normalized h))
  else Ok (re_match (rebuild (length (url_pieces h)) (url_pieces url) (bs "/") true)
                    (re_url_normalized h)).

End Endpoint.
End Endpoint.
Import Endpoint.

Section EndpointTheory.
Context `{RegexEngine}.

(** ** The key of an endpoint *)

Lemma normalize_url_complete_ok url :
  url <> [] -> normalize_url_complete url = Ok (canonicalize_lookup_path url).
Proof.
  intros Hne. unfold normalize_url_complete, str_at.
  destruct (last url) as [l|] eqn:El; [|by apply last_None in El].
  apply last_Some in El as [u ->]. rewrite length_app. simpl length.
  rewrite decide_True by lia. simpl.
  replace (Z.to_nat (Z.of_nat (length u + 1) - 1)) with (length u) by lia.
  rewrite lookup_app_r, Nat.sub_diag by lia. simpl.
  unfold substr. rewrite drop_0. replace (length u + 1 - 1) with (length u) by lia.
  rewrite take_app_length.
  destruct (ascii_eqb l "/") eqn:El; [apply ascii_eqb_true in El as ->|].
  - rewrite decide_True by lia. simpl. unfold canonicalize_lookup_path.
    destruct u as [|a u]; [done|]. simpl app. cbn [lookup list_lookup default].
    rewrite app_comm_cons, last_snoc.
    assert (Hl : (1 <? length ((a :: u) ++ ["/"%char])) = true)
      by (apply Nat.ltb_lt; rewrite length_app; simpl; lia).
    rewrite Hl. cbn [andb]. rewrite (bool_decide_true (Some _ = _)) by done. cbn [negb]. rewrite andb_false_r.
    rewrite take_app_length' by (rewrite ?length_app; simpl; rewrite ?length_app; simpl; lia). simpl. by destruct (ascii_eqb a "/").
  - rewrite decide_True by lia. simpl. unfold canonicalize_lookup_path.
    destruct u as [|a u].
    + simpl. rewrite El. done.
    + simpl app. cbn [lookup list_lookup default]. rewrite app_comm_cons, last_snoc.
      rewrite bool_decide_false by (intros [= ->]; by rewrite ascii_eqb_refl in El).
      rewrite andb_false_r. simpl. by destruct (ascii_eqb a "/").
Qed.

(** ** The parts of a registered path *)

(** A part the registration parser accepts: a literal, or a [{...}] parameter
    of at least one character. *)
Definition part_ok (part : bytes) : bool :=
  negb (bool_decide (head part = Some "{"%char))
  || ((3 <=? length part) && bool_decide (last part = Some "}"%char)).

Definition is_parameter (part : bytes) : bool := bool_decide (head part = Some "{"%char).

Definition parameter_name (part : bytes) : bytes := fst (Trie.parse_wildcard part).

Fixpoint parameters (parts : list bytes) (i : nat) : list (bytes * nat) :=
  match parts with
  | [] => []
  | part :: parts =>
      (if is_parameter part then [(parameter_name part, i)] else []) ++ parameters parts (S i)
  end.

Lemma process_url_part_registration part i first h :
  part <> [] ->
  if part_ok part then
    exists norm, process_url_part part i first true h =
      Ok (push_piece (let h := set_url_normalized h norm in
                      if is_parameter part then push_par h (parameter_name part) i else h) part)
  else process_url_part part i first true h = Throw (invalid_argument (bs "Bad URL format")).
Proof.
  intros Hne. destruct part as [|c part]; [done|].
  unfold part_ok, is_parameter, process_url_part, parameter_name, Trie.parse_wildcard.
  destruct (bool_decide (head (c :: part) = Some "{"%char)) eqn:Eh; simpl negb; cbn [orb andb is_empty].
  - unfold append_parameter_url_part. rewrite Eh. simpl negb. rewrite orb_false_r.
    rewrite Nat.ltb_antisym. destruct (3 <=? length (c :: part)); simpl negb; cbn [orb andb]; [|done].
    destruct (bool_decide (last (c :: part) = _)); simpl negb; [|done].
    destruct (find_char "|" (c :: part)); eexists; reflexivity.
  - unfold append_literal_url_part. destruct first; [|eexists; reflexivity].
    unfold str_at. rewrite decide_True by (simpl; lia). eexists; reflexivity.
Qed.

Lemma process_url_parts_registration parts i first h :
  Forall (fun p => p <> []) parts ->
  if forallb part_ok parts then
    exists h', process_url_parts parts i first true h = Ok h'
      /\ url_complete h' = url_complete h
      /\ url_pieces h' = url_pieces h ++ parts
      /\ url_pars h' = url_pars h ++ map fst (parameters parts i)
      /\ chunk_positions h' = chunk_positions h ++ map snd (parameters parts i)
      /\ family_url h' = family_url h /\ reg_compiled h' = reg_compiled h
  else process_url_parts parts i first true h = Throw (invalid_argument (bs "Bad URL format")).
Proof.
  intros Hall. revert i first h. induction Hall as [|part parts Hne Hall IH]; intros i first h.
  - simpl. exists h. rewrite !app_nil_r. done.
  - cbn [forallb process_url_parts].
    pose proof (process_url_part_registration part i first h Hne) as Hp.
    destruct (part_ok part); cbn [andb]; [|by rewrite Hp]. destruct Hp as [norm ->].
    cbn [mbind outcome_bind]. set (h1 := push_piece _ _). specialize (IH (S i) false h1).
    destruct (forallb part_ok parts); [|done].
    destruct IH as (h' & -> & Hc & Hp & Hn & Hk & Hf & Hr). exists h'.
    subst h1. destruct (is_parameter part) eqn:Ep; cbn in *; rewrite Hp, Hn, Hk; cbn;
      rewrite Ep; cbn; rewrite <-?app_assoc; done.
Qed.

Lemma tokenize_nonempty url : Forall (fun p => p <> []) (tokenize_url url "/").
Proof. apply Forall_forall. intros p [? _]%tokenize_url_segments. done. Qed.

Lemma make_endpoint_parts url family use_regex :
  url <> [] ->
  let parts := tokenize_url url "/" in
  match make_endpoint url family true use_regex with
  | Ok h => forallb part_ok parts = true
      /\ url_complete h = canonicalize_lookup_path url
      /\ url_pieces h = parts
      /\ url_pars h = map fst (parameters parts 0)
      /\ chunk_positions h = map snd (parameters parts 0)
      /\ family_url h = family /\ reg_compiled h = use_regex
  | Throw (invalid_argument msg) =>
      (forallb part_ok parts = false /\ msg = bs "Bad URL format")
      \/ (forallb part_ok parts = true /\ use_regex = true
          /\ exists src, regex_compile src = None /\ msg = bs "Not a valid regex in URL: " ++ src)
  | _ => False
  end.
Proof.
  intros Hne parts. unfold make_endpoint. rewrite andb_false_r, normalize_url_complete_ok by done.
  cbn [mbind outcome_bind]. set (h0 := Endpoint _ _ _ _ _ _ _ _).
  pose proof (process_url_parts_registration parts 0 true h0 (tokenize_nonempty url)) as Hp.
  fold parts. destruct (forallb part_ok parts); [|rewrite Hp; simpl; by left].
  destruct Hp as (h & -> & Hc & Hpc & Hn & Hk & Hf & Hr). cbn [mbind outcome_bind].
  destruct use_regex; [|by split_and!]. unfold compile_regex_url.
  destruct (regex_compile _) eqn:E; [by split_and!|]. right. split_and!; [done..|]. eauto.
Qed.

Lemma make_endpoint_nonempty url family use_regex h :
  make_endpoint url family true use_regex = Ok h -> url <> [].
Proof. intros Hm ->. unfold make_endpoint in Hm. by destruct use_regex. Qed.

Lemma make_endpoint_key url family use_regex h :
  make_endpoint url family true use_regex = Ok h -> url_complete h = canonicalize_lookup_path url.
Proof.
  intros Hm. pose proof (make_endpoint_parts url family use_regex (make_endpoint_nonempty _ _ _ _ Hm)) as Hp.
  rewrite Hm in Hp. by destruct Hp as (_ & ? & _).
Qed.

(** The registration endpoint of a non-empty path: construction fails exactly
    when a part is a malformed parameter (or the regex does not compile), and
    otherwise yields the key every lookup uses, the pieces of the path, and the
    name and position of each parameter. *)
Theorem make_endpoint_registration url family use_regex :
  url <> [] ->
  let parts := tokenize_url url "/" in
  match make_endpoint url family true use_regex with
  | Ok h => forallb part_ok parts = true
      /\ url_complete h = canonicalize_lookup_path url
      /\ url_pieces h = parts
      /\ url_pars h = map fst (parameters parts 0)
      /\ chunk_positions h = map snd (parameters parts 0)
      /\ family_url h = family /\ reg_compiled h = use_regex
  | Throw (invalid_argument msg) =>
      (forallb part_ok parts = false /\ msg = bs "Bad URL format")
      \/ (forallb part_ok parts = true /\ use_regex = true
          /\ exists src, regex_compile src = None /\ msg = bs "Not a valid regex in URL: " ++ src)
  | _ => False
  end.
Proof. apply make_endpoint_parts. Qed.

(** ** The order on endpoints *)

Definition fold_case (s : bytes) : list Z := map (fun c => toupper_int (schar c)) s.

Fixpoint lex_lt (x y : list Z) : Prop :=
  match x, y with
  | a :: x, b :: y => (a < b)%Z \/ (a = b /\ lex_lt x y)
  | _, _ => False
  end.

Lemma comparator_loop_lex x y : comparator_loop x y = true <-> lex_lt (fold_case x) (fold_case y).
Proof.
  revert y. induction x as [|a x IH]; intros [|b y]; simpl; try done.
  destruct (_ <? _)%Z eqn:E1; bool_prop; [naive_solver|].
  destruct (_ <? _)%Z eqn:E2 in |- *; bool_prop; [split; [done|lia]|]. rewrite IH. split.
  - right. split; [lia|done].
  - intros [?|[_ ?]]; [lia|done].
Qed.

Definition endpoint_key (h : http_endpoint) : bool * list Z := (family_url h, fold_case (url_normalized h)).

Definition key_lt (a b : bool * list Z) : Prop :=
  match fst a, fst b with
  | true, false => True
  | false, true => False
  | _, _ => length (snd a) < length (snd b)
            \/ (length (snd a) = length (snd b) /\ lex_lt (snd a) (snd b))
  end.

Lemma endpoint_lt_key a b : endpoint_lt a b = true <-> key_lt (endpoint_key a) (endpoint_key b).
Proof.
  unfold endpoint_lt, key_lt, endpoint_key, comparator. simpl. unfold fold_case at 1 2 3 4 7 8 9 10.
  rewrite !length_map.
  assert (Hc : (if length (url_normalized a) <? length (url_normalized b) then true
      else if length (url_normalized b) <? length (url_normalized a) then false
      else comparator_loop (url_normalized a) (url_normalized b)) = true
    <-> length (url_normalized a) < length (url_normalized b)
        \/ (length (url_normalized a) = length (url_normalized b)
            /\ lex_lt (fold_case (url_normalized a)) (fold_case (url_normalized b)))).
  { destruct (_ <? _) eqn:E1; bool_prop; [naive_solver|].
    destruct (_ <? _) eqn:E2 in |- *; bool_prop; [split; [done|lia]|].
    rewrite comparator_loop_lex. split; [right; split; [lia|done]|intros [?|[_ ?]]; [lia|done]]. }
  by destruct (family_url a), (family_url b).
Qed.

Lemma lex_lt_irrefl x : ~ lex_lt x x.
Proof. induction x; simpl; [tauto|]. intros [?|[_ ?]]; [lia|tauto]. Qed.

Lemma lex_lt_trans x y z : lex_lt x y -> lex_lt y z -> lex_lt x z.
Proof.
  revert y z. induction x as [|a x IH]; intros [|b y] [|c z]; simpl; try done.
  intros [?|[-> ?]] [?|[-> ?]]; eauto with lia.
Qed.

Lemma lex_lt_total x y : length x = length y -> x = y \/ lex_lt x y \/ lex_lt y x.
Proof.
  revert y. induction x as [|a x IH]; intros [|b y] Hl; simpl in *; try done; [by left|].
  destruct (Z.lt_trichotomy a b) as [?|[->|?]]; [by eauto| |by eauto].
  destruct (IH y) as [->|[?|?]]; [lia|eauto..].
Qed.

(** [operator<] is the strict weak ordering an associative container needs:
    irreflexive, transitive, and two endpoints are equivalent exactly when they
    have the same family flag and the same normalized URL up to case. *)
Theorem endpoint_lt_strict_weak (a b c : http_endpoint) :
  endpoint_lt a a = false
  /\ (endpoint_lt a b = true -> endpoint_lt b c = true -> endpoint_lt a c = true)
  /\ ((endpoint_lt a b = false /\ endpoint_lt b a = false) <-> endpoint_key a = endpoint_key b).
Proof.
  rewrite <-!not_true_iff_false, !endpoint_lt_key.
  destruct (endpoint_key a) as [fa xa], (endpoint_key b) as [fb xb], (endpoint_key c) as [fc xc].
  unfold key_lt; simpl. split_and!.
  - pose proof (lex_lt_irrefl xa). destruct fa; intuition lia.
  - pose proof (lex_lt_trans xa xb xc). destruct fa, fb, fc; intuition lia.
  - split; [|intros [= -> ->]; pose proof (lex_lt_irrefl xb); destruct fb; intuition lia].
    intros [H1 H2]. assert (fa = fb) as -> by (destruct fa, fb; naive_solver).
    assert (length xa = length xb) by (destruct fb; intuition lia).
    destruct (lex_lt_total xa xb) as [->|[?|?]]; [done..| |]; destruct fb; naive_solver.
Qed.

(** ** Matching a request *)

Lemma rebuild_join n pieces nn :
  n <= length pieces -> 0 < n ->
  rebuild n pieces nn true = nn ++ join (bs "/") (take n pieces).
Proof.
  assert (Hf : forall n pieces nn, n <= length pieces ->
    rebuild n pieces nn false = nn ++ flat_map (fun p => bs "/" ++ p) (take n pieces)).
  { clear. intros n. induction n as [|n IH]; intros [|p pieces] nn Hl; simpl in *; rewrite ?app_nil_r; try (done || lia).
    rewrite IH by lia. by rewrite <-app_assoc. }
  assert (Hj : forall p l, join (bs "/") (p :: l) = p ++ flat_map (fun p => bs "/" ++ p) l).
  { clear. intros p l. revert p. induction l as [|q l IH]; intros p; [by rewrite app_nil_r|].
    rewrite join_cons, IH. done. }
  intros Hl Hn. destruct n as [|n]; [lia|]. destruct pieces as [|p pieces]; [simpl in Hl; lia|].
  simpl in Hl. cbn [rebuild take]. rewrite Hf, Hj by lia. simpl. by rewrite <-app_assoc.
Qed.

(** A prefix endpoint with [n] pieces accepts a request of at least [n]
    segments by its first [n] segments alone; every other endpoint is matched
    against the whole path. *)
Theorem endpoint_match_spec h u :
  reg_compiled h = true -> url_pieces h <> [] ->
  endpoint_match h u =
    Ok (re_match
      (if family_url h && (length (url_pieces h) <=? length (url_pieces u))
       then bs "/" ++ join (bs "/") (take (length (url_pieces h)) (url_pieces u))
       else url_complete u) (re_url_normalized h)).
Proof.
  intros Hr Hp. unfold endpoint_match. rewrite Hr, Nat.ltb_antisym. cbn [negb].
  destruct (family_url h); cbn [negb orb andb]; [|done].
  destruct (_ <=? _) eqn:E; cbn [negb]; [|done]. bool_prop.
  rewrite rebuild_join by (done || (destruct (url_pieces h); simpl in *; [done|lia])). done.
Qed.


End EndpointTheory.

(** ** Concrete endpoints *)

Section EndpointExamples.
#[local] Existing Instance literal_engine.

Lemma make_endpoint_registration_witness :
  bs "users/{id|[0-9]+}/" <> [] /\
  match make_endpoint (bs "users/{id|[0-9]+}/") false true false with
  | Ok h => url_complete h = bs "/users/{id|[0-9]+}" /\ url_pars h = [bs "id"]
            /\ chunk_positions h = [1]
  | _ => False
  end.
Proof.
  split; [done|].
  pose proof (make_endpoint_registration (bs "users/{id|[0-9]+}/") false false ltac:(done)) as H.
  vm_compute in H. vm_compute. tauto.
Defined.

Lemma endpoint_match_spec_witness :
  match make_endpoint (bs "/a/.") true true true, make_endpoint (bs "/a/b/c") false false false with
  | Ok h, Ok u => reg_compiled h = true /\ url_pieces h <> [] /\ endpoint_match h u = Ok true
  | _, _ => False
  end.
Proof.
  set (oh := make_endpoint (bs "/a/.") true true true).
  set (ou := make_endpoint (bs "/a/b/c") false false false).
  vm_compute in oh. vm_compute in ou. simpl.
  split_and!; [done..|]. rewrite endpoint_match_spec by done. by vm_compute.
Defined.

(** The empty path makes the constructor read outside the string. *)
Lemma make_endpoint_empty family use_regex :
  make_endpoint [] family true use_regex = Undefined.
Proof. unfold make_endpoint. by destruct use_regex. Qed.

End EndpointExamples.
