(* ===== verification/RouteTable.v ===== *)
(** * The route table

    [detail/route_tier.hpp], [detail/route_table.cpp]: three tiers of routes
    (exact paths, the segment trie, a list of regex routes) behind an LRU cache
    of resolved lookups.  [RouteTable] holds the code; the theorems relate the
    cached lookup to the resolution of a path in the three tiers. *)

From S2P Require Import Prelude HttpUtils HttpMethod Paths RouteCache Regex SegmentTrie HttpEndpoint.
Import HttpUtils.HttpUtils MethodSetOps Endpoint.

(** [route_entry]; the handler is the identity of a shared [http_resource]. *)
Record route_entry : Type := RouteEntry {
  methods : method_set;
  handler : option nat;
  is_prefix : bool;
}.

#[export] Instance route_entry_eq_dec : EqDecision route_entry.
Proof. solve_decision. Defined.

Definition default_entry : route_entry := RouteEntry clear_all None false.

Inductive route_tier `{RegexEngine} : Type :=
| tier_exact
| tier_radix
| tier_regex (re : regex).

Definition classify_route_tier `{RegexEngine} (idx : http_endpoint) : outcome route_tier :=
  if negb (is_empty (url_pars idx)) then Ok tier_radix
  else if reg_compiled idx then
    match regex_compile (url_normalized idx) with
    | None => Throw (invalid_argument (bs "invalid regex route pattern '" ++ url_normalized idx
                ++ bs "': " ++ regex_error_what (url_normalized idx)))
    | Some re => Ok (if regex_match (url_complete idx) re then tier_exact else tier_regex re)
    end
  else Ok tier_exact.

Module RouteTable.

Section RouteTable.
Context `{RegexEngine, StdHash}.

Definition ROUTE_CACHE_MAX_SIZE : nat := 256.

Inductive tier_hit : Type := hit_none | hit_cache | hit_exact | hit_radix | hit_regex.

#[local] Abbreviation captured := (list (bytes * bytes)).

Record lookup_result : Type := Lookup {
  found : bool;
  tier : tier_hit;
  lr_entry : route_entry;
  captured_params : captured;
}.

Definition no_result : lookup_result := Lookup false hit_none default_entry [].

Record regex_route : Type := RegexRoute {
  rr_url_complete : bytes;
  compiled_re : regex;
  rr_entry : route_entry;
}.

Record route_table : Type := Table {
  exact_routes_ : gmap bytes route_entry;
  param_and_prefix_routes_ : Trie.trie_node route_entry;
  regex_routes_ : list regex_route;
  route_lru_cache : LruCache.route_cache (route_entry * captured);
}.

Definition set_exact (t : route_table) (m : gmap bytes route_entry) : route_table :=
  Table m (param_and_prefix_routes_ t) (regex_routes_ t) (route_lru_cache t).
Definition set_trie (t : route_table) (n : Trie.trie_node route_entry) : route_table :=
  Table (exact_routes_ t) n (regex_routes_ t) (route_lru_cache t).
Definition set_regex (t : route_table) (l : list regex_route) : route_table :=
  Table (exact_routes_ t) (param_and_prefix_routes_ t) l (route_lru_cache t).
Definition set_cache (t : route_table) c : route_table :=
  Table (exact_routes_ t) (param_and_prefix_routes_ t) (regex_routes_ t) c.

(** ** Lookup *)

(** The block under the second shared lock: the trie, then the regex routes in
    registration order. *)
Definition lookup_radix_regex (t : route_table) (path : bytes) : lookup_result :=
  match Trie.find (param_and_prefix_routes_ t) path with
  | Some rm => Lookup true hit_radix (Trie.entry rm) (Trie.captures rm)
  | None =>
      match List.find (fun rr => regex_match path (compiled_re rr)) (regex_routes_ t) with
      | Some rr => Lookup true hit_regex (rr_entry rr) []
      | None => no_result
      end
  end.

Definition lookup_v2 (method : http_method) (path : bytes) : stx route_table lookup_result := fun t =>
  let lookup_path := canonicalize_lookup_path path in
  match exact_routes_ t !! lookup_path with
  | Some e => (t, Ok (Lookup true hit_exact e []))
  | None =>
      match LruCache.find_by_view (route_lru_cache t) method lookup_path with
      | Throw e => (t, Throw e)
      | Undefined => (t, Undefined)
      | Ok (c, Some (e, caps)) => (set_cache t c, Ok (Lookup true hit_cache e caps))
      | Ok (c, None) =>
          let t := set_cache t c in
          let key := CacheKey method lookup_path in
          let result := lookup_radix_regex t lookup_path in
          if found result then
            match LruCache.insert (route_lru_cache t) key (lr_entry result, captured_params result) with
            | Ok c => (set_cache t c, Ok result)
            | Throw e => (t, Throw e)
            | Undefined => (t, Undefined)
            end
          else (t, Ok result)
      end
  end.

Definition invalidate_route_cache (t : route_table) : route_table :=
  set_cache t (LruCache.clear (route_lru_cache t)).

(** ** Registration *)

(** The entry a registration would merge into, read under the lock. *)
Definition find_v2_entry_by_path_ (t : route_table) (idx : http_endpoint) : option route_entry :=
  let key := url_complete idx in
  if negb (is_empty (url_pars idx)) then
    match Trie.find (param_and_prefix_routes_ t) key with
    | Some rm => if negb (Trie.is_prefix_match rm) then Some (Trie.entry rm) else None
    | None => None
    end
  else
    match exact_routes_ t !! key with
    | Some e => Some e
    | None =>
        if reg_compiled idx then
          rr_entry <$> List.find (fun rr => bytes_eqb (rr_url_complete rr) key) (regex_routes_ t)
        else None
    end.

Definition collision_message (key : bytes) (want_is_prefix : bool) : bytes :=
  bs "Path '" ++ key ++ bs "' is already registered as a "
  ++ (if want_is_prefix then bs "exact" else bs "prefix")
  ++ bs " route; cannot also register it as a "
  ++ (if want_is_prefix then bs "prefix" else bs "exact")
  ++ bs " route (the (method, path) cache key cannot discriminate the two)".

Definition reject_terminus_collision (t : route_table) (key : bytes) (want_is_prefix : bool)
    : outcome unit :=
  let collision :=
    if negb want_is_prefix
    then Trie.has_terminus_at (param_and_prefix_routes_ t) key true
    else bool_decide (is_Some (exact_routes_ t !! key))
         || Trie.has_terminus_at (param_and_prefix_routes_ t) key false in
  if collision then Throw (invalid_argument (collision_message key want_is_prefix)) else Ok ().

(** [param_and_prefix_routes_.insert(...)]: a throwing insertion leaves the
    nodes it created. *)
Definition trie_insert (key : bytes) (e : route_entry) (pre : bool) : stx route_table unit := fun t =>
  let '(n, o) := Trie.insert key e pre (param_and_prefix_routes_ t) in (set_trie t n, o).

Definition merge_entry (target : route_entry) (ms : method_set) (shim : nat) : route_entry :=
  RouteEntry (or_ (methods target) ms) (Some shim) false.

Definition upsert_v2_radix_route (key : bytes) (ms : method_set) (shim : nat) : stx route_table unit := fun t =>
  match reject_terminus_collision t key false with
  | Ok _ =>
      let merged := match Trie.find (param_and_prefix_routes_ t) key with
                    | Some rm => if negb (Trie.is_prefix_match rm) then Trie.entry rm else default_entry
                    | None => default_entry
                    end in
      trie_insert key (merge_entry merged ms shim) false t
  | Throw e => (t, Throw e)
  | Undefined => (t, Undefined)
  end.

Definition make_non_prefix_entry (ms : method_set) (shim : nat) : route_entry :=
  RouteEntry ms (Some shim) false.

(** [std::map::emplace] keeps an existing binding. *)
Definition emplace (m : gmap bytes route_entry) (k : bytes) (e : route_entry) : gmap bytes route_entry :=
  match m !! k with Some _ => m | None => <[k := e]> m end.

(** The radix case is [__builtin_unreachable]. *)
Definition insert_fresh_v2_entry (idx : http_endpoint) (ms : method_set) (shim : nat)
    : stx route_table unit := fun t =>
  match classify_route_tier idx with
  | Throw e => (t, Throw e)
  | Undefined => (t, Undefined)
  | Ok tier_radix => (t, Undefined)
  | Ok tier_exact =>
      match reject_terminus_collision t (url_complete idx) false with
      | Ok _ => (set_exact t (emplace (exact_routes_ t) (url_complete idx)
                   (make_non_prefix_entry ms shim)), Ok ())
      | Throw e => (t, Throw e)
      | Undefined => (t, Undefined)
      end
  | Ok (tier_regex re) =>
      (set_regex t (regex_routes_ t ++
         [RegexRoute (url_complete idx) re (make_non_prefix_entry ms shim)]), Ok ())
  end.

Fixpoint merge_first_regex (ms : method_set) (shim : nat) (l : list regex_route) : list regex_route :=
  match l with
  | [] => []
  | rr :: l =>
      if bool_decide (handler (rr_entry rr) = Some shim)
      then RegexRoute (rr_url_complete rr) (compiled_re rr) (merge_entry (rr_entry rr) ms shim) :: l
      else rr :: merge_first_regex ms shim l
  end.

Definition update_existing_v2_entry (key : bytes) (ms : method_set) (shim : nat) (t : route_table)
    : route_table :=
  match exact_routes_ t !! key with
  | Some e => set_exact t (<[key := merge_entry e ms shim]> (exact_routes_ t))
  | None => set_regex t (merge_first_regex ms shim (regex_routes_ t))
  end.

Definition upsert_v2_table_entry_locked_ (idx : http_endpoint) (ms : method_set) (shim : nat)
    (fresh : bool) : stx route_table unit := fun t =>
  let key := url_complete idx in
  if negb (is_empty (url_pars idx)) then upsert_v2_radix_route key ms shim t
  else if fresh then insert_fresh_v2_entry idx ms shim t
  else (update_existing_v2_entry key ms shim t, Ok ()).

Definition throw_duplicate_registration (key : bytes) : outcome unit :=
  Throw (invalid_argument (bs "A resource is already registered at this path: '" ++ key ++ bs "'")).

Definition reject_duplicate_v2_entry_ (t : route_table) (idx : http_endpoint) (family : bool)
    : outcome unit :=
  let key := url_complete idx in
  if family then
    if Trie.has_terminus_at (param_and_prefix_routes_ t) key true
    then throw_duplicate_registration key else Ok ()
  else
    pre_tier ← classify_route_tier idx;
    match pre_tier with
    | tier_exact =>
        if bool_decide (is_Some (exact_routes_ t !! key)) then throw_duplicate_registration key else Ok ()
    | tier_radix =>
        if Trie.has_terminus_at (param_and_prefix_routes_ t) key false
        then throw_duplicate_registration key else Ok ()
    | tier_regex _ =>
        if existsb (fun rr => bytes_eqb (rr_url_complete rr) key) (regex_routes_ t)
        then throw_duplicate_registration key else Ok ()
    end.

Definition register_v2_route (idx : http_endpoint) (res : nat) (family : bool)
    : stx route_table unit := fun t =>
  let key := url_complete idx in
  let checks := (_ ← reject_terminus_collision t key family; reject_duplicate_v2_entry_ t idx family) in
  match checks with
  | Throw e => (t, Throw e)
  | Undefined => (t, Undefined)
  | Ok _ =>
      let entry := RouteEntry set_all (Some res) family in
      if family then trie_insert key entry true t
      else
        match classify_route_tier idx with
        | Throw e => (t, Throw e)
        | Undefined => (t, Undefined)
        | Ok tier_radix => trie_insert key entry false t
        | Ok (tier_regex re) => (set_regex t (regex_routes_ t ++ [RegexRoute key re entry]), Ok ())
        | Ok tier_exact => (set_exact t (emplace (exact_routes_ t) key entry), Ok ())
        end
  end.

Definition erase_exact_and_regex_locked_ (key : bytes) (t : route_table) : route_table :=
  set_regex (set_exact t (delete key (exact_routes_ t)))
    (List.filter (fun rr => negb (bytes_eqb (rr_url_complete rr) key)) (regex_routes_ t)).

Definition remove_param_prefix_locked_ (key : bytes) (pre : bool) (t : route_table) : route_table :=
  set_trie t (fst (Trie.remove (param_and_prefix_routes_ t) key pre)).

End RouteTable.
Arguments route_table {_}.
End RouteTable.
Import RouteTable.

Section Coherence.
Context `{RegexEngine, StdHash, !StdHashOk}.
Implicit Types (t : route_table) (r : lookup_result).

(** ** Resolution without the cache *)

Definition answer r : option (route_entry * list (bytes * bytes)) :=
  if found r then Some (lr_entry r, captured_params r) else None.

(** The reference: exact routes first, then the trie, then the regex routes. *)
Definition resolve t (path : bytes) : option (route_entry * list (bytes * bytes)) :=
  match exact_routes_ t !! path with
  | Some e => Some (e, [])
  | None => answer (lookup_radix_regex t path)
  end.

Definition same_routes t t' : Prop :=
  exact_routes_ t = exact_routes_ t'
  /\ param_and_prefix_routes_ t = param_and_prefix_routes_ t'
  /\ regex_routes_ t = regex_routes_ t'.

#[export] Instance same_routes_equiv : Equivalence same_routes.
Proof.
  split; [by intros []|by intros ? ? (? & ? & ?)|].
  intros ? ? ? (? & ? & ?) (? & ? & ?). split_and!; by etrans.
Qed.

Lemma lookup_radix_regex_same t t' path :
  same_routes t t' -> lookup_radix_regex t path = lookup_radix_regex t' path.
Proof. intros (_ & E1 & E2). unfold lookup_radix_regex. by rewrite E1, E2. Qed.

#[export] Instance resolve_proper : Proper (same_routes ==> eq ==> eq) resolve.
Proof.
  intros t t' Hs ? path ->. unfold resolve. rewrite (lookup_radix_regex_same t t') by done.
  by destruct Hs as (-> & _ & _).
Qed.

Lemma set_cache_same t c : same_routes t (set_cache t c).
Proof. done. Qed.

(** Every cached value is what the trie and the regex routes give now. *)
Definition coherent t (e : cache_key * (route_entry * list (bytes * bytes))) : Prop :=
  answer (lookup_radix_regex t (ck_path (fst e))) = Some (snd e).

Definition cache_inv t : Prop :=
  LruCache.wf (route_lru_cache t) /\ Forall (coherent t) (LruCache.abs (route_lru_cache t)).

Lemma coherent_same t t' e : same_routes t t' -> coherent t e -> coherent t' e.
Proof. intros Hs. unfold coherent. by rewrite (lookup_radix_regex_same t t'). Qed.

Lemma cache_inv_set t c :
  LruCache.wf c -> Forall (coherent t) (LruCache.abs c) -> cache_inv (set_cache t c).
Proof.
  intros Hw Hc. split; [done|]. simpl. eapply Forall_impl; [exact Hc|]. intros e.
  apply coherent_same, set_cache_same.
Qed.

Lemma invalidate_inv t : LruCache.wf (route_lru_cache t) -> cache_inv (invalidate_route_cache t).
Proof.
  intros Hw. destruct (LruCache.clear_wf _ Hw) as [Hw' Ha].
  apply cache_inv_set; [done|]. rewrite Ha. constructor.
Qed.

Lemma drop_key_Forall {V} (P : cache_key * V -> Prop) k l :
  Forall P l -> Forall P (LruCache.drop_key k l).
Proof.
  rewrite !Forall_forall. intros Hl e [_ He]%list_elem_of_filter. by apply Hl.
Qed.

(** A probe of the cache: a hit is coherent, the cache stays so. *)
Lemma find_by_view_coherent t m path :
  cache_inv t ->
  exists c o, LruCache.find_by_view (route_lru_cache t) m path = Ok (c, o)
    /\ cache_inv (set_cache t c)
    /\ match o with
       | Some v => answer (lookup_radix_regex t path) = Some v
       | None => True
       end.
Proof.
  intros [Hw Hc]. rewrite LruCache.find_by_view_find by done.
  destruct (LruCache.find_refines _ (CacheKey m path) Hw) as (c & o & -> & Hw' & Ha & _).
  exists c, o. split; [done|]. unfold LruCache.lru_find in Ha.
  destruct (LruCache.lru_lookup (CacheKey m path) _) as [v|] eqn:El; injection Ha as Ha ->.
  - apply LruCache.lru_lookup_elem in El; [|by apply LruCache.abs_keys].
    assert (Hv : coherent t (CacheKey m path, v)) by (eapply Forall_forall in Hc; [exact Hc|done]).
    split; [|done]. apply cache_inv_set; [done|]. rewrite Ha. constructor; [done|by apply drop_key_Forall].
  - split; [|done]. apply cache_inv_set; [done|]. by rewrite Ha.
Qed.

Lemma insert_coherent t m path v :
  cache_inv t -> answer (lookup_radix_regex t path) = Some v ->
  exists c, LruCache.insert (route_lru_cache t) (CacheKey m path) v = Ok c /\ cache_inv (set_cache t c).
Proof.
  intros [Hw Hc] Hv. destruct (LruCache.insert_refines _ (CacheKey m path) v Hw) as (c & -> & Hw' & Ha & _).
  exists c. split; [done|]. apply cache_inv_set; [done|]. rewrite Ha. unfold LruCache.lru_insert.
  apply Forall_take. constructor; [done|by apply drop_key_Forall].
Qed.

Lemma lookup_v2_ok t m path :
  cache_inv t ->
  exists t' r, lookup_v2 m path t = (t', Ok r) /\ cache_inv t' /\ same_routes t t'
    /\ answer r = resolve t (canonicalize_lookup_path path).
Proof.
  intros Hi. unfold lookup_v2, resolve. set (p := canonicalize_lookup_path path).
  destruct (exact_routes_ t !! p) as [e|] eqn:Ee; [by exists t, (Lookup true hit_exact e [])|].
  destruct (find_by_view_coherent t m p Hi) as (c & o & -> & Hi' & Ho).
  destruct o as [[e caps]|].
  - exists (set_cache t c), (Lookup true hit_cache e caps). split_and!; done.
  - rewrite <-(lookup_radix_regex_same t) by apply set_cache_same.
    destruct (found (lookup_radix_regex t p)) eqn:Ef; [|by eexists _, _].
    edestruct (insert_coherent (set_cache t c) m p) as (c' & -> & Hi2); [done| |].
    { rewrite <-(lookup_radix_regex_same t) by apply set_cache_same. unfold answer. by rewrite Ef. }
    eexists _, _. split; [done|]. split_and!; try done.
Qed.

(** The cached lookup of a path in any form (missing leading slash, trailing
    slash, empty) terminates normally, answers exactly what the three tiers
    resolve for the canonical path, changes no route, and keeps the cache
    coherent with the routes. *)
Theorem lookup_v2_correct t m path :
  cache_inv t ->
  exists t' r, lookup_v2 m path t = (t', Ok r)
    /\ answer r = resolve t (canonicalize_lookup_path path)
    /\ same_routes t t' /\ cache_inv t'.
Proof. intros Hi. destruct (lookup_v2_ok t m path Hi) as (t' & r & ? & ? & ? & ?). eauto 10. Qed.

End Coherence.
