(* ===== verification/Registration.v ===== *)
(** * Route registration

    The registration half of [webserver.cpp] and [detail/webserver_impl.cpp]:
    [register_path]/[register_prefix], [on_*]/[route] with their shared lambda
    shims, and the [unregister_*] family.  Resources are heap objects: a route
    entry holds the identity of a resource, and two entries may share one. *)

From S2P Require Import Prelude HttpUtils HttpMethod Paths RouteCache Regex SegmentTrie HttpEndpoint RouteTable.
Import HttpUtils.HttpUtils MethodSetOps ResourceMask Endpoint RouteTable.

Module Registration.

Section Registration.
Context `{RegexEngine, StdHash} {Handler : Type}.

(** [lambda_resource]: one handler slot per method on top of the mask of
    [http_resource].  [UserResource] is any other subclass. *)
Inductive resource : Type :=
| UserResource (mask : resource_mask)
| LambdaResource (mask : resource_mask) (slots_ : list (option Handler)).

Definition new_lambda_resource : resource :=
  LambdaResource (disallow_all new_resource) (replicate (Z.to_nat (method_index count_)) None).

Definition res_mask (r : resource) : resource_mask :=
  match r with UserResource m => m | LambdaResource m _ => m end.

(** [slots_[m] = h; set_allowing(m, true)] on the lambda's fields. *)
Definition set_slot (ms : resource_mask * list (option Handler)) (m : http_method) (h : Handler)
    : outcome (resource_mask * list (option Handler)) :=
  let i := Z.to_nat (method_index m) in
  if i <? length (snd ms) then Ok (set_allowing (fst ms) m true, <[i := Some h]> (snd ms))
  else Undefined.

Definition has_slot (mask : resource_mask) (m : http_method) : bool := is_allowed mask m.

Record config : Type := Config { single_resource : bool; regex_checking : bool }.

Record server : Type := Server {
  routes_ : route_table;
  heap : gmap nat resource;
  next_id : nat;
}.

Definition with_routes (s : server) (t : route_table) : server := Server t (heap s) (next_id s).

Definition lift_table {A} (f : stx route_table A) : stx server A := fun s =>
  let '(t, o) := f (routes_ s) in (with_routes s t, o).

Definition modify_table (f : route_table -> route_table) : stx server unit := fun s =>
  (with_routes s (f (routes_ s)), Ok ()).

Definition for_each_requested_method (ms : method_set) : list http_method :=
  List.filter (contains ms) all_methods.

(** [std::make_shared<T>(...)] *)
Definition alloc (r : resource) : stx server nat := fun s =>
  (Server (routes_ s) (<[next_id s := r]> (heap s)) (S (next_id s)), Ok (next_id s)).

Definition prepare_or_create_lambda_shim (idx : http_endpoint) (ms : method_set)
    : stx server (nat * bool) := fun s =>
  match find_v2_entry_by_path_ (routes_ s) idx with
  | None => (r ← alloc new_lambda_resource; mret (r, true)) s
  | Some existing =>
      match handler existing ≫= fun id => (fun r => (id, r)) <$> heap s !! id with
      | Some (shim, LambdaResource mask _) =>
          if existsb (has_slot mask) (for_each_requested_method ms)
          then (s, Throw (invalid_argument
                 (bs "A handler is already registered for one of the requested methods on this path")))
          else (s, Ok (shim, false))
      | _ => (s, Throw (invalid_argument
               (bs "A non-lambda http_resource is already registered at this path; on_*/route cannot share a path with register_path/register_prefix")))
      end
  end.

Definition fill_slots (ms : list http_method) (h : Handler) (r : resource_mask * list (option Handler))
    : outcome (resource_mask * list (option Handler)) :=
  foldl (fun acc m => r ← acc; set_slot r m h) (Ok r) ms.

Definition commit_handlers_to_shim (shim : nat) (ms : method_set) (h : Handler) : stx server unit := fun s =>
  match heap s !! shim with
  | Some (LambdaResource mask slots) =>
      match fill_slots (for_each_requested_method ms) h (mask, slots) with
      | Ok (mask, slots) =>
          (Server (routes_ s) (<[shim := LambdaResource mask slots]> (heap s)) (next_id s), Ok ())
      | Throw e => (s, Throw e)
      | Undefined => (s, Undefined)
      end
  | _ => (s, Undefined)
  end.

(** A null pointer is [None]. *)
Definition validate_register_inputs_ (cfg : config) (resource : bytes) (res : option nat) (family : bool)
    : outcome unit :=
  if bool_decide (res = None) then
    Throw (invalid_argument (bs "The http_resource pointer cannot be null"))
  else if single_resource cfg
          && ((negb (bytes_eqb resource []) && negb (bytes_eqb resource (bs "/"))) || negb family) then
    Throw (invalid_argument (bs "The resource should be '' or '/' and be registered via register_prefix when using a single_resource server"))
  else if bool_decide (NUL ∈ resource) then
    Throw (invalid_argument (bs "Route path must not contain embedded null bytes"))
  else Ok ().

Definition register_impl_ (cfg : config) (resource : bytes) (res : option nat) (family : bool)
    : stx server unit :=
  _ ← stx_lift (validate_register_inputs_ cfg resource res family);
  idx ← stx_lift (make_endpoint resource family true (regex_checking cfg));
  _ ← lift_table (register_v2_route idx (default 0 res) family);
  modify_table invalidate_route_cache.

Definition register_path (cfg : config) (path : bytes) (res : option nat) : stx server unit :=
  register_impl_ cfg path res false.

Definition register_prefix (cfg : config) (path : bytes) (res : option nat) : stx server unit :=
  register_impl_ cfg path res true.

Definition unregister_impl_ (cfg : config) (resource : bytes) (family : bool) : stx server unit :=
  he ← stx_lift (make_endpoint resource family true (regex_checking cfg));
  let key := url_complete he in
  _ ← modify_table (fun t =>
        if family then remove_param_prefix_locked_ key true t
        else if negb (is_empty (url_pars he)) then remove_param_prefix_locked_ key false t
        else erase_exact_and_regex_locked_ key t);
  modify_table invalidate_route_cache.

Definition unregister_path (cfg : config) (path : bytes) : stx server unit :=
  unregister_impl_ cfg path false.

Definition unregister_prefix (cfg : config) (path : bytes) : stx server unit :=
  unregister_impl_ cfg path true.

Definition unregister_resource (cfg : config) (resource : bytes) : stx server unit :=
  he_exact ← stx_lift (make_endpoint resource false true (regex_checking cfg));
  let key := url_complete he_exact in
  _ ← modify_table (fun t =>
        remove_param_prefix_locked_ key true
          (remove_param_prefix_locked_ key false (erase_exact_and_regex_locked_ key t)));
  modify_table invalidate_route_cache.

(** An empty [std::function] is [None]. *)
Definition validate_on_methods_inputs_ (cfg : config) (ms : method_set) (path : bytes)
    (h : option Handler) : outcome unit :=
  if empty ms then
    Throw (invalid_argument (bs "route(method_set, ...) requires at least one method bit set"))
  else match h with
  | None => Throw (invalid_argument (bs "The handler function passed to on_*/route must be non-empty"))
  | Some _ =>
      if single_resource cfg && negb (bytes_eqb path []) && negb (bytes_eqb path (bs "/")) then
        Throw (invalid_argument (bs "When using a single_resource server, on_*/route requires the path to be '' or '/'"))
      else if bool_decide (NUL ∈ path) then
        Throw (invalid_argument (bs "Route path must not contain embedded null bytes"))
      else if (8192 <? Z.of_nat (length path))%Z then
        Throw (invalid_argument (bs "Route path exceeds maximum length of 8192 bytes"))
      else Ok ()
  end.

Definition on_methods_ (cfg : config) (ms : method_set) (path : bytes) (h : option Handler)
    : stx server unit :=
  _ ← stx_lift (validate_on_methods_inputs_ cfg ms path h);
  idx ← stx_lift (make_endpoint path false true (regex_checking cfg));
  match h with
  | None => stx_throw (std_exception (bs "bad_function_call"))
  | Some f =>
      '(shim, is_new_entry) ← prepare_or_create_lambda_shim idx ms;
      _ ← commit_handlers_to_shim shim ms f;
      _ ← lift_table (upsert_v2_table_entry_locked_ idx ms shim is_new_entry);
      modify_table invalidate_route_cache
  end.

(** [on_get] ... [on_head] *)
Definition on_method (cfg : config) (m : http_method) (path : bytes) (h : option Handler) : stx server unit :=
  on_methods_ cfg (set clear_all m) path h.

Definition on_get (cfg : config) := on_method cfg get.
Definition on_post (cfg : config) := on_method cfg post.
Definition on_put (cfg : config) := on_method cfg put.
Definition on_delete (cfg : config) := on_method cfg del.
Definition on_patch (cfg : config) := on_method cfg patch.
Definition on_options (cfg : config) := on_method cfg options.
Definition on_head (cfg : config) := on_method cfg head.

(** [route(http_method, ...)] and [route(method_set, ...)] *)
Definition route_method (cfg : config) (m : http_method) (path : bytes) (h : option Handler)
    : stx server unit :=
  if bool_decide (m = count_) then
    stx_throw (invalid_argument (bs "http_method::count_ is a sentinel and may not be registered as a route"))
  else on_methods_ cfg (set clear_all m) path h.

Definition route_methods (cfg : config) (ms : method_set) (path : bytes) (h : option Handler)
    : stx server unit := on_methods_ cfg ms path h.

Definition lookup (m : http_method) (path : bytes) : stx server lookup_result :=
  lift_table (lookup_v2 m path).

End Registration.
Arguments server {_} Handler.
Arguments resource Handler : clear implicits.
End Registration.
Import Registration.

Section CacheTransparency.
Context `{RegexEngine, StdHash, !StdHashOk} {Handler : Type}.
Implicit Types (s u : server Handler).

(** ** Operation sequences *)

Inductive server_op : Type :=
| OpNewResource (mask : resource_mask)
| OpRegister (path : bytes) (res : option nat) (family : bool)
| OpUnregister (path : bytes) (family : bool)
| OpUnregisterResource (path : bytes)
| OpOnMethods (ms : method_set) (path : bytes) (h : option Handler)
| OpLookup (m : http_method) (path : bytes).

(** What an operation reports: nothing, or the route a lookup found. *)
Abbreviation report := (option (option (route_entry * list (bytes * bytes)))).

Definition silent {A} (f : stx (server Handler) A) : stx (server Handler) report :=
  _ ← f; mret None.

Definition update_op (cfg : config) (op : server_op) : stx (server Handler) report :=
  match op with
  | OpNewResource mask => silent (alloc (UserResource mask))
  | OpRegister p res family => silent (register_impl_ cfg p res family)
  | OpUnregister p family => silent (unregister_impl_ cfg p family)
  | OpUnregisterResource p => silent (unregister_resource cfg p)
  | OpOnMethods ms p h => silent (on_methods_ cfg ms p h)
  | OpLookup _ _ => mret None
  end.

Definition server_exec (cfg : config) (op : server_op) : stx (server Handler) report :=
  match op with
  | OpLookup m p => r ← lookup m p; mret (Some (answer r))
  | _ => update_op cfg op
  end.

(** The specification: a lookup resolves the canonical path in the tables. *)
Definition spec_exec (cfg : config) (op : server_op) : stx (server Handler) report :=
  match op with
  | OpLookup m p => fun s => (s, Ok (Some (resolve (routes_ s) (canonicalize_lookup_path p))))
  | _ => update_op cfg op
  end.

Fixpoint run (exec : config -> server_op -> stx (server Handler) report) (cfg : config)
    (ops : list server_op) s : server Handler * list (outcome report) :=
  match ops with
  | [] => (s, [])
  | op :: ops =>
      let '(s, o) := exec cfg op s in
      let '(s, os) := run exec cfg ops s in (s, o :: os)
  end.

(** The constraints of registered paths compile on their own. *)
Definition op_compiles (op : server_op) : Prop :=
  match op with
  | OpRegister p _ _ | OpOnMethods _ p _ => constraints_compile (canonicalize_lookup_path p) = true
  | _ => True
  end.

(** ** Table operations ignore the cache *)

Definition cache_blind {A} (f : stx route_table A) : Prop :=
  forall t c, f (set_cache t c) = (set_cache (fst (f t)) c, snd (f t)).

Lemma trie_insert_blind key e pre : cache_blind (trie_insert key e pre).
Proof. intros t c. unfold trie_insert. simpl. by destruct (Trie.insert key e pre _). Qed.

Lemma register_v2_route_blind idx res family : cache_blind (register_v2_route idx res family).
Proof.
  intros t c. unfold register_v2_route.
  change (reject_terminus_collision (set_cache t c)) with (reject_terminus_collision t).
  change (reject_duplicate_v2_entry_ (set_cache t c)) with (reject_duplicate_v2_entry_ t).
  destruct (_ ≫= _); [|done..]. destruct family; [apply trie_insert_blind|].
  destruct (classify_route_tier idx) as [[| |re]| |]; try done. apply trie_insert_blind.
Qed.

Lemma upsert_blind idx ms shim fresh : cache_blind (upsert_v2_table_entry_locked_ idx ms shim fresh).
Proof.
  intros t c. unfold upsert_v2_table_entry_locked_, upsert_v2_radix_route, insert_fresh_v2_entry,
    update_existing_v2_entry.
  change (reject_terminus_collision (set_cache t c)) with (reject_terminus_collision t).
  destruct (negb _).
  - destruct (reject_terminus_collision t _ _); [|done..]. apply trie_insert_blind.
  - destruct fresh.
    + destruct (classify_route_tier idx) as [[| |re]| |]; try done.
      by destruct (reject_terminus_collision t _ _).
    + simpl. by destruct (exact_routes_ t !! _).
Qed.

(** A table operation that threw changed nothing. *)
Definition atomic {A} (f : stx route_table A) : Prop :=
  forall t, is_ok (snd (f t)) = false -> fst (f t) = t.

Lemma trie_insert_atomic key e pre : constraints_compile key = true -> atomic (trie_insert key e pre).
Proof.
  intros Hc t. unfold trie_insert, Trie.insert.
  pose proof (insert_at_ok (Trie.tokenize key) e pre (param_and_prefix_routes_ t) Hc) as Ho.
  destruct (Trie.insert_at _ _ _ _) as [n o]. simpl in *. by subst.
Qed.

Lemma register_v2_route_atomic idx res family :
  constraints_compile (url_complete idx) = true -> atomic (register_v2_route idx res family).
Proof.
  intros Hc t. unfold register_v2_route. destruct (_ ≫= _); [|done..].
  destruct family; [by apply trie_insert_atomic|].
  destruct (classify_route_tier idx) as [[| |re]| |]; try done. by apply trie_insert_atomic.
Qed.

Lemma upsert_atomic idx ms shim fresh :
  constraints_compile (url_complete idx) = true ->
  atomic (upsert_v2_table_entry_locked_ idx ms shim fresh).
Proof.
  intros Hc t. unfold upsert_v2_table_entry_locked_, upsert_v2_radix_route, insert_fresh_v2_entry.
  destruct (negb _).
  - destruct (reject_terminus_collision t _ _); [|done..]. by apply trie_insert_atomic.
  - destruct fresh; [|done]. destruct (classify_route_tier idx) as [[| |re]| |]; try done.
    by destruct (reject_terminus_collision t _ _).
Qed.

(** ** The simulation *)

(** Same routes, same heap, and a coherent cache on the implementation side. *)
Definition sim s u : Prop :=
  (exists c, routes_ s = set_cache (routes_ u) c) /\ heap s = heap u /\ next_id s = next_id u
  /\ cache_inv (routes_ s).

Definition simulates {A} (f : stx (server Handler) A) : Prop :=
  forall s u, sim s u -> snd (f s) = snd (f u) /\ sim (fst (f s)) (fst (f u)).

Lemma simulates_bind {A B} (f : stx (server Handler) A) (g : A -> stx (server Handler) B) :
  simulates f -> (forall a, simulates (g a)) -> simulates (f ≫= g).
Proof.
  intros Hf Hg s u Hs. destruct (Hf s u Hs) as [Ho Hs'].
  unfold mbind, stx_bind. destruct (f s) as [s' o], (f u) as [u' o']. simpl in *. subst o'.
  destruct o as [a|e|]; [by apply Hg|done..].
Qed.

Lemma simulates_ret {A} (a : A) : simulates (mret a).
Proof. by intros s u Hs. Qed.

Lemma simulates_lift {A} (o : outcome A) : simulates (stx_lift o).
Proof. by intros s u Hs. Qed.

Lemma simulates_alloc r : simulates (alloc r).
Proof.
  intros s u ((c & Hr) & Hh & Hn & Hi). unfold alloc. simpl. rewrite Hh, Hn. split; [done|].
  split_and!; simpl; eauto.
Qed.

Lemma cache_inv_wf t t' :
  route_lru_cache t' = route_lru_cache t -> cache_inv t -> cache_inv (invalidate_route_cache t').
Proof. intros E [Hw _]. apply invalidate_inv. by rewrite E. Qed.

(** A table update followed by the invalidation of the cache. *)
Lemma simulates_update {A} (f : stx route_table A) :
  cache_blind f -> atomic f ->
  simulates (_ ← lift_table f; modify_table invalidate_route_cache : stx (server Handler) unit).
Proof.
  intros Hb Ha s u ((c & Hr) & Hh & Hn & Hi).
  unfold mbind, stx_bind, lift_table. rewrite Hr, Hb. pose proof (Ha (routes_ u)) as Hau.
  pose proof (Ha (routes_ s)) as Has. rewrite Hr, Hb in Has.
  destruct (f (routes_ u)) as [t o] eqn:Ef. simpl in *. destruct o as [a|e|]; simpl.
  - split; [done|]. split_and!; simpl; [by eexists|done..|].
    eapply cache_inv_wf; [|exact Hi]. by rewrite Hr.
  - specialize (Hau eq_refl). specialize (Has eq_refl). subst t. split; [done|].
    split_and!; simpl; [by eexists|done..|]. by rewrite <-Hr.
  - specialize (Hau eq_refl). specialize (Has eq_refl). subst t. split; [done|].
    split_and!; simpl; [by eexists|done..|]. by rewrite <-Hr.
Qed.

Lemma simulates_modify (f : route_table -> route_table) :
  (forall t c, f (set_cache t c) = set_cache (f t) c) ->
  simulates (_ ← modify_table f; modify_table invalidate_route_cache : stx (server Handler) unit).
Proof.
  intros Hf. apply (simulates_update (fun t => (f t, Ok ()))).
  - intros t c. simpl. by rewrite Hf.
  - done.
Qed.

Lemma simulates_bind_lift {A B} (o : outcome A) (g : A -> stx (server Handler) B) :
  (forall a, o = Ok a -> simulates (g a)) -> simulates (stx_lift o ≫= g).
Proof.
  intros Hg s u Hs. unfold mbind, stx_bind, stx_lift. destruct o as [a|e|]; [by apply Hg|done..].
Qed.

Lemma simulates_register cfg p res family :
  constraints_compile (canonicalize_lookup_path p) = true ->
  simulates (register_impl_ cfg p res family).
Proof.
  intros Hc. unfold register_impl_. apply simulates_bind; [apply simulates_lift|]. intros _.
  apply simulates_bind_lift. intros idx Hk%make_endpoint_key.
  apply simulates_update; [apply register_v2_route_blind|].
  apply register_v2_route_atomic. by rewrite Hk.
Qed.

Lemma simulates_unregister cfg p family : simulates (unregister_impl_ cfg p family).
Proof.
  apply simulates_bind_lift. intros idx _. apply simulates_modify. intros t c.
  destruct family; [done|]. by destruct (negb _).
Qed.

Lemma simulates_unregister_resource cfg p : simulates (unregister_resource cfg p).
Proof. apply simulates_bind_lift. intros idx _. by apply simulates_modify. Qed.

Lemma simulates_prepare idx ms : simulates (prepare_or_create_lambda_shim idx ms).
Proof.
  intros s u Hs. pose proof Hs as ((c & Hr) & Hh & Hn & Hi). unfold prepare_or_create_lambda_shim.
  rewrite Hr, Hh. change (find_v2_entry_by_path_ (set_cache (routes_ u) c) idx)
    with (find_v2_entry_by_path_ (routes_ u) idx).
  destruct (find_v2_entry_by_path_ (routes_ u) idx) as [e|].
  - destruct (handler e ≫= _) as [[id [|mask slots]]|]; [done| |done]. by destruct (existsb _ _).
  - apply simulates_bind; [apply simulates_alloc|intros; apply simulates_ret|done].
Qed.

Lemma simulates_commit shim ms h : simulates (commit_handlers_to_shim shim ms h).
Proof.
  intros s u Hs. pose proof Hs as ((c & Hr) & Hh & Hn & Hi). unfold commit_handlers_to_shim.
  rewrite Hh. destruct (heap u !! shim) as [[|mask slots]|]; [done| |done].
  destruct (fill_slots _ _ _) as [[mask' slots']| |]; [|done..]. split; [done|].
  split_and!; simpl; [by eexists|by rewrite ?Hh|done|done].
Qed.

Lemma simulates_on_methods cfg ms p h :
  constraints_compile (canonicalize_lookup_path p) = true -> simulates (on_methods_ cfg ms p h).
Proof.
  intros Hc. unfold on_methods_. apply simulates_bind; [apply simulates_lift|]. intros _.
  apply simulates_bind_lift. intros idx Hk%make_endpoint_key. destruct h as [f|]; [|apply simulates_lift].
  apply simulates_bind; [apply simulates_prepare|]. intros [shim fresh].
  apply simulates_bind; [apply simulates_commit|]. intros _.
  apply simulates_update; [apply upsert_blind|]. apply upsert_atomic. by rewrite Hk.
Qed.

Lemma simulates_update_op cfg op : op_compiles op -> simulates (update_op cfg op).
Proof.
  intros Hc. destruct op; simpl; try (apply simulates_bind; [|intros; apply simulates_ret]);
    [apply simulates_alloc|by apply simulates_register|apply simulates_unregister
    |apply simulates_unregister_resource|by apply simulates_on_methods|apply simulates_ret].
Qed.

(** One step: the cached server and the specification report the same. *)
Lemma server_exec_sim cfg op s u :
  op_compiles op -> sim s u ->
  snd (server_exec cfg op s) = snd (spec_exec cfg op u)
  /\ sim (fst (server_exec cfg op s)) (fst (spec_exec cfg op u)).
Proof.
  intros Hc Hs. pose proof (simulates_update_op cfg op Hc s u Hs) as Hu.
  destruct op as [| | | | |m p]; [exact Hu..|]. clear Hu.
  - destruct Hs as ((c & Hr) & Hh & Hn & Hi). simpl.
    destruct (lookup_v2_ok (routes_ s) m p Hi) as (t' & r & Hl & Hi' & Hsame & Ha).
    unfold mbind, stx_bind, lookup, lift_table. rewrite Hl. simpl. rewrite Ha.
    rewrite Hr. split; [done|]. split_and!; simpl; try done.
    exists (route_lru_cache t'). destruct t', (routes_ u); destruct Hsame as (? & ? & ?);
      rewrite Hr in *; simpl in *; by subst.
Qed.

(** A server with no routes and a fresh cache. *)
Definition new_server : outcome (server Handler) :=
  c ← LruCache.new_cache ROUTE_CACHE_MAX_SIZE; Ok (Server (Table ∅ Trie.empty_node [] c) ∅ 0).

Lemma run_sim cfg ops s u :
  Forall op_compiles ops -> sim s u -> snd (run server_exec cfg ops s) = snd (run spec_exec cfg ops u).
Proof.
  intros Hf. revert s u. induction Hf as [|op ops Hc Hf IH]; intros s u Hs; [done|]. simpl.
  destruct (server_exec_sim cfg op s u Hc Hs) as [Ho Hs'].
  destruct (server_exec cfg op s) as [s1 o], (spec_exec cfg op u) as [u1 o']. simpl in *. subst o'.
  specialize (IH s1 u1 Hs'). destruct (run server_exec cfg ops s1), (run spec_exec cfg ops u1).
  simpl in *. by rewrite IH.
Qed.

Lemma new_server_sim s : new_server = Ok s -> sim s s.
Proof.
  unfold new_server. destruct (LruCache.new_cache _) as [c| |] eqn:E; [|done..]. intros [= <-].
  apply LruCache.new_cache_wf in E as (Hw & Ha & _).
  split_and!; [by exists c|done..|]. split; [done|]. simpl. by rewrite Ha.
Qed.

(** C1: The route cache is unobservable when the parameter constraints of all
    registered paths compile: over any such sequence of registrations, removals
    and lookups on a new server, successful or not, every lookup reports what
    resolving the path in the route tables at that moment gives, and every other
    operation returns or throws as without a cache.  (A registration that throws
    on a constraint leaves the cache alone although it changed the trie:
    [cached_answer_outlives_failure].) *)
Theorem route_cache_transparent cfg ops s :
  Forall op_compiles ops -> new_server = Ok s ->
  snd (run server_exec cfg ops s) = snd (run spec_exec cfg ops s).
Proof. intros Hf Hn. by apply run_sim, new_server_sim. Qed.

End CacheTransparency.
Arguments server_op Handler : clear implicits.

Section Safety.
Context `{RegexEngine, StdHash, !StdHashOk} {Handler : Type}.
Implicit Types (s : server Handler) (e : route_entry).

(** ** No dangling handlers, no empty slots *)

(** A lambda resource allows exactly the methods whose slot holds a handler. *)
Definition slots_ok (mask : resource_mask) (slots : list (option Handler)) : Prop :=
  length slots = Z.to_nat (method_index count_)
  /\ forall m, m <> count_ ->
       is_allowed mask m = true <-> exists h, slots !! Z.to_nat (method_index m) = Some (Some h).

Definition live s e : Prop := exists id, handler e = Some id /\ is_Some (heap s !! id).

(** Every route entry of a table, the cached ones included, satisfies [P]. *)
Record all_entries (P : route_entry -> Prop) (t : route_table) : Prop := {
  ae_exact : forall k e, exact_routes_ t !! k = Some e -> P e;
  ae_trie : forall pat pre e, terminus_at (param_and_prefix_routes_ t) pat pre = Some e -> P e;
  ae_trie_ok : trie_ok (param_and_prefix_routes_ t);
  ae_regex : Forall (fun rr => P (rr_entry rr)) (regex_routes_ t);
  ae_cache_wf : LruCache.wf (route_lru_cache t);
  ae_cache : Forall (fun kv => P (fst (snd kv))) (LruCache.abs (route_lru_cache t));
}.

Record server_ok s : Prop := {
  so_entries : all_entries (live s) (routes_ s);
  so_slots : forall id mask slots, heap s !! id = Some (LambdaResource mask slots) -> slots_ok mask slots;
  so_fresh : forall id, is_Some (heap s !! id) <-> id < next_id s;
}.

Lemma all_entries_impl (P Q : route_entry -> Prop) t :
  (forall e, P e -> Q e) -> all_entries P t -> all_entries Q t.
Proof.
  intros HPQ [A1 A2 A3 A4 A5 A6].
  constructor; try done; [by eauto|by eauto|by eapply Forall_impl; eauto..].
Qed.

(** *** The table operations keep entries live *)

Section Entries.
Variable P : route_entry -> Prop.

Definition keeps {A} (f : stx route_table A) : Prop :=
  forall t, all_entries P t -> all_entries P (fst (f t)).

Lemma trie_insert_keeps key e pre : P e -> keeps (trie_insert key e pre).
Proof.
  intros He t [A1 A2 A3 A4 A5 A6]. unfold trie_insert, Trie.insert.
  pose proof (insert_at_terminus (Trie.tokenize key) e pre (param_and_prefix_routes_ t)) as Ht.
  pose proof (insert_at_trie_ok (Trie.tokenize key) e pre _ A3) as Hok.
  destruct (Trie.insert_at _ _ _ _) as [n o]. simpl in *. constructor; try done.
  intros pat pre' e'. rewrite Ht. case_match; [by intros [= <-]|by apply A2].
Qed.

Lemma set_exact_keeps t m :
  all_entries P t -> (forall k e, m !! k = Some e -> P e) -> all_entries P (set_exact t m).
Proof. intros [A1 A2 A3 A4 A5 A6] Hm. by constructor. Qed.

Lemma set_regex_keeps t l :
  all_entries P t -> Forall (fun rr => P (rr_entry rr)) l -> all_entries P (set_regex t l).
Proof. intros [A1 A2 A3 A4 A5 A6] Hm. by constructor. Qed.

Lemma emplace_keeps t k e :
  all_entries P t -> P e -> all_entries P (set_exact t (emplace (exact_routes_ t) k e)).
Proof.
  intros Ht He. apply set_exact_keeps; [done|]. intros k' e'. unfold emplace.
  destruct (exact_routes_ t !! k) eqn:E; [by apply (ae_exact _ _ Ht)|].
  intros [[-> ->]|[_ ?]]%lookup_insert_Some; [done|by eapply (ae_exact _ _ Ht)].
Qed.

Lemma regex_push_keeps t rr :
  all_entries P t -> P (rr_entry rr) -> all_entries P (set_regex t (regex_routes_ t ++ [rr])).
Proof.
  intros Ht He. apply set_regex_keeps; [done|]. apply Forall_app. split; [apply Ht|by repeat constructor].
Qed.

Lemma register_v2_route_keeps idx res family :
  P (RouteEntry set_all (Some res) family) -> keeps (register_v2_route idx res family).
Proof.
  intros He t Ht. unfold register_v2_route. destruct (_ ≫= _); [|done..].
  destruct family; [by apply trie_insert_keeps|].
  destruct (classify_route_tier idx) as [[| |re]| |]; try done;
    [by apply emplace_keeps|by apply trie_insert_keeps|apply regex_push_keeps; simpl; auto].
Qed.

Lemma upsert_keeps idx ms shim fresh :
  (forall ms, P (RouteEntry ms (Some shim) false)) ->
  keeps (upsert_v2_table_entry_locked_ idx ms shim fresh).
Proof.
  intros He t Ht. unfold upsert_v2_table_entry_locked_, upsert_v2_radix_route, insert_fresh_v2_entry,
    update_existing_v2_entry. destruct (negb _).
  - destruct (reject_terminus_collision t _ _); [|done..]. apply trie_insert_keeps; [apply He|done].
  - destruct fresh.
    + destruct (classify_route_tier idx) as [[| |re]| |]; try done;
        [|apply regex_push_keeps; [done|apply He]].
      destruct (reject_terminus_collision t _ _); [|done..]. apply emplace_keeps; [done|apply He].
    + simpl. destruct (exact_routes_ t !! url_complete idx) eqn:E.
      * apply set_exact_keeps; [done|]. intros k' e'.
        intros [[<- <-]|[_ ?]]%lookup_insert_Some; [apply He|by eapply (ae_exact _ _ Ht)].
      * apply set_regex_keeps; [done|]. pose proof (ae_regex _ _ Ht) as Hr. clear E. 
        induction Hr as [|rr l Hrr Hr IH]; simpl; [constructor|].
        case_bool_decide; constructor; simpl; try done. apply He.
Qed.

Lemma erase_keeps t key : all_entries P t -> all_entries P (erase_exact_and_regex_locked_ key t).
Proof.
  intros Ht. apply set_regex_keeps; [apply set_exact_keeps; [done|]|].
  - intros k e [_ ?]%lookup_delete_Some. by eapply (ae_exact _ _ Ht).
  - pose proof (ae_regex _ _ Ht) as Hr. rewrite Forall_forall in Hr |- *. intros rr Hin.
    apply list_elem_of_In, filter_In in Hin as [Hin _]. apply Hr. by apply list_elem_of_In.
Qed.

Lemma remove_keeps t key pre : all_entries P t -> all_entries P (remove_param_prefix_locked_ key pre t).
Proof.
  intros [A1 A2 A3 A4 A5 A6]. unfold remove_param_prefix_locked_, Trie.remove.
  pose proof (remove_at_effect (Trie.tokenize key) pre _ A3) as Hr.
  destruct (Trie.remove_at _ _ _) as [n|]; simpl; [|by constructor].
  destruct Hr as (_ & Hn & Ht). constructor; simpl; try done.
  - intros pat pre' e. rewrite Ht. case_match; [done|by apply A2].
  - intros pat ?%Hn. by apply A3.
Qed.

Lemma invalidate_keeps t : all_entries P t -> all_entries P (invalidate_route_cache t).
Proof.
  intros [A1 A2 A3 A4 A5 A6]. destruct (LruCache.clear_wf _ A5) as [Hw Ha].
  by constructor.
Qed.

Lemma lookup_radix_regex_entry t path :
  all_entries P t -> found (lookup_radix_regex t path) = true -> P (lr_entry (lookup_radix_regex t path)).
Proof.
  intros Ht. unfold lookup_radix_regex. destruct (Trie.find _ path) as [r|] eqn:E.
  - intros _. apply find_terminus in E as (pat & i & Hp & _). by eapply (ae_trie _ _ Ht).
  - destruct (List.find _ _) as [rr|] eqn:Ef; [|done]. intros _. apply find_some in Ef as [Hin _].
    pose proof (ae_regex _ _ Ht) as Hr. rewrite Forall_forall in Hr. apply Hr. by apply list_elem_of_In.
Qed.

Lemma set_cache_keeps t c :
  all_entries P t -> LruCache.wf c -> Forall (fun kv => P (fst (snd kv))) (LruCache.abs c) ->
  all_entries P (set_cache t c).
Proof. intros [A1 A2 A3 A4 A5 A6] ? ?. by constructor. Qed.

(** A lookup never fails and finds only entries of the table. *)
Lemma lookup_v2_entry t m path :
  all_entries P t ->
  exists t' r, lookup_v2 m path t = (t', Ok r) /\ all_entries P t'
    /\ (found r = true -> P (lr_entry r)).
Proof.
  intros Ht. unfold lookup_v2. set (p := canonicalize_lookup_path path).
  destruct (exact_routes_ t !! p) as [e|] eqn:Ee.
  { exists t, (Lookup true hit_exact e []). split_and!; [done..|]. intros _. by eapply (ae_exact _ _ Ht). }
  rewrite LruCache.find_by_view_find by apply Ht.
  destruct (LruCache.find_refines _ (CacheKey m p) (ae_cache_wf _ _ Ht)) as (c & o & -> & Hw & Ha & _).
  unfold LruCache.lru_find in Ha. pose proof (ae_cache _ _ Ht) as Hc.
  destruct (LruCache.lru_lookup (CacheKey m p) _) as [[e caps]|] eqn:El; injection Ha as Ha ->.
  - apply LruCache.lru_lookup_elem in El; [|by apply LruCache.abs_keys, Ht].
    assert (He : P e) by (rewrite Forall_forall in Hc; exact (Hc _ El)).
    eexists _, _. split; [done|]. split; [|done]. apply set_cache_keeps; [done..|].
    rewrite Ha. constructor; [done|by apply drop_key_Forall].
  - assert (Ht1 : all_entries P (set_cache t c)) by (apply set_cache_keeps; [done..|]; by rewrite Ha).
    destruct (found (lookup_radix_regex (set_cache t c) p)) eqn:Ef;
      [|eexists _, _; split; [done|]; split; [done|]; by rewrite Ef].
    pose proof (lookup_radix_regex_entry _ p Ht1 Ef) as He.
    destruct (LruCache.insert_refines (route_lru_cache (set_cache t c)) (CacheKey m p)
      (lr_entry (lookup_radix_regex (set_cache t c) p),
       captured_params (lookup_radix_regex (set_cache t c) p)) Hw) as (c' & -> & Hw' & Ha' & _).
    eexists _, _. split; [done|]. split; [|done]. apply set_cache_keeps; [done..|].
    rewrite Ha'. unfold LruCache.lru_insert. apply Forall_take. constructor; [done|].
    apply drop_key_Forall. simpl. by rewrite Ha.
Qed.

End Entries.

(** *** A program logic for the operations *)

(** From a well-formed server that satisfies [P], [f] returns with [Q] or
    throws, without undefined behaviour, and leaves a well-formed server either
    way. *)
Definition triple {A} (P : server Handler -> Prop) (f : stx (server Handler) A)
    (Q : A -> server Handler -> Prop) : Prop :=
  forall s, server_ok s -> P s ->
    server_ok (fst (f s))
    /\ match snd (f s) with Ok a => Q a (fst (f s)) | Throw _ => True | Undefined => False end.

Lemma triple_bind {A B} P (f : stx (server Handler) A) Q (g : A -> stx (server Handler) B) R :
  triple P f Q -> (forall a, triple (Q a) (g a) R) -> triple P (f ≫= g) R.
Proof.
  intros Hf Hg s Hs HP. destruct (Hf s Hs HP) as [Hs' Hq]. unfold mbind, stx_bind.
  destruct (f s) as [s' o]. simpl in *. destruct o as [a|e|]; [by apply Hg|done..].
Qed.

Lemma triple_lift {A} P (o : outcome A) :
  o <> Undefined -> triple P (stx_lift o) (fun a s => P s /\ o = Ok a).
Proof. intros Ho s Hs HP. by destruct o. Qed.

Lemma triple_ret {A} (a : A) P : triple P (mret a) (fun _ => P).
Proof. by intros s Hs HP. Qed.

Lemma triple_weaken {A} (P P' : server Handler -> Prop) (f : stx (server Handler) A)
    (Q Q' : A -> server Handler -> Prop) :
  triple P f Q -> (forall s, P' s -> P s) -> (forall a s, Q a s -> Q' a s) -> triple P' f Q'.
Proof.
  intros Hf HP HQ s Hs HP'. destruct (Hf s Hs (HP s HP')) as [? Hq]. split; [done|].
  destruct (snd (f s)); [by apply HQ|done..].
Qed.

Definition top (_ : server Handler) : Prop := True.

Lemma live_mono s s' e :
  (forall id, is_Some (heap s !! id) -> is_Some (heap s' !! id)) -> live s e -> live s' e.
Proof. intros Hh (id & Hid & Hl). exists id. eauto. Qed.

(** Updating the table keeps the heap. *)
Lemma triple_table {A} (f : stx route_table A) (P : server Handler -> Prop) :
  (forall s, server_ok s -> P s -> keeps (live s) f) ->
  (forall t, snd (f t) <> Undefined) ->
  triple P (lift_table f) (fun _ => top).
Proof.
  intros Hk Hu s Hs HP. pose proof (Hk s Hs HP (routes_ s) (so_entries _ Hs)) as Ht.
  specialize (Hu (routes_ s)). unfold lift_table. destruct (f (routes_ s)) as [t o]. simpl in *.
  split; [|by destruct o]. destruct Hs as [S1 S2 S3]. by constructor.
Qed.

Lemma triple_modify (f : route_table -> route_table) :
  (forall P t, all_entries P t -> all_entries P (f t)) ->
  triple top (modify_table f) (fun _ => top).
Proof.
  intros Hk. apply (triple_table (fun t => (f t, Ok ()))); [|done]. intros s Hs _ t Ht. by apply Hk.
Qed.

Lemma triple_invalidate P : triple P (modify_table invalidate_route_cache) (fun _ => top).
Proof.
  eapply triple_weaken; [apply triple_modify; intros; by apply invalidate_keeps|done|done].
Qed.

(** *** The heap *)

Definition is_lambda (id : nat) s : Prop :=
  exists mask slots, heap s !! id = Some (LambdaResource mask slots).

Lemma heap_update_ok s id r :
  server_ok s -> id <= next_id s ->
  (forall mask slots, r = LambdaResource mask slots -> slots_ok mask slots) ->
  server_ok (Server (routes_ s) (<[id := r]> (heap s)) (Nat.max (S id) (next_id s))).
Proof.
  intros [S1 S2 S3] Hid Hr. constructor; simpl.
  - eapply all_entries_impl; [|exact S1]. intros e. apply live_mono. simpl. intros id' Hs.
    destruct (decide (id = id')) as [->|]; [rewrite lookup_insert_eq; eauto|by rewrite lookup_insert_ne].
  - intros id' mask slots. intros [[-> ->]|[_ ?]]%lookup_insert_Some; [by apply Hr|by eapply S2].
  - intros id'. destruct (decide (id = id')) as [->|Hne].
    + rewrite lookup_insert_eq. split; [lia|eauto].
    + rewrite lookup_insert_ne, S3 by done. lia.
Qed.

Lemma new_lambda_ok mask (slots : list (option Handler)) :
  new_lambda_resource = LambdaResource mask slots -> slots_ok mask slots.
Proof.
  intros [= <- <-]. split; [done|]. intros m Hm. split; [by destruct m|].
  intros [h Hh]. by destruct m.
Qed.

Lemma triple_alloc P r :
  (forall mask slots, r = LambdaResource mask slots -> slots_ok mask slots) ->
  triple P (alloc r) (fun id s => heap s !! id = Some r).
Proof.
  intros Hr s Hs _. unfold alloc. simpl. split; [|by rewrite lookup_insert_eq].
  pose proof (heap_update_ok s (next_id s) r Hs (le_n _) Hr) as Ho.
  by rewrite Nat.max_l in Ho by lia.
Qed.

Lemma triple_prepare idx ms :
  triple top (prepare_or_create_lambda_shim idx ms) (fun r => is_lambda (fst r)).
Proof.
  intros s Hs _. unfold prepare_or_create_lambda_shim.
  destruct (find_v2_entry_by_path_ (routes_ s) idx) as [e|].
  - destruct (handler e ≫= _) as [[id [|mask slots]]|] eqn:E; try done.
    destruct (existsb _ _); [done|]. split; [done|]. simpl.
    apply bind_Some in E as (id' & _ & (r & Hr & Er)%fmap_Some). simplify_eq. by eexists _, _.
  - eapply (triple_bind (fun _ => True) (alloc _) _ _ (fun r => is_lambda (fst r))); [|intros id|done|done].
    + apply triple_alloc, new_lambda_ok.
    + intros s' Hs' Hid. split; [done|]. by eexists _, _.
Qed.

Lemma fill_slots_ok ms h mask slots :
  slots_ok mask slots -> Forall (fun m => m <> count_) ms ->
  exists mask' slots', fill_slots ms h (mask, slots) = Ok (mask', slots') /\ slots_ok mask' slots'.
Proof.
  intros Hs Hms. unfold fill_slots. revert mask slots Hs.
  induction Hms as [|m ms Hm Hms IH]; intros mask slots Hs; [by eexists _, _|].
  cbn [foldl mbind outcome_bind]. unfold set_slot at 2. cbn [fst snd]. destruct Hs as [Hl Hs].
  rewrite Hl. rewrite (proj2 (Nat.ltb_lt _ _)) by (destruct m; simpl; lia || done).
  apply IH. split; [by rewrite length_insert|]. intros m' Hm'.
  unfold is_allowed, set_allowing. rewrite decide_False by done. cbn [methods_allowed_].
  rewrite contains_set, orb_true_iff, bool_decide_eq_true.
  destruct (decide (m = m')) as [->|Hne].
  - rewrite list_lookup_insert_eq by (rewrite Hl; destruct m'; simpl; lia || done).
    split; [by eauto|by right].
  - rewrite list_lookup_insert_ne.
    + rewrite <-(Hs m' Hm'). unfold is_allowed. tauto.
    + intros Hi. apply Hne, method_index_inj. pose proof (method_index_range m).
      pose proof (method_index_range m'). lia.
Qed.

Lemma triple_commit shim ms h :
  triple (is_lambda shim) (commit_handlers_to_shim shim ms h) (fun _ => is_lambda shim).
Proof.
  intros s Hs (mask & slots & Hh). unfold commit_handlers_to_shim. rewrite Hh.
  destruct (fill_slots_ok (for_each_requested_method ms) h mask slots) as (mask' & slots' & -> & Hok).
  - by eapply so_slots.
  - apply Forall_forall. intros m Hm. apply list_elem_of_In, filter_In in Hm as [Hm _].
    by apply all_methods_complete, list_elem_of_In.
  - assert (Hlt : shim < next_id s) by (apply (so_fresh _ Hs); eauto).
    split; simpl; [|exists mask', slots'; simpl; by rewrite lookup_insert_eq].
    pose proof (heap_update_ok s shim (LambdaResource mask' slots') Hs ltac:(lia)) as Ho.
    rewrite Nat.max_r in Ho by lia. apply Ho. by intros ? ? [= <- <-].
Qed.

(** *** Operations without undefined behaviour *)

Lemma classify_defined idx : classify_route_tier idx <> Undefined.
Proof. unfold classify_route_tier. repeat case_match; done. Qed.

Lemma reject_collision_defined t key pre : reject_terminus_collision t key pre <> Undefined.
Proof. unfold reject_terminus_collision. by case_match. Qed.

Lemma descend_defined (n : Trie.trie_node route_entry) seg : snd (descend n seg) <> Undefined.
Proof.
  unfold descend. destruct (subtrie _ _); [done|]. destruct (Trie.is_wildcard_segment seg); [|done].
  unfold Trie.new_wildcard. destruct (Trie.parse_wildcard seg). repeat case_match; done.
Qed.

Lemma trie_insert_defined key e pre t : snd (trie_insert key e pre t) <> Undefined.
Proof.
  unfold trie_insert, Trie.insert. generalize (Trie.tokenize key) as segs.
  intros segs. generalize (param_and_prefix_routes_ t) as n.
  assert (Hd : forall n, snd (Trie.insert_at segs e pre n) <> Undefined).
  { induction segs as [|seg segs IH]; intros n; [done|]. rewrite insert_at_cons.
    pose proof (descend_defined n seg). destruct (descend n seg) as [c o].
    specialize (IH c). destruct (Trie.insert_at segs e pre c). by destruct o. }
  intros n. specialize (Hd n). by destruct (Trie.insert_at segs e pre n).
Qed.

Lemma register_v2_route_defined idx res family t : snd (register_v2_route idx res family t) <> Undefined.
Proof.
  unfold register_v2_route, reject_duplicate_v2_entry_, throw_duplicate_registration.
  pose proof (reject_collision_defined t (url_complete idx) family).
  pose proof (classify_defined idx).
  destruct (reject_terminus_collision t _ _); [|done..]. cbn [mbind outcome_bind].
  destruct family.
  - destruct (Trie.has_terminus_at _ _ _); [done|apply trie_insert_defined].
  - destruct (classify_route_tier idx) as [[| |re]| |]; cbn [mbind outcome_bind]; try done;
      [by destruct (bool_decide _)| |by destruct (existsb _ _)].
    destruct (Trie.has_terminus_at _ _ _); [done|apply trie_insert_defined].
Qed.

(** [__builtin_unreachable] in [insert_fresh_v2_entry] is not reached. *)
Lemma upsert_defined idx ms shim fresh t :
  snd (upsert_v2_table_entry_locked_ idx ms shim fresh t) <> Undefined.
Proof.
  unfold upsert_v2_table_entry_locked_, upsert_v2_radix_route, insert_fresh_v2_entry, classify_route_tier.
  pose proof (reject_collision_defined t (url_complete idx) false).
  destruct (is_empty (url_pars idx)) eqn:E; simpl.
  - destruct fresh; [|done]. repeat case_match; simplify_eq; done.
  - destruct (reject_terminus_collision t _ _); [apply trie_insert_defined|done..].
Qed.

Lemma make_endpoint_defined url family use_regex :
  url <> [] -> make_endpoint url family true use_regex <> Undefined.
Proof.
  intros Hne. pose proof (make_endpoint_parts url family use_regex Hne) as Hp. intros E.
  by rewrite E in Hp.
Qed.

(** The arguments a program may pass: non-empty paths, live resources. *)
Definition op_args_ok (op : server_op Handler) s : Prop :=
  match op with
  | OpRegister p res _ => p <> [] /\ forall id, res = Some id -> is_Some (heap s !! id)
  | OpUnregister p _ | OpUnregisterResource p | OpOnMethods _ p _ => p <> []
  | _ => True
  end.

Lemma validate_register_some cfg p res family :
  validate_register_inputs_ cfg p res family = Ok () -> exists id, res = Some id.
Proof. unfold validate_register_inputs_. destruct res; [eauto|done]. Qed.

Lemma triple_register cfg p res family :
  triple (op_args_ok (OpRegister p res family)) (register_impl_ cfg p res family) (fun _ => top).
Proof.
  unfold register_impl_. eapply triple_bind.
  { apply triple_lift. unfold validate_register_inputs_. repeat case_match; done. }
  intros [] s Hs [[Hp Hres] Hv]. apply validate_register_some in Hv as [id ->].
  assert (Hl : is_Some (heap s !! id)) by eauto.
  clear Hres. revert s Hs Hl. change (triple (fun s => is_Some (heap s !! id))
    (idx ← stx_lift (make_endpoint p family true (regex_checking cfg));
     _ ← lift_table (register_v2_route idx (default 0 (Some id)) family);
     modify_table invalidate_route_cache) (fun _ => top)).
  eapply triple_bind; [by apply triple_lift, make_endpoint_defined|]. intros idx.
  eapply triple_bind; [|intros; apply triple_invalidate].
  apply triple_table; [|apply register_v2_route_defined].
  intros s Hs [Hl _]. apply register_v2_route_keeps. by exists id.
Qed.

Lemma triple_modify_invalidate (f : route_table -> route_table) P :
  (forall P t, all_entries P t -> all_entries P (f t)) ->
  triple P (_ ← modify_table f; modify_table invalidate_route_cache) (fun _ => top).
Proof.
  intros Hf. eapply triple_bind; [|intros; apply triple_invalidate].
  eapply triple_weaken; [by apply triple_modify|done|done].
Qed.

Lemma triple_unregister cfg p family : p <> [] -> triple top (unregister_impl_ cfg p family) (fun _ => top).
Proof.
  intros Hp. eapply triple_bind; [by apply triple_lift, make_endpoint_defined|]. intros he.
  apply triple_modify_invalidate. intros P t Ht. destruct family; [by apply remove_keeps|].
  destruct (negb _); [by apply remove_keeps|by apply erase_keeps].
Qed.

Lemma triple_unregister_resource cfg p : p <> [] -> triple top (unregister_resource cfg p) (fun _ => top).
Proof.
  intros Hp. eapply triple_bind; [by apply triple_lift, make_endpoint_defined|]. intros he.
  apply triple_modify_invalidate. intros P t Ht. by apply remove_keeps, remove_keeps, erase_keeps.
Qed.

Lemma triple_on_methods cfg ms p h : p <> [] -> triple top (on_methods_ cfg ms p h) (fun _ => top).
Proof.
  intros Hp. unfold on_methods_. eapply triple_bind.
  { apply triple_lift. unfold validate_on_methods_inputs_. repeat case_match; done. }
  intros []. eapply triple_bind; [by apply triple_lift, make_endpoint_defined|]. intros idx.
  destruct h as [f|]; [|by intros s Hs _].
  eapply triple_bind; [eapply triple_weaken; [apply triple_prepare|done|intros ? ? Hq; exact Hq]|].
  intros [shim fresh]. eapply triple_bind; [apply triple_commit|]. intros [].
  eapply triple_bind; [|intros; apply triple_invalidate].
  apply triple_table; [|intros; apply upsert_defined].
  intros s Hs (mask & slots & Hh). apply upsert_keeps. intros ms'. exists shim. eauto.
Qed.

Lemma lookup_ok s m p :
  server_ok s ->
  exists s' r, lookup m p s = (s', Ok r) /\ server_ok s' /\ (found r = true -> live s' (lr_entry r)).
Proof.
  intros Hs. unfold lookup, lift_table.
  destruct (lookup_v2_entry (live s) (routes_ s) m p (so_entries _ Hs)) as (t & r & -> & Ht & Hr).
  eexists _, r. split; [done|]. split; [|done]. destruct Hs as [S1 S2 S3]. by constructor.
Qed.

Lemma triple_lookup m p : triple top (lookup m p) (fun r s => found r = true -> live s (lr_entry r)).
Proof. intros s Hs _. destruct (lookup_ok s m p Hs) as (s' & r & -> & ? & ?). done. Qed.

Lemma triple_exec cfg op : triple (op_args_ok op) (server_exec cfg op) (fun _ => top).
Proof.
  assert (Hsil : forall A (f : stx (server Handler) A) P Q,
    triple P f Q -> triple P (silent f) (fun _ => top)).
  { intros A f P Q Hf. eapply triple_bind; [exact Hf|]. by intros a s Hs _. }
  assert (Hpure : forall A (Q : Prop) (f : stx (server Handler) A) R,
    (Q -> triple top f R) -> triple (fun _ => Q) f R).
  { intros A Q f R Hf s Hs HQ. by apply Hf. }
  destruct op; simpl.
  - eapply Hsil, triple_alloc. done.
  - eapply Hsil, triple_register.
  - eapply Hsil, Hpure, triple_unregister.
  - eapply Hsil, Hpure, triple_unregister_resource.
  - eapply Hsil, Hpure, triple_on_methods.
  - eapply triple_bind; [eapply triple_weaken; [apply triple_lookup|done|intros ? ? Hq; exact Hq]|].
    by intros r s Hs _.
Qed.

(** The states a program can bring a server to: any operation with valid
    arguments, whether it returns or throws, and any change a program makes to
    the method mask of its own resources. *)
Inductive reachable (cfg : config) : server Handler -> Prop :=
| reach_new s : new_server = Ok s -> reachable cfg s
| reach_step s op : reachable cfg s -> op_args_ok op s -> reachable cfg (fst (server_exec cfg op s))
| reach_mask s id mask mask' :
    reachable cfg s -> heap s !! id = Some (UserResource mask) ->
    reachable cfg (Server (routes_ s) (<[id := UserResource mask']> (heap s)) (next_id s)).

Lemma new_server_ok s : new_server = Ok s -> server_ok s.
Proof.
  unfold new_server. destruct (LruCache.new_cache _) as [c| |] eqn:E; [|done..]. intros [= <-].
  apply LruCache.new_cache_wf in E as (Hw & Ha & _). constructor; simpl.
  - constructor; simpl; try done; [|apply trie_ok_empty|by rewrite Ha].
    intros pat pre e. pose proof (proj2 (represents_empty (T := route_entry)) pat pre) as He.
    rewrite He. by rewrite lookup_empty.
  - done.
  - intros id. rewrite lookup_empty. split; [by intros [? ?]|lia].
Qed.

Lemma reachable_ok cfg s : reachable cfg s -> server_ok s.
Proof.
  induction 1 as [s Hn|s op _ IH Ha|s id mask mask' _ IH Hh].
  - by apply new_server_ok.
  - by apply (triple_exec cfg op).
  - assert (Hlt : id < next_id s) by (apply (so_fresh _ IH); eauto).
    pose proof (heap_update_ok s id (UserResource mask') IH ltac:(lia)) as Ho.
    rewrite Nat.max_r in Ho by lia. by apply Ho.
Qed.

(** C24: Whatever was registered, removed, rejected or looked up before: no
    operation with a live resource and a non-empty path runs into undefined behaviour (a dead cache
    node, a slot outside the array, the unreachable tier), a lookup never
    throws, the handler of a found route is a live resource, and a lambda
    resource that allows the method has a handler in its slot. *)
Theorem server_safety cfg s :
  reachable cfg s ->
  (forall op, op_args_ok op s -> snd (server_exec cfg op s) <> Undefined)
  /\ forall m path, m <> count_ ->
     exists s' r, lookup m path s = (s', Ok r)
       /\ (found r = true ->
           exists id res, handler (lr_entry r) = Some id /\ heap s' !! id = Some res
             /\ forall mask slots, res = LambdaResource mask slots -> is_allowed mask m = true ->
                  exists h, slots !! Z.to_nat (method_index m) = Some (Some h)).
Proof.
  intros Hs%reachable_ok. split.
  - intros op Ha. destruct (triple_exec cfg op s Hs Ha) as [_ Ho]. by intros E; rewrite E in Ho.
  - intros m path Hm. destruct (lookup_ok s m path Hs) as (s' & r & -> & Hs' & Hr).
    exists s', r. split; [done|]. intros Hf. destruct (Hr Hf) as (id & Hid & [res Hres]).
    exists id, res. split_and!; [done..|]. intros mask slots -> Hal.
    by apply (proj2 (so_slots _ Hs' _ _ _ Hres)).
Qed.

End Safety.

Section Functional.
Context `{RegexEngine, StdHash, !StdHashOk} {Handler : Type}.
Implicit Types (s : server Handler).

(** ** What registration does to resolution *)

Definition literal_path (p : bytes) : Prop :=
  Forall (fun part => hd_error part <> Some "{"%char) (tokenize_url p "/").

Lemma literal_parameters p i : literal_path p -> parameters (tokenize_url p "/") i = [].
Proof.
  unfold literal_path. generalize (tokenize_url p "/") as parts. intros parts Hp. revert i.
  induction Hp as [|part parts Hh Hp IH]; intros i; [done|]. simpl. unfold is_parameter.
  by rewrite bool_decide_false, IH.
Qed.

Lemma literal_part_ok p : literal_path p -> forallb part_ok (tokenize_url p "/") = true.
Proof.
  intros Hp. apply forallb_forall. intros part Hin%list_elem_of_In. unfold literal_path in Hp.
  rewrite Forall_forall in Hp. unfold part_ok. by rewrite bool_decide_false by (by apply Hp).
Qed.

(** The endpoint of a literal path when regexes are off. *)
Lemma literal_endpoint p family :
  p <> [] -> literal_path p ->
  exists idx, make_endpoint p family true false = Ok idx
    /\ url_complete idx = canonicalize_lookup_path p /\ url_pars idx = [] /\ reg_compiled idx = false.
Proof.
  intros Hne Hp. pose proof (make_endpoint_parts p family false Hne) as He. simpl in He.
  rewrite (literal_part_ok _ Hp), (literal_parameters _ _ Hp) in He.
  destruct (make_endpoint p family true false) as [idx|[msg|msg|]|]; try done;
    [|by destruct He as [[? _]|(_ & ? & _)]].
  exists idx. destruct He as (_ & ? & _ & ? & _ & _ & ?). done.
Qed.

Definition plain_config (cfg : config) : Prop := single_resource cfg = false /\ regex_checking cfg = false.

Lemma validate_register_plain cfg p id family :
  plain_config cfg -> NUL ∉ p -> validate_register_inputs_ cfg p (Some id) family = Ok ().
Proof.
  intros [Hs _] Hn. unfold validate_register_inputs_. rewrite Hs. simpl. by rewrite bool_decide_false.
Qed.

(** Registering a resource at a literal path either binds the canonical path to
    it, and changes the resolution of no other path, or throws with the server
    unchanged, which happens exactly when the path is taken: by an exact route,
    or by a prefix route on the same segments. *)
Theorem register_path_literal cfg p id s :
  plain_config cfg -> p <> [] -> NUL ∉ p -> literal_path p ->
  let key := canonicalize_lookup_path p in
  let taken := bool_decide (is_Some (exact_routes_ (routes_ s) !! key))
               || Trie.has_terminus_at (param_and_prefix_routes_ (routes_ s)) key true in
  match register_path cfg p (Some id) s with
  | (s', Ok _) =>
      taken = false
      /\ resolve (routes_ s') key = Some (RouteEntry set_all (Some id) false, [])
      /\ (forall q, q <> key -> resolve (routes_ s') q = resolve (routes_ s) q)
      /\ heap s' = heap s
  | (s', Throw (invalid_argument _)) => taken = true /\ s' = s
  | _ => False
  end.
Proof.
  intros Hc Hne Hn Hp key taken. unfold register_path, register_impl_, mbind, stx_bind, stx_lift.
  rewrite validate_register_plain by done. destruct Hc as [_ ->].
  destruct (literal_endpoint p false Hne Hp) as (idx & -> & Hk & Hpars & Hre).
  unfold lift_table, register_v2_route, reject_duplicate_v2_entry_, reject_terminus_collision,
    classify_route_tier. rewrite Hpars, Hre, Hk. cbn [is_empty negb]. fold key.
  unfold taken, throw_duplicate_registration. destruct s as [t hp nid]. simpl.
  destruct (Trie.has_terminus_at _ key true); cbn.
  { by rewrite orb_true_r. }
  destruct (bool_decide (is_Some (exact_routes_ t !! key))) eqn:E; cbn; [done|]. bool_prop.
  rewrite <-eq_None_not_Some in E. split_and!; [done| | |done].
  - unfold resolve, emplace. simpl. by rewrite E, lookup_insert_eq.
  - intros q Hq. unfold resolve, emplace. simpl. by rewrite E, lookup_insert_ne.
Qed.

(** The request that is the prefix itself reaches the prefix route. *)
Lemma find_literal_prefix root segs e :
  terminus_at root (map Some segs) true = Some e ->
  terminus_at root (map Some segs) false = None ->
  find_ref root segs = Some (Trie.Match e [] true) :> option (Trie.trie_match route_entry).
Proof.
  intros Ht Hf. unfold find_ref. generalize (@nil (bytes * bytes)) as caps. intros caps.
  revert root Ht Hf. induction segs as [|seg segs IH]; intros root Ht Hf.
  - unfold terminus_at in *. simpl in *. unfold exact_entry. simpl. rewrite Hf. simpl.
    unfold deepest_prefix, prefix_entry. simpl. by rewrite Ht.
  - cbn [map] in *. rewrite terminus_at_cons in Ht, Hf. cbn [subtrie] in *.
    destruct (Trie.children_ root !! seg) as [c|] eqn:Ec; [|done].
    assert (Hst : Trie.step_to_child_ root seg caps = Some (c, caps))
      by (unfold Trie.step_to_child_; by rewrite Ec).
    rewrite (exact_entry_cons _ _ _ _ _ _ Hst). specialize (IH c Ht Hf).
    destruct (exact_entry (trail c caps segs) segs); [done|]. cbn [trail]. rewrite Hst.
    unfold deepest_prefix in *. cbn [omap list_omap]. destruct (prefix_entry (root, caps)); [|done].
    rewrite last_cons. by destruct (last (omap prefix_entry (trail c caps segs))) as [x|].
Qed.

(** A canonical path without empty segments has the same segments as a route
    and as a request. *)
Lemma request_segments_tokenize key :
  hd_error key = Some "/"%char -> Forall (fun seg => seg <> []) (request_segments key) ->
  Trie.tokenize key = request_segments key.
Proof.
  intros Hh Hf. destruct key as [|c key]; [done|]. injection Hh as ->.
  unfold Trie.tokenize, tokenize_url, request_segments in *. rewrite ascii_eqb_refl in *.
  rewrite string_split_filter. change ("/"%char :: key) with ([] ++ "/"%char :: key).
  rewrite fields_no_tail_cons by apply not_elem_of_nil.
  simpl. induction Hf as [|seg l Hs Hf IH]; [done|]. simpl. destruct seg; [done|]. simpl. by rewrite IH.
Qed.

Lemma canonicalize_head p : hd_error (canonicalize_lookup_path p) = Some "/"%char.
Proof.
  unfold canonicalize_lookup_path. destruct p as [|c p]; [done|].
  destruct (ascii_eqb c "/") eqn:E; [apply ascii_eqb_true in E as ->|].
  - simpl. case_match; [done|]. case_match; [|done]. by destruct p.
  - simpl. by case_match.
Qed.

Lemma literal_pattern segs :
  Forall (fun part => hd_error part <> Some "{"%char) segs -> map canon segs = map Some segs.
Proof.
  intros Hs. apply map_ext_in. intros seg Hin. rewrite Forall_forall in Hs. unfold canon.
  apply list_elem_of_In, Hs in Hin. unfold Trie.is_wildcard_segment.
  by rewrite bool_decide_false, andb_false_r by done.
Qed.

(** Registering a prefix at a literal path of non-empty segments either makes
    the path itself resolve to it, or throws with the routes unchanged, exactly
    when an exact route or a prefix route holds the path. *)
Theorem register_prefix_literal cfg p id s :
  plain_config cfg -> p <> [] -> NUL ∉ p ->
  literal_path (canonicalize_lookup_path p) -> literal_path p ->
  Forall (fun seg => seg <> []) (request_segments (canonicalize_lookup_path p)) ->
  trie_ok (param_and_prefix_routes_ (routes_ s)) ->
  let key := canonicalize_lookup_path p in
  let trie := param_and_prefix_routes_ (routes_ s) in
  let taken := bool_decide (is_Some (exact_routes_ (routes_ s) !! key))
               || Trie.has_terminus_at trie key false || Trie.has_terminus_at trie key true in
  match register_prefix cfg p (Some id) s with
  | (s', Ok _) =>
      taken = false
      /\ resolve (routes_ s') key = Some (RouteEntry set_all (Some id) true, [])
      /\ exact_routes_ (routes_ s') = exact_routes_ (routes_ s)
  | (s', Throw (invalid_argument _)) => taken = true /\ s' = s
  | _ => False
  end.
Proof.
  intros Hc Hne Hn Hlk Hp Hseg Hok key trie taken.
  unfold register_prefix, register_impl_, mbind, stx_bind, stx_lift.
  rewrite validate_register_plain by done. destruct Hc as [_ ->].
  destruct (literal_endpoint p true Hne Hp) as (idx & -> & Hk & _ & _).
  unfold lift_table, register_v2_route, reject_duplicate_v2_entry_, reject_terminus_collision.
  rewrite Hk. fold key trie. cbn [negb]. unfold taken, throw_duplicate_registration.
  destruct s as [t hp nid]. cbn [routes_] in *.
  destruct (bool_decide _) eqn:Ee; cbn; [done|].
  destruct (Trie.has_terminus_at trie key false) eqn:Ef; cbn; [done|].
  destruct (Trie.has_terminus_at trie key true) eqn:Et; cbn; [done|].
  unfold trie_insert, Trie.insert. fold trie.
  set (e := RouteEntry set_all (Some id) true).
  assert (Hpat : map canon (Trie.tokenize key) = map Some (request_segments key)).
  { rewrite <-(request_segments_tokenize key (canonicalize_head p) Hseg). by apply literal_pattern. }
  pose proof (insert_at_terminus (Trie.tokenize key) e true trie) as Hi.
  rewrite has_terminus_at_spec in Ef by done. unfold pattern in Ef. rewrite Hpat in Ef. bool_prop.
  rewrite <-eq_None_not_Some in Ef.
  assert (Hcomp : forallb segment_compiles (Trie.tokenize key) = true).
  { apply forallb_forall. intros seg Hin%list_elem_of_In. unfold segment_compiles, Trie.is_wildcard_segment.
    unfold literal_path in Hlk. rewrite Forall_forall in Hlk.
    by rewrite (bool_decide_false (hd_error seg = _)), andb_false_r by (by apply Hlk). }
  pose proof (insert_at_ok (Trie.tokenize key) e true trie Hcomp) as Ho.
  destruct (Trie.insert_at (Trie.tokenize key) e true trie) as [n o]. simpl in *. subst o. simpl.
  split_and!; [done| |done]. unfold resolve, lookup_radix_regex. simpl.
  rewrite <-eq_None_not_Some in Ee. rewrite Ee, find_find_ref, (find_literal_prefix n _ e).
  - done.
  - rewrite Hi, Hpat. by rewrite !bool_decide_true.
  - rewrite Hi, Hpat, (bool_decide_false (false = true)), !andb_false_r by done. done.
Qed.

(** ** Removal *)

Lemma remove_terminus t key pre pat pre' :
  trie_ok (param_and_prefix_routes_ t) ->
  terminus_at (param_and_prefix_routes_ (remove_param_prefix_locked_ key pre t)) pat pre' =
    (if bool_decide (pat = pattern key) && bool_decide (pre' = pre)
     then None else terminus_at (param_and_prefix_routes_ t) pat pre')
  /\ trie_ok (param_and_prefix_routes_ (remove_param_prefix_locked_ key pre t)).
Proof.
  intros Hok. unfold remove_param_prefix_locked_, Trie.remove. simpl.
  pose proof (remove_at_effect (Trie.tokenize key) pre _ Hok) as Hr. fold (pattern key) in Hr.
  destruct (Trie.remove_at _ _ _) as [n|]; simpl.
  - destruct Hr as (_ & Hn & Ht). split; [apply Ht|]. intros pat' ?%Hn. by apply Hok.
  - split; [|done]. destruct (bool_decide _) eqn:E1; [|done]. simpl.
    destruct (bool_decide (pre' = pre)) eqn:E2; [|done]. bool_prop. subst. done.
Qed.

(** [unregister_resource] on a well-formed path removes every route the path
    names, of every kind, and no other; on a malformed path it throws and
    changes nothing. *)
Theorem unregister_resource_removes cfg p s :
  reachable cfg s -> p <> [] ->
  let key := canonicalize_lookup_path p in
  match unregister_resource cfg p s with
  | (s', Ok _) =>
      exact_routes_ (routes_ s') = base.delete key (exact_routes_ (routes_ s))
      /\ (forall rr, rr ∈ regex_routes_ (routes_ s') <->
                    rr ∈ regex_routes_ (routes_ s) /\ rr_url_complete rr <> key)
      /\ (forall pat pre, terminus_at (param_and_prefix_routes_ (routes_ s')) pat pre =
           if bool_decide (pat = pattern key) then None
           else terminus_at (param_and_prefix_routes_ (routes_ s)) pat pre)
      /\ heap s' = heap s
  | (s', Throw (invalid_argument _)) => s' = s
  | _ => False
  end.
Proof.
  intros Hr%reachable_ok Hne key. pose proof (ae_trie_ok _ _ (so_entries _ Hr)) as Hok.
  unfold unregister_resource, mbind, stx_bind, stx_lift.
  pose proof (make_endpoint_parts p false (regex_checking cfg) Hne) as Hp.
  destruct (make_endpoint p false true (regex_checking cfg)) as [he|[msg|msg|]|]; try done.
  destruct Hp as (_ & Hk & _). simpl. rewrite Hk. fold key. destruct s as [t hp nid]. simpl in *.
  split_and!; [done| | |done].
  - intros rr. rewrite !list_elem_of_In, filter_In, negb_true_iff, bytes_eqb_false. done.
  - intros pat pre. set (t1 := erase_exact_and_regex_locked_ key t).
    destruct (remove_terminus t1 key false pat pre Hok) as [Ht1 Hok1].
    destruct (remove_terminus (remove_param_prefix_locked_ key false t1) key true pat pre Hok1) as [Ht2 _].
    change (terminus_at (param_and_prefix_routes_ (remove_param_prefix_locked_ key true
      (remove_param_prefix_locked_ key false t1))) pat pre = if bool_decide (pat = pattern key)
        then None else terminus_at (param_and_prefix_routes_ t1) pat pre).
    rewrite Ht2, Ht1. destruct (bool_decide (pat = pattern key)); [|done]. by destruct pre.
Qed.

End Functional.

(** ** Concrete servers *)

Section Examples.
#[local] Existing Instance literal_engine.
#[local] Existing Instance len_hash.
#[local] Existing Instance len_hash_ok.

Definition plain_cfg : config := Config false false.
Definition server0 : server nat := Server (Table ∅ Trie.empty_node [] (LruCache.Cache 256 [] ∅ 0%Z 0)) ∅ 0.

Definition exec_all (ops : list (server_op nat)) : server nat * list (outcome (option (option (route_entry * list (bytes * bytes))))) :=
  run server_exec plain_cfg ops server0.

Definition get_set : method_set := set clear_all get.
Definition post_set : method_set := set clear_all post.

(** The handler a request reaches: the slot of the resource the route names. *)
Definition handler_of (m : http_method) (path : bytes) (s : server nat) : option (nat * option nat) :=
  match snd (lookup m path s) with
  | Ok r =>
      if found r then
        match handler (lr_entry r) ≫= fun id => (fun o => (id, o)) <$> heap s !! id with
        | Some (id, LambdaResource mask slots) =>
            Some (id, if is_allowed mask m then default None (slots !! Z.to_nat (method_index m)) else None)
        | _ => None
        end
      else None
  | _ => None
  end.

(** Methods of one path share a resource. *)
Example on_get_then_on_post :
  let s := fst (exec_all [OpOnMethods get_set (bs "/u/{id}") (Some 1); OpOnMethods post_set (bs "/u/{id}") (Some 2)]) in
  handler_of get (bs "/u/7") s = Some (0, Some 1) /\ handler_of post (bs "/u/7") s = Some (0, Some 2).
Proof. by vm_compute. Qed.

(** A second method on a constrained path replaces the first: the probe for an
    existing entry matches the pattern text against its own constraint. *)
Theorem constrained_path_loses_handler :
  let s := fst (exec_all [OpOnMethods get_set (bs "/u/{id|[0-9]+}") (Some 1);
                          OpOnMethods post_set (bs "/u/{id|[0-9]+}") (Some 2)]) in
  snd (exec_all [OpOnMethods get_set (bs "/u/{id|[0-9]+}") (Some 1);
                 OpOnMethods post_set (bs "/u/{id|[0-9]+}") (Some 2)]) = [Ok None; Ok None]
  /\ handler_of get (bs "/u/7") s = Some (1, None) /\ handler_of post (bs "/u/7") s = Some (1, Some 2).
Proof. by vm_compute. Qed.

(** The probe may also find another route: a handler registered for [/foo/{y}]
    then serves [/bar/1]. *)
Theorem handler_leaks_to_other_route :
  let s := fst (exec_all [OpOnMethods get_set (bs "/{x}/{y}") (Some 1);
                          OpOnMethods post_set (bs "/foo/{y}") (Some 2)]) in
  handler_of post (bs "/bar/1") s = Some (0, Some 2).
Proof. by vm_compute. Qed.

(** A registration that throws may still change routing: the literal node it
    created hides the wildcard route. *)
Theorem failed_registration_shadows :
  let before := fst (exec_all [OpOnMethods get_set (bs "/a/{id}") (Some 1)]) in
  let '(after, outs) := exec_all [OpOnMethods get_set (bs "/a/{id}") (Some 1);
                                  OpOnMethods get_set (bs "/a/b/{x|(}") (Some 2)] in
  handler_of get (bs "/a/b") before = Some (0, Some 1)
  /\ outs = [Ok None; Throw (invalid_argument (bs "Not a valid regex in URL: ("))]
  /\ handler_of get (bs "/a/b") after = None.
Proof. by vm_compute. Qed.

(** The cache is not cleared then, so a lookup made before keeps answering with
    the handler the tables no longer give. *)
Theorem cached_answer_outlives_failure :
  let ops := [OpOnMethods get_set (bs "/a/{id}") (Some 1); OpLookup get (bs "/a/b");
              OpOnMethods get_set (bs "/a/b/{x|(}") (Some 2); OpLookup get (bs "/a/b")] in
  let hit := Ok (Some (Some (RouteEntry get_set (Some 0) false, [(bs "id", bs "b")]))) in
  let thrown := Throw (invalid_argument (bs "Not a valid regex in URL: (")) in
  snd (run server_exec plain_cfg ops server0) = [Ok None; hit; thrown; hit]
  /\ snd (run spec_exec plain_cfg ops server0) = [Ok None; hit; thrown; Ok (Some None)].
Proof. by vm_compute. Qed.

(** The empty path, which the documentation of [register_prefix] names as the
    catch-all, is indexed before its first character. *)
Theorem empty_path_undefined :
  let server1 := fst (exec_all [OpNewResource new_resource]) in
  Forall (fun op => snd (server_exec plain_cfg op server1) = Undefined)
    [OpRegister [] (Some 0) false; OpRegister [] (Some 0) true; OpUnregister [] true;
     OpUnregisterResource []; OpOnMethods get_set [] (Some 1)].
Proof. repeat constructor; by vm_compute. Qed.

(** A prefix route written with a doubled slash slips past the collision check
    with an exact route on the same segments. *)
Theorem double_slash_collision_missed :
  snd (exec_all [OpNewResource new_resource; OpRegister (bs "/a/b") (Some 0) false;
                 OpRegister (bs "/a//b") (Some 0) true]) = [Ok None; Ok None; Ok None]
  /\ snd (exec_all [OpNewResource new_resource; OpRegister (bs "/a/b") (Some 0) false;
                    OpRegister (bs "/a/b") (Some 0) true]) =
     [Ok None; Ok None; Throw (invalid_argument (collision_message (bs "/a/b") true))].
Proof. by vm_compute. Qed.

Lemma route_cache_transparent_witness :
  let ops := [OpOnMethods get_set (bs "/u/{id|[0-9]+}") (Some 1); OpLookup get (bs "/u/7/");
              OpLookup get (bs "/u/7"); OpUnregisterResource (bs "/u/{id|[0-9]+}"); OpLookup get (bs "/u/7")] in
  Forall op_compiles ops /\ new_server = Ok server0
  /\ snd (run server_exec plain_cfg ops server0) = snd (run spec_exec plain_cfg ops server0).
Proof.
  intros ops. assert (Hf : Forall op_compiles ops) by (repeat constructor).
  split; [exact Hf|]. split; [done|]. by apply route_cache_transparent.
Defined.

Lemma server_safety_witness :
  reachable plain_cfg server0
  /\ (forall op, op_args_ok op server0 -> snd (server_exec plain_cfg op server0) <> Undefined).
Proof.
  assert (Hr : reachable plain_cfg server0) by (by apply reach_new).
  split; [exact Hr|]. exact (proj1 (server_safety plain_cfg server0 Hr)).
Defined.

Lemma lookup_v2_correct_witness :
  cache_inv (routes_ server0)
  /\ exists t' r, lookup_v2 get (bs "a/") (routes_ server0) = (t', Ok r)
       /\ answer r = resolve (routes_ server0) (canonicalize_lookup_path (bs "a/"))
       /\ same_routes (routes_ server0) t' /\ cache_inv t'.
Proof.
  assert (Hi : cache_inv (routes_ server0)) by (by apply (new_server_sim server0)).
  split; [exact Hi|]. exact (lookup_v2_correct (routes_ server0) get (bs "a/") Hi).
Defined.

Lemma literal_ab : literal_path (bs "/a/b").
Proof. repeat constructor; by intros [=]. Qed.

Lemma nul_ab : NUL ∉ bs "/a/b".
Proof. by apply (bool_decide_unpack _). Qed.

Lemma register_path_literal_witness :
  match register_path plain_cfg (bs "/a/b") (Some 0) server0 with
  | (s', Ok _) => resolve (routes_ s') (bs "/a/b") = Some (RouteEntry set_all (Some 0) false, [])
  | _ => False
  end.
Proof.
  pose proof (register_path_literal plain_cfg (bs "/a/b") 0 server0 (conj eq_refl eq_refl)
    ltac:(done) nul_ab literal_ab) as Hw.
  assert (Ho : is_ok (snd (register_path plain_cfg (bs "/a/b") (Some 0) server0)) = true) by (vm_compute; reflexivity).
  destruct (register_path plain_cfg (bs "/a/b") (Some 0) server0) as [s' [[]|e|]]; [|discriminate Ho..].
  by destruct Hw as (_ & ? & _).
Defined.

Lemma register_prefix_literal_witness :
  match register_prefix plain_cfg (bs "/a/b") (Some 0) server0 with
  | (s', Ok _) => resolve (routes_ s') (bs "/a/b") = Some (RouteEntry set_all (Some 0) true, [])
  | _ => False
  end.
Proof.
  pose proof (register_prefix_literal plain_cfg (bs "/a/b") 0 server0 (conj eq_refl eq_refl)
    ltac:(done) nul_ab literal_ab literal_ab ltac:(repeat constructor; done) trie_ok_empty) as Hw.
  assert (Ho : is_ok (snd (register_prefix plain_cfg (bs "/a/b") (Some 0) server0)) = true) by (vm_compute; reflexivity).
  destruct (register_prefix plain_cfg (bs "/a/b") (Some 0) server0) as [s' [[]|e|]]; [|discriminate Ho..].
  by destruct Hw as (_ & ? & _).
Defined.

Lemma unregister_resource_removes_witness :
  match unregister_resource plain_cfg (bs "/a/b") server0 with
  | (s', Ok _) => exact_routes_ (routes_ s') = base.delete (bs "/a/b") ∅
  | _ => False
  end.
Proof.
  assert (Hr : reachable plain_cfg server0) by (by apply reach_new).
  pose proof (unregister_resource_removes plain_cfg (bs "/a/b") server0 Hr ltac:(done)) as Hw.
  assert (Ho : is_ok (snd (unregister_resource plain_cfg (bs "/a/b") server0)) = true) by (vm_compute; reflexivity).
  destruct (unregister_resource plain_cfg (bs "/a/b") server0) as [s' [[]|e|]]; [|discriminate Ho..].
  by destruct Hw as (? & _).
Defined.

End Examples.
