(* ===== verification/Concurrency.v ===== *)
(** * Lookups and updates that interleave

    [lookup_v2] takes the table lock, the cache lock, the table lock and the
    cache lock in turn, and an update takes the table lock and then clears the
    cache, so other threads run in between.  Here each lock-protected block is
    one step of its thread.  Shown: what a lookup can answer under any
    interleaving, when the cache is up to date, and the interleaving that
    leaves it stale. *)

From S2P Require Import Prelude HttpUtils HttpMethod Paths RouteCache Regex SegmentTrie HttpEndpoint RouteTable Registration.
Import HttpUtils.HttpUtils MethodSetOps Endpoint RouteTable.RouteTable Registration.Registration.

Module Concurrency.
Section Concurrency.
Context `{RegexEngine, StdHash}.

(** The block of each updating operation under the write lock. *)
Inductive update : Type :=
| URegister (idx : http_endpoint) (res : nat) (family : bool)
| UUpsert (idx : http_endpoint) (ms : method_set) (shim : nat) (fresh : bool)
| UErase (key : bytes)
| URemove (key : bytes) (pre : bool)
| USweep (key : bytes).

Definition mutate (u : update) : stx route_table unit :=
  match u with
  | URegister idx res family => register_v2_route idx res family
  | UUpsert idx ms shim fresh => upsert_v2_table_entry_locked_ idx ms shim fresh
  | UErase key => stx_modify (erase_exact_and_regex_locked_ key)
  | URemove key pre => stx_modify (remove_param_prefix_locked_ key pre)
  | USweep key => stx_modify (fun t =>
      remove_param_prefix_locked_ key true (remove_param_prefix_locked_ key false (erase_exact_and_regex_locked_ key t)))
  end.

(** Where a thread is between two blocks; paths are canonical. *)
Inductive thread : Type :=
| AtExact (m : http_method) (p : bytes)
| AtCache (m : http_method) (p : bytes)
| AtWalk (m : http_method) (p : bytes)
| AtInstall (m : http_method) (p : bytes) (r : lookup_result)
| Returned (m : http_method) (p : bytes) (r : lookup_result)
| AtMutate (u : update)
| AtClear
| Finished.

Definition start_lookup (m : http_method) (path : bytes) : thread := AtExact m (canonicalize_lookup_path path).

(** One block. *)
Definition advance (th : thread) : stx route_table thread := fun t =>
  match th with
  | AtExact m p =>
      (t, Ok (match exact_routes_ t !! p with Some e => Returned m p (Lookup true hit_exact e []) | None => AtCache m p end))
  | AtCache m p =>
      match LruCache.find_by_view (route_lru_cache t) m p with
      | Throw e => (t, Throw e)
      | Undefined => (t, Undefined)
      | Ok (c, Some (e, caps)) => (set_cache t c, Ok (Returned m p (Lookup true hit_cache e caps)))
      | Ok (c, None) => (set_cache t c, Ok (AtWalk m p))
      end
  | AtWalk m p =>
      let r := lookup_radix_regex t p in
      (t, Ok (if found r then AtInstall m p r else Returned m p r))
  | AtInstall m p r =>
      match LruCache.insert (route_lru_cache t) (CacheKey m p) (lr_entry r, captured_params r) with
      | Ok c => (set_cache t c, Ok (Returned m p r))
      | Throw e => (t, Throw e)
      | Undefined => (t, Undefined)
      end
  | AtMutate u =>
      match mutate u t with
      | (t, Ok _) => (t, Ok AtClear)
      | (t, Throw _) => (t, Ok Finished)
      | (t, Undefined) => (t, Undefined)
      end
  | AtClear => (invalidate_route_cache t, Ok Finished)
  | Returned _ _ _ | Finished => (t, Ok th)
  end.

(** The blocks of a thread with nothing in between. *)
Fixpoint drive (n : nat) (th : thread) : stx route_table thread :=
  match n with
  | 0 => mret th
  | S n => th ← advance th; drive n th
  end.

(** The threads over one table; [versions] are the states it went through. *)
Record system : Type := System {
  table : route_table;
  threads : list thread;
  versions : list route_table;
}.

Definition begins (th : thread) : Prop :=
  match th with AtExact m p => exists path, th = start_lookup m path | AtMutate _ => True | _ => False end.

Inductive sys_step : system -> system -> Prop :=
| st_spawn s th : begins th -> sys_step s (System (table s) (threads s ++ [th]) (versions s))
| st_run s i th t th' :
    threads s !! i = Some th -> advance th (table s) = (t, Ok th') ->
    sys_step s (System t (<[i := th']> (threads s)) (t :: versions s)).

Definition initial (t : route_table) : system := System t [] [t].

End Concurrency.
End Concurrency.
Import Concurrency.

Section Facts.
Context `{RegexEngine, StdHash, !StdHashOk}.

(** ** The blocks make up the operations *)

Lemma lookup_blocks m path t :
  drive 4 (start_lookup m path) t
  = (fst (lookup_v2 m path t), (fun r => Returned m (canonicalize_lookup_path path) r) <$> snd (lookup_v2 m path t)).
Proof.
  unfold lookup_v2, start_lookup. set (p := canonicalize_lookup_path path).
  cbn [drive]. unfold mbind, stx_bind, mret, stx_ret. cbn [advance].
  destruct (exact_routes_ t !! p); cbn [advance fst snd]; [reflexivity|].
  destruct (LruCache.find_by_view (route_lru_cache t) m p) as [[c [[e caps]|]]| |]; cbn [advance fst snd]; try reflexivity.
  destruct (found (lookup_radix_regex (set_cache t c) p)) eqn:Ef; cbn [advance fst snd]; [|reflexivity].
  destruct (LruCache.insert _ _ _); reflexivity.
Qed.

Lemma mutate_cache u t : route_lru_cache (fst (mutate u t)) = route_lru_cache t.
Proof.
  destruct u as [idx res family|idx ms shim fresh|key|key pre|key]; cbn [mutate]; try done.
  - pose proof (register_v2_route_blind idx res family t (route_lru_cache t)) as E. destruct t. unfold set_cache in E at 1. cbn in E. rewrite E. done.
  - pose proof (upsert_blind idx ms shim fresh t (route_lru_cache t)) as E. destruct t. unfold set_cache in E at 1. cbn in E. rewrite E. done.
Qed.


Lemma mutate_defined u t : snd (mutate u t) <> Undefined.
Proof. destruct u; cbn [mutate]; try done; [apply register_v2_route_defined|apply upsert_defined]. Qed.

(** ** Any interleaving *)

(** The answer for [p] is the exact route or the pattern route of a version. *)
Definition from_version (p : bytes) (a : option (route_entry * list (bytes * bytes))) (t : route_table) : Prop :=
  (exists e, exact_routes_ t !! p = Some e /\ a = Some (e, [])) \/ a = answer (lookup_radix_regex t p).

Definition thread_ok (vs : list route_table) (th : thread) : Prop :=
  match th with
  | AtInstall m p r => found r = true /\ Exists (fun t => answer r = answer (lookup_radix_regex t p)) vs
  | Returned m p r => Exists (from_version p (answer r)) vs
  | _ => True
  end.

Record sys_ok (s : system) : Prop := {
  sy_wf : LruCache.wf (route_lru_cache (table s));
  sy_cache : Forall (fun e => Exists (fun t => coherent t e) (versions s)) (LruCache.abs (route_lru_cache (table s)));
  sy_threads : Forall (thread_ok (versions s)) (threads s);
}.

Lemma thread_ok_mono t vs th : thread_ok vs th -> thread_ok (t :: vs) th.
Proof. destruct th; simpl; try done; [intros [? ?]; split; [done|]|intros ?]; by apply Exists_cons_tl. Qed.

Lemma sys_ok_threads s t vs : Forall (thread_ok vs) (threads s) -> Forall (thread_ok (t :: vs)) (threads s).
Proof. intros Ht. eapply Forall_impl; [exact Ht|]. intros. by apply thread_ok_mono. Qed.

(** The cache after a probe holds entries it had; a hit is one of them. *)
Lemma probe_entries t m p (P : cache_key * (route_entry * list (bytes * bytes)) -> Prop) :
  LruCache.wf (route_lru_cache t) -> Forall P (LruCache.abs (route_lru_cache t)) ->
  exists c o, LruCache.find_by_view (route_lru_cache t) m p = Ok (c, o) /\ LruCache.wf c /\ Forall P (LruCache.abs c)
    /\ match o with Some v => P (CacheKey m p, v) | None => True end.
Proof.
  intros Hw Hc. rewrite LruCache.find_by_view_find by done.
  destruct (LruCache.find_refines _ (CacheKey m p) Hw) as (c & o & -> & Hw' & Ha & _).
  exists c, o. split; [done|]. split; [done|]. unfold LruCache.lru_find in Ha.
  destruct (LruCache.lru_lookup (CacheKey m p) _) as [v|] eqn:El; injection Ha as Ha ->.
  - apply LruCache.lru_lookup_elem in El; [|by apply LruCache.abs_keys].
    assert (Hv : P (CacheKey m p, v)) by (eapply Forall_forall in Hc; [exact Hc|done]).
    split; [|done]. rewrite Ha. constructor; [done|by apply drop_key_Forall].
  - split; [|done]. by rewrite Ha.
Qed.

Lemma install_entries t m p v (P : cache_key * (route_entry * list (bytes * bytes)) -> Prop) :
  LruCache.wf (route_lru_cache t) -> Forall P (LruCache.abs (route_lru_cache t)) -> P (CacheKey m p, v) ->
  exists c, LruCache.insert (route_lru_cache t) (CacheKey m p) v = Ok c /\ LruCache.wf c /\ Forall P (LruCache.abs c).
Proof.
  intros Hw Hc Hv. destruct (LruCache.insert_refines _ (CacheKey m p) v Hw) as (c & -> & Hw' & Ha & _).
  exists c. split; [done|]. split; [done|]. rewrite Ha. unfold LruCache.lru_insert.
  apply Forall_take. constructor; [done|by apply drop_key_Forall].
Qed.

(** A block of a thread, for a predicate [P] on cache entries and [Q] on threads
    that the current table supports. *)
Lemma advance_spec t th (P : cache_key * (route_entry * list (bytes * bytes)) -> Prop) :
  LruCache.wf (route_lru_cache t) -> Forall P (LruCache.abs (route_lru_cache t)) ->
  (forall m p r, th = AtInstall m p r -> P (CacheKey m p, (lr_entry r, captured_params r))) ->
  exists t' th', advance th t = (t', Ok th') /\ LruCache.wf (route_lru_cache t') /\ Forall P (LruCache.abs (route_lru_cache t'))
    /\ match th, th' with
       | AtExact m p, Returned m' p' r => m' = m /\ p' = p /\ exists e, exact_routes_ t !! p = Some e /\ answer r = Some (e, [])
       | AtExact m p, AtCache m' p' => m' = m /\ p' = p /\ same_routes t t'
       | AtCache m p, Returned m' p' r => m' = m /\ p' = p /\ exists v, P (CacheKey m p, v) /\ answer r = Some v
       | AtCache m p, AtWalk m' p' => m' = m /\ p' = p /\ same_routes t t'
       | AtWalk m p, AtInstall m' p' r => m' = m /\ p' = p /\ r = lookup_radix_regex t p /\ found r = true /\ t' = t
       | AtWalk m p, Returned m' p' r => m' = m /\ p' = p /\ r = lookup_radix_regex t p
       | AtInstall m p r, Returned m' p' r' => m' = m /\ p' = p /\ r' = r
       | AtMutate u, AtClear => t' = fst (mutate u t)
       | AtMutate u, Finished => t' = fst (mutate u t) /\ is_ok (snd (mutate u t)) = false
       | AtClear, Finished => LruCache.abs (route_lru_cache t') = [] /\ same_routes t t'
       | Returned _ _ _, _ | Finished, _ => th' = th /\ t' = t
       | _, _ => False
       end
    /\ match th with AtMutate _ => True | _ => same_routes t t' end.
Proof.
  intros Hw Hc Hi. destruct th as [m p|m p|m p|m p r|m p r|u| |]; cbn [advance].
  - destruct (exact_routes_ t !! p) as [e|] eqn:Ee; eexists _, _; split; eauto; split_and!; try done. by exists e.
  - destruct (probe_entries t m p P Hw Hc) as (c & o & -> & Hw' & Hc' & Ho). destruct o as [[e caps]|]; eexists _, _; split; eauto; split_and!; try done.
    by exists (e, caps).
  - destruct (found (lookup_radix_regex t p)) eqn:Ef; eexists _, _; split; eauto; by split_and!.
  - destruct (install_entries t m p (lr_entry r, captured_params r) P Hw Hc) as (c & -> & Hw' & Hc'); [by apply (Hi m p r)|].
    eexists _, _; split; eauto; by split_and!.
  - eexists _, _; split; eauto; by split_and!.
  - pose proof (mutate_defined u t) as Hd. pose proof (mutate_cache u t) as Hm.
    destruct (mutate u t) as [t' [x| |]]; [..|done]; cbn [fst snd] in *; eexists _, _; split; eauto; rewrite Hm; by split_and!.
  - destruct (LruCache.clear_wf _ Hw) as [Hw' Ha]. eexists _, _; split; eauto. cbn [invalidate_route_cache set_cache route_lru_cache].
    rewrite Ha. by split_and!.
  - eexists _, _; split; eauto; by split_and!.
Qed.

Lemma sys_step_ok s s' : sys_step s s' -> sys_ok s -> sys_ok s'.
Proof.
  intros [s0 th Hb|s0 i th t th' Hi Ha] [Hw Hc Ht].
  { constructor; [done|done|]. apply Forall_app. split; [done|]. constructor; [|done]. by destruct th. }
  assert (Hth : thread_ok (versions s0) th) by (eapply Forall_lookup_1 in Ht; [exact Ht|done]).
  destruct (advance_spec (table s0) th (fun e => Exists (fun t => coherent t e) (t :: versions s0))) as (t1 & th1 & E & Hw1 & Hc1 & Hmatch & Hsame); [done| | |].
  { eapply Forall_impl; [exact Hc|]. intros e. by apply Exists_cons_tl. }
  { intros m p r ->. destruct Hth as [Hf He]. apply Exists_cons_tl. eapply Exists_impl; [exact He|].
    intros t2 Heq. unfold coherent. cbn [fst snd ck_path]. rewrite <-Heq. unfold answer. by rewrite Hf. }
  rewrite E in Ha. injection Ha as <- <-. constructor; cbn [table threads versions]; [done..|].
  apply Forall_insert; [by apply sys_ok_threads|].
  destruct th as [m p|m p|m p|m p r|m p r|u| |], th1 as [m1 p1|m1 p1|m1 p1|m1 p1 r1|m1 p1 r1|u1| |]; try done; cbn [thread_ok].
  - destruct Hmatch as (-> & -> & e & He & Hr). apply Exists_cons_hd. left. exists e. split; [|done].
    destruct Hsame as (<- & _). done.
  - destruct Hmatch as (-> & -> & v & Hv & Hr). eapply Exists_impl; [exact Hv|]. intros t2 Hco. right. by rewrite Hr.
  - destruct Hmatch as (-> & -> & -> & Hf & ->). split; [done|]. by apply Exists_cons_hd.
  - destruct Hmatch as (-> & -> & ->). apply Exists_cons_hd. right. by rewrite (lookup_radix_regex_same (table s0) t1).
  - destruct Hmatch as (-> & -> & ->). destruct Hth as [Hf He]. apply Exists_cons_tl. eapply Exists_impl; [exact He|]. intros t2 Heq. by right.
  - destruct Hmatch as [[= -> -> ->] ->]. apply Exists_cons_tl. exact Hth.
Qed.

(** C15: However lookups and updates of any number of threads interleave, every
    block of a lookup succeeds (no lookup throws or touches a dead cache node)
    and every answer for a path is the exact route or the pattern route that some
    version of the table had for it; no lookup mixes two routes or invents one. *)
Theorem lookups_answer_some_version t s :
  cache_inv t -> LruCache.abs (route_lru_cache t) = [] -> rtc sys_step (initial t) s ->
  (forall th, th ∈ threads s -> is_ok (snd (advance th (table s))) = true)
  /\ (forall m p r, Returned m p r ∈ threads s -> exists v, v ∈ versions s /\ from_version p (answer r) v).
Proof.
  intros Hi He Hr. assert (Hok : sys_ok s).
  { assert (Hinit : sys_ok (initial t)) by (constructor; [apply Hi|cbn [initial table]; by rewrite He|constructor]).
    clear Hi He. induction Hr as [|x y z Hxy _ IH]; [done|]. by apply IH, (sys_step_ok x). }
  split.
  - intros th Hth. destruct (advance_spec (table s) th (fun _ => True)) as (t1 & th1 & -> & _); [apply Hok|by apply Forall_true|done|done].
  - intros m p r Hth. pose proof (sy_threads _ Hok) as Ht. rewrite Forall_forall in Ht. specialize (Ht _ Hth).
    apply Exists_exists in Ht as (v & Hv & Hf). by exists v.
Qed.

(** ** Updates that no lookup straddles *)

(** The parameter constraints of the update compile. *)
Definition compiles (u : update) : Prop :=
  match u with
  | URegister idx _ _ | UUpsert idx _ _ _ => constraints_compile (url_complete idx) = true
  | _ => True
  end.

(** A step that changes no route while a lookup holds a result it has not
    installed. *)
Definition quiet_step (s s' : system) : Prop :=
  sys_step s s'
  /\ (forall m p r, AtInstall m p r ∈ threads s -> same_routes (table s) (table s'))
  /\ (forall u, AtMutate u ∈ threads s' -> compiles u).

Record fresh (s : system) : Prop := {
  fr_wf : LruCache.wf (route_lru_cache (table s));
  fr_cache : Forall (fun e => AtClear ∉ threads s -> coherent (table s) e) (LruCache.abs (route_lru_cache (table s)));
  fr_install m p r : AtInstall m p r ∈ threads s -> found r = true /\ answer (lookup_radix_regex (table s) p) = answer r;
  fr_compiles u : AtMutate u ∈ threads s -> compiles u;
}.

Lemma mutate_atomic u t : compiles u -> is_ok (snd (mutate u t)) = false -> fst (mutate u t) = t.
Proof. destruct u; cbn [mutate compiles]; try done; intros Hc; [by apply register_v2_route_atomic|by apply upsert_atomic]. Qed.

Lemma elem_of_insert_thread {A} (l : list A) i x y : y ∈ <[i := x]> l -> y = x \/ y ∈ l.
Proof.
  intros (j & Hj)%list_elem_of_lookup. destruct (decide (i = j)) as [->|Hij].
  - apply list_lookup_insert_Some in Hj as [(_ & -> & _)|(? & _)]; [by left|done].
  - rewrite list_lookup_insert_ne in Hj by done. right. by apply list_elem_of_lookup_2 in Hj.
Qed.

Lemma insert_keeps_thread {A} (l : list A) i x y z : l !! i = Some x -> x <> y -> y ∈ l -> y ∈ <[i := z]> l.
Proof.
  intros Hi Hne (j & Hj)%list_elem_of_lookup. apply (list_elem_of_lookup_2 _ j). rewrite list_lookup_insert_ne; [done|]. congruence.
Qed.

Lemma quiet_step_fresh s s' : quiet_step s s' -> fresh s -> fresh s'.
Proof.
  intros (Hstep & Hquiet & Hcomp) [Hw Hc Hi Hu].
  destruct Hstep as [s0 th Hb|s0 i th t th' Hth Ha]; cbn [table threads versions] in *.
  { constructor; cbn [table threads]; try done.
    - eapply Forall_impl; [exact Hc|]. intros e He Hn. apply He. intros Hin. apply Hn, elem_of_app. by left.
    - intros m p r [Hin|Hin]%elem_of_app; [by apply (Hi m)|]. apply list_elem_of_singleton in Hin as <-. done. }
  assert (Hin : th ∈ threads s0) by by apply list_elem_of_lookup_2 in Hth.
  destruct (advance_spec (table s0) th (fun e => AtClear ∉ threads s0 -> coherent (table s0) e)) as (t1 & th1 & E & Hw1 & Hc1 & Hm & Hs); [done..| |].
  { intros m p r -> _. unfold coherent. cbn [fst snd ck_path]. destruct (Hi m p r Hin) as [Hf ->]. unfold answer. by rewrite Hf. }
  rewrite E in Ha. injection Ha as <- <-. constructor; cbn [table threads]; [done| | |done].
  - destruct th as [m p|m p|m p|m p r|m p r|u| |]; cbn beta iota in Hs;
      try (eapply Forall_impl; [exact Hc1|]; intros e He Hn; apply (coherent_same (table s0)); [done|]; apply He;
           intros Hcl; apply Hn; by eapply insert_keeps_thread).
    + destruct th1; try done.
      * eapply Forall_impl; [exact Hc1|]. intros e _ []. apply (list_elem_of_lookup_2 _ i), list_lookup_insert_eq. by eapply lookup_lt_Some.
      * destruct Hm as [-> Hthrow]. rewrite mutate_atomic by auto.
        eapply Forall_impl; [exact Hc|]. intros e He Hn. apply He. intros Hcl. apply Hn. by eapply insert_keeps_thread.
    + destruct th1; try done. destruct Hm as [-> _]. constructor.
  - intros m p r [Heq|Hold]%elem_of_insert_thread.
    + destruct th; destruct th1; try done. simplify_eq. by destruct Hm as (-> & -> & -> & Hf & ->).
    + destruct (Hi m p r Hold) as [Hf <-]. split; [done|]. by rewrite (lookup_radix_regex_same (table s0) t1) by by apply (Hquiet m p r).
Qed.

(** If updates change the routes only while no lookup holds a result it has
    not installed yet, then once every update has cleared the cache it is
    coherent: a lookup that runs then answers exactly what the current table
    resolves. *)
Theorem quiet_updates_keep_cache_fresh t s m path :
  cache_inv t -> LruCache.abs (route_lru_cache t) = [] -> rtc quiet_step (initial t) s -> AtClear ∉ threads s ->
  exists r, snd (drive 4 (start_lookup m path) (table s)) = Ok (Returned m (canonicalize_lookup_path path) r)
    /\ answer r = resolve (table s) (canonicalize_lookup_path path).
Proof.
  intros Hi He Hr Hcl. assert (Hf : fresh s).
  { assert (Hinit : fresh (initial t)).
    { constructor; cbn [initial table threads]; [apply Hi|by rewrite He|by intros m' p r ?%not_elem_of_nil|by intros u ?%not_elem_of_nil]. }
    clear Hi He Hcl. induction Hr as [|x y z Hxy _ IH]; [done|]. by apply IH, (quiet_step_fresh x). }
  assert (Hinv : cache_inv (table s)).
  { split; [apply Hf|]. eapply Forall_impl; [apply Hf|]. intros e Hcoh. by apply Hcoh. }
  destruct (lookup_v2_ok (table s) m path Hinv) as (t' & r & E & _ & _ & Hans).
  exists r. rewrite lookup_blocks, E. done.
Qed.

End Facts.

(** ** The interleaving that leaves the cache stale *)

Section Examples.
#[local] Existing Instance literal_engine.
#[local] Existing Instance len_hash.
#[local] Existing Instance len_hash_ok.

(** A prefix route [/a] and an empty cache. *)
Definition prefix_table : route_table :=
  fst (trie_insert (bs "/a") (RouteEntry set_all (Some 1) true) true (routes_ server0)).

(** The threads of an interleaving, by the index of the one that runs. *)
Fixpoint schedule (l : list nat) (s : system) : option system :=
  match l with
  | [] => Some s
  | i :: l =>
      match threads s !! i with
      | Some th =>
          match advance th (table s) with
          | (t, Ok th') => schedule l (System t (<[i := th']> (threads s)) (t :: versions s))
          | _ => None
          end
      | None => None
      end
  end.

Lemma schedule_reach l s s' : schedule l s = Some s' -> rtc sys_step s s'.
Proof.
  revert s. induction l as [|i l IH]; intros s; cbn [schedule]; [intros [= ->]; apply rtc_refl|].
  destruct (threads s !! i) as [th|] eqn:Ei; [|done]. destruct (advance th (table s)) as [t [th'| |]] eqn:Ea; [|done..].
  intros Hs%IH. eapply rtc_l; [|exact Hs]. by apply (st_run _ i th).
Qed.

Lemma prefix_table_inv : cache_inv prefix_table.
Proof.
  assert (Hi : cache_inv (routes_ server0)) by (by apply (new_server_sim server0)).
  split; [apply Hi|constructor].
Qed.

(** A lookup of [/a/x] and the removal of [/a] begin. *)
Definition race : system :=
  System prefix_table [start_lookup get (bs "/a/x"); AtMutate (URemove (bs "/a") true)] [prefix_table].

Lemma race_reach : rtc sys_step (initial prefix_table) race.
Proof.
  eapply rtc_l; [apply (st_spawn (initial prefix_table) (start_lookup get (bs "/a/x"))); by exists (bs "/a/x")|].
  eapply rtc_l; [by apply (st_spawn _ (AtMutate (URemove (bs "/a") true)))|]. apply rtc_refl.
Qed.

(** The lookup walks the table, the update removes the route and clears the
    cache, and the lookup installs what it found. *)
Definition raced : option system := schedule [0; 0; 0; 1; 1; 0] race.

Definition race_end : system := default race raced.

Lemma raced_ends : raced = Some race_end.
Proof.
  assert (Hs : match raced with Some _ => true | None => false end = true) by (vm_compute; reflexivity).
  unfold race_end. revert Hs. generalize raced. by intros [s|].
Qed.

Lemma race_end_reach : rtc sys_step (initial prefix_table) race_end.
Proof. etrans; [apply race_reach|]. exact (schedule_reach _ _ _ raced_ends). Qed.

(** Every thread is done and the route is gone, yet this and every later lookup
    finds it in the cache: the stale answer is not confined to the request that
    was in flight. *)
Theorem stale_entry_survives :
  rtc sys_step (initial prefix_table) race_end
  /\ resolve (table race_end) (bs "/a/x") = None
  /\ (let '(t, o) := lookup_v2 get (bs "/a/x") (table race_end) in
      answer <$> o = Ok (Some (RouteEntry set_all (Some 1) true, []))
      /\ answer <$> snd (lookup_v2 get (bs "/a/x") t) = Ok (Some (RouteEntry set_all (Some 1) true, []))).
Proof. split; [exact race_end_reach|]. vm_compute. split; [reflexivity|split; reflexivity]. Qed.

Lemma lookups_answer_some_version_witness :
  (forall th, th ∈ threads race_end -> is_ok (snd (advance th (table race_end))) = true)
  /\ (forall m p r, Returned m p r ∈ threads race_end -> exists v, v ∈ versions race_end /\ from_version p (answer r) v).
Proof. exact (lookups_answer_some_version prefix_table race_end prefix_table_inv eq_refl race_end_reach). Defined.

(** The removal alone. *)
Definition removed_table : route_table := fst (mutate (URemove (bs "/a") true) prefix_table).

Definition removed : system :=
  System (invalidate_route_cache removed_table) [Finished] [invalidate_route_cache removed_table; removed_table; prefix_table].

Lemma removed_reach : rtc quiet_step (initial prefix_table) removed.
Proof.
  set (u := URemove (bs "/a") true).
  eapply rtc_l; [split; [by apply (st_spawn (initial prefix_table) (AtMutate u))|]|].
  { split; [by intros ? ? ? ?%not_elem_of_nil|]. intros u' [= ->]%list_elem_of_singleton. done. }
  eapply rtc_l; [split; [by apply (st_run _ 0 (AtMutate u) removed_table AtClear)|]|].
  { split; [by intros ? ? ? ?%list_elem_of_singleton|by intros ? ?%list_elem_of_singleton]. }
  eapply rtc_l; [split; [by apply (st_run _ 0 AtClear (invalidate_route_cache removed_table) Finished)|]|apply rtc_refl].
  split; [by intros ? ? ? ?%list_elem_of_singleton|by intros ? ?%list_elem_of_singleton].
Qed.

Lemma quiet_updates_keep_cache_fresh_witness :
  exists r, snd (drive 4 (start_lookup get (bs "/a/x")) (table removed)) = Ok (Returned get (canonicalize_lookup_path (bs "/a/x")) r)
    /\ answer r = resolve (table removed) (canonicalize_lookup_path (bs "/a/x")).
Proof.
  apply (quiet_updates_keep_cache_fresh prefix_table removed get (bs "/a/x") prefix_table_inv eq_refl removed_reach).
  by intros ?%list_elem_of_singleton.
Defined.

End Examples.
