(* ===== verification/LiveResources.v ===== *)
(** * Requests on a resource that changes

    A request asks its resource whether the method is allowed, then calls the
    handler or reads the [Allow] header ([request_dispatcher.cpp],
    [lambda_resource.hpp], [http_resource.cpp]), while another thread may install
    handlers in the same resource ([webserver.cpp], [on_methods_]).  Here every
    access to a field and every lock operation is a step of its thread.  The
    fields are not atomic in the code, so interleaving their accesses is the
    meaning of a run only where no two of them race; the theorems about runs
    speak of such runs.  Shown: requests alone never race, each is answered
    with the handler of its method or with the methods the resource allows, and
    the locks never deadlock; with registrations accesses do race. *)

From S2P Require Import Prelude HttpMethod Registration.
Import MethodSetOps ResourceMask.

Module LiveResources.

(** ** The fields and the locks *)

Inductive location : Type :=
| MethodsAllowed
| Slot (m : http_method)
| CachedHeader
| CachedMaskAndValid.

(** A [lambda_resource] with [cached_allow_mutex_] (its readers and its writer are
    threads) and the exclusive side of the table lock, which registrations hold. *)
Record resource : Type := Resource {
  fields : resource_mask;
  slots_ : http_method -> option nat;
  readers : gset nat;
  writer : option nat;
  table_lock : option nat;
}.

Definition set_fields (r : resource) (f : resource_mask) : resource := Resource f (slots_ r) (readers r) (writer r) (table_lock r).
Definition set_slots (r : resource) (f : http_method -> option nat) : resource := Resource (fields r) f (readers r) (writer r) (table_lock r).
Definition set_readers (r : resource) (l : gset nat) : resource := Resource (fields r) (slots_ r) l (writer r) (table_lock r).
Definition set_writer (r : resource) (w : option nat) : resource := Resource (fields r) (slots_ r) (readers r) w (table_lock r).
Definition set_table_lock (r : resource) (w : option nat) : resource := Resource (fields r) (slots_ r) (readers r) (writer r) w.

(** ** Threads *)

(** Where a thread is.  A step that reads or writes a field is one access of an
    object that is not atomic: a run in which two of them conflict ([race] below)
    is undefined behaviour in the code, whatever the steps say.  [CheckAllowed] to [Called]: [dispatch_resource_handler] and
    [invoke_]; an empty slot answers 500.  [LockShared] to [Answered]:
    [get_allow_header] and the copy of what its reference refers to.  [LockTable]
    to [Registered]: [commit_handlers_to_shim], a [set_slot] per method. *)
Inductive thread : Type :=
| CheckAllowed (m : http_method)
| CallSlot (m : http_method)
| Called (m : http_method) (h : option nat)
| LockShared
| CompareShared
| UnlockShared (hit : bool)
| LockUnique
| CompareUnique
| Fill (live : method_set)
| UnlockUnique
| CopyHeader
| Answered (header : bytes)
| LockTable (ms : list http_method) (h : nat)
| WriteSlot (ms : list http_method) (h : nat)
| WriteMask (m : http_method) (ms : list http_method) (h : nat)
| Registered.

Definition fresh (f : resource_mask) : bool :=
  cached_allow_valid_ f && bool_decide (cached_allow_mask_ f = methods_allowed_ f).

Definition fill (f : resource_mask) (live : method_set) : resource_mask :=
  ResourceMask_ (methods_allowed_ f) (format_allow_header live) live true.

(** One step of thread [i], or none while it waits for a lock. *)
Definition advance (i : nat) (th : thread) (r : resource) : option (resource * thread) :=
  match th with
  | CheckAllowed m => Some (r, if is_allowed (fields r) m then CallSlot m else LockShared)
  | CallSlot m => Some (r, Called m (slots_ r m))
  | Called _ _ | Answered _ | Registered => None
  | LockShared => if decide (writer r = None) then Some (set_readers r ({[i]} ∪ readers r), CompareShared) else None
  | CompareShared => Some (r, UnlockShared (fresh (fields r)))
  | UnlockShared hit => Some (set_readers r (readers r ∖ {[i]}), if hit : bool then CopyHeader else LockUnique)
  | LockUnique =>
      if decide (writer r = None /\ readers r = ∅) then Some (set_writer r (Some i), CompareUnique) else None
  | CompareUnique => Some (r, if fresh (fields r) then UnlockUnique else Fill (methods_allowed_ (fields r)))
  | Fill live => Some (set_fields r (fill (fields r) live), UnlockUnique)
  | UnlockUnique => Some (set_writer r None, CopyHeader)
  | CopyHeader => Some (r, Answered (cached_allow_header_ (fields r)))
  | LockTable ms h => if decide (table_lock r = None) then Some (set_table_lock r (Some i), WriteSlot ms h) else None
  | WriteSlot [] h => Some (set_table_lock r None, Registered)
  | WriteSlot (m :: ms) h =>
      Some (set_slots r (fun m' => if decide (m' = m) then Some h else slots_ r m'), WriteMask m ms h)
  | WriteMask m ms h => Some (set_fields r (set_allowing (fields r) m true), WriteSlot ms h)
  end.

(** The accesses of the next step to fields that are not atomic, and whether each
    is a write. *)
Definition accesses (th : thread) : list (location * bool) :=
  match th with
  | CheckAllowed _ => [(MethodsAllowed, false)]
  | CallSlot m => [(Slot m, false)]
  | CompareShared | CompareUnique => [(MethodsAllowed, false); (CachedMaskAndValid, false)]
  | Fill _ => [(CachedHeader, true); (CachedMaskAndValid, true)]
  | CopyHeader => [(CachedHeader, false)]
  | WriteSlot (m :: _) _ => [(Slot m, true)]
  | WriteMask _ _ _ => [(MethodsAllowed, true)]
  | _ => []
  end.

Definition conflict (a b : thread) : Prop :=
  exists l w w', (l, w) ∈ accesses a /\ (l, w') ∈ accesses b /\ w || w' = true.

(** The threads of a server over one resource; [masks] are the masks it had and
    [installed] the handlers given to it. *)
Record system : Type := System {
  shared : resource;
  threads : list thread;
  masks : list method_set;
  installed : list (http_method * nat);
}.

(** Two threads about to access one field, one of them to write it. *)
Definition race (s : system) : Prop :=
  exists i j a b, i <> j /\ threads s !! i = Some a /\ threads s !! j = Some b /\ conflict a b.

Definition thread_installs (th : thread) : list (http_method * nat) :=
  match th with WriteSlot (m :: _) h => [(m, h)] | _ => [] end.

Inductive run_step : system -> system -> Prop :=
| run_thread s i th r' th' :
    threads s !! i = Some th -> advance i th (shared s) = Some (r', th') ->
    run_step s (System r' (<[i := th']> (threads s)) (methods_allowed_ (fields r') :: masks s) (thread_installs th ++ installed s)).

(** Threads begin with a request, or with a registration for methods that exist. *)
Definition is_request (th : thread) : Prop := exists m, th = CheckAllowed m.
Definition is_registration (th : thread) : Prop := exists ms h, th = LockTable ms h /\ count_ ∉ ms.

Section Steps.
Context (begins : thread -> Prop).

Inductive sys_step : system -> system -> Prop :=
| step_spawn s th : begins th -> sys_step s (System (shared s) (threads s ++ [th]) (masks s) (installed s))
| step_run s s' : run_step s s' -> sys_step s s'.

End Steps.

(** A resource at rest, with handlers for the methods it allows. *)
Definition at_rest (r : resource) : Prop :=
  readers r = ∅ /\ writer r = None /\ table_lock r = None
  /\ (cached_allow_valid_ (fields r) = true -> cached_allow_header_ (fields r) = format_allow_header (cached_allow_mask_ (fields r))).

Definition serves (r : resource) : Prop := forall m, is_allowed (fields r) m = true -> is_Some (slots_ r m).

Definition initial (r : resource) : system :=
  System r [] (methods_allowed_ (fields r) :: (if cached_allow_valid_ (fields r) then [cached_allow_mask_ (fields r)] else []))
    (omap (fun m => (fun h => (m, h)) <$> slots_ r m) [get; head; post; put; del; connect; options; trace; patch; count_]).

Definition finished (th : thread) : bool :=
  match th with Called _ _ | Answered _ | Registered => true | _ => false end.

End LiveResources.
Import LiveResources.

(** ** The locks *)

Definition in_shared (th : thread) : bool := match th with CompareShared | UnlockShared _ => true | _ => false end.
Definition in_unique (th : thread) : bool := match th with CompareUnique | Fill _ | UnlockUnique => true | _ => false end.
Definition in_table (th : thread) : bool := match th with WriteSlot _ _ | WriteMask _ _ _ => true | _ => false end.

Definition holds (f : thread -> bool) (ts : list thread) (k : nat) : Prop :=
  exists th, ts !! k = Some th /\ f th = true.

Record locks_ok (r : resource) (ts : list thread) : Prop := {
  lk_readers k : k ∈ readers r <-> holds in_shared ts k;
  lk_writer k : writer r = Some k <-> holds in_unique ts k;
  lk_table k : table_lock r = Some k <-> holds in_table ts k;
  lk_excl k : writer r = Some k -> readers r = ∅;
}.

Lemma holds_insert f ts i th th' k : ts !! i = Some th ->
  holds f (<[i := th']> ts) k <-> (k = i /\ f th' = true) \/ (k <> i /\ holds f ts k).
Proof.
  intros Hi. pose proof (lookup_lt_Some _ _ _ Hi) as Hlt. unfold holds. destruct (decide (k = i)) as [->|Hk].
  - rewrite list_lookup_insert_eq by done. naive_solver.
  - rewrite list_lookup_insert_ne by done. naive_solver.
Qed.

Lemma holds_at f ts i th : ts !! i = Some th -> holds f ts i <-> f th = true.
Proof. intros Hi. unfold holds. rewrite Hi. naive_solver. Qed.

Lemma holds_spawn f ts th k : f th = false -> holds f (ts ++ [th]) k <-> holds f ts k.
Proof.
  intros Hf. unfold holds. split; intros (th' & Hk & Ht); exists th'; split; try done.
  - apply lookup_app_Some in Hk as [Hk|[_ Hk]]; [done|]. apply list_lookup_singleton_Some in Hk as [_ <-]. congruence.
  - by apply lookup_app_l_Some.
Qed.

(** A step that leaves the lock of [f] alone keeps who holds it. *)
Lemma holds_same f ts i th th' k : ts !! i = Some th -> f th' = f th -> holds f (<[i := th']> ts) k <-> holds f ts k.
Proof.
  intros Hi Hf. rewrite (holds_insert f ts i th th' k Hi), Hf.
  destruct (decide (k = i)) as [->|Hk]; [rewrite (holds_at f ts i th Hi)|]; naive_solver.
Qed.

(** A thread that steps keeps every lock's record of its holders. *)
Lemma locks_step i th r r' th' ts :
  locks_ok r ts -> ts !! i = Some th -> advance i th r = Some (r', th') -> locks_ok r' (<[i := th']> ts).
Proof.
  intros [Hr Hw Ht He] Hi E.
  pose proof (Hr i) as Hri; pose proof (Hw i) as Hwi; pose proof (Ht i) as Hti.
  rewrite (holds_at _ ts i th Hi) in Hri. rewrite (holds_at _ ts i th Hi) in Hwi. rewrite (holds_at _ ts i th Hi) in Hti.
  destruct th as [m|m|m h| | |hit| | |live| | |hd|[|m ms] h|[|m ms] h|m ms h|]; cbn [advance] in E; try case_decide; simplify_eq;
    constructor; intros k; cbn [readers writer table_lock set_readers set_writer set_table_lock set_fields set_slots] in *;
    try (rewrite (holds_insert _ ts i _ _ k Hi), <- ?Hr, <- ?Hw, <- ?Ht); cbn in Hri, Hwi, Hti;
    try (destruct (is_allowed _ _)); try (destruct hit); try (destruct (fresh _)); cbn;
    destruct (decide (k = i)) as [->|Hk];
    first [ clear Hr Hw Ht He; rewrite ?elem_of_union, ?elem_of_difference, ?elem_of_singleton; intuition congruence
          | intros Hz; specialize (He _ Hz); set_solver ].
Qed.

Lemma locks_spawn r ts th : in_shared th = false -> in_unique th = false -> in_table th = false ->
  locks_ok r ts -> locks_ok r (ts ++ [th]).
Proof. intros H1 H2 H3 [Hr Hw Ht He]. constructor; intros k; rewrite ?holds_spawn by done; first [apply Hr|apply Hw|apply Ht|apply He]. Qed.

(** ** What a thread knows *)

Definition knows (f : resource_mask) (slots : http_method -> option nat) (ms : list method_set) (inst : list (http_method * nat)) (th : thread) : Prop :=
  match th with
  | CallSlot m => is_Some (slots m)
  | Called m o => exists h, o = Some h /\ (m, h) ∈ inst
  | UnlockShared true | UnlockUnique | CopyHeader => cached_allow_valid_ f = true
  | Fill live => live ∈ ms
  | Answered hdr => exists live, live ∈ ms /\ hdr = format_allow_header live
  | LockTable l _ | WriteSlot l _ => count_ ∉ l
  | WriteMask m l _ => m <> count_ /\ is_Some (slots m) /\ count_ ∉ l
  | _ => True
  end.

Definition cache_known (f : resource_mask) (ms : list method_set) : Prop :=
  cached_allow_valid_ f = true -> cached_allow_header_ f = format_allow_header (cached_allow_mask_ f) /\ cached_allow_mask_ f ∈ ms.

Record live_ok (s : system) : Prop := {
  lv_locks : locks_ok (shared s) (threads s);
  lv_mask : methods_allowed_ (fields (shared s)) ∈ masks s;
  lv_cache : cache_known (fields (shared s)) (masks s);
  lv_serves : serves (shared s);
  lv_installed m h : slots_ (shared s) m = Some h -> (m, h) ∈ installed s;
  lv_knows i th : threads s !! i = Some th -> knows (fields (shared s)) (slots_ (shared s)) (masks s) (installed s) th;
}.

(** What a thread knows survives the steps of the others. *)
Lemma knows_mono f f' sl sl' ms ms' l l' th :
  (cached_allow_valid_ f = true -> cached_allow_valid_ f' = true) ->
  (forall m, is_Some (sl m) -> is_Some (sl' m)) -> ms ⊆ ms' -> l ⊆ l' ->
  knows f sl ms l th -> knows f' sl' ms' l' th.
Proof.
  intros Hv Hs Hm Hl. destruct th as [m|m|m h| | |[]| | |live| | |hd|? h|? h|m ? h|]; cbn [knows]; try done; eauto; set_solver.
Qed.

Lemma set_allowing_cache f m b :
  cached_allow_valid_ (set_allowing f m b) = cached_allow_valid_ f
  /\ cached_allow_header_ (set_allowing f m b) = cached_allow_header_ f
  /\ cached_allow_mask_ (set_allowing f m b) = cached_allow_mask_ f.
Proof. unfold set_allowing. case_decide; [done|]. by destruct b. Qed.

(** What one step does to the fields, for the invariant. *)
Lemma advance_ok i th r r' th' ms inst :
  advance i th r = Some (r', th') -> knows (fields r) (slots_ r) ms inst th -> cache_known (fields r) ms -> methods_allowed_ (fields r) ∈ ms ->
  serves r -> (forall m h, slots_ r m = Some h -> (m, h) ∈ inst) ->
  let ms' := methods_allowed_ (fields r') :: ms in
  let inst' := thread_installs th ++ inst in
  cache_known (fields r') ms' /\ serves r' /\ (forall m h, slots_ r' m = Some h -> (m, h) ∈ inst')
  /\ knows (fields r') (slots_ r') ms' inst' th'
  /\ (cached_allow_valid_ (fields r) = true -> cached_allow_valid_ (fields r') = true)
  /\ (forall m, is_Some (slots_ r m) -> is_Some (slots_ r' m)).
Proof.
  intros E Hk Hc Hin Hs Hi.
  assert (Hc' : forall x, cache_known (fields r) (x :: ms)) by (intros x Hx; destruct (Hc Hx); set_solver).
  destruct th as [m|m|m h| | |hit| | |live| | |hd|l h|[|m l] h|m l h|]; cbn [advance] in E; try case_decide; simplify_eq;
    cbn [fields slots_ set_readers set_writer set_table_lock set_fields set_slots thread_installs app knows] in *; try (by split_and?; auto).
  - split_and?; auto; try (by apply Hc'). destruct (is_allowed _ _) eqn:Ea; [by apply Hs|done].
  - destruct Hk as [h Hh]. split_and?; auto; try (by apply Hc'). rewrite Hh. eauto.
  - split_and?; auto; try (by apply Hc'). destruct (fresh _) eqn:Ef; [|done]. by apply andb_true_iff in Ef as [? _].
  - split_and?; auto; try (by apply Hc'). by destruct hit.
  - split_and?; auto; try (by apply Hc'). destruct (fresh _) eqn:Ef; [by apply andb_true_iff in Ef as [? _]|set_solver].
  - split_and?; auto. intros _. cbn. set_solver.
  - split_and?; auto; try (by apply Hc'). destruct (Hc Hk) as [-> Hm]. eexists. split; [right; exact Hm|done].
  - split_and?; auto; try (by apply Hc').
    + intros x Hx. cbn. case_decide; [by eexists|by apply Hs].
    + intros x k. case_decide; [intros [= <-]; set_solver|]. intros Hx. apply Hi in Hx. set_solver.
    + set_solver.
    + by rewrite decide_True.
    + set_solver.
    + intros x Hx. case_decide; [by eexists|done].
  - destruct Hk as (Hm & Hsm & Hl). destruct (set_allowing_cache (fields r) m true) as (V & H & M). split_and?; auto.
    + intros Hx. rewrite H, M. apply Hc'. congruence.
    + intros x. cbn. unfold set_allowing. rewrite decide_False by done. unfold is_allowed. cbn. rewrite contains_set.
      intros [Hx|Hx]%orb_true_iff; [by apply Hs|]. apply bool_decide_eq_true in Hx as <-. done.
    + congruence.
Qed.

Lemma run_ok s s' : run_step s s' -> live_ok s -> live_ok s'.
Proof.
  intros [t i th r' th' Hth E] [HL HM HC HS HI HK].
  destruct (advance_ok _ _ _ _ _ _ _ E (HK _ _ Hth) HC HM HS HI) as (C & S & I & K & V & G).
  constructor; cbn [shared threads masks installed]; auto.
  - by eapply locks_step.
  - by left.
  - intros k x Hx. destruct (decide (k = i)) as [->|Hk].
    + rewrite list_lookup_insert_eq in Hx by (by eapply lookup_lt_Some). by simplify_eq.
    + rewrite list_lookup_insert_ne in Hx by done. eapply knows_mono; [exact V|exact G| | |by eapply HK]; set_solver.
Qed.

Definition request_or_registration (th : thread) : Prop := is_request th \/ is_registration th.

(** A thread that begins holds nothing. *)
Lemma begins_free th : request_or_registration th ->
  in_shared th = false /\ in_unique th = false /\ in_table th = false /\ forall f sl ms l, knows f sl ms l th.
Proof. by intros [(m & ->)|(ms & h & -> & Hc)]. Qed.

Lemma spawn_ok s th : request_or_registration th -> live_ok s -> live_ok (System (shared s) (threads s ++ [th]) (masks s) (installed s)).
Proof.
  intros (H1 & H2 & H3 & H4)%begins_free [HL HM HC HS HI HK]. constructor; cbn [shared threads masks installed]; auto using locks_spawn.
  intros i x [Hx|[_ Hx]]%lookup_app_Some; [by eapply HK|]. by apply list_lookup_singleton_Some in Hx as [_ <-].
Qed.

Lemma initial_ok r : at_rest r -> serves r -> live_ok (initial r).
Proof.
  intros (Hr & Hw & Ht & Hc) Hs. constructor; cbn [initial shared threads masks installed]; auto; try done.
  - constructor; intros k; rewrite ?Hr, ?Hw, ?Ht; try done.
    1: split; [set_solver|]. all: try (split; [done|]). all: by intros (? & ? & _).
  - by left.
  - intros Hv. rewrite Hv. split; [by apply Hc|]. right. by left.
  - intros m h Hm. apply list_elem_of_omap. exists m. split; [destruct m; apply (bool_decide_unpack _); by vm_compute|]. by rewrite Hm.
Qed.

(** ** Progress *)

(** The steps a thread has left, at most. *)
Definition thread_work (th : thread) : nat :=
  match th with
  | CheckAllowed _ => 9
  | CallSlot _ => 1
  | LockShared => 8
  | CompareShared => 7
  | UnlockShared _ => 6
  | LockUnique => 5
  | CompareUnique => 4
  | Fill _ => 3
  | UnlockUnique => 2
  | CopyHeader => 1
  | LockTable ms _ => 2 + 2 * length ms
  | WriteSlot ms _ => 1 + 2 * length ms
  | WriteMask _ ms _ => 2 + 2 * length ms
  | Called _ _ | Answered _ | Registered => 0
  end.

Definition work (s : system) : nat := sum_list (thread_work <$> threads s).

Lemma advance_work i th r r' th' : advance i th r = Some (r', th') -> thread_work th' < thread_work th.
Proof.
  destruct th as [m|m|m h| | |hit| | |live| | |hd|l h|[|m l] h|m l h|]; cbn [advance]; intros E; try case_decide; simplify_eq; cbn;
    try (destruct (is_allowed _ _)); try (destruct hit); try (destruct (fresh _)); cbn; lia.
Qed.

Lemma sum_insert (l : list nat) i x y : l !! i = Some x -> y < x -> sum_list (<[i := y]> l) < sum_list l.
Proof.
  revert i. induction l as [|z l IH]; intros [|i] Hi Hxy; cbn in Hi |- *; simplify_eq.
  - by apply Nat.add_lt_mono_r.
  - by apply Nat.add_lt_mono_l, IH.
Qed.

Lemma run_work s s' : run_step s s' -> work s' < work s.
Proof.
  intros [t i th r' th' Hth E]. unfold work. cbn [threads]. rewrite list_fmap_insert.
  eapply sum_insert; [by rewrite list_lookup_fmap, Hth|]. by eapply advance_work.
Qed.

Lemma nsteps_work n s s' : nsteps run_step n s s' -> n + work s' <= work s.
Proof. induction 1 as [|n x y z Hxy _ IH]; [lia|]. apply run_work in Hxy. lia. Qed.

(** A thread that waits, waits for one that can step. *)
Lemma live_progress s i th : live_ok s -> threads s !! i = Some th -> finished th = false -> exists s', run_step s s'.
Proof.
  intros [HL _ _ _ _ _] Hth Hf.
  assert (Hstep : forall j x, threads s !! j = Some x -> is_Some (advance j x (shared s)) -> exists s', run_step s s').
  { intros j x Hx [[r' x'] E]. eexists. by econstructor. }
  assert (Hu : forall k, writer (shared s) = Some k -> exists s', run_step s s').
  { intros k Hk. apply (lk_writer _ _ HL) in Hk as (x & Hx & Hin). apply (Hstep k x Hx). by destruct x. }
  destruct th as [m|m|m h| | |hit| | |live| | |hd|l h|[|m l] h|m l h|]; try done; try (apply (Hstep i _ Hth); done).
  - destruct (writer (shared s)) as [k|] eqn:Ew; [by apply (Hu k)|]. apply (Hstep i _ Hth). cbn. by rewrite Ew.
  - destruct (writer (shared s)) as [k|] eqn:Ew; [by apply (Hu k)|].
    destruct (decide (readers (shared s) = ∅)) as [Er|Er].
    + apply (Hstep i _ Hth). cbn. by rewrite decide_True.
    + apply set_choose_L in Er as [k Hk]. apply (lk_readers _ _ HL) in Hk as (x & Hx & Hin). apply (Hstep k x Hx). by destruct x.
  - destruct (table_lock (shared s)) as [k|] eqn:Ew.
    + apply (lk_table _ _ HL) in Ew as (x & Hx & Hin). apply (Hstep k x Hx). by destruct x as [| | | | | | | | | | | | |[|]| |].
    + apply (Hstep i _ Hth). cbn. by rewrite Ew.
Qed.

Lemma all_finished_or ts : Forall (fun th => finished th = true) ts \/ exists i th, ts !! i = Some th /\ finished th = false.
Proof.
  destruct (decide (Forall (fun th => finished th = true) ts)) as [|Hn]; [by left|right].
  apply (not_Forall_Exists _) in Hn. apply Exists_exists in Hn as (th & Hin & Hf). apply list_elem_of_lookup in Hin as [i Hi].
  exists i, th. split; [done|]. by apply not_true_is_false.
Qed.

(** From every reachable state the threads can all run to their end. *)
Lemma live_drains s : live_ok s -> exists s', rtc run_step s s' /\ Forall (fun th => finished th = true) (threads s').
Proof.
  remember (work s) as n eqn:Hn. revert s Hn. induction (lt_wf n) as [n _ IH]. intros s -> Hs.
  destruct (all_finished_or (threads s)) as [Hf|(i & th & Hth & Hf)]; [by exists s|].
  destruct (live_progress s i th Hs Hth Hf) as [s1 H1].
  destruct (IH (work s1) (run_work _ _ H1) s1 eq_refl (run_ok _ _ H1 Hs)) as (s2 & H2 & Hall).
  exists s2. split; [by eapply rtc_l|done].
Qed.

(** A resource that serves GET. *)
Definition get_resource : resource :=
  Resource (set_allowing (disallow_all new_resource) get true) (fun m => if decide (m = get) then Some 7 else None) ∅ None None.

Lemma get_resource_ok : at_rest get_resource /\ serves get_resource.
Proof. split; [done|]. intros m. by destruct m; vm_compute; eauto. Qed.

(** The steps of the threads of a schedule, after the given threads began. *)
Fixpoint play (sched : list nat) (s : system) : option system :=
  match sched with
  | [] => Some s
  | i :: sched =>
      th ← threads s !! i;
      '(r', th') ← advance i th (shared s);
      play sched (System r' (<[i := th']> (threads s)) (methods_allowed_ (fields r') :: masks s) (thread_installs th ++ installed s))
  end.

Lemma live_play_steps begins sched s s' : play sched s = Some s' -> rtc (sys_step begins) s s'.
Proof.
  revert s. induction sched as [|i sched IH]; intros s E; cbn in E; [by simplify_eq|].
  destruct (threads s !! i) as [th|] eqn:Hi; [|done]. cbn in E. destruct (advance i th (shared s)) as [[r' th']|] eqn:Ha; [|done].
  eapply rtc_l; [|by apply IH]. by apply step_run, run_thread.
Qed.

Definition spawned (ths : list thread) (s : system) : system := System (shared s) (threads s ++ ths) (masks s) (installed s).

Lemma spawn_steps (begins : thread -> Prop) ths s : Forall begins ths -> rtc (sys_step begins) s (spawned ths s).
Proof.
  intros H. revert s. induction H as [|th ths Hth _ IH]; intros s; unfold spawned.
  - rewrite app_nil_r. by destruct s.
  - eapply rtc_l; [by apply step_spawn|]. specialize (IH (System (shared s) (threads s ++ [th]) (masks s) (installed s))).
    unfold spawned in IH. cbn in IH. by rewrite <- app_assoc in IH.
Qed.

Lemma schedule_steps (begins : thread -> Prop) ths sched r s :
  Forall begins ths -> play sched (spawned ths (initial r)) = Some s -> rtc (sys_step begins) (initial r) s.
Proof. intros Hb Hp. etrans; [by apply spawn_steps|by eapply live_play_steps]. Qed.

(** The steps of a request with nothing in between are [get_allow_header]. *)
Lemma lone_request r m : at_rest r ->
  if is_allowed (fields r) m
  then exists s, play (repeat 0 2) (spawned [CheckAllowed m] (initial r)) = Some s /\ threads s = [Called m (slots_ r m)]
  else exists n s, play (repeat 0 n) (spawned [CheckAllowed m] (initial r)) = Some s
    /\ threads s = [Answered (snd (get_allow_header (fields r)))] /\ fields (shared s) = fst (get_allow_header (fields r)).
Proof.
  intros (Hr & Hw & _ & _). destruct (is_allowed (fields r) m) eqn:Ea.
  - cbn. rewrite Ea. cbn. eexists. split; reflexivity.
  - destruct (fresh (fields r)) eqn:Ef.
    + exists 5. cbn -[fresh]. rewrite Ea. cbn -[fresh]. rewrite decide_True by done. cbn -[fresh]. rewrite Ef. cbn -[fresh].
      eexists. split; [reflexivity|]. unfold get_allow_header. unfold fresh in Ef. by rewrite Ef.
    + exists 9. cbn -[fresh]. rewrite Ea. cbn -[fresh]. rewrite decide_True by done. cbn -[fresh]. rewrite Ef. cbn -[fresh].
      rewrite decide_True by (split; [done|]; rewrite Hr; set_solver). cbn -[fresh]. rewrite Ef. cbn -[fresh].
      eexists. split; [reflexivity|]. unfold get_allow_header. unfold fresh in Ef. rewrite Ef.
      apply andb_false_iff in Ef as [->| ->]; cbn; rewrite ?orb_true_r; done.
Qed.

(** ** Without registrations *)

(** What a request knows while the mask stays [live0]. *)
Definition quiet_knows (live0 : method_set) (f : resource_mask) (th : thread) : Prop :=
  match th with
  | UnlockShared true | UnlockUnique | CopyHeader => fresh f = true
  | Fill live => fresh f = false /\ live = live0
  | Answered text => text = format_allow_header live0
  | LockTable _ _ | WriteSlot _ _ | WriteMask _ _ _ | Registered => False
  | _ => True
  end.

Record quiet (live0 : method_set) (s : system) : Prop := {
  qu_live : live_ok s;
  qu_mask : methods_allowed_ (fields (shared s)) = live0;
  qu_knows i th : threads s !! i = Some th -> quiet_knows live0 (fields (shared s)) th;
}.

Lemma fresh_header f ms : fresh f = true -> cache_known f ms -> cached_allow_header_ f = format_allow_header (methods_allowed_ f).
Proof. intros [Hv Hm%bool_decide_eq_true]%andb_true_iff Hc. destruct (Hc Hv) as [-> _]. by rewrite Hm. Qed.

(** A step of a request fills a cache that was not fresh, or leaves the fields. *)
Lemma advance_quiet i th r r' th' live0 ms :
  advance i th r = Some (r', th') -> quiet_knows live0 (fields r) th -> methods_allowed_ (fields r) = live0 -> cache_known (fields r) ms ->
  methods_allowed_ (fields r') = live0 /\ quiet_knows live0 (fields r') th'
  /\ (fields r' = fields r \/ in_unique th = true /\ fresh (fields r') = true).
Proof.
  intros E Hk <- Hc. destruct th as [m|m|m h| | |hit| | |live| | |hd|l h|[|m l] h|m l h|]; cbn [advance] in E; try case_decide; simplify_eq;
    cbn [quiet_knows fields set_readers set_writer set_fields] in *; try done; split_and?; auto.
  - by destruct (is_allowed _ _).
  - by destruct (fresh _) eqn:Ef.
  - by destruct hit.
  - by destruct (fresh _) eqn:Ef.
  - destruct Hk as [_ ->]. unfold fresh. cbn. by rewrite bool_decide_true.
  - destruct Hk as [_ ->]. right. split; [done|]. unfold fresh. cbn. by rewrite bool_decide_true.
  - by eapply fresh_header.
Qed.

Lemma run_quiet live0 s s' : run_step s s' -> quiet live0 s -> quiet live0 s'.
Proof.
  intros Hrun [HL HM HK]. pose proof (run_ok _ _ Hrun HL) as HL'. destruct Hrun as [t i th r' th' Hth E].
  destruct (advance_quiet _ _ _ _ _ _ _ E (HK _ _ Hth) HM (lv_cache _ HL)) as (M & K & F).
  constructor; [done|done|]. cbn [shared threads]. intros k x Hx. destruct (decide (k = i)) as [->|Hk].
  - rewrite list_lookup_insert_eq in Hx by (by eapply lookup_lt_Some). by simplify_eq.
  - rewrite list_lookup_insert_ne in Hx by done. pose proof (HK _ _ Hx) as Kx. destruct F as [->|[Hu Hf]]; [done|].
    assert (Hw : in_unique x = true -> False).
    { intros Hx'. apply Hk. pose proof (lv_locks _ HL) as [_ Lw _ _].
      assert (writer (shared t) = Some i) by (apply Lw; by exists th).
      assert (writer (shared t) = Some k) by (apply Lw; by exists x). congruence. }
    destruct x as [| | | | |[]| | | | | | | | | |]; try done.
Qed.

Lemma reachable_quiet r s : at_rest r -> serves r -> rtc (sys_step is_request) (initial r) s -> quiet (methods_allowed_ (fields r)) s.
Proof.
  intros Hr Hs Hst. eapply (rtc_ind_r (quiet _)); [| |exact Hst].
  - constructor; [by apply initial_ok|done|]. by intros i th Hi.
  - intros x y _ [z th Hb|? ? Hb] Hx; [|by eapply run_quiet]. destruct Hx as [HL HM HK].
    constructor; [apply spawn_ok; [by left|done]|done|]. cbn. intros i v [Hz|[_ Hz]]%lookup_app_Some; [by eapply HK|].
    apply list_lookup_singleton_Some in Hz as [_ <-]. by destruct Hb as [m ->].
Qed.

(** Only a thread that fills the cache writes. *)
Lemma quiet_writes live0 f th l : quiet_knows live0 f th -> (l, true) ∈ accesses th ->
  (exists live, th = Fill live) /\ (l = CachedHeader \/ l = CachedMaskAndValid).
Proof. destruct th as [m|m|m h| | |hit| | |live| | |hd|? h|[|m ?] h|m ? h|]; cbn; try done; intros _ Hl; set_solver. Qed.

Lemma quiet_no_conflict live0 s i j a b l w :
  quiet live0 s -> i <> j -> threads s !! i = Some a -> threads s !! j = Some b -> (l, true) ∈ accesses a -> (l, w) ∈ accesses b -> False.
Proof.
  intros [HL _ HK] Hij Ha Hb La Lb.
  destruct (quiet_writes _ _ _ _ (HK _ _ Ha) La) as [[live ->] Hl]. destruct (lv_locks _ HL) as [Lr Lw _ Le].
  assert (W : writer (shared s) = Some i) by (apply Lw; by exists (Fill live)).
  assert (Hu : in_unique b = true -> False).
  { intros Hb'. apply Hij. assert (writer (shared s) = Some j) by (apply Lw; by exists b). congruence. }
  assert (Hs : in_shared b = true -> False).
  { intros Hb'. assert (Hj : j ∈ readers (shared s)) by (apply Lr; by exists b). rewrite (Le _ W) in Hj. set_solver. }
  pose proof (HK _ _ Ha) as [Hf _]. pose proof (HK _ _ Hb) as Kb.
  destruct b as [m|m|m h| | |hit| | |live'| | |hd|? h|[|m ?] h|m ? h|]; cbn in *; try set_solver.
Qed.

(** The handlers stay, and a request calls that of its method. *)
Record routed (r : resource) (s : system) : Prop := {
  rt_slots : slots_ (shared s) = slots_ r;
  rt_allowed i m : threads s !! i = Some (CallSlot m) -> is_allowed (fields r) m = true;
  rt_called i m o : threads s !! i = Some (Called m o) -> is_allowed (fields r) m = true /\ o = slots_ r m;
}.

Lemma advance_slots i th r r' th' : advance i th r = Some (r', th') -> (forall m l h, th <> WriteSlot (m :: l) h) -> slots_ r' = slots_ r.
Proof.
  intros E Hn. destruct th as [m|m|m h| | |hit| | |live| | |hd|l h|[|m l] h|m l h|]; cbn [advance] in E; try case_decide; simplify_eq; try done.
  by destruct (Hn m l h).
Qed.

Lemma is_allowed_mask f f' m : methods_allowed_ f = methods_allowed_ f' -> is_allowed f m = is_allowed f' m.
Proof. unfold is_allowed. by intros ->. Qed.

Lemma run_routed_request r s s' : run_step s s' -> quiet (methods_allowed_ (fields r)) s -> routed r s -> routed r s'.
Proof.
  intros Hrun [_ HM HK] [RS RA RC]. destruct Hrun as [t i th r' th' Hth E]. pose proof (HK _ _ Hth) as Kth.
  assert (Hn : forall m l h, th <> WriteSlot (m :: l) h) by (intros m l h ->; by destruct Kth).
  pose proof (advance_slots _ _ _ _ _ E Hn) as Hs.
  assert (Hth' : match th' with CallSlot m => is_allowed (fields r) m = true | Called m o => is_allowed (fields r) m = true /\ o = slots_ r m | _ => True end).
  { destruct th as [m|m|m h| | |hit| | |live| | |hd|l h|[|m l] h|m l h|]; cbn [advance] in E; try case_decide; simplify_eq; try done.
    - destruct (is_allowed (fields (shared t)) m) eqn:Ea; [|done]. by rewrite <- Ea; apply is_allowed_mask.
    - split; [by eapply RA|by rewrite RS].
    - by destruct hit.
    - by destruct (fresh _). }
  constructor; cbn [shared threads]; [by rewrite Hs| |]; intros k; [intros m Hk|intros m o Hk];
    (destruct (decide (k = i)) as [->|Hne];
     [rewrite list_lookup_insert_eq in Hk by (by eapply lookup_lt_Some); by injection Hk as ->
     |rewrite list_lookup_insert_ne in Hk by done; eauto]).
Qed.

Lemma reachable_routed r s : at_rest r -> serves r -> rtc (sys_step is_request) (initial r) s -> routed r s.
Proof.
  intros Hr Hs Hst. enough (quiet (methods_allowed_ (fields r)) s /\ routed r s) by tauto.
  eapply (rtc_ind_r (fun s => quiet (methods_allowed_ (fields r)) s /\ routed r s)); [| |exact Hst].
  - split; [by apply reachable_quiet; [..|apply rtc_refl]|]. by constructor; [|intros i m Hi|intros i m o Hi].
  - intros x y Hx Hxy [HQ HR]. split; [apply reachable_quiet; [done..|by eapply rtc_r]|].
    destruct Hxy as [z th Hb|? ? Hb]; [|by eapply run_routed_request]. destruct HR as [RS RA RC], Hb as [n ->].
    constructor; cbn [shared threads]; [done| |]; intros k; [intros m Hk|intros m o Hk];
      (apply lookup_app_Some in Hk as [Hk|[_ Hk]]; [eauto|apply list_lookup_singleton_Some in Hk as [_ Hk]; done]).
Qed.



(** C16: Requests alone, any number of them at once, never race on a resource: no
    two of them are ever about to access one field, one to write it, although
    [get_allow_header] returns a reference that is read after its lock is
    released.  Every 405 carries exactly the methods the resource allows. *)
Theorem requests_never_race r s :
  at_rest r -> serves r -> rtc (sys_step is_request) (initial r) s ->
  ~ race s
  /\ forall i text, threads s !! i = Some (Answered text) -> text = format_allow_header (methods_allowed_ (fields r)).
Proof.
  intros Hr Hs Hst. pose proof (reachable_quiet r s Hr Hs Hst) as H. split.
  - intros (i & j & a & b & Hij & Ha & Hb & l & w & w' & Hl & Hl' & Hw). destruct w.
    + by eapply (quiet_no_conflict _ s i j).
    + cbn in Hw. subst. by eapply (quiet_no_conflict _ s j i).
  - intros i text Hi. exact (qu_knows _ _ H _ _ Hi).
Qed.

Lemma requests_never_race_witness :
  exists s, rtc (sys_step is_request) (initial get_resource) s
    /\ threads s = [Answered (bs "GET"); Called get (Some 7)] /\ ~ race s
    /\ (forall i text, threads s !! i = Some (Answered text) -> text = format_allow_header (methods_allowed_ (fields get_resource))).
Proof.
  assert (Hp : exists s, play [0; 1; 0; 0; 0; 0; 0; 0; 0; 0; 1] (spawned [CheckAllowed post; CheckAllowed get] (initial get_resource)) = Some s
    /\ threads s = [Answered (bs "GET"); Called get (Some 7)]).
  { eexists. split; vm_compute; reflexivity. }
  destruct Hp as (s & Hp & Ht).
  assert (Hst : rtc (sys_step is_request) (initial get_resource) s).
  { eapply schedule_steps; [|exact Hp]. constructor; [by eexists|]. constructor; [by eexists|done]. }
  exists s. destruct get_resource_ok as [Hr Hs]. split; [exact Hst|]. split; [exact Ht|]. exact (requests_never_race get_resource s Hr Hs Hst).
Defined.

(** A registration on the resource of a running server races: with a request
    that tests the mask, and, since the new method makes the cached text stale, a
    later 405 rewrites it while an earlier one reads it after its lock. *)
Lemma registrations_race :
  (exists s, rtc (sys_step request_or_registration) (initial get_resource) s
     /\ threads s !! 0 = Some (CheckAllowed put) /\ threads s !! 1 = Some (WriteMask post [] 8) /\ race s)
  /\ (exists s, rtc (sys_step request_or_registration) (initial get_resource) s
     /\ threads s !! 0 = Some CopyHeader /\ threads s !! 2 = Some (Fill (set (methods_allowed_ (fields get_resource)) post)) /\ race s).
Proof.
  set (ths := [CheckAllowed put; LockTable [post] 8; CheckAllowed del]).
  assert (Hb : Forall request_or_registration ths).
  { constructor; [left; by eexists|]. constructor; [right; exists [post], 8; split; [done|set_solver]|]. constructor; [left; by eexists|done]. }
  assert (H1 : exists s, play [1; 1] (spawned ths (initial get_resource)) = Some s
    /\ threads s !! 0 = Some (CheckAllowed put) /\ threads s !! 1 = Some (WriteMask post [] 8)).
  { eexists. split_and!; vm_compute; reflexivity. }
  assert (H2 : exists s, play (repeat 0 8 ++ repeat 1 4 ++ repeat 2 6) (spawned ths (initial get_resource)) = Some s
    /\ threads s !! 0 = Some CopyHeader /\ threads s !! 2 = Some (Fill (set (methods_allowed_ (fields get_resource)) post))).
  { eexists. split_and!; vm_compute; reflexivity. }
  destruct H1 as (s1 & P1 & A1 & B1), H2 as (s2 & P2 & A2 & B2). split; [exists s1|exists s2].
  - split; [exact (schedule_steps _ _ _ _ _ Hb P1)|]. split; [exact A1|]. split; [exact B1|].
    exists 0, 1. do 2 eexists. split; [done|]. split; [exact A1|]. split; [exact B1|]. exists MethodsAllowed, false, true. repeat split; by left.
  - split; [exact (schedule_steps _ _ _ _ _ Hb P2)|]. split; [exact A2|]. split; [exact B2|].
    exists 0, 2. do 2 eexists. split; [done|]. split; [exact A2|]. split; [exact B2|]. exists CachedHeader, false, true. repeat split; by left.
Qed.
