(* ===== verification/Cookie.v ===== *)
(** * Cookies

    [cookie.cpp]: the validating setters, the [Set-Cookie] renderer with its
    date formatter, and the [Cookie] header parser. *)

From S2P Require Import Prelude HttpUtils.

Module Cookie.

(** [char] constants the validators reject everywhere: CR, LF, NUL. *)
Definition kForbiddenCtrlChars : bytes := [CR; LF; NUL].

Definition is_invalid_name_byte (c : ascii) : bool :=
  (code c <=? 0x20)%Z || (code c =? 0x7f)%Z || ascii_eqb c ";" || ascii_eqb c "=".

Definition validate_name (v ctx : bytes) : outcome unit :=
  if existsb is_invalid_name_byte v then
    Throw (invalid_argument (ctx ++ bs ": name contains forbidden character (CR, LF, NUL, whitespace, ';', '=', or other control)"))
  else Ok ().

Definition validate_value (v ctx : bytes) : outcome unit :=
  if contains_any kForbiddenCtrlChars v || bool_decide (is_Some (find_char ";" v)) then
    Throw (invalid_argument (ctx ++ bs ": value contains forbidden character (CR, LF, NUL, or ';')"))
  else Ok ().

Definition validate_attr_param (setter v : bytes) : outcome unit :=
  if contains_any kForbiddenCtrlChars v then
    Throw (invalid_argument (setter ++ bs ": attribute value contains forbidden control character (CR, LF, or NUL)"))
  else if bool_decide (is_Some (find_char ";" v)) then
    Throw (invalid_argument (setter ++ bs ": attribute value contains forbidden character (';')"))
  else if bool_decide (is_Some (find_char "," v)) then
    Throw (invalid_argument (setter ++ bs ": attribute value contains forbidden character (','); commas can split Set-Cookie headers in legacy HTTP/1.0 parsers"))
  else Ok ().

(** ** Dates *)

(** [struct tm], the fields the formatter reads. *)
Record tm : Type := Tm {
  tm_sec : Z; tm_min : Z; tm_hour : Z; tm_mday : Z; tm_mon : Z; tm_year : Z; tm_wday : Z;
}.

Definition INT_MAX : Z := (2 ^ 31 - 1)%Z.
Definition INT_MIN : Z := (- 2 ^ 31)%Z.

(** [gmtime_r]: the proleptic Gregorian date of a number of seconds; when the
    year does not fit an [int] the call fails and [tm] stays zero. *)
Definition gmtime (t : Z) : tm :=
  let days := (t / 86400)%Z in
  let secs := (t mod 86400)%Z in
  let z := (days + 719468)%Z in
  let era := (z / 146097)%Z in
  let doe := (z mod 146097)%Z in
  let yoe := ((doe - doe / 1460 + doe / 36524 - doe / 146096) / 365)%Z in
  let doy := (doe - (365 * yoe + yoe / 4 - yoe / 100))%Z in
  let mp := ((5 * doy + 2) / 153)%Z in
  let d := (doy - (153 * mp + 2) / 5 + 1)%Z in
  let m := (if mp <? 10 then mp + 3 else mp - 9)%Z in
  let y := (yoe + era * 400 + (if m <=? 2 then 1 else 0))%Z in
  let tm_year := (y - 1900)%Z in
  if ((INT_MIN <=? tm_year) && (tm_year <=? INT_MAX))%Z
  then Tm (secs mod 60) (secs / 60 mod 60) (secs / 3600) d (m - 1) tm_year ((days + 4) mod 7)
  else Tm 0 0 0 0 0 0 0.

(** [%0<w>d]: the sign counts. *)
Definition pad_dec (w : nat) (z : Z) : bytes :=
  if (z <? 0)%Z then
    let ds := dec (- z) in bs "-" ++ replicate (w - 1 - length ds) "0"%char ++ ds
  else let ds := dec z in replicate (w - length ds) "0"%char ++ ds.

(** [std::to_string] of an [int64_t] *)
Definition to_string_int (z : Z) : bytes := pad_dec 0 z.

Definition kDayNames : list bytes :=
  [bs "Sun"; bs "Mon"; bs "Tue"; bs "Wed"; bs "Thu"; bs "Fri"; bs "Sat"].

Definition kMonthNames : list bytes :=
  [bs "Jan"; bs "Feb"; bs "Mar"; bs "Apr"; bs "May"; bs "Jun";
   bs "Jul"; bs "Aug"; bs "Sep"; bs "Oct"; bs "Nov"; bs "Dec"].

(** [tm_year + 1900] is [int] arithmetic; [snprintf] keeps 39 bytes. *)
Definition format_imf_fixdate (epoch_seconds : Z) : outcome bytes :=
  let t := gmtime epoch_seconds in
  let wday := if ((0 <=? tm_wday t) && (tm_wday t <? 7))%Z then tm_wday t else 0%Z in
  let mon := if ((0 <=? tm_mon t) && (tm_mon t <? 12))%Z then tm_mon t else 0%Z in
  if (INT_MAX <? tm_year t + 1900)%Z then Undefined
  else
    let year := (tm_year t + 1900)%Z in
    let line := default [] (kDayNames !! Z.to_nat wday) ++ bs ", " ++ pad_dec 2 (tm_mday t) ++ bs " "
      ++ default [] (kMonthNames !! Z.to_nat mon) ++ bs " " ++ pad_dec 4 year ++ bs " "
      ++ pad_dec 2 (tm_hour t) ++ bs ":" ++ pad_dec 2 (tm_min t) ++ bs ":" ++ pad_dec 2 (tm_sec t)
      ++ bs " GMT" in
    Ok (take 39 line).

(** ** The cookie *)

Inductive same_site_mode : Type := unset | strict | lax | none.

#[export] Instance same_site_mode_eq_dec : EqDecision same_site_mode.
Proof. solve_decision. Defined.

Record cookie : Type := mk_cookie {
  name_ : bytes;
  value_ : bytes;
  domain_ : bytes;
  path_ : bytes;
  expires_ : option Z;
  max_age_ : option Z;
  secure_ : bool;
  http_only_ : bool;
  same_site_ : same_site_mode;
}.

Definition new_cookie : cookie := mk_cookie [] [] [] [] None None false false unset.

Definition do_set_name (c : cookie) (v : bytes) : outcome cookie :=
  _ ← validate_name v (bs "cookie::with_name");
  Ok (mk_cookie v (value_ c) (domain_ c) (path_ c) (expires_ c) (max_age_ c) (secure_ c) (http_only_ c) (same_site_ c)).

Definition do_set_value (c : cookie) (v : bytes) : outcome cookie :=
  _ ← validate_value v (bs "cookie::with_value");
  Ok (mk_cookie (name_ c) v (domain_ c) (path_ c) (expires_ c) (max_age_ c) (secure_ c) (http_only_ c) (same_site_ c)).

Definition do_set_domain (c : cookie) (v : bytes) : outcome cookie :=
  _ ← validate_attr_param (bs "cookie::with_domain") v;
  Ok (mk_cookie (name_ c) (value_ c) v (path_ c) (expires_ c) (max_age_ c) (secure_ c) (http_only_ c) (same_site_ c)).

Definition do_set_path (c : cookie) (v : bytes) : outcome cookie :=
  _ ← validate_attr_param (bs "cookie::with_path") v;
  Ok (mk_cookie (name_ c) (value_ c) (domain_ c) v (expires_ c) (max_age_ c) (secure_ c) (http_only_ c) (same_site_ c)).

Definition with_name (c : cookie) (v : bytes) : outcome cookie := do_set_name c v.
Definition with_value (c : cookie) (v : bytes) : outcome cookie := do_set_value c v.
Definition with_domain (c : cookie) (v : bytes) : outcome cookie := do_set_domain c v.
Definition with_path (c : cookie) (v : bytes) : outcome cookie := do_set_path c v.

Definition with_expires (c : cookie) (epoch_seconds : Z) : cookie :=
  mk_cookie (name_ c) (value_ c) (domain_ c) (path_ c) (Some epoch_seconds) (max_age_ c) (secure_ c) (http_only_ c) (same_site_ c).

Definition with_max_age (c : cookie) (seconds : Z) : cookie :=
  mk_cookie (name_ c) (value_ c) (domain_ c) (path_ c) (expires_ c) (Some seconds) (secure_ c) (http_only_ c) (same_site_ c).

Definition with_secure (c : cookie) (v : bool) : cookie :=
  mk_cookie (name_ c) (value_ c) (domain_ c) (path_ c) (expires_ c) (max_age_ c) v (http_only_ c) (same_site_ c).

Definition with_http_only (c : cookie) (v : bool) : cookie :=
  mk_cookie (name_ c) (value_ c) (domain_ c) (path_ c) (expires_ c) (max_age_ c) (secure_ c) v (same_site_ c).

Definition with_same_site (c : cookie) (v : same_site_mode) : cookie :=
  mk_cookie (name_ c) (value_ c) (domain_ c) (path_ c) (expires_ c) (max_age_ c) (secure_ c) (http_only_ c) v.

Definition is_effective_secure (c : cookie) : bool :=
  secure_ c || bool_decide (same_site_ c = none).

(** ** Rendering *)

Definition same_site_attribute_text (m : same_site_mode) : bytes :=
  match m with
  | strict => bs "; SameSite=Strict"
  | lax => bs "; SameSite=Lax"
  | none => bs "; SameSite=None"
  | unset => []
  end.

Definition append_time_attributes (c : cookie) (out : bytes) : outcome bytes :=
  out ← match expires_ c with
        | Some e => d ← format_imf_fixdate e; Ok (out ++ bs "; Expires=" ++ d)
        | None => Ok out
        end;
  Ok match max_age_ c with
     | Some a => out ++ bs "; Max-Age=" ++ to_string_int a
     | None => out
     end.

Definition append_target_attributes (c : cookie) (out : bytes) : bytes :=
  let out := if negb (is_empty (domain_ c)) then out ++ bs "; Domain=" ++ domain_ c else out in
  if negb (is_empty (path_ c)) then out ++ bs "; Path=" ++ path_ c else out.

Definition append_flag_attributes (c : cookie) (out : bytes) : bytes :=
  let effective_secure := secure_ c || bool_decide (same_site_ c = none) in
  let out := if effective_secure then out ++ bs "; Secure" else out in
  if http_only_ c then out ++ bs "; HttpOnly" else out.

Definition to_set_cookie_header (c : cookie) : outcome bytes :=
  if is_empty (name_ c) then
    Throw (invalid_argument (bs "cookie::to_set_cookie_header: name is empty -- a cookie with no name is not a valid Set-Cookie"))
  else
    _ ← validate_name (name_ c) (bs "cookie::to_set_cookie_header");
    _ ← validate_value (value_ c) (bs "cookie::to_set_cookie_header");
    out ← append_time_attributes c (name_ c ++ bs "=" ++ value_ c);
    Ok (append_flag_attributes c (append_target_attributes c out) ++ same_site_attribute_text (same_site_ c)).

(** ** Parsing *)

Definition is_ws (c : ascii) : bool := ascii_eqb c " " || ascii_eqb c TAB.

Fixpoint trim_front (s : bytes) : bytes :=
  match s with c :: t => if is_ws c then trim_front t else s | [] => [] end.

(** The second loop of [trim_ws] shortens from the back. *)
Definition trim_back (s : bytes) : bytes := reverse (trim_front (reverse s)).

Definition trim_ws (s : bytes) : bytes := trim_back (trim_front s).

Definition strip_quotes (v : bytes) : bytes :=
  if (2 <=? length v) && bool_decide (head v = Some DQUOTE) && bool_decide (last v = Some DQUOTE)
  then substr v 1 (length v - 2) else v.

Definition parse_cookie_token (tok : bytes) : option (bytes * bytes) :=
  let tok := trim_ws tok in
  if is_empty tok then None
  else match find_char "=" tok with
       | None | Some 0 => None
       | Some eq =>
           let name_sv := substr tok 0 eq in
           let value_sv := strip_quotes (substr_from tok (eq + 1)) in
           let name_sv := trim_ws name_sv in
           if is_empty name_sv then None else Some (name_sv, value_sv)
       end.

(** One iteration of the walk consumes a semicolon, so [S (length h)] rounds
    are enough. *)
Fixpoint parse_loop (fuel : nat) (header_value : bytes) (pos : nat) (out : list cookie) : list cookie :=
  match fuel with
  | 0 => out
  | S fuel =>
      if pos <=? length header_value then
        let end_ := find_from ";" header_value pos in
        let tok_end := default (length header_value) end_ in
        let out := match parse_cookie_token (substr header_value pos (tok_end - pos)) with
                   | Some (n, v) => out ++ [mk_cookie n v [] [] None None false false unset]
                   | None => out
                   end in
        match end_ with
        | None => out
        | Some e => parse_loop fuel header_value (e + 1) out
        end
      else out
  end.

Definition parse_cookie_header (header_value : bytes) : list cookie :=
  if is_empty header_value then []
  else parse_loop (S (length header_value)) header_value 0 [].

End Cookie.
Import Cookie.

Example render_example :
  (c ← with_name new_cookie (bs "sid"); c ← with_value c (bs "42"); c ← with_path c (bs "/");
   to_set_cookie_header (with_same_site (with_expires c 784111777) none))
  = Ok (bs "sid=42; Expires=Sun, 06 Nov 1994 08:49:37 GMT; Path=/; Secure; SameSite=None").
Proof. by vm_compute. Qed.

Example parse_example :
  map (fun c => (name_ c, value_ c)) (parse_cookie_header (bs "a=1;  b = 2;; =x; c"))
  = [(bs "a", bs "1"); (bs "b", bs " 2")].
Proof. by vm_compute. Qed.

(** ** Trimming and tokens *)

Definition not_ws (o : option ascii) : Prop := match o with Some c => is_ws c = false | None => True end.

Lemma trim_front_id s : not_ws (head s) -> trim_front s = s.
Proof. destruct s as [|c s]; [done|]. simpl. by intros ->. Qed.

Lemma trim_back_id s : not_ws (last s) -> trim_back s = s.
Proof.
  intros Hs. unfold trim_back. rewrite trim_front_id; [apply reverse_involutive|].
  by rewrite head_reverse.
Qed.

Lemma trim_ws_pad (pad s : bytes) :
  Forall (fun c => is_ws c = true) pad -> not_ws (head s) -> not_ws (last s) -> trim_ws (pad ++ s) = s.
Proof.
  intros Hp Hh Hl. unfold trim_ws.
  assert (Hf : trim_front (pad ++ s) = s).
  { induction Hp as [|c pad Hc Hp IH]; [by apply trim_front_id|]. simpl. by rewrite Hc. }
  rewrite Hf. by apply trim_back_id.
Qed.

(** A name=value pair the parser reads back. *)
Record wire_ok (n v : bytes) : Prop := {
  wo_nonempty : n <> [];
  wo_name : existsb is_invalid_name_byte n = false;
  wo_semicolon : ";"%char ∉ v;
  wo_trailing : not_ws (last v);
  wo_quotes : strip_quotes v = v;
}.

Definition pair_text (nv : bytes * bytes) : bytes := nv.1 ++ bs "=" ++ nv.2.

Lemma name_byte c n : existsb is_invalid_name_byte n = false -> c ∈ n -> is_invalid_name_byte c = false.
Proof.
  intros Hn Hc. destruct (is_invalid_name_byte c) eqn:E; [|done].
  rewrite <-Hn. symmetry. apply existsb_exists. exists c. by rewrite <-list_elem_of_In.
Qed.

Lemma name_no c n : existsb is_invalid_name_byte n = false -> is_invalid_name_byte c = true -> c ∉ n.
Proof. intros Hn Hc Hin. rewrite (name_byte _ _ Hn Hin) in Hc. done. Qed.

Lemma name_not_ws n c : existsb is_invalid_name_byte n = false -> c ∈ n -> is_ws c = false.
Proof.
  intros Hn Hc. destruct (is_ws c) eqn:E; [|done]. exfalso.
  apply (name_byte _ _ Hn) in Hc. unfold is_ws in E.
  apply orb_true_iff in E as [->%ascii_eqb_true| ->%ascii_eqb_true]; done.
Qed.

Lemma parse_token_pair pad n v :
  Forall (fun c => is_ws c = true) pad -> wire_ok n v ->
  parse_cookie_token (pad ++ pair_text (n, v)) = Some (n, v).
Proof.
  intros Hpad [Hne Hn Hs Ht Hq]. unfold parse_cookie_token, pair_text. simpl.
  destruct n as [|c n]; [done|].
  assert (Hc : is_ws c = false) by (eapply name_not_ws; [exact Hn|left]).
  assert (Hl : not_ws (last (c :: n))).
  { destruct (last (c :: n)) as [l|] eqn:E; [|done]. simpl. eapply name_not_ws; [exact Hn|].
    by apply last_Some_elem_of. }
  rewrite trim_ws_pad; [|done|done|].
  2: { rewrite last_app. simpl. destruct v as [|x v]; [done|]. rewrite last_cons.
       destruct (last (x :: v)) eqn:E; [done|]. by apply last_None in E. }
  simpl is_empty. assert (Heq : "="%char ∉ c :: n) by (by apply (name_no _ _ Hn)).
  change ((c :: n) ++ "="%char :: v) with ((c :: n) ++ "="%char :: v).
  rewrite find_char_app by done. cbn [length]. unfold substr, substr_from. rewrite drop_0.
  assert (Htk : take (S (length n)) ((c :: n) ++ "="%char :: v) = c :: n) by apply (take_app_length (c :: n)).
  assert (Hdr : drop (S (length n) + 1) ((c :: n) ++ "="%char :: v) = v).
  { rewrite drop_app_ge by (simpl; lia). by replace (S (length n) + 1 - length (c :: n)) with 1 by (simpl; lia). }
  rewrite ?drop_0. change (c :: n ++ "="%char :: v) with ((c :: n) ++ "="%char :: v).
  rewrite !Htk, Hdr, Hq. assert (Htr : trim_ws (c :: n) = c :: n) by (by apply (trim_ws_pad [])).
  by rewrite Htr.
Qed.

(** ** The parser and the fields of the header *)

Definition bare (nv : bytes * bytes) : cookie := mk_cookie nv.1 nv.2 [] [] None None false false unset.

Lemma parse_loop_fields fuel h pos out :
  pos <= length h -> length (drop pos h) < fuel ->
  parse_loop fuel h pos out = out ++ map bare (omap parse_cookie_token (split_on ";" (drop pos h))).
Proof.
  revert pos out. induction fuel as [|fuel IH]; intros pos out Hp Hf; [lia|]. simpl.
  rewrite (proj2 (Nat.leb_le _ _) Hp). unfold find_from.
  destruct (find_char_split ";" (drop pos h)) as [(a & b & Hi & Hs & Ha)|[Hi Hn]]; rewrite Hi; simpl.
  - replace (pos + length a - pos) with (length a) by lia.
    unfold substr. rewrite Hs, take_app_length, split_on_app by done.
    assert (Hd : drop (pos + length a + 1) h = b).
    { rewrite <-Nat.add_assoc, <-drop_drop, Hs, drop_app_ge by lia.
      by replace (length a + 1 - length a) with 1 by lia. }
    assert (Hlen : length h = pos + length a + 1 + length b).
    { apply (f_equal length) in Hs. rewrite length_drop, length_app in Hs. simpl in Hs. lia. }
    rewrite IH, Hd; [|lia|rewrite length_drop in *; lia].
    simpl. destruct (parse_cookie_token a) as [[n v]|]; simpl; by rewrite <-?app_assoc.
  - unfold substr. rewrite take_ge by (rewrite length_drop; lia). rewrite split_on_nosep by done.
    simpl. destruct (parse_cookie_token (drop pos h)) as [[n v]|]; simpl; by rewrite ?app_nil_r.
Qed.

Lemma parse_cookie_header_fields h :
  parse_cookie_header h = map bare (omap parse_cookie_token (split_on ";" h)).
Proof.
  unfold parse_cookie_header. destruct h as [|c h]; [done|]. simpl is_empty. cbv match.
  rewrite parse_loop_fields by (rewrite ?drop_0; simpl; lia). by rewrite drop_0.
Qed.

Lemma split_join_semi x l :
  Forall (fun s => ";"%char ∉ s) (x :: l) ->
  split_on ";" (join (bs "; ") (x :: l)) = x :: map (fun s => bs " " ++ s) l.
Proof.
  revert x. induction l as [|y l IH]; intros x Hf; inversion Hf as [|? ? Hx Hl]; subst.
  - by apply split_on_nosep.
  - rewrite join_cons. change (x ++ bs "; " ++ join (bs "; ") (y :: l))
      with (x ++ ";"%char :: bs " " ++ join (bs "; ") (y :: l)).
    rewrite split_on_app by done. f_equal. simpl map.
    specialize (IH y Hl). revert IH. generalize (join (bs "; ") (y :: l)) as j. intros j IH.
    change (split_on ";" (" "%char :: j) = (bs " " ++ y) :: map (fun s => bs " " ++ s) l).
    cbn [split_on]. rewrite (proj2 (ascii_eqb_false " " ";")) by done. by rewrite IH.
Qed.

Lemma pair_no_semicolon n v : wire_ok n v -> ";"%char ∉ pair_text (n, v).
Proof.
  intros [_ Hn Hs _ _]. unfold pair_text. simpl. rewrite elem_of_app, elem_of_cons.
  intros [Hin|[?|?]]; [|done..]. by apply (name_no ";" n Hn).
Qed.

(** C31: What a browser sends back is read back: a [Cookie] header that lists
    name=value pairs joined by a semicolon and a space is parsed into exactly
    those cookies, in order, for names the setters accept and values without
    semicolon, trailing blank or enclosing quotes. *)
Theorem parse_cookie_header_roundtrip (nvs : list (bytes * bytes)) :
  Forall (fun nv => wire_ok nv.1 nv.2) nvs ->
  parse_cookie_header (join (bs "; ") (map pair_text nvs)) = map bare nvs.
Proof.
  intros Hf. destruct nvs as [|[n v] nvs]; [done|]. simpl map at 1.
  inversion Hf as [|? ? Hnv Hrest]; subst. rewrite parse_cookie_header_fields, split_join_semi.
  - cbn [omap list_omap]. pose proof (parse_token_pair [] n v (Forall_nil_2 _) Hnv) as Hp.
    cbn [app] in Hp. rewrite Hp. cbn [map]. f_equal.
    clear Hf Hnv Hp. induction Hrest as [|[n' v'] l Hnv Hl IH]; [done|].
    cbn [map omap list_omap fst snd] in *.
    rewrite (parse_token_pair (bs " ") n' v'); [cbn [map]; by f_equal|by repeat constructor|done].
  - change (pair_text (n, v) :: map pair_text nvs) with (map pair_text ((n, v) :: nvs)).
    clear Hnv Hrest. induction Hf as [|[n' v'] l Hnv Hl IH]; constructor; [by apply pair_no_semicolon|done].
Qed.

Lemma parse_cookie_header_roundtrip_witness :
  Forall (fun nv => wire_ok nv.1 nv.2) [(bs "sid", bs "42"); (bs "theme", bs "a=b, c")]
  /\ parse_cookie_header (bs "sid=42; theme=a=b, c") = map bare [(bs "sid", bs "42"); (bs "theme", bs "a=b, c")].
Proof.
  assert (Hw : Forall (fun nv => wire_ok nv.1 nv.2) [(bs "sid", bs "42"); (bs "theme", bs "a=b, c")])
    by (repeat constructor; by apply (bool_decide_unpack _)).
  split; [exact Hw|]. exact (parse_cookie_header_roundtrip _ Hw).
Defined.

(** ** No injection *)

(** Bytes that cannot end an attribute or the header line. *)
Definition clean_byte (c : ascii) : bool :=
  negb (ascii_eqb c CR || ascii_eqb c LF || ascii_eqb c NUL || ascii_eqb c ";").

Abbreviation clean := (Forall (fun c => clean_byte c = true)).

Lemma clean_lit (s : bytes) : forallb clean_byte s = true -> clean s.
Proof. intros Hs. apply Forall_forall. intros c Hc. rewrite forallb_forall in Hs. by apply Hs, list_elem_of_In. Qed.

Lemma contains_any_false set s c : contains_any set s = false -> c ∈ s -> c ∉ set.
Proof.
  intros Hf Hs Hin. apply not_true_iff_false in Hf. apply Hf. unfold contains_any.
  apply existsb_exists. exists c. split; [by apply list_elem_of_In|]. apply existsb_exists.
  exists c. split; [by apply list_elem_of_In|apply ascii_eqb_refl].
Qed.

Lemma clean_validated v :
  contains_any kForbiddenCtrlChars v = false -> bool_decide (is_Some (find_char ";" v)) = false -> clean v.
Proof.
  intros Hc Hs. bool_prop. rewrite <-eq_None_not_Some, find_char_None in Hs.
  apply Forall_forall. intros c Hin. pose proof (contains_any_false _ _ _ Hc Hin) as Hn.
  unfold kForbiddenCtrlChars in Hn. rewrite !not_elem_of_cons in Hn. destruct Hn as (? & ? & ? & _).
  unfold clean_byte. rewrite !(proj2 (ascii_eqb_false _ _)); [done|..]; congruence.
Qed.

Lemma validate_value_clean v ctx : validate_value v ctx = Ok () -> clean v.
Proof.
  unfold validate_value. destruct (_ || _) eqn:E; [done|]. apply orb_false_iff in E as [? ?].
  intros _. by apply clean_validated.
Qed.

Lemma validate_attr_clean setter v : validate_attr_param setter v = Ok () -> clean v.
Proof.
  unfold validate_attr_param. destruct (contains_any _ _) eqn:E1; [done|].
  destruct (bool_decide (is_Some (find_char ";" v))) eqn:E2; [done|]. intros _. by apply clean_validated.
Qed.

Lemma validate_name_clean v ctx : validate_name v ctx = Ok () -> clean v.
Proof.
  unfold validate_name. destruct (existsb _ _) eqn:E; [done|]. intros _. apply Forall_forall.
  intros c Hc. pose proof (name_byte _ _ E Hc) as Hn. unfold clean_byte.
  destruct (decide (c = CR)) as [->|]; [done|]. destruct (decide (c = LF)) as [->|]; [done|].
  destruct (decide (c = NUL)) as [->|]; [done|]. destruct (decide (c = ";"%char)) as [->|]; [done|].
  by rewrite !(proj2 (ascii_eqb_false _ _)).
Qed.

Lemma digit_clean z : clean_byte (digit z) = true.
Proof.
  unfold digit, clean_byte. assert (Hz : (0 <= z mod 10 < 10)%Z) by (apply Z.mod_pos_bound; lia).
  assert (Hc : code (chr (48 + z mod 10)) = (48 + z mod 10)%Z) by (apply code_chr; lia).
  apply negb_true_iff. rewrite !orb_false_iff, !ascii_eqb_false.
  split_and!; intros E%(f_equal code); rewrite Hc in E;
    match type of E with _ = ?v => let v' := eval vm_compute in v in change v with v' in E end; lia.
Qed.

Lemma dec_loop_clean fuel z acc : clean acc -> clean (dec_loop fuel z acc).
Proof.
  revert z acc. induction fuel as [|fuel IH]; intros z acc Ha; [done|]. simpl.
  case_match; [|apply IH]; constructor; (apply digit_clean || done).
Qed.

Lemma pad_dec_clean w z : clean (pad_dec w z).
Proof.
  assert (Hd : forall z, clean (dec z)) by (intros; by apply dec_loop_clean).
  unfold pad_dec. case_match; [constructor; [done|]|]; apply Forall_app; split; try done;
    by apply Forall_replicate.
Qed.

Lemma names_clean (l : list bytes) i : forallb (forallb clean_byte) l = true -> clean (default [] (l !! i)).
Proof.
  intros Hl. destruct (l !! i) as [s|] eqn:E; [|constructor]. simpl. apply clean_lit.
  rewrite forallb_forall in Hl. apply Hl, list_elem_of_In. by eapply list_elem_of_lookup_2.
Qed.

Lemma format_clean t d : format_imf_fixdate t = Ok d -> clean d.
Proof.
  unfold format_imf_fixdate. case_match; [done|]. intros [= <-]. apply Forall_take.
  repeat first [apply pad_dec_clean | by apply names_clean | apply Forall_app; split
    | apply Forall_cons; split; [done|] | apply Forall_nil | exact I].
Qed.

(** The attributes a cookie renders, in order. *)
Definition attributes (c : cookie) : outcome (list bytes) :=
  exp ← match expires_ c with
        | Some e => d ← format_imf_fixdate e; Ok [bs "Expires=" ++ d]
        | None => Ok []
        end;
  Ok (exp
    ++ match max_age_ c with Some a => [bs "Max-Age=" ++ to_string_int a] | None => [] end
    ++ (if is_empty (domain_ c) then [] else [bs "Domain=" ++ domain_ c])
    ++ (if is_empty (path_ c) then [] else [bs "Path=" ++ path_ c])
    ++ (if is_effective_secure c then [bs "Secure"] else [])
    ++ (if http_only_ c then [bs "HttpOnly"] else [])
    ++ match same_site_ c with
       | strict => [bs "SameSite=Strict"] | lax => [bs "SameSite=Lax"] | none => [bs "SameSite=None"]
       | unset => []
       end).

(** The invariant of the private fields: only the setters write them. *)
Definition cookie_ok (c : cookie) : Prop := clean (domain_ c) /\ clean (path_ c).

Lemma join_semi_flat x l : join (bs "; ") (x :: l) = x ++ flat_map (fun s => bs "; " ++ s) l.
Proof.
  revert x. induction l as [|y l IH]; intros x; [by rewrite app_nil_r|].
  rewrite join_cons, IH. cbn [flat_map]. by rewrite <-!app_assoc.
Qed.

Lemma header_join c out :
  to_set_cookie_header c = Ok out ->
  exists attrs, attributes c = Ok attrs /\ out = join (bs "; ") (pair_text (name_ c, value_ c) :: attrs)
    /\ clean (name_ c) /\ clean (value_ c).
Proof.
  unfold to_set_cookie_header. destruct (is_empty (name_ c)); [done|].
  destruct (validate_name _ _) as [[]| |] eqn:En; [|done..]. apply validate_name_clean in En.
  destruct (validate_value _ _) as [[]| |] eqn:Ev; [|done..]. apply validate_value_clean in Ev.
  cbn [mbind outcome_bind]. unfold append_time_attributes, attributes.
  unfold append_flag_attributes, append_target_attributes, is_effective_secure.
  destruct (expires_ c) as [e|]; [destruct (format_imf_fixdate e) as [d| |]; [|done..]|];
    cbn [mbind outcome_bind]; intros [= <-]; eexists; (split; [done|]); (split; [|done]);
    rewrite join_semi_flat, !flat_map_app; unfold pair_text; cbn [fst snd];
    destruct (max_age_ c), (is_empty (domain_ c)), (is_empty (path_ c)), (secure_ c || _), (http_only_ c), (same_site_ c);
    cbn [negb flat_map same_site_attribute_text app]; rewrite ?app_nil_r, <-?app_assoc; reflexivity.
Qed.

Lemma attributes_clean c attrs : cookie_ok c -> attributes c = Ok attrs -> Forall (fun a => clean a) attrs.
Proof.
  intros [Hd Hp]. unfold attributes.
  destruct (expires_ c) as [e|]; [destruct (format_imf_fixdate e) as [d| |] eqn:E; [|done..]|];
    cbn [mbind outcome_bind]; intros [= <-];
    repeat (apply Forall_app; split); repeat case_match; repeat constructor;
    try (apply Forall_app; split); try (by apply clean_lit); try done;
    try (apply pad_dec_clean); by eapply format_clean.
Qed.

Lemma clean_no_semi s : clean s -> ";"%char ∉ s.
Proof. intros Hs Hin. rewrite Forall_forall in Hs. by apply Hs in Hin. Qed.

Lemma clean_join x l : clean x -> Forall (fun a => clean a) l ->
  Forall (fun c => c <> CR /\ c <> LF /\ c <> NUL) (join (bs "; ") (x :: l)).
Proof.
  assert (Hc : forall s, clean s -> Forall (fun c => c <> CR /\ c <> LF /\ c <> NUL) s).
  { intros s Hs. eapply Forall_impl; [exact Hs|]. intros c Hb. unfold clean_byte in Hb.
    apply negb_true_iff in Hb. rewrite !orb_false_iff, !ascii_eqb_false in Hb. tauto. }
  intros Hx Hl. rewrite join_semi_flat. apply Forall_app. split; [by apply Hc|].
  induction Hl as [|a l Ha Hl IH]; [constructor|]. cbn [flat_map]. apply Forall_app. split; [|done].
  apply Forall_app. split; [by repeat constructor|by apply Hc].
Qed.

(** Every cookie a program can hold satisfies the invariant. *)
Inductive cookie_built : cookie -> Prop :=
| built_new : cookie_built new_cookie
| built_parsed h c : c ∈ parse_cookie_header h -> cookie_built c
| built_name c v c' : cookie_built c -> with_name c v = Ok c' -> cookie_built c'
| built_value c v c' : cookie_built c -> with_value c v = Ok c' -> cookie_built c'
| built_domain c v c' : cookie_built c -> with_domain c v = Ok c' -> cookie_built c'
| built_path c v c' : cookie_built c -> with_path c v = Ok c' -> cookie_built c'
| built_expires c z : cookie_built c -> cookie_built (with_expires c z)
| built_max_age c z : cookie_built c -> cookie_built (with_max_age c z)
| built_secure c b : cookie_built c -> cookie_built (with_secure c b)
| built_http_only c b : cookie_built c -> cookie_built (with_http_only c b)
| built_same_site c m : cookie_built c -> cookie_built (with_same_site c m).

Lemma cookie_built_ok c : cookie_built c -> cookie_ok c.
Proof.
  induction 1 as [|h c Hin|c v c' _ IH Hw|c v c' _ IH Hw|c v c' _ IH Hw|c v c' _ IH Hw| | | | |];
    try done.
  - rewrite parse_cookie_header_fields in Hin. apply list_elem_of_fmap in Hin as (nv & -> & _). by split.
  - unfold with_name, do_set_name in Hw. destruct (validate_name _ _); [|done..]. by simplify_eq/=.
  - unfold with_value, do_set_value in Hw. destruct (validate_value _ _); [|done..]. by simplify_eq/=.
  - unfold with_domain, do_set_domain in Hw. destruct (validate_attr_param _ _) as [[]| |] eqn:E; [|done..].
    simplify_eq/=. destruct IH. split; [by eapply validate_attr_clean|done].
  - unfold with_path, do_set_path in Hw. destruct (validate_attr_param _ _) as [[]| |] eqn:E; [|done..].
    simplify_eq/=. destruct IH. split; [done|by eapply validate_attr_clean].
Qed.

(** C30: A rendered [Set-Cookie] line carries no CR, LF or NUL, and a client that
    splits it on semicolons finds the pair and exactly the attributes the
    cookie holds: nothing in a name, value, domain or path adds an attribute.
    It holds for every cookie built with the public setters in any order, and
    for cookies from [parse_cookie_header], whose bytes were not validated. *)
Theorem set_cookie_no_injection c out :
  cookie_built c -> to_set_cookie_header c = Ok out ->
  exists attrs, attributes c = Ok attrs
    /\ split_on ";" out = pair_text (name_ c, value_ c) :: map (fun a => bs " " ++ a) attrs
    /\ Forall (fun b => b <> CR /\ b <> LF /\ b <> NUL) out.
Proof.
  intros Hc%cookie_built_ok (attrs & Ha & -> & Hn & Hv)%header_join. exists attrs. split; [done|].
  pose proof (attributes_clean c attrs Hc Ha) as Hcl.
  assert (Hp : clean (pair_text (name_ c, value_ c))).
  { unfold pair_text. simpl. apply Forall_app. split; [done|]. by constructor. }
  split; [|by apply clean_join]. apply split_join_semi. constructor; [by apply clean_no_semi|].
  eapply Forall_impl; [exact Hcl|]. apply clean_no_semi.
Qed.

Definition sample_cookie : cookie :=
  with_same_site (mk_cookie (bs "sid") (bs "42") [] [] None None false false unset) none.

Lemma set_cookie_no_injection_witness :
  cookie_built sample_cookie
  /\ to_set_cookie_header sample_cookie = Ok (bs "sid=42; Secure; SameSite=None")
  /\ exists attrs, attributes sample_cookie = Ok attrs
       /\ split_on ";" (bs "sid=42; Secure; SameSite=None")
          = pair_text (bs "sid", bs "42") :: map (fun a => bs " " ++ a) attrs
       /\ Forall (fun b => b <> CR /\ b <> LF /\ b <> NUL) (bs "sid=42; Secure; SameSite=None").
Proof.
  assert (Hb : cookie_built sample_cookie).
  { apply built_same_site. apply (built_parsed (bs "sid=42")). vm_compute. left. }
  assert (Ht : to_set_cookie_header sample_cookie = Ok (bs "sid=42; Secure; SameSite=None")) by by vm_compute.
  split; [exact Hb|]. split; [exact Ht|]. exact (set_cookie_no_injection _ _ Hb Ht).
Defined.

(** For the last 1900 years [gmtime_r] can express, [tm_year + 1900] overflows
    an [int]. *)
Theorem format_year_overflow : format_imf_fixdate 67768036191676799 = Undefined.
Proof. by vm_compute. Qed.
