(* ===== verification/IpAddress.v ===== *)
(** * IP addresses and access control

    [detail/ip_representation.cpp]: textual addresses with wildcard octets and
    their ordering; [detail/ip_access_control.cpp]: the allow and deny lists;
    the accept policy of [detail/webserver_callbacks.cpp]. *)

From S2P Require Import Prelude HttpUtils.
Import StringUtilities.

Module Ip.

Inductive IP_version_T : Type := IPV4 | IPV6.

Record ip_representation : Type := Ip {
  ip_version : IP_version_T;
  octets : list Z;
  mask : Z;
}.

Definition DEFAULT_MASK_VALUE : Z := 0xFFFF.

Definition check_bit (var : Z) (pos : nat) : bool :=
  negb (Z.land var (Z.shiftl 1 (Z.of_nat pos)) =? 0)%Z.

Definition clear_bit (var : Z) (pos : nat) : Z :=
  wrap16 (Z.land var (wrap32 (Z.lnot (Z.shiftl 1 (Z.of_nat pos))))).

(** [octets[i] = v] on the array of sixteen bytes. *)
Definition set_octet (ip : ip_representation) (i : nat) (v : Z) : outcome ip_representation :=
  if i <? 16 then Ok (Ip (ip_version ip) (<[i := wrap8 v]> (octets ip)) (mask ip)) else Undefined.

Definition octet (ip : ip_representation) (i : nat) : Z := default 0%Z (octets ip !! i).

Definition clear_mask (ip : ip_representation) (i : nat) : ip_representation :=
  Ip (ip_version ip) (octets ip) (clear_bit (mask ip) i).

(** ** [strtol] *)

Definition is_space (c : ascii) : bool :=
  ascii_eqb c " " || ((9 <=? code c) && (code c <=? 13))%Z.

Fixpoint skip_space (s : bytes) : bytes :=
  match s with c :: t => if is_space c then skip_space t else s | [] => [] end.

Definition digit_value (base : Z) (c : ascii) : option Z :=
  let v := Unescape.hex_digit_value c in
  if ((0 <=? v) && (v <? base))%Z then Some v else None.

Fixpoint strtol_digits (base : Z) (s : bytes) (acc : Z) : Z * bytes :=
  match s with
  | c :: t => match digit_value base c with
              | Some v => strtol_digits base t (acc * base + v)
              | None => (acc, s)
              end
  | [] => (acc, [])
  end.

Definition LONG_MAX : Z := (2 ^ 63 - 1)%Z.
Definition LONG_MIN : Z := (- 2 ^ 63)%Z.

(** The value, clamped to [long], and the text at [endp]. *)
Definition strtol (s : bytes) (base : Z) : Z * bytes :=
  let t := skip_space s in
  let '(neg, t) := match t with
                   | c :: u => if ascii_eqb c "-" then (true, u)
                               else if ascii_eqb c "+" then (false, u) else (false, t)
                   | [] => (false, [])
                   end in
  let t := match t with
           | z :: x :: d :: u =>
               if (base =? 16)%Z && ascii_eqb z "0" && (ascii_eqb x "x" || ascii_eqb x "X")
                  && bool_decide (is_Some (digit_value 16 d))
               then d :: u else t
           | _ => t
           end in
  match t with
  | c :: _ =>
      match digit_value base c with
      | Some _ =>
          let '(v, rest) := strtol_digits base t 0 in
          ((if neg then Z.max LONG_MIN (- v) else Z.min LONG_MAX v)%Z, rest)
      | None => (0%Z, s)
      end
  | [] => (0%Z, s)
  end.

(** [*endp != '\0'] *)
Definition not_consumed (rest : bytes) : bool :=
  match rest with c :: _ => negb (ascii_eqb c NUL) | [] => false end.

Definition bad {A} (msg : string) : outcome A :=
  Throw (invalid_argument (bs "IP is badly formatted. " ++ bs msg)).

(** ** Parsing IPv4 *)

(** The loop body of [parse_ipv4] and of [parse_nested_ipv4]: a wildcard or a
    decimal octet at position [pos]. *)
Definition quad_part (part : bytes) (pos : nat) (ip : ip_representation) : outcome ip_representation :=
  if bytes_eqb part (bs "*") then Ok (clear_mask ip pos)
  else
    let piece := fst (strtol part 10) in
    if ((piece <? 0) || (255 <? piece))%Z then bad "255 is max value for ip part."
    else set_octet ip pos piece.

Fixpoint quad_parts (parts : list bytes) (pos : nat) (ip : ip_representation) : outcome ip_representation :=
  match parts with
  | [] => Ok ip
  | part :: parts => ip ← quad_part part pos ip; quad_parts parts (S pos) ip
  end.

Definition parse_ipv4 (text : bytes) (ip : ip_representation) : outcome ip_representation :=
  let ip := Ip IPV4 (octets ip) (mask ip) in
  let parts := string_split text "." true in
  if negb (length parts =? 4) then bad "Max 4 parts in IPV4."
  else quad_parts parts 12 ip.

(** ** Parsing IPv6 *)

(** The number of groups the placeholder stands for, and the parts with the
    duplicate placeholder removed. *)
Definition compute_ipv6_omitted_segments (parts : list bytes) : outcome (Z * list bytes) :=
  let omitted := wrap32 (8 - (Z.of_nat (length parts) - 1)) in
  if (omitted =? 0)%Z then Ok (0%Z, parts)
  else
    let empty_count := length (List.filter is_empty parts) in
    if empty_count <=? 1 then Ok (omitted, parts)
    else
      let omitted := if bool_decide (is_Some (find_char "." (default [] (last parts))))
                     then wrap32 (omitted - 1) else omitted in
      let leading_double_colon := (empty_count =? 2) && bool_decide (parts !! 0 = Some [])
                                  && bool_decide (parts !! 1 = Some []) in
      if negb leading_double_colon then
        bad "Cannot have more than one omitted segment in IPV6."
      else Ok (wrap32 (omitted + 1), tail parts).

Definition ipv4_mapped_prefix_invalid (a b : Z) : bool :=
  (negb (a =? 0) && negb (a =? 255) || negb (b =? 0) && negb (b =? 255))%Z.

Definition validate_ipv4_mapped_prefix (ip : ip_representation) : outcome ip_representation :=
  if existsb (fun k => negb (octet ip k =? 0)%Z) (seq 0 10)
     || ipv4_mapped_prefix_invalid (octet ip 10) (octet ip 11)
  then bad "Nested IPV4 can be preceded only by 0 (and, optionally, two 255 octects)"
  else Ok ip.

Definition parse_nested_ipv4 (part : bytes) (i size y : nat) (ip : ip_representation)
    : outcome ip_representation :=
  if negb (y =? 12) then bad "Missing parts before nested IPV4."
  else if negb (i =? size - 1) then bad "Nested IPV4 should be at the end"
  else
    let subparts := string_split part "." true in
    if negb (length subparts =? 4) then bad "Nested IPV4 can have max 4 parts."
    else
      ip ← validate_ipv4_mapped_prefix ip;
      quad_parts subparts y ip.

(** The zero-filling loop of the placeholder. *)
Fixpoint zero_fill (o : nat) (y : nat) (ip : ip_representation) : outcome (ip_representation * nat) :=
  match o with
  | 0 => Ok (ip, y)
  | S o =>
      ip ← set_octet ip y 0;
      ip ← set_octet ip (y + 1) 0;
      zero_fill o (y + 2) ip
  end.

(** [setfill('0') << setw(4)] *)
Definition pad4 (part : bytes) : bytes := replicate (4 - length part) "0"%char ++ part.

Definition apply_ipv6_part (part : bytes) (i size : nat) (y : nat) (omitted : Z) (ip : ip_representation)
    : outcome (ip_representation * nat) :=
  if bytes_eqb part (bs "*") then Ok (clear_mask (clear_mask ip y) (y + 1), y + 2)
  else if is_empty part then zero_fill (Z.to_nat omitted) y ip
  else
    let part := if length part <? 4 then pad4 part else part in
    if length part =? 4 then
      let '(hi, hi_end) := strtol (substr part 0 2) 16 in
      if not_consumed hi_end then
        bad "IPV6 part contains a non-hex character."
      else
        let '(lo, lo_end) := strtol (substr part 2 2) 16 in
        if not_consumed lo_end then
          bad "IPV6 part contains a non-hex character."
        else
          ip ← set_octet ip y hi;
          ip ← set_octet ip (y + 1) lo;
          Ok (ip, y + 2)
    else if negb (bool_decide (is_Some (find_char "." part))) then
      bad "IPV6 parts can have max 4 characters (or nest an IPV4)"
    else ip ← parse_nested_ipv4 part i size y ip; Ok (ip, y).

Fixpoint apply_ipv6_parts (parts : list bytes) (i size y : nat) (omitted : Z) (ip : ip_representation)
    : outcome ip_representation :=
  match parts with
  | [] => Ok ip
  | part :: parts =>
      '(ip, y) ← apply_ipv6_part part i size y omitted ip;
      apply_ipv6_parts parts (S i) size y omitted ip
  end.

Definition parse_ipv6 (text : bytes) (ip : ip_representation) : outcome ip_representation :=
  let ip := Ip IPV6 (octets ip) (mask ip) in
  let parts := string_split text ":" false in
  if 8 <? length parts then bad "Max 8 parts in IPV6."
  else
    '(omitted, parts) ← compute_ipv6_omitted_segments parts;
    apply_ipv6_parts parts 0 (length parts) 0 omitted ip.

Definition zero_ip (v : IP_version_T) : ip_representation := Ip v (replicate 16 0%Z) DEFAULT_MASK_VALUE.

(** The constructor from text (the version is set by the parser). *)
Definition ip_of_string (text : bytes) : outcome ip_representation :=
  let ip := zero_ip IPV4 in
  if bool_decide (is_Some (find_char ":" text)) then parse_ipv6 text ip else parse_ipv4 text ip.

(** A socket address: the address bytes, and the port field as the machine reads
    it, in network order.  One of another family has some bytes where an IPv6
    address would have its address. *)
Inductive sockaddr : Type :=
| AF_INET (sin_addr : list Z) (sin_port : Z)
| AF_INET6 (sin6_addr : list Z) (sin6_port : Z)
| AF_OTHER (bytes_at_sin6_addr : list Z).

(** [htons] and [ntohs] of a little-endian machine. *)
Definition htons (p : Z) : Z := Z.lor (Z.shiftl (Z.land p 255) 8) (Z.shiftr p 8).

(** The constructor from a socket address. *)
Definition ip_of_sockaddr (sa : sockaddr) : ip_representation :=
  match sa with
  | AF_INET addr _ => Ip IPV4 (replicate 12 0%Z ++ take 4 addr) DEFAULT_MASK_VALUE
  | AF_INET6 addr _ | AF_OTHER addr => Ip IPV6 (take 16 addr) DEFAULT_MASK_VALUE
  end.

(** The text and the port of a socket address, for the request's accessors.
    [inet_ntop] is the C library's. *)
Definition get_ip_str (inet_ntop : sockaddr -> bytes) (sa : option sockaddr) : outcome bytes :=
  match sa with
  | None => Throw (invalid_argument (bs "socket pointer is null"))
  | Some (AF_OTHER _) => Throw (invalid_argument (bs "IP family must be either AF_INET or AF_INET6"))
  | Some sa => Ok (inet_ntop sa)
  end.

Definition get_port (sa : option sockaddr) : outcome Z :=
  match sa with
  | None => Throw (invalid_argument (bs "socket pointer is null"))
  | Some (AF_INET _ p) | Some (AF_INET6 _ p) => Ok p
  | Some (AF_OTHER _) => Throw (invalid_argument (bs "IP family must be either AF_INET or AF_INET6"))
  end.

Definition weight (ip : ip_representation) : nat := length (List.filter (check_bit (mask ip)) (seq 0 16)).

(** ** The order *)

Definition octet_score (a b : ip_representation) (i : nat) (s : Z * Z) : Z * Z :=
  if negb (check_bit (mask a) i && check_bit (mask b) i) then s
  else ((s.1 + Z.of_nat (16 - i) * octet a i)%Z, (s.2 + Z.of_nat (16 - i) * octet b i)%Z).

Definition is_v4_mapped_prefix_octet_pair (a b : Z) : bool :=
  ((a =? 0) || (a =? 255))%Z && ((b =? 0) || (b =? 255))%Z.

Definition ip_lt (a b : ip_representation) : bool :=
  let s := foldl (fun s i => octet_score a b i s) (0%Z, 0%Z) (seq 0 10 ++ seq 12 4) in
  if (s.1 =? s.2)%Z && is_v4_mapped_prefix_octet_pair (octet a 10) (octet b 10)
     && is_v4_mapped_prefix_octet_pair (octet a 11) (octet b 11)
  then false
  else
    let s := octet_score a b 11 (octet_score a b 10 s) in
    (s.1 <? s.2)%Z.

(** ** The access lists *)

(** [std::set<ip_representation>] as its elements in order; [find] is the
    first element not less than the key, if the key is not less than it. *)
Fixpoint set_find (key : ip_representation) (l : list ip_representation) : option ip_representation :=
  match l with
  | [] => None
  | x :: l => if ip_lt x key then set_find key l else if ip_lt key x then None else Some x
  end.

Fixpoint set_insert (key : ip_representation) (l : list ip_representation) : list ip_representation :=
  match l with
  | [] => [key]
  | x :: l => if ip_lt x key then x :: set_insert key l
              else if ip_lt key x then key :: x :: l else x :: l
  end.

Fixpoint set_erase (key : ip_representation) (l : list ip_representation) : list ip_representation :=
  match l with
  | [] => []
  | x :: l => if ip_lt x key then x :: set_erase key l
              else if ip_lt key x then x :: l else l
  end.

Definition insert_wildcard_aware (l : list ip_representation) (t_ip : ip_representation)
    : list ip_representation :=
  let l := match set_find t_ip l with
           | Some it => if weight t_ip <? weight it then set_erase it l else l
           | None => l
           end in
  set_insert t_ip l.

Record ip_access_control : Type := Acl {
  deny_list_ : list ip_representation;
  allow_list_ : list ip_representation;
}.

Definition deny (text : bytes) : stx ip_access_control unit := fun a =>
  match ip_of_string text with
  | Ok ip => (Acl (insert_wildcard_aware (deny_list_ a) ip) (allow_list_ a), Ok ())
  | Throw e => (a, Throw e)
  | Undefined => (a, Undefined)
  end.

Definition remove_denied (text : bytes) : stx ip_access_control unit := fun a =>
  match ip_of_string text with
  | Ok ip => (Acl (set_erase ip (deny_list_ a)) (allow_list_ a), Ok ())
  | Throw e => (a, Throw e)
  | Undefined => (a, Undefined)
  end.

Definition allow (text : bytes) : stx ip_access_control unit := fun a =>
  match ip_of_string text with
  | Ok ip => (Acl (deny_list_ a) (insert_wildcard_aware (allow_list_ a) ip), Ok ())
  | Throw e => (a, Throw e)
  | Undefined => (a, Undefined)
  end.

Definition remove_allowed (text : bytes) : stx ip_access_control unit := fun a =>
  match ip_of_string text with
  | Ok ip => (Acl (deny_list_ a) (set_erase ip (allow_list_ a)), Ok ())
  | Throw e => (a, Throw e)
  | Undefined => (a, Undefined)
  end.

Record membership : Type := Membership { denied : bool; allowed : bool }.

Definition classify (a : ip_access_control) (peer : ip_representation) : membership :=
  Membership (bool_decide (is_Some (set_find peer (deny_list_ a))))
             (bool_decide (is_Some (set_find peer (allow_list_ a)))).

(** ** The accept decision *)

Inductive policy_T : Type := ACCEPT | REJECT.

#[export] Instance policy_eq_dec : EqDecision policy_T.
Proof. solve_decision. Defined.

Definition classify_decision (default_policy : policy_T) (is_denied is_allowed : bool)
    : bool * option bytes :=
  if bool_decide (default_policy = ACCEPT) && is_denied && negb is_allowed then (false, Some (bs "denied"))
  else if bool_decide (default_policy = REJECT) && is_denied then (false, Some (bs "denied"))
  else if bool_decide (default_policy = REJECT) && negb is_allowed
  then (false, Some (bs "not-on-allow-list"))
  else (true, None).

(** [policy_callback] without the observation hook. *)
Definition policy_callback (ip_access_control_enabled : bool) (default_policy : policy_T)
    (a : ip_access_control) (addr : sockaddr) : bool * option bytes :=
  if ip_access_control_enabled then
    let m := classify a (ip_of_sockaddr addr) in
    classify_decision default_policy (denied m) (allowed m)
  else (true, None).

End Ip.
Import Ip.

(** [ntohs] undoes [htons]. *)
Lemma htons_eq p : (0 <= p < 65536)%Z -> htons p = (256 * (p mod 256) + p / 256)%Z.
Proof.
  intros Hp. unfold htons. rewrite Z.shiftr_div_pow2 by lia. change 255%Z with (Z.ones 8). rewrite Z.land_ones by lia.
  apply lor_shiftl8. change (2 ^ 8)%Z with 256%Z. pose proof (Z.div_lt_upper_bound p 256 256). pose proof (Z.div_pos p 256). lia.
Qed.

Lemma htons_involutive p : (0 <= p < 65536)%Z -> htons (htons p) = p.
Proof.
  intros Hp. pose proof (Z.mod_pos_bound p 256). pose proof (Z.div_lt_upper_bound p 256 256). pose proof (Z.div_pos p 256).
  pose proof (Z.div_mod p 256). rewrite (htons_eq p) by done. rewrite htons_eq by lia.
  replace (256 * (p mod 256) + p / 256)%Z with (p / 256 + p mod 256 * 256)%Z by lia.
  rewrite Z_mod_plus_full, Z.div_add, (Z.mod_small (p / 256)), (Z.div_small (p / 256)) by lia. lia.
Qed.

(** ** The parser stays inside the sixteen octets *)

Record wf_ip (ip : ip_representation) : Prop := {
  wf_length : length (octets ip) = 16;
  wf_bytes : Forall (fun v => (0 <= v < 256)%Z) (octets ip);
  wf_mask : (0 <= mask ip < 2 ^ 16)%Z;
}.

(** The computation is defined, and a value satisfies [P]. *)
Definition defined {A} (o : outcome A) (P : A -> Prop) : Prop :=
  match o with Ok a => P a | Throw _ => True | Undefined => False end.

Lemma defined_bind {A B} (o : outcome A) (f : A -> outcome B) P Q :
  defined o P -> (forall a, P a -> defined (f a) Q) -> defined (o ≫= f) Q.
Proof. destruct o; simpl; [|done..]. auto. Qed.

Lemma set_octet_defined ip i v : wf_ip ip -> i < 16 -> defined (set_octet ip i v) wf_ip.
Proof.
  intros [Hl Hb Hm] Hi. unfold set_octet. rewrite (proj2 (Nat.ltb_lt _ _) Hi). constructor; simpl; [|
    apply Forall_insert; [done|apply Z.mod_pos_bound; lia]|done].
  by rewrite length_insert.
Qed.

Lemma clear_mask_wf ip i : wf_ip ip -> wf_ip (clear_mask ip i).
Proof. intros [Hl Hb Hm]. constructor; simpl; [done..|]. apply Z.mod_pos_bound. lia. Qed.

Lemma quad_part_defined part pos ip : wf_ip ip -> pos < 16 -> defined (quad_part part pos ip) wf_ip.
Proof.
  intros Hw Hp. unfold quad_part. destruct (bytes_eqb _ _); [by apply clear_mask_wf|].
  destruct (_ || _); [done|]. by apply set_octet_defined.
Qed.

Lemma quad_parts_defined parts pos ip :
  wf_ip ip -> pos + length parts <= 16 -> defined (quad_parts parts pos ip) wf_ip.
Proof.
  revert pos ip. induction parts as [|part parts IH]; intros pos ip Hw Hp; [done|]. simpl in *.
  eapply defined_bind; [apply quad_part_defined; [done|lia]|]. intros ip' Hw'. apply IH; [done|lia].
Qed.

Lemma zero_fill_defined o y ip :
  wf_ip ip -> y + 2 * o <= 16 -> defined (zero_fill o y ip) (fun r => wf_ip r.1 /\ r.2 = y + 2 * o).
Proof.
  revert y ip. induction o as [|o IH]; intros y ip Hw Hy; [simpl; split; [done|lia]|]. simpl.
  eapply defined_bind; [apply set_octet_defined; [done|lia]|]. intros ip1 Hw1.
  eapply defined_bind; [apply set_octet_defined; [done|lia]|]. intros ip2 Hw2.
  specialize (IH (y + 2) ip2 Hw2 ltac:(lia)). destruct (zero_fill o (y + 2) ip2); simpl in *; [|done..].
  destruct IH as [? ->]. split; [done|lia].
Qed.

Lemma nested_defined part i size y ip : wf_ip ip -> defined (parse_nested_ipv4 part i size y ip) wf_ip.
Proof.
  intros Hw. unfold parse_nested_ipv4. destruct (y =? 12) eqn:Ey; [|done]. bool_prop. subst. simpl.
  destruct (i =? size - 1); [|done]. simpl. destruct (length _ =? 4) eqn:El; [|done]. bool_prop. simpl.
  unfold validate_ipv4_mapped_prefix. destruct (_ || _); [done|]. simpl.
  apply quad_parts_defined; [done|lia].
Qed.

(** The octets a part may take. *)
Definition part_cost (omitted : Z) (part : bytes) : nat := if is_empty part then 2 * Z.to_nat omitted else 2.

Lemma apply_part_defined part i size y omitted ip :
  wf_ip ip -> y + part_cost omitted part <= 16 ->
  defined (apply_ipv6_part part i size y omitted ip)
    (fun r => wf_ip r.1 /\ r.2 <= y + part_cost omitted part).
Proof.
  intros Hw Hy. unfold apply_ipv6_part, part_cost in *.
  destruct (bytes_eqb part (bs "*")) eqn:Es.
  { apply bytes_eqb_true in Es as ->. simpl in *. split; [by do 2 apply clear_mask_wf|lia]. }
  destruct (is_empty part) eqn:Ee.
  { pose proof (zero_fill_defined (Z.to_nat omitted) y ip Hw Hy) as Hz.
    destruct (zero_fill _ _ _); simpl in *; [|done..]. destruct Hz as [? ->]. split; [done|lia]. }
  destruct (length _ =? 4).
  - destruct (strtol (substr _ 0 2) 16) as [hi rh]. destruct (not_consumed rh); [done|].
    destruct (strtol (substr _ 2 2) 16) as [lo rl]. destruct (not_consumed rl); [done|].
    eapply defined_bind; [apply set_octet_defined; [done|lia]|]. intros ip1 Hw1.
    eapply defined_bind; [apply set_octet_defined; [done|lia]|]. intros ip2 Hw2. simpl. split; [done|lia].
  - destruct (negb _); [done|]. eapply defined_bind; [by apply nested_defined|].
    intros ip1 Hw1. simpl. split; [done|lia].
Qed.

Lemma apply_parts_defined parts i size y omitted ip :
  wf_ip ip -> y + list_sum (map (part_cost omitted) parts) <= 16 ->
  defined (apply_ipv6_parts parts i size y omitted ip) wf_ip.
Proof.
  revert i y ip. induction parts as [|part parts IH]; intros i y ip Hw Hy; [done|]. simpl in *.
  eapply defined_bind; [apply apply_part_defined; [done|lia]|]. intros [ip' y'] [Hw' Hy']. simpl in *.
  apply IH; [done|lia].
Qed.

Lemma cost_sum omitted parts :
  list_sum (map (part_cost omitted) parts)
  = 2 * (length parts - length (List.filter is_empty parts))
    + 2 * Z.to_nat omitted * length (List.filter is_empty parts)
  /\ length (List.filter is_empty parts) <= length parts.
Proof.
  induction parts as [|part parts [IH Hl]]; [simpl; lia|]. simpl. unfold part_cost at 1.
  destruct (is_empty part); simpl; rewrite IH; split; lia.
Qed.

Lemma omitted_cost parts :
  length parts <= 8 -> parts <> [] ->
  defined (compute_ipv6_omitted_segments parts)
    (fun r => list_sum (map (part_cost r.1) r.2) <= 16).
Proof.
  intros Hl Hne. unfold compute_ipv6_omitted_segments.
  assert (Hpos : 0 < length parts) by (destruct parts; [done|simpl; lia]).
  assert (Ho : wrap32 (8 - (Z.of_nat (length parts) - 1)) = (9 - Z.of_nat (length parts))%Z).
  { rewrite wrap32_small by lia. lia. }
  rewrite Ho. set (om := (9 - Z.of_nat (length parts))%Z). assert (Hom : (1 <= om <= 8)%Z) by lia.
  rewrite (proj2 (Z.eqb_neq _ _)) by lia.
  destruct (cost_sum om parts) as [Hc Hle].
  destruct (length (List.filter is_empty parts) <=? 1) eqn:E1; bool_prop.
  { cbn [defined fst snd]. rewrite Hc.
    destruct (length (List.filter is_empty parts)) as [|[|k]]; lia. }
  destruct (length (List.filter is_empty parts) =? 2) eqn:E2; [|done]. bool_prop. cbn [andb].
  destruct parts as [|p1 [|p2 parts]]; [done|by destruct p1|].
  destruct p1; [|done]. cbn [lookup list_lookup]. rewrite bool_decide_true by done. cbn [andb].
  destruct p2; [|done]. rewrite bool_decide_true by done. cbn [negb defined fst snd tail].
  set (om' := wrap32 _).
  assert (Hom' : (0 <= om' <= om + 1)%Z).
  { unfold om'. case_match; rewrite ?(wrap32_small (om - 1)), wrap32_small by lia; lia. }
  destruct (cost_sum om' ([] :: parts)) as [Hc' _]. rewrite Hc'. simpl in E2, Hc' |- *.
  simpl in Hpos, Hl. replace (length (List.filter is_empty parts)) with 0 by lia.
  assert (Z.to_nat om' <= Z.to_nat om + 1) by lia. subst om. simpl in *. lia.
Qed.

Lemma string_split_nonempty s : s <> [] -> string_split s ":" false <> [].
Proof.
  intros Hs. rewrite string_split_filter. simpl.
  rewrite filter_true.
  destruct (find_char_split ":" s) as [(a & b & _ & -> & Ha)|[_ Hn]].
  - by rewrite fields_no_tail_cons.
  - by rewrite fields_no_tail_last.
Qed.

Lemma zero_ip_wf v : wf_ip (zero_ip v).
Proof. constructor; [done|apply Forall_replicate; lia|vm_compute; split; congruence]. Qed.

Lemma ip_of_string_defined text : defined (ip_of_string text) wf_ip.
Proof.
  unfold ip_of_string. destruct (bool_decide _) eqn:Ec.
  - unfold parse_ipv6. destruct (8 <? length _) eqn:El; [done|]. bool_prop.
    eapply defined_bind; [apply omitted_cost; [done|]|].
    + apply string_split_nonempty. intros ->. by destruct Ec.
    + intros [om parts] Hc. apply apply_parts_defined; [apply (zero_ip_wf IPV6)|exact Hc].
  - unfold parse_ipv4. destruct (length _ =? 4) eqn:El; [|done]. bool_prop. simpl negb. cbv match.
    apply quad_parts_defined; [apply (zero_ip_wf IPV4)|lia].
Qed.

(** Every exception of the parser is this one. *)
Definition throws_bad {A} (o : outcome A) : Prop :=
  match o with Throw e => exists msg, e = invalid_argument (bs "IP is badly formatted. " ++ msg) | _ => True end.

Lemma throws_bad_bind {A B} (o : outcome A) (f : A -> outcome B) :
  throws_bad o -> (forall a, throws_bad (f a)) -> throws_bad (o ≫= f).
Proof. destruct o; simpl; auto. Qed.

Lemma throws_bad_bad {A} msg : throws_bad (bad msg : outcome A).
Proof. by exists (bs msg). Qed.

Lemma set_octet_bad ip i v : throws_bad (set_octet ip i v).
Proof. unfold set_octet. by case_match. Qed.

#[local] Hint Resolve throws_bad_bad set_octet_bad throws_bad_bind : core.

Lemma quad_parts_bad parts pos ip : throws_bad (quad_parts parts pos ip).
Proof.
  revert pos ip. induction parts as [|part parts IH]; intros pos ip; [done|].
  apply throws_bad_bind; [|auto]. unfold quad_part. repeat case_match; auto; done.
Qed.

Lemma zero_fill_bad o y ip : throws_bad (zero_fill o y ip).
Proof.
  revert y ip. induction o as [|o IH]; intros y ip; [done|].
  apply throws_bad_bind; [auto|]. intros. apply throws_bad_bind; auto.
Qed.

Lemma apply_parts_bad parts i size y om ip : throws_bad (apply_ipv6_parts parts i size y om ip).
Proof.
  revert i y ip. induction parts as [|part parts IH]; intros i y ip; [done|].
  apply throws_bad_bind; [|intros [? ?]; auto]. unfold apply_ipv6_part.
  destruct (bytes_eqb _ _); [done|]. destruct (is_empty part); [apply zero_fill_bad|].
  destruct (length _ =? 4).
  - destruct (strtol _ _). destruct (not_consumed _); [auto|].
    destruct (strtol _ _). destruct (not_consumed _); [auto|].
    apply throws_bad_bind; [auto|]. intros. by apply throws_bad_bind.
  - destruct (negb _); [auto|]. apply throws_bad_bind; [|done].
    unfold parse_nested_ipv4, validate_ipv4_mapped_prefix.
    repeat (destruct (negb _); [auto|]). apply throws_bad_bind; [destruct (_ || _); auto; done|].
    intros. apply quad_parts_bad.
Qed.

Lemma ip_of_string_message text : throws_bad (ip_of_string text).
Proof.
  unfold ip_of_string, parse_ipv6, parse_ipv4. destruct (bool_decide _).
  - destruct (8 <? _); [auto|]. apply throws_bad_bind; [|intros [? ?]; apply apply_parts_bad].
    unfold compute_ipv6_omitted_segments. repeat (case_match; auto; try done).
  - destruct (negb _); [auto|apply quad_parts_bad].
Qed.

(** C32: Parsing an address never writes outside the sixteen octets, whatever the
    text: it throws, or yields sixteen bytes and a sixteen-bit mask. *)
Theorem ip_of_string_in_bounds text :
  match ip_of_string text with
  | Ok ip => length (octets ip) = 16 /\ Forall (fun v => (0 <= v < 256)%Z) (octets ip)
             /\ (0 <= mask ip < 2 ^ 16)%Z
  | Throw e => exists msg, e = invalid_argument (bs "IP is badly formatted. " ++ msg)
  | Undefined => False
  end.
Proof.
  pose proof (ip_of_string_defined text) as Hd. pose proof (ip_of_string_message text) as Hm.
  destruct (ip_of_string text) as [ip|e|]; [by destruct Hd|done..].
Qed.

(** ** Dotted quads *)

(** An octet or a wildcard. *)
Definition quad_text (c : option Z) : bytes := match c with Some n => dec n | None => bs "*" end.

Definition quad_ok (c : option Z) : Prop := match c with Some n => (0 <= n < 256)%Z | None => True end.

(** A decidable property of bytes holds of all of them when it evaluates so. *)
Lemma all_in_range (lo hi : Z) (P : Z -> bool) :
  forallb P (seqZ lo (hi - lo)) = true -> forall n, (lo <= n < hi)%Z -> P n = true.
Proof.
  intros Hf n Hn. rewrite forallb_forall in Hf. apply Hf, list_elem_of_In, elem_of_seqZ. lia.
Qed.

Lemma dec_octet n : (0 <= n < 256)%Z ->
  strtol (dec n) 10 = (n, []) /\ "."%char ∉ dec n /\ ":"%char ∉ dec n /\ dec n <> bs "*" /\ dec n <> [].
Proof.
  intros Hn. pose proof (all_in_range 0 256 (fun n => bool_decide (strtol (dec n) 10 = (n, [])
    /\ "."%char ∉ dec n /\ ":"%char ∉ dec n /\ dec n <> bs "*" /\ dec n <> []))) as Ha.
  specialize (Ha ltac:(vm_compute; reflexivity) n Hn). by apply bool_decide_eq_true in Ha.
Qed.

Lemma quad_text_clean c : quad_ok c -> "."%char ∉ quad_text c /\ ":"%char ∉ quad_text c /\ quad_text c <> [].
Proof.
  destruct c as [n|]; simpl; [intros Hn; apply dec_octet in Hn; tauto|].
  intros _. split_and!; by apply (bool_decide_unpack _).
Qed.

Lemma quad_part_text c pos ip :
  quad_ok c -> pos < 16 ->
  quad_part (quad_text c) pos ip =
    Ok match c with
       | Some n => Ip (ip_version ip) (<[pos := n]> (octets ip)) (mask ip)
       | None => clear_mask ip pos
       end.
Proof.
  intros Hc Hp. unfold quad_part. destruct c as [n|]; [|done]. simpl in Hc. cbn [quad_text].
  destruct (dec_octet n Hc) as (Hs & _ & _ & Hne & _).
  rewrite (proj2 (bytes_eqb_false _ _)) by done. rewrite Hs. cbn [fst].
  rewrite (proj2 (Z.ltb_ge _ _)), (proj2 (Z.ltb_ge _ _)) by lia. cbn [orb].
  unfold set_octet. rewrite (proj2 (Nat.ltb_lt _ _) Hp). unfold wrap8. by rewrite Z.mod_small.
Qed.

Lemma string_split_quad (l : list bytes) :
  Forall (fun s => "."%char ∉ s /\ s <> []) l -> l <> [] ->
  string_split (join (bs ".") l) "." true = l.
Proof.
  intros Hl Hne. rewrite string_split_filter. unfold fields_no_tail.
  rewrite split_join; [|done|by eapply Forall_impl; [exact Hl|intros ? []]].
  assert (Hlast : match last l with Some [] => removelast l | _ => l end = l).
  { destruct (last l) as [[|c s]|] eqn:E; [|done..]. apply last_Some_elem_of in E.
    rewrite Forall_forall in Hl. by apply Hl in E as [_ ?]. }
  rewrite Hlast. clear Hne Hlast. induction Hl as [|s l [_ Hs] Hl IH]; [done|].
  cbn [List.filter]. destruct s; [done|]. cbn [negb orb is_empty] in *. by rewrite IH.
Qed.

Lemma no_colon_join (l : list bytes) :
  Forall (fun s => ":"%char ∉ s) l -> ":"%char ∉ join (bs ".") l.
Proof.
  induction 1 as [|x [|y l] Hx Hl IH]; [apply not_elem_of_nil|done|].
  rewrite join_cons, !elem_of_app. intros [?|[Hd|?]]; [done| |done].
  by apply list_elem_of_singleton in Hd.
Qed.

(** The octets of a dotted quad with wildcards. *)
Definition quad_ip (c1 c2 c3 c4 : option Z) : ip_representation :=
  Ip IPV4 (replicate 12 0%Z ++ map (default 0%Z) [c1; c2; c3; c4])
     (mask (foldl clear_mask (zero_ip IPV4)
        (List.filter (fun i => bool_decide (nth (i - 12) [c1; c2; c3; c4] (Some 0%Z) = None)) (seq 12 4)))).

Lemma ip_of_quad c1 c2 c3 c4 :
  Forall quad_ok [c1; c2; c3; c4] ->
  ip_of_string (join (bs ".") (map quad_text [c1; c2; c3; c4])) = Ok (quad_ip c1 c2 c3 c4).
Proof.
  intros Hq. unfold ip_of_string.
  assert (Hc : Forall (fun s => "."%char ∉ s /\ ":"%char ∉ s /\ s <> []) (map quad_text [c1; c2; c3; c4])).
  { apply Forall_map. eapply Forall_impl; [exact Hq|]. intros c. apply quad_text_clean. }
  assert (Hn : find_char ":" (join (bs ".") (map quad_text [c1; c2; c3; c4])) = None).
  { apply find_char_None, no_colon_join. eapply Forall_impl; [exact Hc|]. by intros ? (? & ? & ?). }
  rewrite bool_decide_false by (rewrite Hn; by intros [? ?]). unfold parse_ipv4.
  rewrite string_split_quad; [|eapply Forall_impl; [exact Hc|]; by intros ? (? & ? & ?)|done].
  cbn [map length Nat.eqb negb quad_parts].
  rewrite !Forall_cons in Hq. destruct Hq as (H1 & H2 & H3 & H4 & _).
  rewrite (quad_part_text c1) by (done || lia). cbn [mbind outcome_bind].
  rewrite (quad_part_text c2) by (done || lia). cbn [mbind outcome_bind].
  rewrite (quad_part_text c3) by (done || lia). cbn [mbind outcome_bind].
  rewrite (quad_part_text c4) by (done || lia). cbn [mbind outcome_bind].
  by destruct c1, c2, c3, c4.
Qed.

(** The parser reads every dotted quad of decimal octets and wildcards: the
    octets at 12 to 15, zeros before, and exactly the wildcard positions
    cleared in the mask. *)
Theorem ip_of_string_quad c1 c2 c3 c4 :
  Forall quad_ok [c1; c2; c3; c4] ->
  exists ip,
    ip_of_string (join (bs ".") (map quad_text [c1; c2; c3; c4])) = Ok ip
    /\ ip_version ip = IPV4
    /\ octets ip = replicate 12 0%Z ++ map (default 0%Z) [c1; c2; c3; c4]
    /\ forall i, i < 16 ->
         check_bit (mask ip) i = negb (bool_decide (nth i (replicate 12 (Some 0%Z) ++ [c1; c2; c3; c4]) None = None)).
Proof.
  intros Hq. exists (quad_ip c1 c2 c3 c4). split; [by apply ip_of_quad|]. split_and!; [done..|].
  intros i Hi. do 16 (destruct i as [|i]; [by destruct c1, c2, c3, c4|]). lia.
Qed.

Lemma ip_of_string_quad_witness :
  Forall quad_ok [Some 192; Some 168; None; Some 1]%Z
  /\ exists ip, ip_of_string (bs "192.168.*.1") = Ok ip /\ check_bit (mask ip) 14 = false.
Proof.
  assert (Hq : Forall quad_ok [Some 192; Some 168; None; Some 1]%Z) by (repeat (constructor; [simpl; lia|]); constructor).
  split; [exact Hq|].
  destruct (ip_of_string_quad _ _ _ _ Hq) as (ip & Hip & _ & _ & Hm). exists ip.
  split; [exact Hip|]. exact (Hm 14 ltac:(lia)).
Defined.

(** ** Membership in the access lists *)

(** An address is covered by an entry when it agrees on the octets the entry
    does not leave open. *)
Definition covers (entry peer : ip_representation) : Prop :=
  forall i, i < 16 -> check_bit (mask entry) i = true -> octet entry i = octet peer i.

Lemma octet_score_covers a b i s :
  i < 16 -> s.1 = s.2 -> (check_bit (mask a) i = true -> octet a i = octet b i) ->
  (octet_score a b i s).1 = (octet_score a b i s).2.
Proof.
  intros Hi Hs Ho. unfold octet_score. destruct (check_bit (mask a) i); simpl; [|done].
  destruct (check_bit (mask b) i); simpl; [|done]. rewrite Ho, Hs by done. done.
Qed.

Lemma octet_score_swap a b i s : octet_score b a i (s.2, s.1) = ((octet_score a b i s).2, (octet_score a b i s).1).
Proof. unfold octet_score. destruct (check_bit (mask a) i), (check_bit (mask b) i); done. Qed.

Lemma scores_covers a b l s :
  Forall (fun i => i < 16 /\ (check_bit (mask a) i = true -> octet a i = octet b i)) l -> s.1 = s.2 ->
  (foldl (fun s i => octet_score a b i s) s l).1 = (foldl (fun s i => octet_score a b i s) s l).2.
Proof.
  intros Hl. revert s. induction Hl as [|i l [Hi Ho] Hl IH]; intros s Hs; [done|]. apply IH.
  by apply octet_score_covers.
Qed.

Lemma scores_swap a b l s :
  foldl (fun s i => octet_score b a i s) (s.2, s.1) l =
  ((foldl (fun s i => octet_score a b i s) s l).2, (foldl (fun s i => octet_score a b i s) s l).1).
Proof.
  revert s. induction l as [|i l IH]; intros s; [done|]. cbn [foldl]. by rewrite octet_score_swap, IH.
Qed.

Definition all_scores (a b : ip_representation) : Z * Z :=
  octet_score a b 11 (octet_score a b 10
    (foldl (fun s i => octet_score a b i s) (0%Z, 0%Z) (seq 0 10 ++ seq 12 4))).

Lemma ip_lt_scores a b : ip_lt a b = true -> ((all_scores a b).1 < (all_scores a b).2)%Z.
Proof. unfold ip_lt, all_scores. case_match; [done|]. apply Z.ltb_lt. Qed.

Lemma all_scores_swap a b : all_scores b a = ((all_scores a b).2, (all_scores a b).1).
Proof.
  unfold all_scores. rewrite (scores_swap a b _ (0%Z, 0%Z)). by rewrite !octet_score_swap.
Qed.

Lemma covers_equivalent a b : covers a b -> ip_lt a b = false /\ ip_lt b a = false.
Proof.
  intros Hc. assert (He : (all_scores a b).1 = (all_scores a b).2).
  { unfold all_scores. do 2 (apply octet_score_covers; [lia| |by apply Hc; lia]).
    apply scores_covers; [|done]. apply Forall_forall. intros i Hi.
    assert (i < 16); [|split; [done|by apply Hc]].
    rewrite elem_of_app, !elem_of_seq in Hi. lia. }
  split; apply not_true_iff_false; intros Hlt%ip_lt_scores; [lia|].
  rewrite all_scores_swap in Hlt. simpl in Hlt. lia.
Qed.

(** A list that holds one entry recognises every address the entry covers,
    wildcards included, whether the entry was stored as deny or allow. *)
Theorem single_entry_covers text a entry peer :
  ip_of_string text = Ok entry -> covers entry peer ->
  deny_list_ a = [] -> allow_list_ a = [] ->
  denied (classify (fst (deny text a)) peer) = true
  /\ allowed (classify (fst (allow text a)) peer) = true
  /\ denied (classify (fst (remove_denied text (fst (deny text a)))) peer) = false.
Proof.
  intros Ht Hc Hd Ha. destruct (covers_equivalent _ _ Hc) as [H1 H2].
  assert (Hr : ip_lt entry entry = false) by (by apply covers_equivalent).
  unfold deny, allow, remove_denied, classify. rewrite Ht. cbn [fst deny_list_ allow_list_].
  rewrite Hd, Ha. simpl. rewrite H1, H2, Hr. done.
Qed.

Lemma single_entry_covers_witness :
  exists entry, ip_of_string (bs "10.0.*.*") = Ok entry
  /\ covers entry (ip_of_sockaddr (AF_INET [10; 0; 7; 9]%Z 80))
  /\ denied (classify (fst (deny (bs "10.0.*.*") (Acl [] []))) (ip_of_sockaddr (AF_INET [10; 0; 7; 9]%Z 80))) = true.
Proof.
  destruct (ip_of_string (bs "10.0.*.*")) as [entry| |] eqn:E; [|discriminate E..]. exists entry.
  split; [done|].
  assert (Hc : covers entry (ip_of_sockaddr (AF_INET [10; 0; 7; 9]%Z 80))).
  { vm_compute in E. injection E as <-. intros i Hi.
    do 16 (destruct i as [|i]; [vm_compute; congruence|]). lia. }
  split; [exact Hc|]. exact (proj1 (single_entry_covers _ (Acl [] []) _ _ E Hc eq_refl eq_refl)).
Defined.

(** *** Plain IPv4 lists *)

(** A full IPv4 address and the score the order compares. *)
Definition plain (ip : ip_representation) : Prop :=
  exists a b c d, ip = Ip IPV4 (replicate 12 0%Z ++ [a; b; c; d]) DEFAULT_MASK_VALUE.

Definition score (ip : ip_representation) : Z :=
  (4 * octet ip 12 + 3 * octet ip 13 + 2 * octet ip 14 + octet ip 15)%Z.

Definition weighted_sum (ip : ip_representation) (l : list nat) : Z :=
  foldr (fun i acc => (Z.of_nat (16 - i) * octet ip i + acc)%Z) 0%Z l.

Lemma octet_score_full x y i s :
  mask x = DEFAULT_MASK_VALUE -> mask y = DEFAULT_MASK_VALUE -> i < 16 ->
  octet_score x y i s = ((s.1 + Z.of_nat (16 - i) * octet x i)%Z, (s.2 + Z.of_nat (16 - i) * octet y i)%Z).
Proof.
  intros Hx Hy Hi. unfold octet_score. rewrite Hx, Hy.
  assert (Hb : check_bit DEFAULT_MASK_VALUE i = true).
  { do 16 (destruct i as [|i]; [done|]). lia. }
  by rewrite Hb.
Qed.

Lemma scores_full x y l s :
  mask x = DEFAULT_MASK_VALUE -> mask y = DEFAULT_MASK_VALUE -> Forall (fun i => i < 16) l ->
  foldl (fun s i => octet_score x y i s) s l = ((s.1 + weighted_sum x l)%Z, (s.2 + weighted_sum y l)%Z).
Proof.
  intros Hx Hy Hl. revert s. induction Hl as [|i l Hi Hl IH]; intros s; cbn [foldl weighted_sum foldr].
  - destruct s. simpl. f_equal; lia.
  - rewrite IH, octet_score_full by done. cbn [fst snd]. unfold weighted_sum. f_equal; lia.
Qed.

Lemma weighted_sum_plain x : plain x -> weighted_sum x (seq 0 10 ++ seq 12 4) = score x.
Proof.
  intros (a & b & c & d & ->). unfold weighted_sum, score, octet.
  cbn [seq app foldr octets lookup list_lookup default replicate Nat.sub Z.of_nat]. simpl. lia.
Qed.

Lemma ip_lt_plain x y : plain x -> plain y -> ip_lt x y = (score x <? score y)%Z.
Proof.
  intros Hx Hy. unfold ip_lt.
  assert (Hmx : mask x = DEFAULT_MASK_VALUE) by (by destruct Hx as (? & ? & ? & ? & ->)).
  assert (Hmy : mask y = DEFAULT_MASK_VALUE) by (by destruct Hy as (? & ? & ? & ? & ->)).
  rewrite scores_full, !weighted_sum_plain by (try done; repeat (constructor; [lia|]); constructor).
  assert (Hz : forall z i, plain z -> 10 <= i < 12 -> octet z i = 0%Z).
  { intros z i (a & b & c & d & ->) Hi. unfold octet. cbn [octets].
    rewrite lookup_app_l, lookup_replicate_2 by (rewrite ?length_replicate; lia). done. }
  rewrite !octet_score_full by (done || lia). rewrite !Hz by (done || lia).
  cbn [fst snd]. change (is_v4_mapped_prefix_octet_pair 0 0) with true. rewrite !andb_true_r.
  rewrite !Z.mul_0_r, !Z.add_0_r, !Z.add_0_l. destruct (score x =? score y)%Z eqn:E; [|done].
  bool_prop. symmetry. apply Z.ltb_ge. lia.
Qed.

Lemma weight_plain x : plain x -> weight x = 16.
Proof. by intros (a & b & c & d & ->). Qed.

(** A list of plain addresses in strictly increasing score. *)
Inductive sorted_plain : list ip_representation -> Prop :=
| sorted_nil : sorted_plain []
| sorted_cons x l : plain x -> sorted_plain l -> Forall (fun y => (score x < score y)%Z) l ->
    sorted_plain (x :: l).

Lemma sorted_all_plain l : sorted_plain l -> Forall plain l.
Proof. by induction 1; constructor. Qed.

Definition has_score (z : Z) (l : list ip_representation) : Prop := Exists (fun x => score x = z) l.

Lemma has_score_above z x l : Forall (fun y => (score x < score y)%Z) l -> (z <= score x)%Z -> ~ has_score z l.
Proof.
  intros Hl Hz Hs. induction Hs as [y l Hy|y l Hs IH]; inversion Hl; subst; [lia|auto].
Qed.

Lemma set_find_plain k l :
  plain k -> sorted_plain l -> is_Some (set_find k l) <-> has_score (score k) l.
Proof.
  intros Hk. induction 1 as [|x l Hx Hl IH Hlt]; simpl.
  { split; [by intros [? ?]|by intros ?%Exists_nil]. }
  rewrite !ip_lt_plain by done. unfold has_score. rewrite Exists_cons. fold (has_score (score k) l).
  destruct (score x <? score k)%Z eqn:E1; bool_prop.
  { rewrite IH. split; [by right|]. intros [?|?]; [lia|done]. }
  destruct (score k <? score x)%Z eqn:E2 in |- *; bool_prop.
  - split; [by intros [? ?]|]. intros [?|Hs]; [lia|]. exfalso.
    by eapply (has_score_above (score k)) in Hlt; [|lia].
  - split; [|eauto]. intros _. left. lia.
Qed.

Lemma set_insert_plain k l :
  plain k -> sorted_plain l ->
  sorted_plain (set_insert k l) /\ forall z, has_score z (set_insert k l) <-> z = score k \/ has_score z l.
Proof.
  intros Hk. induction 1 as [|x l Hx Hl IH Hlt]; cbn [set_insert].
  { split; [by repeat constructor|]. intros z. unfold has_score. rewrite Exists_cons. intuition. }
  rewrite !ip_lt_plain by done. destruct IH as [IHs IHz].
  destruct (score x <? score k)%Z eqn:E1; bool_prop.
  - split.
    + constructor; [done..|]. apply Forall_forall. intros y Hy.
      assert (Hsy : has_score (score y) (set_insert k l)) by (apply Exists_exists; eauto).
      apply IHz in Hsy as [->|Hsy]; [done|]. apply Exists_exists in Hsy as (w & Hw & <-).
      rewrite Forall_forall in Hlt. by apply Hlt.
    + intros z. unfold has_score in *. rewrite !Exists_cons, IHz. tauto.
  - destruct (score k <? score x)%Z eqn:E2 in |- *; bool_prop.
    + split; [|intros z; unfold has_score; rewrite !Exists_cons; intuition].
      constructor; [done|by constructor|]. constructor; [done|].
      eapply Forall_impl; [exact Hlt|]. simpl. lia.
    + split; [by constructor|]. intros z. unfold has_score. rewrite !Exists_cons.
      assert (score x = score k) by lia. intuition congruence.
Qed.

Lemma set_erase_plain k l :
  plain k -> sorted_plain l ->
  sorted_plain (set_erase k l) /\ forall z, has_score z (set_erase k l) <-> z <> score k /\ has_score z l.
Proof.
  intros Hk. induction 1 as [|x l Hx Hl IH Hlt]; cbn [set_erase].
  { split; [constructor|]. intros z. unfold has_score. rewrite Exists_nil. tauto. }
  rewrite !ip_lt_plain by done. destruct IH as [IHs IHz].
  destruct (score x <? score k)%Z eqn:E1; bool_prop.
  - split.
    + constructor; [done..|]. apply Forall_forall. intros y Hy.
      assert (Hsy : has_score (score y) (set_erase k l)) by (apply Exists_exists; eauto).
      apply IHz in Hsy as [_ Hsy]. apply Exists_exists in Hsy as (w & Hw & Hs).
      rewrite Forall_forall in Hlt. apply Hlt in Hw. lia.
    + intros z. unfold has_score in *. rewrite !Exists_cons, IHz. intuition lia.
  - destruct (score k <? score x)%Z eqn:E2 in |- *; bool_prop.
    + split; [by constructor|]. intros z. split; [|tauto]. intros Hs. split; [|done]. intros ->.
      unfold has_score in Hs. rewrite Exists_cons in Hs. destruct Hs as [?|Hs]; [lia|].
      by eapply (has_score_above (score k)) in Hlt; [|lia].
    + split; [done|]. intros z. unfold has_score. rewrite Exists_cons.
      assert (score x = score k) by lia. split; [|intuition congruence].
      intros Hs. split; [|by right]. intros ->. by eapply (has_score_above (score k)) in Hlt; [|lia].
Qed.

Lemma insert_wildcard_aware_plain k l :
  plain k -> sorted_plain l -> insert_wildcard_aware l k = set_insert k l.
Proof.
  intros Hk Hl. unfold insert_wildcard_aware. destruct (set_find k l) as [it|] eqn:E; [|done].
  assert (Hit : plain it).
  { clear Hk. pose proof (sorted_all_plain _ Hl) as Hp. clear Hl. induction Hp as [|x l Hx Hp IH]; [done|].
    simpl in E. repeat case_match; simplify_eq; auto. }
  by rewrite !weight_plain by done.
Qed.

(** *** Sequences of list operations on plain addresses *)

Inductive acl_op : Type := OpDeny (q : Z * Z * Z * Z) | OpRemoveDenied (q : Z * Z * Z * Z).

Definition quad (q : Z * Z * Z * Z) : list (option Z) :=
  let '(a, b, c, d) := q in [Some a; Some b; Some c; Some d].

Definition quad_string (q : Z * Z * Z * Z) : bytes := join (bs ".") (map quad_text (quad q)).

Definition quad_score (q : Z * Z * Z * Z) : Z := let '(a, b, c, d) := q in (4 * a + 3 * b + 2 * c + d)%Z.

Definition acl_exec (a : ip_access_control) (op : acl_op) : ip_access_control :=
  fst match op with
      | OpDeny q => deny (quad_string q) a
      | OpRemoveDenied q => remove_denied (quad_string q) a
      end.

Definition score_exec (s : gset Z) (op : acl_op) : gset Z :=
  match op with OpDeny q => {[quad_score q]} ∪ s | OpRemoveDenied q => s ∖ {[quad_score q]} end.

Definition op_quad (op : acl_op) : Z * Z * Z * Z := match op with OpDeny q | OpRemoveDenied q => q end.

Lemma quad_string_plain q :
  Forall quad_ok (quad q) ->
  exists ip, ip_of_string (quad_string q) = Ok ip /\ plain ip /\ score ip = quad_score q.
Proof.
  destruct q as [[[a b] c] d]. intros Hq. unfold quad_string. simpl quad.
  rewrite (ip_of_quad _ _ _ _ Hq). eexists. split; [done|]. split; [|done]. by eexists _, _, _, _.
Qed.

Lemma acl_exec_scores op a s :
  Forall quad_ok (quad (op_quad op)) -> sorted_plain (deny_list_ a) ->
  (forall z, has_score z (deny_list_ a) <-> z ∈ s) ->
  sorted_plain (deny_list_ (acl_exec a op))
  /\ forall z, has_score z (deny_list_ (acl_exec a op)) <-> z ∈ score_exec s op.
Proof.
  intros Hq Hs Hz. destruct op as [q|q]; destruct (quad_string_plain q Hq) as (ip & Hip & Hp & Hsc);
    unfold acl_exec, score_exec, deny, remove_denied; rewrite Hip, <-Hsc; cbn [fst deny_list_].
  - rewrite insert_wildcard_aware_plain by done. destruct (set_insert_plain ip _ Hp Hs) as [? Hi].
    split; [done|]. intros z. rewrite Hi, Hz. set_solver.
  - destruct (set_erase_plain ip _ Hp Hs) as [? He]. split; [done|]. intros z. rewrite He, Hz. set_solver.
Qed.

(** What the deny list decides: after any sequence of [deny] and
    [remove_denied] of IPv4 addresses, an IPv4 peer is denied exactly when the
    weighted sum of its octets is among the sums of the denied addresses, as a
    set of sums. *)
Theorem deny_list_is_a_set_of_scores ops p :
  Forall (fun op => Forall quad_ok (quad (op_quad op))) ops ->
  let a := foldl acl_exec (Acl [] []) ops in
  let '(x, y, z, w) := p in
  denied (classify a (ip_of_sockaddr (AF_INET [x; y; z; w] 0)))
  = bool_decide (quad_score p ∈ foldl score_exec ∅ ops).
Proof.
  intros Hops. destruct p as [[[x y] z] w]. cbv zeta.
  assert (Hinv : forall a s, sorted_plain (deny_list_ a) -> (forall z, has_score z (deny_list_ a) <-> z ∈ s) ->
    sorted_plain (deny_list_ (foldl acl_exec a ops))
    /\ forall z, has_score z (deny_list_ (foldl acl_exec a ops)) <-> z ∈ foldl score_exec s ops).
  { induction Hops as [|op ops Hop Hops IH]; intros a s Hs Hz; [done|]. cbn [foldl].
    destruct (acl_exec_scores op a s Hop Hs Hz). by apply IH. }
  destruct (Hinv (Acl [] []) ∅) as [Hs Hz]; [constructor| |].
  { intros v. unfold has_score. simpl. rewrite Exists_nil. set_solver. }
  unfold classify. simpl denied. apply bool_decide_ext. rewrite set_find_plain; [apply Hz| |done].
  by eexists _, _, _, _.
Qed.

Lemma deny_list_is_a_set_of_scores_witness :
  Forall (fun op => Forall quad_ok (quad (op_quad op))) [OpDeny (1, 2, 3, 4)%Z]
  /\ denied (classify (fst (deny (bs "1.2.3.4") (Acl [] []))) (ip_of_sockaddr (AF_INET [1; 2; 4; 2]%Z 0))) = true.
Proof.
  assert (Hf : Forall (fun op => Forall quad_ok (quad (op_quad op))) [OpDeny (1, 2, 3, 4)%Z]).
  { constructor; [|constructor]. repeat (constructor; [simpl; lia|]); constructor. }
  split; [exact Hf|]. exact (deny_list_is_a_set_of_scores [OpDeny (1, 2, 3, 4)%Z] (1, 2, 4, 2)%Z Hf).
Defined.

(** Denying one address denies an unrelated one. *)
Theorem deny_hits_unrelated_address :
  policy_callback true ACCEPT (fst (deny (bs "1.2.3.4") (Acl [] []))) (AF_INET [1; 2; 4; 2]%Z 0)
  = (false, Some (bs "denied")).
Proof. by vm_compute. Qed.

(** With wildcards the order is not transitive, so it is no strict weak
    ordering. *)
Theorem ip_lt_not_transitive :
  exists a b c, (exists t, ip_of_string t = Ok a) /\ (exists t, ip_of_string t = Ok b)
    /\ (exists t, ip_of_string t = Ok c)
    /\ ip_lt a b = false /\ ip_lt b a = false /\ ip_lt b c = false /\ ip_lt c b = false /\ ip_lt a c = true.
Proof.
  exists (quad_ip (Some 1) (Some 1) (Some 1) (Some 1))%Z, (quad_ip None None None None),
         (quad_ip (Some 2) (Some 2) (Some 2) (Some 2))%Z.
  split_and!; [by exists (bs "1.1.1.1")|by exists (bs "*.*.*.*")|by exists (bs "2.2.2.2")|by vm_compute..].
Qed.

(** The placeholder count ignores a nested IPv4 address unless the text starts
    with [::]. *)
Theorem nested_ipv4_after_zero_rejected :
  ip_of_string (bs "0::ffff:1.2.3.4") = bad "Missing parts before nested IPV4."
  /\ exists ip, ip_of_string (bs "::ffff:1.2.3.4") = Ok ip.
Proof. split; [by vm_compute|]. eexists. by vm_compute. Qed.
