(* ===== verification/PeerAddress.v ===== *)
(** * Peer addresses

    [peer_address.cpp]: the canonical text of an address (RFC 5952), and
    [make_peer_address] of [detail/webserver_callbacks.cpp].  The text is shown
    to be read back by the parser of [ip_representation]. *)

From S2P Require Import Prelude HttpUtils IpAddress.
Import StringUtilities Ip.

Module Peer.

Inductive family : Type := ipv4 | ipv6 | unspec.

Record peer_address : Type := PeerAddress { fam : family; addr_bytes : list Z; port : Z }.

(** From a socket address, [None] for a null pointer. *)
Definition make_peer_address (addr : option sockaddr) : peer_address :=
  match addr with
  | None => PeerAddress unspec (replicate 16 0%Z) 0
  | Some (AF_INET a p) => PeerAddress ipv4 (take 4 a ++ replicate 12 0%Z) (htons p)
  | Some (AF_INET6 a p) => PeerAddress ipv6 (take 16 a) (htons p)
  | Some (AF_OTHER _) => PeerAddress unspec (replicate 16 0%Z) 0
  end.

Definition byte_at (octs : list Z) (i : nat) : Z := default 0%Z (octs !! i).

Definition assemble_groups (octs : list Z) : list Z :=
  map (fun i => wrap16 (Z.lor (Z.shiftl (byte_at octs (2 * i)) 8) (byte_at octs (2 * i + 1)))) (seq 0 8).

Definition is_ipv4_mapped (g : list Z) : bool :=
  forallb (fun i => (byte_at g i =? 0)%Z) (seq 0 5) && (byte_at g 5 =? 0xffff)%Z.

(** [%u.%u.%u.%u] *)
Definition quad_format (a b c d : Z) : bytes :=
  dec a ++ bs "." ++ dec b ++ bs "." ++ dec c ++ bs "." ++ dec d.

(** The result of [snprintf] into a buffer of [size] bytes, of which the code
    takes [n] bytes, [n] being the untruncated length. *)
Definition snprintf_string (size : nat) (text : bytes) : outcome bytes :=
  if length text <? size then Ok text else Undefined.

Definition format_ipv4_mapped (octs : list Z) : outcome bytes :=
  snprintf_string 24 (bs "::ffff:" ++ quad_format (byte_at octs 12) (byte_at octs 13)
                                                  (byte_at octs 14) (byte_at octs 15)).

(** [start = -1] is [None]. *)
Record zero_run : Type := ZeroRun { zr_start : option nat; zr_len : nat }.

Fixpoint zero_run_loop (g : list Z) (i run_start run_len : nat) (best : zero_run) : zero_run :=
  match g with
  | [] => best
  | v :: g =>
      if negb (v =? 0)%Z then zero_run_loop g (S i) run_start 0 best
      else
        let run_start := if run_len =? 0 then i else run_start in
        let run_len := S run_len in
        let best := if zr_len best <? run_len then ZeroRun (Some run_start) run_len else best in
        zero_run_loop g (S i) run_start run_len best
  end.

Definition find_longest_zero_run (g : list Z) : zero_run :=
  let best := zero_run_loop g 0 0 0 (ZeroRun None 0) in
  if zr_len best <? 2 then ZeroRun None 0 else best.

Definition hex_lower (z : Z) : ascii := if (z <? 10)%Z then chr (48 + z) else chr (87 + z).

Fixpoint hex_loop (fuel : nat) (z : Z) (acc : bytes) : bytes :=
  match fuel with
  | 0 => acc
  | S fuel => if (z <? 16)%Z then hex_lower z :: acc else hex_loop fuel (z / 16) (hex_lower (z mod 16) :: acc)
  end.

(** [%x] of a 16-bit group *)
Definition hex (z : Z) : bytes := hex_loop 4 z [].

(** [buf[pos++] = c] on the buffer of 40 bytes. *)
Definition put (c : ascii) (buf : bytes) : outcome bytes :=
  if length buf <? 40 then Ok (buf ++ [c]) else Undefined.

(** Each iteration advances [i], so nine rounds are enough. *)
Fixpoint emit_loop (fuel : nat) (g : list Z) (collapse : zero_run) (i : nat) (buf : bytes) : outcome bytes :=
  match fuel with
  | 0 => Ok buf
  | S fuel =>
      if i <? 8 then
        if bool_decide (zr_start collapse = Some i) then
          buf ← put ":" buf;
          buf ← put ":" buf;
          emit_loop fuel g collapse (i + zr_len collapse) buf
        else
          let text := hex (byte_at g i) in
          if 40 - length buf <=? length text then Ok buf
          else
            let buf := buf ++ text in
            let i := S i in
            buf ← (if (i <? 8) && negb (bool_decide (zr_start collapse = Some i)) then put ":" buf else Ok buf);
            emit_loop fuel g collapse i buf
      else Ok buf
  end.

Definition emit_canonical (g : list Z) (collapse : zero_run) : outcome bytes := emit_loop 9 g collapse 0 [].

Definition ipv6_canonical (octs : list Z) : outcome bytes :=
  let groups := assemble_groups octs in
  if is_ipv4_mapped groups then format_ipv4_mapped octs
  else emit_canonical groups (find_longest_zero_run groups).

Definition to_string (p : peer_address) : outcome bytes :=
  match fam p with
  | ipv4 => snprintf_string 16 (quad_format (byte_at (addr_bytes p) 0) (byte_at (addr_bytes p) 1)
                                            (byte_at (addr_bytes p) 2) (byte_at (addr_bytes p) 3))
  | ipv6 => ipv6_canonical (addr_bytes p)
  | unspec => Ok []
  end.

End Peer.
Import Peer.

(** ** Hexadecimal groups *)

Lemma hex_lower_pair a b : (0 <= a < 16)%Z -> (0 <= b < 16)%Z ->
  strtol [hex_lower a; hex_lower b] 16 = ((16 * a + b)%Z, []).
Proof.
  intros Ha Hb. pose proof (all_in_range 0 16 (fun a => forallb (fun b => bool_decide
    (strtol [hex_lower a; hex_lower b] 16 = ((16 * a + b)%Z, []))) (seqZ 0 16))) as H.
  specialize (H ltac:(vm_compute; reflexivity) a Ha). rewrite forallb_forall in H.
  assert (Hin : In b (seqZ 0 16)) by (apply list_elem_of_In, elem_of_seqZ; lia).
  apply H in Hin. by apply bool_decide_eq_true in Hin.
Qed.

Lemma hex_lower_plain a : (0 <= a < 16)%Z ->
  hex_lower a <> ":"%char /\ hex_lower a <> "."%char /\ hex_lower a <> "*"%char.
Proof.
  intros Ha. pose proof (all_in_range 0 16 (fun a => bool_decide
    (hex_lower a <> ":"%char /\ hex_lower a <> "."%char /\ hex_lower a <> "*"%char))) as H.
  specialize (H ltac:(vm_compute; reflexivity) a Ha). by apply bool_decide_eq_true in H.
Qed.

Definition nibbles (g : Z) : list Z := [(g / 4096)%Z; (g / 256 mod 16)%Z; (g / 16 mod 16)%Z; (g mod 16)%Z].

(** The shortest text of a group: its nibbles from the first non-zero one. *)
Lemma hex_nibbles g : (0 <= g < 65536)%Z ->
  exists k, k < 4 /\ hex g = map hex_lower (drop k (nibbles g)) /\ take k (nibbles g) = replicate k 0%Z.
Proof.
  intros Hg. unfold hex, nibbles. cbn [hex_loop].
  assert (H1 : (g / 16 / 16 = g / 256)%Z) by (rewrite Z.div_div by lia; done).
  assert (H2 : (g / 256 / 16 = g / 4096)%Z) by (rewrite Z.div_div by lia; done).
  assert (H3 : forall z k, (0 < k)%Z -> (0 <= z < k)%Z -> (z / k = 0)%Z) by (intros; by apply Z.div_small).
  destruct (g <? 16)%Z eqn:E1; bool_prop.
  { exists 3. split; [lia|]. cbn [drop take map replicate]. rewrite (Z.mod_small g 16) by lia.
    rewrite (H3 g 4096%Z), (H3 g 256%Z), (H3 g 16%Z) by lia. done. }
  destruct (g / 16 <? 16)%Z eqn:E2; bool_prop.
  { exists 2. split; [lia|]. cbn [drop take map replicate].
    assert (0 <= g / 16)%Z by (apply Z.div_pos; lia).
    assert (g < 256)%Z by (pose proof (Z.mul_succ_div_gt g 16); lia).
    rewrite (Z.mod_small (g / 16) 16) by lia. rewrite (H3 g 4096%Z), (H3 g 256%Z) by lia. done. }
  rewrite H1. destruct (g / 256 <? 16)%Z eqn:E3; bool_prop.
  { exists 1. split; [lia|]. cbn [drop take map replicate].
    assert (0 <= g / 256)%Z by (apply Z.div_pos; lia).
    assert (g < 4096)%Z by (pose proof (Z.mul_succ_div_gt g 256); lia).
    rewrite (Z.mod_small (g / 256) 16) by lia. rewrite (H3 g 4096%Z) by lia. done. }
  rewrite H2. exists 0. split; [lia|]. cbn [drop take map replicate].
  assert (g / 4096 < 16)%Z by (apply Z.div_lt_upper_bound; lia).
  rewrite (proj2 (Z.ltb_lt _ _)) by done. done.
Qed.

Lemma nibbles_range g : (0 <= g < 65536)%Z -> Forall (fun n => (0 <= n < 16)%Z) (nibbles g).
Proof.
  intros Hg. unfold nibbles. repeat constructor; try (apply Z.mod_pos_bound; lia).
  - apply Z.div_pos; lia.
  - apply Z.div_lt_upper_bound; lia.
Qed.

Lemma hex_group g : (0 <= g < 65536)%Z ->
  strtol (substr (pad4 (hex g)) 0 2) 16 = ((g / 256)%Z, [])
  /\ strtol (substr (pad4 (hex g)) 2 2) 16 = ((g mod 256)%Z, [])
  /\ ":"%char ∉ hex g /\ "."%char ∉ hex g /\ hex g <> bs "*" /\ hex g <> [] /\ length (hex g) <= 4.
Proof.
  intros Hg. pose proof (nibbles_range g Hg) as Hn. destruct (hex_nibbles g Hg) as (k & Hk & He & Hz).
  assert (Hpad : pad4 (hex g) = map hex_lower (nibbles g)).
  { unfold pad4. rewrite He, length_map, length_drop. simpl length.
    replace (4 - (4 - k)) with k by lia.
    change (replicate k "0"%char) with (replicate k (hex_lower 0)).
    assert (Hr : forall k, replicate k (hex_lower 0) = map hex_lower (replicate k 0%Z))
      by (intros m; induction m as [|m IH]; [done|]; cbn [replicate map]; by rewrite IH).
    rewrite Hr, <-Hz, <-map_app, take_drop. done. }
  assert (Hc : forall c, c ∈ hex g -> c <> ":"%char /\ c <> "."%char /\ c <> "*"%char).
  { intros c Hin. rewrite He in Hin. apply list_elem_of_fmap in Hin as (n & -> & Hin).
    apply hex_lower_plain. rewrite Forall_forall in Hn. apply Hn.
    rewrite <-(take_drop k (nibbles g)). apply elem_of_app. by right. }
  assert (Hlen : length (hex g) = 4 - k) by (rewrite He, length_map, length_drop; done).
  unfold nibbles in *. rewrite !Forall_cons in Hn. destruct Hn as (N1 & N2 & N3 & N4 & _).
  rewrite Hpad. cbn [map substr take drop]. split_and!.
  - unfold substr. cbn [take drop]. rewrite hex_lower_pair by done. f_equal.
    change 4096%Z with (256 * 16)%Z. rewrite <-Z.div_div by lia. symmetry. apply Z.div_mod. lia.
  - unfold substr. cbn [take drop]. rewrite hex_lower_pair by done. f_equal.
    change 256%Z with (16 * 16)%Z. rewrite Z.rem_mul_r by lia. lia.
  - intros Hin. by apply Hc in Hin as (? & _).
  - intros Hin. by apply Hc in Hin as (_ & ? & _).
  - intros E. assert (Hin : "*"%char ∈ hex g) by (rewrite E; left). by apply Hc in Hin as (_ & _ & ?).
  - intros E. rewrite E in Hlen. simpl in Hlen. lia.
  - lia.
Qed.

Example emit_examples :
  to_string (PeerAddress ipv6 [0x20;1;0xd;0xb8;0;0;0;0;0;1;0;0;0;0;0;1]%Z 0) = Ok (bs "2001:db8::1:0:0:1")
  /\ to_string (PeerAddress ipv6 (replicate 16 0%Z) 0) = Ok (bs "::")
  /\ to_string (PeerAddress ipv6 (replicate 10 0 ++ [255;255;1;2;3;4])%Z 0) = Ok (bs "::ffff:1.2.3.4").
Proof. by vm_compute. Qed.

(** ** The zero run *)

Definition zeros (g : list Z) (s l : nat) : Prop := forall j, s <= j < s + l -> g !! j = Some 0%Z.

Definition valid_run (g : list Z) (b : zero_run) : Prop :=
  match zr_start b with
  | None => zr_len b = 0
  | Some s => s + zr_len b <= length g /\ zeros g s (zr_len b)
  end.

Lemma zero_run_loop_ok pre g run_start run_len best :
  run_len <= length pre -> (0 < run_len -> run_start = length pre - run_len) ->
  zeros (pre ++ g) (length pre - run_len) run_len -> valid_run (pre ++ g) best ->
  valid_run (pre ++ g) (zero_run_loop g (length pre) run_start run_len best).
Proof.
  revert pre run_start run_len best. induction g as [|v g IH]; intros pre rs rl best Hl Hs Hz Hb; [done|].
  cbn [zero_run_loop].
  assert (He : pre ++ v :: g = (pre ++ [v]) ++ g) by (by rewrite <-app_assoc).
  assert (Hlen : S (length pre) = length (pre ++ [v])) by (rewrite length_app; simpl; lia).
  destruct (v =? 0)%Z eqn:Ev; bool_prop; cbn [negb].
  - subst v. rewrite He, Hlen. rewrite He in Hz, Hb.
    assert (Hz' : zeros ((pre ++ [0%Z]) ++ g) (length (pre ++ [0%Z]) - S rl) (S rl)).
    { intros j Hj. rewrite <-Hlen in Hj. destruct (decide (j = length pre)) as [->|Hne].
      - rewrite <-He, lookup_app_r, Nat.sub_diag by lia. done.
      - apply Hz. lia. }
    assert (Hrs : (if rl =? 0 then length pre else rs) = length (pre ++ [0%Z]) - S rl).
    { rewrite <-Hlen. destruct (rl =? 0) eqn:E; bool_prop; [lia|]. rewrite Hs by lia. lia. }
    apply IH; [lia|intros _; exact Hrs|exact Hz'|].
    destruct (zr_len best <? S rl); [|done]. unfold valid_run. cbn [zr_start zr_len]. rewrite Hrs.
    split; [|exact Hz']. rewrite (length_app (pre ++ [0%Z]) g), <-Hlen. lia.
  - rewrite He, Hlen. rewrite He in Hb. apply IH; [lia|lia| |done]. intros j Hj. lia.
Qed.

Lemma find_longest_zero_run_ok g :
  find_longest_zero_run g = ZeroRun None 0
  \/ exists s l, find_longest_zero_run g = ZeroRun (Some s) l /\ 2 <= l /\ s + l <= length g /\ zeros g s l.
Proof.
  unfold find_longest_zero_run. pose proof (zero_run_loop_ok [] g 0 0 (ZeroRun None 0)) as Hv.
  simpl in Hv. specialize (Hv ltac:(lia) ltac:(lia) ltac:(intros j; lia) eq_refl).
  destruct (zero_run_loop g 0 0 0 (ZeroRun None 0)) as [[s|] l]; cbn [zr_len]; unfold valid_run in Hv; simpl in Hv.
  - destruct (l <? 2) eqn:E; [by left|]. bool_prop. right. exists s, l. tauto.
  - subst. by left.
Qed.

(** ** The emitted text *)

Definition group_ok (g : Z) : Prop := (0 <= g < 65536)%Z.

Definition colon_join (g : list Z) : bytes := join (bs ":") (map hex g).

Lemma byte_at_drop g i : i < length g -> drop i g = byte_at g i :: drop (S i) g.
Proof.
  intros Hi. destruct (lookup_lt_is_Some_2 g i Hi) as [x Hx]. unfold byte_at. rewrite Hx. by apply drop_S.
Qed.

Lemma byte_at_ok g i : Forall group_ok g -> i < length g -> group_ok (byte_at g i).
Proof.
  intros Hg Hi. destruct (lookup_lt_is_Some_2 g i Hi) as [x Hx]. unfold byte_at. rewrite Hx.
  by eapply Forall_lookup_1.
Qed.

Lemma colon_join_cons x y l : colon_join (x :: y :: l) = hex x ++ ":"%char :: colon_join (y :: l).
Proof. unfold colon_join. cbn [map]. by rewrite join_cons. Qed.

Lemma put_ok c buf : length buf < 40 -> put c buf = Ok (buf ++ [c]).
Proof. intros H. unfold put. by rewrite (proj2 (Nat.ltb_lt _ _) H). Qed.

Section Emit.
Variables (g : list Z) (col : zero_run).
Hypotheses (Hlen : length g = 8) (Hg : Forall group_ok g).

(** One group, with the separator that follows it. *)
Lemma emit_step fuel i buf :
  i < 8 -> length buf <= 5 * i -> zr_start col <> Some i ->
  emit_loop (S fuel) g col i buf =
  emit_loop fuel g col (S i)
    (buf ++ hex (byte_at g i) ++ (if (S i <? 8) && negb (bool_decide (zr_start col = Some (S i))) then bs ":" else [])).
Proof using Hlen Hg.
  intros Hi Hb Hc. cbn [emit_loop]. rewrite (proj2 (Nat.ltb_lt _ _) Hi), bool_decide_false by done.
  destruct (hex_group (byte_at g i)) as (_ & _ & _ & _ & _ & _ & Hl); [apply byte_at_ok; [done|lia]|].
  rewrite (proj2 (Nat.leb_gt _ _)) by lia. destruct ((S i <? 8) && _).
  - rewrite put_ok by (rewrite length_app; lia). cbn [mbind outcome_bind]. by rewrite app_assoc.
  - cbn [mbind outcome_bind]. by rewrite app_nil_r.
Qed.

Lemma emit_length i buf :
  i < 8 -> length buf <= 5 * i ->
  length (buf ++ hex (byte_at g i) ++ (if (S i <? 8) && negb (bool_decide (zr_start col = Some (S i))) then bs ":" else []))
  <= 5 * S i.
Proof using Hlen Hg.
  intros Hi Hb. destruct (hex_group (byte_at g i)) as (_ & _ & _ & _ & _ & _ & Hl); [apply byte_at_ok; [done|lia]|].
  rewrite !length_app. case_match; simpl; lia.
Qed.

Lemma emit_plain n fuel i buf :
  8 - i = n -> i <= 8 -> n < fuel -> length buf <= 5 * i ->
  (forall s, zr_start col = Some s -> s < i) ->
  emit_loop fuel g col i buf = Ok (buf ++ colon_join (drop i g)).
Proof using Hlen Hg.
  revert fuel i buf. induction n as [|n IH]; intros fuel i buf Hn Hi Hf Hb Hs.
  - assert (i = 8) as -> by lia. destruct fuel; [lia|]. simpl. rewrite drop_ge by lia. by rewrite app_nil_r.
  - destruct fuel as [|fuel]; [lia|].
    rewrite emit_step; [|lia|done|intros E; apply Hs in E; lia].
    rewrite IH; [|lia|lia|lia|apply emit_length; [lia|done]|intros s E; apply Hs in E; lia].
    rewrite bool_decide_false by (intros E; apply Hs in E; lia). cbn [negb]. rewrite andb_true_r.
    rewrite (byte_at_drop g i) by lia. destruct (S i <? 8) eqn:E; bool_prop.
    + rewrite (byte_at_drop g (S i)) by lia. rewrite colon_join_cons. rewrite <-!app_assoc. done.
    + rewrite drop_ge by lia. rewrite !app_nil_r. done.
Qed.

Lemma emit_collapsed s l n fuel i buf :
  col = ZeroRun (Some s) l -> 2 <= l -> s + l <= 8 ->
  s - i = n -> i <= s -> 8 - i < fuel -> length buf <= 5 * i ->
  emit_loop fuel g col i buf =
  Ok (buf ++ colon_join (take (s - i) (drop i g)) ++ bs "::" ++ colon_join (drop (s + l) g)).
Proof using Hlen Hg.
  intros Hcol Hl Hsl. revert fuel i buf. induction n as [|n IH]; intros fuel i buf Hn Hi Hf Hb.
  - assert (i = s) as -> by lia. destruct fuel as [|fuel]; [lia|]. cbn [emit_loop].
    rewrite (proj2 (Nat.ltb_lt _ _)) by lia. rewrite bool_decide_true by (by rewrite Hcol).
    rewrite put_ok by lia. cbn [mbind outcome_bind]. rewrite put_ok by (rewrite length_app; simpl; lia).
    cbn [mbind outcome_bind]. replace (zr_len col) with l by (by rewrite Hcol).
    rewrite (emit_plain (8 - (s + l))); [|lia|lia|lia|rewrite !length_app; simpl; lia|].
    + rewrite Nat.sub_diag, take_0. by rewrite <-!app_assoc.
    + rewrite Hcol. simpl. intros ? [= <-]. lia.
  - destruct fuel as [|fuel]; [lia|].
    rewrite emit_step; [|lia|done|rewrite Hcol; simpl; intros [=]; lia].
    rewrite IH; [|lia|lia|lia|apply emit_length; [lia|done]].
    rewrite (proj2 (Nat.ltb_lt _ _)) by lia. rewrite (byte_at_drop g i) by lia.
    replace (s - i) with (S (s - S i)) by lia. cbn [take].
    destruct (decide (s = S i)) as [->|Hne].
    + rewrite bool_decide_true by (by rewrite Hcol). cbn [andb negb]. rewrite Nat.sub_diag, take_0.
      rewrite app_nil_r, <-!app_assoc. done.
    + rewrite bool_decide_false by (rewrite Hcol; simpl; congruence). cbn [andb negb].
      rewrite (byte_at_drop g (S i)) by lia. replace (s - S i) with (S (s - S (S i))) by lia. cbn [take].
      rewrite colon_join_cons, <-!app_assoc. done.
Qed.

End Emit.

(** ** The fields of the text *)

Lemma hex_fields gs : Forall group_ok gs ->
  Forall (fun f => ":"%char ∉ f /\ "."%char ∉ f /\ f <> [] /\ f <> bs "*") (map hex gs).
Proof.
  intros Hg. apply Forall_map. eapply Forall_impl; [exact Hg|]. intros g Hgo.
  destruct (hex_group g Hgo) as (_ & _ & ? & ? & ? & ? & _). done.
Qed.

Lemma hex_fields_colon gs : Forall group_ok gs -> Forall (fun f => ":"%char ∉ f) (map hex gs).
Proof. intros Hg. eapply Forall_impl; [by apply hex_fields|]. by intros ? (? & _). Qed.

Lemma last_hex_nonempty (l : list bytes) gs : Forall group_ok gs -> gs <> [] -> last (l ++ map hex gs) <> Some [].
Proof.
  intros Hg Hne E. destruct gs as [|g gs _] using rev_ind; [done|].
  rewrite map_app, app_assoc in E. simpl in E. rewrite last_snoc in E. injection E as E.
  apply Forall_app in Hg as [_ Hg]. inversion Hg as [|? ? Hgo _]; subst.
  by destruct (hex_group g Hgo) as (_ & _ & _ & _ & _ & Hn & _).
Qed.

(** [string_split] keeps all fields when the last one is not empty. *)
Lemma split_all s l : split_on ":" s = l -> last l <> Some [] -> string_split s ":" false = l.
Proof.
  intros Hs Hl. rewrite string_split_filter. cbn [negb orb]. rewrite filter_true.
  unfold fields_no_tail. rewrite Hs. by destruct (last l) as [[|c f]|].
Qed.

Lemma split_drop_last s l : split_on ":" s = l ++ [[]] -> string_split s ":" false = l.
Proof.
  intros Hs. rewrite string_split_filter. cbn [negb orb]. rewrite filter_true.
  unfold fields_no_tail. rewrite Hs, last_snoc. apply removelast_last.
Qed.

Lemma split_plain_text gs : Forall group_ok gs -> gs <> [] ->
  string_split (colon_join gs) ":" false = map hex gs.
Proof.
  intros Hg Hne. apply split_all; [|by apply (last_hex_nonempty [])].
  apply split_join; [by destruct gs|by apply hex_fields_colon].
Qed.

Definition collapsed_parts (P Q : list Z) : list bytes :=
  (if is_empty P then [[]] else map hex P) ++ [[]] ++ map hex Q.

Lemma split_collapsed_text P Q : Forall group_ok P -> Forall group_ok Q ->
  string_split (colon_join P ++ bs "::" ++ colon_join Q) ":" false = collapsed_parts P Q.
Proof.
  intros HP HQ. unfold collapsed_parts.
  assert (Hs : split_on ":" (colon_join P ++ bs "::" ++ colon_join Q)
    = (if is_empty P then [[]] else map hex P) ++ [[]] ++ (if is_empty Q then [[]] else map hex Q)).
  { change (bs "::" ++ colon_join Q) with (":"%char :: ":"%char :: colon_join Q).
    assert (HQs : split_on ":" (":"%char :: colon_join Q) = [] :: (if is_empty Q then [[]] else map hex Q)).
    { pose proof (split_on_app ":" [] (colon_join Q) (not_elem_of_nil _)) as E. cbn [app] in E. rewrite E. f_equal. destruct Q as [|q Q]; [done|].
      apply split_join; [done|by apply hex_fields_colon]. }
    destruct P as [|p P].
    { pose proof (split_on_app ":" [] (":"%char :: colon_join Q) (not_elem_of_nil _)) as E.
      cbn [app] in E. cbn [colon_join map join app is_empty]. by rewrite E, HQs. }
    unfold colon_join at 1. rewrite split_join_app; [by rewrite HQs|done|by apply hex_fields_colon]. }
  destruct Q as [|q Q].
  - apply split_drop_last. rewrite Hs. cbn [is_empty map]. rewrite app_nil_r. by rewrite <-app_assoc.
  - apply split_all; [exact Hs|]. rewrite app_assoc. by apply last_hex_nonempty.
Qed.

Lemma no_empty_hex gs : Forall group_ok gs -> List.filter is_empty (map hex gs) = [].
Proof.
  induction 1 as [|g gs Hg Hgs IH]; [done|]. simpl.
  destruct (hex_group g Hg) as (_ & _ & _ & _ & _ & Hn & _). by destruct (hex g).
Qed.

Lemma omitted_plain gs : Forall group_ok gs -> length gs = 8 ->
  compute_ipv6_omitted_segments (map hex gs) = Ok (1%Z, map hex gs).
Proof.
  intros Hg Hl. unfold compute_ipv6_omitted_segments. rewrite length_map, Hl, no_empty_hex by done. done.
Qed.

Lemma omitted_collapsed P Q l :
  Forall group_ok P -> Forall group_ok Q -> 2 <= l -> length P + l + length Q = 8 ->
  compute_ipv6_omitted_segments (collapsed_parts P Q) = Ok (Z.of_nat l, map hex P ++ [[]] ++ map hex Q).
Proof.
  intros HP HQ Hl Hlen. unfold compute_ipv6_omitted_segments, collapsed_parts.
  destruct P as [|p P]; cbn [is_empty].
  - cbn [app length]. rewrite length_map. simpl in Hlen.
    replace (8 - (Z.of_nat (S (S (length Q))) - 1))%Z with (Z.of_nat l - 1)%Z by lia.
    rewrite wrap32_small by lia. rewrite (proj2 (Z.eqb_neq _ _)) by lia.
    cbn [List.filter is_empty length]. rewrite no_empty_hex by done. cbn [length Nat.leb Nat.eqb].
    assert (Hdot : is_Some (find_char "." (default [] (last ([] :: [] :: map hex Q)))) -> False).
    { assert (Hn : find_char "." (default [] (last ([] :: [] :: map hex Q))) = None); [|rewrite Hn; by intros [? ?]].
      apply find_char_None. destruct (last ([] :: [] :: map hex Q)) as [f|] eqn:E; [|apply not_elem_of_nil].
      apply last_Some_elem_of in E. simpl.
      apply elem_of_cons in E as [->|[->|E]%elem_of_cons]; [apply not_elem_of_nil..|].
      pose proof (hex_fields Q HQ) as Hf. rewrite Forall_forall in Hf. by apply Hf in E as (_ & ? & _). }
    rewrite (bool_decide_false (is_Some (find_char "." _))) by exact Hdot. cbn [lookup list_lookup].
    rewrite !(bool_decide_true (Some [] = Some [])) by done. cbn [andb negb tail].
    rewrite wrap32_small by lia. f_equal. f_equal. lia.
  - rewrite !length_app. cbn [length app]. rewrite !length_map.
    replace (8 - (Z.of_nat (length (p :: P) + S (length Q)) - 1))%Z with (Z.of_nat l) by (simpl in *; lia).
    rewrite wrap32_small by lia. rewrite (proj2 (Z.eqb_neq _ _)) by lia.
    rewrite List.filter_app, no_empty_hex by done. cbn [List.filter is_empty app length].
    rewrite no_empty_hex by done. cbn [length Nat.leb].
    f_equal. f_equal. simpl in Hlen. lia.
Qed.

(** ** Reading the fields *)

(** The state after [length d] octets. *)
Definition ip_at (d : list Z) : ip_representation :=
  Ip IPV6 (d ++ replicate (16 - length d) 0%Z) DEFAULT_MASK_VALUE.

Definition flat (gs : list Z) : list Z := flat_map (fun g => [(g / 256)%Z; (g mod 256)%Z]) gs.

Lemma flat_length gs : length (flat gs) = 2 * length gs.
Proof. induction gs as [|g gs IH]; [done|]. simpl in *. lia. Qed.

Lemma set_octet_at d v : length d < 16 -> (0 <= v < 256)%Z ->
  set_octet (ip_at d) (length d) v = Ok (ip_at (d ++ [v])).
Proof.
  intros Hd Hv. unfold set_octet. rewrite (proj2 (Nat.ltb_lt _ _) Hd). unfold ip_at. simpl.
  unfold wrap8. rewrite Z.mod_small by done. f_equal. f_equal.
  replace (16 - length d) with (S (16 - length (d ++ [v]))) by (rewrite length_app; simpl; lia).
  rewrite insert_app_r_alt, Nat.sub_diag by lia. cbn [replicate]. by rewrite <-app_assoc.
Qed.

Lemma apply_hex_part g d i size om :
  group_ok g -> length d + 2 <= 16 ->
  apply_ipv6_part (hex g) i size (length d) om (ip_at d)
  = Ok (ip_at (d ++ [(g / 256)%Z; (g mod 256)%Z]), length d + 2).
Proof.
  intros Hg Hd. destruct (hex_group g Hg) as (Hhi & Hlo & _ & _ & Hs & Hn & Hl).
  unfold group_ok in Hg. assert (Hr : (0 <= g / 256 < 256)%Z) by (split; [apply Z.div_pos; lia|apply Z.div_lt_upper_bound; lia]).
  assert (Hr' : (0 <= g mod 256 < 256)%Z) by (apply Z.mod_pos_bound; lia).
  unfold apply_ipv6_part. rewrite (proj2 (bytes_eqb_false _ _)), (proj2 (is_empty_false _)) by done.
  assert (Hp : (if length (hex g) <? 4 then pad4 (hex g) else hex g) = pad4 (hex g)).
  { destruct (length (hex g) <? 4) eqn:E; [done|]. bool_prop. unfold pad4.
    replace (4 - length (hex g)) with 0 by lia. done. }
  rewrite Hp. assert (Hpl : length (pad4 (hex g)) = 4) by (unfold pad4; rewrite length_app, length_replicate; lia).
  rewrite Hpl, Hhi, Hlo. cbn [Nat.eqb not_consumed].
  rewrite set_octet_at by (done || lia). cbn [mbind outcome_bind].
  replace (length d + 1) with (length (d ++ [(g / 256)%Z])) by (rewrite length_app; done).
  rewrite set_octet_at by (rewrite ?length_app; simpl; done || lia). cbn [mbind outcome_bind].
  by rewrite <-app_assoc.
Qed.

Lemma apply_hex_parts gs rest d i size om :
  Forall group_ok gs -> length d + 2 * length gs <= 16 ->
  apply_ipv6_parts (map hex gs ++ rest) i size (length d) om (ip_at d)
  = apply_ipv6_parts rest (i + length gs) size (length (d ++ flat gs)) om (ip_at (d ++ flat gs)).
Proof.
  intros Hg. revert d i. induction Hg as [|g gs Hgo Hg IH]; intros d i Hd.
  - simpl. by rewrite app_nil_r, Nat.add_0_r.
  - cbn [map app apply_ipv6_parts]. simpl in Hd. rewrite apply_hex_part by (done || lia).
    cbn [mbind outcome_bind].
    replace (length d + 2) with (length (d ++ [(g / 256)%Z; (g mod 256)%Z])) by (rewrite length_app; done).
    rewrite IH by (rewrite length_app; simpl; lia). cbn [flat flat_map length]. rewrite <-app_assoc.
    by rewrite Nat.add_succ_r.
Qed.

Lemma zero_fill_at o d : length d + 2 * o <= 16 ->
  zero_fill o (length d) (ip_at d) = Ok (ip_at (d ++ replicate (2 * o) 0%Z), length (d ++ replicate (2 * o) 0%Z)).
Proof.
  revert d. induction o as [|o IH]; intros d Hd; [simpl; by rewrite app_nil_r|].
  cbn [zero_fill]. rewrite set_octet_at by lia. cbn [mbind outcome_bind].
  replace (length d + 1) with (length (d ++ [0%Z])) by (rewrite length_app; done).
  rewrite set_octet_at by (rewrite ?length_app; simpl; lia). cbn [mbind outcome_bind].
  replace (length d + 2) with (length ((d ++ [0%Z]) ++ [0%Z])) by (rewrite !length_app; simpl; lia).
  rewrite IH by (rewrite !length_app; simpl; lia).
  replace (2 * S o) with (S (S (2 * o))) by lia. cbn [replicate]. by rewrite <-!app_assoc.
Qed.

Lemma apply_placeholder rest d i size l :
  length d + 2 * l <= 16 ->
  apply_ipv6_parts ([] :: rest) i size (length d) (Z.of_nat l) (ip_at d)
  = apply_ipv6_parts rest (S i) size (length (d ++ replicate (2 * l) 0%Z)) (Z.of_nat l)
      (ip_at (d ++ replicate (2 * l) 0%Z)).
Proof.
  intros Hd. cbn [apply_ipv6_parts apply_ipv6_part]. unfold apply_ipv6_part.
  change (bytes_eqb [] (bs "*")) with false. cbn [is_empty].
  rewrite Nat2Z.id, zero_fill_at by done. done.
Qed.

(** ** The round trip *)

Definition octets_ok (octs : list Z) : Prop := length octs = 16 /\ Forall (fun v => (0 <= v < 256)%Z) octs.

Lemma group_of_bytes a b : (0 <= a < 256)%Z -> (0 <= b < 256)%Z ->
  wrap16 (Z.lor (Z.shiftl a 8) b) = (256 * a + b)%Z.
Proof.
  intros Ha Hb. rewrite lor_shiftl8 by done. unfold wrap16. apply Z.mod_small. lia.
Qed.

Lemma octets_sixteen octs : octets_ok octs ->
  exists b0 b1 b2 b3 b4 b5 b6 b7 b8 b9 b10 b11 b12 b13 b14 b15,
    octs = [b0; b1; b2; b3; b4; b5; b6; b7; b8; b9; b10; b11; b12; b13; b14; b15].
Proof.
  intros [Hl _]. do 16 (destruct octs as [|? octs]; [discriminate Hl|]). destruct octs; [|discriminate Hl].
  by eexists _, _, _, _, _, _, _, _, _, _, _, _, _, _, _, _.
Qed.

Lemma assemble_flat octs : octets_ok octs ->
  length (assemble_groups octs) = 8 /\ Forall group_ok (assemble_groups octs)
  /\ flat (assemble_groups octs) = octs.
Proof.
  intros Ho. pose proof Ho as [_ Hb].
  destruct (octets_sixteen octs Ho) as (b0&b1&b2&b3&b4&b5&b6&b7&b8&b9&b10&b11&b12&b13&b14&b15&->).
  rewrite !Forall_cons in Hb. destruct Hb as (?&?&?&?&?&?&?&?&?&?&?&?&?&?&?&?&_).
  unfold assemble_groups. cbn [map seq Nat.mul Nat.add byte_at lookup list_lookup default].
  unfold byte_at. cbn [lookup list_lookup default from_option id].
  rewrite !group_of_bytes by done. split; [done|].
  assert (Hd : forall a b, (0 <= b < 256)%Z -> ((256 * a + b) / 256 = a /\ (256 * a + b) mod 256 = b)%Z).
  { intros a b Hr. split; symmetry; [apply (Z.div_unique _ _ _ b)|apply (Z.mod_unique _ _ a)]; lia. }
  split; [repeat (constructor; [unfold group_ok; lia|]); constructor|].
  unfold flat. cbn [flat_map app].
  repeat match goal with |- context [((256 * ?a + ?b) / 256)%Z] =>
    rewrite (proj1 (Hd a b ltac:(assumption))), (proj2 (Hd a b ltac:(assumption))) end. done.
Qed.

Lemma colon_in_text (a b : bytes) : find_char ":" (a ++ ":"%char :: b) <> None.
Proof. rewrite find_char_None, elem_of_app, elem_of_cons. tauto. Qed.

Lemma ip_of_colon_text text :
  find_char ":" text <> None -> ip_of_string text = parse_ipv6 text (zero_ip IPV4).
Proof.
  intros Hc. unfold ip_of_string. rewrite bool_decide_true; [done|]. by apply not_eq_None_Some.
Qed.

Lemma flat_app a b : flat (a ++ b) = flat a ++ flat b.
Proof. apply flat_map_app. Qed.

Lemma flat_zeros g s l : zeros g s l -> s + l <= length g ->
  flat (take l (drop s g)) = replicate (2 * l) 0%Z.
Proof.
  revert s. induction l as [|l IH]; intros s Hz Hl; [done|].
  assert (Hx : g !! s = Some 0%Z) by (apply Hz; lia). rewrite (drop_S _ _ _ Hx). cbn [take].
  replace (2 * S l) with (S (S (2 * l))) by lia. cbn [replicate flat flat_map].
  change (flat_map (fun g => [(g / 256)%Z; (g mod 256)%Z]) (take l (drop (S s) g))) with (flat (take l (drop (S s) g))).
  rewrite IH; [done| |lia]. intros j Hj. apply Hz. lia.
Qed.

(** The two shapes of the text are read back. *)
Lemma parse_plain g : length g = 8 -> Forall group_ok g ->
  ip_of_string (colon_join g) = Ok (ip_at (flat g)).
Proof.
  intros Hl Hg. destruct g as [|g0 [|g1 g]]; [done..|]. rewrite ip_of_colon_text.
  2: { rewrite colon_join_cons. apply colon_in_text. }
  unfold parse_ipv6. rewrite split_plain_text by done. rewrite length_map, Hl. cbn [Nat.ltb Nat.leb].
  rewrite omitted_plain by done. cbn [mbind outcome_bind].
  pose proof (apply_hex_parts (g0 :: g1 :: g) [] [] 0 (length (map hex (g0 :: g1 :: g))) 1 Hg) as Ha.
  rewrite app_nil_r in Ha. apply Ha. rewrite Hl. simpl. lia.
Qed.

Lemma parse_collapsed P Q l :
  Forall group_ok P -> Forall group_ok Q -> 2 <= l -> length P + l + length Q = 8 ->
  ip_of_string (colon_join P ++ bs "::" ++ colon_join Q)
  = Ok (ip_at (flat P ++ replicate (2 * l) 0%Z ++ flat Q)).
Proof.
  intros HP HQ Hl Hlen. rewrite ip_of_colon_text by apply colon_in_text.
  unfold parse_ipv6. rewrite split_collapsed_text by done.
  assert (Hp : (8 <? length (collapsed_parts P Q)) = false).
  { apply Nat.ltb_ge. unfold collapsed_parts. rewrite !length_app, length_map.
    destruct P; simpl in *; rewrite ?length_map; lia. }
  rewrite Hp, (omitted_collapsed P Q l) by done. cbn [mbind outcome_bind].
  pose proof (apply_hex_parts P ([[]] ++ map hex Q) [] 0 (length (map hex P ++ [[]] ++ map hex Q)) (Z.of_nat l) HP) as Ha.
  etrans; [apply Ha; simpl; lia|]. cbn [app].
  rewrite apply_placeholder by (rewrite flat_length; lia).
  pose proof (apply_hex_parts Q [] (flat P ++ replicate (2 * l) 0%Z) (S (0 + length P))
    (length (map hex P ++ [] :: map hex Q)) (Z.of_nat l) HQ) as Hb.
  rewrite app_nil_r in Hb. etrans; [apply Hb; rewrite length_app, length_replicate, flat_length; lia|].
  simpl. by rewrite <-app_assoc.
Qed.

Lemma ip_at_full octs : length octs = 16 -> ip_at octs = Ip IPV6 octs DEFAULT_MASK_VALUE.
Proof. intros Hl. unfold ip_at. by rewrite Hl, app_nil_r. Qed.

Lemma emit_canonical_roundtrip octs : octets_ok octs ->
  exists text, emit_canonical (assemble_groups octs) (find_longest_zero_run (assemble_groups octs)) = Ok text
    /\ ip_of_string text = Ok (Ip IPV6 octs DEFAULT_MASK_VALUE).
Proof.
  intros Ho. destruct (assemble_flat octs Ho) as (Hl & Hg & Hf). pose proof Ho as [H16 _].
  set (g := assemble_groups octs) in *. unfold emit_canonical.
  destruct (find_longest_zero_run_ok g) as [Hr|(s & l & Hr & H2 & Hsl & Hz)]; rewrite Hr.
  - exists (colon_join g). rewrite (emit_plain g _ Hl Hg 8) by (simpl; lia || done). split; [done|].
    by rewrite parse_plain, Hf, ip_at_full.
  - rewrite (emit_collapsed g _ Hl Hg s l s) by (simpl; lia || done). eexists. split; [done|].
    rewrite drop_0, Nat.sub_0_r. cbn [app].
    rewrite (parse_collapsed _ _ l); [|by apply Forall_take|by apply Forall_drop|done|
      rewrite length_take, length_drop; lia].
    rewrite <-(flat_zeros g s l) by (done || lia). rewrite <-!flat_app.
    assert (Hsplit : take s g ++ take l (drop s g) ++ drop (s + l) g = g).
    { rewrite <-drop_drop, take_drop, take_drop. done. }
    by rewrite Hsplit, Hf, ip_at_full.
Qed.

(** *** Dotted quads *)

Definition quad_of (a b c d : Z) : list (option Z) := [Some a; Some b; Some c; Some d].

Lemma quad_format_join a b c d : quad_format a b c d = join (bs ".") (map quad_text (quad_of a b c d)).
Proof. done. Qed.

Lemma dec_length n : (0 <= n < 256)%Z -> 1 <= length (dec n) <= 3.
Proof.
  intros Hn. pose proof (all_in_range 0 256 (fun n => bool_decide (1 <= length (dec n) <= 3))) as Ha.
  specialize (Ha ltac:(vm_compute; reflexivity) n Hn). by apply bool_decide_eq_true in Ha.
Qed.

Lemma quad_format_length a b c d :
  (0 <= a < 256)%Z -> (0 <= b < 256)%Z -> (0 <= c < 256)%Z -> (0 <= d < 256)%Z ->
  7 <= length (quad_format a b c d) <= 15.
Proof.
  intros Ha Hb Hc Hd. apply dec_length in Ha, Hb, Hc, Hd. unfold quad_format. rewrite !length_app. simpl. lia.
Qed.

Lemma quad_format_colon a b c d :
  (0 <= a < 256)%Z -> (0 <= b < 256)%Z -> (0 <= c < 256)%Z -> (0 <= d < 256)%Z ->
  ":"%char ∉ quad_format a b c d.
Proof.
  intros Ha Hb Hc Hd. rewrite quad_format_join. apply no_colon_join. unfold quad_of. cbn [map quad_text].
  repeat (constructor; [by apply dec_octet|]). constructor.
Qed.

Lemma quad_format_split a b c d :
  (0 <= a < 256)%Z -> (0 <= b < 256)%Z -> (0 <= c < 256)%Z -> (0 <= d < 256)%Z ->
  string_split (quad_format a b c d) "." true = map quad_text (quad_of a b c d).
Proof.
  intros Ha Hb Hc Hd. rewrite quad_format_join. apply string_split_quad; [|done].
  unfold quad_of. cbn [map quad_text].
  repeat (constructor; [split; by apply dec_octet|]). constructor.
Qed.

Section Mapped.
Variables a b c d : Z.
Hypotheses (Ha : (0 <= a < 256)%Z) (Hb : (0 <= b < 256)%Z) (Hc : (0 <= c < 256)%Z) (Hd : (0 <= d < 256)%Z).

Lemma mapped_split :
  string_split (bs "::ffff:" ++ quad_format a b c d) ":" false = [[]; []; bs "ffff"; quad_format a b c d].
Proof using Ha Hb Hc Hd.
  apply split_all.
  - change (bs "::ffff:" ++ quad_format a b c d) with ([] ++ ":"%char :: [] ++ ":"%char :: bs "ffff" ++ ":"%char :: quad_format a b c d).
    rewrite (split_on_app ":" []) by apply not_elem_of_nil.
    pose proof (split_on_app ":" [] (bs "ffff" ++ ":"%char :: quad_format a b c d) (not_elem_of_nil _)) as E.
    cbn [app] in E |- *. rewrite E. f_equal. f_equal.
    rewrite (split_on_app ":" (bs "ffff")) by (by apply (bool_decide_unpack _)).
    by rewrite split_on_nosep by (by apply quad_format_colon).
  - simpl. intros [= E]. pose proof (quad_format_length a b c d Ha Hb Hc Hd) as Hl. rewrite E in Hl. simpl in Hl. lia.
Qed.

Lemma mapped_nested i :
  let ip := ip_at (replicate 10 0 ++ [255; 255])%Z in
  apply_ipv6_part (quad_format a b c d) i (S i) 12 5 ip
  = Ok (Ip IPV6 (replicate 10 0 ++ [255; 255; a; b; c; d])%Z DEFAULT_MASK_VALUE, 12).
Proof using Ha Hb Hc Hd.
  intros ip. pose proof (quad_format_length a b c d Ha Hb Hc Hd) as Hl. unfold apply_ipv6_part.
  assert (Hne : quad_format a b c d <> []) by (intros E; rewrite E in Hl; simpl in Hl; lia).
  assert (Hst : quad_format a b c d <> bs "*") by (intros E; rewrite E in Hl; simpl in Hl; lia).
  rewrite (proj2 (bytes_eqb_false _ _)), (proj2 (is_empty_false _)) by done.
  rewrite (proj2 (Nat.ltb_ge _ _)), (proj2 (Nat.eqb_neq _ _)) by lia.
  assert (Hdot : find_char "." (quad_format a b c d) <> None).
  { rewrite find_char_None. unfold quad_format. rewrite !elem_of_app. intros Hn. apply Hn. right. left.
    by apply list_elem_of_singleton. }
  rewrite (bool_decide_true (is_Some _)) by (by apply not_eq_None_Some). cbn [negb].
  unfold parse_nested_ipv4. cbn [Nat.eqb negb]. rewrite Nat.sub_succ, Nat.sub_0_r, Nat.eqb_refl. cbn [negb].
  rewrite quad_format_split by done. cbn [quad_of map length Nat.eqb negb].
  change (validate_ipv4_mapped_prefix ip) with (Ok ip). cbn [mbind outcome_bind quad_parts].
  rewrite (quad_part_text (Some a)) by (done || lia). cbn [mbind outcome_bind].
  rewrite (quad_part_text (Some b)) by (done || lia). cbn [mbind outcome_bind].
  rewrite (quad_part_text (Some c)) by (done || lia). cbn [mbind outcome_bind].
  rewrite (quad_part_text (Some d)) by (done || lia). done.
Qed.

Lemma mapped_text_parse :
  ip_of_string (bs "::ffff:" ++ quad_format a b c d)
  = Ok (Ip IPV6 (replicate 10 0 ++ [255; 255; a; b; c; d])%Z DEFAULT_MASK_VALUE).
Proof using Ha Hb Hc Hd.
  rewrite ip_of_colon_text by (apply (colon_in_text [])). unfold parse_ipv6. rewrite mapped_split.
  cbn [length Nat.ltb Nat.leb].
  assert (Ho : compute_ipv6_omitted_segments [[]; []; bs "ffff"; quad_format a b c d]
    = Ok (5%Z, [[]; bs "ffff"; quad_format a b c d])).
  { unfold compute_ipv6_omitted_segments. cbn [length List.filter is_empty last].
    assert (He : is_empty (quad_format a b c d) = false).
    { apply is_empty_false. pose proof (quad_format_length a b c d Ha Hb Hc Hd) as Hl. intros E.
      rewrite E in Hl. simpl in Hl. lia. }
    rewrite He. cbn [default from_option id].
    rewrite (bool_decide_true (is_Some (find_char "." _))); [done|]. apply not_eq_None_Some.
    rewrite find_char_None. unfold quad_format. rewrite !elem_of_app. intros Hn. apply Hn. right. left.
    by apply list_elem_of_singleton. }
  rewrite Ho. cbn [mbind outcome_bind length].
  change (Ip IPV6 (octets (zero_ip IPV4)) (mask (zero_ip IPV4))) with (ip_at []).
  change 5%Z with (Z.of_nat 5). change 0 with (length (@nil Z)) at 3.
  rewrite apply_placeholder by (simpl; lia). change (bs "ffff") with (hex 65535).
  cbn [apply_ipv6_parts]. rewrite apply_hex_part by (unfold group_ok; simpl; lia).
  cbn [mbind outcome_bind].
  change (ip_at (([] ++ replicate (2 * 5) 0%Z) ++ [(65535 / 256)%Z; (65535 mod 256)%Z]))
    with (ip_at (replicate 10 0 ++ [255; 255])%Z).
  change (length ([] ++ replicate (2 * 5) 0%Z) + 2) with 12. change (Z.of_nat 5) with 5%Z.
  by rewrite mapped_nested.
Qed.

End Mapped.

Lemma mapped_octets octs : octets_ok octs -> is_ipv4_mapped (assemble_groups octs) = true ->
  exists a b c d, octs = (replicate 10 0 ++ [255; 255; a; b; c; d])%Z
    /\ (0 <= a < 256)%Z /\ (0 <= b < 256)%Z /\ (0 <= c < 256)%Z /\ (0 <= d < 256)%Z.
Proof.
  intros Ho Hm. pose proof Ho as [_ Hb].
  destruct (octets_sixteen octs Ho) as (b0&b1&b2&b3&b4&b5&b6&b7&b8&b9&b10&b11&b12&b13&b14&b15&->).
  rewrite !Forall_cons in Hb. destruct Hb as (?&?&?&?&?&?&?&?&?&?&?&?&?&?&?&?&_).
  exists b12, b13, b14, b15. split; [|done].
  unfold is_ipv4_mapped, assemble_groups in Hm. cbn [map seq Nat.mul Nat.add] in Hm. unfold byte_at in Hm.
  cbn [lookup list_lookup default from_option id] in Hm. rewrite !group_of_bytes in Hm by done.
  cbn [forallb lookup list_lookup default from_option id] in Hm. bool_prop.
  cbn [replicate app]. repeat f_equal; lia.
Qed.

(** C33: The text of any peer address is defined (no buffer overruns) and the
    address parser reads it back: sixteen IPv6 octets come back unchanged
    whether the text is plain, has a collapsed run of zeros or is IPv4-mapped,
    and four IPv4 octets come back at the end of the representation. *)
Theorem peer_text_roundtrip p :
  octets_ok (addr_bytes p) -> fam p <> unspec ->
  exists text, to_string p = Ok text
    /\ ip_of_string text = Ok
         match fam p with
         | ipv4 => Ip IPV4 (replicate 12 0%Z ++ take 4 (addr_bytes p)) DEFAULT_MASK_VALUE
         | _ => Ip IPV6 (addr_bytes p) DEFAULT_MASK_VALUE
         end.
Proof.
  destruct p as [f octs prt]. cbn [addr_bytes fam]. intros Ho Hf. unfold to_string. cbn [addr_bytes fam].
  destruct f; [| |done].
  - pose proof Ho as [_ Hb].
    destruct (octets_sixteen octs Ho) as (b0&b1&b2&b3&b4&b5&b6&b7&b8&b9&b10&b11&b12&b13&b14&b15&->).
    rewrite !Forall_cons in Hb. destruct Hb as (H0&H1&H2&H3&_). cbn [byte_at lookup list_lookup default].
    unfold byte_at. cbn [lookup list_lookup default from_option id].
    pose proof (quad_format_length b0 b1 b2 b3 H0 H1 H2 H3) as Hl.
    unfold snprintf_string. rewrite (proj2 (Nat.ltb_lt _ _)) by lia. eexists. split; [done|].
    rewrite quad_format_join. unfold quad_of. rewrite ip_of_quad; [done|]. repeat (constructor; [done|]); constructor.
  - unfold ipv6_canonical. destruct (is_ipv4_mapped _) eqn:Em; [|by apply emit_canonical_roundtrip].
    destruct (mapped_octets octs Ho Em) as (a & b & c & d & -> & Ha & Hb & Hc & Hd).
    unfold format_ipv4_mapped, snprintf_string.
    change (byte_at (replicate 10 0%Z ++ [255%Z; 255%Z; a; b; c; d]) 12) with a.
    change (byte_at (replicate 10 0%Z ++ [255%Z; 255%Z; a; b; c; d]) 13) with b.
    change (byte_at (replicate 10 0%Z ++ [255%Z; 255%Z; a; b; c; d]) 14) with c.
    change (byte_at (replicate 10 0%Z ++ [255%Z; 255%Z; a; b; c; d]) 15) with d.
    pose proof (quad_format_length a b c d Ha Hb Hc Hd) as Hl.
    rewrite (proj2 (Nat.ltb_lt _ _)) by (rewrite length_app; simpl; lia).
    eexists. split; [done|]. by apply mapped_text_parse.
Qed.

Definition sample_peer : peer_address := PeerAddress ipv6 [0x20;1;0xd;0xb8;0;0;0;0;0;1;0;0;0;0;0;1]%Z 443.

Lemma peer_text_roundtrip_witness :
  octets_ok (addr_bytes sample_peer)
  /\ exists text, to_string sample_peer = Ok text
       /\ ip_of_string text = Ok (Ip IPV6 (addr_bytes sample_peer) DEFAULT_MASK_VALUE).
Proof.
  assert (Ho : octets_ok (addr_bytes sample_peer)).
  { split; [done|]. repeat (constructor; [lia|]). constructor. }
  split; [exact Ho|]. exact (peer_text_roundtrip sample_peer Ho ltac:(done)).
Defined.
