(* ===== verification/HttpResponse.v ===== *)
(** * Responses

    [http_response.cpp], [http_response_factories.cpp], [response_body.cpp]:
    the response object with its header maps and cookie stores, its factories,
    the response bodies with the file descriptors they own, and the move
    operations. *)

From Stdlib Require Import Sorted.
From S2P Require Import Prelude OrderedMap Cookie.
Import Cookie.Cookie.

Module Response.

(** ** Header maps *)

(** [http_header_toupper]: folds a-z, leaves the other bytes. *)
Definition http_header_toupper (c : ascii) : Z :=
  if ((97 <=? code c) && (code c <=? 122))%Z then (code c - 32)%Z else code c.

Definition header_comparator (x y : bytes) : bool := COMPARATOR http_header_toupper x y.

(** [std::map<std::string, std::string, header_comparator>] *)
#[local] Abbreviation header_map := (list (bytes * bytes)).

Definition kForbiddenFieldChars : bytes := [CR; LF; NUL].

Definition http_header_content_type : bytes := bs "Content-Type".
Definition http_header_www_authenticate : bytes := bs "WWW-Authenticate".
Definition http_header_allow : bytes := bs "Allow".
Definition application_octet_stream : bytes := bs "application/octet-stream".

(** ** Bodies *)

Inductive body_kind : Type :=
| bk_empty | bk_string | bk_file | bk_iovec | bk_pipe | bk_deferred | bk_digest_challenge.

Inductive digest_algorithm : Type := MD5 | SHA256 | SHA512_256.

(** [digest_challenge], which is also the [params] of the body. *)
Record digest_challenge : Type := DigestChallenge {
  realm : bytes; opaque : bytes; domain : bytes;
  algorithm : digest_algorithm; qop_auth : bool; qop_auth_int : bool;
  signal_stale : bool; userhash_support : bool; prefer_utf8 : bool;
  body_text : bytes;
}.

(** An [iovec_entry]: the address of the buffer and its length. *)
Record iovec_entry : Type := IoVec { base : nat; len : Z }.

(** The classes derived from [response_body], with their fields.  A
    [std::function] is the identity of the callable, [None] when empty. *)
Inductive response_body : Type :=
| empty_response_body (flags_ : Z)
| string_response_body (data_ : bytes)
| file_response_body (path_ : bytes) (size_ fd_ : Z) (materialized_ : bool)
| iovec_response_body (entries_ : list iovec_entry) (total_size_ : Z)
| pipe_response_body (fd_ : Z) (materialized_ : bool)
| deferred_response_body (producer_ : option nat)
| digest_challenge_response_body (params_ : option digest_challenge).

(** What happens to a descriptor: [close], or libmicrohttpd takes it. *)
Inductive fd_event : Type := Close (fd : Z) | Handoff (fd : Z).

Definition close_if (b : bool) (fd : Z) : list fd_event := if b then [Close fd] else [].

(** [file_response_body(path)] given what [open] returned, and what [fstat]
    reported: whether it is a regular file, and its size. *)
Definition make_file_body (path : bytes) (opened : Z) (st : option (bool * Z)) : response_body * list fd_event :=
  if (opened =? -1)%Z then (file_response_body path 0 (-1) false, [])
  else match st with
       | Some (true, st_size) =>
           if (st_size <? 0)%Z then (file_response_body path 0 (-1) false, [Close opened])
           else (file_response_body path st_size opened false, [])
       | _ => (file_response_body path 0 (-1) false, [Close opened])
       end.

(** [iovec_response_body(entries)]: the sizes are added in [size_t]. *)
Definition make_iovec_body (entries : list iovec_entry) : response_body :=
  iovec_response_body entries (foldl (fun total e => wrap64 (total + len e)) 0%Z entries).

Definition body_size (b : response_body) : Z :=
  match b with
  | empty_response_body _ | pipe_response_body _ _ | deferred_response_body _ => 0
  | string_response_body data => Z.of_nat (length data)
  | file_response_body _ size _ _ => size
  | iovec_response_body _ total => total
  | digest_challenge_response_body p =>
      match p with Some p => Z.of_nat (length (body_text p)) | None => 0 end
  end.

Definition body_kind_of (b : response_body) : body_kind :=
  match b with
  | empty_response_body _ => bk_empty | string_response_body _ => bk_string
  | file_response_body _ _ _ _ => bk_file | iovec_response_body _ _ => bk_iovec
  | pipe_response_body _ _ => bk_pipe | deferred_response_body _ => bk_deferred
  | digest_challenge_response_body _ => bk_digest_challenge
  end.

(** [b->~response_body()] *)
Definition body_dtor (b : response_body) : list fd_event :=
  match b with
  | file_response_body _ _ fd materialized | pipe_response_body fd materialized =>
      close_if (negb materialized && negb (fd =? -1)%Z) fd
  | _ => []
  end.

(** The move constructors: the new body and what the old one holds after. *)
Definition move_into (b : response_body) : response_body * response_body :=
  match b with
  | empty_response_body flags => (b, b)
  | string_response_body data => (b, string_response_body [])
  | file_response_body path size fd materialized => (b, file_response_body [] size (-1) true)
  | iovec_response_body entries total => (b, iovec_response_body [] total)
  | pipe_response_body fd materialized => (b, pipe_response_body (-1) true)
  | deferred_response_body p => (b, deferred_response_body None)
  | digest_challenge_response_body p => (b, digest_challenge_response_body None)
  end.

(** The call of libmicrohttpd that creates the [MHD_Response]. *)
Inductive mhd_create : Type :=
| create_empty (flags : Z)
| create_from_buffer_static (data : bytes)
| create_from_fd (size fd : Z)
| create_from_iovec (entries : list iovec_entry)
| create_from_pipe (fd : Z)
| create_from_callback (producer : option nat)
| create_from_persistent_buffer (data : bytes)
| create_for_upgrade (handler : nat).

Definition UINT_MAX : Z := (2 ^ 32 - 1)%Z.

(** Whether libmicrohttpd creates the response or returns null. *)
Class MhdCreate := mhd_accepts : mhd_create -> bool.

Section Materialize.
Context `{MhdCreate}.

Definition mhd_new (c : mhd_create) : option mhd_create := if mhd_accepts c then Some c else None.

(** [b->materialize()]: the body afterwards, the response or null, and what
    happened to the descriptor. *)
Definition materialize (b : response_body) : response_body * option mhd_create * list fd_event :=
  match b with
  | empty_response_body flags => (b, mhd_new (create_empty flags), [])
  | string_response_body data => (b, mhd_new (create_from_buffer_static data), [])
  | file_response_body path size fd materialized =>
      if (fd =? -1)%Z then (b, None, [])
      else if negb (size =? 0)%Z then
        match mhd_new (create_from_fd size fd) with
        | Some r => (file_response_body path size fd true, Some r, [Handoff fd])
        | None => (b, None, [])
        end
      else (file_response_body path size (-1) materialized, mhd_new (create_from_buffer_static []), [Close fd])
  | iovec_response_body entries _ =>
      if (UINT_MAX <? Z.of_nat (length entries))%Z then (b, None, [])
      else (b, mhd_new (create_from_iovec entries), [])
  | pipe_response_body fd materialized =>
      match mhd_new (create_from_pipe fd) with
      | Some r => (pipe_response_body fd true, Some r, [Handoff fd])
      | None => (b, None, [])
      end
  | deferred_response_body p => (b, mhd_new (create_from_callback p), [])
  | digest_challenge_response_body p =>
      (b, mhd_new (create_from_buffer_static (match p with Some p => body_text p | None => [] end)), [])
  end.

End Materialize.

(** ** The response object *)

Record http_response : Type := HttpResponse {
  status_code_ : Z;
  headers_ : header_map;
  footers_ : header_map;
  cookies_ : header_map;
  cookies_mirror_valid_ : bool;
  structured_cookies_ : list cookie;
  kind_ : body_kind;
  body_ : option response_body;
  body_inline_ : bool;
}.

(** [http_response{}] *)
Definition new_response : http_response := HttpResponse (-1) [] [] [] false [] bk_empty None false.

Definition set_body (r : http_response) (k : body_kind) (b : option response_body) (inline : bool) : http_response :=
  HttpResponse (status_code_ r) (headers_ r) (footers_ r) (cookies_ r) (cookies_mirror_valid_ r)
    (structured_cookies_ r) k b inline.

Definition set_headers (r : http_response) (m : header_map) : http_response :=
  HttpResponse (status_code_ r) m (footers_ r) (cookies_ r) (cookies_mirror_valid_ r)
    (structured_cookies_ r) (kind_ r) (body_ r) (body_inline_ r).

Definition set_footers (r : http_response) (m : header_map) : http_response :=
  HttpResponse (status_code_ r) (headers_ r) m (cookies_ r) (cookies_mirror_valid_ r)
    (structured_cookies_ r) (kind_ r) (body_ r) (body_inline_ r).

Definition set_cookies (r : http_response) (m : header_map) (valid : bool) (l : list cookie) : http_response :=
  HttpResponse (status_code_ r) (headers_ r) (footers_ r) m valid l (kind_ r) (body_ r) (body_inline_ r).

Definition set_status (r : http_response) (code : Z) : http_response :=
  HttpResponse code (headers_ r) (footers_ r) (cookies_ r) (cookies_mirror_valid_ r)
    (structured_cookies_ r) (kind_ r) (body_ r) (body_inline_ r).

(** *** Lifetime *)

Definition destroy_body (r : http_response) : http_response * list fd_event :=
  match body_ r with
  | None => (r, [])
  | Some b => (set_body r (kind_ r) None false, body_dtor b)
  end.

(** [this->adopt_body_from(other)] for [this] without a body. *)
Definition adopt_body_from (r other : http_response) : http_response * http_response * list fd_event :=
  match body_ other with
  | None => (r, other, [])
  | Some b =>
      if body_inline_ other then
        let '(b', old) := move_into b in
        (set_body r (kind_ r) (Some b') true, set_body other bk_empty None false, body_dtor old)
      else (set_body r (kind_ r) (Some b) false, set_body other bk_empty None false, [])
  end.

(** What the maps and vectors of [other] hold once moved from. *)
Definition strip (other : http_response) : http_response :=
  HttpResponse (status_code_ other) [] [] [] (cookies_mirror_valid_ other) [] (kind_ other) (body_ other)
    (body_inline_ other).

(** [http_response(http_response&& other)] *)
Definition move_construct (other : http_response) : http_response * http_response * list fd_event :=
  adopt_body_from (set_body other (kind_ other) None false) (strip other).

(** [*this = std::move(other)] for [this != &other] *)
Definition move_assign (r other : http_response) : http_response * http_response * list fd_event :=
  let '(_, closed) := destroy_body r in
  let '(r', other', moved) := move_construct other in
  (r', other', closed ++ moved).

(** *** Setters *)

Definition validate_http_field (setter_name key value : bytes) : outcome unit :=
  if contains_any kForbiddenFieldChars key then
    Throw (invalid_argument (setter_name ++ bs ": key contains forbidden control character (CR, LF, or NUL)"))
  else if contains_any kForbiddenFieldChars value then
    Throw (invalid_argument (setter_name ++ bs ": value contains forbidden control character (CR, LF, or NUL)"))
  else Ok ().

Definition with_header (r : http_response) (key value : bytes) : outcome http_response :=
  _ ← validate_http_field (bs "with_header") key value;
  Ok (set_headers r (insert_or_assign header_comparator key value (headers_ r))).

Definition with_footer (r : http_response) (key value : bytes) : outcome http_response :=
  _ ← validate_http_field (bs "with_footer") key value;
  Ok (set_footers r (insert_or_assign header_comparator key value (footers_ r))).

(** Replace the first cookie of the same name, or append. *)
Fixpoint replace_cookie (c : cookie) (l : list cookie) : list cookie :=
  match l with
  | [] => [c]
  | e :: l =>
      if negb (header_comparator (name_ e) (name_ c)) && negb (header_comparator (name_ c) (name_ e))
      then c :: l else e :: replace_cookie c l
  end.

(** [with_cookie(key, value)]: the deprecated pair form. *)
Definition do_set_cookie (r : http_response) (key value : bytes) : outcome http_response :=
  c ← with_name new_cookie key;
  c ← with_value c value;
  Ok (set_cookies r (cookies_ r) false (replace_cookie c (structured_cookies_ r))).

(** [with_cookie(cookie)] *)
Definition do_set_cookie_struct (r : http_response) (c : cookie) : http_response :=
  set_cookies r (cookies_ r) false (structured_cookies_ r ++ [c]).

Definition with_status (r : http_response) (code : Z) : outcome http_response :=
  if ((code <? 100) || (599 <? code))%Z then
    Throw (invalid_argument (bs "with_status: HTTP status code out of range [100, 599]"))
  else Ok (set_status r code).

(** [shoutCAST()]: [status_code_ |= MHD_ICY_FLAG], the sign bit of [int]. *)
Definition shoutCAST (r : http_response) : http_response :=
  set_status r (Z.lor (status_code_ r) (- 2 ^ 31)).

(** *** Accessors *)

(** [header_map_find_view]: the empty view when the name is absent. *)
Definition header_map_find_view (m : header_map) (key : bytes) : bytes :=
  default [] (map_find header_comparator key m).

Definition get_header (r : http_response) (key : bytes) : bytes := header_map_find_view (headers_ r) key.
Definition get_footer (r : http_response) (key : bytes) : bytes := header_map_find_view (footers_ r) key.

Definition build_mirror (l : list cookie) : header_map :=
  foldl (fun m c => insert_or_assign header_comparator (name_ c) (value_ c) m) [] l.

Definition ensure_cookie_mirror_ (r : http_response) : http_response :=
  if cookies_mirror_valid_ r then r
  else set_cookies r (build_mirror (structured_cookies_ r)) true (structured_cookies_ r).

(** [get_cookie(key)], which fills the mirror. *)
Definition get_cookie (r : http_response) (key : bytes) : http_response * bytes :=
  let r := ensure_cookie_mirror_ r in (r, header_map_find_view (cookies_ r) key).

(** *** Factories

    [emplace_body<T>]: [fits] is the compile-time test of the body's size and
    alignment against the inline buffer. *)
Class BodyFits := body_fits : body_kind -> bool.

Section Factories.
Context `{BodyFits}.

Definition emplace_body (r : http_response) (k : body_kind) (b : response_body) : http_response :=
  set_body r k (Some b) (body_fits k).

Definition empty_response (mhd_flags : Z) : http_response :=
  emplace_body (set_status new_response 204) bk_empty (empty_response_body mhd_flags).

Definition string_response (response_body content_type : bytes) : outcome http_response :=
  r ← with_header (set_status new_response 200) http_header_content_type content_type;
  Ok (emplace_body r bk_string (string_response_body response_body)).

Definition file_response (path : bytes) (opened : Z) (st : option (bool * Z))
    : outcome (http_response * list fd_event) :=
  r ← with_header (set_status new_response 200) http_header_content_type application_octet_stream;
  let '(b, events) := make_file_body path opened st in Ok (emplace_body r bk_file b, events).

Definition iovec_response (entries : list iovec_entry) : http_response :=
  emplace_body (set_status new_response 200) bk_iovec (make_iovec_body entries).

Definition pipe_response (fd : Z) : http_response :=
  emplace_body (set_status new_response 200) bk_pipe (pipe_response_body fd false).

Definition deferred_response (producer : nat) : http_response :=
  emplace_body (set_status new_response 200) bk_deferred (deferred_response_body (Some producer)).

(** Backslash-escape the backslashes and double quotes. *)
Definition escape_realm (realm : bytes) : bytes :=
  flat_map (fun c => if ascii_eqb c "\" || ascii_eqb c DQUOTE then ["\"%char; c] else [c]) realm.

Definition challenge_text (scheme realm : bytes) : bytes :=
  scheme ++ bs " realm=" ++ [DQUOTE]
  ++ (if contains_any ["\"%char; DQUOTE] realm then escape_realm realm else realm) ++ [DQUOTE].

(** [unauthorized(scheme, realm, body)] *)
Definition unauthorized (scheme realm response_body : bytes) : outcome http_response :=
  if contains_any kForbiddenFieldChars scheme then
    Throw (invalid_argument (bs "http_response::unauthorized: scheme contains forbidden control character (CR, LF, or NUL)"))
  else if contains_any kForbiddenFieldChars realm then
    Throw (invalid_argument (bs "http_response::unauthorized: realm contains forbidden control character (CR, LF, or NUL)"))
  else
    r ← with_header (set_status new_response 401) http_header_www_authenticate (challenge_text scheme realm);
    Ok (emplace_body r bk_string (string_response_body response_body)).

Definition reject_ctrl_chars (field value : bytes) : outcome unit :=
  if contains_any kForbiddenFieldChars value then
    Throw (invalid_argument (bs "http_response::unauthorized(digest_challenge): " ++ field
      ++ bs " contains forbidden control character (CR, LF, or NUL)"))
  else Ok ().

(** [unauthorized(digest_challenge)], built with HAVE_DAUTH. *)
Definition unauthorized_digest (challenge : digest_challenge) : outcome http_response :=
  _ ← reject_ctrl_chars (bs "realm") (realm challenge);
  _ ← reject_ctrl_chars (bs "opaque") (opaque challenge);
  _ ← reject_ctrl_chars (bs "domain") (domain challenge);
  _ ← reject_ctrl_chars (bs "response_body") (body_text challenge);
  if qop_auth_int challenge then
    Throw (invalid_argument (bs "http_response::unauthorized(digest_challenge): qop_auth_int (qop=" ++ [DQUOTE]
      ++ bs "auth-int" ++ [DQUOTE] ++ bs ") is not implemented; leave it false"))
  else Ok (emplace_body (set_status new_response 401) bk_digest_challenge
             (digest_challenge_response_body (Some challenge))).

End Factories.
End Response.
Import Response.

(** ** Header fields *)

#[export] Instance header_comparator_strict_weak : StrictWeak header_comparator.
Proof. unfold header_comparator. apply COMPARATOR_strict_weak. Qed.

(** Names equal up to the case of ASCII letters. *)
Definition same_name (a b : bytes) : bool := bool_decide (map http_header_toupper a = map http_header_toupper b).

Lemma header_equiv a b : equivb header_comparator a b = same_name a b.
Proof. apply COMPARATOR_equiv. Qed.

(** No byte of the text is CR, LF or NUL. *)
Definition field_ok (s : bytes) : bool := negb (contains_any kForbiddenFieldChars s).

(** The maps of a response are maps: sorted, one entry per name. *)
Record response_ok (r : http_response) : Prop := {
  headers_sorted : sorted header_comparator (headers_ r);
  footers_sorted : sorted header_comparator (footers_ r);
  cookies_sorted : sorted header_comparator (cookies_ r);
}.

Lemma validate_http_field_ok setter key value :
  validate_http_field setter key value = Ok () /\ field_ok key = true /\ field_ok value = true
  \/ (exists msg, validate_http_field setter key value = Throw (invalid_argument msg))
     /\ field_ok key && field_ok value = false.
Proof.
  unfold validate_http_field, field_ok. destruct (contains_any _ key); [right; eauto|].
  destruct (contains_any _ value); [right; eauto|]. by left.
Qed.

Lemma header_map_insert m key value key' :
  sorted header_comparator m ->
  header_map_find_view (insert_or_assign header_comparator key value m) key'
  = if same_name key key' then value else header_map_find_view m key'.
Proof.
  intros Hm. unfold header_map_find_view. rewrite (map_find_insert header_comparator) by done. rewrite header_equiv.
  by destruct (same_name key key').
Qed.

(** [with_header] throws and changes nothing exactly when a forbidden byte is
    in the name or the value; otherwise the name reads back as the value,
    whatever the case it is asked in, and no other name changes. *)
Theorem with_header_spec r key value :
  response_ok r ->
  match with_header r key value with
  | Ok r' =>
      field_ok key = true /\ field_ok value = true /\ response_ok r'
      /\ (forall key', get_header r' key' = if same_name key key' then value else get_header r key')
      /\ r' = set_headers r (headers_ r')
  | Throw (invalid_argument _) => field_ok key && field_ok value = false
  | _ => False
  end.
Proof.
  intros Hr. unfold with_header.
  destruct (validate_http_field_ok (bs "with_header") key value) as [(E & Hk & Hv)|[[msg E] Hkv]]; rewrite E;
    [|done].
  destruct Hr. split_and!; [done..| | |done].
  - constructor; [by apply insert_or_assign_sorted; [apply _|]|done..].
  - intros key'. by apply header_map_insert.
Qed.

Lemma with_header_spec_witness :
  response_ok new_response
  /\ exists r', with_header new_response (bs "X-A") (bs "1") = Ok r' /\ get_header r' (bs "x-a") = bs "1".
Proof.
  assert (Hr : response_ok new_response) by (constructor; constructor).
  split; [exact Hr|]. pose proof (with_header_spec new_response (bs "X-A") (bs "1") Hr) as H.
  destruct (with_header new_response (bs "X-A") (bs "1")) as [r'| |] eqn:E; [|discriminate E..].
  exists r'. split; [done|]. destruct H as (_ & _ & _ & H & _). by rewrite H.
Defined.

(** ** The authentication challenge *)

(** A reader of the quoted string of RFC 7230: the text up to the first
    unescaped double quote, and what follows. *)
Fixpoint read_quoted (s : bytes) : option (bytes * bytes) :=
  match s with
  | [] => None
  | c :: s =>
      if ascii_eqb c DQUOTE then Some ([], s)
      else if ascii_eqb c "\" then
        match s with
        | [] => None
        | d :: s => (fun '(t, rest) => (d :: t, rest)) <$> read_quoted s
        end
      else (fun '(t, rest) => (c :: t, rest)) <$> read_quoted s
  end.

Lemma read_quoted_escape s rest : read_quoted (escape_realm s ++ DQUOTE :: rest) = Some (s, rest).
Proof.
  unfold escape_realm. induction s as [|c s IH]; simpl; [done|]. rewrite <-app_assoc.
  destruct (ascii_eqb c "\") eqn:E1; [simpl; by rewrite IH|]. simpl.
  destruct (ascii_eqb c DQUOTE) eqn:E2; simpl; [by rewrite IH|]. by rewrite E1, E2, IH.
Qed.

Lemma escape_realm_plain s : contains_any ["\"%char; DQUOTE] s = false -> escape_realm s = s.
Proof.
  unfold contains_any, escape_realm. induction s as [|c s IH]; simpl; [done|].
  intros [H Hs]%orb_false_iff. apply orb_false_iff in H as [H1 H]. apply orb_false_iff in H as [H2 _]. rewrite H1, H2. simpl. by rewrite IH.
Qed.

Lemma field_ok_app a b : field_ok (a ++ b) = field_ok a && field_ok b.
Proof. unfold field_ok, contains_any. rewrite existsb_app. by rewrite negb_orb. Qed.

Lemma field_ok_escape s : field_ok s = true -> field_ok (escape_realm s) = true.
Proof.
  unfold escape_realm. induction s as [|c s IH]; [done|]. change (c :: s) with ([c] ++ s).
  rewrite field_ok_app, andb_true_iff. intros [Hc Hs]. cbn [flat_map app].
  destruct (_ || _); rewrite ?field_ok_app, IH by done; rewrite andb_true_r; [|done].
  change ["\"%char; c] with (["\"%char] ++ [c]). by rewrite field_ok_app, Hc.
Qed.

(** A Basic-style challenge: it is refused exactly when the scheme or the realm
    holds CR, LF or NUL; otherwise the header is the scheme followed by a
    quoted string that reads back as the realm and ends the value. *)
Theorem unauthorized_challenge `{BodyFits} scheme realm text :
  match unauthorized scheme realm text with
  | Ok r =>
      status_code_ r = 401%Z /\ field_ok scheme && field_ok realm = true
      /\ body_ r = Some (string_response_body text)
      /\ exists q, get_header r (bs "www-authenticate") = scheme ++ bs " realm=" ++ DQUOTE :: q
                   /\ read_quoted q = Some (realm, [])
  | Throw (invalid_argument _) => field_ok scheme && field_ok realm = false
  | _ => False
  end.
Proof.
  unfold unauthorized, field_ok.
  destruct (contains_any _ scheme) eqn:Es; [done|]. destruct (contains_any _ realm) eqn:Er; [done|].
  assert (Hq : exists q, challenge_text scheme realm = scheme ++ bs " realm=" ++ DQUOTE :: q ++ [DQUOTE]
                         /\ q = escape_realm realm).
  { eexists. split; [|reflexivity]. unfold challenge_text.
    destruct (contains_any ["\"%char; DQUOTE] realm) eqn:E; [done|]. by rewrite (escape_realm_plain _ E). }
  destruct Hq as (q & Ht & Hq).
  assert (Hok : field_ok (challenge_text scheme realm) = true).
  { rewrite Ht, !field_ok_app. change (DQUOTE :: q ++ [DQUOTE]) with ([DQUOTE] ++ q ++ [DQUOTE]).
    rewrite !field_ok_app, Hq, field_ok_escape by (unfold field_ok; by rewrite Er).
    unfold field_ok at 1. by rewrite Es. }
  unfold with_header. destruct (validate_http_field_ok (bs "with_header") http_header_www_authenticate
    (challenge_text scheme realm)) as [(E & _)|[_ E]]; [|by rewrite Hok in E].
  rewrite E. cbn. split_and!; [done..|]. exists (q ++ [DQUOTE]). rewrite Hq at 2. rewrite read_quoted_escape.
  split; [|done]. by rewrite Ht.
Qed.

(** ** The deprecated cookie accessor *)

(** The value of the last cookie of a name. *)
Definition last_cookie (key : bytes) (l : list cookie) : option bytes :=
  value_ <$> hd_error (List.filter (fun c => same_name (name_ c) key) (reverse l)).

Lemma build_mirror_sorted l : sorted header_comparator (build_mirror l).
Proof.
  unfold build_mirror. induction l as [|c l IH] using rev_ind; [constructor|].
  rewrite foldl_app. by apply insert_or_assign_sorted; [apply _|].
Qed.

Lemma build_mirror_find key l : map_find header_comparator key (build_mirror l) = last_cookie key l.
Proof.
  unfold last_cookie. induction l as [|c l IH] using rev_ind; [done|].
  unfold build_mirror. rewrite foldl_app, reverse_app. simpl.
  rewrite (map_find_insert header_comparator) by apply build_mirror_sorted.
  rewrite header_equiv. destruct (same_name _ _); [done|]. apply IH.
Qed.

(** Responses the public operations build, moved-from ones included. *)
Inductive response_reach : http_response -> Prop :=
| reach_new code k b inline : response_reach (set_body (set_status new_response code) k b inline)
| reach_header r key value r' : response_reach r -> with_header r key value = Ok r' -> response_reach r'
| reach_footer r key value r' : response_reach r -> with_footer r key value = Ok r' -> response_reach r'
| reach_cookie_pair r key value r' : response_reach r -> do_set_cookie r key value = Ok r' -> response_reach r'
| reach_cookie r c : response_reach r -> response_reach (do_set_cookie_struct r c)
| reach_status r code r' : response_reach r -> with_status r code = Ok r' -> response_reach r'
| reach_shoutcast r : response_reach r -> response_reach (shoutCAST r)
| reach_get_cookie r key : response_reach r -> response_reach (fst (get_cookie r key))
| reach_body r k b inline : response_reach r -> response_reach (set_body r k b inline)
| reach_moved r : response_reach r -> response_reach (strip r).

Definition mirror_ok (r : http_response) : Prop :=
  cookies_mirror_valid_ r = true -> cookies_ r = build_mirror (structured_cookies_ r).

Lemma reach_invariant r : response_reach r -> response_ok r /\ mirror_ok r.
Proof.
  assert (Hi : forall k v (m : list (bytes * bytes)), sorted header_comparator m -> sorted header_comparator (insert_or_assign header_comparator k v m))
    by (intros; by apply insert_or_assign_sorted; [apply _|]).
  induction 1 as [ |r k v r' _ [[] Hm] E|r k v r' _ [[] Hm] E|r k v r' _ [[] Hm] E|r c _ [[] Hm]|r code r' _ [[] Hm] E
    |r _ [[] Hm]|r k _ [[] Hm]|r k b i _ [[] Hm]|r _ [[] Hm]].
  - repeat constructor.
  - unfold with_header in E. destruct (validate_http_field _ _ _); simplify_eq/=. split; [constructor; simpl; auto|done].
  - unfold with_footer in E. destruct (validate_http_field _ _ _); simplify_eq/=. split; [constructor; simpl; auto|done].
  - unfold do_set_cookie in E. destruct (with_name _ _); simplify_eq/=. destruct (with_value _ _); simplify_eq/=.
    by repeat constructor.
  - by repeat constructor.
  - unfold with_status in E. destruct (_ || _); simplify_eq/=. by repeat constructor.
  - by repeat constructor.
  - unfold get_cookie, ensure_cookie_mirror_. destruct (cookies_mirror_valid_ r) eqn:E; [by repeat constructor|].
    split; [constructor; simpl; auto using build_mirror_sorted|done].
  - by repeat constructor.
  - repeat constructor.
Qed.

(** Whatever was done to a response, [get_cookie] answers from the structured
    store: the value of the last cookie of that name, the empty string when
    there is none. *)
Theorem get_cookie_last r key :
  response_reach r ->
  snd (get_cookie r key) = default [] (last_cookie key (structured_cookies_ r))
  /\ structured_cookies_ (fst (get_cookie r key)) = structured_cookies_ r.
Proof.
  intros [_ Hm]%reach_invariant. unfold get_cookie, ensure_cookie_mirror_.
  destruct (cookies_mirror_valid_ r) eqn:E; simpl; unfold header_map_find_view.
  - by rewrite (Hm E), build_mirror_find.
  - by rewrite build_mirror_find.
Qed.

Definition two_cookies (a b : bytes) : http_response :=
  do_set_cookie_struct (do_set_cookie_struct new_response
    (Cookie.mk_cookie (bs "A") a [] [] None None false false unset))
    (Cookie.mk_cookie (bs "A") b [] [] None None false false unset).

Lemma get_cookie_last_witness :
  response_reach (two_cookies (bs "1") (bs "2"))
  /\ snd (get_cookie (two_cookies (bs "1") (bs "2")) (bs "a")) = bs "2".
Proof.
  assert (Hr : response_reach (two_cookies (bs "1") (bs "2")))
    by apply reach_cookie, reach_cookie, (reach_new (-1) bk_empty None false).
  split; [exact Hr|]. exact (proj1 (get_cookie_last _ (bs "a") Hr)).
Defined.

(** The pair setter replaces the first cookie of the name while the accessor
    reads the last: what was just set does not read back. *)
Theorem pair_cookie_not_read_back :
  exists r', do_set_cookie (two_cookies (bs "1") (bs "2")) (bs "A") (bs "3") = Ok r'
    /\ snd (get_cookie r' (bs "A")) = bs "2".
Proof. eexists. split; [by vm_compute|]. by vm_compute. Qed.

(** ** Descriptors are released exactly once *)

Section Descriptors.
Context `{MhdCreate} `{BodyFits}.

Definition event_fd (e : fd_event) : Z := match e with Close fd | Handoff fd => fd end.

Abbreviation released := (map event_fd).

(** The descriptors the destructor of a body would close. *)
Definition owned_body (b : response_body) : list Z := released (body_dtor b).

Definition owned (o : option http_response) : list Z :=
  match o with Some r => match body_ r with Some b => owned_body b | None => [] end | None => [] end.

Definition materialized (b : response_body) : bool :=
  match b with file_response_body _ _ _ m | pipe_response_body _ m => m | _ => false end.

Definition pipe_open (o : option http_response) : Prop :=
  match o with
  | Some r => match body_ r with Some (pipe_response_body fd _) => fd <> (-1)%Z | _ => True end
  | None => True
  end.

(** The response objects of a program ([None]: destroyed), the descriptors
    given to them, and what happened to descriptors since. *)
Record lifetimes : Type := Lifetimes { objs : list (option http_response); acquired : list Z; events : list fd_event }.

Definition opened_fds (opened : Z) : list Z := if (opened =? -1)%Z then [] else [opened].

Inductive life_step : lifetimes -> lifetimes -> Prop :=
| step_plain w r : owned (Some r) = [] -> pipe_open (Some r) ->
    life_step w (Lifetimes (objs w ++ [Some r]) (acquired w) (events w))
| step_file w path opened st r evs : file_response path opened st = Ok (r, evs) ->
    life_step w (Lifetimes (objs w ++ [Some r]) (acquired w ++ opened_fds opened) (events w ++ evs))
| step_pipe w fd : fd <> (-1)%Z ->
    life_step w (Lifetimes (objs w ++ [Some (pipe_response fd)]) (acquired w ++ [fd]) (events w))
| step_move_construct w i other new other' evs :
    objs w !! i = Some (Some other) -> move_construct other = (new, other', evs) ->
    life_step w (Lifetimes (<[i := Some other']> (objs w) ++ [Some new]) (acquired w) (events w ++ evs))
| step_move_assign w i j r other r' other' evs :
    i <> j -> objs w !! i = Some (Some r) -> objs w !! j = Some (Some other) ->
    move_assign r other = (r', other', evs) ->
    life_step w (Lifetimes (<[i := Some r']> (<[j := Some other']> (objs w))) (acquired w) (events w ++ evs))
| step_destroy w i r r' evs :
    objs w !! i = Some (Some r) -> destroy_body r = (r', evs) ->
    life_step w (Lifetimes (<[i := None]> (objs w)) (acquired w) (events w ++ evs))
| step_materialize w i r b b' m evs :
    objs w !! i = Some (Some r) -> body_ r = Some b -> materialized b = false ->
    materialize b = (b', m, evs) ->
    life_step w (Lifetimes (<[i := Some (set_body r (kind_ r) (Some b') (body_inline_ r))]> (objs w))
                           (acquired w) (events w ++ evs)).

Inductive life_reach : lifetimes -> Prop :=
| life_init : life_reach (Lifetimes [] [] [])
| life_next w w' : life_reach w -> life_step w w' -> life_reach w'.

Definition owned_all (l : list (option http_response)) : list Z := concat (map owned l).

Lemma owned_all_insert (l : list (option http_response)) i o o' (fds : list Z) :
  l !! i = Some o -> owned o ≡ₚ owned o' ++ fds ->
  owned_all l ≡ₚ owned_all (<[i := o']> l) ++ fds.
Proof.
  intros Hi Ho. unfold owned_all. rewrite <-(take_drop_middle _ _ _ Hi) at 1.
  rewrite insert_take_drop by (by eapply lookup_lt_Some).
  rewrite !map_app, !concat_app. simpl. rewrite Ho. solve_Permutation.
Qed.

Lemma move_construct_owned other new other' evs :
  move_construct other = (new, other', evs) ->
  owned (Some new) = owned (Some other) /\ owned (Some other') = [] /\ evs = []
  /\ (pipe_open (Some other) -> pipe_open (Some new)) /\ pipe_open (Some other').
Proof.
  unfold move_construct, adopt_body_from. simpl. destruct (body_ other) as [b|] eqn:Eb.
  - destruct (body_inline_ other).
    + destruct b; simpl; intros [= <- <- <-]; unfold owned; simpl; rewrite ?Eb; split_and!; try done;
        unfold close_if; rewrite ?andb_false_r; done.
    + intros [= <- <- <-]. unfold owned. simpl. by rewrite ?Eb.
  - intros [= <- <- <-]. unfold owned. simpl. by rewrite ?Eb.
Qed.

Lemma destroy_body_owned r r' evs : destroy_body r = (r', evs) -> owned (Some r) = released evs.
Proof. unfold destroy_body, owned. destruct (body_ r); by intros [= <- <-]. Qed.

Lemma materialize_owned r b b' m evs :
  body_ r = Some b -> pipe_open (Some r) -> materialized b = false -> materialize b = (b', m, evs) ->
  owned_body b ≡ₚ owned_body b' ++ released evs /\ pipe_open (Some (set_body r (kind_ r) (Some b') (body_inline_ r))).
Proof.
  intros Eb Hp Hm. unfold pipe_open in Hp. rewrite Eb in Hp.
  destruct b as [f|d|p sz fd mt|es t|fd mt|p|p]; simpl in *; subst; try (by intros [= <- <- <-]).
  - destruct (Z.eqb_spec fd (-1)) as [->|Hfd]; [by intros [= <- <- <-]|].
    destruct (negb _); [destruct (mhd_new _)|]; intros [= <- <- <-]; unfold owned_body; simpl;
      unfold close_if; rewrite (proj2 (Z.eqb_neq fd (-1)) Hfd); done.
  - destruct (_ <? _)%Z; by intros [= <- <- <-].
  - destruct (mhd_new _); intros [= <- <- <-]; unfold owned_body; simpl;
      unfold close_if; rewrite (proj2 (Z.eqb_neq fd (-1)) Hp); done.
Qed.

Lemma owned_all_app l o : owned_all (l ++ [o]) = owned_all l ++ owned o.
Proof. unfold owned_all. rewrite map_app, concat_app. simpl. by rewrite app_nil_r. Qed.

Lemma make_file_owned path opened st r evs :
  file_response path opened st = Ok (r, evs) ->
  opened_fds opened = owned (Some r) ++ released evs /\ pipe_open (Some r).
Proof.
  unfold file_response, make_file_body, opened_fds. simpl. destruct (opened =? -1)%Z eqn:E.
  { by intros [= <- <-]. }
  destruct st as [[[] sz]|]; [destruct (sz <? 0)%Z| |]; intros [= <- <-]; unfold owned, owned_body; simpl;
    rewrite ?E; done.
Qed.

(** One step keeps the balance of descriptors. *)
Definition balanced (w : lifetimes) : Prop :=
  acquired w ≡ₚ owned_all (objs w) ++ released (events w) /\ Forall pipe_open (objs w).

Lemma life_step_balanced w w' : life_step w w' -> balanced w -> balanced w'.
Proof.
  unfold balanced. destruct 1 as [w r Ho Hp|w path opened st r evs E|w fd Hfd|w i o n o' evs Hi E
    |w i j r o r' o' evs Hij Hi Hj E|w i r r' evs Hi E|w i r b b' m evs Hi Eb Hm E];
    intros [Hw HF]; simpl; rewrite ?owned_all_app, ?map_app, ?Ho, ?app_nil_r.
  - split; [done|]. by rewrite Forall_app, Forall_singleton.
  - apply make_file_owned in E as [E Hp]. rewrite E, Hw. split; [solve_Permutation|].
    by rewrite Forall_app, Forall_singleton.
  - assert (Ho : owned (Some (pipe_response fd)) = [fd]).
    { unfold owned, owned_body. simpl. by rewrite (proj2 (Z.eqb_neq fd (-1)) Hfd). }
    rewrite Ho, Hw. split; [solve_Permutation|]. rewrite Forall_app, Forall_singleton. done.
  - apply move_construct_owned in E as (E1 & E2 & -> & Hp1 & Hp2). rewrite app_nil_r, Hw. split.
    + rewrite (owned_all_insert _ i _ (Some o') (owned (Some n)) Hi) by (by rewrite E1, E2). done.
    + rewrite Forall_app, Forall_singleton. split; [by apply Forall_insert|].
      apply Hp1. by apply (Forall_lookup_1 _ _ _ _ HF Hi).
  - unfold move_assign in E. destruct (destroy_body r) as [r0 closed] eqn:Ed.
    destruct (move_construct o) as [[n1 o1] moved] eqn:Em. injection E as <- <- <-.
    apply destroy_body_owned in Ed. apply move_construct_owned in Em as (E1 & E2 & -> & Hp1 & Hp2).
    rewrite app_nil_r, Hw. split.
    + rewrite (owned_all_insert _ j _ (Some o1) (owned (Some o)) Hj) by (by rewrite E2).
      assert (Hi' : <[j := Some o1]> (objs w) !! i = Some (Some r)) by (by rewrite list_lookup_insert_ne).
      unfold owned_all. rewrite <-E1, <-Ed. rewrite <-(take_drop_middle _ _ _ Hi') at 1.
      rewrite (insert_take_drop (<[j:=_]> _) i) by (by eapply lookup_lt_Some).
      rewrite !map_app, !concat_app. simpl. solve_Permutation.
    + apply Forall_insert; [by apply Forall_insert|]. apply Hp1. by apply (Forall_lookup_1 _ _ _ _ HF Hj).
  - apply destroy_body_owned in E. rewrite Hw. split; [|by apply Forall_insert].
    rewrite (owned_all_insert _ i _ None (released evs) Hi) by (by rewrite E). solve_Permutation.
  - destruct (materialize_owned _ _ _ _ _ Eb (Forall_lookup_1 _ _ _ _ HF Hi) Hm E) as [E1 E2].
    rewrite Hw. split; [|by apply Forall_insert].
    rewrite (owned_all_insert _ i _ (Some (set_body r (kind_ r) (Some b') (body_inline_ r))) (released evs) Hi);
      [solve_Permutation|]. unfold owned. rewrite Eb. done.
Qed.

(** C28: Along any life of responses (construction, moves, materialisation at most
    once, destruction) the descriptors given to them are, with multiplicity,
    those still owned and those closed or handed to libmicrohttpd: distinct
    descriptors are released at most once, none is released while still owned,
    and when every object is gone all have been released. *)
Theorem descriptors_released_once w :
  life_reach w ->
  acquired w ≡ₚ owned_all (objs w) ++ released (events w)
  /\ (NoDup (acquired w) -> NoDup (released (events w))
        /\ forall fd, fd ∈ released (events w) -> fd ∉ owned_all (objs w))
  /\ (Forall (fun o => o = None) (objs w) -> acquired w ≡ₚ released (events w)).
Proof.
  intros Hw. assert (Hb : balanced w).
  { induction Hw as [|w w' _ IH Hs]; [split; [done|constructor]|]. by eapply life_step_balanced. }
  destruct Hb as [Hb _]. split_and!; [done| |].
  - rewrite Hb. intros (Ho & Hd & Hr)%NoDup_app. split; [done|]. intros fd Hf Hin. by apply (Hd fd).
  - intros HF. assert (Hn : owned_all (objs w) = []) by (clear Hb; unfold owned_all; induction HF as [|? ? ->]; done). by rewrite Hb, Hn.
Qed.

End Descriptors.

(** A pipe response moved and destroyed: its descriptor is closed once. *)
Lemma descriptors_released_once_witness :
  exists w, @life_reach (fun _ => true) (fun _ => true) w
    /\ acquired w = [7%Z] /\ acquired w ≡ₚ map event_fd (events w).
Proof.
  set (r := @pipe_response (fun _ => true) 7). set (m := move_construct r).
  assert (Hw : @life_reach (fun _ => true) (fun _ => true) (Lifetimes [None; None] [7%Z] [Close 7])).
  { apply (life_next (Lifetimes [None; Some (fst (fst m))] [7%Z] [])).
    2: { by apply (step_destroy (Lifetimes [None; Some (fst (fst m))] [7%Z] []) 1 (fst (fst m)) (set_body (fst (fst m)) bk_pipe None false) [Close 7]). }
    apply (life_next (Lifetimes [Some (snd (fst m)); Some (fst (fst m))] [7%Z] [])).
    2: { by apply (step_destroy (Lifetimes [Some (snd (fst m)); Some (fst (fst m))] [7%Z] []) 0 (snd (fst m)) (snd (fst m)) []). }
    apply (life_next (Lifetimes [Some r] [7%Z] [])).
    2: { by apply (step_move_construct (Lifetimes [Some r] [7%Z] []) 0 r (fst (fst m)) (snd (fst m)) []). }
    apply (life_next (Lifetimes [] [] [])); [constructor|]. by apply (step_pipe (Lifetimes [] [] []) 7). }
  exists (Lifetimes [None; None] [7%Z] [Close 7]). split; [exact Hw|]. split; [done|].
  apply (descriptors_released_once _ Hw). by repeat constructor.
Defined.
