(* ===== verification/HookBus.v ===== *)
(** * Hooks

    [hook_bus.cpp], [resource_hook_table.cpp], [hook_handle.cpp]: the
    server-wide and the per-route tables of lifecycle hooks, how a phase is
    fired, and the handles that own registrations. *)

From S2P Require Import Prelude HttpResponse.
Import Response.

Module Hooks.

Inductive hook_phase : Type :=
| connection_opened | accept_decision | request_received | body_chunk | route_resolved | before_handler
| handler_exception | after_handler | response_sent | request_completed | connection_closed
| phase_count_.

#[export] Instance hook_phase_eq_dec : EqDecision hook_phase.
Proof. solve_decision. Defined.

(** The underlying value of the enumerator. *)
Definition phase_index (p : hook_phase) : nat :=
  match p with
  | connection_opened => 0 | accept_decision => 1 | request_received => 2 | body_chunk => 3
  | route_resolved => 4 | before_handler => 5 | handler_exception => 6 | after_handler => 7
  | response_sent => 8 | request_completed => 9 | connection_closed => 10 | phase_count_ => 11
  end.

Definition phase_names : list bytes :=
  [bs "connection_opened"; bs "accept_decision"; bs "request_received"; bs "body_chunk"; bs "route_resolved";
   bs "before_handler"; bs "handler_exception"; bs "after_handler"; bs "response_sent"; bs "request_completed";
   bs "connection_closed"].

(** [to_string(hook_phase)]: empty for the sentinel. *)
Definition phase_to_string (p : hook_phase) : bytes := default [] (phase_names !! phase_index p).

(** A registered callable: its slot, and the identity of the [std::function]. *)
Record phase_entry : Type := PhaseEntry { slot_id : Z; fn : nat }.

(** ** The bus *)

Record hook_bus : Type := HookBus {
  next_slot_id_ : Z;
  any_hooks_ : list bool;
  hooks_connection_opened_ : list phase_entry;
  hooks_accept_decision_ : list phase_entry;
  hooks_request_received_ : list phase_entry;
  hooks_body_chunk_ : list phase_entry;
  hooks_route_resolved_ : list phase_entry;
  hooks_before_handler_ : list phase_entry;
  hooks_handler_exception_ : list phase_entry;
  hooks_after_handler_ : list phase_entry;
  hooks_response_sent_ : list phase_entry;
  hooks_request_completed_ : list phase_entry;
  hooks_connection_closed_ : list phase_entry;
  handler_exception_alias_ : option nat;
  log_access_alias_ : option nat;
}.

Definition new_bus : hook_bus := HookBus 1 (replicate 11 false) [] [] [] [] [] [] [] [] [] [] [] None None.

(** The vector an operation on a phase works on. *)
Definition vec (b : hook_bus) (p : hook_phase) : list phase_entry :=
  match p with
  | connection_opened => hooks_connection_opened_ b
  | accept_decision => hooks_accept_decision_ b
  | request_received => hooks_request_received_ b
  | body_chunk => hooks_body_chunk_ b
  | route_resolved => hooks_route_resolved_ b
  | before_handler => hooks_before_handler_ b
  | handler_exception => hooks_handler_exception_ b
  | after_handler => hooks_after_handler_ b
  | response_sent => hooks_response_sent_ b
  | request_completed => hooks_request_completed_ b
  | connection_closed => hooks_connection_closed_ b
  | phase_count_ => []
  end.

Definition set_vec (b : hook_bus) (p : hook_phase) (l : list phase_entry) : hook_bus :=
  let '(HookBus n a v0 v1 v2 v3 v4 v5 v6 v7 v8 v9 v10 x y) := b in
  match p with
  | connection_opened => HookBus n a l v1 v2 v3 v4 v5 v6 v7 v8 v9 v10 x y
  | accept_decision => HookBus n a v0 l v2 v3 v4 v5 v6 v7 v8 v9 v10 x y
  | request_received => HookBus n a v0 v1 l v3 v4 v5 v6 v7 v8 v9 v10 x y
  | body_chunk => HookBus n a v0 v1 v2 l v4 v5 v6 v7 v8 v9 v10 x y
  | route_resolved => HookBus n a v0 v1 v2 v3 l v5 v6 v7 v8 v9 v10 x y
  | before_handler => HookBus n a v0 v1 v2 v3 v4 l v6 v7 v8 v9 v10 x y
  | handler_exception => HookBus n a v0 v1 v2 v3 v4 v5 l v7 v8 v9 v10 x y
  | after_handler => HookBus n a v0 v1 v2 v3 v4 v5 v6 l v8 v9 v10 x y
  | response_sent => HookBus n a v0 v1 v2 v3 v4 v5 v6 v7 l v9 v10 x y
  | request_completed => HookBus n a v0 v1 v2 v3 v4 v5 v6 v7 v8 l v10 x y
  | connection_closed => HookBus n a v0 v1 v2 v3 v4 v5 v6 v7 v8 v9 l x y
  | phase_count_ => b
  end.

Definition set_next (b : hook_bus) (n : Z) : hook_bus :=
  let '(HookBus _ a v0 v1 v2 v3 v4 v5 v6 v7 v8 v9 v10 x y) := b in
  HookBus n a v0 v1 v2 v3 v4 v5 v6 v7 v8 v9 v10 x y.

(** [any_hooks_[p].store(v)] *)
Definition set_any (b : hook_bus) (p : hook_phase) (v : bool) : hook_bus :=
  let '(HookBus n a v0 v1 v2 v3 v4 v5 v6 v7 v8 v9 v10 x y) := b in
  HookBus n (<[phase_index p := v]> a) v0 v1 v2 v3 v4 v5 v6 v7 v8 v9 v10 x y.

Definition set_aliases (b : hook_bus) (x y : option nat) : hook_bus :=
  let '(HookBus n a v0 v1 v2 v3 v4 v5 v6 v7 v8 v9 v10 _ _) := b in
  HookBus n a v0 v1 v2 v3 v4 v5 v6 v7 v8 v9 v10 x y.

(** [has_hooks_for(p)], for [p] below the sentinel. *)
Definition has_hooks_for (b : hook_bus) (p : hook_phase) : bool := default false (any_hooks_ b !! phase_index p).

(** [add_impl]: [expected] is the phase of the vector, [requested] the tag the
    caller passed; an empty callable is [None]. *)
Definition add_impl (requested expected : hook_phase) (f : option nat) : stx hook_bus Z := fun b =>
  if bool_decide (requested <> expected) then
    (b, Throw (invalid_argument (bs "hook phase mismatch: add_hook overload for " ++ phase_to_string expected
                                 ++ bs " received phase tag " ++ phase_to_string requested)))
  else match f with
  | None => (b, Throw (invalid_argument (bs "hook callable must not be empty")))
  | Some f =>
      let id := next_slot_id_ b in
      let b := set_next b (wrap64 (id + 1)) in
      let b := set_vec b expected (vec b expected ++ [PhaseEntry id f]) in
      (set_any b expected true, Ok id)
  end.

(** The eleven [add] overloads: the type of the callable picks the phase. *)
Inductive overload : Type :=
| on_connection_open | on_accept | on_request_received | on_body_chunk | on_route_resolved | on_before_handler
| on_handler_exception | on_after_handler | on_response_sent | on_request_completed | on_connection_close.

Definition overload_phase (o : overload) : hook_phase :=
  match o with
  | on_connection_open => connection_opened
  | on_accept => accept_decision
  | on_request_received => request_received
  | on_body_chunk => body_chunk
  | on_route_resolved => route_resolved
  | on_before_handler => before_handler
  | on_handler_exception => handler_exception
  | on_after_handler => after_handler
  | on_response_sent => response_sent
  | on_request_completed => request_completed
  | on_connection_close => connection_closed
  end.

Definition add (o : overload) (requested : hook_phase) (f : option nat) : stx hook_bus Z :=
  add_impl requested (overload_phase o) f.

(** Erase the first entry of a slot. *)
Fixpoint erase_slot (id : Z) (l : list phase_entry) : option (list phase_entry) :=
  match l with
  | [] => None
  | e :: l => if (slot_id e =? id)%Z then Some l else (fun l => e :: l) <$> erase_slot id l
  end.

Definition alias_still_wired (b : hook_bus) (p : hook_phase) : bool :=
  (bool_decide (p = handler_exception) && bool_decide (is_Some (handler_exception_alias_ b)))
  || (bool_decide (p = response_sent) && bool_decide (is_Some (log_access_alias_ b))).

(** The lambda of [remove] on the vector of a phase. *)
Definition erase_and_reset (p : hook_phase) (id : Z) (b : hook_bus) : hook_bus :=
  match erase_slot id (vec b p) with
  | None => b
  | Some l =>
      let b := set_vec b p l in
      if is_empty l && negb (alias_still_wired b p) then set_any b p false else b
  end.

Definition erase_slot_for_lifecycle_phase_ (p : hook_phase) (id : Z) (b : hook_bus) : hook_bus :=
  match p with
  | connection_opened | accept_decision | request_received | body_chunk | route_resolved =>
      erase_and_reset p id b
  | _ => b
  end.

Definition erase_slot_for_handler_phase_ (p : hook_phase) (id : Z) (b : hook_bus) : hook_bus :=
  match p with
  | before_handler | handler_exception | after_handler | response_sent | request_completed | connection_closed =>
      erase_and_reset p id b
  | _ => b
  end.

(** [remove(phase, slot_id)] *)
Definition remove (p : hook_phase) (id : Z) (b : hook_bus) : hook_bus :=
  if phase_index p <=? phase_index route_resolved
  then erase_slot_for_lifecycle_phase_ p id b
  else erase_slot_for_handler_phase_ p id b.

Definition set_handler_exception_alias (f : option nat) (b : hook_bus) : hook_bus :=
  set_any (set_aliases b f (log_access_alias_ b)) handler_exception true.

Definition set_log_access_alias (f : option nat) (b : hook_bus) : hook_bus :=
  set_aliases b (handler_exception_alias_ b) f.

Definition phase_hook_count_lifecycle_ (b : hook_bus) (p : hook_phase) : nat :=
  match p with
  | connection_opened | accept_decision | request_received | body_chunk | route_resolved => length (vec b p)
  | _ => 0
  end.

Definition phase_hook_count_handler_ (b : hook_bus) (p : hook_phase) : nat :=
  match p with
  | before_handler | handler_exception | after_handler | response_sent | request_completed | connection_closed =>
      length (vec b p)
  | _ => 0
  end.

Definition phase_hook_count (b : hook_bus) (p : hook_phase) : nat :=
  if phase_index p <=? phase_index route_resolved
  then phase_hook_count_lifecycle_ b p
  else phase_hook_count_handler_ b p.

(** ** The table of one route *)

Record resource_hook_table : Type := ResourceHookTable {
  rt_next_slot_id_ : Z;
  rt_any_hooks_ : list bool;
  rt_before_handler_ : list phase_entry;
  rt_handler_exception_ : list phase_entry;
  rt_after_handler_ : list phase_entry;
  rt_response_sent_ : list phase_entry;
  rt_request_completed_ : list phase_entry;
}.

Definition new_table : resource_hook_table := ResourceHookTable 1 (replicate 11 false) [] [] [] [] [].

Definition rt_vec (t : resource_hook_table) (p : hook_phase) : list phase_entry :=
  match p with
  | before_handler => rt_before_handler_ t
  | handler_exception => rt_handler_exception_ t
  | after_handler => rt_after_handler_ t
  | response_sent => rt_response_sent_ t
  | request_completed => rt_request_completed_ t
  | _ => []
  end.

Definition rt_set_vec (t : resource_hook_table) (p : hook_phase) (l : list phase_entry) : resource_hook_table :=
  let '(ResourceHookTable n a v0 v1 v2 v3 v4) := t in
  match p with
  | before_handler => ResourceHookTable n a l v1 v2 v3 v4
  | handler_exception => ResourceHookTable n a v0 l v2 v3 v4
  | after_handler => ResourceHookTable n a v0 v1 l v3 v4
  | response_sent => ResourceHookTable n a v0 v1 v2 l v4
  | request_completed => ResourceHookTable n a v0 v1 v2 v3 l
  | _ => t
  end.

Definition rt_set_any (t : resource_hook_table) (p : hook_phase) (v : bool) : resource_hook_table :=
  let '(ResourceHookTable n a v0 v1 v2 v3 v4) := t in
  ResourceHookTable n (<[phase_index p := v]> a) v0 v1 v2 v3 v4.

Definition rt_set_next (t : resource_hook_table) (n : Z) : resource_hook_table :=
  let '(ResourceHookTable _ a v0 v1 v2 v3 v4) := t in ResourceHookTable n a v0 v1 v2 v3 v4.

(** [any_hooks(phase)] *)
Definition any_hooks (t : resource_hook_table) (p : hook_phase) : bool :=
  default false (rt_any_hooks_ t !! phase_index p).

(** [append_impl<P>] *)
Definition append_impl (p : hook_phase) (f : nat) (t : resource_hook_table) : resource_hook_table * Z :=
  let id := rt_next_slot_id_ t in
  let t := rt_set_next t (wrap64 (id + 1)) in
  let t := rt_set_vec t p (rt_vec t p ++ [PhaseEntry id f]) in
  (rt_set_any t p true, id).

(** [remove_slot(phase, slot_id)]: the gate is cleared whenever the vector is
    empty afterwards, found or not. *)
Definition remove_slot (p : hook_phase) (id : Z) (t : resource_hook_table) : resource_hook_table :=
  match p with
  | before_handler | handler_exception | after_handler | response_sent | request_completed =>
      let l := default (rt_vec t p) (erase_slot id (rt_vec t p)) in
      let t := rt_set_vec t p l in
      if is_empty l then rt_set_any t p false else t
  | _ => t
  end.

(** The five [append_*]: an overload picks the phase; [http_resource::add_hook]
    checks the tag and the callable before it touches the table. *)
Inductive route_overload : Type :=
| route_before_handler | route_handler_exception | route_after_handler | route_response_sent | route_request_completed.

Definition route_overload_phase (o : route_overload) : hook_phase :=
  match o with
  | route_before_handler => before_handler
  | route_handler_exception => handler_exception
  | route_after_handler => after_handler
  | route_response_sent => response_sent
  | route_request_completed => request_completed
  end.

Definition check_phase (requested expected : hook_phase) : outcome unit :=
  if bool_decide (requested <> expected) then
    Throw (invalid_argument (bs "http_resource::add_hook: invalid phase " ++ phase_to_string requested
      ++ bs " -- per-route hooks accept only " ++ phase_to_string expected
      ++ bs " on this overload (and one of: before_handler, handler_exception, after_handler, response_sent, request_completed -- the post-route-resolution phases). Earlier phases (connection_opened, accept_decision, request_received, body_chunk, route_resolved, connection_closed) are server-scope only because the resource is not yet known when they fire."))
  else Ok ().

Definition check_fn (is_empty : bool) : outcome unit :=
  if is_empty then Throw (invalid_argument (bs "http_resource::add_hook: hook callable must not be empty")) else Ok ().

(** [http_resource::add_hook]; the resource's table is [None] until the first
    call ([ensure_table]). *)
Definition resource_add_hook (o : route_overload) (requested : hook_phase) (f : option nat)
    : stx (option resource_hook_table) Z := fun slot =>
  match check_phase requested (route_overload_phase o) with
  | Throw e => (slot, Throw e)
  | Undefined => (slot, Undefined)
  | Ok _ =>
    match f with
    | None => (slot, check_fn true ≫= fun _ => Ok 0%Z)
    | Some f => let '(t, id) := append_impl (route_overload_phase o) f (default new_table slot) in (Some t, Ok id)
    end
  end.

(** ** Firing

    What the user's callables do is a parameter: a callable works on the world
    [W] of the server (with the context it is passed) and throws, passes
    ([None]) or responds; [on_error] is the guarded error log. *)
Class HookCode (W : Type) := {
  call_hook : nat -> W -> W * (exn + option http_response);
  on_error : bytes -> W -> W;
}.

Section Fire.
Context {W : Type} `{HookCode W}.

(** [": "] and [what()] for a [std::exception], else [" unknown exception"]. *)
Definition threw_text (subject : bytes) (e : exn) : bytes :=
  match e with
  | invalid_argument what | std_exception what => subject ++ bs " threw: " ++ what
  | unknown_exception => subject ++ bs " threw unknown exception"
  end.

(** One callable inside [try]: an exception is logged and counts as a pass. *)
Definition call_guarded (subject : bytes) (f : nat) (w : W) : W * option http_response :=
  match call_hook f w with
  | (w, inl e) => (on_error (threw_text subject e) w, None)
  | (w, inr action) => (w, action)
  end.

Definition run_void (subject : bytes) (snapshot : list phase_entry) (w : W) : W :=
  foldl (fun w e => fst (call_guarded subject (fn e) w)) w snapshot.

Fixpoint run_short_circuit (subject : bytes) (snapshot : list phase_entry) (w : W) : W * option http_response :=
  match snapshot with
  | [] => (w, None)
  | e :: snapshot =>
      match call_guarded subject (fn e) w with
      | (w, Some r) => (w, Some r)
      | (w, None) => run_short_circuit subject snapshot w
      end
  end.

Definition hook_subject (phase_name : bytes) : bytes := bs "hook[" ++ phase_name ++ bs "]".

(** The vector is copied under the lock and the copy is walked: what the
    callables register or remove shows at the next firing. *)
Definition fire_hooks_for_phase (phase_name : bytes) (hook_vec : list phase_entry) (w : W) : W :=
  if is_empty hook_vec then w else run_void (hook_subject phase_name) hook_vec w.

Definition fire_short_circuit_hooks_for_phase (phase_name : bytes) (hook_vec : list phase_entry) (w : W)
    : W * option http_response :=
  if is_empty hook_vec then (w, None) else run_short_circuit (hook_subject phase_name) hook_vec w.

Definition fire_connection_opened (b : hook_bus) : W -> W :=
  fire_hooks_for_phase (bs "connection_opened") (hooks_connection_opened_ b).
Definition fire_accept_decision (b : hook_bus) : W -> W :=
  fire_hooks_for_phase (bs "accept_decision") (hooks_accept_decision_ b).
Definition fire_connection_closed (b : hook_bus) : W -> W :=
  fire_hooks_for_phase (bs "connection_closed") (hooks_connection_closed_ b).
Definition fire_request_received (b : hook_bus) : W -> W * option http_response :=
  fire_short_circuit_hooks_for_phase (bs "request_received") (hooks_request_received_ b).
Definition fire_body_chunk (b : hook_bus) : W -> W * option http_response :=
  fire_short_circuit_hooks_for_phase (bs "body_chunk") (hooks_body_chunk_ b).
Definition fire_route_resolved (b : hook_bus) : W -> W :=
  fire_hooks_for_phase (bs "route_resolved") (hooks_route_resolved_ b).
Definition fire_before_handler (b : hook_bus) : W -> W * option http_response :=
  fire_short_circuit_hooks_for_phase (bs "before_handler") (hooks_before_handler_ b).
Definition fire_after_handler (b : hook_bus) : W -> W * option http_response :=
  fire_short_circuit_hooks_for_phase (bs "after_handler") (hooks_after_handler_ b).
Definition fire_request_completed (b : hook_bus) : W -> W :=
  fire_hooks_for_phase (bs "request_completed") (hooks_request_completed_ b).

(** The alias runs after every user hook passed or threw. *)
Definition fire_handler_exception (b : hook_bus) (w : W) : W * option http_response :=
  match run_short_circuit (hook_subject (bs "handler_exception")) (hooks_handler_exception_ b) w with
  | (w, Some r) => (w, Some r)
  | (w, None) =>
      match handler_exception_alias_ b with
      | Some f => call_guarded (bs "internal_error_handler") f w
      | None => (w, None)
      end
  end.

Definition fire_response_sent (b : hook_bus) (w : W) : W :=
  let w := fire_hooks_for_phase (bs "response_sent") (hooks_response_sent_ b) w in
  match log_access_alias_ b with
  | Some f => fst (call_guarded (bs "log_access alias") f w)
  | None => w
  end.

(** Per-route hooks. *)
Definition route_subject (phase_name : bytes) : bytes := bs "per-route hook[" ++ phase_name ++ bs "]".

Definition route_fire_before_handler (t : resource_hook_table) : W -> W * option http_response :=
  run_short_circuit (route_subject (bs "before_handler")) (rt_before_handler_ t).
Definition route_fire_handler_exception (t : resource_hook_table) : W -> W * option http_response :=
  run_short_circuit (route_subject (bs "handler_exception")) (rt_handler_exception_ t).
Definition route_fire_after_handler (t : resource_hook_table) : W -> W * option http_response :=
  run_short_circuit (route_subject (bs "after_handler")) (rt_after_handler_ t).
Definition route_fire_response_sent (t : resource_hook_table) : W -> W :=
  run_void (route_subject (bs "response_sent")) (rt_response_sent_ t).
Definition route_fire_request_completed (t : resource_hook_table) : W -> W :=
  run_void (route_subject (bs "request_completed")) (rt_request_completed_ t).

End Fire.

(** ** Handles

    [impl_] is whether the handle points at the server, [table_weak_] the
    route table it points at. *)
Record hook_handle : Type := HookHandle {
  impl_ : bool;
  handle_slot : Z;
  handle_phase : hook_phase;
  armed_ : bool;
  table_weak_ : option nat;
}.

Definition new_handle : hook_handle := HookHandle false 0 phase_count_ false None.

(** [hook_handle(impl, phase, slot_id)] and [hook_handle(table, phase, slot_id)] *)
Definition server_handle (p : hook_phase) (id : Z) : hook_handle := HookHandle true id p true None.
Definition route_handle (t : nat) (p : hook_phase) (id : Z) : hook_handle := HookHandle false id p true (Some t).

(** What a moved-from or removed handle keeps. *)
Definition disarmed (h : hook_handle) : hook_handle := HookHandle false (handle_slot h) (handle_phase h) false None.

(** The tables handles refer to: the bus, and the live route tables by
    identity (a table whose owners are gone is absent: its weak pointers have
    expired). *)
Record tables : Type := Tables { bus : hook_bus; routes : gmap nat resource_hook_table }.

(** [h.remove()] *)
Definition handle_remove (h : hook_handle) (ts : tables) : hook_handle * tables :=
  if negb (armed_ h) then (h, ts)
  else if negb (impl_ h) then
    (disarmed h,
     match table_weak_ h with
     | Some t => Tables (bus ts) (alter (remove_slot (handle_phase h) (handle_slot h)) t (routes ts))
     | None => ts
     end)
  else (HookHandle false (handle_slot h) (handle_phase h) false (table_weak_ h),
        Tables (remove (handle_phase h) (handle_slot h) (bus ts)) (routes ts)).

(** [hook_handle(std::move(other))]: the new handle and the old one. *)
Definition handle_move_construct (other : hook_handle) : hook_handle * hook_handle := (other, disarmed other).

(** [*this = std::move(other)] for distinct handles. *)
Definition handle_move_assign (h other : hook_handle) (ts : tables) : hook_handle * hook_handle * tables :=
  let '(_, ts) := handle_remove h ts in (other, disarmed other, ts).

(** [~hook_handle()] *)
Definition handle_destroy (h : hook_handle) (ts : tables) : tables :=
  if armed_ h then snd (handle_remove h ts) else ts.

(** [std::move(h).detach()]: the receipt and what is left of [h]. *)
Definition handle_detach (h : hook_handle) : hook_handle * hook_handle :=
  (HookHandle (impl_ h) (handle_slot h) (handle_phase h) false (table_weak_ h), disarmed h).

(** [webserver::add_hook] *)
Definition webserver_add_hook (o : overload) (requested : hook_phase) (f : option nat) (ts : tables)
    : tables * outcome hook_handle :=
  match add o requested f (bus ts) with
  | (b, Ok id) => (Tables b (routes ts), Ok (server_handle (overload_phase o) id))
  | (b, Throw e) => (Tables b (routes ts), Throw e)
  | (b, Undefined) => (Tables b (routes ts), Undefined)
  end.

(** [http_resource::add_hook] on the resource whose table has identity [t]. *)
Definition http_resource_add_hook (t : nat) (o : route_overload) (requested : hook_phase) (f : option nat)
    (ts : tables) : tables * outcome hook_handle :=
  match resource_add_hook o requested f (routes ts !! t) with
  | (slot, Ok id) => (Tables (bus ts) (partial_alter (fun _ => slot) t (routes ts)), Ok (route_handle t (route_overload_phase o) id))
  | (_, Throw e) => (ts, Throw e)
  | (_, Undefined) => (ts, Undefined)
  end.

End Hooks.
Import Hooks.

(** ** Accessor laws *)

Lemma vec_set_vec b p l q :
  vec (set_vec b p l) q = if bool_decide (p = q) && bool_decide (p <> phase_count_) then l else vec b q.
Proof. destruct b, p, q; reflexivity. Qed.

Lemma vec_set_any b p v q : vec (set_any b p v) q = vec b q.
Proof. by destruct b, q. Qed.

Lemma vec_set_next b n q : vec (set_next b n) q = vec b q.
Proof. by destruct b, q. Qed.

Lemma vec_set_aliases b x y q : vec (set_aliases b x y) q = vec b q.
Proof. by destruct b, q. Qed.

Lemma next_set_vec b p l : next_slot_id_ (set_vec b p l) = next_slot_id_ b.
Proof. by destruct b, p. Qed.

Lemma next_set_any b p v : next_slot_id_ (set_any b p v) = next_slot_id_ b.
Proof. by destruct b. Qed.

Lemma next_set_aliases b x y : next_slot_id_ (set_aliases b x y) = next_slot_id_ b.
Proof. by destruct b. Qed.

Lemma any_set_vec b p l : any_hooks_ (set_vec b p l) = any_hooks_ b.
Proof. by destruct b, p. Qed.

Lemma any_set_next b n : any_hooks_ (set_next b n) = any_hooks_ b.
Proof. by destruct b. Qed.

Lemma any_set_any b p v : any_hooks_ (set_any b p v) = <[phase_index p := v]> (any_hooks_ b).
Proof. by destruct b. Qed.

Lemma any_set_aliases b x y : any_hooks_ (set_aliases b x y) = any_hooks_ b.
Proof. by destruct b. Qed.

Lemma aliases_kept b :
  (forall p l, handler_exception_alias_ (set_vec b p l) = handler_exception_alias_ b /\ log_access_alias_ (set_vec b p l) = log_access_alias_ b)
  /\ (forall p v, handler_exception_alias_ (set_any b p v) = handler_exception_alias_ b /\ log_access_alias_ (set_any b p v) = log_access_alias_ b)
  /\ (forall n, handler_exception_alias_ (set_next b n) = handler_exception_alias_ b /\ log_access_alias_ (set_next b n) = log_access_alias_ b).
Proof. destruct b. split_and!; intros; repeat match goal with p : hook_phase |- _ => destruct p end; done. Qed.

Create Rewrite HintDb hooks_rw.
#[export] Hint Rewrite vec_set_vec vec_set_any vec_set_next vec_set_aliases next_set_vec next_set_any next_set_aliases
  any_set_vec any_set_next any_set_any any_set_aliases : hooks_rw.

Lemma phase_index_inj p q : phase_index p = phase_index q -> p = q.
Proof. by destruct p, q. Qed.

Lemma phase_index_lt p : p <> phase_count_ -> phase_index p < 11.
Proof. destruct p; simpl; [lia..|done]. Qed.

Lemma overload_phase_real o : overload_phase o <> phase_count_.
Proof. by destruct o. Qed.

Lemma has_hooks_insert l p v q :
  length l = 11 -> p <> phase_count_ ->
  default false (<[phase_index p := v]> l !! phase_index q)
  = if bool_decide (p = q) then v else default false (l !! phase_index q).
Proof.
  intros Hl Hp. destruct (decide (p = q)) as [->|Hne].
  - rewrite bool_decide_true by done. rewrite list_lookup_insert_eq; [done|]. rewrite Hl. by apply phase_index_lt.
  - rewrite bool_decide_false by done. rewrite list_lookup_insert_ne; [done|]. by intros ?%phase_index_inj.
Qed.

(** Case analysis on two phases being the same. *)
Ltac case_phase p q :=
  let Hq := fresh "Hq" in
  destruct (decide (p = q)) as [Hq|Hq];
  [rewrite !(bool_decide_true (p = q)) by exact Hq; try rewrite <-Hq in * | rewrite !(bool_decide_false (p = q)) by exact Hq].

(** The dispatch of [remove] reaches the vector of every phase. *)
Lemma remove_erase p id b : p <> phase_count_ -> remove p id b = erase_and_reset p id b.
Proof. by destruct p. Qed.

Lemma remove_sentinel id b : remove phase_count_ id b = b.
Proof. done. Qed.

Lemma erase_slot_filter id l :
  NoDup (slot_id <$> l) ->
  default l (erase_slot id l) = List.filter (fun e => negb (slot_id e =? id)%Z) l
  /\ (erase_slot id l = None -> Forall (fun e => slot_id e <> id) l).
Proof.
  induction l as [|e l IH]; simpl; [done|]. intros [Hn Hd]%NoDup_cons. destruct (IH Hd) as [IH1 IH2].
  destruct (Z.eqb_spec (slot_id e) id) as [<-|Hne]; simpl.
  - split; [|done]. assert (Ha : Forall (fun x => (slot_id x =? slot_id e)%Z = false) l).
    { apply Forall_forall. intros x Hx. apply Z.eqb_neq. intros Hxe. apply Hn. rewrite <-Hxe. by apply list_elem_of_fmap_2. }
    clear -Ha. induction Ha as [|x l Hx _ IH]; simpl; [done|]. rewrite Hx. simpl. by f_equal.
  - destruct (erase_slot id l); simpl in *; split; [by f_equal|done|by f_equal|].
    intros _. constructor; [done|]. by apply IH2.
Qed.

(** ** The bus is a registry of callables

    The specification: the registrations in order, each with the phase, the
    slot and the callable. *)
Record registration : Type := Registration { reg_phase : hook_phase; reg_slot : Z; reg_fn : nat }.

Definition phase_registrations (p : hook_phase) (l : list registration) : list phase_entry :=
  omap (fun r => if decide (reg_phase r = p) then Some (PhaseEntry (reg_slot r) (reg_fn r)) else None) l.

Inductive bus_op : Type :=
| BusAdd (o : overload) (requested : hook_phase) (f : option nat)
| BusRemove (p : hook_phase) (id : Z)
| BusExceptionAlias (f : nat)
| BusLogAlias (f : nat).

Definition bus_exec (b : hook_bus) (op : bus_op) : hook_bus :=
  match op with
  | BusAdd o requested f => fst (add o requested f b)
  | BusRemove p id => remove p id b
  | BusExceptionAlias f => set_handler_exception_alias (Some f) b
  | BusLogAlias f => set_log_access_alias (Some f) b
  end.

Definition registry_exec (s : Z * list registration) (op : bus_op) : Z * list registration :=
  let '(n, l) := s in
  match op with
  | BusAdd o requested (Some f) =>
      if decide (requested = overload_phase o) then ((n + 1)%Z, l ++ [Registration (overload_phase o) n f]) else s
  | BusAdd _ _ None => s
  | BusRemove p id => (n, List.filter (fun r => negb (bool_decide (reg_phase r = p) && (reg_slot r =? id)%Z)) l)
  | BusExceptionAlias _ | BusLogAlias _ => s
  end.

Record bus_ok (b : hook_bus) : Prop := {
  bo_len : length (any_hooks_ b) = 11;
  bo_armed p : vec b p <> [] -> has_hooks_for b p = true;
  bo_exact p : has_hooks_for b p = true -> vec b p <> [] \/ alias_still_wired b p = true;
  bo_alias : is_Some (handler_exception_alias_ b) -> has_hooks_for b handler_exception = true;
  bo_slots p : NoDup (slot_id <$> vec b p);
  bo_fresh p e : e ∈ vec b p -> (1 <= slot_id e < next_slot_id_ b)%Z;
  bo_next : (1 <= next_slot_id_ b)%Z;
}.

Lemma new_bus_ok : bus_ok new_bus.
Proof. constructor; try done; intros []; try done; try (by intros ? ?%elem_of_nil); constructor. Qed.

(** The two halves of [add_impl]: taking an id, and the push under the lock. *)
Definition push_entry (p : hook_phase) (e : phase_entry) (b : hook_bus) : hook_bus :=
  set_any (set_vec b p (vec b p ++ [e])) p true.

Lemma add_impl_halves requested p f b :
  fst (add_impl requested p f b)
  = match f with
    | Some f => if bool_decide (requested <> p) then b
                else push_entry p (PhaseEntry (next_slot_id_ b) f) (set_next b (wrap64 (next_slot_id_ b + 1)))
    | None => b
    end.
Proof. unfold add_impl. destruct (bool_decide _); by destruct f. Qed.

Lemma vec_push p e b q : p <> phase_count_ ->
  vec (push_entry p e b) q = if bool_decide (p = q) then vec b p ++ [e] else vec b q.
Proof. intros Hp. unfold push_entry. autorewrite with hooks_rw. by rewrite (bool_decide_true (p <> phase_count_)), andb_true_r. Qed.

Lemma reserve_ok b n : bus_ok b -> (next_slot_id_ b <= n)%Z -> bus_ok (set_next b n).
Proof.
  intros [] Hn. assert (Hs : next_slot_id_ (set_next b n) = n) by (by destruct b).
  constructor; unfold has_hooks_for in *; intros *; autorewrite with hooks_rw; rewrite ?Hs; auto.
  - intros [Hv|Hv]%bo_exact0; [by left|right]. by destruct b.
  - intros Hv. apply bo_alias0. by destruct b.
  - intros Hv%bo_fresh0. lia.
  - lia.
Qed.

Lemma push_ok p e b :
  p <> phase_count_ -> bus_ok b -> (1 <= slot_id e < next_slot_id_ b)%Z -> slot_id e ∉ slot_id <$> vec b p ->
  bus_ok (push_entry p e b).
Proof.
  intros Hp [] He Hn. constructor.
  - unfold push_entry. autorewrite with hooks_rw. by rewrite length_insert.
  - intros q. rewrite vec_push by done. unfold has_hooks_for, push_entry. autorewrite with hooks_rw. rewrite has_hooks_insert by done.
    case_bool_decide; [done|]. apply bo_armed0.
  - intros q. rewrite vec_push by done. unfold has_hooks_for, push_entry. autorewrite with hooks_rw. rewrite has_hooks_insert by done.
    case_bool_decide; [intros _; left; by intros [_ ?]%app_nil|]. intros [Hv|Hv]%bo_exact0; [by left|right]. by destruct b, p.
  - unfold has_hooks_for, push_entry. autorewrite with hooks_rw. rewrite has_hooks_insert by done.
    case_bool_decide; [done|]. intros Ha. apply bo_alias0. by destruct b, p.
  - intros q. rewrite vec_push by done. case_bool_decide; [|done]. rewrite fmap_app. apply NoDup_app.
    split_and!; [apply bo_slots0| |apply NoDup_singleton].
    intros x Hx Hx'. cbn in Hx'. apply list_elem_of_singleton in Hx' as ->. done.
  - intros q x. rewrite vec_push by done. unfold push_entry. autorewrite with hooks_rw.
    case_bool_decide; [|apply bo_fresh0]. intros [Hx|Hx]%elem_of_app; [by eapply bo_fresh0|]. by apply list_elem_of_singleton in Hx as ->.
  - unfold push_entry. by autorewrite with hooks_rw.
Qed.

Lemma add_impl_ok requested p f b :
  p <> phase_count_ -> bus_ok b -> (next_slot_id_ b < 2 ^ 64 - 1)%Z ->
  bus_ok (fst (add_impl requested p f b)).
Proof.
  intros Hp Hb Hn. rewrite add_impl_halves. destruct f as [f|]; [|done]. destruct (bool_decide _); [done|].
  pose proof (bo_next _ Hb). rewrite wrap64_small by lia.
  assert (Hs : next_slot_id_ (set_next b (next_slot_id_ b + 1)) = (next_slot_id_ b + 1)%Z) by (by destruct b).
  apply push_ok; [done|apply reserve_ok; [done|lia]|cbn; lia|]. rewrite vec_set_next. cbn.
  intros (e & He & Hin)%list_elem_of_fmap. pose proof (bo_fresh _ Hb _ _ Hin). lia.
Qed.

Lemma wired_set b p l v q :
  alias_still_wired (set_vec b p l) q = alias_still_wired b q
  /\ alias_still_wired (set_any b p v) q = alias_still_wired b q.
Proof. by destruct b, p. Qed.

(** What is left of the vectors, and of the slots in them. *)
Lemma erased_sublist p id b q :
  sublist (if bool_decide (p = q) then List.filter (fun e => negb (slot_id e =? id)%Z) (vec b q) else vec b q) (vec b q).
Proof.
  destruct (bool_decide (p = q)); [|done]. induction (vec b q) as [|x m IH]; simpl; [constructor|]. destruct (negb _); by constructor.
Qed.

Lemma erased_slots p id b q : bus_ok b ->
  NoDup (slot_id <$> (if bool_decide (p = q) then List.filter (fun e => negb (slot_id e =? id)%Z) (vec b q) else vec b q)).
Proof. intros Hb. eapply sublist_NoDup; [apply (bo_slots _ Hb q)|]. apply fmap_sublist, erased_sublist. Qed.

Lemma erase_and_reset_spec p id b :
  p <> phase_count_ -> bus_ok b ->
  let b' := erase_and_reset p id b in
  bus_ok b' /\ next_slot_id_ b' = next_slot_id_ b
  /\ (forall q, vec b' q = if bool_decide (p = q) then List.filter (fun e => negb (slot_id e =? id)%Z) (vec b q) else vec b q)
  /\ handler_exception_alias_ b' = handler_exception_alias_ b /\ log_access_alias_ b' = log_access_alias_ b.
Proof.
  intros Hp Hb. unfold erase_and_reset. pose proof Hb as [].
  destruct (erase_slot_filter id _ (bo_slots0 p)) as [He Hn].
  destruct (erase_slot id (vec b p)) as [l|]; simpl in He.
  2: { split_and!; try done. intros q. case_phase p q; [by rewrite <-He|done]. }
  destruct (aliases_kept b) as (Hk & _). destruct (Hk p l) as [Hk1 Hk2].
  assert (Hvec : forall q v, vec (set_any (set_vec b p l) p v) q
    = if bool_decide (p = q) then List.filter (fun e => negb (slot_id e =? id)%Z) (vec b q) else vec b q).
  { intros q v. autorewrite with hooks_rw. rewrite (bool_decide_true (p <> phase_count_)), andb_true_r by done.
    by case_phase p q. }
  assert (Hvec' : forall q, vec (set_vec b p l) q = vec (set_any (set_vec b p l) p true) q).
  { intros q. by autorewrite with hooks_rw. }
  destruct (is_empty l && negb (alias_still_wired b p)) eqn:E.
  - rewrite (proj1 (wired_set b p l true p)), E. apply andb_true_iff in E as [El%is_empty_true Ew%negb_true_iff].
    split_and!; [|by autorewrite with hooks_rw|intros q; apply Hvec|by destruct b, p..]. constructor.
    + autorewrite with hooks_rw. by rewrite length_insert.
    + intros q. rewrite Hvec. unfold has_hooks_for. autorewrite with hooks_rw. rewrite has_hooks_insert by done.
      case_phase p q; [by rewrite <-He, El|apply bo_armed0].
    + intros q. rewrite Hvec. rewrite (proj2 (wired_set _ _ [] _ _)), (proj1 (wired_set _ _ _ true _)).
      unfold has_hooks_for. autorewrite with hooks_rw. rewrite has_hooks_insert by done.
      case_phase p q; [done|apply bo_exact0].
    + intros Ha. unfold has_hooks_for. autorewrite with hooks_rw. rewrite has_hooks_insert by done.
      assert (Ha' : is_Some (handler_exception_alias_ b)) by (by destruct b, p).
      destruct (decide (p = handler_exception)) as [->|Hq]; [|rewrite bool_decide_false by done; by apply bo_alias0].
      exfalso. unfold alias_still_wired in Ew.
      rewrite (bool_decide_true (is_Some _)) in Ew by done. done.
    + intros q. rewrite Hvec. by apply erased_slots.
    + intros q e. rewrite Hvec. autorewrite with hooks_rw. intros Hin. eapply bo_fresh0, elem_of_sublist, erased_sublist; done.
    + by autorewrite with hooks_rw.
  - rewrite (proj1 (wired_set b p l true p)), E. split_and!; [|by autorewrite with hooks_rw|intros q; by rewrite Hvec', Hvec|done..].
    constructor.
    + by autorewrite with hooks_rw.
    + intros q. rewrite Hvec', Hvec. unfold has_hooks_for. autorewrite with hooks_rw. intros Hq. apply bo_armed0.
      intros Hv. apply Hq. rewrite Hv. by destruct (bool_decide _).
    + intros q. rewrite Hvec', Hvec. rewrite (proj1 (wired_set _ _ _ true _)). unfold has_hooks_for.
      autorewrite with hooks_rw. intros Hh%bo_exact0. case_phase p q; [|done]. rewrite <-He.
      apply andb_false_iff in E as [E|E]; [left; by apply is_empty_false|right; by apply negb_false_iff].
    + rewrite Hk1. intros Ha. unfold has_hooks_for. autorewrite with hooks_rw. by apply bo_alias0.
    + intros q. rewrite Hvec', Hvec. by apply erased_slots.
    + intros q e. rewrite Hvec', Hvec. autorewrite with hooks_rw. intros Hin. eapply bo_fresh0, elem_of_sublist, erased_sublist; done.
    + by autorewrite with hooks_rw.
Qed.

Lemma phase_registrations_app p l l' :
  phase_registrations p (l ++ l') = phase_registrations p l ++ phase_registrations p l'.
Proof. apply omap_app. Qed.

Lemma phase_registrations_one p n f q :
  phase_registrations q [Registration p n f] = if bool_decide (p = q) then [PhaseEntry n f] else [].
Proof. by destruct p, q. Qed.

Lemma phase_registrations_remove p id q l :
  phase_registrations q (List.filter (fun r => negb (bool_decide (reg_phase r = p) && (reg_slot r =? id)%Z)) l)
  = if bool_decide (p = q) then List.filter (fun e => negb (slot_id e =? id)%Z) (phase_registrations q l)
    else phase_registrations q l.
Proof.
  unfold phase_registrations. induction l as [|r l IH]; simpl; [by destruct (bool_decide _)|].
  destruct (decide (reg_phase r = q)) as [<-|Hr].
  - destruct (decide (reg_phase r = p)) as [<-|Hp].
    + rewrite !bool_decide_true in * by done. simpl. destruct (reg_slot r =? id)%Z; simpl; [done|].
      rewrite decide_True by done. by f_equal.
    + rewrite !bool_decide_false in * by congruence. simpl. rewrite decide_True by done. by f_equal.
  - assert (Hs : forall l', omap (fun r => if decide (reg_phase r = q) then Some (PhaseEntry (reg_slot r) (reg_fn r)) else None) (r :: l')
      = omap (fun r => if decide (reg_phase r = q) then Some (PhaseEntry (reg_slot r) (reg_fn r)) else None) l')
      by (intros l'; simpl; by rewrite decide_False).
    destruct (negb _); [rewrite Hs|]; apply IH.
Qed.

(** The bus and the registry agree, [k] registrations from the start. *)
Record bus_registry (k : nat) (b : hook_bus) (s : Z * list registration) : Prop := {
  br_ok : bus_ok b;
  br_next : next_slot_id_ b = fst s;
  br_bound : (fst s <= 1 + Z.of_nat k)%Z;
  br_vec p : vec b p = phase_registrations p (snd s);
}.

Lemma add_registry k b n l o req f :
  (Z.of_nat k < 2 ^ 64 - 2)%Z -> bus_registry k b (n, l) ->
  bus_registry (S k) (bus_exec b (BusAdd o req f)) (registry_exec (n, l) (BusAdd o req f)).
Proof.
  intros Hk [Hb Hn Hbd Hv]. simpl in *. cbn [bus_exec registry_exec].
  destruct f as [f|].
  2: { unfold add, add_impl. destruct (bool_decide _); constructor; simpl; try done; lia. }
  pose proof (add_impl_ok req (overload_phase o) (Some f) b (overload_phase_real o) Hb ltac:(lia)) as Hok.
  unfold add in *. unfold add_impl in *. destruct (decide (req = overload_phase o)) as [->|Hr].
  2: { rewrite bool_decide_true in * by done. constructor; simpl; try done; lia. }
  rewrite bool_decide_false in * by (intros []; done). rewrite wrap64_small in * by (destruct Hb; lia). cbn [fst] in *.
  constructor; simpl; [done| |lia|].
  + autorewrite with hooks_rw. destruct b; simpl in *; lia.
  + intros q. autorewrite with hooks_rw. rewrite (bool_decide_true (_ <> phase_count_)), andb_true_r
      by apply overload_phase_real. rewrite phase_registrations_app, phase_registrations_one.
    case_phase (overload_phase o) q; [by rewrite Hn, Hv|by rewrite app_nil_r].
Qed.

(** Installing an alias arms its phase and leaves every vector. *)
Lemma exception_alias_vec b f q : vec (set_handler_exception_alias (Some f) b) q = vec b q.
Proof. unfold set_handler_exception_alias. by autorewrite with hooks_rw. Qed.

Lemma log_alias_vec b f q : vec (set_log_access_alias (Some f) b) q = vec b q.
Proof. unfold set_log_access_alias. by autorewrite with hooks_rw. Qed.

Lemma exception_alias_ok b f : bus_ok b -> bus_ok (set_handler_exception_alias (Some f) b).
Proof.
  intros []. assert (Hh : forall q, has_hooks_for (set_handler_exception_alias (Some f) b) q
    = if bool_decide (handler_exception = q) then true else has_hooks_for b q).
  { intros q. unfold has_hooks_for, set_handler_exception_alias. autorewrite with hooks_rw. by rewrite has_hooks_insert. }
  constructor.
  - unfold set_handler_exception_alias. autorewrite with hooks_rw. by rewrite length_insert.
  - intros q. rewrite exception_alias_vec, Hh. case_phase handler_exception q; [done|apply bo_armed0].
  - intros q. rewrite exception_alias_vec, Hh. case_phase handler_exception q; [right; by destruct b|].
    intros [?|Hw]%bo_exact0; [by left|right]. destruct b. unfold alias_still_wired in *. simpl in *.
    by rewrite (bool_decide_false (q = handler_exception)) in * by congruence.
  - intros _. by rewrite Hh.
  - intros q. by rewrite exception_alias_vec.
  - intros q e. rewrite exception_alias_vec. unfold set_handler_exception_alias. autorewrite with hooks_rw. apply bo_fresh0.
  - unfold set_handler_exception_alias. by autorewrite with hooks_rw.
Qed.

Lemma log_alias_ok b f : bus_ok b -> bus_ok (set_log_access_alias (Some f) b).
Proof.
  intros []. unfold set_log_access_alias. constructor; unfold has_hooks_for; autorewrite with hooks_rw; try done.
  - intros q. autorewrite with hooks_rw. apply bo_armed0.
  - intros q. autorewrite with hooks_rw. intros [?|Hw]%bo_exact0; [by left|right].
    destruct b. unfold alias_still_wired in *. simpl in *. destruct (bool_decide (q = handler_exception) && _); [done|].
    simpl in *. apply andb_true_iff in Hw as [-> _]. done.
  - destruct b. apply bo_alias0.
  - intros q. autorewrite with hooks_rw. apply bo_slots0.
  - intros q e. autorewrite with hooks_rw. apply bo_fresh0.
Qed.

Lemma exception_alias_registry k b n l f :
  bus_registry k b (n, l) -> bus_registry (S k) (set_handler_exception_alias (Some f) b) (n, l).
Proof.
  intros [Hb Hn Hbd Hv]. constructor; simpl in *; [by apply exception_alias_ok| |lia|intros q; by rewrite exception_alias_vec].
  unfold set_handler_exception_alias. by autorewrite with hooks_rw.
Qed.

Lemma access_alias_registry k b n l f :
  bus_registry k b (n, l) -> bus_registry (S k) (set_log_access_alias (Some f) b) (n, l).
Proof.
  intros [Hb Hn Hbd Hv]. constructor; simpl in *; [by apply log_alias_ok| |lia|intros q; by rewrite log_alias_vec].
  unfold set_log_access_alias. by autorewrite with hooks_rw.
Qed.

Lemma bus_exec_registry k b s op :
  (Z.of_nat k < 2 ^ 64 - 2)%Z -> bus_registry k b s -> bus_registry (S k) (bus_exec b op) (registry_exec s op).
Proof.
  intros Hk Hr. destruct s as [n l], op as [o req f|p id|f|f].
  - by apply add_registry.
  - destruct Hr as [Hb Hn Hbd Hv]. simpl in *. cbn [bus_exec registry_exec].
    destruct (decide (p = phase_count_)) as [->|Hp].
    + rewrite remove_sentinel. constructor; simpl; try done; [lia|]. intros q. rewrite phase_registrations_remove.
      case_phase phase_count_ q; [|done]. by rewrite <-Hv.
    + rewrite remove_erase by done. destruct (erase_and_reset_spec p id b Hp Hb) as (H1 & H2 & H3 & _).
      constructor; simpl; [done|congruence|lia|]. intros q. rewrite H3, phase_registrations_remove.
      by rewrite Hv.
  - by apply exception_alias_registry.
  - by apply access_alias_registry.
Qed.

Lemma bus_exec_registry_all ops k b s :
  (Z.of_nat (k + length ops) < 2 ^ 64 - 1)%Z -> bus_registry k b s ->
  bus_registry (k + length ops) (foldl bus_exec b ops) (foldl registry_exec s ops).
Proof.
  revert k b s. induction ops as [|op ops IH]; intros k b s Hk Hb; simpl in *; [by rewrite Nat.add_0_r|].
  rewrite <-Nat.add_succ_comm. apply IH; [lia|]. apply bus_exec_registry; [lia|done].
Qed.

Lemma new_bus_registry : bus_registry 0 new_bus (1%Z, []).
Proof. constructor; simpl; [apply new_bus_ok|done|lia|by intros []]. Qed.

(** C25: The bus refines the registry: after any sequence of registrations (valid or
    refused), removals and alias installations, the vector of each phase is the
    registrations of that phase in order, under distinct slots; a phase with a
    registration is armed, and an armed phase has a registration or its
    alias. *)
Theorem hook_bus_refines_registry ops p :
  (Z.of_nat (length ops) < 2 ^ 64 - 1)%Z ->
  let b := foldl bus_exec new_bus ops in
  let l := phase_registrations p (snd (foldl registry_exec (1%Z, []) ops)) in
  vec b p = l
  /\ phase_hook_count b p = length l
  /\ NoDup (slot_id <$> l)
  /\ (l <> [] -> has_hooks_for b p = true)
  /\ (has_hooks_for b p = true -> l <> [] \/ alias_still_wired b p = true)
  /\ (is_Some (handler_exception_alias_ b) -> has_hooks_for b handler_exception = true).
Proof.
  intros Hl. cbv zeta.
  pose proof (bus_exec_registry_all ops 0 new_bus (1%Z, []) Hl new_bus_registry) as [[] _ _ Hv].
  rewrite <-Hv. split_and!; auto. by destruct p.
Qed.

Lemma hook_bus_refines_registry_witness :
  let ops := [BusAdd on_before_handler before_handler (Some 5); BusAdd on_accept before_handler (Some 6);
              BusAdd on_before_handler before_handler (Some 7); BusRemove before_handler 1] in
  (Z.of_nat (length ops) < 2 ^ 64 - 1)%Z
  /\ vec (foldl bus_exec new_bus ops) before_handler = [PhaseEntry 2 7].
Proof.
  intros ops. assert (Hl : (Z.of_nat (length ops) < 2 ^ 64 - 1)%Z) by (simpl; lia). split; [exact Hl|].
  rewrite (proj1 (hook_bus_refines_registry ops before_handler Hl)). by vm_compute.
Defined.

(** ** Who answers *)

Section FireTheory.
Context {W : Type} `{HookCode W}.

(** The callables of a list all passed or threw, from one world to another. *)
Inductive all_pass (subject : bytes) : list phase_entry -> W -> W -> Prop :=
| all_pass_nil w : all_pass subject [] w w
| all_pass_pass e l w w1 w2 :
    call_hook (fn e) w = (w1, inr None) -> all_pass subject l w1 w2 -> all_pass subject (e :: l) w w2
| all_pass_throw e l w w1 w2 ex :
    call_hook (fn e) w = (w1, inl ex) -> all_pass subject l (on_error (threw_text subject ex) w1) w2 ->
    all_pass subject (e :: l) w w2.

(** The first callable that responds is the last one called. *)
Definition first_responds (subject : bytes) (l : list phase_entry) (w w' : W) (r : http_response) : Prop :=
  exists pre e post w1, l = pre ++ e :: post /\ all_pass subject pre w w1
    /\ call_hook (fn e) w1 = (w', inr (Some r)).

Lemma all_pass_cons_inv subject e l w w1 w2 :
  call_guarded subject (fn e) w = (w1, None) -> all_pass subject (e :: l) w w2 <-> all_pass subject l w1 w2.
Proof.
  unfold call_guarded. destruct (call_hook (fn e) w) as [w0 [ex|a]] eqn:E; intros [= <-].
  - split; [inversion 1; subst; congruence|by apply all_pass_throw].
  - subst a. split; [inversion 1; subst; congruence|by apply all_pass_pass].
Qed.

Lemma run_short_circuit_spec subject l w w' o :
  run_short_circuit subject l w = (w', o) <->
  match o with Some r => first_responds subject l w w' r | None => all_pass subject l w w' end.
Proof.
  revert w. induction l as [|e l IH]; intros w; simpl.
  { destruct o as [r|]; split; [done|by intros ([] & ? & ? & ? & ? & _)|by intros [= <-]; constructor|by inversion 1]. }
  destruct (call_guarded subject (fn e) w) as [w1 [r1|]] eqn:E.
  - unfold call_guarded in E. destruct (call_hook (fn e) w) as [w0 [ex|a]] eqn:Ec; [done|]. injection E as <- ->. split.
    + intros [= <- <-]. exists [], e, l, w. repeat split; [constructor|done].
    + destruct o as [r|]; [|inversion 1; subst; congruence].
      intros ([|e' pre] & e1 & post & w2 & [= <- ->] & Hp & Hc); [inversion Hp; subst; congruence|].
      inversion Hp; subst; congruence.
  - rewrite IH. destruct o as [r|]; [|by rewrite all_pass_cons_inv]. split.
    + intros (pre & e1 & post & w2 & -> & Hp & Hc). exists (e :: pre), e1, post, w2.
      rewrite all_pass_cons_inv by done. done.
    + intros ([|e' pre] & e1 & post & w2 & [= <- ->] & Hp & Hc).
      * inversion Hp; subst. unfold call_guarded in E. by rewrite Hc in E.
      * rewrite all_pass_cons_inv in Hp by done. by exists pre, e1, post, w2.
Qed.

(** Firing handler_exception: the answer is that of the first hook that
    responds, in registration order, hooks that throw counting as a pass; the
    hooks behind it are not called.  When none responds the alias decides, and
    its exception is logged and no answer. *)
Theorem fire_handler_exception_spec (b : hook_bus) (w w' : W) (o : option http_response) :
  let subject := hook_subject (bs "handler_exception") in
  fire_handler_exception b w = (w', o) <->
  (exists r, o = Some r /\ first_responds subject (vec b handler_exception) w w' r)
  \/ (exists w1, all_pass subject (vec b handler_exception) w w1
       /\ match handler_exception_alias_ b with
          | None => w' = w1 /\ o = None
          | Some f =>
              (exists w2 ex, call_hook f w1 = (w2, inl ex) /\ o = None
                             /\ w' = on_error (threw_text (bs "internal_error_handler") ex) w2)
              \/ call_hook f w1 = (w', inr o)
          end).
Proof.
  cbv zeta. unfold fire_handler_exception. cbn [vec].
  destruct (run_short_circuit _ _ w) as [w1 [r1|]] eqn:E; pose proof E as E'; apply run_short_circuit_spec in E'.
  - split.
    + intros [= <- <-]. left. by exists r1.
    + intros [(r & -> & Hr)|(w2 & Hp & _)].
      * apply (run_short_circuit_spec _ _ _ _ (Some r)) in Hr. congruence.
      * apply (run_short_circuit_spec _ _ _ _ None) in Hp. congruence.
  - assert (Hw : forall w2, all_pass (hook_subject (bs "handler_exception")) (hooks_handler_exception_ b) w w2 -> w2 = w1).
    { intros w2 Hp. apply (run_short_circuit_spec _ _ _ _ None) in Hp. congruence. }
    transitivity (match handler_exception_alias_ b with
      | Some f => call_guarded (bs "internal_error_handler") f w1 | None => (w1, None) end = (w', o)); [done|].
    split.
    + intros Ho. right. exists w1. split; [done|]. destruct (handler_exception_alias_ b) as [f|]; [|by injection Ho as <- <-].
      unfold call_guarded in Ho. destruct (call_hook f w1) as [w2 [ex|a]]; injection Ho as <- <-; [left; eauto|by right].
    + intros [(r & -> & Hr)|(w2 & Hp & Hm)].
      { apply (run_short_circuit_spec _ _ _ _ (Some r)) in Hr. congruence. }
      apply Hw in Hp as ->. destruct (handler_exception_alias_ b) as [f|]; [|by destruct Hm as [-> ->]].
      unfold call_guarded. destruct Hm as [(w2 & ex & -> & -> & ->)| ->]; done.
Qed.

End FireTheory.

(** ** Route tables *)

Definition rt_phase (p : hook_phase) : bool :=
  match p with
  | before_handler | handler_exception | after_handler | response_sent | request_completed => true
  | _ => false
  end.

Lemma rt_vec_set t p l q : rt_vec (rt_set_vec t p l) q = if bool_decide (p = q) && rt_phase p then l else rt_vec t q.
Proof. destruct t, p, q; reflexivity. Qed.

Lemma rt_vec_set_any t p v q : rt_vec (rt_set_any t p v) q = rt_vec t q.
Proof. by destruct t, q. Qed.

Lemma rt_vec_set_next t n q : rt_vec (rt_set_next t n) q = rt_vec t q.
Proof. by destruct t, q. Qed.

Lemma rt_next_set_vec t p l : rt_next_slot_id_ (rt_set_vec t p l) = rt_next_slot_id_ t.
Proof. by destruct t, p. Qed.

Lemma rt_next_set_any t p v : rt_next_slot_id_ (rt_set_any t p v) = rt_next_slot_id_ t.
Proof. by destruct t. Qed.

Lemma rt_any_set_vec t p l : rt_any_hooks_ (rt_set_vec t p l) = rt_any_hooks_ t.
Proof. by destruct t, p. Qed.

Lemma rt_any_set_any t p v : rt_any_hooks_ (rt_set_any t p v) = <[phase_index p := v]> (rt_any_hooks_ t).
Proof. by destruct t. Qed.

Lemma rt_set_next_fields t n : rt_any_hooks_ (rt_set_next t n) = rt_any_hooks_ t /\ rt_next_slot_id_ (rt_set_next t n) = n.
Proof. by destruct t. Qed.

#[export] Hint Rewrite rt_vec_set rt_vec_set_any rt_vec_set_next rt_next_set_vec rt_next_set_any rt_any_set_vec
  rt_any_set_any : hooks_rw.

(** The gate of a route table is exact: a phase is armed when it has hooks. *)
Record table_ok (t : resource_hook_table) : Prop := {
  to_len : length (rt_any_hooks_ t) = 11;
  to_gate p : any_hooks t p = true <-> rt_vec t p <> [];
  to_slots p : NoDup (slot_id <$> rt_vec t p);
  to_fresh p e : e ∈ rt_vec t p -> (1 <= slot_id e < rt_next_slot_id_ t)%Z;
  to_next : (1 <= rt_next_slot_id_ t)%Z;
}.

Lemma new_table_ok : table_ok new_table.
Proof.
  constructor; try done; [by intros []|intros []; constructor|intros [] e He; by apply elem_of_nil in He].
Qed.

Lemma rt_phase_real p : rt_phase p = true -> p <> phase_count_.
Proof. by intros H ->. Qed.

Lemma append_impl_ok p f t :
  rt_phase p = true -> table_ok t -> (rt_next_slot_id_ t < 2 ^ 64 - 1)%Z ->
  let '(t', id) := append_impl p f t in
  table_ok t' /\ id = rt_next_slot_id_ t
  /\ forall q, rt_vec t' q = rt_vec t q ++ if bool_decide (p = q) then [PhaseEntry id f] else [].
Proof.
  intros Hp [] Hn. unfold append_impl. rewrite wrap64_small by lia.
  destruct (rt_set_next_fields t (rt_next_slot_id_ t + 1)) as [Ha Hx].
  set (t' := rt_set_any _ _ _).
  assert (Hvec : forall q, rt_vec t' q = rt_vec t q ++ if bool_decide (p = q) then [PhaseEntry (rt_next_slot_id_ t) f] else []).
  { intros q. unfold t'. autorewrite with hooks_rw. rewrite Hp, andb_true_r. case_phase p q; [done|by rewrite app_nil_r]. }
  split_and!; [|done|exact Hvec]. constructor.
  - unfold t'. autorewrite with hooks_rw. by rewrite length_insert, Ha.
  - intros q. rewrite Hvec. unfold any_hooks, t'. autorewrite with hooks_rw. rewrite Ha.
    rewrite has_hooks_insert by (done || by apply rt_phase_real). case_phase p q.
    + split; [by intros _ [_ ?]%app_nil|done].
    + rewrite app_nil_r. apply to_gate0.
  - intros q. rewrite Hvec. case_phase p q; [|by rewrite app_nil_r]. rewrite fmap_app. apply NoDup_app.
    split_and!; [apply to_slots0| |apply NoDup_singleton].
    intros x (e & -> & He)%list_elem_of_fmap Hxe. simpl in Hxe. apply list_elem_of_singleton in Hxe.
    apply to_fresh0 in He. lia.
  - intros q e. rewrite Hvec. unfold t'. autorewrite with hooks_rw. rewrite Hx. intros [He|He]%elem_of_app.
    + apply to_fresh0 in He. lia.
    + destruct (bool_decide _); [|by apply elem_of_nil in He]. apply list_elem_of_singleton in He as ->. simpl. lia.
  - unfold t'. autorewrite with hooks_rw. lia.
Qed.

Lemma filter_sublist_of {A} (P : A -> bool) (l : list A) : sublist (List.filter P l) l.
Proof. induction l as [|x l IH]; simpl; [constructor|]. destruct (P x); by constructor. Qed.

Lemma remove_slot_spec p id t :
  table_ok t ->
  table_ok (remove_slot p id t) /\ rt_next_slot_id_ (remove_slot p id t) = rt_next_slot_id_ t
  /\ forall q, rt_vec (remove_slot p id t) q
       = if bool_decide (p = q) then List.filter (fun e => negb (slot_id e =? id)%Z) (rt_vec t q) else rt_vec t q.
Proof.
  intros Ht. destruct (rt_phase p) eqn:Hp.
  2: { assert (E : remove_slot p id t = t) by (by destruct p). rewrite E. split_and!; [done..|].
       intros q. case_phase p q; [|done]. assert (Hv : rt_vec t p = []) by (by destruct p). by rewrite Hv. }
  pose proof Ht as []. destruct (erase_slot_filter id _ (to_slots0 p)) as [He _].
  assert (E : remove_slot p id t =
    let l := default (rt_vec t p) (erase_slot id (rt_vec t p)) in
    let t := rt_set_vec t p l in if is_empty l then rt_set_any t p false else t) by (by destruct p).
  rewrite He in E. cbv zeta in E. set (l := List.filter _ _) in E.
  assert (Hvec : forall q, rt_vec (remove_slot p id t) q
       = if bool_decide (p = q) then List.filter (fun e => negb (slot_id e =? id)%Z) (rt_vec t q) else rt_vec t q).
  { intros q. rewrite E. destruct (is_empty l); autorewrite with hooks_rw; rewrite Hp, andb_true_r; by case_phase p q. }
  assert (Hnext : rt_next_slot_id_ (remove_slot p id t) = rt_next_slot_id_ t).
  { rewrite E. destruct (is_empty l); by autorewrite with hooks_rw. }
  assert (Hsub : forall q, sublist (rt_vec (remove_slot p id t) q) (rt_vec t q)).
  { intros q. rewrite Hvec. destruct (bool_decide _); [apply filter_sublist_of|done]. }
  split_and!; [|done|done]. constructor.
  - rewrite E. destruct (is_empty l); autorewrite with hooks_rw; [by rewrite length_insert|done].
  - intros q. rewrite Hvec. unfold any_hooks. rewrite E. destruct (is_empty l) eqn:El; autorewrite with hooks_rw.
    + rewrite has_hooks_insert by (done || by apply rt_phase_real). apply is_empty_true in El.
      case_phase p q; [|apply to_gate0]. fold l. by rewrite El.
    + case_phase p q; [|apply to_gate0]. fold l. apply is_empty_false in El. split; [done|]. intros _.
      apply to_gate0. intros Hv. apply El. unfold l. by rewrite Hv.
  - intros q. eapply sublist_NoDup; [apply (to_slots0 q)|]. apply fmap_sublist, Hsub.
  - intros q e He'. rewrite Hnext. eapply to_fresh0. eapply elem_of_sublist; [exact He'|apply Hsub].
  - by rewrite Hnext.
Qed.

(** ** Ownership of registrations *)

(** A registration, in the bus or in a route table. *)
Inductive slot_ref : Type :=
| ServerSlot (p : hook_phase) (id : Z)
| RouteSlot (t : nat) (p : hook_phase) (id : Z).

Definition live (ts : tables) (r : slot_ref) : Prop :=
  match r with
  | ServerSlot p id => id ∈ slot_id <$> vec (bus ts) p
  | RouteSlot t p id => exists tb, routes ts !! t = Some tb /\ id ∈ slot_id <$> rt_vec tb p
  end.

(** What an armed handle refers to. *)
Definition ref_of (h : hook_handle) : option slot_ref :=
  if armed_ h then
    if impl_ h then Some (ServerSlot (handle_phase h) (handle_slot h))
    else (fun t => RouteSlot t (handle_phase h) (handle_slot h)) <$> table_weak_ h
  else None.

Definition tables_ok (ts : tables) : Prop := bus_ok (bus ts) /\ map_Forall (fun _ => table_ok) (routes ts).

Lemma filtered_slots id id' l :
  id' ∈ slot_id <$> List.filter (fun e => negb (slot_id e =? id)%Z) l <-> id' ∈ slot_id <$> l /\ id' <> id.
Proof.
  rewrite !list_elem_of_fmap. setoid_rewrite list_elem_of_In. setoid_rewrite filter_In. split.
  - intros (e & -> & He & Hn%negb_true_iff%Z.eqb_neq). eauto.
  - intros [(e & -> & He) Hn]. exists e. split_and!; [done..|]. by apply negb_true_iff, Z.eqb_neq.
Qed.

(** [remove] on a handle disarms it and removes its registration and no
    other. *)
Lemma handle_remove_spec h ts :
  tables_ok ts ->
  let '(h', ts') := handle_remove h ts in
  tables_ok ts' /\ ref_of h' = None /\ dom (routes ts') = dom (routes ts)
  /\ forall r, live ts' r <-> live ts r /\ ref_of h <> Some r.
Proof.
  intros [Hb Hr]. unfold handle_remove, ref_of. destruct (armed_ h) eqn:Ea; simpl; [|split_and!; [done|by rewrite Ea|done|intros r; split; [done|by intros [? _]]]].
  destruct (impl_ h); simpl.
  - split_and!; try done.
    + split; [|done]. simpl. destruct (decide (handle_phase h = phase_count_)) as [->|Hp]; [done|].
      rewrite remove_erase by done. by apply erase_and_reset_spec.
    + intros [q id|t q id]; simpl; [|split; [intros ?; split; [done|congruence]|by intros [? _]]].
      destruct (decide (handle_phase h = phase_count_)) as [Hc|Hp].
      * rewrite Hc, remove_sentinel. split; [|tauto]. intros Hin. split; [done|]. intros [= <- <-]. simpl in Hin.
        by apply elem_of_nil in Hin.
      * rewrite remove_erase by done. destruct (erase_and_reset_spec _ (handle_slot h) _ Hp Hb) as (_ & _ & Hv & _).
        rewrite Hv. case_phase (handle_phase h) q.
        -- rewrite filtered_slots. split; [intros [? ?]; split; [done|congruence]|].
           intros [? Hn]. split; [done|intros ->; by apply Hn].
        -- split; [intros ?; split; [done|congruence]|by intros [? _]].
  - destruct (table_weak_ h) as [t|]; simpl.
    2: { split_and!; try done. intros r. split; [done|by intros [? _]]. }
    split_and!; try done.
    + split; [done|]. simpl. intros t' tb. destruct (decide (t = t')) as [<-|Ht].
      * rewrite lookup_alter_eq. intros (tb0 & Htb & ->)%fmap_Some_1. exact (proj1 (remove_slot_spec _ _ _ (Hr t tb0 Htb))).
      * rewrite lookup_alter_ne by done. apply Hr.
    + apply dom_alter_L.
    + intros [q id|t' q id]; simpl; [split; [intros ?; split; [done|congruence]|by intros [? _]]|].
      destruct (decide (t = t')) as [<-|Ht].
      2: { rewrite lookup_alter_ne by done. split; [intros ?; split; [done|congruence]|by intros [? _]]. }
      rewrite lookup_alter_eq. destruct (routes ts !! t) as [tb|] eqn:Etb; simpl; [|naive_solver].
      destruct (remove_slot_spec (handle_phase h) (handle_slot h) tb (Hr t tb Etb)) as (_ & _ & Hv). split.
      * intros (tb' & [= <-] & Hin). revert Hin. rewrite Hv. case_phase (handle_phase h) q.
        -- intros [Hin Hne]%filtered_slots. split; [by exists tb|congruence].
        -- intros Hin. split; [by exists tb|congruence].
      * intros [(tb' & [= <-] & Hin) Hne]. eexists. split; [done|]. rewrite Hv.
        case_phase (handle_phase h) q; [|done]. apply filtered_slots. split; [done|]. intros ->. by apply Hne.
Qed.

(** Registering makes one registration live, under a fresh reference. *)
Lemma webserver_add_hook_spec o requested f ts ts' h :
  tables_ok ts -> (next_slot_id_ (bus ts) < 2 ^ 64 - 1)%Z -> webserver_add_hook o requested f ts = (ts', Ok h) ->
  exists r, ref_of h = Some r /\ tables_ok ts' /\ routes ts' = routes ts /\ ~ live ts r
    /\ (forall t p id, r <> RouteSlot t p id)
    /\ forall r', live ts' r' <-> live ts r' \/ r' = r.
Proof.
  intros [Hb Hr] Hn. unfold webserver_add_hook, add.
  pose proof (add_impl_ok requested (overload_phase o) f (bus ts) (overload_phase_real o) Hb Hn) as Hok.
  unfold add_impl in *. destruct (bool_decide (requested <> overload_phase o)) eqn:Ed; [done|]. destruct f as [f|]; [|done].
  intros [= <- <-]. cbn [fst] in Hok. exists (ServerSlot (overload_phase o) (next_slot_id_ (bus ts))).
  split_and!; try done.
  - simpl. intros (e & He & Hin)%list_elem_of_fmap. destruct Hb. apply bo_fresh0 in Hin. lia.
  - intros [q id|t q id]; simpl; [|naive_solver]. autorewrite with hooks_rw.
    rewrite (bool_decide_true (_ <> phase_count_)), andb_true_r by apply overload_phase_real.
    case_phase (overload_phase o) q; [|naive_solver]. rewrite fmap_app, elem_of_app. simpl. rewrite list_elem_of_singleton.
    naive_solver.
Qed.

Definition route_next (ts : tables) (t : nat) : Z := rt_next_slot_id_ (default new_table (routes ts !! t)).

Lemma route_overload_rt o : rt_phase (route_overload_phase o) = true.
Proof. by destruct o. Qed.

Lemma http_resource_add_hook_spec t o requested f ts ts' h :
  tables_ok ts -> (route_next ts t < 2 ^ 64 - 1)%Z -> http_resource_add_hook t o requested f ts = (ts', Ok h) ->
  exists p id, ref_of h = Some (RouteSlot t p id) /\ tables_ok ts' /\ dom (routes ts') = {[t]} ∪ dom (routes ts)
    /\ ~ live ts (RouteSlot t p id)
    /\ forall r', live ts' r' <-> live ts r' \/ r' = RouteSlot t p id.
Proof.
  intros [Hb Hr] Hn. unfold http_resource_add_hook, resource_add_hook.
  destruct (check_phase _ _); [|done..]. destruct f as [f|]; [|done].
  assert (Ht : table_ok (default new_table (routes ts !! t))).
  { destruct (routes ts !! t) as [tb|] eqn:E; [by apply (Hr t)|apply new_table_ok]. }
  pose proof (append_impl_ok (route_overload_phase o) f _ (route_overload_rt o) Ht Hn) as Ha.
  destruct (append_impl _ _ _) as [tb id]. destruct Ha as (Hok & -> & Hv).
  intros [= <- <-]. eexists _, _. split; [done|]. split_and!.
  - split; [done|]. simpl. intros t' tb'. destruct (decide (t = t')) as [<-|Hne].
    + rewrite lookup_partial_alter_eq. by intros [= <-].
    + rewrite lookup_partial_alter_ne by done. apply Hr.
  - simpl. apply set_eq. intros x. rewrite elem_of_union, elem_of_singleton, !elem_of_dom.
    destruct (decide (t = x)) as [<-|Hne]; [rewrite lookup_partial_alter_eq|rewrite lookup_partial_alter_ne by done];
      naive_solver.
  - intros (tb' & Htb & Hin). rewrite Htb in Ht, Hin. simpl in *.
    apply list_elem_of_fmap in Hin as (e & He & Hin). destruct Ht. apply to_fresh0 in Hin. lia.
  - intros [q id|t' q id]; simpl; [naive_solver|]. destruct (decide (t = t')) as [<-|Hne].
    2: { rewrite lookup_partial_alter_ne by done. naive_solver. }
    rewrite lookup_partial_alter_eq. split.
    + intros (tb' & [= <-] & Hin). revert Hin. rewrite Hv, fmap_app, elem_of_app. intros [Hin|Hin].
      * left. destruct (routes ts !! t) as [tb'|]; [eauto|]. by destruct q; apply elem_of_nil in Hin.
      * revert Hin. case_phase (route_overload_phase o) q; [|by intros ?%elem_of_nil].
        intros ->%list_elem_of_singleton. by right.
    + intros [(tb' & Htb & Hin)|[= -> ->]]; (eexists; split; [done|]); rewrite Hv, fmap_app, elem_of_app.
      * left. by rewrite Htb.
      * right. rewrite bool_decide_true by done. by apply list_elem_of_singleton.
Qed.

(** A program that registers hooks and moves handles around: the tables, the
    handle objects ([None]: destroyed), the references given up by [detach],
    and the identities of the route tables that are gone. *)
Record hook_program : Type := HookProgram {
  hp_tables : tables;
  hp_handles : list (option hook_handle);
  hp_detached : list slot_ref;
  hp_dead : gset nat;
}.

Definition opt_list {A} (o : option A) : list A := match o with Some x => [x] | None => [] end.

(** The server outlives the handles; slot numbers do not wrap. *)
Inductive hook_step : hook_program -> hook_program -> Prop :=
| hs_add s o requested f ts h :
    (next_slot_id_ (bus (hp_tables s)) < 2 ^ 64 - 1)%Z ->
    webserver_add_hook o requested f (hp_tables s) = (ts, Ok h) ->
    hook_step s (HookProgram ts (hp_handles s ++ [Some h]) (hp_detached s) (hp_dead s))
| hs_route_add s t o requested f ts h :
    t ∉ hp_dead s -> (route_next (hp_tables s) t < 2 ^ 64 - 1)%Z ->
    http_resource_add_hook t o requested f (hp_tables s) = (ts, Ok h) ->
    hook_step s (HookProgram ts (hp_handles s ++ [Some h]) (hp_detached s) (hp_dead s))
| hs_drop_table s t :
    hook_step s (HookProgram (Tables (bus (hp_tables s)) (delete t (routes (hp_tables s))))
                             (hp_handles s) (hp_detached s) ({[t]} ∪ hp_dead s))
| hs_move_construct s i other h other' :
    hp_handles s !! i = Some (Some other) -> handle_move_construct other = (h, other') ->
    hook_step s (HookProgram (hp_tables s) (<[i := Some other']> (hp_handles s) ++ [Some h]) (hp_detached s) (hp_dead s))
| hs_move_assign s i j h other h' other' ts :
    i <> j -> hp_handles s !! i = Some (Some h) -> hp_handles s !! j = Some (Some other) ->
    handle_move_assign h other (hp_tables s) = (h', other', ts) ->
    hook_step s (HookProgram ts (<[i := Some h']> (<[j := Some other']> (hp_handles s))) (hp_detached s) (hp_dead s))
| hs_remove s i h h' ts :
    hp_handles s !! i = Some (Some h) -> handle_remove h (hp_tables s) = (h', ts) ->
    hook_step s (HookProgram ts (<[i := Some h']> (hp_handles s)) (hp_detached s) (hp_dead s))
| hs_destroy s i h :
    hp_handles s !! i = Some (Some h) ->
    hook_step s (HookProgram (handle_destroy h (hp_tables s)) (<[i := None]> (hp_handles s)) (hp_detached s) (hp_dead s))
| hs_detach s i h receipt h' :
    hp_handles s !! i = Some (Some h) -> handle_detach h = (receipt, h') ->
    hook_step s (HookProgram (hp_tables s) (<[i := Some h']> (hp_handles s) ++ [Some receipt])
                             (hp_detached s ++ opt_list (ref_of h)) (hp_dead s))
| hs_alias s f b :
    b = set_handler_exception_alias (Some f) (bus (hp_tables s)) \/ b = set_log_access_alias (Some f) (bus (hp_tables s)) ->
    hook_step s (HookProgram (Tables b (routes (hp_tables s))) (hp_handles s) (hp_detached s) (hp_dead s)).

Inductive hook_reach : hook_program -> Prop :=
| hr_init : hook_reach (HookProgram (Tables new_bus ∅) [] [] ∅)
| hr_step s s' : hook_reach s -> hook_step s s' -> hook_reach s'.

(** The handle at [i] owns [r]. *)
Definition owner (hs : list (option hook_handle)) (i : nat) (r : slot_ref) : Prop :=
  exists h, hs !! i = Some (Some h) /\ ref_of h = Some r.

Definition gone (dead : gset nat) (r : slot_ref) : Prop :=
  match r with ServerSlot _ _ => False | RouteSlot t _ _ => t ∈ dead end.

Record owned_ok (s : hook_program) : Prop := {
  oo_tables : tables_ok (hp_tables s);
  oo_dead t : t ∈ hp_dead s -> t ∉ dom (routes (hp_tables s));
  oo_valid i r : owner (hp_handles s) i r -> live (hp_tables s) r \/ gone (hp_dead s) r;
  oo_unique i j r : owner (hp_handles s) i r -> owner (hp_handles s) j r -> i = j;
  oo_total r : live (hp_tables s) r -> (exists i, owner (hp_handles s) i r) \/ r ∈ hp_detached s;
  oo_split i r : owner (hp_handles s) i r -> r ∉ hp_detached s;
  oo_detached r : r ∈ hp_detached s -> live (hp_tables s) r \/ gone (hp_dead s) r;
}.

Lemma owner_app hs o i r : owner (hs ++ [o]) i r <-> owner hs i r \/ (i = length hs /\ (h ← o; ref_of h) = Some r).
Proof.
  unfold owner. destruct (decide (i < length hs)) as [Hi|Hi].
  - rewrite lookup_app_l by done. split; [by left|]. intros [?|[-> _]]; [done|lia].
  - rewrite lookup_app_r by lia. rewrite (lookup_ge_None_2 hs i) by lia.
    destruct (decide (i = length hs)) as [->|Hne].
    + rewrite Nat.sub_diag. simpl. split.
      * intros (h & [= ->] & Hr). right. by split.
      * intros [(h & [=] & _)|[_ Hr]]. destruct o as [h|]; [|done]. by exists h.
    + rewrite lookup_ge_None_2 by (simpl; lia). split; [by intros (h & [=] & _)|].
      intros [(h & [=] & _)|[? _]]; done.
Qed.

Lemma owner_insert hs i o j r :
  i < length hs -> owner (<[i := o]> hs) j r <-> (j <> i /\ owner hs j r) \/ (j = i /\ (h ← o; ref_of h) = Some r).
Proof.
  intros Hi. unfold owner. destruct (decide (j = i)) as [->|Hne].
  - rewrite list_lookup_insert_eq by done. split.
    + intros (h & [= ->] & Hr). right. by split.
    + intros [[? _]|[_ Hr]]; [done|]. destruct o as [h|]; [|done]. by exists h.
  - rewrite list_lookup_insert_ne by done. split; [by left|]. by intros [[_ ?]|[? _]].
Qed.

Lemma ref_of_disarmed h : ref_of (disarmed h) = None.
Proof. done. Qed.

(** A step that registers [r] under a new handle. *)
Lemma owned_ok_add s ts h r :
  owned_ok s -> ref_of h = Some r -> tables_ok ts -> ~ live (hp_tables s) r -> ~ gone (hp_dead s) r ->
  (forall t, t ∈ hp_dead s -> t ∉ dom (routes ts)) ->
  (forall r', live ts r' <-> live (hp_tables s) r' \/ r' = r) ->
  owned_ok (HookProgram ts (hp_handles s ++ [Some h]) (hp_detached s) (hp_dead s)).
Proof.
  intros [] Hr Ht Hl Hg Hd Hv.
  assert (Hn : forall i, ~ owner (hp_handles s) i r) by (intros i Ho; apply oo_valid0 in Ho; tauto).
  assert (Hnd : r ∉ hp_detached s) by (intros Ho; apply oo_detached0 in Ho; tauto).
  constructor; simpl; try done.
  - intros i r'. rewrite owner_app, Hv. simpl. intros [Ho|[_ Ho]]; [apply oo_valid0 in Ho; tauto|].
    left. right. congruence.
  - intros i j r'. rewrite !owner_app. simpl. intros [Hi|[-> Hi]] [Hj|[-> Hj]]; [by eapply oo_unique0| | |done].
    + exfalso. apply (Hn i). congruence.
    + exfalso. apply (Hn j). congruence.
  - intros r'. rewrite Hv. setoid_rewrite owner_app. intros [Hl'| ->].
    + destruct (oo_total0 _ Hl') as [[i Hi]|?]; [left; exists i; by left|by right].
    + left. exists (length (hp_handles s)). right. by split.
  - intros i r'. rewrite owner_app. simpl. intros [Ho|[_ Ho]]; [by eapply oo_split0|]. congruence.
  - intros r' Hin. rewrite Hv. apply oo_detached0 in Hin. tauto.
Qed.

(** A step that drops the registration of the handle at [i]. *)
Lemma owned_ok_drop s i h o ts :
  owned_ok s -> hp_handles s !! i = Some (Some h) -> (h ← o; ref_of h) = None ->
  tables_ok ts -> dom (routes ts) = dom (routes (hp_tables s)) ->
  (forall r, live ts r <-> live (hp_tables s) r /\ ref_of h <> Some r) ->
  owned_ok (HookProgram ts (<[i := o]> (hp_handles s)) (hp_detached s) (hp_dead s)).
Proof.
  intros [] Hi Ho Ht Hd Hv. assert (Hlt : i < length (hp_handles s)) by (by eapply lookup_lt_Some).
  assert (Hown : forall r, ref_of h = Some r -> owner (hp_handles s) i r) by (intros r Hr; by exists h).
  constructor; simpl; try done.
  - intros t. rewrite Hd. apply oo_dead0.
  - intros j r. rewrite owner_insert, Ho by done. intros [[Hj Hr]|[_ ?]]; [|done].
    destruct (oo_valid0 _ _ Hr) as [Hl|Hg]; [left|by right]. apply Hv. split; [done|]. intros Hh.
    apply Hj. eapply oo_unique0; [exact Hr|by apply Hown].
  - intros j k r. rewrite !owner_insert, Ho by done. intros [[_ Hj]|[_ ?]] [[_ Hk]|[_ ?]]; [by eapply oo_unique0|done..].
  - intros r [Hl Hne]%Hv. destruct (oo_total0 _ Hl) as [[j Hj]|?]; [left|by right]. exists j.
    rewrite owner_insert by done. left. split; [|done]. intros ->. destruct Hj as (h' & Hh' & Hr). congruence.
  - intros j r. rewrite owner_insert, Ho by done. intros [[_ Hj]|[_ ?]]; [by eapply oo_split0|done].
  - intros r Hin. destruct (oo_detached0 _ Hin) as [Hl|Hg]; [left|by right]. apply Hv. split; [done|].
    intros Hh. by apply (oo_split0 i r); [apply Hown|].
Qed.

(** A step that renames owners: [f] maps the old index to the new one. *)
Lemma owned_ok_rename s hs f :
  owned_ok s -> (forall i j, f i = f j -> i = j) ->
  (forall j r, owner hs j r <-> exists i, f i = j /\ owner (hp_handles s) i r) ->
  owned_ok (HookProgram (hp_tables s) hs (hp_detached s) (hp_dead s)).
Proof.
  intros [] Hf Ho. constructor; simpl; try done.
  - intros j r (i & _ & Hi)%Ho. by eapply oo_valid0.
  - intros j k r (i & <- & Hi)%Ho (i' & <- & Hi')%Ho. f_equal. by eapply oo_unique0.
  - intros r Hl. destruct (oo_total0 _ Hl) as [[i Hi]|?]; [left|by right]. exists (f i). apply Ho. by exists i.
  - intros j r (i & _ & Hi)%Ho. by eapply oo_split0.
Qed.

Definition swap (a b i : nat) : nat := if decide (i = a) then b else if decide (i = b) then a else i.

Lemma swap_inj a b i j : swap a b i = swap a b j -> i = j.
Proof. unfold swap. repeat case_decide; lia. Qed.

Lemma owned_ok_move_construct s i other :
  owned_ok s -> hp_handles s !! i = Some (Some other) ->
  owned_ok (HookProgram (hp_tables s) (<[i := Some (disarmed other)]> (hp_handles s) ++ [Some other])
                        (hp_detached s) (hp_dead s)).
Proof.
  intros Hs Hi. assert (Hlt : i < length (hp_handles s)) by (by eapply lookup_lt_Some).
  apply (owned_ok_rename s _ (swap i (length (hp_handles s)))); [done|apply swap_inj|]. intros j r.
  rewrite owner_app, owner_insert, length_insert by done. simpl. rewrite ref_of_disarmed. split.
  - intros [[[Hj Hr]|[_ ?]]|[-> Hr]]; [|done|].
    + exists j. split; [|done]. destruct Hr as (h & Hh & _). apply lookup_lt_Some in Hh.
      unfold swap. rewrite !decide_False by lia. done.
    + exists i. split; [unfold swap; by rewrite decide_True|by exists other].
  - intros (k & <- & Hk). destruct (decide (k = i)) as [->|Hne].
    + right. unfold swap. rewrite decide_True by done. split; [done|]. destruct Hk as (h & Hh & Hr). congruence.
    + left. left. pose proof Hk as (h & Hh & _). apply lookup_lt_Some in Hh. unfold swap.
      rewrite !decide_False by lia. done.
Qed.

Lemma owned_ok_move_assign s i j h other h' other' ts :
  owned_ok s -> i <> j -> hp_handles s !! i = Some (Some h) -> hp_handles s !! j = Some (Some other) ->
  handle_move_assign h other (hp_tables s) = (h', other', ts) ->
  owned_ok (HookProgram ts (<[i := Some h']> (<[j := Some other']> (hp_handles s))) (hp_detached s) (hp_dead s)).
Proof.
  intros Hs Hij Hi Hj. unfold handle_move_assign.
  pose proof (handle_remove_spec h _ (oo_tables _ Hs)) as Hrm. destruct (handle_remove h _) as [h0 ts0].
  destruct Hrm as (Ht & _ & Hd & Hv). intros [= <- <- <-].
  pose proof (owned_ok_drop s i h None ts0 Hs Hi eq_refl Ht Hd Hv) as Hs1.
  assert (Hlt : i < length (hp_handles s)) by (by eapply lookup_lt_Some).
  assert (Hltj : j < length (hp_handles s)) by (by eapply lookup_lt_Some).
  apply (owned_ok_rename _ _ (swap i j) Hs1); [apply swap_inj|]. simpl. intros k r.
  rewrite !owner_insert by (rewrite ?length_insert; done). simpl. rewrite ref_of_disarmed.
  setoid_rewrite owner_insert; [|done]. simpl. unfold swap. split.
  - intros [[Hk [[Hkj Hr]|[_ ?]]]|[-> Hr]]; [|done|].
    + exists k. rewrite !decide_False by done. split; [done|]. by left.
    + exists j. rewrite decide_False, decide_True by done. split; [done|]. left. split; [done|]. by exists other.
  - intros (m & <- & [[Hm Hr]|[_ ?]]); [|done]. rewrite decide_False by done.
    destruct (decide (m = j)) as [->|Hne].
    + right. split; [done|]. destruct Hr as (h1 & Hh & Hr). congruence.
    + left. split; [done|]. left. by split.
Qed.

Lemma owned_ok_detach s i h receipt h' :
  owned_ok s -> hp_handles s !! i = Some (Some h) -> handle_detach h = (receipt, h') ->
  owned_ok (HookProgram (hp_tables s) (<[i := Some h']> (hp_handles s) ++ [Some receipt])
                        (hp_detached s ++ opt_list (ref_of h)) (hp_dead s)).
Proof.
  intros [] Hi. unfold handle_detach. intros [= <- <-].
  assert (Hlt : i < length (hp_handles s)) by (by eapply lookup_lt_Some).
  assert (Ho : forall j r, owner (<[i := Some (disarmed h)]> (hp_handles s)
      ++ [Some (HookHandle (impl_ h) (handle_slot h) (handle_phase h) false (table_weak_ h))]) j r
    <-> j <> i /\ owner (hp_handles s) j r).
  { intros j r. rewrite owner_app, owner_insert by done. simpl. rewrite ref_of_disarmed. unfold ref_of. simpl. naive_solver. }
  assert (Hin : forall r, r ∈ opt_list (ref_of h) <-> ref_of h = Some r).
  { intros r. destruct (ref_of h) as [x|]; simpl; [rewrite list_elem_of_singleton; split; congruence|].
    split; [by intros ?%elem_of_nil|done]. }
  assert (Hown : forall r, ref_of h = Some r -> owner (hp_handles s) i r) by (intros r Hr; by exists h).
  constructor; simpl; try done.
  - intros j r [_ Hj]%Ho. by eapply oo_valid0.
  - intros j k r [_ Hj]%Ho [_ Hk]%Ho. by eapply oo_unique0.
  - intros r Hl. setoid_rewrite Ho. rewrite elem_of_app, Hin. destruct (oo_total0 _ Hl) as [[j Hj]|?]; [|tauto].
    destruct (decide (j = i)) as [->|Hne]; [|left; by exists j]. right. right. destruct Hj as (h1 & Hh & Hr). congruence.
  - intros j r [Hne Hj]%Ho. rewrite elem_of_app, Hin. intros [Hd|Hr]; [by eapply oo_split0|].
    apply Hne. eapply oo_unique0; [exact Hj|by apply Hown].
  - intros r. rewrite elem_of_app, Hin. intros [Hd|Hr]; [by apply oo_detached0|]. eapply oo_valid0. by apply Hown.
Qed.

Lemma owned_ok_drop_table s t :
  owned_ok s ->
  owned_ok (HookProgram (Tables (bus (hp_tables s)) (delete t (routes (hp_tables s)))) (hp_handles s) (hp_detached s)
                        ({[t]} ∪ hp_dead s)).
Proof.
  intros []. set (ts' := Tables _ _).
  assert (Hv : forall r, live (hp_tables s) r \/ gone (hp_dead s) r -> live ts' r \/ gone ({[t]} ∪ hp_dead s) r).
  { intros [p id|t' p id]; simpl; [tauto|]. destruct (decide (t = t')) as [<-|Hne]; [right; set_solver|].
    intros [(tb & Htb & Hin)|Hg]; [|right; set_solver]. left. exists tb. by rewrite lookup_delete_ne. }
  assert (Hv' : forall r, live ts' r -> live (hp_tables s) r).
  { intros [p id|t' p id]; simpl; [done|]. intros (tb & Htb & Hin). exists tb. by apply lookup_delete_Some in Htb as [_ ?]. }
  constructor; simpl; try done; eauto.
  - destruct oo_tables0 as [Hb Hr]. split; [done|]. by apply map_Forall_delete.
  - intros t' Hin. rewrite dom_delete_L. set_solver.
Qed.

(** An alias is not a registration. *)
Lemma owned_ok_alias s b : bus_ok b -> (forall p, vec b p = vec (bus (hp_tables s)) p) ->
  owned_ok s -> owned_ok (HookProgram (Tables b (routes (hp_tables s))) (hp_handles s) (hp_detached s) (hp_dead s)).
Proof.
  intros Hb Hv [Ht Hd Hval Hu Htot Hsp Hdet]. set (ts := Tables _ _).
  assert (Hl : forall r, live ts r <-> live (hp_tables s) r) by (intros [p id|t p id]; cbn; [by rewrite Hv|done]).
  constructor; simpl; try done; try (intros *; rewrite Hl; eauto).
  split; [done|apply Ht].
Qed.

Lemma hook_step_owned s s' : hook_step s s' -> owned_ok s -> owned_ok s'.
Proof.
  destruct 1 as [s o req f ts h Hn E|s t o req f ts h Hd Hn E|s t|s i other h other' Hi E
    |s i j h other h' other' ts Hij Hi Hj E|s i h h' ts Hi E|s i h Hi|s i h receipt h' Hi E|s f b Hal]; intros Hs.
  - destruct (webserver_add_hook_spec _ _ _ _ _ _ (oo_tables _ Hs) Hn E) as (r & Hr & Ht & Hrt & Hl & Hnr & Hv).
    eapply owned_ok_add; try done; [|intros t Ht'; rewrite Hrt; by apply (oo_dead _ Hs)].
    destruct r; [tauto|by edestruct Hnr].
  - destruct (http_resource_add_hook_spec _ _ _ _ _ _ _ (oo_tables _ Hs) Hn E) as (p & id & Hr & Ht & Hdom & Hl & Hv).
    eapply owned_ok_add; try done. intros t' Ht'. rewrite Hdom. pose proof (oo_dead _ Hs _ Ht'). set_solver.
  - by apply owned_ok_drop_table.
  - injection E as <- <-. by apply owned_ok_move_construct.
  - by eapply owned_ok_move_assign.
  - pose proof (handle_remove_spec h _ (oo_tables _ Hs)) as Hrm. rewrite E in Hrm. destruct Hrm as (Ht & Hr & Hd & Hv).
    by apply (owned_ok_drop s i h).
  - pose proof (handle_remove_spec h _ (oo_tables _ Hs)) as Hrm. unfold handle_destroy.
    destruct (armed_ h) eqn:Ea.
    + destruct (handle_remove h _) as [h' ts]. destruct Hrm as (Ht & _ & Hd & Hv). by apply (owned_ok_drop s i h None).
    + apply (owned_ok_drop s i h None); try done; [apply Hs|]. intros r. unfold ref_of. rewrite Ea.
      split; [done|by intros [? _]].
  - by eapply owned_ok_detach.
  - pose proof (proj1 (oo_tables _ Hs)) as Hb.
    destruct Hal as [-> | ->]; apply owned_ok_alias; auto using exception_alias_ok, log_alias_ok, exception_alias_vec, log_alias_vec.
Qed.

Lemma hook_reach_owned s : hook_reach s -> owned_ok s.
Proof.
  induction 1 as [|s s' _ IH Hs]; [|by eapply hook_step_owned]. constructor; simpl; try done.
  - split; [apply new_bus_ok|]. simpl. apply map_Forall_empty.
  - by intros i r (h & ? & _).
  - by intros i j r (h & ? & _).
  - intros [p id|t p id]; simpl.
    + intros Hin. destruct p; by apply elem_of_nil in Hin.
    + by intros (tb & ? & _).
  - by intros i r (h & ? & _).
  - by intros r ?%elem_of_nil.
Qed.

(** C29: However handles are moved, removed, detached and destroyed, on the server
    or on routes that may go away: an armed handle owns a registration nobody
    else owns and that is live unless its route table is gone; every live
    registration is owned by exactly one handle or was detached; and removing or
    destroying a handle ends its registration and no other. *)
Theorem hook_handle_ownership s :
  hook_reach s ->
  (forall i r, owner (hp_handles s) i r ->
     (live (hp_tables s) r \/ gone (hp_dead s) r) /\ r ∉ hp_detached s
     /\ forall j, owner (hp_handles s) j r -> j = i)
  /\ (forall r, live (hp_tables s) r -> (exists i, owner (hp_handles s) i r) \/ r ∈ hp_detached s)
  /\ (forall i h r, hp_handles s !! i = Some (Some h) ->
       (live (snd (handle_remove h (hp_tables s))) r <-> live (hp_tables s) r /\ ref_of h <> Some r)
       /\ (live (handle_destroy h (hp_tables s)) r <-> live (hp_tables s) r /\ ref_of h <> Some r)).
Proof.
  intros [Ht _ Hv Hu Htot Hsp _]%hook_reach_owned. split_and!; [|done|].
  - intros i r Hi. split_and!; eauto.
  - intros i h r Hi. pose proof (handle_remove_spec h _ Ht) as Hrm. unfold handle_destroy.
    destruct (handle_remove h _) as [h' ts] eqn:E. destruct Hrm as (_ & _ & _ & Hl). simpl. split; [done|].
    destruct (armed_ h) eqn:Ea; [done|]. unfold ref_of. rewrite Ea. split; [done|by intros [? _]].
Qed.

Lemma hook_handle_ownership_witness :
  exists s, hook_reach s /\ owner (hp_handles s) 1 (ServerSlot before_handler 1)
    /\ (live (hp_tables s) (ServerSlot before_handler 1) \/ gone (hp_dead s) (ServerSlot before_handler 1)).
Proof.
  set (h := server_handle before_handler 1).
  set (ts := fst (webserver_add_hook on_before_handler before_handler (Some 4) (Tables new_bus ∅))).
  assert (Hs : hook_reach (HookProgram ts [Some (disarmed h); Some h] [] ∅)).
  { apply (hr_step (HookProgram ts [Some h] [] ∅)).
    2: { exact (hs_move_construct (HookProgram ts [Some h] [] ∅) 0 h h (disarmed h) eq_refl eq_refl). }
    apply (hr_step (HookProgram (Tables new_bus ∅) [] [] ∅)); [constructor|].
    by apply (hs_add (HookProgram (Tables new_bus ∅) [] [] ∅) on_before_handler before_handler (Some 4)). }
  eexists. split; [exact Hs|]. assert (Ho : owner [Some (disarmed h); Some h] 1 (ServerSlot before_handler 1)) by (by exists h).
  split; [exact Ho|]. exact (proj1 (proj1 (hook_handle_ownership _ Hs) _ _ Ho)).
Defined.
