(* ===== verification/HookThreads.v ===== *)
(** * Hooks added, removed and fired by many threads

    [hook_bus.cpp]: an [add] takes its id and then pushes under the lock, a
    [remove] is one locked block, and a firing reads its gate, copies the vector
    of its phase under the lock into a [thread_local] buffer and calls the entries
    of the buffer one by one, while the hooks it calls, and other threads, add,
    remove and fire.  Each atomic access or locked block is one step.  Shown: a
    firing runs the hooks the bus held at one moment of the firing, and the
    condition under which the buffer is not overwritten while it is in use. *)

From S2P Require Import Prelude HookBus.
Import Hooks.

Module HookThreads.

(** What a thread may do with the bus, from its own code or from inside a hook. *)
Inductive operation : Type :=
| OpAdd (o : overload) (f : nat)
| OpRemove (p : hook_phase) (id : Z)
| OpFire (o : overload) (gated : bool).

(** Where an operation is.  [since] is the moment a firing began and [ran] the
    entries it has called; [gen] is the generation of the buffer it iterates. *)
Inductive frame : Type :=
| Reserve (p : hook_phase) (f : nat)
| Push (p : hook_phase) (e : phase_entry)
| Erase (p : hook_phase) (id : Z)
| Gate (p : hook_phase) (since : nat)
| Copy (p : hook_phase) (since : nat)
| Iterate (p : hook_phase) (since gen : nat) (ran : list phase_entry)
| InHook (p : hook_phase) (since gen : nat) (ran : list phase_entry).

(** A thread: its operations, the innermost first, and its [thread_local]
    buffers, one for each phase; clearing one starts a new generation. *)
Record hook_thread : Type := HookThread {
  stack : list frame;
  buffers : hook_phase -> nat * list phase_entry;
}.

Definition idle : hook_thread := HookThread [] (fun _ => (0, [])).

Definition set_stack (th : hook_thread) (fs : list frame) : hook_thread := HookThread fs (buffers th).

Definition set_buffer (th : hook_thread) (p : hook_phase) (x : nat * list phase_entry) : hook_thread :=
  HookThread (stack th) (fun q => if decide (q = p) then x else buffers th q).

(** The phases whose hooks return an action. *)
Definition short_circuits (p : hook_phase) : bool :=
  match p with
  | request_received | body_chunk | before_handler | handler_exception | after_handler => true
  | _ => false
  end.

(** A firing that is over. *)
Record firing : Type := Firing {
  f_phase : hook_phase;
  f_since : nat;
  f_until : nat;
  f_ran : list phase_entry;
  f_responded : bool;
}.

Inductive event : Type :=
| Added (p : hook_phase) (id : Z)
| Removed (id : Z)
| Fired (f : firing).

(** What a hook does next: return, throw, return a response, or use the bus. *)
Inductive choice : Type := Pass | Throws | Respond | Nest (o : operation).

Inductive result : Type :=
| Next (th : hook_thread) (b : hook_bus) (ev : option event)
| Wild.

Definition start (now : nat) (o : operation) : frame :=
  match o with
  | OpAdd o f => Reserve (overload_phase o) f
  | OpRemove p id => Erase p id
  | OpFire o gated => if gated : bool then Gate (overload_phase o) now else Copy (overload_phase o) now
  end.

(** One step of a thread.  Going on with an iteration whose buffer was cleared in
    the meantime has no meaning. *)
Definition advance (now : nat) (c : choice) (th : hook_thread) (b : hook_bus) : option result :=
  match stack th with
  | [] => match c with Nest o => Some (Next (set_stack th [start now o]) b None) | _ => None end
  | Reserve p f :: fs =>
      let id := next_slot_id_ b in
      Some (Next (set_stack th (Push p (PhaseEntry id f) :: fs)) (set_next b (wrap64 (id + 1))) None)
  | Push p e :: fs => Some (Next (set_stack th fs) (push_entry p e b) (Some (Added p (slot_id e))))
  | Erase p id :: fs => Some (Next (set_stack th fs) (remove p id b) (Some (Removed id)))
  | Gate p since :: fs =>
      Some (if has_hooks_for b p then Next (set_stack th (Copy p since :: fs)) b None
            else Next (set_stack th fs) b (Some (Fired (Firing p since now [] false))))
  | Copy p since :: fs =>
      let gen := S (fst (buffers th p)) in
      let th := set_buffer th p (gen, vec b p) in
      Some (if is_empty (vec b p) then Next (set_stack th fs) b (Some (Fired (Firing p since now [] false)))
            else Next (set_stack th (Iterate p since gen [] :: fs)) b None)
  | Iterate p since gen ran :: fs =>
      Some (if decide (fst (buffers th p) = gen)
            then match snd (buffers th p) !! length ran with
                 | Some e => Next (set_stack th (InHook p since gen (ran ++ [e]) :: fs)) b None
                 | None => Next (set_stack th fs) b (Some (Fired (Firing p since now ran false)))
                 end
            else Wild)
  | InHook p since gen ran :: fs =>
      match c with
      | Nest o => Some (Next (set_stack th (start now o :: stack th)) b None)
      | Respond => if short_circuits p then Some (Next (set_stack th fs) b (Some (Fired (Firing p since now ran true)))) else None
      | Pass | Throws => Some (Next (set_stack th (Iterate p since gen ran :: fs)) b None)
      end
  end.

(** The phases a thread is firing. *)
Definition frame_phase (f : frame) : option hook_phase :=
  match f with Gate p _ | Copy p _ | Iterate p _ _ _ | InHook p _ _ _ => Some p | _ => None end.

Definition firing_phases (th : hook_thread) : list hook_phase := omap frame_phase (stack th).

(** Threads over one bus: the bus at every moment so far, the slots whose [add]
    has returned, the slots erased with the moment of it, and the firings. *)
Record hook_system : Type := HookSystem {
  the_bus : hook_bus;
  hook_threads : list hook_thread;
  history : list hook_bus;
  issued : list (hook_phase * Z);
  erased : list (Z * nat);
  firings : list firing;
  wild : bool;
}.

Definition now (s : hook_system) : nat := length (history s) - 1.

(** A handle exists once its [add] has returned. *)
Definition allowed (reenter : bool) (s : hook_system) (th : hook_thread) (c : choice) : Prop :=
  match c with
  | Nest (OpRemove p id) => (p, id) ∈ issued s
  | Nest (OpFire o _) => reenter = true \/ overload_phase o ∉ firing_phases th
  | _ => True
  end.

Definition record_event (s : hook_system) (i : nat) (th : hook_thread) (b : hook_bus) (ev : option event) : hook_system :=
  HookSystem b (<[i := th]> (hook_threads s)) (history s ++ [b])
    (match ev with Some (Added p id) => (p, id) :: issued s | _ => issued s end)
    (match ev with Some (Removed id) => (id, length (history s)) :: erased s | _ => erased s end)
    (match ev with Some (Fired f) => f :: firings s | _ => firings s end) (wild s).

Section Steps.
(** Whether a hook may fire a phase its thread is already firing. *)
Context (reenter : bool).

Inductive bus_step : hook_system -> hook_system -> Prop :=
| bs_spawn s :
    bus_step s (HookSystem (the_bus s) (hook_threads s ++ [idle]) (history s) (issued s) (erased s) (firings s) (wild s))
| bs_run s i c th th' b ev :
    hook_threads s !! i = Some th -> allowed reenter s th c -> advance (now s) c th (the_bus s) = Some (Next th' b ev) ->
    bus_step s (record_event s i th' b ev)
| bs_wild s i c th :
    hook_threads s !! i = Some th -> advance (now s) c th (the_bus s) = Some Wild ->
    bus_step s (HookSystem (the_bus s) (hook_threads s) (history s) (issued s) (erased s) (firings s) true).

End Steps.

Definition initial (b : hook_bus) : hook_system := HookSystem b [] [b] [] [] [] false.

(** A bus with no hook yet; its aliases may be set. *)
Definition unhooked (b : hook_bus) : Prop := bus_ok b /\ forall p, vec b p = [].

End HookThreads.
Import HookThreads.

(** ** What holds of threads and firings *)

Definition is_in_hook (f : frame) : Prop := match f with InHook _ _ _ _ => True | _ => False end.

(** The buffer of [p] is what the bus held at a moment since [since]. *)
Definition buffered (h : list hook_bus) (th : hook_thread) (p : hook_phase) (since gen : nat) (ran : list phase_entry) : Prop :=
  fst (buffers th p) = gen /\ ran `prefix_of` snd (buffers th p)
  /\ exists k b, since <= k /\ h !! k = Some b /\ vec b p = snd (buffers th p).

Definition frame_ok (h : list hook_bus) (iss : list (hook_phase * Z)) (th : hook_thread) (f : frame) : Prop :=
  match f with
  | Reserve p _ | Push p _ => p <> phase_count_
  | Erase p id => (p, id) ∈ iss
  | Gate p since | Copy p since => since < length h
  | Iterate p since gen ran => buffered h th p since gen ran
  | InHook p since gen ran => buffered h th p since gen ran /\ ran <> []
  end.

Record thread_ok (h : list hook_bus) (iss : list (hook_phase * Z)) (th : hook_thread) : Prop := {
  to_tail : Forall is_in_hook (tail (stack th));
  to_phases : NoDup (firing_phases th);
  to_frames : Forall (frame_ok h iss th) (stack th);
}.

Definition firing_ok (h : list hook_bus) (f : firing) : Prop :=
  exists k b, f_since f <= k <= f_until f /\ h !! k = Some b
    /\ if f_responded f then f_ran f <> [] /\ f_ran f `prefix_of` vec b (f_phase f) else f_ran f = vec b (f_phase f).

(** The id a thread has taken and not pushed yet. *)
Definition pending (th : hook_thread) : option Z :=
  match stack th with Push _ e :: _ => Some (slot_id e) | _ => None end.

Record hooks_inv (first : Z) (s : hook_system) : Prop := {
  hi_bus : bus_ok (the_bus s);
  hi_next : (first <= next_slot_id_ (the_bus s) < first + Z.of_nat (length (history s)))%Z;
  hi_now : history s !! now s = Some (the_bus s);
  hi_unique : NoDup (issued s).*2;
  hi_issued p id : (p, id) ∈ issued s -> p <> phase_count_ /\ (id < next_slot_id_ (the_bus s))%Z;
  hi_vec p e : e ∈ vec (the_bus s) p -> (p, slot_id e) ∈ issued s;
  hi_pending i th id : hook_threads s !! i = Some th -> pending th = Some id ->
    (1 <= id < next_slot_id_ (the_bus s))%Z /\ id ∉ (issued s).*2;
  hi_distinct i j a b id : hook_threads s !! i = Some a -> hook_threads s !! j = Some b -> pending a = Some id -> pending b = Some id -> i = j;
  hi_erased id t : (id, t) ∈ erased s ->
    t < length (history s) /\ id ∈ (issued s).*2 /\ forall k b q, t <= k -> history s !! k = Some b -> id ∉ slot_id <$> vec b q;
  hi_threads i th : hook_threads s !! i = Some th -> thread_ok (history s) (issued s) th;
  hi_firings f : f ∈ firings s -> firing_ok (history s) f;
  hi_wild : wild s = false;
}.

(** *** They outlast later moments *)

Lemma lookup_older {A} (h : list A) x k y : h !! k = Some y -> (h ++ [x]) !! k = Some y.
Proof. apply lookup_app_l_Some. Qed.

Lemma frame_ok_mono h x iss iss' th f : iss ⊆ iss' -> frame_ok h iss th f -> frame_ok (h ++ [x]) iss' th f.
Proof.
  intros Hi. assert (Hb : forall p since gen ran, buffered h th p since gen ran -> buffered (h ++ [x]) th p since gen ran).
  { intros p since gen ran (H1 & H2 & k & b & H3 & H4 & H5). split_and!; [done|done|]. exists k, b. by split_and!; [|apply lookup_older|]. }
  destruct f; cbn; try rewrite length_app; try done; cbn; [set_solver|lia|lia|by apply Hb|]. intros [? ?]. split; [by apply Hb|done].
Qed.

Lemma hook_thread_ok_mono h x iss iss' th : iss ⊆ iss' -> thread_ok h iss th -> thread_ok (h ++ [x]) iss' th.
Proof. intros Hi []. constructor; [done|done|]. eapply Forall_impl; [exact to_frames0|]. intros f. by apply frame_ok_mono. Qed.

Lemma firing_ok_mono h x f : firing_ok h f -> firing_ok (h ++ [x]) f.
Proof. intros (k & b & H1 & H2 & H3). exists k, b. split; [done|]. split; [by apply lookup_older|done]. Qed.

Lemma now_lt s : history s !! now s = Some (the_bus s) -> now s < length (history s).
Proof. apply lookup_lt_Some. Qed.

Lemma now_step (h : list hook_bus) b : (h ++ [b]) !! (length (h ++ [b]) - 1) = Some b.
Proof. rewrite length_app. cbn. replace (length h + 1 - 1) with (length h) by lia. by rewrite lookup_app_r, Nat.sub_diag. Qed.

(** ** The steps keep the invariant *)

(** A step after which the bus holds what it held. *)
Lemma inv_same_bus first s i th th' ev :
  hooks_inv first s -> hook_threads s !! i = Some th -> pending th' = None ->
  thread_ok (history s ++ [the_bus s]) (issued s) th' ->
  match ev with None => True | Some (Fired f) => firing_ok (history s ++ [the_bus s]) f | _ => False end ->
  hooks_inv first (record_event s i th' (the_bus s) ev).
Proof.
  intros [] Hi Hp Hok Hev.
  assert (Hiss : match ev with Some (Added p id) => (p, id) :: issued s | _ => issued s end = issued s) by (by destruct ev as [[]|]).
  assert (Her : match ev with Some (Removed id) => (id, length (history s)) :: erased s | _ => erased s end = erased s) by (by destruct ev as [[]|]).
  unfold record_event. rewrite Hiss, Her. constructor; cbn [the_bus hook_threads history issued erased firings wild]; auto.
  - rewrite length_app. cbn. lia.
  - apply now_step.
  - intros k x id [[-> ->]|[_ Hk]]%insert_cases Hx; [congruence|]. by eapply hi_pending0.
  - intros k j a c id Ha Hc Pa Pc.
    apply insert_cases in Ha as [[-> ->]|[_ Ha]]; [congruence|]. apply insert_cases in Hc as [[-> ->]|[_ Hc]]; [congruence|]. by eapply hi_distinct0.
  - intros id t (H1 & H2 & H3)%hi_erased0. rewrite length_app. split_and!; [cbn; lia|done|].
    intros k b q Hk [Hb|[Hl Hb]]%lookup_app_Some; [by eapply H3|]. apply list_lookup_singleton_Some in Hb as [_ <-].
    apply (H3 (now s)); [unfold now in *; lia|done].
  - intros k x [[-> ->]|[_ Hk]]%insert_cases; [done|]. eapply hook_thread_ok_mono; [done|]. by eapply hi_threads0.
  - intros f Hf. destruct ev as [[| |f']|]; try done; try (by apply firing_ok_mono, hi_firings0).
    apply elem_of_cons in Hf as [->|Hf]; [done|by apply firing_ok_mono, hi_firings0].
Qed.

(** What the steps that write the bus share: the other threads keep theirs. *)
Lemma threads_after first s i th th' x iss' :
  hooks_inv first s -> hook_threads s !! i = Some th -> issued s ⊆ iss' -> thread_ok (history s ++ [x]) iss' th' ->
  forall k y, <[i := th']> (hook_threads s) !! k = Some y -> thread_ok (history s ++ [x]) iss' y.
Proof.
  intros Hs Hi Hiss Hok k y [[-> ->]|[_ Hk]]%insert_cases; [done|]. eapply hook_thread_ok_mono; [done|]. by eapply hi_threads.
Qed.

Lemma pending_after first s i th th' o :
  hooks_inv first s -> hook_threads s !! i = Some th -> pending th' = o ->
  (forall k y id, hook_threads s !! k = Some y -> pending y = Some id -> o = Some id -> k = i) ->
  forall j k a c id, <[i := th']> (hook_threads s) !! j = Some a -> <[i := th']> (hook_threads s) !! k = Some c ->
  pending a = Some id -> pending c = Some id -> j = k.
Proof.
  intros Hs Hi Ho Hnew j k a c id [[-> ->]|[Hj Ha]]%insert_cases [[-> ->]|[Hk Hc]]%insert_cases Pa Pc; [done| | |by eapply (hi_distinct _ _ Hs)].
  - symmetry. eapply Hnew; [exact Hc|exact Pc|congruence].
  - eapply Hnew; [exact Ha|exact Pa|congruence].
Qed.

Lemma erased_after first s b id t :
  hooks_inv first s -> (id, t) ∈ erased s -> (forall q, id ∉ slot_id <$> vec (the_bus s) q -> id ∉ slot_id <$> vec b q) ->
  t < length (history s ++ [b]) /\ forall k x q, t <= k -> (history s ++ [b]) !! k = Some x -> id ∉ slot_id <$> vec x q.
Proof.
  intros Hs (H1 & _ & H3)%(hi_erased _ _ Hs) Hb. rewrite length_app. split; [cbn; lia|].
  intros k x q Hk [Hx|[_ Hx]]%lookup_app_Some; [by eapply H3|]. apply list_lookup_singleton_Some in Hx as [_ <-].
  apply Hb, (H3 (now s)); [unfold now; lia|by apply (hi_now _ _ Hs)].
Qed.

Lemma inv_reserve first s i th p f fs :
  hooks_inv first s -> (1 <= first)%Z -> (first + Z.of_nat (length (history s)) < 2 ^ 64)%Z ->
  hook_threads s !! i = Some th -> stack th = Reserve p f :: fs ->
  let id := next_slot_id_ (the_bus s) in
  hooks_inv first (record_event s i (set_stack th (Push p (PhaseEntry id f) :: fs)) (set_next (the_bus s) (wrap64 (id + 1))) None).
Proof.
  intros Hs Hf Hlt Hi Est id. pose proof Hs as []. rewrite wrap64_small by lia.
  assert (Hn : next_slot_id_ (set_next (the_bus s) (id + 1)) = (id + 1)%Z) by (by destruct (the_bus s)).
  constructor; cbn [record_event the_bus hook_threads history issued erased firings wild]; rewrite ?Hn; auto.
  - apply reserve_ok; [done|lia].
  - rewrite length_app. cbn. lia.
  - apply now_step.
  - intros q x [Hq Hx]%hi_issued0. split; [done|lia].
  - intros q e. rewrite vec_set_next. auto.
  - intros k y x [[-> ->]|[_ Hk]]%insert_cases Hy.
    + cbn in Hy. simplify_eq. split; [lia|]. intros ([q x] & Hx & Hq)%list_elem_of_fmap. cbn in Hx. subst. apply hi_issued0 in Hq as [_ Hq]. lia.
    + destruct (hi_pending0 _ _ _ Hk Hy) as [? ?]. split; [lia|done].
  - eapply pending_after; [done|done|done|]. cbn. intros k y x Hk Hy [= Hx]. destruct (hi_pending0 _ _ _ Hk Hy). lia.
  - intros x t Hx. split_and!; try (eapply erased_after; [done|done|]; intros q; by rewrite vec_set_next).
    by apply hi_erased0 in Hx as (_ & Hx & _).
  - eapply threads_after; [done|done|done|]. apply (hook_thread_ok_mono _ _ (issued s)); [done|]. destruct (hi_threads0 _ _ Hi) as [T P F].
    unfold firing_phases in *. rewrite Est in *. constructor; [done|done|]. cbn. apply Forall_cons in F as [F1 F2]. by constructor.
  - intros g Hg. by apply firing_ok_mono, hi_firings0.
Qed.

Lemma inv_push first s i th p e fs :
  hooks_inv first s -> hook_threads s !! i = Some th -> stack th = Push p e :: fs ->
  hooks_inv first (record_event s i (set_stack th fs) (push_entry p e (the_bus s)) (Some (Added p (slot_id e)))).
Proof.
  intros Hs Hi Est. pose proof Hs as []. destruct (hi_threads0 _ _ Hi) as [T P F]. unfold firing_phases in *. rewrite Est in *.
  apply Forall_cons in F as [Hp F]. cbn in Hp, T, P. destruct (hi_pending0 i th (slot_id e) Hi) as [He Hnew]; [unfold pending; by rewrite Est|].
  assert (Hn : next_slot_id_ (push_entry p e (the_bus s)) = next_slot_id_ (the_bus s)) by (unfold push_entry; by autorewrite with hooks_rw).
  assert (Hpf : pending (set_stack th fs) = None) by (cbn; inversion T as [|[] ? ? ?]; subst; done).
  constructor; cbn [record_event the_bus hook_threads history issued erased firings wild]; rewrite ?Hn; auto.
  - apply push_ok; [done|done|lia|]. intros (x & Hx & Hin)%list_elem_of_fmap. apply Hnew. rewrite Hx. apply list_elem_of_fmap.
    exists (p, slot_id x). split; [done|]. by apply hi_vec0.
  - rewrite length_app. cbn. lia.
  - apply now_step.
  - cbn. apply NoDup_cons. done.
  - intros q x [[= -> ->]|Hx]%elem_of_cons; [|by apply hi_issued0]. split; [done|lia].
  - intros q x. rewrite vec_push by done. case_bool_decide as Hq; [subst q|by right; apply hi_vec0].
    intros [Hx|Hx]%elem_of_app; [right; by apply hi_vec0|]. apply list_elem_of_singleton in Hx as ->. by left.
  - intros k y x [[-> ->]|[Hki Hk]]%insert_cases Hy; [congruence|]. destruct (hi_pending0 _ _ _ Hk Hy) as [? Hx]. split; [done|].
    cbn. intros [->|?]%elem_of_cons; [|done]. apply Hki. eapply (hi_distinct0 k i); [done|done|done|]. unfold pending. by rewrite Est.
  - eapply pending_after; [done|done|done|]. intros k y x _ _ Hx. congruence.
  - intros x t Hx. pose proof (hi_erased0 _ _ Hx) as (_ & Hxi & _). assert (Hxe : x <> slot_id e) by (by intros ->).
    assert (Hq : forall q, x ∉ slot_id <$> vec (the_bus s) q -> x ∉ slot_id <$> vec (push_entry p e (the_bus s)) q).
    { intros q Hq. rewrite vec_push by done. case_bool_decide as Hpq; [subst q|done]. rewrite fmap_app. cbn. set_solver. }
    split_and!; try (by eapply erased_after). cbn. by right.
  - eapply threads_after; [done|done|set_solver|]. apply (hook_thread_ok_mono _ _ (issued s)); [set_solver|].
    constructor; [by destruct T|done|done].
  - intros g Hg. by apply firing_ok_mono, hi_firings0.
Qed.

Lemma inv_erase first s i th p id fs :
  hooks_inv first s -> hook_threads s !! i = Some th -> stack th = Erase p id :: fs ->
  hooks_inv first (record_event s i (set_stack th fs) (remove p id (the_bus s)) (Some (Removed id))).
Proof.
  intros Hs Hi Est. pose proof Hs as []. destruct (hi_threads0 _ _ Hi) as [T P F]. unfold firing_phases in *. rewrite Est in *.
  apply Forall_cons in F as [Hin F]. cbn in Hin, T, P. destruct (hi_issued0 _ _ Hin) as [Hp _].
  rewrite remove_erase by done. destruct (erase_and_reset_spec p id (the_bus s) Hp hi_bus0) as (Hok & Hn & Hv & _).
  assert (Hpf : pending (set_stack th fs) = None) by (cbn; inversion T as [|[] ? ? ?]; subst; done).
  assert (Hsub : forall q e, e ∈ vec (erase_and_reset p id (the_bus s)) q -> e ∈ vec (the_bus s) q).
  { intros q e. rewrite Hv. case_bool_decide; [|done]. intros He. eapply elem_of_sublist; [exact He|apply filter_sublist_of]. }
  constructor; cbn [record_event the_bus hook_threads history issued erased firings wild]; rewrite ?Hn; auto.
  - rewrite length_app. cbn. lia.
  - apply now_step.
  - intros k y x [[-> ->]|[Hki Hk]]%insert_cases Hy; [congruence|]. by eapply hi_pending0.
  - eapply pending_after; [done|done|done|]. intros k y x _ _ Hx. congruence.
  - intros x t [[= -> ->]|Hx]%elem_of_cons.
    + split_and!; [rewrite length_app; cbn; lia|apply list_elem_of_fmap; by exists (p, id)|].
      intros k b q Hk [Hb|[_ Hb]]%lookup_app_Some; [apply lookup_lt_Some in Hb; lia|]. apply list_lookup_singleton_Some in Hb as [_ <-].
      intros (e & -> & He)%list_elem_of_fmap. pose proof (hi_vec0 _ _ (Hsub _ _ He)) as Hq.
      assert (q = p) as ->.
      { apply list_elem_of_lookup in Hq as [a Ha]. apply list_elem_of_lookup in Hin as [c Hc].
        assert (a = c) as ->; [|by simplify_eq]. eapply NoDup_lookup; [exact hi_unique0| |]; rewrite list_lookup_fmap.
        - by rewrite Ha. - by rewrite Hc. }
      rewrite Hv, bool_decide_true in He by done. apply list_elem_of_In, filter_In in He as [_ He].
      apply negb_true_iff, Z.eqb_neq in He. done.
    + pose proof (hi_erased0 _ _ Hx) as (_ & Hxi & _).
      assert (Hq : forall q, x ∉ slot_id <$> vec (the_bus s) q -> x ∉ slot_id <$> vec (erase_and_reset p id (the_bus s)) q).
      { intros q Hq (e & -> & He)%list_elem_of_fmap. apply Hq, list_elem_of_fmap. exists e. split; [done|by apply Hsub]. }
      split_and!; try (by eapply erased_after). done.
  - eapply threads_after; [done|done|done|]. apply (hook_thread_ok_mono _ _ (issued s)); [done|]. constructor; [by destruct T|done|done].
  - intros g Hg. by apply firing_ok_mono, hi_firings0.
Qed.

(** *** The steps of a firing *)

Lemma prefix_next {A} (l v : list A) x : l `prefix_of` v -> v !! length l = Some x -> l ++ [x] `prefix_of` v.
Proof. intros [k ->] Hx. rewrite lookup_app_r, Nat.sub_diag in Hx by done. destruct k as [|y k]; [done|]. cbn in Hx. simplify_eq. exists k. by rewrite <- app_assoc. Qed.

Lemma prefix_whole {A} (l v : list A) : l `prefix_of` v -> v !! length l = None -> l = v.
Proof. intros [k ->] Hx%lookup_ge_None. rewrite length_app in Hx. destruct k; [by rewrite app_nil_r|cbn in Hx; lia]. Qed.

Lemma firing_of_buffer h th p since gen ran until (responded : bool) :
  buffered h th p since gen ran -> until = length h - 1 ->
  (if responded then ran <> [] else snd (buffers th p) !! length ran = None) ->
  firing_ok h (Firing p since until ran responded).
Proof.
  intros (_ & Hpre & k & b & Hk & Hb & Hv) -> Hr. pose proof (lookup_lt_Some _ _ _ Hb). exists k, b. cbn [f_since f_until f_phase f_ran f_responded].
  split; [lia|]. split; [done|]. destruct responded; rewrite Hv; [done|]. by apply prefix_whole.
Qed.

Lemma thread_pop h iss th f fs : thread_ok h iss th -> stack th = f :: fs -> thread_ok h iss (set_stack th fs).
Proof.
  intros [T P F] E. unfold firing_phases in *. rewrite E in *. cbn in T. constructor; cbn; [by destruct T|..].
  - unfold firing_phases. cbn. cbn in P. destruct (frame_phase f); [by apply NoDup_cons in P as [_ ?]|done].
  - by apply Forall_cons in F as [_ ?].
Qed.

(** Replacing the frame on top by one of the same phase. *)
Lemma thread_swap h iss th f f' fs : thread_ok h iss th -> stack th = f :: fs -> frame_phase f' = frame_phase f ->
  frame_ok h iss th f' -> thread_ok h iss (set_stack th (f' :: fs)).
Proof.
  intros [T P F] E Hp Hf. unfold firing_phases in *. rewrite E in *. constructor; cbn; [done|..].
  - unfold firing_phases. cbn. rewrite Hp. done.
  - apply Forall_cons in F as [_ ?]. by constructor.
Qed.

Lemma thread_push h iss th f : thread_ok h iss th -> Forall is_in_hook (stack th) ->
  (forall p, frame_phase f = Some p -> p ∉ firing_phases th) -> frame_ok h iss th f -> thread_ok h iss (set_stack th (f :: stack th)).
Proof.
  intros [T P F] Ha Hp Hf. constructor; cbn; [done|..].
  - unfold firing_phases in *. cbn. destruct (frame_phase f); [|done]. apply NoDup_cons. split; [by apply Hp|done].
  - by constructor.
Qed.

(** Filling the buffer of the phase on top leaves those of the others. *)
Lemma thread_fill h iss th p since x fs : thread_ok h iss th -> stack th = Copy p since :: fs ->
  thread_ok h iss (set_stack (set_buffer th p x) fs).
Proof.
  intros [T P F] E. unfold firing_phases in *. rewrite E in *. cbn in P. apply NoDup_cons in P as [Hp P]. apply Forall_cons in F as [_ F].
  cbn in T. constructor; cbn; [by destruct T|done|]. apply Forall_forall. intros f Hf. rewrite Forall_forall in T, F.
  pose proof (T f Hf) as Tf. pose proof (F f Hf) as Ff. destruct f as [| | | | | |q since' gen ran]; try done. cbn in Ff |- *.
  destruct Ff as [(B1 & B2 & B3) B4]. split; [|done]. unfold buffered. cbn. rewrite decide_False; [done|].
  intros ->. apply Hp. apply list_elem_of_omap. by exists (InHook p since' gen ran).
Qed.

Lemma in_hooks (h : list hook_bus) (iss : list (hook_phase * Z)) th p since gen ran fs : thread_ok h iss th -> stack th = InHook p since gen ran :: fs -> Forall is_in_hook (stack th).
Proof. intros [T _ _] E. rewrite E in *. by constructor. Qed.

Lemma start_ok (h : list hook_bus) (iss : list (hook_phase * Z)) th o t : t < length h ->
  match o with OpRemove p id => (p, id) ∈ iss | _ => True end -> frame_ok h iss th (start t o).
Proof. intros Ht Ho. destruct o as [o f|p id|o []]; cbn; try done. apply overload_phase_real. Qed.

Lemma start_phase t o p : frame_phase (start t o) = Some p -> exists o' g, o = OpFire o' g /\ p = overload_phase o'.
Proof. destruct o as [o f|q id|o []]; cbn; intros [=]; eauto. Qed.

Lemma pending_in_hooks th : Forall is_in_hook (stack th) -> pending th = None.
Proof. unfold pending. destruct 1 as [|[] ? ? _]; done. Qed.

Lemma pending_pop (h : list hook_bus) (iss : list (hook_phase * Z)) th fs : thread_ok h iss th -> tail (stack th) = fs -> pending (set_stack th fs) = None.
Proof. intros [T _ _] <-. by apply pending_in_hooks. Qed.

Lemma top_ok h iss th f fs : thread_ok h iss th -> stack th = f :: fs -> frame_ok h iss th f.
Proof. intros [_ _ F] E. rewrite E in F. by apply Forall_cons in F as [? _]. Qed.

(** One step of a firing, by where it is. *)
Section Firing.
Context (first : Z) (s : hook_system) (i : nat) (th : hook_thread).
Context (Hs : hooks_inv first s) (Hi : hook_threads s !! i = Some th).

#[local] Abbreviation h' := (history s ++ [the_bus s]).

Lemma older_ok : thread_ok (history s) (issued s) th.
Proof. exact (hi_threads _ _ Hs _ _ Hi). Qed.

Lemma newer_ok : thread_ok h' (issued s) th.
Proof. exact (hook_thread_ok_mono _ (the_bus s) _ _ _ (reflexivity _) older_ok). Qed.

Lemma current_bus : h' !! now s = Some (the_bus s).
Proof. apply lookup_older, (hi_now _ _ Hs). Qed.

Lemma inv_nest o : Forall is_in_hook (stack th) -> allowed false s th (Nest o) ->
  hooks_inv first (record_event s i (set_stack th (start (now s) o :: stack th)) (the_bus s) None).
Proof.
  intros Hin Hal. pose proof (lookup_lt_Some _ _ _ current_bus) as Hlt. apply (inv_same_bus first s i th); [done|done| | |done].
  - unfold pending. cbn. by destruct o as [| |? []].
  - apply thread_push; [exact newer_ok|done| |by apply start_ok; [|destruct o]]. intros p (o' & g & -> & ->)%start_phase. by destruct Hal.
Qed.

(** A firing that finds no hook is over. *)
Lemma inv_nothing_to_run p since : since < length (history s) -> vec (the_bus s) p = [] ->
  firing_ok h' (Firing p since (now s) [] false).
Proof. intros Hsince Hv. exists (now s), (the_bus s). pose proof current_bus. cbn. unfold now in *. split; [lia|done]. Qed.

Lemma inv_gate p since fs th' b ev c : stack th = Gate p since :: fs -> advance (now s) c th (the_bus s) = Some (Next th' b ev) ->
  hooks_inv first (record_event s i th' b ev).
Proof.
  intros Est E. unfold advance in E. rewrite Est in E. pose proof (pending_pop _ _ _ fs newer_ok (f_equal tail Est)) as Hpp.
  destruct (has_hooks_for (the_bus s) p) eqn:Eg; simplify_eq; apply (inv_same_bus first s i th); try done.
  - eapply thread_swap; [exact newer_ok|done|done|exact (top_ok _ _ _ _ _ newer_ok Est)].
  - by eapply thread_pop; [exact newer_ok|].
  - apply inv_nothing_to_run; [exact (top_ok _ _ _ _ _ older_ok Est)|].
    destruct (vec (the_bus s) p) eqn:Ev; [done|]. rewrite (bo_armed _ (hi_bus _ _ Hs)) in Eg; [done|]. by rewrite Ev.
Qed.

Lemma inv_copy p since fs th' b ev c : stack th = Copy p since :: fs -> advance (now s) c th (the_bus s) = Some (Next th' b ev) ->
  hooks_inv first (record_event s i th' b ev).
Proof.
  intros Est E. unfold advance in E. rewrite Est in E. pose proof (pending_pop _ _ _ fs newer_ok (f_equal tail Est)) as Hpp.
  pose proof (top_ok _ _ _ _ _ older_ok Est) as F. cbn in F.
  pose proof (thread_fill _ _ _ _ _ (S (fst (buffers th p)), vec (the_bus s) p) _ newer_ok Est) as Hfill.
  destruct (is_empty (vec (the_bus s) p)) eqn:Ee; simplify_eq; apply (inv_same_bus first s i th); try done.
  - apply inv_nothing_to_run; [done|]. by apply is_empty_true in Ee.
  - pose proof (to_tail _ _ _ newer_ok) as T. pose proof (to_phases _ _ _ newer_ok) as P. unfold firing_phases in P. rewrite Est in T, P.
    constructor; [done|done|]. cbn. constructor; [|by apply (to_frames _ _ _ Hfill)]. cbn. unfold buffered. cbn.
    rewrite decide_True by done. split; [done|]. split; [apply prefix_nil|].
    exists (now s), (the_bus s). split; [unfold now; lia|]. split; [exact current_bus|done].
Qed.

Lemma inv_loop p since gen ran fs th' b ev c : stack th = Iterate p since gen ran :: fs ->
  advance (now s) c th (the_bus s) = Some (Next th' b ev) -> hooks_inv first (record_event s i th' b ev).
Proof.
  intros Est E. unfold advance in E. rewrite Est in E. pose proof (pending_pop _ _ _ fs newer_ok (f_equal tail Est)) as Hpp.
  pose proof (top_ok _ _ _ _ _ newer_ok Est) as F. pose proof (top_ok _ _ _ _ _ older_ok Est) as F0. cbn in F, F0.
  pose proof F as (B1 & B2 & B3). rewrite decide_True in E by done.
  destruct (snd (buffers th p) !! length ran) as [e|] eqn:Ee; simplify_eq; apply (inv_same_bus first s i th); try done.
  - eapply thread_swap; [exact newer_ok|done|done|]. cbn. split; [split_and!; [done|by apply prefix_next|done]|by intros [_ ?]%app_nil].
  - by eapply thread_pop; [exact newer_ok|].
  - apply firing_ok_mono. eapply firing_of_buffer; [exact F0|done|done].
Qed.

Lemma inv_hook p since gen ran fs th' b ev c : stack th = InHook p since gen ran :: fs -> allowed false s th c ->
  advance (now s) c th (the_bus s) = Some (Next th' b ev) -> hooks_inv first (record_event s i th' b ev).
Proof.
  intros Est Hal E. unfold advance in E. rewrite Est in E. pose proof (pending_pop _ _ _ fs newer_ok (f_equal tail Est)) as Hpp.
  destruct (top_ok _ _ _ _ _ newer_ok Est) as [F Hne], (top_ok _ _ _ _ _ older_ok Est) as [F0 _].
  destruct c as [| | |o]; [..|simplify_eq; rewrite <- Est; apply inv_nest; [by eapply in_hooks; [exact newer_ok|]|done]].
  1, 2: simplify_eq; apply (inv_same_bus first s i th); try done; eapply thread_swap; [exact newer_ok|done|done|exact F].
  destruct (short_circuits p); [|done]. simplify_eq. apply (inv_same_bus first s i th); try done.
  - by eapply thread_pop; [exact newer_ok|].
  - apply firing_ok_mono. eapply firing_of_buffer; [exact F0|done|done].
Qed.

Lemma inv_fire_step c th' b ev : allowed false s th c ->
  match stack th with Reserve _ _ :: _ | Push _ _ :: _ | Erase _ _ :: _ => False | _ => True end ->
  advance (now s) c th (the_bus s) = Some (Next th' b ev) -> hooks_inv first (record_event s i th' b ev).
Proof.
  intros Hal Hst E. destruct (stack th) as [|[] fs] eqn:Est; try done; eauto using inv_gate, inv_copy, inv_loop, inv_hook.
  unfold advance in E. rewrite Est in E. destruct c as [| | |o]; try done. simplify_eq.
  rewrite <- Est. apply inv_nest; [by rewrite Est|done].
Qed.

End Firing.

Lemma inv_run first s i c th th' b ev :
  hooks_inv first s -> (1 <= first)%Z -> (first + Z.of_nat (length (history s)) < 2 ^ 64)%Z ->
  hook_threads s !! i = Some th -> allowed false s th c -> advance (now s) c th (the_bus s) = Some (Next th' b ev) ->
  hooks_inv first (record_event s i th' b ev).
Proof.
  intros Hs Hf Hl Hi Hal E. destruct (stack th) as [|f fs] eqn:Est.
  - eapply inv_fire_step; try done. by rewrite Est.
  - destruct f as [p f|p e|p id|p since|p since|p since gen ran|p since gen ran];
      try (eapply inv_fire_step; try done; by rewrite Est); unfold advance in E; rewrite Est in E; simplify_eq.
    + by eapply inv_reserve.
    + by eapply inv_push.
    + by eapply inv_erase.
Qed.

(** A thread that is not re-entering a phase never finds its buffer cleared. *)
Lemma inv_not_wild first s i c th : hooks_inv first s -> hook_threads s !! i = Some th -> advance (now s) c th (the_bus s) <> Some Wild.
Proof.
  intros Hs Hi E. pose proof (to_frames _ _ _ (hi_threads _ _ Hs _ _ Hi)) as F. unfold advance in E.
  destruct (stack th) as [|[p f|p e|p id|p since|p since|p since gen ran|p since gen ran] fs]; try (by destruct c); try done.
  - by destruct (has_hooks_for _ _).
  - by destruct (is_empty _).
  - apply Forall_cons in F as [(Hg & _) _]. rewrite decide_True in E by done. revert E. by case_match.
  - destruct c; try done. by destruct (short_circuits p).
Qed.

Lemma bus_step_inv first s s' :
  bus_step false s s' -> (1 <= first)%Z -> (first + Z.of_nat (length (history s)) < 2 ^ 64)%Z -> hooks_inv first s -> hooks_inv first s'.
Proof.
  intros [t|t i c th th' b ev Hi Hal E|t i c th Hi E] Hf Hl Hs.
  - destruct Hs. constructor; cbn [the_bus hook_threads history issued erased firings wild]; auto.
    + intros i th id [Hi|[_ Hi]]%lookup_app_Some; [by eapply hi_pending0|]. by apply list_lookup_singleton_Some in Hi as [_ <-].
    + intros i j x y id [Hi|[_ Hi]]%lookup_app_Some; [|by apply list_lookup_singleton_Some in Hi as [_ <-]].
      intros [Hj|[_ Hj]]%lookup_app_Some; [by eapply hi_distinct0|]. by apply list_lookup_singleton_Some in Hj as [_ <-].
    + intros i th [Hi|[_ Hi]]%lookup_app_Some; [by eapply hi_threads0|]. apply list_lookup_singleton_Some in Hi as [_ <-]. by repeat constructor.
  - by eapply inv_run.
  - by destruct (inv_not_wild _ _ _ _ _ Hs Hi E).
Qed.

Lemma bus_step_longer r s s' : bus_step r s s' -> length (history s) <= length (history s').
Proof. intros []; cbn; try lia. rewrite length_app. cbn. lia. Qed.

Lemma initial_inv b : unhooked b -> hooks_inv (next_slot_id_ b) (initial b).
Proof.
  intros [Hb Hv]. constructor; cbn; try done; try lia; try (by constructor); try (by intros * ?%elem_of_nil).
  intros p e. rewrite Hv. by intros ?%elem_of_nil.
Qed.

Lemma reachable_inv b s :
  unhooked b -> rtc (bus_step false) (initial b) s -> (next_slot_id_ b + Z.of_nat (length (history s)) < 2 ^ 64)%Z ->
  hooks_inv (next_slot_id_ b) s.
Proof.
  intros Hb Hst. pose proof (bo_next _ (proj1 Hb)).
  apply (rtc_ind_r (R := bus_step false) (fun s => (next_slot_id_ b + Z.of_nat (length (history s)) < 2 ^ 64)%Z -> hooks_inv (next_slot_id_ b) s) (initial b));
    [intros _; by apply initial_inv| |exact Hst].
  intros x y _ Hxy IH Hl. pose proof (bus_step_longer _ _ _ Hxy). eapply bus_step_inv; [done|done|lia|]. apply IH. lia.
Qed.

(** C9: While threads and hooks add, remove and fire in any interleaving, as long
    as no hook fires a phase its own thread is firing, every firing behaves as if
    it happened at one moment between its start and its end: it runs, in order and
    once each, the entries its phase had then, all of them unless a hook returned
    a response; and a hook whose removal returned before a firing began is not
    run by it.  (A hook that does fire its own phase on its own thread is undefined
    behaviour: [reentered_phase_is_wild].) *)
Theorem hook_firings_are_atomic b s :
  unhooked b -> rtc (bus_step false) (initial b) s -> (next_slot_id_ b + Z.of_nat (length (history s)) < 2 ^ 64)%Z ->
  wild s = false
  /\ forall f, f ∈ firings s ->
       (exists k x, f_since f <= k <= f_until f /\ history s !! k = Some x
         /\ if f_responded f then f_ran f <> [] /\ f_ran f `prefix_of` vec x (f_phase f) else f_ran f = vec x (f_phase f))
       /\ forall id t, (id, t) ∈ erased s -> t <= f_since f -> id ∉ slot_id <$> f_ran f.
Proof.
  intros Hb Hst Hl. pose proof (reachable_inv b s Hb Hst Hl) as Hs. split; [apply (hi_wild _ _ Hs)|].
  intros f Hf. pose proof (hi_firings _ _ Hs _ Hf) as Hok. split; [exact Hok|].
  intros id t (_ & _ & He)%(hi_erased _ _ Hs) Ht. destruct Hok as (k & x & [Hk _] & Hx & Hran).
  assert (Hn : id ∉ slot_id <$> vec x (f_phase f)) by (apply (He k x); [lia|done]).
  destruct (f_responded f); [|by rewrite Hran]. destruct Hran as [_ [l Hl']]. rewrite Hl', fmap_app in Hn. set_solver.
Qed.

(** ** Schedules *)

#[export] Instance allowed_dec reenter s th c : Decision (allowed reenter s th c).
Proof. destruct c as [| | |[| |]]; cbn; apply _. Defined.

(** Runs the steps of a schedule; [Wild] stops it. *)
Fixpoint play (reenter : bool) (sched : list (nat * choice)) (s : hook_system) : option hook_system :=
  match sched with
  | [] => Some s
  | (i, c) :: sched =>
      th ← hook_threads s !! i;
      match advance (now s) c th (the_bus s) with
      | Some (Next th' b ev) => if decide (allowed reenter s th c) then play reenter sched (record_event s i th' b ev) else None
      | Some Wild => Some (HookSystem (the_bus s) (hook_threads s) (history s) (issued s) (erased s) (firings s) true)
      | None => None
      end
  end.

Definition spawned (n : nat) (s : hook_system) : hook_system :=
  HookSystem (the_bus s) (hook_threads s ++ replicate n idle) (history s) (issued s) (erased s) (firings s) (wild s).

Lemma hook_play_steps reenter sched n s s' : play reenter sched (spawned n s) = Some s' -> rtc (bus_step reenter) s s'.
Proof.
  intros E. trans (spawned n s).
  - clear E. revert s. induction n as [|n IH]; intros s; unfold spawned; cbn.
    + rewrite app_nil_r. by destruct s.
    + eapply rtc_l; [apply bs_spawn|]. specialize (IH (HookSystem (the_bus s) (hook_threads s ++ [idle]) (history s) (issued s) (erased s) (firings s) (wild s))).
      unfold spawned in IH. cbn in IH. by rewrite <- app_assoc in IH.
  - revert E. generalize (spawned n s). clear s. induction sched as [|[i c] sched IH]; intros s E; cbn in E; [by simplify_eq|].
    destruct (hook_threads s !! i) as [th|] eqn:Hi; [|done]. cbn in E. destruct (advance _ c th _) as [[th' b ev|]|] eqn:Ha; [| |done].
    + destruct (decide _) as [Hal|]; [|done]. eapply rtc_l; [by eapply bs_run|by apply IH].
    + simplify_eq. eapply rtc_once, bs_wild; done.
Qed.

(** An [add] with nothing in between is [HookBus]'s. *)
Lemma lone_add reenter o f b :
  exists s, play reenter [(0, Nest (OpAdd o f)); (0, Pass); (0, Pass)] (spawned 1 (initial b)) = Some s
    /\ the_bus s = fst (add o (overload_phase o) (Some f) b) /\ issued s = [(overload_phase o, next_slot_id_ b)].
Proof.
  eexists. split; [reflexivity|]. split; [|done]. cbn. unfold add. rewrite add_impl_halves.
  by rewrite bool_decide_false by (by intros []).
Qed.

(** Two hooks of one phase; the first removes the second while a request fires
    them; the next request fires only the first. *)
Lemma hook_firings_are_atomic_witness :
  exists s, rtc (bus_step false) (initial new_bus) s
    /\ f_ran <$> firings s = [[PhaseEntry 1 10]; [PhaseEntry 1 10; PhaseEntry 2 11]] /\ wild s = false
    /\ forall f, f ∈ firings s -> forall id t, (id, t) ∈ erased s -> t <= f_since f -> id ∉ slot_id <$> f_ran f.
Proof.
  assert (Hp : exists s, play false
      ([(0, Nest (OpAdd on_accept 10)); (1, Nest (OpAdd on_accept 11)); (0, Pass); (1, Pass); (0, Pass); (1, Pass);
        (0, Nest (OpFire on_accept true)); (0, Pass); (0, Pass); (0, Pass); (0, Nest (OpRemove accept_decision 2)); (0, Pass);
        (0, Pass); (0, Pass); (0, Throws); (0, Pass)]
       ++ [(1, Nest (OpFire on_accept true)); (1, Pass); (1, Pass); (1, Pass); (1, Pass); (1, Pass)])
      (spawned 2 (initial new_bus)) = Some s
    /\ f_ran <$> firings s = [[PhaseEntry 1 10]; [PhaseEntry 1 10; PhaseEntry 2 11]] /\ Z.of_nat (length (history s)) = 23%Z).
  { eexists. split_and!; vm_compute; reflexivity. }
  destruct Hp as (s & Hp & Hr & Hl). pose proof (hook_play_steps _ _ _ _ _ Hp) as Hst.
  assert (Hb : unhooked new_bus) by (split; [exact new_bus_ok|by intros []]).
  assert (Hn : (next_slot_id_ new_bus + Z.of_nat (length (history s)) < 2 ^ 64)%Z) by (rewrite Hl; reflexivity).
  destruct (hook_firings_are_atomic new_bus s Hb Hst Hn) as [Hw Hf]. exists s. split; [exact Hst|]. split; [exact Hr|]. split; [exact Hw|].
  intros f Hin. exact (proj2 (Hf f Hin)).
Defined.

(** The condition is needed: an accept hook that adds a connection re-enters its
    phase on its own thread (libmicrohttpd asks the accept policy from
    [MHD_add_connection]), the buffer is cleared, and the outer loop goes on over
    it. *)
Lemma reentered_phase_is_wild : exists s, rtc (bus_step true) (initial new_bus) s /\ wild s = true.
Proof.
  assert (Hp : exists s, play true
      [(0, Nest (OpAdd on_accept 10)); (0, Pass); (0, Pass); (0, Nest (OpFire on_accept true)); (0, Pass); (0, Pass); (0, Pass);
       (0, Nest (OpFire on_accept true)); (0, Pass); (0, Pass); (0, Pass); (0, Pass); (0, Pass); (0, Pass); (0, Pass)]
      (spawned 1 (initial new_bus)) = Some s /\ wild s = true).
  { eexists. split; vm_compute; reflexivity. }
  destruct Hp as (s & Hp & Hw). exists s. split; [by eapply hook_play_steps|done].
Qed.
