(* ===== verification/ResourceTables.v ===== *)
(** * The hook tables of resources

    [http_resource.cpp]: the copy and move of a resource and of the pointer to
    its hook table, and [ensure_table], by which the first [add_hook] of a
    resource allocates the table, also when several threads make it at once.
    The tables themselves are [HookBus]'s. *)

From S2P Require Import Prelude HttpMethod HttpResponse HookBus.
Import MethodSetOps ResourceMask Hooks.

Module ResourceTables.

(** ** Copies and moves *)

(** A resource: its mask and its [hook_table_], null or a table by identity. *)
Record http_resource : Type := HttpResource { mask_ : resource_mask; hook_table_ : option nat }.

Definition resource_copy (b : http_resource) : http_resource := HttpResource (copy_construct (mask_ b)) (hook_table_ b).

(** The new resource and what is left of the old one. *)
Definition resource_move (b : http_resource) : http_resource * http_resource :=
  (HttpResource (copy_construct (mask_ b)) (hook_table_ b), HttpResource (mask_ b) None).

(** Assignments of distinct objects; of an object to itself they do nothing. *)
Definition resource_copy_assign (a b : http_resource) : http_resource := HttpResource (assign (mask_ a) (mask_ b)) (hook_table_ b).

Definition resource_move_assign (a b : http_resource) : http_resource * http_resource :=
  (HttpResource (assign (mask_ a) (mask_ b)) (hook_table_ b), HttpResource (mask_ b) None).

(** [add_hook] on a resource alone: [ensure_table], then the append; [fresh] is
    the identity a new table gets. *)
Definition ensure_table (fresh : nat) (slot : option nat) (tables : gmap nat resource_hook_table) : nat * option nat * gmap nat resource_hook_table :=
  match slot with
  | Some t => (t, slot, tables)
  | None => (fresh, Some fresh, <[fresh := new_table]> tables)
  end.

Definition add_route_hook (fresh : nat) (o : route_overload) (f : nat) (r : http_resource) (tables : gmap nat resource_hook_table)
    : http_resource * gmap nat resource_hook_table :=
  let '(t, slot, tables) := ensure_table fresh (hook_table_ r) tables in
  (HttpResource (mask_ r) slot, alter (fun tb => fst (append_impl (route_overload_phase o) f tb)) t tables).

(** The hooks that fire for a resource. *)
Definition hooks_of (r : http_resource) (tables : gmap nat resource_hook_table) (p : hook_phase) : list phase_entry :=
  match hook_table_ r ≫= fun t => tables !! t with Some tb => rt_vec tb p | None => [] end.

(** ** Threads that add the first hook *)

(** Where an [add_hook] is: before the load of the pointer, holding a table of its
    own before the exchange, holding the resource's table, or returned with the
    table and the slot of its handle. *)
Inductive adder : Type :=
| LoadTable (o : route_overload) (f : nat)
| Exchange (o : route_overload) (f : nat) (own : nat)
| Append (o : route_overload) (f : nat) (t : nat)
| Returned (o : route_overload) (f : nat) (t : nat) (id : Z).

(** One resource: its pointer, the tables that are alive, and the threads. *)
Record adding : Type := Adding {
  slot : option nat;
  tables_alive : gmap nat resource_hook_table;
  next_table : nat;
  adders : list adder;
}.

(** One step; a thread that loses the exchange drops its own table. *)
Definition advance (a : adder) (s : adding) : option (option nat * gmap nat resource_hook_table * nat * adder) :=
  match a with
  | LoadTable o f =>
      match slot s with
      | Some t => Some (slot s, tables_alive s, next_table s, Append o f t)
      | None => Some (slot s, <[next_table s := new_table]> (tables_alive s), S (next_table s), Exchange o f (next_table s))
      end
  | Exchange o f own =>
      match slot s with
      | None => Some (Some own, tables_alive s, next_table s, Append o f own)
      | Some t => Some (slot s, base.delete own (tables_alive s), next_table s, Append o f t)
      end
  | Append o f t =>
      match tables_alive s !! t with
      | Some tb =>
          let '(tb, id) := append_impl (route_overload_phase o) f tb in
          Some (slot s, <[t := tb]> (tables_alive s), next_table s, Returned o f t id)
      | None => None
      end
  | Returned _ _ _ _ => None
  end.

Inductive add_step : adding -> adding -> Prop :=
| as_begin s o f : add_step s (Adding (slot s) (tables_alive s) (next_table s) (adders s ++ [LoadTable o f]))
| as_run s i a sl tb n a' :
    adders s !! i = Some a -> advance a s = Some (sl, tb, n, a') ->
    add_step s (Adding sl tb n (<[i := a']> (adders s))).

Definition no_hooks : adding := Adding None ∅ 0 [].

End ResourceTables.
Import ResourceTables.

(** ** Copies share the table they found *)

(** A copy of a resource with a table shares it: a hook added to either fires for
    both. *)
Lemma copy_shares_table fresh o f r tables p t tb :
  hook_table_ r = Some t -> tables !! t = Some tb ->
  (let '(c', tables') := add_route_hook fresh o f (resource_copy r) tables in hooks_of r tables' p = hooks_of c' tables' p)
  /\ (let '(r', tables') := add_route_hook fresh o f r tables in hooks_of r' tables' p = hooks_of (resource_copy r) tables' p).
Proof. intros Ht Htb. unfold add_route_hook, resource_copy, hooks_of. cbn. by rewrite Ht. Qed.

(** A copy of a resource without a table shares nothing. *)
Lemma copy_without_table fresh o f r tables p :
  hook_table_ r = None ->
  let '(r', tables') := add_route_hook fresh o f r tables in hooks_of (resource_copy r) tables' p = [].
Proof. intros Ht. unfold add_route_hook, resource_copy, hooks_of. cbn. by rewrite Ht. Qed.

(** ** The first hooks *)

Lemma route_phase_ok o : rt_phase (route_overload_phase o) = true.
Proof. by destruct o. Qed.

(** The table a thread works on, and the one it owns. *)
Definition own_table (a : adder) : option nat := match a with Exchange _ _ t => Some t | _ => None end.
Definition used_table (a : adder) : option nat := match a with Append _ _ t | Returned _ _ t _ => Some t | _ => None end.

Definition returned_ids (l : list adder) : list Z := omap (fun a => match a with Returned _ _ _ id => Some id | _ => None end) l.

Record adding_ok (s : adding) : Prop := {
  ad_used i a t : adders s !! i = Some a -> used_table a = Some t -> slot s = Some t;
  ad_own i a t : adders s !! i = Some a -> own_table a = Some t -> slot s <> Some t /\ t < next_table s /\ tables_alive s !! t = Some new_table;
  ad_apart i j a b t : adders s !! i = Some a -> adders s !! j = Some b -> own_table a = Some t -> own_table b = Some t -> i = j;
  ad_slot t : slot s = Some t -> t < next_table s /\ exists tb, tables_alive s !! t = Some tb /\ table_ok tb;
  ad_alive t : is_Some (tables_alive s !! t) -> slot s = Some t \/ exists i a, adders s !! i = Some a /\ own_table a = Some t;
  ad_in i o f t id tb : adders s !! i = Some (Returned o f t id) -> tables_alive s !! t = Some tb ->
    PhaseEntry id f ∈ rt_vec tb (route_overload_phase o) /\ (id < rt_next_slot_id_ tb)%Z;
  ad_ids : NoDup (returned_ids (adders s));
}.

(** The returned ids after a thread returned with a new one. *)
Lemma returned_after l i a o f t id : l !! i = Some a -> (forall o f t id, a <> Returned o f t id) ->
  returned_ids (<[i := Returned o f t id]> l) ≡ₚ id :: returned_ids l.
Proof.
  intros Hi Ha. pose proof (lookup_lt_Some _ _ _ Hi) as Hlt. unfold returned_ids. rewrite insert_take_drop by done.
  rewrite <- (take_drop_middle l i a Hi) at 3. rewrite !omap_app. cbn. destruct a as [| | |o' f' t' id']; [..|by destruct (Ha o' f' t' id')];
    symmetry; apply Permutation_middle.
Qed.

(** Other steps return nothing. *)
Lemma returned_same l i a a' : l !! i = Some a -> (forall o f t id, a <> Returned o f t id) -> (forall o f t id, a' <> Returned o f t id) ->
  returned_ids (<[i := a']> l) = returned_ids l.
Proof.
  intros Hi Ha Ha'. pose proof (lookup_lt_Some _ _ _ Hi) as Hlt. unfold returned_ids. rewrite insert_take_drop by done.
  rewrite <- (take_drop_middle l i a Hi) at 3. rewrite !omap_app. cbn.
  destruct a as [| | |? ? ? ?]; [..|by edestruct Ha]; (destruct a' as [| | |? ? ? ?]; [..|by edestruct Ha']); done.
Qed.

Lemma id_returned l i o f t id : l !! i = Some (Returned o f t id) -> id ∈ returned_ids l.
Proof. intros Hi. apply list_elem_of_omap. exists (Returned o f t id). split; [by eapply list_elem_of_lookup_2|done]. Qed.

(** The slot counter of the resource's table. *)
Definition counted (s : adding) : Prop :=
  forall t tb, slot s = Some t -> tables_alive s !! t = Some tb -> rt_next_slot_id_ tb = (1 + Z.of_nat (length (returned_ids (adders s))))%Z.

Lemma returned_length l : length (returned_ids l) <= length l.
Proof. unfold returned_ids. induction l as [|a l IH]; [done|]. cbn. destruct a; cbn; lia. Qed.

Ltac adder_cases := repeat match goal with
  | H : <[_ := _]> _ !! _ = Some _ |- _ => apply insert_cases in H as [[-> H]|[? H]]; [try discriminate H; try subst|]
  end.

Lemma begin_ok s o f : adding_ok s -> adding_ok (Adding (slot s) (tables_alive s) (next_table s) (adders s ++ [LoadTable o f])).
Proof.
  intros []. assert (Hnew : forall i a, (adders s ++ [LoadTable o f]) !! i = Some a -> adders s !! i = Some a \/ a = LoadTable o f).
  { intros i a [Hi|[_ Hi]]%lookup_app_Some; [by left|right]. by apply list_lookup_singleton_Some in Hi as [_ <-]. }
  constructor; cbn [slot tables_alive next_table adders]; auto.
  - intros i a t [Hi| ->]%Hnew; [by eapply ad_used0|done].
  - intros i a t [Hi| ->]%Hnew; [by eapply ad_own0|done].
  - intros i j a b t [Hi| ->]%Hnew [Hj| ->]%Hnew; [by eapply ad_apart0|done..].
  - intros t [Ht|(i & a & Hi & Ha)]%ad_alive0; [by left|right]. exists i, a. split; [by apply lookup_app_l_Some|done].
  - intros i o' f' t id tb [Hi|[=]]%Hnew. by eapply ad_in0.
  - unfold returned_ids. rewrite omap_app. cbn. by rewrite app_nil_r.
Qed.

Lemma load_none_ok s i o f : adding_ok s -> adders s !! i = Some (LoadTable o f) -> slot s = None ->
  adding_ok (Adding None (<[next_table s := new_table]> (tables_alive s)) (S (next_table s)) (<[i := Exchange o f (next_table s)]> (adders s))).
Proof.
  intros [] Hi Hs. constructor; cbn [slot tables_alive next_table adders].
  - intros k a t Hk Ha. adder_cases; [done|]. rewrite <- Hs. by eapply ad_used0.
  - intros k a t Hk Ha. adder_cases.
    + cbn in Ha. simplify_eq. split; [done|]. split; [lia|]. by rewrite lookup_insert_eq.
    + destruct (ad_own0 _ _ _ Hk Ha) as (_ & Hlt & Ht). split; [done|]. split; [lia|]. rewrite lookup_insert_ne by lia. done.
  - intros j k a b t Hj Hk Ha Hb. adder_cases; cbn in *; simplify_eq; try done.
    1, 2: match goal with H : adders ?s !! _ = Some ?x, H' : own_table ?x = _ |- _ => destruct (ad_own0 _ _ _ H H') as (_ & ? & _); lia end.
    by eapply ad_apart0.
  - done.
  - intros t. destruct (decide (next_table s = t)) as [<-|Ht].
    + intros _. right. exists i, (Exchange o f (next_table s)). rewrite list_lookup_insert_eq; [done|]. by eapply lookup_lt_Some.
    + rewrite lookup_insert_ne by done. intros [Hx|(k & a & Hk & Ha)]%ad_alive0; [by rewrite Hs in Hx|right].
      exists k, a. split; [|done]. rewrite list_lookup_insert_ne; [done|]. intros <-. by simplify_eq.
  - intros k o' f' t id tb Hk. adder_cases; try done. pose proof (ad_used0 _ _ t Hk eq_refl) as Hx. by rewrite Hs in Hx.
  - by rewrite (returned_same _ _ _ _ Hi).
Qed.

(** A thread that takes the resource's table as it is. *)
Lemma take_table_ok s i a o f t tb : adding_ok s -> adders s !! i = Some a -> (forall o f t id, a <> Returned o f t id) ->
  slot s = Some t -> (forall t', t' <> t -> own_table a <> Some t' -> tb !! t' = tables_alive s !! t') -> tb !! t = tables_alive s !! t ->
  (forall t', own_table a = Some t' -> tb !! t' = None) ->
  adding_ok (Adding (slot s) tb (next_table s) (<[i := Append o f t]> (adders s))).
Proof.
  intros [] Hi Hret Hs Htb Htt Hown. constructor; cbn [slot tables_alive next_table adders].
  - intros k b t' Hk Hb. adder_cases; [cbn in Hb; congruence|]. by eapply ad_used0.
  - intros k b t' Hk Hb. adder_cases; [done|]. destruct (ad_own0 _ _ _ Hk Hb) as (H1 & H2 & H3). split; [done|]. split; [done|].
    rewrite Htb; [done|congruence|]. intros Ha. by assert (i = k) by (by eapply ad_apart0).
  - intros j k b c t' Hj Hk Hb Hc. adder_cases; try done. by eapply ad_apart0.
  - intros t' Ht'. assert (t' = t) as -> by congruence. destruct (ad_slot0 _ Ht') as (H1 & x & H2 & H3). split; [done|]. exists x. by rewrite Htt.
  - intros t' Ht'. destruct (decide (t' = t)) as [->|Hne]; [by left|]. destruct (decide (own_table a = Some t')) as [He|He].
    + rewrite (Hown _ He) in Ht'. by destruct Ht'.
    + rewrite Htb in Ht' by done. apply ad_alive0 in Ht' as [Hx|(k & b & Hk & Hb)]; [by left|right]. exists k, b. split; [|done].
      rewrite list_lookup_insert_ne; [done|]. intros <-. by simplify_eq.
  - intros k o' f' t' id x Hk Hx. adder_cases; try done. pose proof (ad_used0 _ _ t' Hk eq_refl) as Hu.
    assert (t' = t) as -> by congruence. rewrite Htt in Hx. by eapply ad_in0.
  - by rewrite (returned_same _ _ _ _ Hi).
Qed.

Lemma win_ok s i o f own : adding_ok s -> adders s !! i = Some (Exchange o f own) -> slot s = None ->
  adding_ok (Adding (Some own) (tables_alive s) (next_table s) (<[i := Append o f own]> (adders s))).
Proof.
  intros [] Hi Hs. destruct (ad_own0 _ _ _ Hi eq_refl) as (_ & Hlt & Ht). constructor; cbn [slot tables_alive next_table adders].
  - intros k b t Hk Hb. adder_cases; [done|]. pose proof (ad_used0 _ _ _ Hk Hb) as Hx. by rewrite Hs in Hx.
  - intros k b t Hk Hb. adder_cases; [done|]. destruct (ad_own0 _ _ _ Hk Hb) as (_ & H2 & H3). split; [|done]. intros [= ->].
    by assert (i = k) by (by eapply ad_apart0).
  - intros j k b c t Hj Hk Hb Hc. adder_cases; try done. by eapply ad_apart0.
  - intros t [= <-]. split; [done|]. exists new_table. split; [done|apply new_table_ok].
  - intros t [Hx|(k & b & Hk & Hb)]%ad_alive0; [by rewrite Hs in Hx|]. destruct (decide (k = i)) as [->|Hki].
    + left. by simplify_eq.
    + right. exists k, b. by rewrite list_lookup_insert_ne.
  - intros k o' f' t id x Hk Hx. adder_cases; try done. pose proof (ad_used0 _ _ _ Hk eq_refl) as Hu. by rewrite Hs in Hu.
  - by rewrite (returned_same _ _ _ _ Hi).
Qed.

Lemma hook_append_ok s i o f t tb tb' id : adding_ok s -> counted s -> (Z.of_nat (length (adders s)) < 2 ^ 64 - 2)%Z ->
  adders s !! i = Some (Append o f t) -> tables_alive s !! t = Some tb -> append_impl (route_overload_phase o) f tb = (tb', id) ->
  let s' := Adding (slot s) (<[t := tb']> (tables_alive s)) (next_table s) (<[i := Returned o f t id]> (adders s)) in
  adding_ok s' /\ counted s'.
Proof.
  intros Hok Hcnt Hlen Hi Htb E. pose proof Hok as []. pose proof (ad_used0 _ _ _ Hi eq_refl) as Hs.
  destruct (ad_slot0 _ Hs) as (Hlt & x & Hx & Htok). assert (x = tb) as -> by congruence.
  pose proof (Hcnt _ _ Hs Htb) as Hnum. pose proof (returned_length (adders s)) as Hrl.
  pose proof (append_impl_ok (route_overload_phase o) f tb (route_phase_ok o) Htok) as Ha. rewrite E in Ha. destruct Ha as (Hok' & Hid & Hv); [lia|].
  assert (Hnext : rt_next_slot_id_ tb' = (rt_next_slot_id_ tb + 1)%Z).
  { unfold append_impl in E. injection E as <- _. rewrite wrap64_small by (pose proof (to_next _ Htok); lia). autorewrite with hooks_rw. by destruct tb, o. }
  assert (Hids : forall x, x ∈ returned_ids (adders s) -> (x < rt_next_slot_id_ tb)%Z).
  { intros y (a & Ha & Hy)%list_elem_of_omap. destruct a as [| | |o' f' t' id']; simplify_eq. apply list_elem_of_lookup in Ha as [k Hk].
    pose proof (ad_used0 _ _ _ Hk eq_refl) as Hu. assert (t' = t) as -> by congruence. by apply (ad_in0 _ _ _ _ _ _ Hk Htb). }
  assert (Hret : returned_ids (<[i := Returned o f t id]> (adders s)) ≡ₚ id :: returned_ids (adders s)) by (by eapply returned_after).
  split.
  - constructor; cbn [slot tables_alive next_table adders].
    + intros k b t' Hk Hb. adder_cases; [cbn in Hb; congruence|]. by eapply ad_used0.
    + intros k b t' Hk Hb. adder_cases; [done|]. destruct (ad_own0 _ _ _ Hk Hb) as (H1 & H2 & H3). split; [done|]. split; [done|].
      rewrite lookup_insert_ne; [done|]. congruence.
    + intros j k b c t' Hj Hk Hb Hc. adder_cases; try done. by eapply ad_apart0.
    + intros t' Ht'. assert (t' = t) as -> by congruence. split; [done|]. exists tb'. by rewrite lookup_insert_eq.
    + intros t' Ht'. destruct (decide (t = t')) as [<-|Hne]; [by left|]. rewrite lookup_insert_ne in Ht' by done.
      apply ad_alive0 in Ht' as [H1|(k & b & Hk & Hb)]; [by left|right]. exists k, b. split; [|done].
      rewrite list_lookup_insert_ne; [done|]. intros <-. by simplify_eq.
    + intros k o' f' t' id' y Hk Hy. apply insert_cases in Hk as [[-> Hk]|[Hne Hk]].
      * injection Hk as -> -> -> ->. rewrite lookup_insert_eq in Hy. injection Hy as <-. rewrite Hv, bool_decide_true by done.
        split; [set_solver|lia].
      * pose proof (ad_used0 _ _ _ Hk eq_refl) as Hu. assert (t' = t) as -> by congruence. rewrite lookup_insert_eq in Hy. injection Hy as <-.
        destruct (ad_in0 _ _ _ _ _ _ Hk Htb) as [H1 H2]. rewrite Hv. split; [set_solver|lia].
    + rewrite Hret. apply NoDup_cons. split; [|done]. intros Hin%Hids. lia.
  - intros t' y Ht' Hy. cbn [slot tables_alive adders] in *. assert (t' = t) as -> by congruence. rewrite lookup_insert_eq in Hy. injection Hy as <-.
    rewrite Hret. cbn [length]. lia.
Qed.

Lemma none_returned s : adding_ok s -> slot s = None -> returned_ids (adders s) = [].
Proof.
  intros Hok Hs. destruct (returned_ids (adders s)) as [|id l] eqn:E; [done|].
  assert (Hin : id ∈ returned_ids (adders s)) by (rewrite E; by left).
  apply list_elem_of_omap in Hin as (a & Ha & Hid). destruct a as [| | |o f t id']; simplify_eq. apply list_elem_of_lookup in Ha as [k Hk].
  pose proof (ad_used _ Hok _ _ _ Hk eq_refl) as Hu. congruence.
Qed.

Lemma add_step_ok s s' : add_step s s' -> adding_ok s -> counted s -> (Z.of_nat (length (adders s)) < 2 ^ 64 - 2)%Z -> adding_ok s' /\ counted s'.
Proof.
  intros [t o f|t i a sl tb n a' Hi E] Hok Hc Hl.
  { split; [by apply begin_ok|]. intros x y Hx Hy. cbn [slot tables_alive adders] in *. unfold returned_ids. rewrite omap_app. cbn. rewrite app_nil_r. exact (Hc _ _ Hx Hy). }
  destruct a as [o f|o f own|o f x|? ? ? ?]; cbn [advance] in E; [| | |done].
  - destruct (slot t) as [x|] eqn:Es; simplify_eq.
    + split.
      * rewrite <- Es. by eapply take_table_ok.
      * intros y z Hy Hz. cbn in *. rewrite (returned_same _ _ _ _ Hi) by done. apply (Hc y z); [congruence|done].
    + split; [by apply load_none_ok|]. by intros y z Hy.
  - destruct (slot t) as [x|] eqn:Es; simplify_eq.
    + destruct (ad_own _ Hok _ _ _ Hi eq_refl) as (Hne & _). split.
      * rewrite <- Es. eapply take_table_ok; [done|exact Hi|done|done| | |].
        -- intros t' Ht' Ho. rewrite lookup_delete_ne; [done|]. cbn in Ho. congruence.
        -- rewrite lookup_delete_ne; [done|]. congruence.
        -- intros t' [= <-]. by rewrite lookup_delete_eq.
      * intros y z Hy Hz. cbn in *. rewrite (returned_same _ _ _ _ Hi) by done. rewrite lookup_delete_ne in Hz by congruence. apply (Hc y z); [congruence|done].
    + split; [by apply win_ok|]. intros y z Hy Hz. cbn in *. injection Hy as <-. rewrite (returned_same _ _ _ _ Hi), (none_returned _ Hok Es) by done.
      destruct (ad_own _ Hok _ _ _ Hi eq_refl) as (_ & _ & Hx). rewrite Hx in Hz. by injection Hz as <-.
  - destruct (tables_alive t !! x) as [tb0|] eqn:Ex; [|done]. destruct (append_impl (route_overload_phase o) f tb0) as [tb1 id] eqn:Ea.
    injection E as <- <- <- <-. by eapply hook_append_ok.
Qed.

Lemma adders_longer s s' : add_step s s' -> length (adders s) <= length (adders s').
Proof. intros []; cbn; [rewrite length_app; lia|by rewrite length_insert]. Qed.

Lemma reachable_adding s : rtc add_step no_hooks s -> (Z.of_nat (length (adders s)) < 2 ^ 64 - 2)%Z -> adding_ok s /\ counted s.
Proof.
  intros Hst. apply (rtc_ind_r (R := add_step) (fun s => (Z.of_nat (length (adders s)) < 2 ^ 64 - 2)%Z -> adding_ok s /\ counted s) no_hooks); [| |exact Hst].
  - intros _. split; [|done]. constructor; cbn; try done; [by intros t [? ?]|constructor].
  - intros x y _ Hxy IH Hl. pose proof (adders_longer _ _ Hxy). destruct IH as [Hok Hc]; [lia|]. eapply add_step_ok; [done..|lia].
Qed.

(** C17: When any number of threads add the first hooks of one resource at once,
    none is lost: every [add_hook] that returned registered its hook in the one
    table the resource points at, under a slot no other call got, and a table
    that lost the exchange is dropped, so that no table but the resource's and
    those of threads still at the exchange is alive. *)
Theorem first_hooks_share_table s :
  rtc add_step no_hooks s -> (Z.of_nat (length (adders s)) < 2 ^ 64 - 2)%Z ->
  (forall i o f t id, adders s !! i = Some (Returned o f t id) ->
     slot s = Some t /\ exists tb, tables_alive s !! t = Some tb /\ PhaseEntry id f ∈ rt_vec tb (route_overload_phase o))
  /\ NoDup (returned_ids (adders s))
  /\ (forall t, is_Some (tables_alive s !! t) -> slot s = Some t \/ exists i o f, adders s !! i = Some (Exchange o f t)).
Proof.
  intros Hst Hl. destruct (reachable_adding s Hst Hl) as [Hok _]. split; [|split; [apply Hok|]].
  - intros i o f t id Hi. pose proof (ad_used _ Hok _ _ _ Hi eq_refl) as Hs. split; [done|].
    destruct (ad_slot _ Hok _ Hs) as (_ & tb & Htb & _). exists tb. split; [done|]. by apply (ad_in _ Hok _ _ _ _ _ _ Hi Htb).
  - intros t [Hs|(i & a & Hi & Ha)]%(ad_alive _ Hok); [by left|right]. destruct a as [|o f own| |]; try done. injection Ha as <-. by exists i, o, f.
Qed.

(** The steps of a schedule. *)
Fixpoint play (sched : list nat) (s : adding) : option adding :=
  match sched with
  | [] => Some s
  | i :: sched =>
      a ← adders s !! i;
      '(sl, tb, n, a') ← advance a s;
      play sched (Adding sl tb n (<[i := a']> (adders s)))
  end.

Lemma adder_play_steps sched s s' : play sched s = Some s' -> rtc add_step s s'.
Proof.
  revert s. induction sched as [|i sched IH]; intros s E; cbn in E; [by simplify_eq|].
  destruct (adders s !! i) as [a|] eqn:Hi; [|done]. cbn in E. destruct (advance a s) as [[[[sl tb] n] a']|] eqn:Ha; [|done].
  eapply rtc_l; [by eapply as_run|]. by apply IH.
Qed.

(** Two threads that both found no table: the second takes the first one's. *)
Lemma first_hooks_share_table_witness :
  exists s tb, rtc add_step no_hooks s
    /\ adders s = [Returned route_before_handler 10 0 1; Returned route_response_sent 11 0 2]
    /\ tables_alive s !! 0 = Some tb /\ PhaseEntry 2 11 ∈ rt_vec tb response_sent.
Proof.
  set (s0 := Adding None ∅ 0 [LoadTable route_before_handler 10; LoadTable route_response_sent 11]).
  assert (H0 : rtc add_step no_hooks s0) by (eapply rtc_l; [apply (as_begin _ route_before_handler 10)|]; apply rtc_once; exact (as_begin (Adding None ∅ 0 [LoadTable route_before_handler 10]) route_response_sent 11)).
  assert (Hp : exists s, play [0; 1; 0; 1; 0; 1] s0 = Some s
    /\ adders s = [Returned route_before_handler 10 0 1; Returned route_response_sent 11 0 2]).
  { eexists. split; vm_compute; reflexivity. }
  destruct Hp as (s & Hp & Ha). assert (Hst : rtc add_step no_hooks s) by (etrans; [exact H0|by eapply adder_play_steps]).
  destruct (first_hooks_share_table s Hst) as (Hret & _ & _); [by rewrite Ha|].
  destruct (Hret 1 route_response_sent 11 0 2%Z) as (_ & tb & Htb & Hin); [by rewrite Ha|].
  exists s, tb. split; [exact Hst|]. split; [exact Ha|]. split; [exact Htb|exact Hin].
Defined.
