(* ===== verification/Request.v ===== *)
(** * Requests

    [http_request.cpp], [http_request_auth.cpp], [http_request_impl.cpp] and
    [http_request_impl_args.cpp]: the request object, its arguments with their
    limits, the views it builds lazily, its text form with credentials
    redacted, and what [create_test_request] builds (its setters are in
    TestRequests).  Built with basic and digest authentication, without TLS.  A cached [std::string_view] is modelled by
    the text it had when the cache was built. *)

From S2P Require Import Prelude HttpUtils Cookie OrderedMap IpAddress HttpResponse.
Import HttpUtils.Unescape HttpUtils.HttpUtils HttpUtils.StringUtilities Cookie.Cookie IpAddress.Ip HttpResponse.Response.

(** What dispatch needs of a request. *)
Class HttpRequest (R : Type) := {
  make_request : option (bytes -> bytes) -> R;
  set_file_cleanup_callback : R -> option nat -> R;
  set_expose_credentials_in_logs : R -> bool -> R;
  set_content_size_limit : R -> Z -> R;
  set_arg : R -> bytes -> bytes -> R;
  grow_content : R -> bytes -> R;
  set_path : R -> bytes -> R;
  set_method : R -> bytes -> R;
  set_version : R -> bytes -> R;
  get_path : R -> bytes;
  get_method : R -> bytes;
}.

(** What dispatch relies on: the path is what was set, and naming the method,
    the version or an argument does not change it. *)
Class HttpRequestOk (R : Type) `{HttpRequest R} : Prop := {
  get_path_set_path r p : get_path (set_path r p) = p;
  get_path_set_method r m : get_path (set_method r m) = get_path r;
  get_path_set_version r v : get_path (set_version r v) = get_path r;
  get_path_set_arg r k v : get_path (set_arg r k v) = get_path r;
}.

Module Request.

(** ** Argument maps *)

(** A byte as the [int] a [char] promotes to. *)
Definition char_value (c : ascii) : Z := if (code c <? 128)%Z then code c else (code c - 256)%Z.

Definition arg_comparator (x y : bytes) : bool := COMPARATOR char_value x y.

#[local] Abbreviation header_map := (list (bytes * bytes)).
#[local] Abbreviation args_map := (list (bytes * list bytes)).

Definition arg_find (key : bytes) (args : args_map) : option (list bytes) := map_find arg_comparator key args.

(** [find_or_insert_arg] and a change of the vector it returns. *)
Definition update_arg (f : list bytes -> list bytes) (key : bytes) (args : args_map) : args_map :=
  insert_or_assign arg_comparator key (f (default [] (arg_find key args))) args.

Definition append_arg (args : args_map) (key value : bytes) : args_map := update_arg (fun l => l ++ [value]) key args.

(** ** The connection

    What libmicrohttpd answers about the connection of the request. *)
Inductive value_kind : Type := MHD_HEADER_KIND | MHD_FOOTER_KIND | MHD_COOKIE_KIND | MHD_GET_ARGUMENT_KIND.

Record mhd_connection : Type := MhdConnection {
  lookup_connection_value : value_kind -> bytes -> option bytes;
  (** the pairs in the order of the iterator; a value may be null *)
  connection_values : value_kind -> list (bytes * option bytes);
  (** [max_args_count] and [max_args_bytes] of the socket context, if any *)
  socket_context : option (Z * Z);
  (** user and optional password *)
  basic_auth_info : option (bytes * option bytes);
  digest_auth_username : option (option bytes);
  (** the connection information, if any, with its address pointer *)
  client_addr : option (option sockaddr);
  (** the C library's *)
  inet_ntop : sockaddr -> bytes;
}.

(** ** State *)

(** A value computed on first use. *)
Record lazy (A : Type) : Type := Lazy { cached : A; built : bool }.
Arguments Lazy {A} cached built.
Arguments cached {A} _.
Arguments built {A} _.

Record file_info : Type := FileInfo {
  file_size : Z;
  file_system_file_name : bytes;
  content_type : bytes;
  transfer_encoding : bytes;
}.

Definition new_file_info : file_info := FileInfo 0 [] [] [].

(** The values a test request carries instead of a connection. *)
Record local_values : Type := Locals {
  headers_local : header_map;
  footers_local : header_map;
  cookies_local : header_map;
  requestor_port_local : Z;
  tls_enabled_local : bool;
}.

Record credentials : Type := Credentials {
  username : bytes;
  password : bytes;
  user_pass_fetched : bool;
  digested_user : bytes;
}.

Record arg_state : Type := ArgState {
  unescaped_args : args_map;
  args_populated : bool;
  args_view_cached_ : lazy args_map;
  args_flat_view_cached_ : lazy header_map;
}.

Record view_caches : Type := Views {
  headers_cached_ : lazy header_map;
  footers_cached_ : lazy header_map;
  cookies_cached_ : lazy header_map;
  path_pieces_cached_ : lazy (list bytes);
  cookies_parsed_cached_ : lazy (list cookie);
  querystring : lazy bytes;
  requestor_ip : lazy bytes;
}.

Record http_request_impl : Type := Impl {
  connection_ : option mhd_connection;
  unescaper_ : option (bytes -> bytes);
  file_cleanup_callback_ : option nat;
  files_ : gmap bytes (gmap bytes file_info);
  locals : local_values;
  auth : credentials;
  args : arg_state;
  views : view_caches;
  expose_credentials_in_logs_ : bool;
}.

Record http_request : Type := Request {
  path : bytes;
  method : bytes;
  content : bytes;
  content_size_limit : Z;
  version : bytes;
  impl : http_request_impl;
}.

Definition SIZE_MAX : Z := 2 ^ 64 - 1.

Definition new_impl (c : option mhd_connection) (u : option (bytes -> bytes)) : http_request_impl :=
  Impl c u None ∅ (Locals [] [] [] 0 false) (Credentials [] [] false []) (ArgState [] false (Lazy [] false) (Lazy [] false))
    (Views (Lazy [] false) (Lazy [] false) (Lazy [] false) (Lazy [] false) (Lazy [] false) (Lazy [] false) (Lazy [] false))
    false.

Definition new_request (c : option mhd_connection) (u : option (bytes -> bytes)) : http_request :=
  Request [] [] [] SIZE_MAX [] (new_impl c u).

Definition on_impl (f : http_request_impl -> http_request_impl) (r : http_request) : http_request :=
  Request (path r) (method r) (content r) (content_size_limit r) (version r) (f (impl r)).

Definition on_args (f : arg_state -> arg_state) : http_request -> http_request :=
  on_impl (fun i => Impl (connection_ i) (unescaper_ i) (file_cleanup_callback_ i) (files_ i) (locals i) (auth i)
    (f (args i)) (views i) (expose_credentials_in_logs_ i)).

Definition on_views (f : view_caches -> view_caches) : http_request -> http_request :=
  on_impl (fun i => Impl (connection_ i) (unescaper_ i) (file_cleanup_callback_ i) (files_ i) (locals i) (auth i)
    (args i) (f (views i)) (expose_credentials_in_logs_ i)).

Definition on_auth (f : credentials -> credentials) : http_request -> http_request :=
  on_impl (fun i => Impl (connection_ i) (unescaper_ i) (file_cleanup_callback_ i) (files_ i) (locals i) (f (auth i))
    (args i) (views i) (expose_credentials_in_logs_ i)).

Definition on_files (f : gmap bytes (gmap bytes file_info) -> gmap bytes (gmap bytes file_info)) : http_request -> http_request :=
  on_impl (fun i => Impl (connection_ i) (unescaper_ i) (file_cleanup_callback_ i) (f (files_ i)) (locals i) (auth i)
    (args i) (views i) (expose_credentials_in_logs_ i)).

(** ** Setters *)

Definition request_set_path (r : http_request) (p : bytes) : http_request :=
  Request p (method r) (content r) (content_size_limit r) (version r) (impl r).
Definition request_set_method (r : http_request) (m : bytes) : http_request :=
  Request (path r) m (content r) (content_size_limit r) (version r) (impl r).
Definition request_set_version (r : http_request) (v : bytes) : http_request :=
  Request (path r) (method r) (content r) (content_size_limit r) v (impl r).
Definition request_set_content_size_limit (r : http_request) (n : Z) : http_request :=
  Request (path r) (method r) (content r) n (version r) (impl r).
Definition with_content (r : http_request) (c : bytes) : http_request :=
  Request (path r) (method r) c (content_size_limit r) (version r) (impl r).

Definition request_set_file_cleanup_callback (r : http_request) (f : option nat) : http_request :=
  on_impl (fun i => Impl (connection_ i) (unescaper_ i) f (files_ i) (locals i) (auth i) (args i) (views i)
    (expose_credentials_in_logs_ i)) r.
Definition request_set_expose (r : http_request) (b : bool) : http_request :=
  on_impl (fun i => Impl (connection_ i) (unescaper_ i) (file_cleanup_callback_ i) (files_ i) (locals i) (auth i)
    (args i) (views i) b) r.

(** The first [min(size, limit)] bytes. *)
Definition bounded (limit : Z) (s : bytes) : bytes :=
  if (Z.of_nat (length s) <=? limit)%Z then s else take (Z.to_nat limit) s.

Definition set_content (r : http_request) (c : bytes) : http_request :=
  with_content r (bounded (content_size_limit r) c).

(** Append, then [resize] when over the limit. *)
Definition request_grow_content (r : http_request) (chunk : bytes) : http_request :=
  with_content r (bounded (content_size_limit r) (content r ++ chunk)).

Definition content_too_large (r : http_request) : bool :=
  (content_size_limit r <=? Z.of_nat (length (content r)))%Z.

(** The changes of the arguments mark the view of [get_args] as stale. *)
Definition change_args (f : args_map -> args_map) : http_request -> http_request :=
  on_args (fun a => ArgState (f (unescaped_args a)) (args_populated a)
    (Lazy (cached (args_view_cached_ a)) false) (args_flat_view_cached_ a)).

Definition request_set_arg (r : http_request) (key value : bytes) : http_request :=
  change_args (fun m => append_arg m key (bounded (content_size_limit r) value)) r.

(** [set_arg(const char*, const char*, size_t)] *)
Definition set_arg_sized (r : http_request) (key value : bytes) (size : nat) : http_request :=
  change_args (fun m => append_arg m key (bounded (content_size_limit r) (take size value))) r.

Definition set_arg_flat (r : http_request) (key value : bytes) : http_request :=
  change_args (fun m => update_arg (fun _ => [bounded (content_size_limit r) value]) key m) r.

Definition set_args (r : http_request) (l : list (bytes * bytes)) : http_request :=
  change_args (fun m => foldl (fun m kv => append_arg m (fst kv) (bounded (content_size_limit r) (snd kv))) m l) r.

(** Appends to the last value, without a bound. *)
Definition grow_last_arg (r : http_request) (key value : bytes) : http_request :=
  change_args (update_arg (fun l =>
    match last l with Some v => removelast l ++ [v ++ value] | None => [value] end) key) r.

(** ** Arguments of the query string *)

Definition DEFAULT_MAX_ARGS_COUNT : Z := 64.
Definition DEFAULT_MAX_ARGS_BYTES : Z := 65536.

Record arguments_accumulator : Type := Accumulator {
  arguments : args_map;
  max_args_count : Z;
  max_args_bytes : Z;
  accumulated_bytes : Z;
}.

(** [unescape_in_arena] *)
Definition unescape_in_arena (value : bytes) (user_fn : option (bytes -> bytes)) : outcome bytes :=
  if is_empty value then Ok value
  else match user_fn with
  | None => '(data, new_size) ← unescape_buf_raw value (length value); Ok (take new_size data)
  | Some f => Ok (f value)
  end.

(** The iterator callback; [None] is [MHD_NO], which ends the iteration. *)
Definition build_request_args (u : option (bytes -> bytes)) (aa : arguments_accumulator) (key : bytes) (arg_value : option bytes)
    : outcome (option arguments_accumulator) :=
  let val := default [] arg_value in
  let is_new_key := match arg_find key (arguments aa) with None => true | Some _ => false end in
  if (max_args_count aa <? wrap64 (Z.of_nat (length (arguments aa)) + (if is_new_key then 1 else 0)))%Z then Ok None
  else
    let this_pair_bytes := wrap64 (Z.of_nat (length key) + Z.of_nat (length val)) in
    if (max_args_bytes aa <? wrap64 (accumulated_bytes aa + this_pair_bytes))%Z then Ok None
    else
      value ← unescape_in_arena val u;
      Ok (Some (Accumulator (append_arg (arguments aa) key value) (max_args_count aa) (max_args_bytes aa)
                  (wrap64 (accumulated_bytes aa + this_pair_bytes)))).

(** [MHD_get_connection_values] with that callback. *)
Fixpoint iterate_args (u : option (bytes -> bytes)) (l : list (bytes * option bytes)) (aa : arguments_accumulator)
    : outcome arguments_accumulator :=
  match l with
  | [] => Ok aa
  | (k, v) :: l =>
      next ← build_request_args u aa k v;
      match next with Some aa => iterate_args u l aa | None => Ok aa end
  end.

(** The limits: those of the socket context unless zero. *)
Definition args_limits (c : mhd_connection) : Z * Z :=
  match socket_context c with
  | Some (n, b) => (if (n =? 0)%Z then DEFAULT_MAX_ARGS_COUNT else n, if (b =? 0)%Z then DEFAULT_MAX_ARGS_BYTES else b)
  | None => (DEFAULT_MAX_ARGS_COUNT, DEFAULT_MAX_ARGS_BYTES)
  end.

Definition populated (m : args_map) (a : arg_state) : arg_state :=
  ArgState m true (args_view_cached_ a) (args_flat_view_cached_ a).

Definition populate_args : stx http_request unit := fun r =>
  let a := args (impl r) in
  if args_populated a then (r, Ok ())
  else match connection_ (impl r) with
  | None => (on_args (populated (unescaped_args a)) r, Ok ())
  | Some c =>
      let '(n, b) := args_limits c in
      match iterate_args (unescaper_ (impl r)) (connection_values c MHD_GET_ARGUMENT_KIND) (Accumulator (unescaped_args a) n b 0) with
      | Ok aa => (on_args (populated (arguments aa)) r, Ok ())
      | Throw e => (r, Throw e)
      | Undefined => (r, Undefined)
      end
  end.

Definition get_arg (key : bytes) : stx http_request (list bytes) :=
  _ ← populate_args;
  stx_gets (fun r => default [] (arg_find key (unescaped_args (args (impl r))))).

(** [http_arg_value::get_flat_value] *)
Definition get_flat_value (values : list bytes) : bytes := default [] (head values).

(** [it->second[0]] *)
Definition first_value (key : bytes) (m : args_map) : outcome bytes :=
  match arg_find key m with
  | Some (v :: _) => Ok v
  | Some [] => Undefined
  | None => Ok []
  end.

Definition get_arg_flat (key : bytes) : stx http_request bytes :=
  _ ← populate_args; r ← stx_get; stx_lift (first_value key (unescaped_args (args (impl r)))).

Definition ensure_args_view_cached (r : http_request) : http_request :=
  on_args (fun a =>
    if built (args_view_cached_ a) then a
    else ArgState (unescaped_args a) (args_populated a) (Lazy (unescaped_args a) true) (args_flat_view_cached_ a)) r.

Definition get_args : stx http_request args_map :=
  _ ← populate_args; _ ← stx_modify ensure_args_view_cached;
  stx_gets (fun r => cached (args_view_cached_ (args (impl r)))).

(** The first value of each argument that has one. *)
Definition flat_view (m : args_map) : header_map :=
  omap (fun kv => match snd kv with v :: _ => Some (fst kv, v) | [] => None end) m.

Definition ensure_args_flat_view_cached (r : http_request) : http_request :=
  on_args (fun a =>
    if built (args_flat_view_cached_ a) then a
    else ArgState (unescaped_args a) (args_populated a) (args_view_cached_ a) (Lazy (flat_view (unescaped_args a)) true)) r.

Definition get_args_flat : stx http_request header_map :=
  _ ← populate_args; _ ← stx_modify ensure_args_flat_view_cached;
  stx_gets (fun r => cached (args_flat_view_cached_ (args (impl r)))).

(** ** Headers, footers, cookies, path and peer *)

Definition local_map_for (k : value_kind) (r : http_request) : option header_map :=
  match k with
  | MHD_HEADER_KIND => Some (headers_local (locals (impl r)))
  | MHD_FOOTER_KIND => Some (footers_local (locals (impl r)))
  | MHD_COOKIE_KIND => Some (cookies_local (locals (impl r)))
  | MHD_GET_ARGUMENT_KIND => None
  end.

Definition get_connection_value (key : bytes) (k : value_kind) (r : http_request) : bytes :=
  match connection_ (impl r) with
  | None => match local_map_for k r with Some m => default [] (map_find header_comparator key m) | None => [] end
  | Some c => default [] (lookup_connection_value c k key)
  end.

(** The caches of [ensure_headerlike_cache]; other kinds share the headers'. *)
Definition headerlike (k : value_kind) (v : view_caches) : lazy header_map :=
  match k with
  | MHD_FOOTER_KIND => footers_cached_ v
  | MHD_COOKIE_KIND => cookies_cached_ v
  | _ => headers_cached_ v
  end.

Definition set_headerlike (k : value_kind) (c : lazy header_map) (v : view_caches) : view_caches :=
  match k with
  | MHD_FOOTER_KIND => Views (headers_cached_ v) c (cookies_cached_ v) (path_pieces_cached_ v) (cookies_parsed_cached_ v) (querystring v) (requestor_ip v)
  | MHD_COOKIE_KIND => Views (headers_cached_ v) (footers_cached_ v) c (path_pieces_cached_ v) (cookies_parsed_cached_ v) (querystring v) (requestor_ip v)
  | _ => Views c (footers_cached_ v) (cookies_cached_ v) (path_pieces_cached_ v) (cookies_parsed_cached_ v) (querystring v) (requestor_ip v)
  end.

(** [build_request_header] over the pairs; a null value is no [string_view]. *)
Fixpoint build_request_headers (l : list (bytes * option bytes)) (m : header_map) : outcome header_map :=
  match l with
  | [] => Ok m
  | (k, Some v) :: l => build_request_headers l (insert_or_assign header_comparator k v m)
  | (_, None) :: _ => Undefined
  end.

Definition ensure_headerlike_cache (k : value_kind) : stx http_request header_map := fun r =>
  let c := headerlike k (views (impl r)) in
  if built c then (r, Ok (cached c))
  else
    let pairs := match connection_ (impl r) with
      | None => (fun kv => (fst kv, Some (snd kv))) <$> default [] (local_map_for k r)
      | Some conn => connection_values conn k
      end in
    match build_request_headers pairs (cached c) with
    | Ok m => (on_views (set_headerlike k (Lazy m true)) r, Ok m)
    | Throw e => (r, Throw e)
    | Undefined => (r, Undefined)
    end.

Definition request_get_header (key : bytes) (r : http_request) : bytes := get_connection_value key MHD_HEADER_KIND r.
Definition request_get_footer (key : bytes) (r : http_request) : bytes := get_connection_value key MHD_FOOTER_KIND r.
Definition request_get_cookie (key : bytes) (r : http_request) : bytes := get_connection_value key MHD_COOKIE_KIND r.
Definition get_headers := ensure_headerlike_cache MHD_HEADER_KIND.
Definition get_footers := ensure_headerlike_cache MHD_FOOTER_KIND.
Definition get_cookies := ensure_headerlike_cache MHD_COOKIE_KIND.

Definition ensure_path_pieces_cached (r : http_request) : http_request :=
  on_views (fun v =>
    if built (path_pieces_cached_ v) then v
    else Views (headers_cached_ v) (footers_cached_ v) (cookies_cached_ v) (Lazy (tokenize_url (path r) "/") true)
           (cookies_parsed_cached_ v) (querystring v) (requestor_ip v)) r.

Definition get_path_pieces : stx http_request (list bytes) :=
  _ ← stx_modify ensure_path_pieces_cached; stx_gets (fun r => cached (path_pieces_cached_ (views (impl r)))).

(** [index] is an [int]; the vector is indexed with its conversion to [size_t]. *)
Definition piece_at (pieces : list bytes) (index : Z) : outcome bytes :=
  if (index <? Z.of_nat (length pieces))%Z then
    match (if (0 <=? index)%Z then pieces !! Z.to_nat index else None) with
    | Some p => Ok p
    | None => Undefined
    end
  else Ok [].

Definition get_path_piece (index : Z) : stx http_request bytes :=
  pieces ← get_path_pieces; stx_lift (piece_at pieces index).

Definition set_cookies_parsed (l : list cookie) (v : view_caches) : view_caches :=
  Views (headers_cached_ v) (footers_cached_ v) (cookies_cached_ v) (path_pieces_cached_ v) (Lazy l true) (querystring v) (requestor_ip v).

Definition get_cookies_parsed : stx http_request (list cookie) := fun r =>
  let c := cookies_parsed_cached_ (views (impl r)) in
  if built c then (r, Ok (cached c))
  else match connection_ (impl r) with
  | None =>
      let l := cached c ++ ((fun kv => mk_cookie (fst kv) (snd kv) [] [] None None false false unset) <$> cookies_local (locals (impl r))) in
      (on_views (set_cookies_parsed l) r, Ok l)
  | Some conn =>
      let l := match lookup_connection_value conn MHD_HEADER_KIND (bs "Cookie") with
        | Some raw => parse_cookie_header raw | None => cached c end in
      (on_views (set_cookies_parsed l) r, Ok l)
  end.

(** [build_request_querystring] over the pairs. *)
Definition build_request_querystring (qs : bytes) (kv : bytes * option bytes) : bytes :=
  qs ++ (if is_empty qs then bs "?" else bs "&") ++ fst kv ++ bs "=" ++ default [] (snd kv).

Definition get_querystring : stx http_request bytes := fun r =>
  let q := querystring (views (impl r)) in
  if built q then (r, Ok (cached q))
  else
    let qs := match connection_ (impl r) with
      | Some c => foldl build_request_querystring (cached q) (connection_values c MHD_GET_ARGUMENT_KIND)
      | None => cached q
      end in
    (on_views (fun v => Views (headers_cached_ v) (footers_cached_ v) (cookies_cached_ v) (path_pieces_cached_ v)
       (cookies_parsed_cached_ v) (Lazy qs true) (requestor_ip v)) r, Ok qs).

Definition get_requestor : stx http_request bytes := fun r =>
  let q := requestor_ip (views (impl r)) in
  match connection_ (impl r) with
  | None => (r, Ok (cached q))
  | Some c =>
      if built q then (r, Ok (cached q))
      else match client_addr c with
      | None => (r, Ok [])
      | Some addr =>
          (ip ← stx_lift (get_ip_str (inet_ntop c) addr);
           _ ← stx_modify (on_views (fun v => Views (headers_cached_ v) (footers_cached_ v) (cookies_cached_ v)
                 (path_pieces_cached_ v) (cookies_parsed_cached_ v) (querystring v) (Lazy ip true)));
           mret ip) r
      end
  end.

Definition get_requestor_port : stx http_request Z := fun r =>
  (r, match connection_ (impl r) with
      | None => Ok (requestor_port_local (locals (impl r)))
      | Some c => match client_addr c with None => Ok 0%Z | Some addr => get_port addr end
      end).

(** ** Credentials *)

Definition fetch_user_pass (r : http_request) : http_request :=
  match connection_ (impl r) with
  | None => r
  | Some c =>
      on_auth (fun a =>
        match basic_auth_info c with
        | Some (u, p) => Credentials u (default (password a) p) true (digested_user a)
        | None => Credentials (username a) (password a) true (digested_user a)
        end) r
  end.

Definition ensure_user_pass (r : http_request) : http_request :=
  if user_pass_fetched (auth (impl r)) then r
  else on_auth (fun a => Credentials (username a) (password a) true (digested_user a)) (fetch_user_pass r).

Definition get_user : stx http_request bytes := _ ← stx_modify ensure_user_pass; stx_gets (fun r => username (auth (impl r))).
Definition get_pass : stx http_request bytes := _ ← stx_modify ensure_user_pass; stx_gets (fun r => password (auth (impl r))).

Definition get_digested_user : stx http_request bytes := fun r =>
  let d := digested_user (auth (impl r)) in
  match connection_ (impl r) with
  | Some c =>
      if negb (is_empty d) then (r, Ok d)
      else
        let d := match digest_auth_username c with Some (Some u) => u | _ => [] end in
        (on_auth (fun a => Credentials (username a) (password a) (user_pass_fetched a) d) r, Ok d)
  | None => (r, Ok d)
  end.

(** ** Uploaded files *)

Definition get_file_info (key upload_file_name : bytes) (r : http_request) : file_info :=
  default new_file_info (files_ (impl r) !! key ≫= fun m => m !! upload_file_name).

Definition set_file_info (key upload_file_name : bytes) (f : file_info) : http_request -> http_request :=
  on_files (fun m => <[key := <[upload_file_name := f]> (default ∅ (m !! key))]> m).

(** [get_or_create_file_info]: the entry exists afterwards. *)
Definition get_or_create_file_info (key upload_file_name : bytes) (r : http_request) : http_request * file_info :=
  let f := get_file_info key upload_file_name r in (set_file_info key upload_file_name f r, f).

(** The destructor: the callback decides which files stay; without one, or when
    it throws, the file goes. *)
Definition should_delete (cleanup : nat -> bytes -> bytes -> file_info -> exn + bool) (r : http_request)
    (key fname : bytes) (f : file_info) : bool :=
  match file_cleanup_callback_ (impl r) with
  | Some cb => match cleanup cb key fname f with inr b => b | inl _ => true end
  | None => true
  end.

Definition destroy_request (cleanup : nat -> bytes -> bytes -> file_info -> exn + bool) (r : http_request) : gset bytes :=
  map_fold (fun key by_filename (removed : gset bytes) =>
    map_fold (fun fname f (removed : gset bytes) =>
      if should_delete cleanup r key fname f then {[ file_system_file_name f ]} ∪ removed else removed) removed by_filename)
    ∅ (files_ (impl r)).

(** ** Text form *)

Definition kRedacted : bytes := bs "<redacted>".

Definition iequal_ascii (a b : bytes) : bool :=
  bool_decide (length a = length b)
  && forallb (fun xy => http_header_toupper (fst xy) =? http_header_toupper (snd xy))%Z (zip a b).

Definition is_authorization_header_key (key : bytes) : bool :=
  iequal_ascii key (bs "Authorization") || iequal_ascii key (bs "Proxy-Authorization").

Definition quoted (s : bytes) : bytes := [DQUOTE] ++ s ++ [DQUOTE].

Definition dump_map_redacted (prefix : bytes) (value_for : bytes * bytes -> bytes) (m : header_map) : bytes :=
  if is_empty m then []
  else bs "    " ++ prefix ++ bs " [" ++ flat_map (fun kv => fst kv ++ bs ":" ++ quoted (value_for kv) ++ bs " ") m ++ bs "]" ++ [LF].

Definition dump_header_map (prefix : bytes) (m : header_map) : bytes := dump_map_redacted prefix snd m.

Definition dump_header_map_redacted (prefix : bytes) (m : header_map) : bytes :=
  dump_map_redacted prefix (fun kv => if is_authorization_header_key (fst kv) then kRedacted else snd kv) m.

Definition dump_cookie_map_redacted (prefix : bytes) (m : header_map) : bytes :=
  dump_map_redacted prefix (fun _ => kRedacted) m.

Definition dump_arg_map (prefix : bytes) (m : args_map) : bytes :=
  if is_empty m then []
  else bs "    " ++ prefix ++ bs " ["
    ++ flat_map (fun kv => fst kv ++ bs ":[" ++ join (bs ", ") (quoted <$> snd kv) ++ bs "] ") m ++ bs "]" ++ [LF].

(** [operator<<] *)
Definition print_request : stx http_request bytes :=
  expose ← stx_gets (fun r => expose_credentials_in_logs_ (impl r));
  pass ← (if expose : bool then get_pass else mret kRedacted);
  user ← get_user;
  m ← stx_gets method;
  p ← stx_gets path;
  headers ← get_headers;
  footers ← get_footers;
  cookies ← get_cookies;
  arg_map ← get_args;
  v ← stx_gets version;
  requestor ← get_requestor;
  port ← get_requestor_port;
  let dump_headers := if expose : bool then dump_header_map else dump_header_map_redacted in
  let dump_cookies := if expose : bool then dump_header_map else dump_cookie_map_redacted in
  mret (m ++ bs " Request [user:" ++ quoted user ++ bs " pass:" ++ quoted pass ++ bs "] path:" ++ quoted p ++ [LF]
    ++ dump_headers (bs "Headers") headers ++ dump_headers (bs "Footers") footers ++ dump_cookies (bs "Cookies") cookies
    ++ dump_arg_map (bs "Query Args") arg_map
    ++ bs "    Version [ " ++ v ++ bs " ] Requestor [ " ++ requestor ++ bs " ] Port [ " ++ dec port ++ bs " ]" ++ [LF]).

(** ** Test requests *)

Record create_test_request : Type := TestRequest {
  t_method : bytes;
  t_path : bytes;
  t_version : bytes;
  t_content : bytes;
  t_headers : header_map;
  t_footers : header_map;
  t_cookies : header_map;
  t_args : args_map;
  t_querystring : bytes;
  t_user : bytes;
  t_pass : bytes;
  t_digested_user : bytes;
  t_requestor : bytes;
  t_requestor_port : Z;
  t_tls_enabled : bool;
  t_expose : bool;
}.

Definition append_args (m : args_map) (kv : bytes * list bytes) : args_map :=
  update_arg (fun l => l ++ snd kv) (fst kv) m.

Definition build (t : create_test_request) : http_request :=
  let r := new_request None None in
  let r := request_set_method r (to_upper_copy (t_method t)) in
  let r := request_set_path r (t_path t) in
  let r := request_set_version r (t_version t) in
  let r := set_content r (t_content t) in
  let i := impl r in
  let i := Impl (connection_ i) (unescaper_ i) (file_cleanup_callback_ i) (files_ i)
    (Locals (t_headers t) (t_footers t) (t_cookies t) (t_requestor_port t) (t_tls_enabled t))
    (Credentials (t_user t) (t_pass t) (user_pass_fetched (auth i)) (t_digested_user t))
    (ArgState (foldl append_args (unescaped_args (args i)) (t_args t)) true (args_view_cached_ (args i)) (args_flat_view_cached_ (args i)))
    (Views (headers_cached_ (views i)) (footers_cached_ (views i)) (cookies_cached_ (views i)) (path_pieces_cached_ (views i))
       (cookies_parsed_cached_ (views i))
       (if is_empty (t_querystring t) then querystring (views i) else Lazy (t_querystring t) (built (querystring (views i))))
       (Lazy (t_requestor t) (built (requestor_ip (views i)))))
    (expose_credentials_in_logs_ i) in
  request_set_expose (Request (path r) (method r) (content r) (content_size_limit r) (version r) i) (t_expose t).

End Request.
Import Request.

(** The request of a connection, as dispatch uses it. *)
Definition connection_request (c : mhd_connection) : HttpRequest http_request := {|
  make_request u := new_request (Some c) u;
  set_file_cleanup_callback := request_set_file_cleanup_callback;
  set_expose_credentials_in_logs := request_set_expose;
  set_content_size_limit := request_set_content_size_limit;
  set_arg := request_set_arg;
  grow_content := request_grow_content;
  set_path := request_set_path;
  set_method := request_set_method;
  set_version := request_set_version;
  get_path := path;
  get_method := method;
|}.

Lemma connection_request_ok c : @HttpRequestOk http_request (connection_request c).
Proof. by constructor. Qed.
