(* ===== verification/RequestFacts.v ===== *)
(** * Facts about requests

    The argument accessors agree with each other and never index an empty
    vector; the limits on query arguments; the bound on the body; and what the
    text form of a request can reveal. *)

From S2P Require Import Prelude HttpUtils Cookie OrderedMap IpAddress PeerAddress HttpResponse Request.
Import HttpUtils.Unescape HttpUtils.HttpUtils Cookie.Cookie IpAddress.Ip HttpResponse.Response Request.Request.

#[export] Instance arg_comparator_strict_weak : StrictWeak arg_comparator.
Proof. unfold arg_comparator. apply COMPARATOR_strict_weak. Qed.

Lemma char_value_inj a b : char_value a = char_value b -> a = b.
Proof.
  unfold char_value. pose proof (code_range a). pose proof (code_range b). intros He. apply code_inj.
  destruct (code a <? 128)%Z eqn:E1, (code b <? 128)%Z eqn:E2; bool_prop; lia.
Qed.

(** Argument names are compared exactly. *)
Lemma arg_equiv x y : equivb arg_comparator x y = bool_decide (x = y).
Proof.
  change (equivb arg_comparator x y) with (equivb (COMPARATOR char_value) x y).
  rewrite COMPARATOR_equiv. apply bool_decide_ext. split; [|by intros ->].
  revert y. induction x as [|a x IH]; intros [|b y]; simpl; try done.
  intros [= Ha Hx]. f_equal; [by apply char_value_inj|by apply IH].
Qed.

(** ** Argument maps *)

#[local] Abbreviation args_map := (list (bytes * list bytes)).

(** Sorted, and every argument has a value. *)
Definition args_ok (m : args_map) : Prop := sorted arg_comparator m /\ Forall (fun kv => snd kv <> []) m.

Lemma find_update f key m k :
  sorted arg_comparator m ->
  arg_find k (update_arg f key m) = if decide (k = key) then Some (f (default [] (arg_find key m))) else arg_find k m.
Proof.
  intros Hs. unfold arg_find, update_arg. rewrite (map_find_insert arg_comparator) by done. rewrite arg_equiv.
  destruct (decide (k = key)) as [-> |Hne]; [by rewrite bool_decide_true|by rewrite bool_decide_false].
Qed.

Lemma insert_values_ok key (v : list bytes) (m : args_map) :
  v <> [] -> Forall (fun kv => snd kv <> []) m -> Forall (fun kv => snd kv <> []) (insert_or_assign arg_comparator key v m).
Proof.
  intros Hv. induction 1 as [|[k w] m Hw Hm IH]; simpl; [by repeat constructor|].
  destruct (arg_comparator k key); [by constructor|]. destruct (arg_comparator key k); by repeat (constructor; try done).
Qed.

Lemma update_ok f key m : (forall l, f l <> []) -> args_ok m -> args_ok (update_arg f key m).
Proof.
  intros Hf [Hs Hn]. split; [by apply insert_or_assign_sorted; [apply _|]|]. by apply insert_values_ok.
Qed.

Lemma append_ok key v m : args_ok m -> args_ok (append_arg m key v).
Proof. apply update_ok. by intros [|]. Qed.

Lemma args_find_nonempty m key l : args_ok m -> arg_find key m = Some l -> l <> [].
Proof.
  intros [_ Hn]. unfold arg_find. induction Hn as [|[k w] m Hw Hm IH]; simpl; [done|].
  destruct (arg_comparator k key); [done|]. destruct (arg_comparator key k); [done|]. by intros [= <-].
Qed.

Lemma update_length f key m :
  sorted arg_comparator m ->
  length (update_arg f key m) = length m + (match arg_find key m with Some _ => 0 | None => 1 end).
Proof.
  unfold update_arg, arg_find. generalize (f (default [] (map_find arg_comparator key m))). intros v.
  induction 1 as [|[k w] m Hm IH Hall]; simpl; [done|].
  destruct (arg_comparator k key) eqn:E1; simpl; [by rewrite IH|].
  destruct (arg_comparator key k); simpl; lia.
Qed.

(** ** Populating from the query string *)

(** The value of a query argument: decoded, or as the user's unescaper has it. *)
Definition decode_arg (u : option (bytes -> bytes)) (v : bytes) : bytes :=
  if is_empty v then [] else match u with Some f => f v | None => decode v end.

Lemma unescape_in_arena_ok v u : unescape_in_arena v u = Ok (decode_arg u v).
Proof.
  unfold unescape_in_arena, decode_arg. destruct v as [|c v]; [done|]. cbn [is_empty]. destruct u as [f|]; [done|].
  destruct (unescape_buf_raw_ok (c :: v)) as (d & n & -> & _ & _ & Ht). cbn [mbind outcome_bind].
  rewrite Ht. by rewrite drop_0.
Qed.

Definition add_pair (u : option (bytes -> bytes)) (m : args_map) (kv : bytes * option bytes) : args_map :=
  append_arg m (fst kv) (decode_arg u (default [] (snd kv))).

Definition add_pairs u (m : args_map) (l : list (bytes * option bytes)) : args_map := foldl (add_pair u) m l.

Definition pair_bytes (kv : bytes * option bytes) : Z :=
  (Z.of_nat (length (fst kv)) + Z.of_nat (length (default [] (snd kv))))%Z.

Definition pairs_bytes (l : list (bytes * option bytes)) : Z := foldr (fun kv n => pair_bytes kv + n)%Z 0%Z l.

Lemma add_pairs_ok u l m : args_ok m -> args_ok (add_pairs u m l).
Proof. revert m. induction l as [|kv l IH]; intros m Hm; [done|]. by apply IH, append_ok. Qed.

Lemma pair_bytes_nonneg kv : (0 <= pair_bytes kv)%Z.
Proof. unfold pair_bytes. lia. Qed.

Lemma pairs_bytes_nonneg l : (0 <= pairs_bytes l)%Z.
Proof. induction l as [|kv l IH]; simpl; [done|]. pose proof (pair_bytes_nonneg kv). lia. Qed.

Lemma pairs_bytes_app a b : pairs_bytes (a ++ b) = (pairs_bytes a + pairs_bytes b)%Z.
Proof. induction a as [|kv a IH]; simpl; [done|]. rewrite IH. lia. Qed.

(** One step of the iteration, the sizes fitting a [size_t]: the pair is added
    unless the map or the bytes would go over a limit. *)
Lemma build_step u n b m acc k v :
  args_ok m -> (Z.of_nat (length m) + 1 < 2 ^ 64)%Z -> (0 <= acc)%Z -> (acc + pair_bytes (k, v) < 2 ^ 64)%Z ->
  build_request_args u (Accumulator m n b acc) k v =
    Ok (if decide (Z.of_nat (length (add_pair u m (k, v))) <= n /\ acc + pair_bytes (k, v) <= b)%Z
        then Some (Accumulator (add_pair u m (k, v)) n b (acc + pair_bytes (k, v))) else None).
Proof.
  intros [Hs Hn] Hl Ha Hb. unfold build_request_args. cbn [arguments Request.Request.max_args_count Request.Request.max_args_bytes accumulated_bytes].
  unfold add_pair, append_arg. cbn [fst snd]. rewrite update_length by done. unfold pair_bytes in *. cbn [fst snd] in *.
  set (d := decode_arg u (default [] v)) in *.
  replace (wrap64 (Z.of_nat (length m) + (if match arg_find k m with Some _ => false | None => true end then 1 else 0)))
    with (Z.of_nat (length m + match arg_find k m with Some _ => 0 | None => 1 end)).
  2: { destruct (arg_find k m); rewrite wrap64_small; lia. }
  rewrite (wrap64_small (Z.of_nat (length k) + _)) by lia. rewrite wrap64_small by lia.
  case_decide as Hd; (destruct (n <? _)%Z eqn:E1; bool_prop; [first [lia|done]|]);
    (destruct (b <? _)%Z eqn:E2; bool_prop; [first [lia|done]|]); [|lia].
  by rewrite unescape_in_arena_ok.
Qed.

(** The iteration adds the longest prefix of the pairs that stays within the
    limits at every step, and stops at the first that does not. *)
Lemma iterate_ok u n b l m acc :
  args_ok m -> (Z.of_nat (length m) + Z.of_nat (length l) < 2 ^ 64)%Z -> (0 <= acc <= b)%Z ->
  (acc + pairs_bytes l < 2 ^ 64)%Z ->
  exists taken rest, l = taken ++ rest
    /\ iterate_args u l (Accumulator m n b acc) = Ok (Accumulator (add_pairs u m taken) n b (acc + pairs_bytes taken))
    /\ (taken = [] \/ Z.of_nat (length (add_pairs u m taken)) <= n)%Z /\ (acc + pairs_bytes taken <= b)%Z
    /\ (rest = [] \/ exists p rest', rest = p :: rest'
          /\ (n < Z.of_nat (length (add_pairs u m (taken ++ [p]))) \/ b < acc + pairs_bytes (taken ++ [p]))%Z).
Proof.
  revert m acc. induction l as [|[k v] l IH]; intros m acc Hm Hl Ha Hb.
  { exists [], []. rewrite Z.add_0_r. split_and!; auto; simpl; lia. }
  cbn [length pairs_bytes foldr] in Hl, Hb. fold (pairs_bytes l) in Hb. pose proof (pairs_bytes_nonneg l).
  pose proof (pair_bytes_nonneg (k, v)). cbn [iterate_args].
  rewrite build_step by (done || lia). cbn [mbind outcome_bind].
  case_decide as Hd.
  - assert (Hlen : length (add_pair u m (k, v)) <= length m + 1).
    { unfold add_pair, append_arg. rewrite update_length by apply Hm. destruct (arg_find _ _); lia. }
    destruct (IH (add_pair u m (k, v)) (acc + pair_bytes (k, v))%Z) as (taken & rest & -> & -> & Hn & Hbt & Hrest);
      [by apply append_ok|lia..|].
    exists ((k, v) :: taken), rest. cbn [pairs_bytes foldr app add_pairs foldl] in *.
    fold (pairs_bytes taken) (pairs_bytes (taken ++ rest)) in *. rewrite Z.add_assoc. split_and!; auto.
    + right. destruct Hn as [-> |Hn]; [apply Hd|exact Hn].
    + destruct Hrest as [?|(p & rest' & -> & Hp)]; [by left|right]. exists p, rest'. split; [done|].
      destruct Hp as [Hp|Hp]; [by left|right]. fold (pairs_bytes (taken ++ [p])) in *. lia.
  - exists [], ((k, v) :: l). rewrite Z.add_0_r. split_and!; auto; [simpl; lia|]. right. exists (k, v), l. split; [done|].
    cbn [app pairs_bytes foldr]. change (add_pairs u m [(k, v)]) with (add_pair u m (k, v)).
    destruct (decide (Z.of_nat (length (add_pair u m (k, v))) <= n)%Z); [right|left]; lia.
Qed.

(** ** Reachable requests *)

Lemma iterate_total u l aa :
  args_ok (arguments aa) -> exists aa', iterate_args u l aa = Ok aa' /\ args_ok (arguments aa').
Proof.
  revert aa. induction l as [|[k v] l IH]; intros aa Ha; [by exists aa|]. cbn [iterate_args]. unfold build_request_args.
  destruct (_ <? _)%Z; [by exists aa|]. destruct (_ <? _)%Z; [by exists aa|].
  rewrite unescape_in_arena_ok. cbn [mbind outcome_bind]. apply IH. by apply append_ok.
Qed.

(** The arguments are well formed, and a built view of them is current. *)
Definition request_ok (r : http_request) : Prop :=
  let a := args (impl r) in
  args_ok (unescaped_args a)
  /\ (built (args_view_cached_ a) = true -> cached (args_view_cached_ a) = unescaped_args a /\ args_populated a = true).

Lemma populate_ok r :
  request_ok r ->
  exists r', populate_args r = (r', Ok ()) /\ request_ok r' /\ args_populated (args (impl r')) = true
    /\ populate_args r' = (r', Ok ()).
Proof.
  intros Hr. pose proof Hr as [Ha Hv]. unfold populate_args. destruct (args_populated (args (impl r))) eqn:Ep.
  { exists r. rewrite Ep. split; [done|]. by split_and!. }
  assert (Hbuilt : built (args_view_cached_ (args (impl r))) = false)
    by (apply not_true_iff_false; intros Hb; destruct (Hv Hb); congruence).
  destruct (connection_ (impl r)) as [c|] eqn:Ec.
  - destruct (args_limits c) as [n b].
    destruct (iterate_total (unescaper_ (impl r)) (connection_values c MHD_GET_ARGUMENT_KIND)
      (Accumulator (unescaped_args (args (impl r))) n b 0) Ha) as (aa & -> & Haa).
    eexists. split; [done|]. split_and!; try done. split; [done|]. simpl. by rewrite Hbuilt.
  - eexists. split; [done|]. split_and!; try done. split; [done|]. simpl. by rewrite Hbuilt.
Qed.

(** What a program and the library do with a request.  [rq_other] is any
    operation on its other fields. *)
Inductive request_reach : http_request -> Prop :=
| rq_new c u : request_reach (new_request c u)
| rq_build t l : t_args t = foldl (fun m kv => append_arg m (fst kv) (snd kv)) [] l -> request_reach (build t)
| rq_other r r' : request_reach r -> args (impl r') = args (impl r) -> request_reach r'
| rq_set_arg r k v : request_reach r -> request_reach (request_set_arg r k v)
| rq_set_arg_sized r k v n : request_reach r -> request_reach (set_arg_sized r k v n)
| rq_set_arg_flat r k v : request_reach r -> request_reach (set_arg_flat r k v)
| rq_set_args r l : request_reach r -> request_reach (set_args r l)
| rq_grow_last_arg r k v : request_reach r -> request_reach (grow_last_arg r k v)
| rq_get_arg r k : request_reach r -> request_reach (fst (get_arg k r))
| rq_get_arg_flat r k : request_reach r -> request_reach (fst (get_arg_flat k r))
| rq_get_args r : request_reach r -> request_reach (fst (get_args r))
| rq_get_args_flat r : request_reach r -> request_reach (fst (get_args_flat r)).

Lemma change_args_ok f r : request_ok r -> (forall m, args_ok m -> args_ok (f m)) -> request_ok (change_args f r).
Proof. intros [Ha _] Hf. split; simpl; [by apply Hf|done]. Qed.

Lemma append_all_ok {A} (f : args_map -> A -> args_map) l m :
  (forall m x, args_ok m -> args_ok (f m x)) -> args_ok m -> args_ok (foldl f m l).
Proof. intros Hf. revert m. induction l as [|x l IH]; intros m Hm; [done|]. by apply IH, Hf. Qed.

Lemma append_args_ok l m : Forall (fun kv => snd kv <> []) l -> args_ok m -> args_ok (foldl append_args m l).
Proof.
  intros Hl. revert m. induction Hl as [|[k v] l Hv Hl IH]; intros m Hm; [done|]. apply IH. apply update_ok; [|done].
  intros [|]; [simpl; done|done].
Qed.

Lemma args_ok_nil : args_ok [].
Proof. split; constructor. Qed.

Lemma ensure_view_ok r : request_ok r -> args_populated (args (impl r)) = true ->
  request_ok (ensure_args_view_cached r)
  /\ cached (args_view_cached_ (args (impl (ensure_args_view_cached r)))) = unescaped_args (args (impl r)).
Proof.
  intros [Ha Hv] Hp. unfold ensure_args_view_cached, request_ok. simpl.
  destruct (built (args_view_cached_ (args (impl r)))) eqn:Eb; [|done]. destruct (Hv eq_refl). by rewrite Eb.
Qed.

Lemma ensure_flat_ok r : request_ok r -> request_ok (ensure_args_flat_view_cached r).
Proof.
  intros [Ha Hv]. unfold ensure_args_flat_view_cached, request_ok. simpl.
  by destruct (built (args_flat_view_cached_ (args (impl r)))).
Qed.

Lemma request_reach_ok r : request_reach r -> request_ok r.
Proof.
  induction 1 as [c u|t l Ht|r r' _ IH He|r k v _ IH|r k v n _ IH|r k v _ IH|r l _ IH|r k v _ IH|r k _ IH|r k _ IH|r _ IH|r _ IH];
    try (apply change_args_ok; [done|]; intros m Hm).
  - split; [apply args_ok_nil|done].
  - split; [|done]. apply append_args_ok; [|apply args_ok_nil]. rewrite Ht.
    apply (append_all_ok (fun m kv => append_arg m (fst kv) (snd kv)) l []); [intros; by apply append_ok|apply args_ok_nil].
  - unfold request_ok. by rewrite He.
  - by apply append_ok.
  - by apply append_ok.
  - by apply update_ok.
  - apply append_all_ok; [intros m0 kv Hm0; by apply append_ok|done].
  - apply update_ok; [|done]. intros l. destruct (last l); [|done]. by destruct (removelast l).
  - destruct (populate_ok r IH) as (r' & E & Hr & _). unfold get_arg, mbind, stx_bind. by rewrite E.
  - destruct (populate_ok r IH) as (r' & E & Hr & _). unfold get_arg_flat, mbind, stx_bind. by rewrite E.
  - destruct (populate_ok r IH) as (r' & E & Hr & Hp & _). unfold get_args, mbind, stx_bind. rewrite E. by apply ensure_view_ok.
  - destruct (populate_ok r IH) as (r' & E & Hr & _). unfold get_args_flat, mbind, stx_bind. rewrite E. by apply ensure_flat_ok.
Qed.

(** ** The theorems *)

(** C11: On any request a program can obtain, [get_arg], [get_arg_flat] and
    [get_args] agree: [get_args] holds for each name exactly the values [get_arg]
    returns, and [get_arg_flat] returns the first of them (the empty string when
    there is none) and never indexes an empty vector.  ([get_args_flat] may lag
    behind them: [flat_view_goes_stale].) *)
Theorem args_accessors_agree r key :
  request_reach r ->
  exists values m, snd (get_arg key r) = Ok values
    /\ snd (get_arg_flat key r) = Ok (get_flat_value values)
    /\ snd (get_args r) = Ok m
    /\ map_find arg_comparator key m = match values with [] => None | _ => Some values end.
Proof.
  intros Hr%request_reach_ok. destruct (populate_ok r Hr) as (r' & E & Hr' & Hp & _).
  set (m := unescaped_args (args (impl r'))). exists (default [] (arg_find key m)), m.
  unfold get_arg, get_arg_flat, get_args, mbind, stx_bind. rewrite E. split; [done|].
  assert (Hfind : match arg_find key m with Some [] => False | _ => True end).
  { destruct (arg_find key m) as [[|]|] eqn:Ef; [|done..]. by apply (args_find_nonempty m key [] (proj1 Hr') Ef). }
  split_and!.
  - unfold stx_get, stx_lift, first_value. fold m. by destruct (arg_find key m) as [[|]|].
  - simpl. f_equal. by apply (ensure_view_ok r').
  - fold (arg_find key m). by destruct (arg_find key m) as [[|]|].
Qed.

(** C12: The first use of the arguments adds to the ones already set the longest
    prefix of the query string that keeps the number of names and the bytes of
    names and values within the limits of the connection (64 names and 65536
    bytes unless configured); it stops at the first pair over a limit, and
    decodes each value. *)
Theorem populate_args_limited r c n b :
  request_reach r -> connection_ (impl r) = Some c -> args_populated (args (impl r)) = false ->
  args_limits c = (n, b) -> (0 <= b)%Z ->
  let m := unescaped_args (args (impl r)) in
  let pairs := connection_values c MHD_GET_ARGUMENT_KIND in
  (Z.of_nat (length m) + Z.of_nat (length pairs) < 2 ^ 64)%Z -> (pairs_bytes pairs < 2 ^ 64)%Z ->
  exists r' taken rest, populate_args r = (r', Ok ()) /\ pairs = taken ++ rest
    /\ unescaped_args (args (impl r')) = add_pairs (unescaper_ (impl r)) m taken
    /\ (taken = [] \/ Z.of_nat (length (unescaped_args (args (impl r')))) <= n)%Z
    /\ (pairs_bytes taken <= b)%Z
    /\ (rest = [] \/ exists p rest', rest = p :: rest'
          /\ (n < Z.of_nat (length (add_pairs (unescaper_ (impl r)) m (taken ++ [p]))) \/ b < pairs_bytes (taken ++ [p]))%Z).
Proof.
  intros Hr%request_reach_ok Hc Hp Hlim Hb0 m pairs Hl Hb. destruct Hr as [Ha _].
  destruct (iterate_ok (unescaper_ (impl r)) n b pairs m 0 Ha Hl ltac:(lia) ltac:(lia))
    as (taken & rest & Hpairs & Hit & Hn & Hbt & Hrest).
  unfold populate_args. rewrite Hp, Hc, Hlim. fold m pairs. rewrite Hit.
  eexists _, taken, rest. split; [done|]. by split_and!.
Qed.

(** The body a handler reads: whatever the chunks, it is the first
    [content_size_limit] bytes of their concatenation, and [content_too_large]
    tells whether the limit was reached. *)
Lemma bounded_app limit a b : (0 <= limit)%Z -> bounded limit (bounded limit a ++ b) = bounded limit (a ++ b).
Proof.
  intros Hl. unfold bounded. destruct (Z.leb_spec (Z.of_nat (length a)) limit) as [Ha|Ha]; [done|].
  assert (Hn : Z.to_nat limit <= length a) by lia. rewrite !length_app, length_take_le by done.
  destruct (Z.leb_spec (Z.of_nat (length a + length b)) limit); [lia|]. rewrite (take_app_le a b) by done.
  destruct (Z.leb_spec (Z.of_nat (Z.to_nat limit + length b)) limit) as [Hb|Hb].
  - assert (length b = 0) as ->%nil_length_inv by lia. apply app_nil_r.
  - rewrite take_app_le by (rewrite length_take_le by done; lia). by rewrite take_take, Nat.min_id.
Qed.

Lemma bounded_small limit a : (Z.of_nat (length a) <= limit)%Z -> bounded limit a = a.
Proof. intros Hl. unfold bounded. by rewrite (proj2 (Z.leb_le _ _) Hl). Qed.

Lemma bounded_length limit a : (0 <= limit)%Z -> Z.of_nat (length (bounded limit a)) = Z.min limit (Z.of_nat (length a)).
Proof. intros Hl. unfold bounded. destruct (Z.leb_spec (Z.of_nat (length a)) limit); [lia|]. rewrite length_take_le; lia. Qed.

Lemma grow_all chunks r :
  (0 <= content_size_limit r)%Z -> (Z.of_nat (length (content r)) <= content_size_limit r)%Z ->
  let r' := foldl request_grow_content r chunks in
  content r' = bounded (content_size_limit r) (content r ++ concat chunks) /\ content_size_limit r' = content_size_limit r.
Proof.
  intros Hl. revert r Hl. induction chunks as [|c chunks IH]; intros r Hl Hc; simpl.
  - by rewrite app_nil_r, bounded_small.
  - destruct (IH (request_grow_content r c)) as [E1 E2]; simpl; [done|rewrite bounded_length by done; lia|].
    rewrite E1, E2. split; [|done]. simpl. by rewrite bounded_app, <-app_assoc.
Qed.

(** A body of any chunks ends up as the first [content_size_limit] bytes of
    their concatenation, never longer, and [content_too_large] holds exactly
    when that many bytes were received. *)
Theorem content_is_bounded_prefix c u limit chunks :
  (0 <= limit)%Z ->
  let r := foldl request_grow_content (request_set_content_size_limit (new_request c u) limit) chunks in
  content r = bounded limit (concat chunks)
  /\ (Z.of_nat (length (content r)) <= limit)%Z
  /\ content_too_large r = (limit <=? Z.of_nat (length (concat chunks)))%Z.
Proof.
  intros Hl. set (r0 := request_set_content_size_limit _ _).
  destruct (grow_all chunks r0) as [E1 E2]; [done|simpl; lia|]. change (content r0 ++ concat chunks) with (concat chunks) in E1.
  change (content_size_limit r0) with limit in *. unfold content_too_large. cbn zeta. rewrite E1, E2.
  pose proof (bounded_length limit (concat chunks) Hl) as Hlen. rewrite Hlen. split_and!; [done|lia|].
  destruct (Z.leb_spec limit (Z.of_nat (length (concat chunks)))); [by apply Z.leb_le; lia|apply Z.leb_gt; lia].
Qed.

Definition sample_connection : mhd_connection := MhdConnection
  (fun k key => match k with
     | MHD_HEADER_KIND => if bytes_eqb key (bs "Cookie") then Some (bs "sid=s3cret") else None
     | _ => None end)
  (fun k => match k with
     | MHD_HEADER_KIND => [(bs "Cookie", Some (bs "sid=s3cret")); (bs "authorization", Some (bs "Basic dTpw"))]
     | MHD_COOKIE_KIND => [(bs "sid", Some (bs "s3cret"))]
     | MHD_GET_ARGUMENT_KIND => [(bs "id", Some (bs "a%20b")); (bs "x", None); (bs "id", Some (bs "c"))]
     | MHD_FOOTER_KIND => []
     end)
  (Some (2, 0)%Z) (Some (bs "u", Some (bs "p"))) None (Some (Some (AF_INET [127; 0; 0; 1]%Z (htons 80)))) (fun _ => bs "127.0.0.1").

Lemma args_accessors_agree_witness :
  exists values m, snd (get_arg (bs "id") (new_request (Some sample_connection) None)) = Ok values
    /\ snd (get_args (new_request (Some sample_connection) None)) = Ok m
    /\ map_find arg_comparator (bs "id") m = match values with [] => None | _ => Some values end.
Proof.
  destruct (args_accessors_agree (new_request (Some sample_connection) None) (bs "id") (rq_new _ _)) as (v & m & H1 & _ & H2 & H3).
  exists v, m. split; [exact H1|split; [exact H2|exact H3]].
Defined.

Lemma populate_args_limited_witness :
  exists r' taken rest, populate_args (new_request (Some sample_connection) None) = (r', Ok ())
    /\ connection_values sample_connection MHD_GET_ARGUMENT_KIND = taken ++ rest
    /\ unescaped_args (args (impl r')) = add_pairs None [] taken.
Proof.
  destruct (populate_args_limited (new_request (Some sample_connection) None) sample_connection 2 65536 (rq_new _ _)
    eq_refl eq_refl eq_refl ltac:(lia) ltac:(vm_compute; reflexivity) ltac:(vm_compute; reflexivity)) as (r' & t & l & H1 & H2 & H3 & _).
  exists r', t, l. split; [exact H1|split; [exact H2|exact H3]].
Defined.

Lemma content_is_bounded_prefix_witness :
  content (foldl request_grow_content (request_set_content_size_limit (new_request None None) 3) [bs "ab"; bs "cd"]) = bs "abc".
Proof. exact (proj1 (content_is_bounded_prefix None None 3 [bs "ab"; bs "cd"] ltac:(lia))). Defined.

(** ** What the text form reveals *)

Lemma iequal_ascii_map a b : iequal_ascii a b = bool_decide (map http_header_toupper a = map http_header_toupper b).
Proof.
  unfold iequal_ascii. revert b. induction a as [|x a IH]; intros [|y b]; simpl; try done.
  specialize (IH b). destruct (decide (length a = length b)) as [Hl|Hl].
  - rewrite bool_decide_true in IH by done. rewrite bool_decide_true by (by f_equal). simpl in *. rewrite IH.
    destruct (Z.eqb_spec (http_header_toupper x) (http_header_toupper y)) as [->|Hne]; simpl.
    + apply bool_decide_ext. split; [by intros ->|by intros [=]].
    + rewrite bool_decide_false; [done|]. by intros [=].
  - rewrite (bool_decide_false (S _ = S _)) by lia. rewrite bool_decide_false; [done|].
    intros [= _ Hm]. apply (f_equal length) in Hm. by rewrite !length_map in Hm.
Qed.

Lemma auth_key_equiv x y :
  equivb header_comparator x y = true -> is_authorization_header_key x = is_authorization_header_key y.
Proof.
  change (equivb header_comparator x y) with (equivb (COMPARATOR http_header_toupper) x y).
  rewrite COMPARATOR_equiv, bool_decide_eq_true. intros He. unfold is_authorization_header_key.
  by rewrite !iequal_ascii_map, He.
Qed.

(** Whether the values of cookies count as secret. *)
Section Redaction.
Context (cookies_too : bool).

(** The values that must not appear: the headers and footers that carry
    credentials, and the cookies. *)
Definition secret (k : value_kind) (key : bytes) : bool :=
  match k with MHD_COOKIE_KIND => cookies_too | _ => is_authorization_header_key key end.

Lemma secret_equiv k x y : equivb header_comparator x y = true -> secret k x = secret k y.
Proof. destruct k; simpl; try done; apply auth_key_equiv. Qed.

(** Equal up to secret values. *)
Definition sim_map (k : value_kind) : relation (list (bytes * bytes)) :=
  Forall2 (fun a b => fst a = fst b /\ (secret k (fst a) = false -> snd a = snd b)).

Definition sim_pairs (k : value_kind) : relation (list (bytes * option bytes)) :=
  Forall2 (fun a b => fst a = fst b /\
    match snd a, snd b with
    | Some x, Some y => secret k (fst a) = false -> x = y
    | None, None => True
    | _, _ => False
    end).

Record sim_connection (c1 c2 : mhd_connection) : Prop := {
  sc_values k : k <> MHD_GET_ARGUMENT_KIND -> sim_pairs k (connection_values c1 k) (connection_values c2 k);
  sc_args : connection_values c1 MHD_GET_ARGUMENT_KIND = connection_values c2 MHD_GET_ARGUMENT_KIND;
  sc_limits : socket_context c1 = socket_context c2;
  sc_user : fst <$> basic_auth_info c1 = fst <$> basic_auth_info c2;
  sc_addr : client_addr c1 = client_addr c2;
  sc_ntop : inet_ntop c1 = inet_ntop c2;
}.

Definition sim_lazy (k : value_kind) (a b : lazy (list (bytes * bytes))) : Prop :=
  built a = built b /\ sim_map k (cached a) (cached b).

(** A raw Cookie header, in the connection or the values of a test request. *)
Definition cookie_header (l : list bytes) : bool := existsb (fun key => iequal_ascii key (bs "Cookie")) l.

Definition carries_cookie_header (r : http_request) : bool :=
  match connection_ (impl r) with Some c => cookie_header (fst <$> connection_values c MHD_HEADER_KIND) | None => false end
  || cookie_header (fst <$> headers_local (locals (impl r))).

(** Two requests with the same public part, both printing redacted.  The cookies
    are secret only where no raw Cookie header repeats them. *)
Record public_eq (r1 r2 : http_request) : Prop := {
  pe_cookies : cookies_too = true -> carries_cookie_header r1 = false;
  pe_path : path r1 = path r2;
  pe_method : method r1 = method r2;
  pe_version : version r1 = version r2;
  pe_expose : expose_credentials_in_logs_ (impl r1) = false /\ expose_credentials_in_logs_ (impl r2) = false;
  pe_unescaper : unescaper_ (impl r1) = unescaper_ (impl r2);
  pe_args : args (impl r1) = args (impl r2);
  pe_user : username (auth (impl r1)) = username (auth (impl r2)) /\ user_pass_fetched (auth (impl r1)) = user_pass_fetched (auth (impl r2));
  pe_port : requestor_port_local (locals (impl r1)) = requestor_port_local (locals (impl r2));
  pe_ip : requestor_ip (views (impl r1)) = requestor_ip (views (impl r2));
  pe_local k m1 : local_map_for k r1 = Some m1 -> exists m2, local_map_for k r2 = Some m2 /\ sim_map k m1 m2;
  pe_views k : k <> MHD_GET_ARGUMENT_KIND -> sim_lazy k (headerlike k (views (impl r1))) (headerlike k (views (impl r2)));
  pe_connection : match connection_ (impl r1), connection_ (impl r2) with
    | Some c1, Some c2 => sim_connection c1 c2 | None, None => True | _, _ => False end;
}.

(** Operations whose outcomes depend on the public part only, up to [Q]. *)
Definition public2 {A} (Q : A -> A -> Prop) (f g : stx http_request A) : Prop :=
  forall r1 r2, public_eq r1 r2 ->
    match f r1, g r2 with
    | (s1, Ok a1), (s2, Ok a2) => public_eq s1 s2 /\ Q a1 a2
    | (_, Throw e1), (_, Throw e2) => e1 = e2
    | (_, Undefined), (_, Undefined) => True
    | _, _ => False
    end.
#[local] Abbreviation public Q f := (public2 Q f f).

Lemma public_bind {A B} (Q : A -> A -> Prop) (P : B -> B -> Prop) (f f' : stx http_request A) (g g' : A -> stx http_request B) :
  public2 Q f f' -> (forall a1 a2, Q a1 a2 -> public2 P (g a1) (g' a2)) -> public2 P (f ≫= g) (f' ≫= g').
Proof.
  intros Hf Hg r1 r2 Hr. specialize (Hf r1 r2 Hr). unfold mbind, stx_bind.
  destruct (f r1) as [s1 [a1|e1|]], (f' r2) as [s2 [a2|e2|]]; try done. destruct Hf as [Hs Ha]. by apply Hg.
Qed.

Lemma public_gets {A} (Q : A -> A -> Prop) (f : http_request -> A) :
  (forall r1 r2, public_eq r1 r2 -> Q (f r1) (f r2)) -> public Q (stx_gets f).
Proof. intros H r1 r2 Hr. by split; [|apply H]. Qed.

Lemma public_modify f : (forall r1 r2, public_eq r1 r2 -> public_eq (f r1) (f r2)) -> public eq (stx_modify f).
Proof. intros H r1 r2 Hr. by split; [apply H|]. Qed.

Lemma sim_insert k key v1 v2 m1 m2 :
  (secret k key = false -> v1 = v2) -> sim_map k m1 m2 ->
  sim_map k (insert_or_assign header_comparator key v1 m1) (insert_or_assign header_comparator key v2 m2).
Proof.
  intros Hv. induction 1 as [|[k1 w1] [k2 w2] m1 m2 [Hk Hw] Hm IH]; simpl in *; [repeat constructor; done|]. subst k2.
  destruct (header_comparator k1 key) eqn:E1; [by constructor|].
  destruct (header_comparator key k1) eqn:E2; constructor; simpl; try done; [constructor; done|]. split; [done|].
  intros Hs. apply Hv. rewrite <-Hs. symmetry. apply secret_equiv. unfold equivb. by rewrite E1, E2.
Qed.

Lemma sim_build k l1 l2 m1 m2 :
  sim_pairs k l1 l2 -> sim_map k m1 m2 ->
  match build_request_headers l1 m1, build_request_headers l2 m2 with
  | Ok a, Ok b => sim_map k a b
  | Undefined, Undefined => True
  | _, _ => False
  end.
Proof.
  intros Hl. revert m1 m2. induction Hl as [|[k1 v1] [k2 v2] l1 l2 [Hk Hv] Hl IH]; intros m1 m2 Hm; simpl in *; [done|].
  subst k2. destruct v1, v2; try done. apply IH. by apply sim_insert.
Qed.

Lemma public_on_args f r1 r2 : public_eq r1 r2 -> public_eq (on_args f r1) (on_args f r2).
Proof. intros []. constructor; simpl; congruence || done. Qed.

Lemma public_populate : public eq populate_args.
Proof.
  intros r1 r2 Hr. pose proof (pe_args _ _ Hr) as Ha. pose proof (pe_connection _ _ Hr) as Hc. pose proof (pe_unescaper _ _ Hr) as Hu.
  unfold populate_args. rewrite <-Ha. destruct (args_populated _); [done|].
  destruct (connection_ (impl r1)) as [c1|], (connection_ (impl r2)) as [c2|]; try done.
  - unfold args_limits. rewrite <-(sc_limits _ _ Hc), <-(sc_args _ _ Hc), <-Hu.
    destruct (match socket_context c1 with Some _ => _ | None => _ end) as [n b].
    destruct (iterate_args _ _ _) as [aa|e|]; [|done..]. split; [|done]. by apply public_on_args.
  - split; [|done]. by apply public_on_args.
Qed.

Lemma public_get_args : public eq get_args.
Proof.
  unfold get_args. eapply public_bind; [apply public_populate|]. intros [] [] _. eapply public_bind.
  - apply public_modify. intros r1 r2 Hr. by apply public_on_args.
  - intros [] [] _. apply public_gets. intros r1 r2 Hr. by rewrite (pe_args _ _ Hr).
Qed.

Lemma public_get_user : public eq get_user.
Proof.
  unfold get_user. eapply public_bind; [apply public_modify|].
  - intros r1 r2 Hr. pose proof (pe_user _ _ Hr) as [Hu Hf]. pose proof (pe_connection _ _ Hr) as Hc.
    unfold ensure_user_pass. rewrite <-Hf. destruct (user_pass_fetched _); [done|]. unfold fetch_user_pass.
    destruct (connection_ (impl r1)) as [c1|], (connection_ (impl r2)) as [c2|]; try done.
    + pose proof (sc_user _ _ Hc) as Hs. destruct Hr. constructor; simpl; try done.
      destruct (basic_auth_info c1) as [[u1 p1]|], (basic_auth_info c2) as [[u2 p2]|]; simpl in *; by simplify_eq.
    + destruct Hr. by constructor.
  - intros [] [] _. apply public_gets. intros r1 r2 Hr. apply (pe_user _ _ Hr).
Qed.

Lemma headerlike_set k k' c v : headerlike k' (set_headerlike k c v) =
  match k, k' with
  | MHD_FOOTER_KIND, MHD_FOOTER_KIND | MHD_COOKIE_KIND, MHD_COOKIE_KIND => c
  | MHD_FOOTER_KIND, _ | MHD_COOKIE_KIND, _ => headerlike k' v
  | _, MHD_HEADER_KIND | _, MHD_GET_ARGUMENT_KIND => c
  | _, _ => headerlike k' v
  end.
Proof. by destruct k, k'. Qed.

Lemma public_headerlike k : k <> MHD_GET_ARGUMENT_KIND -> public (sim_map k) (ensure_headerlike_cache k).
Proof.
  intros Hk r1 r2 Hr. pose proof (pe_views _ _ Hr k Hk) as [Hb Hm]. pose proof (pe_connection _ _ Hr) as Hc.
  unfold ensure_headerlike_cache. rewrite <-Hb. destruct (built _); [done|].
  set (p1 := match connection_ (impl r1) with Some _ => _ | None => _ end).
  set (p2 := match connection_ (impl r2) with Some _ => _ | None => _ end).
  assert (Hp : sim_pairs k p1 p2).
  { unfold p1, p2. destruct (connection_ (impl r1)) as [c1|], (connection_ (impl r2)) as [c2|]; try done; [by apply Hc|].
    destruct (local_map_for k r1) as [m1|] eqn:E1; [|by destruct k].
    destruct (pe_local _ _ Hr k m1 E1) as (m2 & -> & Hsim). simpl. unfold sim_pairs. apply Forall2_fmap.
    eapply Forall2_impl; [exact Hsim|]. by intros [] []. }
  clearbody p1 p2. pose proof (sim_build k p1 p2 _ _ Hp Hm) as Hsb.
  destruct (build_request_headers p1 _) as [m1|e1|], (build_request_headers p2 _) as [m2|e2|]; try done.
  split; [|done]. destruct Hr. constructor; simpl; try done.
  - by destruct k.
  - intros k' Hk'. rewrite !headerlike_set. destruct k, k'; try done; by apply pe_views0.
Qed.

Lemma public_requestor : public eq get_requestor.
Proof.
  intros r1 r2 Hr. pose proof (pe_ip _ _ Hr) as Hip. pose proof (pe_connection _ _ Hr) as Hc. unfold get_requestor. rewrite <-Hip.
  destruct (connection_ (impl r1)) as [c1|], (connection_ (impl r2)) as [c2|]; try done.
  destruct (built _); [done|]. rewrite <-(sc_addr _ _ Hc), <-(sc_ntop _ _ Hc). destruct (client_addr c1) as [addr|]; [|done].
  unfold mbind, stx_bind, stx_lift. destruct (get_ip_str _ addr); [|done..].
  split; [|done]. destruct Hr. constructor; simpl; try done.
Qed.

Lemma public_requestor_port : public eq get_requestor_port.
Proof.
  intros r1 r2 Hr. pose proof (pe_connection _ _ Hr) as Hc. unfold get_requestor_port.
  destruct (connection_ (impl r1)) as [c1|], (connection_ (impl r2)) as [c2|]; try done.
  - rewrite (sc_addr _ _ Hc). destruct (client_addr c2) as [addr|]; [|done]. by destruct (get_port addr).
  - split; [done|]. apply Hr.
Qed.

(** The port of the requestor is the one in the socket address, in network
    order: on a little-endian machine the peer's port with its bytes swapped,
    while the hooks get the peer's port from [make_peer_address]. *)
Theorem requestor_port_not_host_order r c a p :
  (0 <= p < 65536)%Z -> connection_ (impl r) = Some c -> client_addr c = Some (Some (AF_INET a (htons p))) ->
  snd (get_requestor_port r) = Ok (htons p) /\ Peer.port (Peer.make_peer_address (Some (AF_INET a (htons p)))) = p.
Proof.
  intros Hp Hc Ha. unfold get_requestor_port. rewrite Hc, Ha. split; [done|]. by apply htons_involutive.
Qed.

Lemma sim_dump_headers prefix k m1 m2 :
  k = MHD_HEADER_KIND \/ k = MHD_FOOTER_KIND -> sim_map k m1 m2 -> dump_header_map_redacted prefix m1 = dump_header_map_redacted prefix m2.
Proof.
  intros Hk Hm. unfold dump_header_map_redacted, dump_map_redacted. assert (Hs : forall key, secret k key = is_authorization_header_key key) by (by destruct Hk; subst).
  assert (He : is_empty m1 = is_empty m2) by (by destruct Hm). rewrite He. destruct (is_empty m2); [done|]. do 3 f_equal.
  f_equal. clear He. induction Hm as [|[k1 v1] [k2 v2] m1 m2 [Hkk Hv] Hm IH]; simpl in *; [done|]. subst k2. rewrite Hs in Hv.
  destruct (is_authorization_header_key k1); [|rewrite Hv by done]; by rewrite IH.
Qed.

Lemma sim_dump_cookies prefix m1 m2 :
  sim_map MHD_COOKIE_KIND m1 m2 -> dump_cookie_map_redacted prefix m1 = dump_cookie_map_redacted prefix m2.
Proof.
  intros Hm. unfold dump_cookie_map_redacted, dump_map_redacted.
  assert (He : is_empty m1 = is_empty m2) by (by destruct Hm). rewrite He. destruct (is_empty m2); [done|]. do 4 f_equal.
  clear He. induction Hm as [|[k1 v1] [k2 v2] m1 m2 [Hkk Hv] Hm IH]; simpl in *; [done|]. subst k2. by rewrite IH.
Qed.

Lemma public_print : public eq print_request.
Proof.
  unfold print_request.
  eapply (public_bind (fun a b => a = false /\ b = false)); [apply public_gets; intros r1 r2 Hr; apply Hr|].
  intros ? ? [-> ->]. eapply (public_bind eq); [by intros r1 r2 Hr|]. intros pass ? <-.
  eapply public_bind; [apply public_get_user|]. intros user ? <-.
  eapply (public_bind eq); [apply public_gets; intros r1 r2 Hr; apply Hr|]. intros m ? <-.
  eapply (public_bind eq); [apply public_gets; intros r1 r2 Hr; apply Hr|]. intros p ? <-.
  eapply public_bind; [by apply (public_headerlike MHD_HEADER_KIND)|]. intros h1 h2 Hh.
  eapply public_bind; [by apply (public_headerlike MHD_FOOTER_KIND)|]. intros f1 f2 Hf.
  eapply public_bind; [by apply (public_headerlike MHD_COOKIE_KIND)|]. intros c1 c2 Hc.
  eapply public_bind; [apply public_get_args|]. intros a ? <-.
  eapply (public_bind eq); [apply public_gets; intros r1 r2 Hr; apply Hr|]. intros v ? <-.
  eapply public_bind; [apply public_requestor|]. intros q ? <-.
  eapply public_bind; [apply public_requestor_port|].
  intros port ? <- r1 r2 Hr. split; [done|].
  rewrite (sim_dump_headers _ MHD_HEADER_KIND h1 h2), (sim_dump_headers _ MHD_FOOTER_KIND f1 f2), (sim_dump_cookies _ c1 c2) by auto.
  done.
Qed.

End Redaction.

(** C14: The text of a request that prints redacted does not depend on its
    secrets: two requests that agree on everything but the password and the
    values of the Authorization and Proxy-Authorization headers and footers
    print the same text (or both fail the same way); where the request carries
    no raw Cookie header, the values of its cookies may differ as well. *)
Theorem print_request_redacts cookies_too r1 r2 :
  public_eq cookies_too r1 r2 -> snd (print_request r1) = snd (print_request r2).
Proof.
  intros Hr. pose proof (public_print cookies_too r1 r2 Hr) as Hp.
  destruct (print_request r1) as [s1 [a1|e1|]], (print_request r2) as [s2 [a2|e2|]]; try done;
    simpl; [by destruct Hp as [_ ->]|by f_equal].
Qed.

(** The same connection with another password. *)
Definition other_connection : mhd_connection := MhdConnection
  (lookup_connection_value sample_connection)
  (fun k => match k with
     | MHD_HEADER_KIND => [(bs "Cookie", Some (bs "sid=s3cret")); (bs "authorization", Some (bs "Basic dTpx"))]
     | _ => connection_values sample_connection k
     end)
  (Some (2, 0)%Z) (Some (bs "u", Some (bs "q"))) None (Some (Some (AF_INET [127; 0; 0; 1]%Z (htons 80)))) (fun _ => bs "127.0.0.1").

(** A test request with a session cookie and no Cookie header. *)
Definition session_request (sid pass : bytes) : http_request :=
  build (TestRequest (bs "GET") (bs "/") (bs "HTTP/1.1") [] [(bs "Accept", bs "*")] [] [(bs "sid", sid)] [] [] (bs "u") pass [] (bs "127.0.0.1") 80 false false).

Lemma print_request_redacts_witness :
  (is_ok (snd (print_request (new_request (Some sample_connection) None))) = true
   /\ snd (print_request (new_request (Some sample_connection) None)) = snd (print_request (new_request (Some other_connection) None)))
  /\ snd (print_request (session_request (bs "s3cret") (bs "p"))) = snd (print_request (session_request (bs "other") (bs "q"))).
Proof.
  split; [split; [vm_compute; reflexivity|]|].
  - apply (print_request_redacts false). constructor; simpl; try done.
    + intros k m1 Hm. exists []. destruct k; simpl in *; simplify_eq; (split; [done|constructor]).
    + intros k Hk. split; destruct k; try done; constructor.
    + constructor; simpl; try done. intros k Hk. destruct k; try done; repeat constructor; try done.
  - apply (print_request_redacts true). constructor; simpl; try done.
    + intros k m1 Hm. destruct k; simpl in *; simplify_eq; (eexists; split; [done|repeat constructor; done]).
    + intros k Hk. split; destruct k; try done; constructor.
Defined.

(** The text of the sample request, which shows that the raw Cookie header is
    printed with the cookie value the Cookies line redacts. *)
Theorem cookie_header_printed :
  snd (print_request (request_set_path (request_set_method (new_request (Some sample_connection) None) (bs "GET")) (bs "/")))
  = Ok (bs "GET Request [user:" ++ quoted (bs "u") ++ bs " pass:" ++ quoted kRedacted ++ bs "] path:" ++ quoted (bs "/") ++ [LF]
     ++ bs "    Headers [Cookie:" ++ quoted (bs "sid=s3cret") ++ bs " authorization:" ++ quoted kRedacted ++ bs " ]" ++ [LF]
     ++ bs "    Cookies [sid:" ++ quoted kRedacted ++ bs " ]" ++ [LF]
     ++ bs "    Query Args [x:[" ++ quoted [] ++ bs "] id:[" ++ quoted (bs "a b") ++ bs ", " ++ quoted (bs "c") ++ bs "] ]" ++ [LF]
     ++ bs "    Version [  ] Requestor [ 127.0.0.1 ] Port [ 20480 ]" ++ [LF]).
Proof. by vm_compute. Qed.

(** A hook that reads the flat view before the route's captures are set freezes
    it: the handler does not see the capture there. *)
Theorem flat_view_goes_stale :
  let r := fst (get_args_flat (new_request (Some sample_connection) None)) in
  let r := request_set_arg r (bs "name") (bs "v") in
  snd (get_args_flat r) = Ok [(bs "x", []); (bs "id", bs "a b")]
  /\ snd (get_arg_flat (bs "name") r) = Ok (bs "v").
Proof. by vm_compute. Qed.

(** A hook that reads the path pieces before the path is set freezes them too. *)
Theorem path_pieces_go_stale :
  let r := fst (get_path_pieces (new_request (Some sample_connection) None)) in
  let r := request_set_path r (bs "/a/b") in
  snd (get_path_pieces r) = Ok [] /\ path r = bs "/a/b".
Proof. by vm_compute. Qed.

(** A negative index passes the bounds test of [get_path_piece]. *)
Theorem negative_piece_undefined :
  snd (get_path_piece (-1) (request_set_path (new_request None None) (bs "/a"))) = Undefined.
Proof. by vm_compute. Qed.

(** A form field that arrives in several pieces is not bounded by the content
    limit that bounds each of its pieces. *)
Theorem grown_arg_exceeds_limit :
  let r := request_set_content_size_limit (new_request None None) 2 in
  let r := grow_last_arg (request_set_arg r (bs "k") (bs "abc")) (bs "k") (bs "def") in
  snd (get_arg_flat (bs "k") r) = Ok (bs "abdef").
Proof. by vm_compute. Qed.
