(* ===== verification/Upload.v ===== *)
(** * Form fields and uploaded files

    [upload_pipeline.cpp] and the post iterator of [webserver_callbacks.cpp]:
    what the server does with each part of a form body, in memory and on disk.
    Shown here: uploads only ever touch files directly inside the upload
    directory, and what reaches a file is what the client sent for it. *)

From S2P Require Import Prelude HttpUtils Cookie OrderedMap HttpResponse Request RequestFacts.
Import HttpUtils.HttpUtils Request.Request.

(** The file system: what each call answers in a given state of the disk. *)
Class FileSystem := {
  can_unlink : gmap bytes bytes -> bytes -> bool;
  can_open : gmap bytes bytes -> bytes -> bool;
  (** how many bytes of a write reach the file *)
  written : gmap bytes bytes -> bytes -> bytes -> nat;
  (** the name [mkstemp] makes of a template *)
  mkstemp : gmap bytes bytes -> bytes -> option bytes;
}.

Module Upload.

Inductive file_upload_target_T : Type :=
| FILE_UPLOAD_MEMORY_ONLY
| FILE_UPLOAD_DISK_ONLY
| FILE_UPLOAD_MEMORY_AND_DISK.

#[export] Instance file_upload_target_eq_dec : EqDecision file_upload_target_T.
Proof. solve_decision. Defined.

(** The configuration of the pipeline. *)
Record upload_config : Type := UploadConfig {
  file_upload_target : file_upload_target_T;
  file_upload_dir : bytes;
  generate_random_filename_on_upload : bool;
}.

(** A [std::ofstream]: the file it has open, and [good()]. *)
Record ofstream : Type := Stream { opened : option bytes; good : bool }.

(** Closing a stream that is not open fails. *)
Definition close_stream (o : ofstream) : ofstream :=
  match opened o with Some _ => Stream None (good o) | None => Stream None false end.

(** The upload fields of [connection_context], its request, and the disk. *)
Record upload_state : Type := UploadState {
  up_request : http_request;
  upload_key : bytes;
  upload_filename : bytes;
  upload_ostrm : option ofstream;
  disk : gmap bytes bytes;
}.

Definition on_request (f : http_request -> http_request) (s : upload_state) : upload_state :=
  UploadState (f (up_request s)) (upload_key s) (upload_filename s) (upload_ostrm s) (disk s).
Definition on_stream (f : option ofstream -> option ofstream) (s : upload_state) : upload_state :=
  UploadState (up_request s) (upload_key s) (upload_filename s) (f (upload_ostrm s)) (disk s).
Definition on_disk (f : gmap bytes bytes -> gmap bytes bytes) (s : upload_state) : upload_state :=
  UploadState (up_request s) (upload_key s) (upload_filename s) (upload_ostrm s) (f (disk s)).

Definition is_open (o : option ofstream) : bool :=
  match o with Some (Stream (Some _) _) => true | _ => false end.

Definition good_stream (o : option ofstream) : bool :=
  match o with Some o => good o | None => false end.

(** [file_info]'s setters *)
Definition set_file_system_file_name (n : bytes) (f : file_info) : file_info :=
  FileInfo (file_size f) n (content_type f) (transfer_encoding f).
Definition set_content_type (t : bytes) (f : file_info) : file_info :=
  FileInfo (file_size f) (file_system_file_name f) t (transfer_encoding f).
Definition set_transfer_encoding (t : bytes) (f : file_info) : file_info :=
  FileInfo (file_size f) (file_system_file_name f) (content_type f) t.
Definition grow_file_size (n : Z) (f : file_info) : file_info :=
  FileInfo (wrap64 (file_size f + n)) (file_system_file_name f) (content_type f) (transfer_encoding f).

Definition upload_filename_template : bytes := bs "libhttpserver.XXXXXX".

(** What a call of the pipeline reports, or the exception it lets out. *)
Inductive upload_answer : Type := MHD_YES | MHD_NO | generateFilenameException.

#[export] Instance upload_answer_eq_dec : EqDecision upload_answer.
Proof. solve_decision. Defined.

(** What the post-processor of libmicrohttpd reports for one piece of one part
    of the body: a null file name is a plain field. *)
Record part : Type := Part {
  part_key : option bytes;
  part_filename : option bytes;
  part_content_type : option bytes;
  part_transfer_encoding : option bytes;
  part_data : bytes;
  part_off : Z;
}.

Section Upload.
Context `{FileSystem} (cfg : upload_config).

(** [unlink] *)
Definition unlink (path : bytes) (d : gmap bytes bytes) : gmap bytes bytes :=
  if can_unlink d path then delete path d else d.

(** A new [std::ofstream] opened for appending creates the file. *)
Definition open_append (path : bytes) (d : gmap bytes bytes) : ofstream * gmap bytes bytes :=
  if can_open d path
  then (Stream (Some path) true, match d !! path with Some _ => d | None => <[path := []]> d end)
  else (Stream None false, d).

(** [write]: on a stream that is not open it fails. *)
Definition write_stream (data : bytes) (s : upload_state) : upload_state :=
  match upload_ostrm s with
  | Some (Stream (Some path) g) =>
      let n := written (disk s) path data in
      on_stream (fun _ => Some (Stream (Some path) (g && (length data <=? n))))
        (on_disk (fun d => <[path := default [] (d !! path) ++ take n data]> d) s)
  | Some (Stream None _) => on_stream (fun _ => Some (Stream None false)) s
  | None => s
  end.

(** [generate_random_upload_filename]; [None] is the exception. *)
Definition generate_random_upload_filename (directory : bytes) (d : gmap bytes bytes)
    : gmap bytes bytes * option bytes :=
  match mkstemp d (directory ++ bs "/" ++ upload_filename_template) with
  | Some name => (<[name := []]> d, Some name)
  | None => (d, None)
  end.

Definition handle_post_form_arg (key : option bytes) (data : bytes) (off : Z) (s : upload_state) : upload_state :=
  match key with
  | None => s
  | Some key =>
      if (0 <? off)%Z then on_request (fun r => grow_last_arg r key data) s
      else on_request (fun r => request_set_arg r key data) s
  end.

Definition describe (ctype encoding : option bytes) (file : file_info) : file_info :=
  let file := match ctype with Some t => set_content_type t file | None => file end in
  match encoding with Some t => set_transfer_encoding t file | None => file end.

(** The file information once set up, or why it is not. *)
Definition setup_new_upload_file_info (file : file_info) (filename : bytes) (ctype encoding : option bytes)
    (d : gmap bytes bytes) : gmap bytes bytes * (upload_answer + file_info) :=
  let '(d, name) :=
    if generate_random_filename_on_upload cfg then
      let '(d, name) := generate_random_upload_filename (file_upload_dir cfg) d in
      (d, match name with Some n => inr n | None => inl generateFilenameException end)
    else
      let safe_name := sanitize_upload_filename filename in
      (d, if is_empty safe_name then inl MHD_NO else inr (file_upload_dir cfg ++ bs "/" ++ safe_name)) in
  match name with
  | inl e => (d, inl e)
  | inr name =>
      (unlink name d, inr (describe ctype encoding (set_file_system_file_name name file)))
  end.

Definition manage_upload_stream (filename key : bytes) (file : file_info) (s : upload_state) : upload_state :=
  let s :=
    if is_empty (upload_filename s) || is_empty (upload_key s)
       || negb (bytes_eqb filename (upload_filename s)) || negb (bytes_eqb key (upload_key s))
    then on_stream (fmap close_stream) s else s in
  if is_open (upload_ostrm s) then s
  else
    let '(o, d) := open_append (file_system_file_name file) (disk s) in
    UploadState (up_request s) key filename (Some o) d.

(** The rest of [process_file_upload] once the file has a name. *)
Definition append_upload (key filename data : bytes) (file : file_info) (s : upload_state) : upload_state * upload_answer :=
  let s := on_request (set_file_info key filename file) s in
  let s := manage_upload_stream filename key file s in
  let s := if is_empty data then s else write_stream data s in
  if negb (is_empty data) && negb (good_stream (upload_ostrm s)) then (s, MHD_NO)
  else (on_request (set_file_info key filename (grow_file_size (Z.of_nat (length data)) file)) s, MHD_YES).

Definition process_file_upload (key filename : bytes) (ctype encoding : option bytes) (data : bytes) (s : upload_state)
    : upload_state * upload_answer :=
  let '(r, file) := get_or_create_file_info key filename (up_request s) in
  let s := on_request (fun _ => r) s in
  let '(s, file) :=
    if is_empty (file_system_file_name file) then
      let '(d, o) := setup_new_upload_file_info file filename ctype encoding (disk s) in
      (on_disk (fun _ => d) s, o)
    else (s, inr file) in
  match file with
  | inl answer => (s, answer)
  | inr file => append_upload key filename data file s
  end.

(** The in-memory copy: the first value of the argument, extended. *)
Definition store_in_memory (key : option bytes) (data : bytes) : stx upload_state unit := fun s =>
  match key with
  | None => (s, Undefined)
  | Some key =>
      let '(r, v) := get_arg key (up_request s) in
      match v with
      | Ok values => (on_request (fun _ => set_arg_flat r key (get_flat_value values ++ data)) s, Ok ())
      | Throw e => (on_request (fun _ => r) s, Throw e)
      | Undefined => (s, Undefined)
      end
  end.

(** A null key would be turned into a [std::string]. *)
Definition store_on_disk (key : option bytes) (filename : bytes) (ctype encoding : option bytes) (data : bytes)
    : stx upload_state upload_answer := fun s =>
  match key with
  | None => (s, Undefined)
  | Some key =>
      let '(s, a) := process_file_upload key filename ctype encoding data s in
      (s, Ok (match a with generateFilenameException => MHD_NO | a => a end))
  end.

Definition iterate_file (key : option bytes) (filename : bytes) (ctype encoding : option bytes) (data : bytes)
    : stx upload_state upload_answer :=
  _ ← (if bool_decide (file_upload_target cfg <> FILE_UPLOAD_DISK_ONLY) then store_in_memory key data else mret ());
  if negb (is_empty filename) && bool_decide (file_upload_target cfg <> FILE_UPLOAD_MEMORY_ONLY)
  then store_on_disk key filename ctype encoding data
  else mret MHD_YES.

Definition post_iterator (p : part) : stx upload_state upload_answer :=
  match part_filename p with
  | None => fun s => (handle_post_form_arg (part_key p) (part_data p) (part_off p) s, Ok MHD_YES)
  | Some filename => iterate_file (part_key p) filename (part_content_type p) (part_transfer_encoding p) (part_data p)
  end.

(** [MHD_post_process]: the pieces of one chunk, until the iterator refuses one. *)
Fixpoint post_process (l : list part) : stx upload_state upload_answer :=
  match l with
  | [] => mret MHD_YES
  | p :: l =>
      a ← post_iterator p;
      match a with MHD_YES => post_process l | a => mret a end
  end.

(** [run_post_processor_if_attached], a post-processor being attached; its
    answer is ignored. *)
Definition run_post_processor (l : list part) : stx upload_state unit :=
  _ ← post_process l;
  stx_modify (on_stream (fun o => if is_open o then close_stream <$> o else o)).

(** The body of a request, chunk by chunk. *)
Fixpoint run_body (chunks : list (list part)) : stx upload_state unit :=
  match chunks with
  | [] => mret ()
  | l :: chunks => _ ← run_post_processor l; run_body chunks
  end.

End Upload.

(** The state when the body begins. *)
Definition new_upload (r : http_request) (d : gmap bytes bytes) : upload_state := UploadState r [] [] None d.

End Upload.
Import Upload.

(** ** What the pipeline touches *)

(** A file directly inside the directory. *)
Definition in_dir (dir path : bytes) : Prop :=
  exists b, path = dir ++ bs "/" ++ b /\ b <> [] /\ "/"%char ∉ b /\ b <> bs "." /\ b <> bs "..".

(** What the manual of [mkstemp] promises: the six last characters of the
    template are replaced, within the directory, by ones that name a new file. *)
Class MkstempOk `{FileSystem} : Prop :=
  mkstemp_spec d p n : mkstemp d (p ++ bs "XXXXXX") = Some n ->
    exists suffix, n = p ++ suffix /\ "/"%char ∉ suffix /\ d !! n = None.

Lemma get_set_file_info k f i k' f' r :
  get_file_info k' f' (set_file_info k f i r) = if decide (k' = k /\ f' = f) then i else get_file_info k' f' r.
Proof.
  unfold get_file_info, set_file_info. cbn [impl on_files on_impl files_].
  destruct (decide (k' = k)) as [->|Hk].
  - rewrite lookup_insert_eq. simpl. destruct (decide (f' = f)) as [->|Hf].
    + rewrite lookup_insert_eq. by rewrite decide_True.
    + rewrite lookup_insert_ne by done. rewrite decide_False by tauto. destruct (files_ (impl r) !! k); simpl; [done|].
      by rewrite lookup_empty.
  - rewrite lookup_insert_ne by done. by rewrite decide_False by tauto.
Qed.

Lemma get_or_create_keeps k f r k' f' :
  get_file_info k' f' (fst (get_or_create_file_info k f r)) = get_file_info k' f' r.
Proof. cbn [get_or_create_file_info fst]. rewrite get_set_file_info. case_decide as E; [by destruct E as [-> ->]|done]. Qed.

Lemma populate_files r : files_ (impl (fst (populate_args r))) = files_ (impl r).
Proof.
  unfold populate_args. destruct (args_populated _); [done|]. destruct (connection_ _); [|done].
  destruct (args_limits _). by destruct (iterate_args _ _ _).
Qed.

Lemma get_arg_files k r : files_ (impl (fst (get_arg k r))) = files_ (impl r).
Proof.
  unfold get_arg, mbind, stx_bind. rewrite <-(populate_files r). by destruct (populate_args r) as [r' [[]| |]].
Qed.

(** The files removed with a request are those of its table. *)
Lemma removed_names cleanup r p :
  p ∈ destroy_request cleanup r ->
  exists k m f i, files_ (impl r) !! k = Some m /\ m !! f = Some i /\ p = file_system_file_name i.
Proof.
  unfold destroy_request. generalize (files_ (impl r)). intros files. revert p.
  apply (map_fold_weak_ind (fun removed files => forall p, p ∈ removed ->
    exists k m f i, files !! k = Some m /\ m !! f = Some i /\ p = file_system_file_name i)).
  { intros p Hp. set_solver. }
  intros k m rest removed Hk Hremoved.
  assert (Hinner : forall p, p ∈ map_fold (fun fname f (removed : gset bytes) =>
      if should_delete cleanup r k fname f then {[ file_system_file_name f ]} ∪ removed else removed) removed m ->
    p ∈ removed \/ exists f i, m !! f = Some i /\ p = file_system_file_name i).
  { apply (map_fold_weak_ind (fun (acc : gset bytes) m => forall p, p ∈ acc ->
      p ∈ removed \/ exists f i, m !! f = Some i /\ p = file_system_file_name i)); [by left|].
    intros f i m' acc Hf IH p Hp. assert (Hp' : p = file_system_file_name i \/ p ∈ acc) by (destruct (should_delete _ _ _ _ _); set_solver).
    destruct Hp' as [->|Hp']; [right; exists f, i; by rewrite lookup_insert_eq|].
    destruct (IH p Hp') as [?|(f' & i' & Hf' & ->)]; [by left|right]. exists f', i'. rewrite lookup_insert_ne by congruence. done. }
  intros p [Hp|(f & i & Hf & ->)]%Hinner; [|exists k, m, f, i; by rewrite lookup_insert_eq].
  destruct (Hremoved p Hp) as (k' & m' & f & i & Hk' & Hrest). exists k', m', f, i. rewrite lookup_insert_ne by congruence. done.
Qed.

Section Confined.
Context `{FileSystem, !MkstempOk} (cfg : upload_config) (d0 : gmap bytes bytes).

#[local] Abbreviation inside := (in_dir (file_upload_dir cfg)).

Record confined (s : upload_state) : Prop := {
  cf_disk path : disk s !! path <> d0 !! path -> inside path;
  cf_files k f : let n := file_system_file_name (get_file_info k f (up_request s)) in n = [] \/ inside n;
  cf_stream path g : upload_ostrm s = Some (Stream (Some path) g) -> inside path;
}.

Lemma safe_name_inside filename :
  sanitize_upload_filename filename <> [] -> inside (file_upload_dir cfg ++ bs "/" ++ sanitize_upload_filename filename).
Proof.
  intros Hn. eexists. split; [done|]. split; [done|]. revert Hn. unfold sanitize_upload_filename.
  destruct (is_empty filename); [done|]. destruct (bool_decide _); [done|].
  destruct (basename_no_separator filename _ eq_refl) as [Hsep _]. set (b := match find_last_of _ _ with Some _ => _ | None => _ end) in *.
  destruct (is_empty b || bytes_eqb b (bs ".") || bytes_eqb b (bs "..")) eqn:E; [done|]. intros _. bool_prop.
  rewrite bytes_eqb_false in *. split_and!; try done. intros Hin. rewrite Forall_forall in Hsep.
  by apply (Hsep _ Hin), elem_of_cons; left.
Qed.

Lemma random_name_inside d n :
  mkstemp d (file_upload_dir cfg ++ bs "/" ++ upload_filename_template) = Some n -> inside n /\ d !! n = None.
Proof.
  replace (file_upload_dir cfg ++ bs "/" ++ upload_filename_template)
    with ((file_upload_dir cfg ++ bs "/" ++ bs "libhttpserver.") ++ bs "XXXXXX") by by rewrite <-!app_assoc.
  intros (suffix & -> & Hs & Hd)%mkstemp_spec. split; [|done]. exists (bs "libhttpserver." ++ suffix).
  rewrite <-!app_assoc. split_and!; try done. rewrite elem_of_app. intros [Hin|]; [|done].
  revert Hin. by apply (bool_decide_eq_false_1 ("/"%char ∈ bs "libhttpserver.")).
Qed.

Lemma describe_keeps ct te f :
  file_system_file_name (describe ct te f) = file_system_file_name f /\ file_size (describe ct te f) = file_size f.
Proof. by destruct ct, te. Qed.

(** The name is inside, and only its entry of the disk changes. *)
Lemma setup_inside file filename ct te d d' o :
  setup_new_upload_file_info cfg file filename ct te d = (d', o) ->
  match o with
  | inl a => a <> MHD_YES /\ d' = d
  | inr f => inside (file_system_file_name f) /\ file_system_file_name f <> [] /\ file_size f = file_size file
      /\ (forall path, path <> file_system_file_name f -> d' !! path = d !! path)
      /\ (can_unlink (if generate_random_filename_on_upload cfg then <[file_system_file_name f := []]> d else d) (file_system_file_name f) = true
          -> d' !! file_system_file_name f = None)
      /\ (if generate_random_filename_on_upload cfg then d !! file_system_file_name f = None
          else file_system_file_name f = file_upload_dir cfg ++ bs "/" ++ sanitize_upload_filename filename)
  end.
Proof.
  assert (Hne : forall n, inside n -> n <> []) by (by intros n (b & -> & _) [_ ?]%app_nil).
  unfold setup_new_upload_file_info, generate_random_upload_filename. destruct (generate_random_filename_on_upload cfg).
  - destruct (mkstemp _ _) as [n|] eqn:E; [|by intros [= <- <-]]. apply random_name_inside in E as [Hn Hd]. intros [= <- <-].
    destruct (describe_keeps ct te (set_file_system_file_name n file)) as [-> ->].
    cbn [file_system_file_name file_size set_file_system_file_name].
    unfold unlink. split_and!; auto.
    + intros path Hp. destruct (can_unlink _ _); [rewrite lookup_delete_ne by done|]; by rewrite lookup_insert_ne.
    + intros ->. apply lookup_delete_eq.
  - destruct (is_empty (sanitize_upload_filename filename)) eqn:E; [by intros [= <- <-]|]. apply is_empty_false in E.
    apply safe_name_inside in E as Hn. intros [= <- <-]. set (n := file_upload_dir cfg ++ _) in *.
    destruct (describe_keeps ct te (set_file_system_file_name n file)) as [-> ->].
    cbn [file_system_file_name file_size set_file_system_file_name].
    unfold unlink. split_and!; auto.
    + intros path Hp. destruct (can_unlink _ _); [by rewrite lookup_delete_ne|done].
    + intros ->. apply lookup_delete_eq.
Qed.


Lemma confined_request s g :
  confined s -> (forall k f, get_file_info k f (g (up_request s)) = get_file_info k f (up_request s)) -> confined (on_request g s).
Proof. intros [Hd Hf Hs] Hg. constructor; cbn [disk up_request upload_ostrm on_request]; [done| |done]. intros k f. rewrite Hg. apply Hf. Qed.

Lemma confined_info s k f i :
  confined s -> inside (file_system_file_name i) -> confined (on_request (set_file_info k f i) s).
Proof.
  intros [Hd Hf Hs] Hi. constructor; cbn [disk up_request upload_ostrm on_request]; [done| |done].
  intros k' f'. rewrite get_set_file_info. case_decide; [by right|apply Hf].
Qed.

Lemma confined_stream s o :
  confined s -> (forall path g, o = Some (Stream (Some path) g) -> inside path) -> confined (on_stream (fun _ => o) s).
Proof. intros [Hd Hf Hs] Ho. by constructor. Qed.

Lemma confined_close s : confined s -> confined (on_stream (fmap close_stream) s).
Proof.
  intros Hs. apply (confined_stream s (close_stream <$> upload_ostrm s) Hs).
  destruct (upload_ostrm s) as [[[p|] g]|]; by intros path g'.
Qed.

(** Writing the entry of a path inside. *)
Lemma confined_disk s path d :
  confined s -> inside path -> (forall p, p <> path -> d !! p = disk s !! p) -> confined (on_disk (fun _ => d) s).
Proof.
  intros [Hd Hf Hs] Hp He. constructor; cbn [disk up_request upload_ostrm on_disk]; [|done..].
  intros p Hne. destruct (decide (p = path)) as [->|Hp']; [done|]. apply Hd. by rewrite <-(He p Hp').
Qed.

Lemma manage_confined filename key file s :
  confined s -> inside (file_system_file_name file) -> confined (manage_upload_stream filename key file s).
Proof.
  intros Hs Hp. unfold manage_upload_stream.
  set (s1 := if _ || _ then _ else s). assert (H1 : confined s1) by (unfold s1; case_match; [by apply confined_close|done]).
  clearbody s1. destruct (is_open (upload_ostrm s1)); [done|]. unfold open_append. destruct (can_open _ _).
  - destruct H1 as [Hd Hf Ho]. constructor; cbn [disk up_request upload_ostrm]; [|done|by intros path g [= <- <-]].
    intros path Hne. destruct (decide (path = file_system_file_name file)) as [->|Hne']; [done|]. apply Hd.
    destruct (disk s1 !! _); [done|]. by rewrite lookup_insert_ne in Hne.
  - destruct H1 as [Hd Hf Ho]. by constructor.
Qed.

Lemma write_confined data s : confined s -> confined (write_stream data s).
Proof.
  intros Hs. unfold write_stream. destruct (upload_ostrm s) as [[[p|] g]|] eqn:E; [|by apply confined_stream|done].
  assert (Hp : inside p) by by apply (cf_stream _ Hs p g).
  apply confined_stream; [|by intros path g' [= <- _]]. apply (confined_disk s p _ Hs Hp).
  intros q Hq. by rewrite lookup_insert_ne.
Qed.

Lemma append_confined key filename data file s :
  confined s -> inside (file_system_file_name file) -> confined (fst (append_upload key filename data file s)).
Proof.
  intros Hs Hi. unfold append_upload. cbv zeta. set (s2 := if is_empty data then _ else _).
  assert (H2 : confined s2).
  { unfold s2. destruct (is_empty data); [|apply write_confined]; by apply manage_confined; [apply confined_info|]. }
  clearbody s2. destruct (_ && _); [done|]. by apply confined_info.
Qed.

Lemma process_confined key filename ct te data s :
  confined s -> confined (fst (process_file_upload cfg key filename ct te data s)).
Proof.
  intros Hs. unfold process_file_upload. pose proof (get_or_create_keeps key filename (up_request s)) as Hk.
  destruct (get_or_create_file_info key filename (up_request s)) as [r file] eqn:E. cbn [fst] in Hk.
  assert (H1 : confined (on_request (fun _ => r) s)) by by apply confined_request.
  set (s1 := on_request (fun _ => r) s) in *.
  assert (Hfile : file_system_file_name file = [] \/ inside (file_system_file_name file)).
  { injection E as _ <-. apply (cf_files _ Hs). }
  clearbody s1. clear E Hk.
  destruct (is_empty (file_system_file_name file)) eqn:Ee.
  - destruct (setup_new_upload_file_info cfg file filename ct te (disk s1)) as [d o] eqn:Es.
    apply setup_inside in Es. destruct o as [a|f].
    + destruct Es as [_ ->]. by destruct s1.
    + destruct Es as (Hin & _ & _ & Hd & _). apply append_confined; [|done]. by apply (confined_disk s1 (file_system_file_name f)).
  - apply is_empty_false in Ee. destruct Hfile as [?|Hi]; [done|]. by apply append_confined.
Qed.

Lemma iterate_file_confined key filename ct te data s :
  confined s -> confined (fst (iterate_file cfg key filename ct te data s)).
Proof.
  intros Hs. unfold iterate_file. set (f := if bool_decide _ then _ else _).
  assert (H1 : confined (fst (f s))).
  { unfold f. case_bool_decide; [|done]. unfold store_in_memory. destruct key as [key|]; [|done].
    pose proof (get_arg_files key (up_request s)) as Hk. destruct (get_arg key (up_request s)) as [r o]. cbn [fst] in Hk.
    destruct o; [|..|done]; apply confined_request; try done; intros k' f'; unfold get_file_info; cbn [impl set_arg_flat change_args on_args on_impl files_]; by rewrite Hk. }
  unfold mbind, stx_bind. destruct (f s) as [s1 [[]| |]]; [|done..]. cbn [fst] in H1.
  destruct (_ && _); [|done]. unfold store_on_disk. destruct key as [key|]; [|done].
  pose proof (process_confined key filename ct te data s1 H1). by destruct (process_file_upload _ _ _ _ _ _ _).
Qed.

Lemma post_iterator_confined p s : confined s -> confined (fst (post_iterator cfg p s)).
Proof.
  intros Hs. unfold post_iterator. destruct (part_filename p); [by apply iterate_file_confined|].
  unfold handle_post_form_arg. destruct (part_key p); [|done]. destruct (0 <? _)%Z; by apply confined_request.
Qed.

Lemma run_body_confined chunks s : confined s -> confined (fst (run_body cfg chunks s)).
Proof.
  assert (Hpp : forall l s, confined s -> confined (fst (post_process cfg l s))).
  { intros l. induction l as [|p l IH]; intros s1 H1; [done|]. cbn [post_process]. unfold mbind, stx_bind.
    pose proof (post_iterator_confined p s1 H1). destruct (post_iterator cfg p s1) as [s2 [[]| |]]; try done. by apply IH. }
  revert s. induction chunks as [|l chunks IH]; intros s Hs; [done|]. cbn [run_body]. unfold run_post_processor, mbind, stx_bind.
  pose proof (Hpp l s Hs). destruct (post_process cfg l s) as [s1 [a| |]]; [|done..]. cbn [fst] in *.
  apply IH. change (confined (on_stream (fun o => if is_open o then close_stream <$> o else o) s1)).
  apply (confined_stream s1 (if is_open (upload_ostrm s1) then close_stream <$> upload_ostrm s1 else upload_ostrm s1)); [done|].
  destruct (upload_ostrm s1) as [[[q|] g]|] eqn:E; by intros path g'.
Qed.

Lemma destroyed_inside cleanup s p :
  confined s -> p ∈ destroy_request cleanup (up_request s) -> p = [] \/ inside p.
Proof.
  intros Hs (k & m & f & i & Hk & Hf & ->)%removed_names. pose proof (cf_files _ Hs k f) as Hn.
  unfold get_file_info in Hn. rewrite Hk in Hn. simpl in Hn. by rewrite Hf in Hn.
Qed.

(** C18: Whatever form a client sends, the server creates, changes and deletes only
    files directly inside the upload directory, while it receives the body and
    when the request is destroyed: no client file name, field name or chunking
    reaches another path, random names included. *)
Theorem uploads_stay_in_directory chunks r cleanup :
  files_ (impl r) = ∅ ->
  let s := fst (run_body cfg chunks (new_upload r d0)) in
  (forall path, disk s !! path <> d0 !! path -> inside path)
  /\ (forall path, path ∈ destroy_request cleanup (up_request s) -> path = [] \/ inside path).
Proof.
  intros Hr s. assert (Hs : confined s).
  { apply run_body_confined. constructor; [done| |done]. intros k f. left. unfold get_file_info. simpl. rewrite Hr. by rewrite lookup_empty. }
  split; [apply Hs|]. intros path. by apply destroyed_inside.
Qed.

End Confined.

(** ** What reaches a file *)

(** A disk on which no call fails. *)
Class ReliableDisk `{FileSystem} : Prop := {
  unlink_works d p : can_unlink d p = true;
  open_works d p : can_open d p = true;
  write_works d p data : length data <= written d p data;
  mkstemp_works d t : is_Some (mkstemp d t);
}.

Definition belongs (k f : bytes) (p : part) : bool := bool_decide (part_key p = Some k /\ part_filename p = Some f).

(** What the client sent as file [f] of field [k]. *)
Definition sent (l : list part) (k f : bytes) : bytes := concat (part_data <$> List.filter (belongs k f) l).

(** There is such a file, and it goes to the disk. *)
Definition stored (l : list part) (k f : bytes) : bool := negb (is_empty f) && existsb (belongs k f) l.

Lemma belongs_inj k f k' f' p : belongs k f p = true -> belongs k' f' p = true -> k' = k /\ f' = f.
Proof. unfold belongs. intros [E1 E2]%bool_decide_eq_true [E3 E4]%bool_decide_eq_true. split; congruence. Qed.

Lemma sent_snoc l p k f : sent (l ++ [p]) k f = sent l k f ++ (if belongs k f p then part_data p else []).
Proof.
  unfold sent. rewrite List.filter_app, fmap_app, concat_app. f_equal. simpl. destruct (belongs k f p); simpl; [apply app_nil_r|done].
Qed.

Lemma stored_snoc l p k f : stored (l ++ [p]) k f = stored l k f || negb (is_empty f) && belongs k f p.
Proof.
  unfold stored. rewrite existsb_app. simpl. rewrite orb_false_r. by destruct (is_empty f), (existsb _ _), (belongs k f p).
Qed.

Lemma sent_not_stored l k f : f <> [] -> stored l k f = false -> sent l k f = [].
Proof.
  intros Hf. unfold stored, sent. rewrite (proj2 (is_empty_false f) Hf). simpl. induction l as [|p l IH]; [done|]. simpl.
  destruct (belongs k f p); [done|]. apply IH.
Qed.

Section Complete.
Context `{FileSystem, !MkstempOk, !ReliableDisk} (cfg : upload_config).

#[local] Abbreviation random := (generate_random_filename_on_upload cfg).

(** Appending, on a reliable disk: an open stream of this very upload is reused,
    anything else is closed and the file opened again. *)
Lemma append_result key f data file s :
  let n := file_system_file_name file in
  (forall path g, upload_ostrm s = Some (Stream (Some path) g) -> upload_key s = key -> upload_filename s = f ->
     path = n /\ g = true /\ is_Some (disk s !! n)) ->
  append_upload key f data file s =
    (UploadState (set_file_info key f (grow_file_size (Z.of_nat (length data)) file) (set_file_info key f file (up_request s)))
       key f (Some (Stream (Some n) true)) (<[n := default [] (disk s !! n) ++ data]> (disk s)), MHD_YES).
Proof.
  intros n Hopen. unfold append_upload. cbv zeta.
  set (s1 := on_request (set_file_info key f file) s).
  assert (Hm : exists d, manage_upload_stream f key file s1 =
      UploadState (up_request s1) key f (Some (Stream (Some n) true)) d
      /\ d = match disk s !! n with Some _ => disk s | None => <[n := []]> (disk s) end).
  { unfold manage_upload_stream. set (s2 := if _ || _ then _ else s1).
    assert (H2 : up_request s2 = up_request s1 /\ disk s2 = disk s /\ (is_open (upload_ostrm s2) = true ->
      s2 = UploadState (up_request s1) key f (Some (Stream (Some n) true)) (disk s) /\ is_Some (disk s !! n))).
    { unfold s2. destruct (_ || _) eqn:E.
      - split_and!; [done..|]. cbn [on_stream upload_ostrm]. by destruct (upload_ostrm s1) as [[[p|] g]|].
      - split_and!; [done..|]. bool_prop. rewrite bytes_eqb_true in *. unfold s1 in *. cbn [on_request upload_ostrm upload_key upload_filename up_request] in *.
        destruct (upload_ostrm s) as [[[p|] g]|] eqn:Eo; [|done..]. intros _. destruct (Hopen p g eq_refl) as (-> & -> & Hd); [done..|].
        split; [|done]. unfold on_request. congruence. }
    clearbody s2. destruct H2 as (Hr & Hd & Ho). destruct (is_open (upload_ostrm s2)).
    - destruct (Ho eq_refl) as [-> [c Hc]]. eexists. split; [done|]. by rewrite Hc.
    - unfold open_append. rewrite open_works, Hd, Hr. by eexists. }
  destruct Hm as (d & -> & Hd). assert (Hdn : default [] (d !! n) = default [] (disk s !! n)).
  { rewrite Hd. destruct (disk s !! n) eqn:E; [by rewrite E|by rewrite lookup_insert_eq]. }
  assert (Hid : <[n := default [] (disk s !! n) ++ data]> d = <[n := default [] (disk s !! n) ++ data]> (disk s)).
  { rewrite Hd. destruct (disk s !! n) eqn:E; [done|]. apply insert_insert_eq. }
  destruct data as [|c data].
  - cbn [is_empty negb andb on_request up_request]. unfold on_request. cbn [up_request upload_key upload_filename upload_ostrm disk].
    do 2 f_equal. rewrite <-Hid, app_nil_r. rewrite Hd. destruct (disk s !! n) as [c|] eqn:E; cbn [default].
    + by rewrite insert_id.
    + by rewrite insert_insert_eq.
  - cbn [is_empty]. unfold write_stream. cbn [upload_ostrm on_stream on_disk disk up_request upload_key upload_filename].
    pose proof (write_works d n (c :: data)) as Hw. rewrite (proj2 (Nat.leb_le _ _) Hw). rewrite take_ge by done. unfold on_request, on_stream, on_disk.
    cbn [upload_ostrm good_stream good andb negb is_empty disk up_request upload_key upload_filename]. by rewrite Hdn, Hid.
Qed.


(** The disk and the table of files after the pieces [l]. *)
Record holds (l : list part) (s : upload_state) : Prop := {
  h_ok : request_ok (up_request s);
  h_stored k f : stored l k f = true ->
    let i := get_file_info k f (up_request s) in
    file_system_file_name i <> [] /\ disk s !! file_system_file_name i = Some (sent l k f)
    /\ file_size i = wrap64 (Z.of_nat (length (sent l k f)))
    /\ (random = false -> file_system_file_name i = file_upload_dir cfg ++ bs "/" ++ sanitize_upload_filename f);
  h_new k f : stored l k f = false -> get_file_info k f (up_request s) = new_file_info;
  h_distinct k f k' f' : stored l k f = true -> stored l k' f' = true ->
    file_system_file_name (get_file_info k f (up_request s)) = file_system_file_name (get_file_info k' f' (up_request s)) ->
    k' = k /\ f' = f;
  h_stream path g : upload_ostrm s = Some (Stream (Some path) g) ->
    g = true /\ stored l (upload_key s) (upload_filename s) = true
    /\ path = file_system_file_name (get_file_info (upload_key s) (upload_filename s) (up_request s));
}.

(** A step that writes [data] at [n], the name of [key] and [f]. *)
Lemma append_holds l s p key f data file :
  holds l s -> f <> [] -> belongs key f p = true -> part_data p = data ->
  file_system_file_name file <> [] ->
  file_size file = wrap64 (Z.of_nat (length (sent l key f))) ->
  default [] (disk s !! file_system_file_name file) = sent l key f ->
  (random = false -> file_system_file_name file = file_upload_dir cfg ++ bs "/" ++ sanitize_upload_filename f) ->
  (forall k' f', stored l k' f' = true -> ~ (k' = key /\ f' = f) ->
     file_system_file_name (get_file_info k' f' (up_request s)) <> file_system_file_name file) ->
  holds (l ++ [p])
    (UploadState (set_file_info key f (grow_file_size (Z.of_nat (length data)) file) (set_file_info key f file (up_request s)))
       key f (Some (Stream (Some (file_system_file_name file)) true))
       (<[file_system_file_name file := default [] (disk s !! file_system_file_name file) ++ data]> (disk s))).
Proof.
  intros [Hok Hst Hnew Hdis Hstr] Hf Hp Hdata Hn Hsize Hc Hname Hother. set (n := file_system_file_name file) in *.
  assert (Hget : forall k' f' r, get_file_info k' f' (set_file_info key f (grow_file_size (Z.of_nat (length data)) file) (set_file_info key f file r))
    = if decide (k' = key /\ f' = f) then grow_file_size (Z.of_nat (length data)) file else get_file_info k' f' r).
  { intros k' f' r. rewrite !get_set_file_info. by case_decide. }
  assert (Hold : forall k' f', ~ (k' = key /\ f' = f) -> stored (l ++ [p]) k' f' = stored l k' f' /\ sent (l ++ [p]) k' f' = sent l k' f').
  { intros k' f' Hne. rewrite stored_snoc, sent_snoc. destruct (belongs k' f' p) eqn:E; [by destruct Hne; eapply belongs_inj|].
    by rewrite andb_false_r, orb_false_r, app_nil_r. }
  assert (Hnow : stored (l ++ [p]) key f = true).
  { rewrite stored_snoc, Hp, (proj2 (is_empty_false f) Hf). apply orb_true_r. }
  constructor; cbn [up_request disk upload_ostrm upload_key upload_filename].
  - exact Hok.
  - intros k' f' Hs. cbv zeta. rewrite Hget. case_decide as E.
    + destruct E as [-> ->]. cbn [file_system_file_name grow_file_size file_size]. fold n. rewrite lookup_insert_eq, sent_snoc, Hp, Hc, Hdata.
      split_and!; try done. rewrite Hsize, length_app, Nat2Z.inj_add. unfold wrap64. apply Zplus_mod_idemp_l.
    + destruct (Hold k' f' E) as [Es ->]. rewrite Es in Hs. destruct (Hst k' f' Hs) as (Ha & Hb & Hd & He).
      split_and!; try done. rewrite lookup_insert_ne; [done|]. intros Heq. by apply (Hother k' f').
  - intros k' f' Hs. rewrite Hget. case_decide as E; [destruct E as [-> ->]; congruence|]. apply Hnew. by rewrite <-(proj1 (Hold k' f' E)).
  - intros k1 f1 k2 f2 Ha Hb. rewrite !Hget. case_decide as E1; case_decide as E2; cbn [file_system_file_name grow_file_size]; fold n.
    + by destruct E1 as [-> ->], E2 as [-> ->].
    + intros He. destruct (Hother k2 f2); [by rewrite <-(proj1 (Hold k2 f2 E2))|done..].
    + intros He. destruct (Hother k1 f1); [by rewrite <-(proj1 (Hold k1 f1 E1))|done..].
    + intros He. apply Hdis; [by rewrite <-(proj1 (Hold k1 f1 E1))|by rewrite <-(proj1 (Hold k2 f2 E2))|done].
  - intros path g [= <- <-]. rewrite Hget. by rewrite decide_True.
Qed.

Lemma process_holds l s p key f ct te data :
  holds l s -> f <> [] -> belongs key f p = true -> part_data p = data ->
  (random = false -> sanitize_upload_filename f <> []
     /\ forall k' f', stored l k' f' = true -> sanitize_upload_filename f' = sanitize_upload_filename f -> k' = key /\ f' = f) ->
  exists s', process_file_upload cfg key f ct te data s = (s', MHD_YES) /\ holds (l ++ [p]) s'.
Proof.
  intros Hs Hf Hp Hdata Hsafe. unfold process_file_upload. pose proof (get_or_create_keeps key f (up_request s)) as Hk.
  destruct (get_or_create_file_info key f (up_request s)) as [r file] eqn:E. cbn [fst] in Hk.
  assert (Hs1 : holds l (on_request (fun _ => r) s)).
  { injection E as Er _. destruct Hs as [Hok Hst Hnew Hdis Hstr].
    constructor; cbn [up_request disk upload_ostrm upload_key upload_filename on_request]; [by rewrite <-Er|intros *; rewrite !Hk; eauto..]. }
  assert (Hfile : file = get_file_info key f (up_request (on_request (fun _ => r) s))) by (cbn [up_request on_request]; rewrite Hk; by injection E).
  set (s1 := on_request (fun _ => r) s) in *. clearbody s1. clear E Hk Hs s r.
  destruct (stored l key f) eqn:Est.
  - destruct (h_stored _ _ Hs1 key f Est) as (Hn & Hd & Hsz & Hname). rewrite <-Hfile in Hn, Hd, Hsz, Hname.
    rewrite (proj2 (is_empty_false _) Hn). eexists. split.
    { apply append_result. intros path g Ho <- <-. destruct (h_stream _ _ Hs1 path g Ho) as (-> & _ & ->). rewrite <-Hfile. by eauto. }
    apply append_holds; try done; [by rewrite Hd|]. intros k' f' Hs' Hne Heq. apply Hne.
    apply (h_distinct _ _ Hs1 key f k' f'); [done..|]. by rewrite <-Hfile.
  - pose proof (h_new _ _ Hs1 key f Est) as Hnew. rewrite Hfile, Hnew. cbn [is_empty file_system_file_name new_file_info].
    destruct (setup_new_upload_file_info cfg new_file_info f ct te (disk s1)) as [d o] eqn:Es.
    destruct o as [a|fi].
    { exfalso. revert Es. unfold setup_new_upload_file_info, generate_random_upload_filename. destruct random eqn:Er.
      - destruct (mkstemp_works (disk s1) (file_upload_dir cfg ++ bs "/" ++ upload_filename_template)) as [n ->]. done.
      - destruct (Hsafe eq_refl) as [Hne _]. by rewrite (proj2 (is_empty_false _) Hne). }
    apply setup_inside in Es as (_ & Hn & Hsz & Hd & Hgone & Hname). specialize (Hgone (unlink_works _ _)).
    assert (Hsent : sent l key f = []) by by apply sent_not_stored.
    assert (Hother : forall k' f', stored l k' f' = true -> file_system_file_name (get_file_info k' f' (up_request s1)) <> file_system_file_name fi).
    { intros k' f' Hs' Heq. destruct (h_stored _ _ Hs1 k' f' Hs') as (_ & Hd' & _ & Hn'). rewrite Heq in Hd', Hn'.
      destruct random eqn:Er; [congruence|]. rewrite Hname in Hn'. destruct (Hsafe eq_refl) as [_ Huniq].
      destruct (Huniq k' f' Hs') as [-> ->]; [|congruence]. specialize (Hn' eq_refl). apply app_inv_head in Hn'. by injection Hn'. }
    assert (Hs2 : holds l (on_disk (fun _ => d) s1)).
    { destruct Hs1 as [Hok Hst Hnw Hdis Hstr]. constructor; cbn [up_request disk upload_ostrm upload_key upload_filename on_disk]; try done.
      intros k' f' Hs'. destruct (Hst k' f' Hs') as (Ha & Hb & Hc & He). split_and!; try done.
      rewrite Hd; [done|]. by apply Hother. }
    eexists. split.
    { apply append_result. intros path g Ho <- <-. exfalso. cbn [on_disk upload_ostrm upload_key upload_filename] in *.
      destruct (h_stream _ _ Hs1 path g Ho) as (_ & Hst & _). congruence. }
    apply append_holds; try done; cbn [on_disk disk up_request].
    + by rewrite Hsent, Hsz.
    + by rewrite Hgone, Hsent.
    + intros Er. by rewrite Er in Hname.
    + intros k' f' Hs' _. by apply Hother.
Qed.


(** A change of the request that keeps its files. *)
Lemma holds_request l s g :
  holds l s -> request_ok (g (up_request s)) ->
  (forall k f, get_file_info k f (g (up_request s)) = get_file_info k f (up_request s)) -> holds l (on_request g s).
Proof.
  intros [Hok Hst Hnew Hdis Hstr] Hr Hg. constructor; cbn [up_request disk upload_ostrm upload_key upload_filename on_request];
    [done|intros *; rewrite !Hg; eauto..].
Qed.

(** A piece that does not go to the disk. *)
Lemma holds_skip l s p :
  (forall k f, f <> [] -> belongs k f p = false) -> holds l s -> holds (l ++ [p]) s.
Proof.
  intros Hp [Hok Hst Hnew Hdis Hstr].
  assert (Hs : forall k f, stored (l ++ [p]) k f = stored l k f).
  { intros k f. rewrite stored_snoc. destruct f as [|c f]; [by rewrite orb_false_r|]. by rewrite Hp, orb_false_r. }
  constructor; [done|..]; intros *; rewrite ?Hs; eauto.
  intros Hkf. rewrite sent_snoc. destruct f as [|c f]; [done|]. rewrite Hp, app_nil_r by done. by apply Hst.
Qed.

Lemma store_in_memory_holds l s key data :
  holds l s -> exists s', store_in_memory (Some key) data s = (s', Ok ()) /\ holds l s'.
Proof.
  intros Hs. unfold store_in_memory. destruct (populate_ok _ (h_ok _ _ Hs)) as (r & E & Hr & _).
  pose proof (populate_files (up_request s)) as Hfiles. unfold get_arg, mbind, stx_bind. rewrite E in *. cbn [fst stx_gets] in *.
  eexists. split; [done|]. apply holds_request; [done|..].
  - apply change_args_ok; [done|]. intros m Hm. by apply update_ok.
  - intros k f. unfold get_file_info. cbn [set_arg_flat change_args on_args on_impl impl files_]. by rewrite Hfiles.
Qed.

(** A piece the pipeline can take: a file has a field name and a usable name. *)
Definition acceptable (p : part) : Prop :=
  match part_filename p with
  | None => True
  | Some f => is_Some (part_key p) /\ (f = [] \/ random = true \/ sanitize_upload_filename f <> [])
  end.

(** With client-given names, no two files of the body share one. *)
Definition distinct_names (l : list part) : Prop :=
  random = false -> forall k f k' f', stored l k f = true -> stored l k' f' = true ->
    sanitize_upload_filename f' = sanitize_upload_filename f -> k' = k /\ f' = f.

Lemma stored_app l l' k f : stored l k f = true -> stored (l ++ l') k f = true.
Proof. unfold stored. intros [-> Hl]%andb_true_iff. by rewrite existsb_app, Hl. Qed.

Lemma post_iterator_holds l p rest s :
  file_upload_target cfg <> FILE_UPLOAD_MEMORY_ONLY -> holds l s -> acceptable p -> distinct_names (l ++ p :: rest) ->
  exists s', post_iterator cfg p s = (s', Ok MHD_YES) /\ holds (l ++ [p]) s'.
Proof.
  intros Ht Hs Ha Hdis. unfold acceptable in Ha. unfold post_iterator. destruct (part_filename p) as [f|] eqn:Ef.
  - destruct Ha as [[key Ek] Hname]. unfold iterate_file. rewrite Ek.
    assert (Hmem : exists s1, (if bool_decide (file_upload_target cfg <> FILE_UPLOAD_DISK_ONLY) then store_in_memory (Some key) (part_data p) else mret ()) s
      = (s1, Ok ()) /\ holds l s1) by (case_bool_decide; [by apply store_in_memory_holds|by eexists]).
    destruct Hmem as (s1 & E1 & Hs1). unfold mbind, stx_bind. rewrite E1.
    rewrite (bool_decide_true (file_upload_target cfg <> FILE_UPLOAD_MEMORY_ONLY)), andb_true_r by done.
    destruct f as [|c f]; cbn [is_empty negb].
    + eexists. split; [done|]. apply holds_skip; [|done]. intros k f Hf. apply bool_decide_eq_false. intros [_ He]. congruence.
    + assert (Hb : belongs key (c :: f) p = true) by (apply bool_decide_eq_true; by split).
      destruct (process_holds l s1 p key (c :: f) (part_content_type p) (part_transfer_encoding p) (part_data p)) as (s2 & E2 & Hs2); try done.
      { intros Er. rewrite Er in Hname. split; [by destruct Hname as [?|[?|?]]|]. intros k' f' Hst Heq.
        apply (Hdis Er key (c :: f) k' f'); [|by apply stored_app|done].
        change (p :: rest) with ([p] ++ rest). rewrite app_assoc.
        apply stored_app. rewrite stored_snoc, Hb. apply orb_true_r. }
      exists s2. unfold store_on_disk. by rewrite E2.
  - exists (handle_post_form_arg (part_key p) (part_data p) (part_off p) s). split; [done|].
    apply holds_skip. { intros k f _. apply bool_decide_eq_false. intros [_ He]. congruence. }
    unfold handle_post_form_arg. destruct (part_key p) as [key|]; [|done].
    destruct (0 <? _)%Z; (apply holds_request; [done|apply change_args_ok; [apply Hs|]|done]); intros m Hm.
    + apply update_ok; [|done]. intros l'. destruct (last l'); [|done]. by destruct (removelast l').
    + by apply append_ok.
Qed.

Lemma run_body_holds chunks l s :
  file_upload_target cfg <> FILE_UPLOAD_MEMORY_ONLY -> holds l s ->
  Forall acceptable (concat chunks) -> distinct_names (l ++ concat chunks) ->
  exists s', run_body cfg chunks s = (s', Ok ()) /\ holds (l ++ concat chunks) s'.
Proof.
  intros Ht. assert (Hpp : forall ps l rest s, holds l s -> Forall acceptable ps -> distinct_names (l ++ ps ++ rest) ->
    exists s', post_process cfg ps s = (s', Ok MHD_YES) /\ holds (l ++ ps) s').
  { clear l s. intros ps. induction ps as [|p ps IH]; intros l rest s Hs Ha Hd; [exists s; by rewrite app_nil_r|].
    inversion Ha as [|? ? Hp Hps]; subst. destruct (post_iterator_holds l p (ps ++ rest) s) as (s1 & E1 & Hs1); try done.
    destruct (IH (l ++ [p]) rest s1) as (s2 & E2 & Hs2); [done..|by rewrite <-app_assoc|].
    exists s2. rewrite <-app_assoc in Hs2. cbn [post_process]. unfold mbind, stx_bind. by rewrite E1. }
  revert l s. induction chunks as [|ps chunks IH]; intros l s Hs Ha Hd; [exists s; by rewrite app_nil_r|].
  cbn [concat] in *. apply Forall_app in Ha as [Ha1 Ha2]. destruct (Hpp ps l (concat chunks) s) as (s1 & E1 & Hs1); try done.
  set (s2 := on_stream (fun o => if is_open o then close_stream <$> o else o) s1).
  assert (Hs2 : holds (l ++ ps) s2).
  { destruct Hs1 as [Hok Hst Hnew Hdis Hstr]. constructor; try done. cbn [s2 on_stream upload_ostrm].
    by destruct (upload_ostrm s1) as [[[q|] g]|]. }
  destruct (IH (l ++ ps) s2) as (s3 & E3 & Hs3); [done..|by rewrite <-app_assoc|].
  exists s3. rewrite <-app_assoc in Hs3. cbn [run_body]. unfold run_post_processor, mbind, stx_bind. by rewrite E1.
Qed.

(** C19: When uploads go to disk and the disk does not fail, every file of a form
    arrives whole: however its data is cut into pieces and chunks and whatever
    other fields and files come in between, the file named in its file
    information holds exactly the concatenation of the pieces sent for it, and
    the recorded size is their total length modulo [2^64].  With names the
    client gives, this supposes that no two files of the form share one. *)
Theorem uploads_arrive chunks r d :
  file_upload_target cfg <> FILE_UPLOAD_MEMORY_ONLY -> files_ (impl r) = ∅ -> request_ok r ->
  Forall acceptable (concat chunks) -> distinct_names (concat chunks) ->
  exists s, run_body cfg chunks (new_upload r d) = (s, Ok ())
    /\ forall k f, stored (concat chunks) k f = true ->
         let i := get_file_info k f (up_request s) in
         disk s !! file_system_file_name i = Some (sent (concat chunks) k f)
         /\ file_size i = wrap64 (Z.of_nat (length (sent (concat chunks) k f))).
Proof.
  intros Ht Hr Hok Ha Hd. destruct (run_body_holds chunks [] (new_upload r d)) as (s & E & Hs); [done| |done..|].
  { assert (Hnone : forall k f, stored [] k f = false) by (intros k f; apply andb_false_r).
    constructor; try done; [intros *; by rewrite Hnone| |intros *; by rewrite Hnone].
    intros k f _. unfold get_file_info. cbn [new_upload up_request]. rewrite Hr. by rewrite lookup_empty. }
  exists s. split; [done|]. intros k f Hst. by destruct (h_stored _ _ Hs k f Hst) as (_ & ? & ? & _).
Qed.


End Complete.

(** ** What is kept in memory *)

Definition has_key (k : bytes) (p : part) : bool := bool_decide (part_key p = Some k).

(** All that was sent for the field [k]. *)
Definition sent_for (l : list part) (k : bytes) : bytes := concat (part_data <$> List.filter (has_key k) l).

(** The first value the query string has for [k]. *)
Definition query_value (r : http_request) (k : bytes) : bytes :=
  get_flat_value (default [] (arg_find k (unescaped_args (args (impl (fst (populate_args r))))))).

Section Memory.
Context `{FileSystem} (cfg : upload_config) (r0 : http_request).

#[local] Abbreviation limit := (content_size_limit r0).

Definition in_memory (l : list part) (s : upload_state) : Prop :=
  request_ok (up_request s) /\ content_size_limit (up_request s) = limit
  /\ forall k, arg_find k (unescaped_args (args (impl (fst (populate_args (up_request s)))))) =
       if existsb (has_key k) l then Some [bounded limit (query_value r0 k ++ sent_for l k)]
       else arg_find k (unescaped_args (args (impl (fst (populate_args r0))))).

Lemma populate_limit r : content_size_limit (fst (populate_args r)) = content_size_limit r.
Proof.
  unfold populate_args. destruct (args_populated _); [done|]. destruct (connection_ _); [|done].
  destruct (args_limits _). by destruct (iterate_args _ _ _).
Qed.

Lemma store_in_memory_step l s p key :
  (0 <= limit)%Z -> part_key p = Some key -> in_memory l s ->
  exists s', store_in_memory (Some key) (part_data p) s = (s', Ok ()) /\ in_memory (l ++ [p]) s'.
Proof.
  intros Hlim Hp (Hok & Hl & Hargs). unfold store_in_memory. destruct (populate_ok _ Hok) as (r & E & Hr & Hpop & _).
  pose proof (populate_limit (up_request s)) as Hlr. unfold get_arg, mbind, stx_bind. rewrite E in *. cbn [fst stx_gets] in *.
  eexists. split; [done|]. set (r1 := set_arg_flat r key _). change (in_memory (l ++ [p]) (on_request (fun _ => r1) s)).
  assert (Hp1 : populate_args r1 = (r1, Ok ())).
  { unfold populate_args. cbn [r1 set_arg_flat change_args on_args on_impl impl args args_populated]. by rewrite Hpop. }
  split_and!; cbn [up_request on_request].
  - apply change_args_ok; [done|]. intros m Hm. by apply update_ok.
  - cbn [r1 set_arg_flat change_args on_args on_impl content_size_limit]. congruence.
  - intros k. rewrite Hp1. cbn [fst r1 set_arg_flat change_args on_args on_impl impl args unescaped_args].
    rewrite find_update by apply Hr. rewrite existsb_app. cbn [existsb]. rewrite orb_false_r.
    assert (Hsnoc : sent_for (l ++ [p]) k = sent_for l k ++ (if has_key k p then part_data p else [])).
    { unfold sent_for. rewrite List.filter_app, fmap_app, concat_app. f_equal. simpl. destruct (has_key k p); simpl; [apply app_nil_r|done]. }
    assert (Hkp : has_key k p = bool_decide (k = key)) by (unfold has_key; rewrite Hp; apply bool_decide_ext; split; congruence).
    rewrite Hsnoc, Hkp. case_decide as Hk.
    + subst k. rewrite bool_decide_true by done. rewrite orb_true_r. rewrite Hlr, Hl, !Hargs. f_equal. f_equal.
      destruct (existsb (has_key key) l) eqn:Ek; unfold get_flat_value; [rewrite (app_assoc (query_value _ _)); exact (bounded_app _ _ _ Hlim)|].
      assert (sent_for l key = []) as ->.
      { unfold sent_for. clear -Ek. induction l as [|q l IH]; [done|]. simpl in *. destruct (has_key key q); [done|]. by apply IH. }
      done.
    + rewrite bool_decide_false by congruence. rewrite orb_false_r, app_nil_r. apply Hargs.
Qed.

(** A file kept in memory (the default) is an argument of the request: after
    the whole body the field has one value, the pieces sent for it appended to
    the value its name has in the query string, cut at the configured limit. *)
Theorem memory_uploads_bounded chunks d :
  file_upload_target cfg = FILE_UPLOAD_MEMORY_ONLY -> (0 <= limit)%Z -> request_ok r0 ->
  Forall (fun p => is_Some (part_key p) /\ is_Some (part_filename p)) (concat chunks) ->
  exists s, run_body cfg chunks (new_upload r0 d) = (s, Ok ()) /\ disk s = d
    /\ forall k, existsb (has_key k) (concat chunks) = true ->
         snd (get_arg k (up_request s)) = Ok [bounded limit (query_value r0 k ++ sent_for (concat chunks) k)].
Proof.
  intros Ht Hlim Hok Hall.
  assert (Hpp : forall ps l s, in_memory l s -> disk s = d -> Forall (fun p => is_Some (part_key p) /\ is_Some (part_filename p)) ps ->
    exists s', post_process cfg ps s = (s', Ok MHD_YES) /\ in_memory (l ++ ps) s' /\ disk s' = d).
  { intros ps. induction ps as [|p ps IH]; intros l s Hs Hd Hps; [exists s; by rewrite app_nil_r|].
    inversion Hps as [|? ? [[key Ek] [f Ef]] Hps']; subst. destruct (store_in_memory_step l s p key) as (s1 & E1 & Hs1); [done..|].
    assert (Hd1 : disk s1 = disk s).
    { unfold store_in_memory in E1. destruct (get_arg key (up_request s)) as [r [v| |]]; by simplify_eq. }
    destruct (IH (l ++ [p]) s1) as (s2 & E2 & Hs2 & Hd2); [done|done..|]. exists s2. rewrite <-app_assoc in Hs2.
    split; [|done]. cbn [post_process]. unfold post_iterator, iterate_file. rewrite Ef, Ek, Ht.
    rewrite (bool_decide_true (_ <> FILE_UPLOAD_DISK_ONLY)), (bool_decide_false (_ <> FILE_UPLOAD_MEMORY_ONLY)), andb_false_r by (done || tauto).
    unfold mbind, stx_bind. by rewrite E1. }
  assert (Hbody : forall chunks l s, in_memory l s -> disk s = d -> Forall (fun p => is_Some (part_key p) /\ is_Some (part_filename p)) (concat chunks) ->
    exists s', run_body cfg chunks s = (s', Ok ()) /\ in_memory (l ++ concat chunks) s' /\ disk s' = d).
  { clear chunks Hall. intros chunks. induction chunks as [|ps chunks IH]; intros l s Hs Hd Hall; [exists s; by rewrite app_nil_r|].
    cbn [concat] in *. apply Forall_app in Hall as [Ha1 Ha2]. destruct (Hpp ps l s) as (s1 & E1 & Hs1 & Hd1); [done..|].
    destruct (IH (l ++ ps) (on_stream (fun o => if is_open o then close_stream <$> o else o) s1)) as (s2 & E2 & Hs2 & Hd2); [done..|].
    exists s2. rewrite <-app_assoc in Hs2. split; [|done]. cbn [run_body]. unfold run_post_processor, mbind, stx_bind. by rewrite E1. }
  destruct (Hbody chunks [] (new_upload r0 d)) as (s & E & (Hs & _ & Hargs) & Hd); [by split_and!|done..|].
  exists s. split_and!; [done..|]. intros k Hk. destruct (populate_ok _ Hs) as (r & Er & _). specialize (Hargs k).
  unfold get_arg, mbind, stx_bind. rewrite Er in *. cbn [fst snd stx_gets app] in *. by rewrite Hargs, Hk.
Qed.

End Memory.

(** ** Examples *)

Definition field (k data : string) : part := Part (Some (bs k)) None None None (bs data) 0.
Definition file_piece (k f data : string) : part := Part (Some (bs k)) (Some (bs f)) None None (bs data) 0.

(** A disk on which everything works; [mkstemp] fails on a name already taken. *)
Definition good_disk : FileSystem := {|
  can_unlink d p := true;
  can_open d p := true;
  written d p data := length data;
  mkstemp d t :=
    let n := take (length t - 6) t ++ bs "AbCdEf" in
    match d !! n with Some _ => None | None => Some n end;
|}.

Lemma good_disk_mkstemp : @MkstempOk good_disk.
Proof.
  intros d p n. cbn [mkstemp good_disk]. rewrite length_app. replace (length p + length (bs "XXXXXX") - 6) with (length p) by (simpl; lia).
  rewrite take_app_length. destruct (d !! _) eqn:E; [done|]. intros [= <-]. exists (bs "AbCdEf"). split_and!; [done| |done].
  by apply (bool_decide_eq_false_1 ("/"%char ∈ bs "AbCdEf")).
Qed.

(** Unlimited names, so that [mkstemp] never fails. *)
Definition endless_disk : FileSystem := {|
  can_unlink d p := true;
  can_open d p := true;
  written d p data := length data;
  mkstemp d t :=
    let p := take (length t - 6) t in
    let taken := map (fun n => length n) (elements (dom d)) in
    Some (p ++ replicate (S (max_list taken)) "a"%char);
|}.

Lemma endless_disk_reliable : @ReliableDisk endless_disk.
Proof. constructor; intros; cbn [can_unlink can_open written mkstemp endless_disk]; done. Qed.

Lemma endless_disk_mkstemp : @MkstempOk endless_disk.
Proof.
  intros d p n. cbn [mkstemp endless_disk]. rewrite length_app. replace (length p + length (bs "XXXXXX") - 6) with (length p) by (simpl; lia).
  rewrite take_app_length. set (taken := map _ _). intros [= <-]. exists ("a"%char :: replicate (max_list taken) "a"%char). split_and!; [done|..].
  - rewrite elem_of_cons. intros [?|[? _]%elem_of_replicate]; done.
  - apply not_elem_of_dom. intros Hin. set (n := p ++ _) in Hin.
    assert (Hle : length n <= max_list taken).
    { apply (max_list_elem_of_le (length n) taken). apply list_elem_of_fmap. exists n. split; [done|]. by apply elem_of_elements. }
    unfold n in Hle. rewrite length_app in Hle. cbn [length] in Hle. rewrite length_replicate in Hle. lia.
Qed.

Definition disk_config : upload_config := UploadConfig FILE_UPLOAD_DISK_ONLY (bs "/srv/up") false.
Definition memory_config : upload_config := UploadConfig FILE_UPLOAD_MEMORY_ONLY (bs "/srv/up") false.

(** Two files in pieces, over two chunks. *)
Definition sample_body : list (list part) :=
  [[field "title" "x"; file_piece "a" "a.txt" "one "]; [file_piece "a" "a.txt" "two"; file_piece "b" "../b.txt" "three"]].

Lemma uploads_stay_in_directory_witness :
  let s := fst (run_body (H := good_disk) disk_config sample_body (new_upload (new_request None None) ∅)) in
  elements (dom (disk s)) = [bs "/srv/up/b.txt"; bs "/srv/up/a.txt"]
  /\ (forall path, disk s !! path <> (∅ : gmap bytes bytes) !! path -> in_dir (bs "/srv/up") path).
Proof.
  split; [vm_compute; reflexivity|].
  exact (proj1 (@uploads_stay_in_directory good_disk good_disk_mkstemp disk_config ∅ sample_body (new_request None None) (fun _ _ _ _ => inr true) eq_refl)).
Defined.

Lemma sample_distinct : distinct_names disk_config (concat sample_body).
Proof.
  intros _ k f k' f'. unfold stored. rewrite !andb_true_iff, !existsb_exists. intros [_ (p & Hp & Hb)] [_ (q & Hq & Hb')].
  unfold belongs in *. apply bool_decide_eq_true in Hb as [Hk Hf], Hb' as [Hk' Hf'].
  simpl in Hp, Hq. destruct_or?; subst; cbn [part_filename part_key field file_piece] in *; simplify_eq; try done.
Qed.

Lemma uploads_arrive_witness :
  exists s, run_body (H := endless_disk) disk_config sample_body (new_upload (new_request None None) ∅) = (s, Ok ())
    /\ forall k f, stored (concat sample_body) k f = true ->
         let i := get_file_info k f (up_request s) in
         disk s !! file_system_file_name i = Some (sent (concat sample_body) k f)
         /\ file_size i = wrap64 (Z.of_nat (length (sent (concat sample_body) k f))).
Proof.
  apply (@uploads_arrive endless_disk endless_disk_mkstemp endless_disk_reliable disk_config sample_body (new_request None None) ∅).
  - done.
  - done.
  - split; [apply args_ok_nil|done].
  - repeat constructor; cbn; eauto; right; right; by vm_compute.
  - exact sample_distinct.
Defined.

Lemma memory_uploads_bounded_witness :
  let r := request_set_content_size_limit (new_request (Some sample_connection) None) 6 in
  let body := [[file_piece "up" "u.txt" "abcd"]; [file_piece "up" "u.txt" "efgh"]] in
  exists s, run_body (H := good_disk) memory_config body (new_upload r ∅) = (s, Ok ()) /\ disk s = ∅
    /\ forall k, existsb (has_key k) (concat body) = true ->
         snd (get_arg k (up_request s)) = Ok [bounded 6 (query_value r k ++ sent_for (concat body) k)].
Proof.
  intros r body. apply (@memory_uploads_bounded good_disk memory_config r body ∅); [done|done|split; [apply args_ok_nil|done]|].
  repeat constructor; by eexists.
Defined.

(** ** Properties that fail *)

(** Two files of the same name in different fields: the second upload removes
    the first, whose file information still points at the file. *)
Theorem same_filename_overwrites :
  let s := fst (run_body (H := good_disk) disk_config [[file_piece "a" "x" "first"; file_piece "b" "x" "2nd"]] (new_upload (new_request None None) ∅)) in
  let i := get_file_info (bs "a") (bs "x") (up_request s) in
  file_size i = 5%Z /\ disk s !! file_system_file_name i = Some (bs "2nd").
Proof. by vm_compute. Qed.

(** A file part without a field name: the key reaches [std::string] as a null
    pointer, which [handle_post_form_arg] guards against and [iterate_file] does
    not. *)
Theorem null_key_upload_undefined :
  snd (post_iterator (H := good_disk) memory_config (Part None (Some (bs "x")) None None (bs "data") 0) (new_upload (new_request None None) ∅))
  = Undefined.
Proof. done. Qed.

(** The value of the query string leads the content of an upload kept in memory. *)
Theorem query_argument_prefixes_upload :
  let r := new_request (Some sample_connection) None in
  let s := fst (run_body (H := good_disk) memory_config [[file_piece "id" "x" "content"]] (new_upload r ∅)) in
  snd (get_arg (bs "id") (up_request s)) = Ok [bs "a bcontent"].
Proof. by vm_compute. Qed.

(** The part of the state that is a request, as dispatch uses it. *)
Definition upload_request (c : mhd_connection) (d : gmap bytes bytes) : HttpRequest upload_state := {|
  make_request u := new_upload (new_request (Some c) u) d;
  set_file_cleanup_callback s f := on_request (fun r => request_set_file_cleanup_callback r f) s;
  set_expose_credentials_in_logs s b := on_request (fun r => request_set_expose r b) s;
  set_content_size_limit s n := on_request (fun r => request_set_content_size_limit r n) s;
  set_arg s k v := on_request (fun r => request_set_arg r k v) s;
  grow_content s b := on_request (fun r => request_grow_content r b) s;
  set_path s p := on_request (fun r => request_set_path r p) s;
  set_method s m := on_request (fun r => request_set_method r m) s;
  set_version s v := on_request (fun r => request_set_version r v) s;
  get_path s := path (up_request s);
  get_method s := method (up_request s);
|}.

(** Dispatch may be run with the upload pipeline behind its post-processor. *)
Lemma upload_request_ok c d : @HttpRequestOk upload_state (upload_request c d).
Proof. by constructor. Qed.
