(* ===== verification/Dispatch.v ===== *)
(** * Answering a request

    [webserver_callbacks.cpp], [request_pipeline.cpp], [request_dispatcher.cpp],
    [hook_dispatcher.cpp], [error_pages.cpp] and [response_materializer.cpp]:
    the callbacks libmicrohttpd makes for one request, from the first to the
    queued response and the completion notice. *)

From S2P Require Import Prelude HttpUtils HttpMethod Paths RouteCache Regex HttpEndpoint RouteTable Registration.
From S2P Require Import Cookie OrderedMap HttpResponse HookBus Request.
Import HttpUtils.Unescape HttpUtils.HttpUtils MethodSetOps ResourceMask RouteTable.RouteTable Registration.Registration.
Import Cookie.Cookie HttpResponse.Response HookBus.Hooks.

Module Dispatch.

(** A response under construction in libmicrohttpd: how it was created, and the
    header and footer lines added to it. *)
Record mhd_response : Type := MhdResponse {
  content : mhd_create;
  mhd_headers : list (bytes * bytes);
  mhd_footers : list (bytes * bytes);
}.

Inductive mhd_event : Type :=
| MhdQueue (status : Z) (r : mhd_response)
| MhdQueueAuth (realm opaque : bytes) (domain : option bytes) (r : mhd_response)
    (signal_stale : bool) (qop_auth : bool) (algo : digest_algorithm) (userhash utf8 : bool)
| MhdDestroy (r : mhd_response).

Section Dispatch.
Context `{RegexEngine, StdHash, MhdCreate, BodyFits} {R : Type} `{HttpRequest R} {App : Type}.

(** libmicrohttpd: whether a response is queued, whether a post-processor is
    created for a content type, and that post-processor, which feeds the form
    fields and files of a body chunk to the request. *)
Context (mhd_queues : mhd_event -> bool) (mhd_create_post_processor : bytes -> bool) (mhd_post_process : R -> bytes -> R).

(** ** Configuration and state *)

(** The fields of [webserver_config] dispatch reads.  User callables are
    identities; [has_log_error] is whether a logger is set. *)
Record config : Type := Config {
  not_found_handler : option nat;
  method_not_allowed_handler : option nat;
  internal_error_handler : option nat;
  has_log_error : bool;
  expose_exception_messages : bool;
  post_process_enabled : bool;
  put_processed_data_to_content : bool;
  unescaper : option (bytes -> bytes);
  digest_opaque_ : bytes;
  file_cleanup_callback : option nat;
  expose_credentials_in_logs : bool;
  content_size_limit : Z;
}.

Context (cfg : config).

(** What the callbacks of all requests and the user code share. *)
Record world : Type := World {
  srv : server nat;
  hooks_ : hook_bus;
  route_tables : gmap nat resource_hook_table;
  app : App;
  error_lines : list bytes;
}.

Definition set_srv (w : world) (s : server nat) : world :=
  World s (hooks_ w) (route_tables w) (app w) (error_lines w).

(** [log_dispatch_error] *)
Definition log_dispatch_error (msg : bytes) (w : world) : world :=
  if has_log_error cfg
  then World (srv w) (hooks_ w) (route_tables w) (app w) (error_lines w ++ [msg]) else w.

Record route_descriptor : Type := RouteDescriptor { path_template : bytes; methods : method_set; desc_is_prefix : bool }.

(** The context structures; a request or response pointer is the object, and time
    points are left out. *)
Inductive hook_ctx : Type :=
| request_received_ctx
| body_chunk_ctx (chunk : bytes) (offset : Z) (is_final : bool)
| route_resolved_ctx (matched : option route_descriptor) (resource : option nat)
| before_handler_ctx (matched : option route_descriptor) (method : http_method) (resource : option nat)
| handler_exception_ctx (message : bytes)
| after_handler_ctx
| response_sent_ctx (status : Z) (bytes_queued : Z)
| request_completed_ctx (succeeded : bool).

(** What a hook works on: its context, the request and response the context
    points to, and the shared world. *)
Record hook_env : Type := HookEnv {
  he_ctx : hook_ctx;
  he_request : option R;
  he_response : option http_response;
  he_world : world;
}.

(** [connection_context] *)
Record connection_context : Type := Conn {
  standardized_url : bytes;
  method_enum : http_method;
  callback : option http_method;
  request : option R;
  response : option http_response;
  has_body : bool;
  skip_handler : bool;
  body_bytes_seen : Z;
  matched_path_template : bytes;
  matched_is_prefix : bool;
  resource_weak_ : option nat;
  route_has_hook_table_ : bool;
  pp : bool;
}.

Definition new_conn : connection_context :=
  Conn [] count_ None None None false false 0 [] false None false false.

(** The whole state of one request being answered. *)
Record dstate : Type := DState {
  conn : connection_context;
  world_of : world;
  mhd : list mhd_event;
  fds : list fd_event;
}.

Definition on_conn (f : connection_context -> connection_context) (s : dstate) : dstate :=
  DState (f (conn s)) (world_of s) (mhd s) (fds s).
Definition on_world (f : world -> world) (s : dstate) : dstate :=
  DState (conn s) (f (world_of s)) (mhd s) (fds s).
Definition on_mhd (e : mhd_event) (s : dstate) : dstate := DState (conn s) (world_of s) (mhd s ++ [e]) (fds s).
Definition on_fds (l : list fd_event) (s : dstate) : dstate := DState (conn s) (world_of s) (mhd s) (fds s ++ l).

Definition with_request (r : option R) (c : connection_context) : connection_context :=
  Conn (standardized_url c) (method_enum c) (callback c) r (response c) (has_body c) (skip_handler c)
    (body_bytes_seen c) (matched_path_template c) (matched_is_prefix c) (resource_weak_ c) (route_has_hook_table_ c) (pp c).

Definition with_response (r : option http_response) (c : connection_context) : connection_context :=
  Conn (standardized_url c) (method_enum c) (callback c) (request c) r (has_body c) (skip_handler c)
    (body_bytes_seen c) (matched_path_template c) (matched_is_prefix c) (resource_weak_ c) (route_has_hook_table_ c) (pp c).

Definition with_method (m : http_method) (cb : option http_method) (body : bool) (c : connection_context) : connection_context :=
  Conn (standardized_url c) m cb (request c) (response c) body (skip_handler c)
    (body_bytes_seen c) (matched_path_template c) (matched_is_prefix c) (resource_weak_ c) (route_has_hook_table_ c) (pp c).

Definition with_url (u : bytes) (c : connection_context) : connection_context :=
  Conn u (method_enum c) (callback c) (request c) (response c) false (skip_handler c)
    (body_bytes_seen c) (matched_path_template c) (matched_is_prefix c) (resource_weak_ c) (route_has_hook_table_ c) (pp c).

Definition with_skip (c : connection_context) : connection_context :=
  Conn (standardized_url c) (method_enum c) (callback c) (request c) (response c) (has_body c) true
    (body_bytes_seen c) (matched_path_template c) (matched_is_prefix c) (resource_weak_ c) (route_has_hook_table_ c) (pp c).

Definition with_seen (n : Z) (c : connection_context) : connection_context :=
  Conn (standardized_url c) (method_enum c) (callback c) (request c) (response c) (has_body c) (skip_handler c)
    n (matched_path_template c) (matched_is_prefix c) (resource_weak_ c) (route_has_hook_table_ c) (pp c).

Definition with_match (template : bytes) (is_prefix : bool) (c : connection_context) : connection_context :=
  Conn (standardized_url c) (method_enum c) (callback c) (request c) (response c) (has_body c) (skip_handler c)
    (body_bytes_seen c) template is_prefix (resource_weak_ c) (route_has_hook_table_ c) (pp c).

Definition with_weak (res : option nat) (c : connection_context) : connection_context :=
  Conn (standardized_url c) (method_enum c) (callback c) (request c) (response c) (has_body c) (skip_handler c)
    (body_bytes_seen c) (matched_path_template c) (matched_is_prefix c) res (route_has_hook_table_ c) (pp c).

Definition with_has_table (b : bool) (c : connection_context) : connection_context :=
  Conn (standardized_url c) (method_enum c) (callback c) (request c) (response c) (has_body c) (skip_handler c)
    (body_bytes_seen c) (matched_path_template c) (matched_is_prefix c) (resource_weak_ c) b (pp c).

Definition with_pp (b : bool) (c : connection_context) : connection_context :=
  Conn (standardized_url c) (method_enum c) (callback c) (request c) (response c) (has_body c) (skip_handler c)
    (body_bytes_seen c) (matched_path_template c) (matched_is_prefix c) (resource_weak_ c) (route_has_hook_table_ c) b.

(** ** User code

    Hooks, render methods of user resources, request handlers (lambdas and
    error pages) and the internal-error handler: any function of what they are
    given and the shared world. *)
Class UserCode := {
  user_hook : nat -> hook_env -> hook_env * (exn + option http_response);
  user_render : nat -> http_method -> R -> world -> world * (exn + http_response);
  user_handler : nat -> R -> world -> world * (exn + http_response);
  user_error_handler : nat -> R -> bytes -> world -> world * (exn + http_response);
}.
Context `{UserCode}.

#[local] Instance hook_code : HookCode hook_env := {
  call_hook := user_hook;
  on_error := fun msg e => HookEnv (he_ctx e) (he_request e) (he_response e) (log_dispatch_error msg (he_world e));
}.

(** A call of user code that returns or throws. *)
Definition user_call {A} (f : world -> world * (exn + A)) : stx dstate A := fun s =>
  let '(w, r) := f (world_of s) in
  (on_world (fun _ => w) s, match r with inl e => Throw e | inr a => Ok a end).

Definition log_error (msg : bytes) : stx dstate unit := stx_modify (on_world (log_dispatch_error msg)).

(** [*conn->request] *)
Definition get_request : stx dstate R := fun s =>
  match request (conn s) with Some r => (s, Ok r) | None => (s, Undefined) end.

(** [conn->response.emplace(r)] destroys the response it replaces. *)
Definition response_fds (o : option http_response) : list fd_event :=
  match o with Some r => snd (destroy_body r) | None => [] end.

Definition emplace_response (r : http_response) : stx dstate unit := fun s =>
  (on_conn (with_response (Some r)) (on_fds (response_fds (response (conn s))) s), Ok ()).

Definition what (e : exn) : bytes :=
  match e with invalid_argument m | std_exception m => m | unknown_exception => bs "unknown exception" end.

(** ** Error pages *)

Definition not_found_page : stx dstate http_response :=
  match not_found_handler cfg with
  | Some h => r ← get_request; user_call (user_handler h r)
  | None =>
      r ← stx_lift (string_response (bs "Not Found") (bs "text/plain"));
      stx_lift (with_status r 404)
  end.

Definition method_not_allowed_page : stx dstate http_response :=
  match method_not_allowed_handler cfg with
  | Some h => r ← get_request; user_call (user_handler h r)
  | None =>
      r ← stx_lift (string_response (bs "Method not Allowed") (bs "text/plain"));
      stx_lift (with_status r 405)
  end.

Definition internal_error_page (msg : bytes) (force_our : bool) : stx dstate http_response :=
  if force_our then stx_lift (with_status (empty_response 0) 500)
  else match internal_error_handler cfg with
  | Some h => r ← get_request; user_call (user_error_handler h r msg)
  | None =>
      r ← stx_lift (string_response (if expose_exception_messages cfg then msg else bs "Internal Server Error") (bs "text/plain"));
      stx_lift (with_status r 500)
  end.

Definition run_internal_error_handler_safely (msg : bytes) : stx dstate http_response :=
  stx_try (internal_error_page msg false)
    (fun _ =>
       _ ← log_error (bs "internal_error_handler threw; sending hardcoded empty-body 500");
       internal_error_page [] true).

(** ** Hook dispatch *)

Definition env_of (ctx : hook_ctx) (resp : option http_response) (s : dstate) : hook_env :=
  HookEnv ctx (request (conn s)) resp (world_of s).

(** After a firing that saw the request through a pointer to const. *)
Definition leave_const (e : hook_env) (s : dstate) : dstate := on_world (fun _ => he_world e) s.

(** After a firing that could change the request. *)
Definition leave_request (e : hook_env) (s : dstate) : dstate :=
  on_conn (with_request (he_request e)) (leave_const e s).

(** After a firing that could change the response. *)
Definition leave_response (e : hook_env) (s : dstate) : dstate :=
  on_conn (with_response (he_response e)) (leave_const e s).

(** [resource->hook_table_raw_()], [None] for a null pointer. *)
Definition hook_table_raw_ (res : option nat) (w : world) : option resource_hook_table :=
  res ≫= fun id => route_tables w !! id.

Definition route_gate (res : option nat) (p : hook_phase) (w : world) : bool :=
  match hook_table_raw_ res w with Some t => any_hooks t p | None => false end.

Definition route_table_of (res : option nat) (w : world) : resource_hook_table :=
  default new_table (hook_table_raw_ res w).

Definition server_gate (p : hook_phase) (w : world) : bool := has_hooks_for (hooks_ w) p.

(** [hrm->get_allowed_methods()] *)
Definition allowed_methods_of (res : option nat) (w : world) : method_set :=
  match res ≫= fun id => heap (srv w) !! id with
  | Some r => get_allowed_methods (res_mask r)
  | None => clear_all
  end.

Definition fire_request_received_phase (s : dstate) : dstate * option http_response :=
  let '(e, sc) := fire_request_received (hooks_ (world_of s)) (env_of request_received_ctx None s) in
  (leave_request e s, sc).

Definition fire_body_chunk_phase (chunk : bytes) (s : dstate) : dstate * option http_response :=
  let ctx := body_chunk_ctx chunk (body_bytes_seen (conn s)) false in
  let s := on_conn (with_seen (wrap64 (body_bytes_seen (conn s) + Z.of_nat (length chunk)))) s in
  let '(e, sc) := fire_body_chunk (hooks_ (world_of s)) (env_of ctx None s) in
  (leave_request e s, sc).

Definition fire_route_resolved_gated (found : bool) (hrm : option nat) (s : dstate) : dstate :=
  let w := world_of s in
  if negb (server_gate route_resolved w) then s
  else
    let matched := if found && bool_decide (is_Some hrm)
      then Some (RouteDescriptor (matched_path_template (conn s)) (allowed_methods_of hrm w) (matched_is_prefix (conn s)))
      else None in
    leave_const (fire_route_resolved (hooks_ w) (env_of (route_resolved_ctx matched hrm) None s)) s.

(** The server's hooks, then the route's, on the same context; true when one
    responded. *)
Definition fire_before_handler_gated (hrm : nat) : stx dstate bool := fun s =>
  let w := world_of s in
  let server := server_gate before_handler w in
  let per_route := route_gate (Some hrm) before_handler w in
  if negb server && negb per_route then (s, Ok false)
  else
    let desc := if is_empty (matched_path_template (conn s)) then None
      else Some (RouteDescriptor (matched_path_template (conn s)) (allowed_methods_of (Some hrm) w) (matched_is_prefix (conn s))) in
    let ctx := before_handler_ctx desc (method_enum (conn s)) (Some hrm) in
    let '(e, sc) := if server then fire_before_handler (hooks_ w) (env_of ctx None s) else (env_of ctx None s, None) in
    match sc with
    | Some r => (_ ← emplace_response r; mret true) (leave_request e s)
    | None =>
        let '(e, sc) := if per_route
          then route_fire_before_handler (route_table_of (Some hrm) (he_world e)) e else (e, None) in
        match sc with
        | Some r => (_ ← emplace_response r; mret true) (leave_request e s)
        | None => (leave_request e s, Ok false)
        end
    end.

(** A response from a hook replaces the one the context points to. *)
Definition fire_after_handler_gated (res : option nat) (s : dstate) : dstate :=
  let w := world_of s in
  let server := server_gate after_handler w in
  let per_route := route_gate res after_handler w in
  if negb server && negb per_route then s
  else match response (conn s) with
  | None => s
  | Some resp =>
      let e := env_of after_handler_ctx (Some resp) s in
      let '(e, sc) := if server then fire_after_handler (hooks_ w) e else (e, None) in
      let s := leave_response e s in
      let s := match sc with Some r => fst (emplace_response r s) | None => s end in
      let e := HookEnv (he_ctx e) (request (conn s)) (response (conn s)) (world_of s) in
      let '(e, sc) := if per_route
        then route_fire_after_handler (route_table_of res (he_world e)) e else (e, None) in
      let s := leave_response e s in
      match sc with Some r => fst (emplace_response r s) | None => s end
  end.

Definition response_size (r : http_response) : Z := match body_ r with Some b => body_size b | None => 0 end.

Definition fire_response_sent_gated (res : option nat) (s : dstate) : dstate :=
  let w := world_of s in
  let user_gate := server_gate response_sent w || route_gate res response_sent w in
  if negb user_gate && negb (bool_decide (is_Some (log_access_alias_ (hooks_ w)))) then s
  else match response (conn s) with
  | None => s
  | Some resp =>
      let e := env_of (response_sent_ctx (status_code_ resp) (response_size resp)) (Some resp) s in
      let e := fire_response_sent (hooks_ w) e in
      let e := if route_gate res response_sent w
        then route_fire_response_sent (route_table_of res (he_world e)) e else e in
      leave_const e s
  end.

(** [alive]: the resource [resource_weak_] refers to still has an owner. *)
Definition fire_request_completed_gated (alive : nat -> bool) (completed_ok : bool) (s : dstate) : dstate :=
  let w := world_of s in
  let server := server_gate request_completed w in
  let res := if server || route_has_hook_table_ (conn s)
    then resource_weak_ (conn s) ≫= fun id => if alive id then Some id else None else None in
  let per_route := route_gate res request_completed w in
  if negb server && negb per_route then s
  else
    let e := env_of (request_completed_ctx completed_ok) (response (conn s)) s in
    let e := if server then fire_request_completed (hooks_ w) e else e in
    let e := if per_route
      then route_fire_request_completed (route_table_of res (he_world e)) e else e in
    leave_const e s.

(** ** Dispatch to the resource *)

(** The outcome: the resource found, its captures set as arguments. *)
Definition resolve_resource_for_request : stx dstate (option nat) := fun s =>
  let w := world_of s in
  let need_path_template := server_gate route_resolved w || server_gate before_handler w in
  match lookup (method_enum (conn s)) (standardized_url (conn s)) (srv w) with
  | (sv, Throw e) => (on_world (fun w => set_srv w sv) s, Throw e)
  | (sv, Undefined) => (on_world (fun w => set_srv w sv) s, Undefined)
  | (sv, Ok result) =>
      let s := on_world (fun w => set_srv w sv) s in
      if negb (found result) then (s, Ok None)
      else match handler (lr_entry result) with
      | None => (s, Ok None)
      | Some hrm =>
          let s := on_conn (with_request
            ((fun r => foldl (fun r nv => set_arg r (fst nv) (snd nv)) r (captured_params result)) <$> request (conn s))) s in
          let s := if need_path_template
            then on_conn (with_match (standardized_url (conn s)) (is_prefix (lr_entry result))) s else s in
          (s, Ok (Some hrm))
      end
  end.

(** The body of the catch blocks. *)
Definition handle_dispatch_exception (message : bytes) : stx dstate unit := fun s =>
  let w := world_of s in
  let res := resource_weak_ (conn s) in
  let per_route := route_gate res handler_exception w in
  let server_chain := server_gate handler_exception w || bool_decide (is_Some (handler_exception_alias_ (hooks_ w))) in
  if server_chain || per_route then
    let e := env_of (handler_exception_ctx message) None s in
    let '(e, sc) := if server_chain then fire_handler_exception (hooks_ w) e else (e, None) in
    match sc with
    | Some r => emplace_response r (leave_const e s)
    | None =>
        let '(e, sc) := if per_route
          then route_fire_handler_exception (route_table_of res (he_world e)) e else (e, None) in
        match sc with
        | Some r => emplace_response r (leave_const e s)
        | None => (r ← internal_error_page [] true; emplace_response r) (leave_const e s)
        end
    end
  else (r ← run_internal_error_handler_safely message; emplace_response r) s.

(** The call through the member pointer [conn->callback]: a lambda resource overrides
    seven [render_*]; the others are those of [http_resource], which return
    [http_response{}].  A null member pointer is undefined behaviour. *)
Definition invoke_callback (hrm : nat) : stx dstate http_response := fun s =>
  match callback (conn s), heap (srv (world_of s)) !! hrm with
  | Some m, Some (LambdaResource _ slots) =>
      if bool_decide (m ∈ [get; post; put; del; patch; options; head]) then
        match slots !! Z.to_nat (method_index m) with
        | Some (Some h) => (r ← get_request; user_call (user_handler h r)) s
        | _ => (r ← stx_lift (string_response (bs "Internal Server Error: unregistered method slot invoked") (bs "text/plain"));
                stx_lift (with_status r 500)) s
        end
      else (s, Ok new_response)
  | Some m, Some (UserResource _) => (r ← get_request; user_call (user_render hrm m r)) s
  | _, _ => (s, Undefined)
  end.

(** [hrm->get_allow_header()], which may fill the resource's cache. *)
Definition allow_header_of (hrm : nat) : stx dstate bytes := fun s =>
  match heap (srv (world_of s)) !! hrm with
  | Some r =>
      let '(mask, text) := get_allow_header (res_mask r) in
      let r := match r with UserResource _ => UserResource mask | LambdaResource _ slots => LambdaResource mask slots end in
      let sv := srv (world_of s) in
      (on_world (fun w => set_srv w (Server (routes_ sv) (<[hrm := r]> (heap sv)) (next_id sv))) s, Ok text)
  | None => (s, Undefined)
  end.

Definition resource_allows (hrm : nat) (s : dstate) : bool :=
  match heap (srv (world_of s)) !! hrm with
  | Some r => is_allowed (res_mask r) (method_enum (conn s))
  | None => false
  end.

(** [conn->response->with_header(...)] *)
Definition response_with_header (key value : bytes) : stx dstate unit := fun s =>
  match response (conn s) with
  | Some r =>
      match with_header r key value with
      | Ok r => (on_conn (with_response (Some r)) s, Ok ())
      | Throw e => (s, Throw e)
      | Undefined => (s, Undefined)
      end
  | None => (s, Undefined)
  end.

Definition run_handler (hrm : nat) : stx dstate unit :=
  _ ← stx_modify (on_conn (with_pp false));
  allowed ← stx_gets (resource_allows hrm);
  if allowed : bool then
    r ← invoke_callback hrm;
    _ ← emplace_response r;
    stx_when (status_code_ r =? -1)%Z
      (r ← run_internal_error_handler_safely (bs "handler returned null response"); emplace_response r)
  else
    r ← method_not_allowed_page;
    _ ← emplace_response r;
    header_value ← allow_header_of hrm;
    stx_when (negb (is_empty header_value)) (response_with_header http_header_allow header_value).

Definition dispatch_resource_handler (hrm : nat) : stx dstate unit :=
  stx_try (run_handler hrm) (fun e =>
    match e with
    | unknown_exception =>
        _ ← log_error (bs "dispatch: handler threw unknown exception");
        handle_dispatch_exception (what e)
    | _ =>
        _ ← log_error (bs "dispatch: handler threw std::exception: " ++ what e);
        handle_dispatch_exception (what e)
    end).

(** ** From the response object to the queued response *)

(** [materialize_response(conn->response ? &*conn->response : nullptr)] *)
Definition try_materialize : stx dstate (option mhd_create) := fun s =>
  match response (conn s) with
  | Some r =>
      match body_ r with
      | Some b =>
          let '(b, m, events) := materialize b in
          (on_fds events (on_conn (with_response (Some (set_body r (kind_ r) (Some b) (body_inline_ r)))) s), Ok m)
      | None => (s, Ok None)
      end
  | None => (s, Ok None)
  end.

Definition emplace_and_materialize (r : http_response) : stx dstate (option mhd_create) :=
  _ ← emplace_response r; try_materialize.

Definition get_raw_response_with_fallback : stx dstate (option mhd_create) :=
  let or_null f := stx_try f (fun _ => mret None) in
  stx_try
    (raw ← try_materialize;
     match raw with
     | None =>
         r ← run_internal_error_handler_safely (bs "materialize_response returned null");
         emplace_and_materialize r
     | Some raw => mret (Some raw)
     end)
    (fun e =>
       match e with
       | invalid_argument _ => or_null (r ← not_found_page; emplace_and_materialize r)
       | std_exception m =>
           _ ← log_error (bs "materialize threw: " ++ m);
           or_null (r ← run_internal_error_handler_safely m; emplace_and_materialize r)
       | unknown_exception =>
           _ ← log_error (bs "materialize threw unknown exception");
           or_null (r ← run_internal_error_handler_safely (bs "unknown exception"); emplace_and_materialize r)
       end).

(** The header and footer lines added to the response; rendering a cookie may
    throw. *)
Fixpoint cookie_lines (l : list cookie) : outcome (list (bytes * bytes)) :=
  match l with
  | [] => Ok []
  | c :: l => line ← to_set_cookie_header c; lines ← cookie_lines l; Ok ((bs "Set-Cookie", line) :: lines)
  end.

Definition decorate_mhd_response (raw : mhd_create) (resp : http_response) : outcome mhd_response :=
  lines ← cookie_lines (structured_cookies_ resp);
  Ok (MhdResponse raw (headers_ resp ++ lines) (footers_ resp)).

Definition queue_response_dispatching_kind (resp : http_response) (r : mhd_response) : outcome mhd_event :=
  match kind_ resp, body_ resp with
  | bk_digest_challenge, Some (digest_challenge_response_body (Some p)) => Ok (
      MhdQueueAuth (realm p) (if is_empty (opaque p) then digest_opaque_ cfg else opaque p)
        (if is_empty (domain p) then None else Some (domain p)) r (signal_stale p) (qop_auth p) (algorithm p)
        (userhash_support p) (prefer_utf8 p))
  | bk_digest_challenge, Some _ => Undefined
  | _, _ => Ok (MhdQueue (wrap32 (status_code_ resp)) r)
  end.

Definition queue_raw (raw : mhd_create) (res : option nat) : stx dstate bool := fun s =>
  match response (conn s) with
  | None => (s, Undefined)
  | Some resp =>
      match r ← decorate_mhd_response raw resp;
            ev ← queue_response_dispatching_kind resp r;
            Ok (r, ev)
      with
      | Throw e => (s, Throw e)
      | Undefined => (s, Undefined)
      | Ok (r, ev) =>
          let s := fire_response_sent_gated res (on_mhd ev s) in
          (on_mhd (MhdDestroy r) s, Ok (mhd_queues ev))
      end
  end.

Definition materialize_and_queue_response (res : option nat) : stx dstate bool :=
  raw ← get_raw_response_with_fallback;
  match raw with
  | Some raw => queue_raw raw res
  | None =>
      _ ← log_error (bs "materialize_and_queue_response: get_raw_response_with_fallback returned null; forcing hardcoded empty-body 500");
      r ← internal_error_page [] true;
      raw ← emplace_and_materialize r;
      match raw with
      | None => mret false
      | Some raw => queue_raw raw res
      end
  end.

(** ** The callbacks *)

(** [finalize_answer], built without websocket support. *)
Definition finalize_answer : stx dstate bool := fun s =>
  if skip_handler (conn s) then materialize_and_queue_response None s
  else
   (hrm ← resolve_resource_for_request;
    match hrm with
    | Some id =>
        _ ← stx_modify (fun s => on_conn (with_has_table (bool_decide (is_Some (hook_table_raw_ hrm (world_of s))))) s);
        _ ← stx_modify (fun s =>
              if route_has_hook_table_ (conn s) || server_gate request_completed (world_of s)
              then on_conn (with_weak hrm) s else s);
        _ ← stx_modify (fire_route_resolved_gated true hrm);
        responded ← fire_before_handler_gated id;
        if responded : bool then materialize_and_queue_response hrm
        else
          _ ← dispatch_resource_handler id;
          _ ← stx_modify (fire_after_handler_gated hrm);
          materialize_and_queue_response hrm
    | None =>
        _ ← stx_modify (fire_route_resolved_gated false None);
        has ← stx_gets (fun s => bool_decide (is_Some (response (conn s))));
        _ ← stx_when (negb has) (r ← not_found_page; emplace_response r);
        _ ← stx_modify (fire_after_handler_gated None);
        materialize_and_queue_response None
    end) s.

(** [resolve_method_callback(method, conn)] *)
Definition method_has_body (m : http_method) : bool := bool_decide (m ∈ [post; put; del; patch]).

Definition resolve_method_callback (method : bytes) (c : connection_context) : connection_context :=
  match List.find (fun m => bytes_eqb method (to_string m))
          [get; post; put; del; patch; head; connect; trace; options] with
  | Some m => with_method m (Some m) (method_has_body m || has_body c) c
  | None => c
  end.

Definition lower_char (c : ascii) : ascii :=
  if ((65 <=? code c) && (code c <=? 90))%Z then chr (code c + 32) else c.

(** [0 == strncasecmp(prefix, s, strlen(prefix))] *)
Definition has_prefix_nocase (prefix s : bytes) : bool :=
  bytes_eqb (map lower_char prefix) (map lower_char (take (length prefix) s)).

Definition first_request : R :=
  set_expose_credentials_in_logs (set_file_cleanup_callback (make_request (unescaper cfg)) (file_cleanup_callback cfg))
    (expose_credentials_in_logs cfg).

Definition is_form (content_type : option bytes) : bool :=
  match content_type with
  | Some enc =>
      (has_prefix_nocase (bs "application/x-www-form-urlencoded") enc || has_prefix_nocase (bs "multipart/form-data") enc)
      && mhd_create_post_processor enc
  | None => false
  end.

Definition requests_answer_first_step (content_type : option bytes) : stx dstate bool := fun s =>
  let s := on_conn (with_request (Some first_request)) s in
  let '(s, sc) := if server_gate request_received (world_of s) then fire_request_received_phase s else (s, None) in
  match sc with
  | Some r => (_ ← emplace_response r; _ ← stx_modify (on_conn with_skip); mret true) s
  | None =>
      if negb (has_body (conn s)) then (s, Ok true)
      else match request (conn s) with
      | None => (s, Undefined)
      | Some r =>
          let s := on_conn (with_request (Some (set_content_size_limit r (content_size_limit cfg)))) s in
          (on_conn (with_pp (post_process_enabled cfg && is_form content_type)) s, Ok true)
      end
  end.

(** The first call of [answer_to_connection] for a request. *)
Definition answer_first (url method : bytes) (content_type : option bytes) : stx dstate bool := fun s =>
  match base_unescaper url (unescaper cfg) with
  | Ok (t_url, _) =>
      let s := on_conn (with_url (normalize_path (standardize_url t_url))) s in
      let s := on_conn (resolve_method_callback method) s in
      requests_answer_first_step content_type s
  | Throw e => (s, Throw e)
  | Undefined => (s, Undefined)
  end.

(** A later call with a chunk of the body. *)
Definition answer_chunk (chunk : bytes) : stx dstate bool := fun s =>
  if negb (has_body (conn s)) then (s, Ok true)
  else if skip_handler (conn s) then (s, Ok true)
  else
    let '(s, sc) := if server_gate body_chunk (world_of s) then fire_body_chunk_phase chunk s else (s, None) in
    match sc with
    | Some r =>
        (_ ← emplace_response r;
         _ ← stx_modify (on_conn with_skip);
         _ ← stx_modify (on_conn (with_pp false));
         mret true) s
    | None =>
        match request (conn s) with
        | None => (s, Undefined)
        | Some r =>
            let r := if negb (pp (conn s)) || put_processed_data_to_content cfg then grow_content r chunk else r in
            let r := if pp (conn s) then mhd_post_process r chunk else r in
            (on_conn (with_request (Some r)) s, Ok true)
        end
    end.

(** The last call, without data: [complete_request]. *)
Definition answer_end (method version : bytes) : stx dstate bool :=
  r ← get_request;
  _ ← stx_modify (fun s =>
        on_conn (with_request (Some (set_version (set_method (set_path r (standardized_url (conn s))) method) version))) s);
  finalize_answer.

Fixpoint answer_chunks (chunks : list bytes) : stx dstate unit :=
  match chunks with
  | [] => mret ()
  | c :: chunks => _ ← answer_chunk c; answer_chunks chunks
  end.

(** A whole request: the calls libmicrohttpd makes until the response is
    queued. *)
Definition answer_to_connection (url method version : bytes) (content_type : option bytes) (chunks : list bytes)
    : stx dstate bool :=
  _ ← answer_first url method content_type;
  _ ← answer_chunks chunks;
  answer_end method version.

(** [request_completed]: the hooks, then the context is destroyed with the
    response it anchors. *)
Definition request_completed_callback (alive : nat -> bool) (completed_ok : bool) (s : dstate) : dstate :=
  let s := fire_request_completed_gated alive completed_ok s in
  on_fds (response_fds (response (conn s))) (on_conn (with_response None) s).

End Dispatch.
End Dispatch.
Import Dispatch.
