(* ===== verification/DispatchSafety.v ===== *)
(** * A request gets one response

    The safety of [Dispatch]: whatever hooks and handlers do within their
    interface, answering a request runs into no undefined behaviour, lets only
    the named exceptions out and queues exactly one response. *)

From S2P Require Import Prelude HttpUtils HttpMethod Paths RouteCache Regex HttpEndpoint RouteTable Registration.
From S2P Require Import Cookie OrderedMap HttpResponse HookBus Request Dispatch.
Import HttpUtils.Unescape HttpUtils.HttpUtils MethodSetOps ResourceMask RouteTable.RouteTable Registration.Registration.
Import Cookie.Cookie HttpResponse.Response HookBus.Hooks Dispatch.Dispatch.

(** ** Total-correctness triples with an exceptional postcondition *)

Section Triples.
Context {S : Type}.

Definition tri {A} (P : S -> Prop) (f : stx S A) (Q : A -> S -> Prop) (E : S -> Prop) : Prop :=
  forall s, P s ->
    match f s with
    | (s', Ok a) => Q a s'
    | (s', Throw _) => E s'
    | (_, Undefined) => False
    end.

Lemma tri_bind {A B} P (f : stx S A) Q (g : A -> stx S B) R E :
  tri P f Q E -> (forall a, tri (Q a) (g a) R E) -> tri P (f ≫= g) R E.
Proof.
  intros Hf Hg s Hs. specialize (Hf s Hs). unfold mbind, stx_bind. destruct (f s) as [s' [a|e|]]; [|done..].
  by apply Hg.
Qed.

Lemma tri_ret {A} (a : A) (P : S -> Prop) (Q : A -> S -> Prop) E : (forall s, P s -> Q a s) -> tri P (mret a) Q E.
Proof. intros H s Hs. by apply H. Qed.

Lemma tri_lift {A} (a : A) (P : S -> Prop) (Q : A -> S -> Prop) E :
  (forall s, P s -> Q a s) -> tri P (stx_lift (Ok a)) Q E.
Proof. intros H s Hs. by apply H. Qed.

Lemma tri_modify (f : S -> S) (P : S -> Prop) (Q : unit -> S -> Prop) E :
  (forall s, P s -> Q () (f s)) -> tri P (stx_modify f) Q E.
Proof. intros H s Hs. by apply H. Qed.

Lemma tri_gets {A} (f : S -> A) (P : S -> Prop) (Q : A -> S -> Prop) E :
  (forall s, P s -> Q (f s) s) -> tri P (stx_gets f) Q E.
Proof. intros H s Hs. by apply H. Qed.

Lemma tri_try {A} P (f : stx S A) (h : exn -> stx S A) Q E E' :
  tri P f Q E' -> (forall e, tri E' (h e) Q E) -> tri P (stx_try f h) Q E.
Proof.
  intros Hf Hh s Hs. specialize (Hf s Hs). unfold stx_try. destruct (f s) as [s' [a|e|]]; [done| |done].
  by apply Hh.
Qed.

Lemma tri_when b (f : stx S unit) P Q E :
  (b = true -> tri P f Q E) -> (b = false -> forall s, P s -> Q () s) -> tri P (stx_when b f) Q E.
Proof. destruct b; simpl; intros H1 H2; [by apply H1|intros s Hs; by apply H2]. Qed.

Lemma tri_weaken {A} (P P' : S -> Prop) (f : stx S A) (Q Q' : A -> S -> Prop) (E E' : S -> Prop) :
  tri P f Q E -> (forall s, P' s -> P s) -> (forall a s, Q a s -> Q' a s) -> (forall s, E s -> E' s) -> tri P' f Q' E'.
Proof.
  intros H HP HQ HE s Hs. specialize (H s (HP s Hs)). destruct (f s) as [s' [a|e|]]; auto.
Qed.

End Triples.

Section Safety.
Context `{RegexEngine, StdHash, !StdHashOk, MhdCreate, BodyFits} {R : Type} `{HttpRequest R} {App : Type}.
Context (mhd_queues : mhd_event -> bool) (mhd_create_post_processor : bytes -> bool) (mhd_post_process : R -> bytes -> R).
Context (cfg : Dispatch.config).
Context `{!@UserCode _ R App}.

#[local] Abbreviation world := (@Dispatch.world _ App).
#[local] Abbreviation dstate := (@Dispatch.dstate _ R App).
#[local] Abbreviation hook_env := (@Dispatch.hook_env _ R App).
#[local] Abbreviation code := (hook_code cfg).

(** ** What user code is held to *)

(** A response whose cookies can be rendered, and whose digest body is there
    when its kind says so. *)
Record sendable (r : http_response) : Prop := {
  se_cookies : exists lines, cookie_lines (structured_cookies_ r) = Ok lines;
  se_digest : kind_ r = bk_digest_challenge -> body_ r = None \/ exists p, body_ r = Some (digest_challenge_response_body (Some p));
}.

Definition opt_sendable (o : option http_response) : Prop := match o with Some r => sendable r | None => True end.

(** Routes and resources are well formed; no resource allows the method sentinel. *)
Definition wf_server (s : server nat) : Prop :=
  server_ok s /\ forall id r, heap s !! id = Some r -> is_allowed (res_mask r) count_ = false.

(** The server stays well formed and no resource disappears. *)
Definition grows (w w' : world) : Prop :=
  wf_server (srv w) ->
  wf_server (srv w') /\ forall id, is_Some (heap (srv w) !! id) -> is_Some (heap (srv w') !! id).

(** A hook keeps the request and response its context points to in place. *)
Record env_le (e e' : hook_env) : Prop := {
  el_world : grows (he_world e) (he_world e');
  el_request : is_Some (he_request e) -> is_Some (he_request e');
  el_response : is_Some (he_response e) -> is_Some (he_response e');
  el_sendable : opt_sendable (he_response e) -> opt_sendable (he_response e');
}.

Definition result_sendable (r : exn + http_response) : Prop :=
  match r with inl _ => True | inr r => sendable r end.

Class UserCodeOk : Prop := {
  hook_ok f e : env_le e (fst (user_hook f e))
    /\ match snd (user_hook f e) with inr (Some r) => sendable r | _ => True end;
  render_ok id m r w : grows w (fst (user_render id m r w)) /\ result_sendable (snd (user_render id m r w));
  handler_ok h r w : grows w (fst (user_handler h r w)) /\ result_sendable (snd (user_handler h r w));
  error_handler_ok h r msg w : grows w (fst (user_error_handler h r msg w))
    /\ result_sendable (snd (user_error_handler h r msg w));
}.
Context `{!UserCodeOk}.

Lemma grows_refl w : grows w w.
Proof. by intros Hs. Qed.

Lemma grows_trans w1 w2 w3 : grows w1 w2 -> grows w2 w3 -> grows w1 w3.
Proof. intros Ha Hb Hs. destruct (Ha Hs) as [Hs2 Hh1]. destruct (Hb Hs2) as [Hs3 Hh2]. split; [done|]. eauto. Qed.

Lemma grows_log msg w : grows w (log_dispatch_error cfg msg w).
Proof. unfold log_dispatch_error, grows. by destruct (has_log_error cfg). Qed.

#[export] Instance env_le_preorder : PreOrder env_le.
Proof.
  split.
  - intros e. by constructor.
  - intros e1 e2 e3 [] []. constructor; eauto using grows_trans.
Qed.

(** *** Firing keeps the environment *)

Lemma call_guarded_ok subject f (e : hook_env) :
  env_le e (fst (@call_guarded hook_env code subject f e))
  /\ opt_sendable (snd (@call_guarded hook_env code subject f e)).
Proof.
  unfold call_guarded. simpl. destruct (hook_ok f e) as [Hle Hr]. destruct (user_hook f e) as [e' [ex|a]]; simpl in *.
  - split; [|done]. etrans; [exact Hle|]. constructor; simpl; try done. apply grows_log.
  - split; [done|]. by destruct a.
Qed.

Lemma run_void_ok subject l (e : hook_env) : env_le e (@run_void hook_env code subject l e).
Proof.
  unfold run_void. revert e. induction l as [|x l IH]; intros e; simpl; [done|].
  etrans; [apply (proj1 (call_guarded_ok subject (fn x) e))|apply IH].
Qed.

Lemma run_short_circuit_ok subject l (e : hook_env) :
  env_le e (fst (@run_short_circuit hook_env code subject l e))
  /\ opt_sendable (snd (@run_short_circuit hook_env code subject l e)).
Proof.
  revert e. induction l as [|x l IH]; intros e; cbn [run_short_circuit]; [done|].
  destruct (call_guarded_ok subject (fn x) e) as [Hle Hs].
  destruct (call_guarded subject (fn x) e) as [e' [r|]]; simpl in *; [done|].
  destruct (IH e') as [Hle' Hs']. split; [by etrans|done].
Qed.

Lemma fire_void_ok name l (e : hook_env) : env_le e (@fire_hooks_for_phase hook_env code name l e).
Proof. unfold fire_hooks_for_phase. destruct (is_empty l); [done|apply run_void_ok]. Qed.

Lemma fire_sc_ok name l (e : hook_env) :
  env_le e (fst (@fire_short_circuit_hooks_for_phase hook_env code name l e))
  /\ opt_sendable (snd (@fire_short_circuit_hooks_for_phase hook_env code name l e)).
Proof. unfold fire_short_circuit_hooks_for_phase. destruct (is_empty l); [done|apply run_short_circuit_ok]. Qed.

Lemma fire_handler_exception_ok b (e : hook_env) :
  env_le e (fst (@fire_handler_exception hook_env code b e))
  /\ opt_sendable (snd (@fire_handler_exception hook_env code b e)).
Proof.
  unfold fire_handler_exception.
  destruct (run_short_circuit_ok (hook_subject (bs "handler_exception")) (hooks_handler_exception_ b) e) as [Hle Hs].
  destruct (run_short_circuit _ _ e) as [e' [r|]]; simpl in *; [done|].
  destruct (handler_exception_alias_ b) as [f|]; [|done].
  destruct (call_guarded_ok (bs "internal_error_handler") f e') as [Hle' Hs']. split; [by etrans|done].
Qed.

Lemma fire_response_sent_ok b (e : hook_env) : env_le e (@fire_response_sent hook_env code b e).
Proof.
  unfold fire_response_sent. etrans; [apply fire_void_ok|].
  destruct (log_access_alias_ b) as [f|]; [apply call_guarded_ok|done].
Qed.

(** ** The invariant of a request *)

(** [m] is what libmicrohttpd was told so far, [res] a resource in use. *)
Record good (m : list mhd_event) (res : option nat) (s : dstate) : Prop := {
  g_server : wf_server (srv (world_of s));
  g_live id : res = Some id -> is_Some (heap (srv (world_of s)) !! id);
  g_request : is_Some (request (conn s));
  g_response : opt_sendable (response (conn s));
  g_callback : match callback (conn s) with
    | Some c => c = method_enum (conn s) /\ c <> count_ | None => method_enum (conn s) = count_ end;
  g_mhd : mhd s = m;
}.

Abbreviation keeps_good m res f Q E := (tri (good m res) f (fun a s => good m res s /\ Q a s) (fun s => good m res s /\ E)).

Lemma good_world m res s w :
  good m res s -> grows (world_of s) w -> good m res (on_world (fun _ => w) s).
Proof. intros [] Hg. destruct (Hg g_server0) as [Hs Hh]. constructor; simpl; eauto. Qed.

Lemma good_response m res s r : good m res s -> sendable r -> good m res (on_conn (with_response (Some r)) s).
Proof. intros [] Hr. by constructor. Qed.

Lemma good_fds m res s l : good m res s -> good m res (on_fds l s).
Proof. intros []. by constructor. Qed.

Lemma good_const m res s (e : hook_env) resp ctx :
  good m res s -> env_le (env_of ctx resp s) e -> good m res (leave_const e s).
Proof. intros Hg [Hw _ _ _]. by apply good_world. Qed.

Lemma good_leave_request m res s (e : hook_env) resp ctx :
  good m res s -> env_le (env_of ctx resp s) e -> good m res (leave_request e s).
Proof.
  intros Hg He. pose proof (good_const _ _ _ _ _ _ Hg He) as []. constructor; simpl; try done.
  apply (el_request _ _ He). apply Hg.
Qed.

Lemma emplace_good m res s r : good m res s -> sendable r -> good m res (fst (emplace_response r s)).
Proof. intros Hg Hr. simpl. by apply good_response, Hr; apply good_fds. Qed.

Lemma emplace_tri m res r : sendable r ->
  keeps_good m res (emplace_response r) (fun _ s => response (conn s) = Some r) False.
Proof. intros Hr s Hs. split; [by apply emplace_good|done]. Qed.

(** ** Pages *)

Definition page (text : bytes) (code : Z) : http_response :=
  emplace_body (set_headers (set_status new_response code) [(http_header_content_type, bs "text/plain")])
    bk_string (string_response_body text).

Lemma string_page_tri {S} text code (P : S -> Prop) (Q : http_response -> S -> Prop) E :
  (100 <= code <= 599)%Z -> (forall s, P s -> Q (page text code) s) ->
  tri P (r ← stx_lift (string_response text (bs "text/plain")); stx_lift (with_status r code)) Q E.
Proof.
  intros Hc HP s Hs. unfold mbind, stx_bind, stx_lift, string_response, with_header.
  change (validate_http_field (bs "with_header") http_header_content_type (bs "text/plain")) with (Ok ()).
  cbn. unfold with_status. destruct (code <? 100)%Z eqn:E1, (599 <? code)%Z eqn:E2; bool_prop; try lia.
  by apply HP.
Qed.

Lemma page_sendable text code : sendable (page text code).
Proof. constructor; [by exists []|done]. Qed.

Lemma hardcoded_tri {S} (P : S -> Prop) (Q : http_response -> S -> Prop) E :
  (forall s r, P s -> sendable r -> body_ r = Some (empty_response_body 0) -> status_code_ r = 500%Z -> Q r s) ->
  tri P (stx_lift (with_status (empty_response 0) 500)) Q E.
Proof. intros HP s Hs. cbn. apply HP; try done. constructor; [by exists []|done]. Qed.

Lemma get_request_tri m res : keeps_good m res get_request (fun r s => request (conn s) = Some r) False.
Proof. intros s Hs. unfold get_request. destruct (g_request _ _ _ Hs) as [r Hr]. rewrite Hr. by split. Qed.

Lemma user_call_tri m res (f : world -> world * (exn + http_response)) :
  (forall w, grows w (fst (f w)) /\ result_sendable (snd (f w))) ->
  tri (good m res) (user_call f) (fun r s => good m res s /\ sendable r)
    (fun s => good m res s /\ exists w e, snd (f w) = inl e).
Proof.
  intros Hf s Hs. unfold user_call. destruct (Hf (world_of s)) as [Hg Hr].
  destruct (f (world_of s)) as [w [e|r]] eqn:E; simpl in *.
  - split; [by apply good_world|]. exists (world_of s), e. by rewrite E.
  - split; [by apply good_world|done].
Qed.

(** The not-found handler throws on some request. *)
Definition not_found_throws : Prop :=
  exists h r (w : world) e, not_found_handler cfg = Some h /\ snd (user_handler h r w) = inl e.

Lemma not_found_tri m res :
  keeps_good m res (not_found_page cfg) (fun r _ => sendable r) not_found_throws.
Proof.
  unfold not_found_page. destruct (not_found_handler cfg) as [h|] eqn:Eh.
  - eapply tri_bind; [eapply tri_weaken; [apply get_request_tri|done|by intros a s Ha; exact (proj1 Ha)|by intros s []]|].
    intros r. eapply tri_weaken; [apply user_call_tri|done|done|]; [intros w; apply handler_ok|].
    intros s (Hs & w & e & He). split; [done|]. by exists h, r, w, e.
  - apply string_page_tri; [lia|]. intros s Hs. split; [done|apply page_sendable].
Qed.

Lemma method_not_allowed_tri m res :
  keeps_good m res (method_not_allowed_page cfg) (fun r _ => sendable r) True.
Proof.
  unfold method_not_allowed_page. destruct (method_not_allowed_handler cfg) as [h|].
  - eapply tri_bind; [eapply tri_weaken; [apply get_request_tri|done|by intros a s Ha; exact (proj1 Ha)|by intros s []]|].
    intros r. eapply tri_weaken; [apply user_call_tri|done|done|]; [intros w; apply handler_ok|].
    by intros s (Hs & _).
  - apply string_page_tri; [lia|]. intros s Hs. split; [done|apply page_sendable].
Qed.

Lemma force_our_tri m res :
  keeps_good m res (internal_error_page cfg [] true)
    (fun r _ => sendable r /\ body_ r = Some (empty_response_body 0) /\ status_code_ r = 500%Z) False.
Proof. apply hardcoded_tri. intros s r Hs Hr Hb Hc. by split. Qed.

Lemma internal_error_tri m res msg :
  keeps_good m res (internal_error_page cfg msg false) (fun r _ => sendable r) True.
Proof.
  unfold internal_error_page. destruct (internal_error_handler cfg) as [h|].
  - eapply tri_bind; [eapply tri_weaken; [apply get_request_tri|done|by intros a s Ha; exact (proj1 Ha)|by intros s []]|].
    intros r. eapply tri_weaken; [apply user_call_tri|done|done|]; [intros w; apply error_handler_ok|].
    by intros s (Hs & _).
  - apply string_page_tri; [lia|]. intros s Hs. split; [done|apply page_sendable].
Qed.

Lemma log_error_tri m res msg (P : dstate -> Prop) :
  (forall s, P s -> good m res s) -> tri P (log_error cfg msg) (fun _ => good m res) (fun _ => False).
Proof. intros HP. apply tri_modify. intros s Hs. apply (good_world _ _ _ (log_dispatch_error cfg msg (world_of s))); [auto|apply grows_log]. Qed.

(** The page behind [try]: no exception comes out. *)
Lemma run_safely_tri m res msg :
  keeps_good m res (run_internal_error_handler_safely cfg msg) (fun r _ => sendable r) False.
Proof.
  unfold run_internal_error_handler_safely. eapply tri_try; [apply internal_error_tri|]. intros _.
  eapply tri_bind; [eapply tri_weaken; [apply (log_error_tri m res _ (good m res))|by intros s []|done|by intros s []]; done|].
  intros []. eapply tri_weaken; [apply force_our_tri|done| |done]. by intros a s (? & ? & _).
Qed.

(** ** The gated firings *)

Lemma env_le_self ctx resp (s : dstate) : env_le (env_of ctx resp s) (env_of ctx resp s).
Proof. done. Qed.

Lemma fire_route_resolved_good m res found hrm s :
  good m res s -> good m res (fire_route_resolved_gated cfg found hrm s).
Proof.
  intros Hs. unfold fire_route_resolved_gated. destruct (negb _); [done|].
  eapply good_const; [done|]. apply fire_void_ok.
Qed.

(** An optional firing that may answer. *)
Lemma gated_sc_ok (b : bool) (f : hook_env -> hook_env * option http_response) e0 e :
  (forall e, env_le e (fst (f e)) /\ opt_sendable (snd (f e))) -> env_le e0 e ->
  let '(e', sc) := if b then f e else (e, None) in env_le e0 e' /\ opt_sendable sc.
Proof.
  intros Hf He. destruct b; [|done]. destruct (Hf e) as [Hle Hs]. destruct (f e) as [e' sc]. simpl in *.
  split; [by etrans|done].
Qed.

Lemma respond_tri m res s e ctx resp r :
  good m res s -> env_le (env_of ctx resp s) e -> sendable r ->
  match (_ ← emplace_response r; mret true) (leave_request e s) with
  | (s', Ok a) => good m res s' /\ (a = true -> is_Some (response (conn s')))
  | (s', Throw _) => good m res s' /\ False
  | (_, Undefined) => False
  end.
Proof.
  intros Hs He Hr. simpl. split; [|eauto].
  apply (emplace_good m res (leave_request e s) r); [by eapply good_leave_request|done].
Qed.

Lemma before_handler_tri m res hrm :
  keeps_good m res (fire_before_handler_gated cfg hrm) (fun a s => a = true -> is_Some (response (conn s))) False.
Proof.
  intros s Hs. unfold fire_before_handler_gated. destruct (_ && _); [by split|].
  set (ctx := before_handler_ctx _ _ _).
  pose proof (gated_sc_ok (server_gate before_handler (world_of s))
    (@fire_before_handler hook_env code (hooks_ (world_of s))) _ _ (fire_sc_ok _ _) (env_le_self ctx None s)) as H1'.
  destruct (if server_gate _ _ then _ else _) as [e sc]. destruct H1' as [He Hsc].
  destruct sc as [r|]; [by eapply respond_tri|].
  pose proof (gated_sc_ok (route_gate (Some hrm) before_handler (world_of s))
    (@route_fire_before_handler hook_env code (route_table_of (Some hrm) (he_world e))) _ _ (run_short_circuit_ok _ _) He) as H2'.
  destruct (if route_gate _ _ _ then _ else _) as [e' sc']. destruct H2' as [He' Hsc'].
  destruct sc' as [r|]; [by eapply respond_tri|].
  split; [|done]. by eapply good_leave_request.
Qed.

Lemma leave_response_good m res s (e : hook_env) r ctx :
  good m res s -> sendable r -> env_le (env_of ctx (Some r) s) e ->
  good m res (leave_response e s) /\ is_Some (response (conn (leave_response e s))).
Proof.
  intros Hs Hr He. pose proof (good_const _ _ _ _ _ _ Hs He) as []. split.
  - constructor; simpl; try done. by apply (el_sendable _ _ He).
  - simpl. apply (el_response _ _ He). simpl. eauto.
Qed.

Lemma after_handler_good m res hrm s :
  good m res s -> is_Some (response (conn s)) ->
  good m res (fire_after_handler_gated cfg hrm s) /\ is_Some (response (conn (fire_after_handler_gated cfg hrm s))).
Proof.
  intros Hs [r Hr]. unfold fire_after_handler_gated. destruct (_ && _); [rewrite Hr; eauto|]. rewrite Hr.
  assert (Hsr : sendable r) by (pose proof (g_response _ _ _ Hs) as Ho; by rewrite Hr in Ho).
  pose proof (gated_sc_ok (server_gate after_handler (world_of s))
    (@fire_after_handler hook_env code (hooks_ (world_of s))) _ _ (fire_sc_ok _ _) (env_le_self after_handler_ctx (Some r) s)) as H1'.
  destruct (if server_gate _ _ then _ else _) as [e sc]. destruct H1' as [He Hsc].
  destruct (leave_response_good m res s e r after_handler_ctx Hs Hsr He) as [Hg1 Hr1].
  set (s1 := match sc with Some r0 => _ | None => _ end).
  assert (Hg2 : good m res s1 /\ is_Some (response (conn s1))).
  { unfold s1. destruct sc as [r0|]; [|done]. split; [by apply emplace_good|simpl; eauto]. }
  clearbody s1. destruct Hg2 as [Hg2 [r2 Hr2]].
  assert (Hs2 : sendable r2) by (pose proof (g_response _ _ _ Hg2) as Ho; by rewrite Hr2 in Ho).
  set (e1 := HookEnv _ _ _ _). assert (He1 : env_le (env_of (he_ctx e) (Some r2) s1) e1) by (unfold e1; rewrite Hr2; done).
  pose proof (gated_sc_ok (route_gate hrm after_handler (world_of s))
    (@route_fire_after_handler hook_env code (route_table_of hrm (he_world e1))) _ _ (run_short_circuit_ok _ _) He1) as H2'.
  destruct (if route_gate _ _ _ then _ else _) as [e2 sc2]. destruct H2' as [He2 Hsc2].
  destruct (leave_response_good m res s1 e2 r2 _ Hg2 Hs2 He2) as [Hg3 Hr3].
  destruct sc2 as [r3|]; [|done]. split; [by apply emplace_good|simpl; eauto].
Qed.

Lemma response_sent_good m res hrm s : good m res s -> good m res (fire_response_sent_gated cfg hrm s).
Proof.
  intros Hs. unfold fire_response_sent_gated. destruct (_ && _); [done|]. destruct (response (conn s)) as [r|]; [|done].
  eapply good_const; [done|]. destruct (route_gate _ _ _).
  - etrans; [apply fire_response_sent_ok|apply run_void_ok].
  - apply fire_response_sent_ok.
Qed.

(** ** The handler and its exceptions *)

Lemma emplace_then m res r E :
  tri (fun s => good m res s /\ sendable r) (emplace_response r)
      (fun _ s => good m res s /\ response (conn s) = Some r) E.
Proof. intros s [Hs Hr]. split; [by apply emplace_good|done]. Qed.

Lemma page_then_emplace m res (f : stx dstate http_response) :
  keeps_good m res f (fun r _ => sendable r) False ->
  keeps_good m res (r ← f; emplace_response r) (fun _ s => is_Some (response (conn s))) False.
Proof.
  intros Hf. eapply tri_bind; [apply Hf|]. intros r s [Hs Hr]. split; [by apply emplace_good|]. simpl. eauto.
Qed.

Lemma handle_exception_tri m res msg :
  keeps_good m res (handle_dispatch_exception cfg msg) (fun _ s => is_Some (response (conn s))) False.
Proof.
  intros s Hs. unfold handle_dispatch_exception. destruct (_ || _).
  2: { exact (page_then_emplace m res _ (run_safely_tri m res msg) s Hs). }
  set (ctx := handler_exception_ctx msg).
  pose proof (gated_sc_ok (server_gate handler_exception (world_of s)
      || bool_decide (is_Some (handler_exception_alias_ (hooks_ (world_of s)))))
    (@fire_handler_exception hook_env code (hooks_ (world_of s))) _ _ (fire_handler_exception_ok _) (env_le_self ctx None s)) as H1'.
  destruct (if _ || _ then _ else _) as [e sc]. destruct H1' as [He Hsc].
  assert (Hend : forall e r, env_le (env_of ctx None s) e -> sendable r ->
    good m res (fst (emplace_response r (leave_const e s)))).
  { intros e0 r He0 Hr. apply emplace_good; [by eapply good_const|done]. }
  destruct sc as [r|]; [split; [by apply Hend|simpl; eauto]|].
  pose proof (gated_sc_ok (route_gate (resource_weak_ (conn s)) handler_exception (world_of s))
    (@route_fire_handler_exception hook_env code (route_table_of (resource_weak_ (conn s)) (he_world e))) _ _
    (run_short_circuit_ok _ _) He) as H2'.
  destruct (if route_gate _ _ _ then _ else _) as [e' sc']. destruct H2' as [He' Hsc'].
  destruct sc' as [r|]; [split; [by apply Hend|simpl; eauto]|].
  apply (page_then_emplace m res (internal_error_page cfg [] true)).
  - eapply tri_weaken; [apply force_our_tri|done| |done]. by intros a s0 (? & ? & _).
  - by eapply good_const.
Qed.

Lemma good_conn m res s f :
  good m res s ->
  request (f (conn s)) = request (conn s) -> response (f (conn s)) = response (conn s) ->
  callback (f (conn s)) = callback (conn s) -> method_enum (f (conn s)) = method_enum (conn s) ->
  good m res (on_conn f s).
Proof. intros [] H1' H2' H3' H4'. constructor; simpl; rewrite ?H1', ?H2', ?H3', ?H4'; done. Qed.

Lemma wf_allowed m res s id :
  good m res s -> resource_allows id s = true -> method_enum (conn s) <> count_.
Proof.
  intros [[_ Hm] _ _ _ _ _] Ha Hc. unfold resource_allows in Ha. destruct (heap _ !! id) as [r|] eqn:E; [|done].
  rewrite Hc, (Hm _ _ E) in Ha. done.
Qed.

Lemma new_response_sendable : sendable new_response.
Proof. constructor; [by exists []|done]. Qed.

Lemma invoke_tri m id :
  tri (fun s => good m (Some id) s /\ resource_allows id s = true) (invoke_callback id)
      (fun r s => good m (Some id) s /\ sendable r) (good m (Some id)).
Proof.
  intros s [Hs Ha]. unfold invoke_callback. pose proof (wf_allowed _ _ _ _ Hs Ha) as Hm.
  pose proof (g_callback _ _ _ Hs) as Hc. destruct (callback (conn s)) as [c|]; [|done]. destruct Hc as [-> _].
  destruct (g_live _ _ _ Hs id eq_refl) as [r Hr]. rewrite Hr.
  assert (Hcall : forall f : R -> world -> world * (exn + http_response),
    (forall r w, grows w (fst (f r w)) /\ result_sendable (snd (f r w))) ->
    tri (good m (Some id)) (r ← get_request; user_call (f r)) (fun r s => good m (Some id) s /\ sendable r) (good m (Some id))).
  { intros f Hf. eapply tri_bind; [eapply tri_weaken; [apply get_request_tri|done|by intros a s0 Ha0; exact (proj1 Ha0)|by intros s0 []]|].
    intros q. eapply tri_weaken; [apply user_call_tri|done|done|]; [intros w; apply Hf|]. by intros s0 [? _]. }
  destruct r as [mask|mask slots].
  - apply Hcall; [|done]. intros q w. apply render_ok.
  - destruct (bool_decide _); [|split; [done|apply new_response_sendable]].
    destruct (slots !! _) as [[h|]|].
    + apply Hcall; [|done]. intros q w. apply handler_ok.
    + by apply (string_page_tri _ 500 (good m (Some id)) (fun r s => good m (Some id) s /\ sendable r) (good m (Some id)));
        [lia|intros s0 Hs0; split; [done|apply page_sendable]|].
    + by apply (string_page_tri _ 500 (good m (Some id)) (fun r s => good m (Some id) s /\ sendable r) (good m (Some id)));
        [lia|intros s0 Hs0; split; [done|apply page_sendable]|].
Qed.

(** Reading the Allow header only fills the resource's cache. *)
Lemma heap_mask_ok (sv : server nat) id r r' :
  wf_server sv -> heap sv !! id = Some r ->
  methods_allowed_ (res_mask r') = methods_allowed_ (res_mask r) ->
  (forall mask slots, r' = LambdaResource mask slots -> exists mask', r = LambdaResource mask' slots) ->
  wf_server (Server (routes_ sv) (<[id := r']> (heap sv)) (next_id sv)).
Proof.
  intros [[S1 S2 S3] Hm] Hr Hma Hl.
  assert (Hdom : forall x, is_Some (<[id := r']> (heap sv) !! x) <-> is_Some (heap sv !! x)).
  { intros x. destruct (decide (id = x)) as [<-|Hne]; [rewrite lookup_insert_eq, Hr; split; eauto|by rewrite lookup_insert_ne]. }
  split; [constructor; simpl|simpl].
  - eapply all_entries_impl; [|exact S1]. intros e. apply live_mono. intros x. simpl. apply Hdom.
  - intros x mask slots. destruct (decide (id = x)) as [<-|Hne].
    + rewrite lookup_insert_eq. intros [= ->]. destruct (Hl _ _ eq_refl) as [mask' ->].
      destruct (S2 _ _ _ Hr) as [Hlen Hs]. split; [done|]. intros mt Hmt. rewrite <-Hs by done.
      unfold is_allowed. simpl in Hma. by rewrite Hma.
    + rewrite lookup_insert_ne by done. apply S2.
  - intros x. rewrite Hdom. apply S3.
  - intros x r0. destruct (decide (id = x)) as [<-|Hne].
    + rewrite lookup_insert_eq. intros [= <-]. rewrite <-(Hm _ _ Hr). unfold is_allowed. by rewrite Hma.
    + rewrite lookup_insert_ne by done. apply Hm.
Qed.

Lemma get_allow_header_mask r : methods_allowed_ (fst (get_allow_header r)) = methods_allowed_ r.
Proof. unfold get_allow_header. repeat case_match; simplify_eq/=; done. Qed.

Lemma allow_header_tri m id o E :
  tri (fun s => good m (Some id) s /\ response (conn s) = o) (allow_header_of id)
      (fun _ s => good m (Some id) s /\ response (conn s) = o) E.
Proof.
  intros s [Hs Ho]. unfold allow_header_of. destruct (g_live _ _ _ Hs id eq_refl) as [r Hr]. rewrite Hr.
  pose proof (get_allow_header_mask (res_mask r)) as Hm. destruct (get_allow_header (res_mask r)) as [mask text].
  simpl in Hm. split; [|done].
  apply (good_world _ _ _ (set_srv (world_of s) _)); [done|].
  intros Hw. split.
  - eapply heap_mask_ok; [exact Hw|exact Hr| |]; destruct r; simpl in *; try done. intros ? ? [= <- <-]. eauto.
  - intros x Hx. simpl. destruct (decide (id = x)) as [<-|Hne]; [rewrite lookup_insert_eq; eauto|by rewrite lookup_insert_ne].
Qed.

Lemma sendable_headers r hs : sendable r -> sendable (set_headers r hs).
Proof. intros []. by constructor. Qed.

Lemma response_with_header_tri m res key value :
  tri (fun s => good m res s /\ is_Some (response (conn s))) (response_with_header key value)
      (fun _ s => good m res s /\ is_Some (response (conn s))) (good m res).
Proof.
  intros s [Hs [r Hr]]. unfold response_with_header. rewrite Hr. unfold with_header.
  assert (Hsr : sendable r) by (pose proof (g_response _ _ _ Hs) as Ho; by rewrite Hr in Ho).
  destruct (validate_http_field_ok (bs "with_header") key value) as [(E & _)|[[e E] _]]; rewrite E; simpl; [|done].
  split; [by apply good_response, sendable_headers|eauto].
Qed.

Lemma run_handler_tri m id :
  tri (good m (Some id)) (run_handler cfg id) (fun _ s => good m (Some id) s /\ is_Some (response (conn s)))
      (good m (Some id)).
Proof.
  unfold run_handler. eapply tri_bind; [apply (tri_modify _ _ (fun _ => good m (Some id))); intros s Hs; by apply good_conn|].
  intros []. eapply tri_bind; [apply (tri_gets _ _ (fun a s => good m (Some id) s /\ resource_allows id s = a)); by intros s Hs|].
  intros [].
  - eapply tri_bind; [apply invoke_tri|]. intros r. eapply tri_bind; [apply emplace_then|]. intros []. apply tri_when.
    + intros _. eapply tri_weaken; [apply page_then_emplace, run_safely_tri|by intros s []|done|by intros s []].
    + intros _ s [Hs Hr]. rewrite Hr. eauto.
  - eapply tri_bind; [eapply tri_weaken; [apply method_not_allowed_tri|by intros s []|done|by intros s []]|]. intros r.
    eapply tri_bind; [apply emplace_then|]. intros [].
    eapply tri_bind; [apply allow_header_tri|].
    intros text. apply tri_when; [intros _; eapply tri_weaken; [apply (response_with_header_tri m (Some id))| |done|done]; intros s [Hs Hr]; rewrite Hr; eauto|].
    intros _ s [Hs Hr]. rewrite Hr. eauto.
Qed.

Lemma dispatch_tri m id :
  keeps_good m (Some id) (dispatch_resource_handler cfg id) (fun _ s => is_Some (response (conn s))) False.
Proof.
  unfold dispatch_resource_handler. eapply tri_try; [apply run_handler_tri|].
  intros e. assert (Hc : forall msg, keeps_good m (Some id) (_ ← log_error cfg msg; handle_dispatch_exception cfg (what e))
    (fun _ s => is_Some (response (conn s))) False).
  { intros msg. eapply tri_bind; [eapply tri_weaken; [apply (log_error_tri m (Some id) _ (good m (Some id)))|..]; try done; by intros s []|].
    intros []. apply handle_exception_tri. }
  destruct e; apply Hc.
Qed.

(** ** Resolution *)

Lemma lookup_heap mt p (sv : server nat) : heap (fst (lookup mt p sv)) = heap sv.
Proof. unfold lookup, lift_table. by destruct (lookup_v2 mt p (routes_ sv)). Qed.

Lemma resolve_tri m :
  tri (good m None) (resolve_resource_for_request) (fun o s => good m o s) (fun _ => False).
Proof.
  intros s Hs. unfold resolve_resource_for_request. pose proof (g_server _ _ _ Hs) as [Hso Hma].
  destruct (lookup_ok _ (method_enum (conn s)) (standardized_url (conn s)) Hso) as (sv & r & E & Hsv & Hlive).
  pose proof (lookup_heap (method_enum (conn s)) (standardized_url (conn s)) (srv (world_of s))) as Hh.
  rewrite E in *. simpl in Hh.
  assert (Hg : good m None (on_world (fun w => set_srv w sv) s)).
  { apply (good_world _ _ _ (set_srv (world_of s) sv)); [done|]. intros _. split; [split; [done|simpl; by rewrite Hh]|].
    simpl. by rewrite Hh. }
  destruct (negb (found r)) eqn:Ef; [done|]. apply negb_false_iff in Ef.
  destruct (handler (lr_entry r)) as [hrm|] eqn:Eh; [|done].
  destruct (Hlive Ef) as (id & Hid & Hl). rewrite Eh in Hid. injection Hid as <-.
  assert (Hg' : forall s', good m None s' -> heap (srv (world_of s')) = heap sv -> good m (Some hrm) s').
  { intros s' [] Hheap. constructor; try done. intros id [= <-]. by rewrite Hheap. }
  apply Hg'; [|by destruct (_ || _)]. destruct Hg.
  destruct (_ || _); constructor; simpl; try done; by apply fmap_is_Some.
Qed.

(** ** Materialising and queueing *)

Lemma materialize_body_class (b : response_body) :
  body_kind_of (fst (fst (materialize b))) = body_kind_of b
  /\ forall p, b = digest_challenge_response_body p -> fst (fst (materialize b)) = b.
Proof.
  destruct b as [f|d|p sz fd mt|es t|fd mt|p|p]; simpl; try done.
  - destruct (fd =? -1)%Z; [done|]. destruct (negb _); [destruct (mhd_new _)|]; done.
  - by destruct (_ <? _)%Z.
  - by destruct (mhd_new _).
Qed.

Lemma try_materialize_tri m res E :
  tri (good m res) try_materialize (fun o s => good m res s /\ (o <> None -> is_Some (response (conn s)))) E.
Proof.
  intros s Hs. unfold try_materialize. destruct (response (conn s)) as [r|] eqn:Er; [|done].
  destruct (body_ r) as [b|] eqn:Eb; [|split; [done|rewrite Er; eauto]].
  pose proof (materialize_body_class b) as [_ Hb]. destruct (materialize b) as [[b' c] evs]. simpl in Hb.
  assert (Hr : sendable r) by (pose proof (g_response _ _ _ Hs) as Ho; by rewrite Er in Ho).
  split; [|simpl; eauto]. apply good_fds, good_response; [done|]. destruct Hr as [Hc Hd]. constructor; [done|].
  simpl. intros Hk. destruct (Hd Hk) as [Hn|[p Hp]]; rewrite Eb in *; [done|]. injection Hp as ->. right.
  exists p. by rewrite (Hb _ eq_refl).
Qed.

Lemma emplace_materialize_tri m res r E :
  tri (fun s => good m res s /\ sendable r) (emplace_and_materialize r)
      (fun o s => good m res s /\ (o <> None -> is_Some (response (conn s)))) E.
Proof.
  unfold emplace_and_materialize. eapply tri_bind; [apply emplace_then|]. intros [].
  eapply tri_weaken; [apply (try_materialize_tri m res E)|by intros s []|done|done].
Qed.

Lemma raw_response_tri m res :
  tri (good m res) (get_raw_response_with_fallback cfg)
      (fun o s => good m res s /\ (o <> None -> is_Some (response (conn s)))) (fun _ => False).
Proof.
  unfold get_raw_response_with_fallback. eapply tri_try with (E' := fun _ => False); [|by intros e s].
  eapply tri_bind; [apply try_materialize_tri|]. intros [raw|].
  - apply tri_ret. intros s [Hs Hr]. split; [done|]. intros _. by apply Hr.
  - eapply tri_bind; [eapply tri_weaken; [apply (run_safely_tri m res)|by intros s []|done|by intros s []]|].
    intros r. apply emplace_materialize_tri.
Qed.

(** A queue event and the response it carries. *)
Definition queued_response (e : mhd_event) : option mhd_response :=
  match e with
  | MhdQueue _ r | MhdQueueAuth _ _ _ r _ _ _ _ _ => Some r
  | MhdDestroy _ => None
  end.

(** One response was queued and released. *)
Definition one_response (m : list mhd_event) (b : bool) (s : dstate) : Prop :=
  exists ev r, mhd s = m ++ [ev; MhdDestroy r] /\ queued_response ev = Some r /\ b = mhd_queues ev.

Lemma queue_kind_ok r resp :
  sendable resp -> exists ev, queue_response_dispatching_kind cfg resp r = Ok ev /\ queued_response ev = Some r.
Proof.
  intros [_ Hd]. unfold queue_response_dispatching_kind. destruct (kind_ resp); try (by eexists).
  destruct (Hd eq_refl) as [-> |[p ->]]; by eexists.
Qed.

Lemma queue_raw_tri m res raw :
  tri (fun s => good m res s /\ is_Some (response (conn s))) (queue_raw mhd_queues cfg raw res)
      (fun b s => one_response m b s) (fun _ => False).
Proof.
  intros s [Hs [resp Hr]]. unfold queue_raw. rewrite Hr.
  assert (Hsr : sendable resp) by (pose proof (g_response _ _ _ Hs) as Ho; by rewrite Hr in Ho).
  unfold decorate_mhd_response. destruct (se_cookies _ Hsr) as [lines ->]. cbn [mbind outcome_bind].
  destruct (queue_kind_ok (MhdResponse raw (headers_ resp ++ lines) (footers_ resp)) resp Hsr) as (ev & -> & Hev).
  cbn [mbind outcome_bind].
  assert (Hg : good (m ++ [ev]) res (fire_response_sent_gated cfg res (on_mhd ev s))).
  { apply response_sent_good. destruct Hs. constructor; simpl; try done. by f_equal. }
  exists ev, (MhdResponse raw (headers_ resp ++ lines) (footers_ resp)). split_and!; try done.
  simpl. rewrite (g_mhd _ _ _ Hg). by rewrite <-app_assoc.
Qed.

(** The answer of the last step: one response, or none when libmicrohttpd
    refuses even the empty one. *)
Definition answered (m : list mhd_event) (b : bool) (s : dstate) : Prop :=
  one_response m b s \/ (mhd s = m /\ b = false /\ mhd_accepts (create_empty 0) = false).

Lemma force_materialize s r m res :
  good m res s -> body_ r = Some (empty_response_body 0) ->
  snd (emplace_and_materialize r s) = Ok (mhd_new (create_empty 0)).
Proof. intros Hs Hb. unfold emplace_and_materialize, mbind, stx_bind. simpl. unfold try_materialize. simpl. by rewrite Hb. Qed.

Lemma materialize_and_queue_tri m res :
  tri (good m res) (materialize_and_queue_response mhd_queues cfg res) (fun b s => answered m b s) (fun _ => False).
Proof.
  unfold materialize_and_queue_response. eapply tri_bind; [apply raw_response_tri|]. intros [raw|].
  { eapply tri_weaken; [apply (queue_raw_tri m res)| |intros b s Hb; by left|done].
    intros s [Hs Hr]. split; [done|by apply Hr]. }
  eapply tri_bind; [eapply tri_weaken; [apply (log_error_tri m res _ (good m res))|by intros s []|done|done]; done|]. intros [].
  eapply tri_bind; [eapply tri_weaken; [apply force_our_tri|done|done|by intros s []]|]. intros r.
  intros s (Hs & Hr & Hb & _). unfold mbind, stx_bind.
  pose proof (emplace_materialize_tri m res r (fun _ => False) s (conj Hs Hr)) as Ht.
  pose proof (force_materialize s r m res Hs Hb) as Hf.
  destruct (emplace_and_materialize r s) as [s' o]. simpl in Hf. subst o. destruct Ht as [Hs' Hr'].
  unfold mhd_new in *. destruct (mhd_accepts (create_empty 0)) eqn:Ea.
  - pose proof (queue_raw_tri m res (create_empty 0) s' (conj Hs' (Hr' ltac:(done)))) as Hq.
    destruct (queue_raw _ _ _ _ s') as [s2 [b|e|]]; [by left|done..].
  - right. split_and!; [apply Hs'|done|done].
Qed.

(** ** The whole request *)

Lemma finalize_tri m :
  tri (good m None) (finalize_answer mhd_queues cfg) (fun b s => answered m b s) (fun _ => not_found_throws).
Proof.
  assert (Hq : forall res, tri (good m res) (materialize_and_queue_response mhd_queues cfg res)
    (fun b s => answered m b s) (fun _ => not_found_throws)).
  { intros res. eapply tri_weaken; [apply (materialize_and_queue_tri m res)|done|done|by intros s []]. }
  intros s Hs. unfold finalize_answer. destruct (skip_handler (conn s)); [exact (Hq None s Hs)|].
  revert s Hs.
  eapply (tri_bind (good m None)); [eapply tri_weaken; [apply resolve_tri|done|done|done]|]. intros [id|].
  - eapply tri_bind; [apply (tri_modify _ _ (fun _ => good m (Some id))); intros s Hs; by apply good_conn|]. intros [].
    eapply tri_bind; [apply (tri_modify _ _ (fun _ => good m (Some id))); intros s Hs; destruct (_ || _); [by apply good_conn|done]|]. intros [].
    eapply tri_bind; [apply (tri_modify _ _ (fun _ => good m (Some id))); intros s Hs; by apply fire_route_resolved_good|]. intros [].
    eapply tri_bind; [eapply tri_weaken; [apply (before_handler_tri m (Some id))|done|done|by intros s []]|]. intros [].
    { eapply tri_weaken; [apply Hq|by intros s []|done|done]. }
    eapply tri_bind; [eapply tri_weaken; [apply (dispatch_tri m id)|by intros s []|done|by intros s []]|]. intros [].
    eapply tri_bind; [apply (tri_modify _ _ (fun _ => good m (Some id))); intros s [Hs Hr]; by apply after_handler_good|]. intros [].
    apply Hq.
  - eapply tri_bind; [apply (tri_modify _ _ (fun _ => good m None)); intros s Hs; by apply fire_route_resolved_good|]. intros [].
    eapply tri_bind; [apply (tri_gets _ _ (fun a s => good m None s /\ (a = true -> is_Some (response (conn s)))));
      intros s Hs; split; [done|apply bool_decide_eq_true]|]. intros has.
    eapply tri_bind.
    { apply (tri_when _ _ _ (fun _ s => good m None s /\ is_Some (response (conn s)))).
      - intros _. eapply tri_bind; [eapply tri_weaken; [apply (not_found_tri m None)|by intros s []|done|by intros s []]|].
        intros r. eapply tri_weaken; [apply (emplace_then m None r (fun _ => not_found_throws))|done| |done].
        intros [] s [Hs Hr]. rewrite Hr. eauto.
      - intros Hh%negb_false_iff s [Hs Hr]. auto. }
    intros []. eapply tri_bind; [apply (tri_modify _ _ (fun _ => good m None)); intros s [Hs Hr]; by apply after_handler_good|].
    intros []. apply Hq.
Qed.

Lemma base_unescaper_ok s u : exists r n, base_unescaper s u = Ok (r, n).
Proof.
  unfold base_unescaper, str_at. rewrite decide_True by lia. cbn [mbind outcome_bind].
  destruct (ascii_eqb _ NUL); [eauto|]. destruct u; [eauto|]. rewrite http_unescape_decode. eauto.
Qed.

Lemma resolve_method_callback_ok method (c : @connection_context R) :
  callback c = None -> method_enum c = count_ ->
  match callback (resolve_method_callback method c) with
  | Some cb => cb = method_enum (resolve_method_callback method c) /\ cb <> count_
  | None => method_enum (resolve_method_callback method c) = count_
  end
  /\ response (resolve_method_callback method c) = response c.
Proof.
  intros Hc Hm. unfold resolve_method_callback. destruct (List.find _ _) as [m|] eqn:E; [|by rewrite Hc].
  apply List.find_some in E as [Hin _]. simpl. split; [|done]. split; [done|]. intros ->. simpl in Hin. intuition discriminate.
Qed.

Lemma answer_first_tri url method ct w :
  wf_server (srv w) ->
  tri (fun s => s = DState new_conn w [] []) (answer_first mhd_create_post_processor cfg url method ct) (fun _ => good [] None) (fun _ => False).
Proof.
  intros Hw s ->. unfold answer_first. destruct (base_unescaper_ok url (unescaper cfg)) as (u & n & ->).
  set (c := @resolve_method_callback R method (with_url (normalize_path (standardize_url u)) (@new_conn R))).
  destruct (resolve_method_callback_ok method (with_url (normalize_path (standardize_url u)) (@new_conn R)) eq_refl eq_refl) as [Hc Hr].
  unfold requests_answer_first_step. set (s1 := on_conn (with_request _) _).
  assert (Hg : good [] None s1).
  { constructor; simpl; rewrite ?Hr; try done; eauto. }
  clearbody s1.
  assert (Hend : forall s, good [] None s ->
    match (if negb (has_body (conn s)) then (s, Ok true) else match request (conn s) with
      | Some r => (on_conn (with_pp (post_process_enabled cfg && is_form mhd_create_post_processor ct))
                     (on_conn (with_request (Some (set_content_size_limit r (content_size_limit cfg)))) s), Ok true)
      | None => (s, Undefined) end) with
    | (s', Ok _) => good [] None s' | (_, Throw _) => False | (_, Undefined) => False end).
  { intros s2 Hs2. destruct (negb (has_body _)); [done|]. pose proof (g_request _ _ _ Hs2) as [r Hrr]. rewrite Hrr.
    destruct Hs2. by constructor. }
  destruct (server_gate request_received (world_of s1)).
  - unfold fire_request_received_phase.
    destruct (fire_sc_ok (bs "request_received") (hooks_request_received_ (hooks_ (world_of s1))) (env_of request_received_ctx None s1)) as [He Hsc].
    unfold fire_request_received. destruct (fire_short_circuit_hooks_for_phase _ _ _) as [e sc]. simpl in He, Hsc.
    pose proof (good_leave_request _ _ _ _ _ _ Hg He) as Hg'. destruct sc as [r|].
    + simpl. apply good_conn; [|done..]. by apply (emplace_good [] None (leave_request e s1) r).
    + by apply Hend.
  - by apply Hend.
Qed.

Lemma answer_chunk_tri m chunk :
  tri (good m None) (answer_chunk mhd_post_process cfg chunk) (fun _ => good m None) (fun _ => False).
Proof.
  intros s Hs. unfold answer_chunk. destruct (negb (has_body (conn s))); [done|].
  destruct (skip_handler (conn s)); [done|].
  assert (Hend : forall s', good m None s' ->
    match request (conn s') with
    | Some r => forall r', good m None (on_conn (with_request (Some r')) s') | None => False end).
  { intros s' [] . destruct (request (conn s')); [|by destruct g_request0]. intros r'. by constructor. }
  destruct (server_gate body_chunk (world_of s)).
  - unfold fire_body_chunk_phase. set (s1 := on_conn (with_seen _) s). assert (Hs1 : good m None s1) by (by apply good_conn).
    set (ctx := body_chunk_ctx _ _ _).
    destruct (fire_sc_ok (bs "body_chunk") (hooks_body_chunk_ (hooks_ (world_of s1))) (env_of ctx None s1)) as [He Hsc].
    unfold fire_body_chunk. destruct (fire_short_circuit_hooks_for_phase _ _ _) as [e sc]. simpl in He, Hsc.
    pose proof (good_leave_request _ _ _ _ _ _ Hs1 He) as Hg'. destruct sc as [r|].
    + simpl. apply good_conn; [|done..]. apply good_conn; [|done..]. by apply (emplace_good m None (leave_request e s1) r).
    + specialize (Hend _ Hg'). destruct (request _); [apply Hend|done].
  - specialize (Hend _ Hs). destruct (request _); [apply Hend|done].
Qed.

Lemma answer_chunks_tri m chunks :
  tri (good m None) (answer_chunks mhd_post_process cfg chunks) (fun _ => good m None) (fun _ => False).
Proof.
  induction chunks as [|c chunks IH]; [by apply tri_ret|].
  eapply tri_bind; [apply (answer_chunk_tri m)|]. intros b. apply IH.
Qed.

(** What can come of a request, the not-found handler throwing included. *)
Lemma answer_outcome url method version ct chunks (w : world) :
  wf_server (srv w) ->
  match answer_to_connection mhd_queues mhd_create_post_processor mhd_post_process cfg url method version ct chunks (DState new_conn w [] []) with
  | (s, Ok b) => answered [] b s
  | (_, Throw _) => not_found_throws
  | (_, Undefined) => False
  end.
Proof.
  intros Hw. unfold answer_to_connection.
  apply (tri_bind (fun s => s = DState new_conn w [] []) _ (fun _ => good [] None) _ (fun b s => answered [] b s) (fun _ => not_found_throws));
    [|intros b|done].
  { eapply tri_weaken; [by apply answer_first_tri|done|done|done]. }
  eapply tri_bind; [eapply tri_weaken; [apply (answer_chunks_tri [])|done|done|done]|]. intros [].
  unfold answer_end. eapply tri_bind; [eapply tri_weaken; [apply (get_request_tri [] None)|done|done|by intros s []]|].
  intros r. apply (tri_bind _ _ (fun _ => good [] None)); [|intros []; apply finalize_tri].
  apply tri_modify. intros s [Hs _]. destruct Hs. by constructor.
Qed.


End Safety.

(** ** Concrete requests *)

Section Examples.
#[local] Existing Instance literal_engine.
#[local] Existing Instance len_hash.
#[local] Existing Instance len_hash_ok.
#[local] Instance accepts_all : MhdCreate := fun _ => true.
#[local] Instance all_inline : BodyFits := fun _ => true.

(** A request that only records what it was told. *)
#[local] Instance log_request : HttpRequest (list (bytes * bytes)) := {
  make_request u := [];
  set_file_cleanup_callback r f := r;
  set_expose_credentials_in_logs r b := r;
  set_content_size_limit r n := r;
  set_arg r k v := r ++ [(k, v)];
  grow_content r c := r ++ [(bs "content", c)];
  set_path r p := r ++ [(bs "path", p)];
  set_method r m := r ++ [(bs "method", m)];
  set_version r v := r ++ [(bs "version", v)];
  get_path r := bs "/";
  get_method r := bs "GET";
}.

Definition plain_page (text : bytes) : http_response := page text 200.

(** Handler 1 answers, handler 2 throws, handler 3 returns a response with a
    cookie that has no name. *)
#[local] Instance demo_code : @UserCode _ (list (bytes * bytes)) unit := {
  user_hook f e := (e, inr None);
  user_render id m r w := (w, inr (plain_page (bs "rendered")));
  user_handler h r w :=
    (w, match h with
        | 1 => inr (plain_page (bs "hello"))
        | 2 => inl (std_exception (bs "boom"))
        | _ => inr (do_set_cookie_struct (plain_page (bs "hello")) new_cookie)
        end);
  user_error_handler h r msg w := (w, inr (page msg 500));
}.

Definition demo_config (not_found : option nat) : Dispatch.config := Dispatch.Config not_found None None false false false false None [] None false 1024.

Definition demo_world (ops : list (server_op nat)) : @world _ unit :=
  World (fst (exec_all ops)) new_bus ∅ () [].

Definition demo_answer (not_found : option nat) (ops : list (server_op nat)) (method url : bytes) :=
  answer_to_connection (fun _ => true) (fun _ => true) (fun r _ => r) (demo_config not_found) url method (bs "HTTP/1.1") None []
    (DState new_conn (demo_world ops) [] []).

Definition demo_status (not_found : option nat) (ops : list (server_op nat)) (method url : bytes) : outcome (list Z) :=
  match demo_answer not_found ops method url with
  | (s, Ok _) => Ok (omap (fun e => match e with MhdQueue c _ => Some c | _ => None end) (mhd s))
  | (_, Throw e) => Throw e
  | (_, Undefined) => Undefined
  end.

Definition hello_route : list (server_op nat) := [OpOnMethods get_set (bs "/hello/{x}") (Some 1)].

Example demo_200 : demo_status None hello_route (bs "GET") (bs "/hello/a%20b/") = Ok [200%Z].
Proof. by vm_compute. Qed.

Example demo_404 : demo_status None hello_route (bs "GET") (bs "/nothing") = Ok [404%Z].
Proof. by vm_compute. Qed.

Example demo_405 : demo_status None hello_route (bs "POST") (bs "/hello/a") = Ok [405%Z].
Proof. by vm_compute. Qed.

(** A not-found handler that throws takes its exception out of the callback. *)
Theorem not_found_exception_escapes :
  demo_status (Some 2) hello_route (bs "GET") (bs "/nothing") = Throw (std_exception (bs "boom")).
Proof. by vm_compute. Qed.

(** So does a handler whose response carries a cookie that cannot be rendered:
    the response is built, then nothing is queued. *)
Theorem unrenderable_cookie_escapes :
  let '(s, o) := demo_answer None [OpOnMethods get_set (bs "/hello") (Some 3)] (bs "GET") (bs "/hello") in
  (exists e, o = Throw e) /\ mhd s = [] /\ is_Some (response (conn s)).
Proof. vm_compute. split; [by eexists|]. split; [done|by eexists]. Qed.

(** A handler registered for TRACE is never run: the request is answered with
    the internal error page. *)
Theorem trace_handler_never_runs :
  demo_status None [OpOnMethods (set clear_all trace) (bs "/hello") (Some 1)] (bs "TRACE") (bs "/hello") = Ok [500%Z]
  /\ demo_status None [OpOnMethods (set clear_all head) (bs "/hello") (Some 1)] (bs "HEAD") (bs "/hello") = Ok [200%Z].
Proof. by vm_compute. Qed.

(** User code that answers every request. *)
Definition tame_code : @UserCode _ (list (bytes * bytes)) unit := {|
  user_hook f e := (e, inr None);
  user_render id m r w := (w, inr (plain_page (bs "rendered")));
  user_handler h r w := (w, match h with 2 => inl (std_exception (bs "boom")) | _ => inr (plain_page (bs "hello")) end);
  user_error_handler h r msg w := (w, inr (page msg 500));
|}.

Lemma tame_code_ok : @UserCodeOk _ _ _ tame_code.
Proof.
  constructor.
  - intros f e. split; [by constructor|done].
  - intros id m r w. split; [apply grows_refl|apply page_sendable].
  - intros h r w. split; [apply grows_refl|]. simpl. repeat case_match; try done; apply page_sendable.
  - intros h r msg w. split; [apply grows_refl|apply page_sendable].
Qed.

Lemma demo_wf : wf_server (srv (demo_world hello_route)).
Proof.
  split.
  - apply (reachable_ok plain_cfg).
    change (srv (demo_world hello_route)) with (fst (server_exec plain_cfg (OpOnMethods get_set (bs "/hello/{x}") (Some 1)) server0)).
    apply reach_step; [by apply Registration.reach_new|done].
  - assert (Hf : bool_decide (map_Forall (fun _ r => is_allowed (res_mask r) count_ = false) (heap (srv (demo_world hello_route)))) = true)
      by (vm_compute; reflexivity).
    apply bool_decide_eq_true in Hf. intros id r. apply Hf.
Qed.

#[local] Existing Instance tame_code.
#[local] Existing Instance tame_code_ok.


End Examples.
