(* ===== verification/DispatchSpec.v ===== *)
(** * What a request is answered with

    The specification of a server without hooks and with the default error
    pages: a pure function from the routes, the method and the path to the
    response, and the theorem that [answer_to_connection] queues that response.
    The hooks have their own specifications in [HookBus]. *)

From S2P Require Import Prelude HttpUtils HttpMethod Paths RouteCache Regex HttpEndpoint RouteTable Registration.
From S2P Require Import Cookie OrderedMap HttpResponse HookBus Request Dispatch DispatchSafety.
Import HttpUtils.Unescape HttpUtils.HttpUtils MethodSetOps ResourceMask RouteTable.RouteTable Registration.Registration.
Import Cookie.Cookie HttpResponse.Response HookBus.Hooks Dispatch.Dispatch.

Lemma allow_field_ok ms : field_ok (format_allow_header ms) = true.
Proof.
  assert (Hstep : forall h m, field_ok h = true -> field_ok (allow_step ms h m) = true).
  { intros h m Hh. unfold allow_step. destruct (contains ms m); [|done]. simpl.
    assert (Happ : forall a b, field_ok a = true -> field_ok b = true -> field_ok (a ++ b) = true).
    { intros a b. unfold field_ok, contains_any. rewrite existsb_app, !negb_true_iff, orb_false_iff. auto. }
    apply Happ; [|by destruct m]. destruct (negb (is_empty h)); [by apply Happ|done]. }
  unfold format_allow_header. assert (Hall : forall l h, field_ok h = true -> field_ok (foldl (allow_step ms) h l) = true).
  { induction l as [|m l IH]; intros h Hh; [done|]. simpl. by apply IH, Hstep. }
  by apply Hall.
Qed.

Section Spec.
Context `{RegexEngine, StdHash, !StdHashOk, MhdCreate, BodyFits} {R : Type} `{HttpRequest R} {App : Type}.
Context (mhd_queues : mhd_event -> bool) (mhd_create_post_processor : bytes -> bool) (mhd_post_process : R -> bytes -> R).
Context (cfg : Dispatch.config).
Context `{!@UserCode _ R App}.

#[local] Abbreviation world := (@Dispatch.world _ App).
#[local] Abbreviation dstate := (@Dispatch.dstate _ R App).

(** ** The specification *)

Definition internal_page (msg : bytes) : http_response :=
  page (if expose_exception_messages cfg then msg else bs "Internal Server Error") 500.

Definition allow_page (ms : method_set) : http_response :=
  let p := page (bs "Method not Allowed") 405 in
  if is_empty (format_allow_header ms) then p
  else set_headers p (insert_or_assign header_comparator http_header_allow (format_allow_header ms) (headers_ p)).

(** What running the resource gives: its own code, or a handler in a slot. *)
Definition run_resource (id : nat) (res : resource nat) (m : http_method) (r : R) (w : world) : world * (exn + http_response) :=
  match res with
  | UserResource _ => user_render id m r w
  | LambdaResource _ slots =>
      if bool_decide (m ∈ [get; post; put; del; patch; options; head]) then
        match slots !! Z.to_nat (method_index m) with
        | Some (Some h) => user_handler h r w
        | _ => (w, inr (page (bs "Internal Server Error: unregistered method slot invoked") 500))
        end
      else (w, inr new_response)
  end.

(** A thrown exception and a response without a status become the 500 page. *)
Definition handler_reply (o : exn + http_response) : http_response :=
  match o with
  | inl e => internal_page (what e)
  | inr r => if (status_code_ r =? -1)%Z then internal_page (bs "handler returned null response") else r
  end.

Definition with_captures (caps : list (bytes * bytes)) (r : R) : R :=
  foldl (fun r nv => set_arg r (fst nv) (snd nv)) r caps.

(** The response to a method on a path that the code computes: the 404 page, the
    405 page with the methods the resource allows, or what the resource makes of
    the request with the captures of its route. *)
Definition code_reply (m : http_method) (path : bytes) (r : R) (w : world) : http_response :=
  match resolve (routes_ (srv w)) (canonicalize_lookup_path path) with
  | Some (RouteEntry _ (Some id) _, caps) =>
      match heap (srv w) !! id with
      | Some res =>
          if is_allowed (res_mask res) m
          then handler_reply (snd (run_resource id res m (with_captures caps r) (set_srv w (fst (lookup m path (srv w))))))
          else allow_page (methods_allowed_ (res_mask res))
      | None => page (bs "Not Found") 404
      end
  | _ => page (bs "Not Found") 404
  end.

(** The promise behind it, in terms of the tables alone.  It covers neither a
    response that names no status nor the two methods a lambda resource takes
    handlers for and never calls. *)
Definition never_called (res : resource nat) (m : http_method) : bool :=
  match res with LambdaResource _ _ => bool_decide (m = connect \/ m = trace) | UserResource _ => false end.

Definition resource_reply (id : nat) (res : resource nat) (m : http_method) (r : R) (w : world) : option http_response :=
  if never_called res m then None
  else match snd (run_resource id res m r w) with
       | inl e => Some (internal_page (what e))
       | inr resp => if (status_code_ resp =? -1)%Z then None else Some resp
       end.

Definition reply (m : http_method) (path : bytes) (r : R) (w : world) : option http_response :=
  match resolve (routes_ (srv w)) (canonicalize_lookup_path path) with
  | Some (RouteEntry _ (Some id) _, caps) =>
      match heap (srv w) !! id with
      | Some res =>
          if is_allowed (res_mask res) m then resource_reply id res m (with_captures caps r) w
          else Some (allow_page (methods_allowed_ (res_mask res)))
      | None => Some (page (bs "Not Found") 404)
      end
  | _ => Some (page (bs "Not Found") 404)
  end.

(** The world a handler is called in: that of the request, the route cache apart. *)
Definition with_route_cache (c : LruCache.route_cache (route_entry * list (bytes * bytes))) (w : world) : world :=
  set_srv w (Server (set_cache (routes_ (srv w)) c) (heap (srv w)) (next_id (srv w))).

(** The response libmicrohttpd gets for a response object, and how it is queued. *)
Definition delivery (r : http_response) : option (mhd_response * mhd_event) :=
  match body_ r with
  | Some b =>
      match materialize b with
      | (b', Some raw, _) =>
          match q ← decorate_mhd_response raw r;
                ev ← queue_response_dispatching_kind cfg (set_body r (kind_ r) (Some b') (body_inline_ r)) q;
                Ok (q, ev) with
          | Ok qe => Some qe
          | _ => None
          end
      | _ => None
      end
  | None => None
  end.

(** ** Servers without hooks *)

Record hook_free (w : world) : Prop := {
  hf_server p : has_hooks_for (hooks_ w) p = false;
  hf_exception : handler_exception_alias_ (hooks_ w) = None;
  hf_access : log_access_alias_ (hooks_ w) = None;
  hf_route : route_tables w = ∅;
}.

Definition default_pages : Prop :=
  not_found_handler cfg = None /\ method_not_allowed_handler cfg = None /\ internal_error_handler cfg = None.

(** User code that registers no hooks. *)
Definition quiet : Prop :=
  forall w id m h r, hook_free w ->
    hook_free (fst (user_render id m r w)) /\ hook_free (fst (user_handler h r w)).

Lemma hook_free_srv w sv : hook_free w -> hook_free (set_srv w sv).
Proof. intros []. by constructor. Qed.

Lemma hook_free_log w msg : hook_free w -> hook_free (log_dispatch_error cfg msg w).
Proof. intros []. unfold log_dispatch_error. destruct (has_log_error cfg); by constructor. Qed.

Lemma server_gate_free w p : hook_free w -> server_gate p w = false.
Proof. intros []. apply hf_server0. Qed.

Lemma table_free w res : hook_free w -> hook_table_raw_ res w = None.
Proof. intros []. unfold hook_table_raw_. rewrite hf_route0. destruct res; [apply lookup_empty|done]. Qed.

Lemma route_gate_free w res p : hook_free w -> route_gate res p w = false.
Proof. intros Hf. unfold route_gate. by rewrite table_free. Qed.

Lemma after_free res (s : dstate) : hook_free (world_of s) -> fire_after_handler_gated cfg res s = s.
Proof. intros Hf. unfold fire_after_handler_gated. by rewrite server_gate_free, route_gate_free. Qed.

Lemma sent_free res (s : dstate) : hook_free (world_of s) -> fire_response_sent_gated cfg res s = s.
Proof.
  intros Hf. unfold fire_response_sent_gated. rewrite server_gate_free, route_gate_free by done.
  by rewrite (hf_access _ Hf).
Qed.

Lemma resolved_free found res (s : dstate) : hook_free (world_of s) -> fire_route_resolved_gated cfg found res s = s.
Proof. intros Hf. unfold fire_route_resolved_gated. by rewrite server_gate_free. Qed.

Lemma before_free id (s : dstate) : hook_free (world_of s) -> fire_before_handler_gated cfg id s = (s, Ok false).
Proof. intros Hf. unfold fire_before_handler_gated. by rewrite server_gate_free, route_gate_free. Qed.

(** ** The steps *)

Lemma deliver_ok res r q ev (s : dstate) :
  hook_free (world_of s) -> response (conn s) = Some r -> delivery r = Some (q, ev) ->
  exists s', materialize_and_queue_response mhd_queues cfg res s = (s', Ok (mhd_queues ev))
    /\ mhd s' = mhd s ++ [ev; MhdDestroy q].
Proof.
  intros Hf Hr Hd. unfold delivery in Hd. destruct (body_ r) as [b|] eqn:Eb; [|done].
  unfold materialize_and_queue_response, get_raw_response_with_fallback, mbind, stx_bind, stx_try, try_materialize.
  rewrite Hr, Eb. destruct (materialize b) as [[b' [raw|]] evs]; [|done]. cbn [mret stx_ret].
  unfold queue_raw. cbn [response conn on_fds on_conn with_response].
  unfold decorate_mhd_response in *. cbn [headers_ footers_ structured_cookies_ set_body].
  destruct (cookie_lines _) as [lines| |]; [|done..]. cbn [mbind outcome_bind] in *.
  destruct (queue_response_dispatching_kind _ _ _) as [ev'| |]; [|done..]. cbn [mbind outcome_bind] in *.
  injection Hd as <- <-. rewrite sent_free by done. eexists. split; [done|]. simpl. by rewrite <-app_assoc.
Qed.

Lemma internal_page_ok msg (s : dstate) :
  default_pages -> run_internal_error_handler_safely cfg msg s = (s, Ok (internal_page msg)).
Proof.
  intros (_ & _ & Hi). unfold run_internal_error_handler_safely, internal_error_page, internal_page, stx_try.
  rewrite Hi. by destruct (expose_exception_messages cfg).
Qed.

Lemma emplace_ok r (s : dstate) :
  exists s', emplace_response r s = (s', Ok ()) /\ response (conn s') = Some r /\ mhd s' = mhd s
    /\ world_of s' = world_of s /\ request (conn s') = request (conn s).
Proof. eexists. by split. Qed.

(** Calling the resource is [run_resource]. *)
Lemma invoke_ok id res r (s : dstate) :
  callback (conn s) = Some (method_enum (conn s)) -> request (conn s) = Some r ->
  heap (srv (world_of s)) !! id = Some res ->
  let '(w, o) := run_resource id res (method_enum (conn s)) r (world_of s) in
  invoke_callback id s = (on_world (fun _ => w) s, match o with inl e => Throw e | inr a => Ok a end).
Proof.
  intros Hc Hr Hh. unfold invoke_callback. rewrite Hc, Hh.
  assert (Hs : on_world (fun _ => world_of s) s = s) by (by destruct s).
  unfold run_resource, get_request, user_call, mbind, stx_bind. rewrite Hr.
  destruct res as [mask|mask slots]; [by destruct (user_render _ _ _ _)|].
  destruct (bool_decide _); [|by rewrite Hs].
  destruct (slots !! _) as [[h|]|]; [by destruct (user_handler _ _ _)|by rewrite Hs..].
Qed.

Lemma run_resource_free id res m r w : quiet -> hook_free w -> hook_free (fst (run_resource id res m r w)).
Proof.
  intros Hq Hf. unfold run_resource. destruct res as [mask|mask slots]; [by apply (Hq w id m 0 r Hf)|].
  destruct (bool_decide _); [|done]. destruct (slots !! _) as [[h|]|]; [|done..]. by apply (Hq w id m h r Hf).
Qed.

(** A state with the given response, nothing new queued and no hooks. *)
Definition answers_with (s : dstate) (r : http_response) (s' : dstate) : Prop :=
  response (conn s') = Some r /\ mhd s' = mhd s /\ hook_free (world_of s').

Lemma exception_ok e (s : dstate) :
  default_pages -> hook_free (world_of s) ->
  exists s', handle_dispatch_exception cfg (what e) s = (s', Ok ()) /\ answers_with s (internal_page (what e)) s'.
Proof.
  intros Hd Hf. unfold handle_dispatch_exception.
  rewrite server_gate_free, route_gate_free, (hf_exception _ Hf) by done. cbn [orb bool_decide].
  unfold mbind, stx_bind. rewrite internal_page_ok by done. by eexists.
Qed.

Lemma method_not_allowed_ok id res (s : dstate) :
  default_pages -> hook_free (world_of s) -> heap (srv (world_of s)) !! id = Some res -> cache_ok (res_mask res) ->
  resource_allows id s = false ->
  exists s', run_handler cfg id s = (s', Ok ()) /\ answers_with s (allow_page (methods_allowed_ (res_mask res))) s'.
Proof.
  intros (_ & Hm & _) Hf Hh Hc Ha. unfold run_handler, mbind, stx_bind, stx_modify, stx_gets.
  change (resource_allows id (on_conn (with_pp false) s)) with (resource_allows id s). rewrite Ha.
  assert (Hp : forall s0 : dstate, method_not_allowed_page cfg s0 = (s0, Ok (page (bs "Method not Allowed") 405)))
    by (intros s0; unfold method_not_allowed_page; by rewrite Hm).
  rewrite Hp. unfold allow_header_of, emplace_response. cbn [world_of on_conn on_fds]. rewrite Hh.
  destruct (get_allow_header_ok _ Hc) as [Ht _]. destruct (get_allow_header (res_mask res)) as [mask text].
  simpl in Ht. subst text. unfold allow_page, stx_when.
  destruct (is_empty (format_allow_header _)); cbn [negb].
  - eexists. split; [done|]. split_and!; [done..|]. by apply hook_free_srv.
  - unfold response_with_header, with_header. cbn [response conn on_world on_conn with_response].
    unfold validate_http_field. pose proof (allow_field_ok (methods_allowed_ (res_mask res))) as Hok.
    apply negb_true_iff in Hok. rewrite Hok.
    eexists. split; [done|]. split_and!; [done..|]. by apply hook_free_srv.
Qed.

Lemma handler_ok_spec id res r (s : dstate) :
  quiet -> default_pages -> hook_free (world_of s) ->
  callback (conn s) = Some (method_enum (conn s)) -> request (conn s) = Some r ->
  heap (srv (world_of s)) !! id = Some res -> resource_allows id s = true ->
  exists s', dispatch_resource_handler cfg id s = (s', Ok ())
    /\ answers_with s (handler_reply (snd (run_resource id res (method_enum (conn s)) r (world_of s)))) s'.
Proof.
  intros Hq Hd Hf Hc Hr Hh Ha. unfold dispatch_resource_handler, run_handler, stx_try, mbind, stx_bind, stx_modify, stx_gets.
  set (s1 := on_conn (with_pp false) s). change (resource_allows id s1) with (resource_allows id s). rewrite Ha.
  pose proof (invoke_ok id res r s1 Hc Hr Hh) as Hi.
  change (method_enum (conn s1)) with (method_enum (conn s)) in Hi. change (world_of s1) with (world_of s) in Hi.
  pose proof (run_resource_free id res (method_enum (conn s)) r _ Hq Hf) as Hf'.
  destruct (run_resource id res (method_enum (conn s)) r (world_of s)) as [w o]. simpl in Hf'. rewrite Hi.
  destruct o as [e|a]; cbn [snd handler_reply].
  - assert (Hend : forall msg, exists s', (let (s', o0) := log_error cfg msg (on_world (fun _ => w) s1) in
      match o0 with Ok _ => handle_dispatch_exception cfg (what e) s' | Throw e0 => (s', Throw e0) | Undefined => (s', Undefined) end)
      = (s', Ok ()) /\ answers_with s (internal_page (what e)) s').
    { intros msg. apply (exception_ok e (on_world (log_dispatch_error cfg msg) (on_world (fun _ => w) s1))); [done|].
      by apply hook_free_log. }
    destruct e; apply Hend.
  - cbn [emplace_response stx_when]. destruct (status_code_ a =? -1)%Z; [|by eexists].
    cbn [stx_when]. rewrite internal_page_ok by done. by eexists.
Qed.

Lemma dispatch_ok id res r (s : dstate) :
  quiet -> default_pages -> hook_free (world_of s) ->
  heap (srv (world_of s)) !! id = Some res -> cache_ok (res_mask res) -> request (conn s) = Some r ->
  (resource_allows id s = true -> callback (conn s) = Some (method_enum (conn s))) ->
  exists s', dispatch_resource_handler cfg id s = (s', Ok ())
    /\ answers_with s (if is_allowed (res_mask res) (method_enum (conn s))
         then handler_reply (snd (run_resource id res (method_enum (conn s)) r (world_of s)))
         else allow_page (methods_allowed_ (res_mask res))) s'.
Proof.
  intros Hq Hd Hf Hh Hok Hr Hc.
  assert (Ha : resource_allows id s = is_allowed (res_mask res) (method_enum (conn s))) by (unfold resource_allows; by rewrite Hh).
  rewrite <-Ha. destruct (resource_allows id s) eqn:E; [by apply handler_ok_spec; auto|].
  destruct (method_not_allowed_ok id res s Hd Hf Hh Hok E) as (s' & Hrun & Hs').
  exists s'. unfold dispatch_resource_handler, stx_try. by rewrite Hrun.
Qed.

(** The server and the request as a callback finds them. *)
Record serving (w : world) : Prop := {
  sv_wf : wf_server (srv w);
  sv_cache : cache_inv (routes_ (srv w));
  sv_allow id res : heap (srv w) !! id = Some res -> cache_ok (res_mask res);
}.

Lemma resolve_ok r (s : dstate) :
  serving (world_of s) -> hook_free (world_of s) -> request (conn s) = Some r ->
  let s1 := on_world (fun w => set_srv w (fst (lookup (method_enum (conn s)) (standardized_url (conn s)) (srv w)))) s in
  heap (srv (world_of s1)) = heap (srv (world_of s))
  /\ match resolve (routes_ (srv (world_of s))) (canonicalize_lookup_path (standardized_url (conn s))) with
     | Some (RouteEntry _ (Some id) _, caps) =>
         resolve_resource_for_request s = (on_conn (with_request (Some (with_captures caps r))) s1, Ok (Some id))
         /\ is_Some (heap (srv (world_of s)) !! id)
     | _ => resolve_resource_for_request s = (s1, Ok None)
     end.
Proof.
  intros [Hw Hc _] Hf Hr s1. split; [apply lookup_heap|]. unfold s1, resolve_resource_for_request.
  rewrite !server_gate_free by done.
  destruct (lookup_ok _ (method_enum (conn s)) (standardized_url (conn s)) (proj1 Hw)) as (sv & a & E & _ & Hlive).
  pose proof (lookup_heap (method_enum (conn s)) (standardized_url (conn s)) (srv (world_of s))) as Hh.
  destruct (lookup_v2_ok _ (method_enum (conn s)) (standardized_url (conn s)) Hc) as (t & a' & E' & _ & _ & <-).
  assert (a' = a) as -> by (unfold lookup, lift_table in E; rewrite E' in E; by injection E).
  unfold on_world. rewrite E in *. cbn [fst conn] in *. unfold answer. destruct (found a) eqn:Ef; cbn [negb]; [|done].
  destruct (Hlive eq_refl) as (id & Hid & Hl). destruct (lr_entry a) as [ms h pre]. simpl in Hid. subst h.
  cbn [handler]. rewrite Hr. cbn [orb fmap option_fmap option_map]. split; [done|]. by rewrite <-Hh.
Qed.

Lemma not_found_ok (s : dstate) :
  default_pages -> not_found_page cfg s = (s, Ok (page (bs "Not Found") 404)).
Proof. intros (Hn & _). unfold not_found_page. by rewrite Hn. Qed.

Lemma found_ok id res r (s : dstate) :
  quiet -> default_pages -> hook_free (world_of s) ->
  heap (srv (world_of s)) !! id = Some res -> cache_ok (res_mask res) -> request (conn s) = Some r ->
  (resource_allows id s = true -> callback (conn s) = Some (method_enum (conn s))) ->
  forall q ev,
  delivery (if is_allowed (res_mask res) (method_enum (conn s))
            then handler_reply (snd (run_resource id res (method_enum (conn s)) r (world_of s)))
            else allow_page (methods_allowed_ (res_mask res))) = Some (q, ev) ->
  exists s',
    (_ ← dispatch_resource_handler cfg id;
     _ ← stx_modify (fire_after_handler_gated cfg (Some id));
     materialize_and_queue_response mhd_queues cfg (Some id)) s = (s', Ok (mhd_queues ev))
    /\ mhd s' = mhd s ++ [ev; MhdDestroy q].
Proof.
  intros Hq Hd Hf Hh Hok Hr Hc q ev Hdel. unfold mbind, stx_bind, stx_modify.
  destruct (dispatch_ok id res r s) as (s' & -> & Hs' & Hm & Hf'); try done.
  rewrite after_free by done. rewrite <-Hm. by eapply deliver_ok.
Qed.

Lemma finalize_ok r (s : dstate) q ev :
  quiet -> default_pages -> serving (world_of s) -> hook_free (world_of s) ->
  request (conn s) = Some r -> skip_handler (conn s) = false -> response (conn s) = None ->
  match callback (conn s) with Some c => c = method_enum (conn s) | None => method_enum (conn s) = count_ end ->
  delivery (code_reply (method_enum (conn s)) (standardized_url (conn s)) r (world_of s)) = Some (q, ev) ->
  exists s', finalize_answer mhd_queues cfg s = (s', Ok (mhd_queues ev)) /\ mhd s' = mhd s ++ [ev; MhdDestroy q].
Proof.
  intros Hq Hd Hs Hf Hr Hsk Hre Hcb Hdel. unfold finalize_answer. rewrite Hsk. unfold code_reply in Hdel.
  destruct (resolve_ok r s Hs Hf Hr) as [Hheap Hres]. set (s1 := on_world _ s) in *.
  assert (Hf1 : hook_free (world_of s1)) by (by apply hook_free_srv).
  assert (Hmiss : forall s2, resolve_resource_for_request s = (s2, Ok None) -> s2 = s1 ->
    delivery (page (bs "Not Found") 404) = Some (q, ev) ->
    exists s', finalize_answer mhd_queues cfg s = (s', Ok (mhd_queues ev)) /\ mhd s' = mhd s ++ [ev; MhdDestroy q]).
  { intros s2 E -> Hdel'. unfold finalize_answer, mbind, stx_bind, stx_modify, stx_gets. rewrite Hsk, E.
    rewrite resolved_free by done. change (response (conn s1)) with (response (conn s)). rewrite Hre.
    cbn [is_Some bool_decide negb stx_when]. rewrite bool_decide_eq_false_2 by (by intros []). cbn [negb stx_when].
    rewrite not_found_ok by done. cbn [emplace_response].
    rewrite after_free by done. match goal with |- exists s', ?f ?s3 = _ /\ _ => change (mhd s) with (mhd s3) end.
    by eapply deliver_ok. }
  unfold finalize_answer in Hmiss. rewrite Hsk in Hmiss.
  destruct (resolve _ _) as [[[ms [id|] pre] caps]|]; [|by eapply Hmiss..].
  destruct Hres as [E [res Hid]]. rewrite Hid in Hdel. clear Hmiss.
  unfold mbind at 1, stx_bind at 1. rewrite E. set (s2 := on_conn _ s1).
  assert (Hf2 : hook_free (world_of s2)) by done.
  unfold mbind at 1, stx_bind at 1. unfold stx_modify at 1. rewrite table_free by done.
  unfold mbind at 1, stx_bind at 1. unfold stx_modify at 1. rewrite server_gate_free by done. cbn [orb].
  rewrite bool_decide_eq_false_2 by (by intros []). cbn [route_has_hook_table_ conn on_conn with_has_table].
  unfold mbind at 1, stx_bind at 1. unfold stx_modify at 1. rewrite resolved_free by done.
  unfold mbind at 1, stx_bind at 1. rewrite before_free by done.
  match goal with |- exists s', ?f ?s3 = _ /\ _ => set (s3' := s3) end.
  change (mhd s) with (mhd s3').
  assert (Hh3 : heap (srv (world_of s3')) !! id = Some res) by (unfold s3'; simpl in *; by rewrite Hheap).
  apply (found_ok id res (with_captures caps r)); try done; [by apply (sv_allow _ Hs id)|].
  unfold resource_allows. rewrite Hh3. simpl. destruct (callback (conn s)) as [c|]; [by subst c|].
  rewrite Hcb. pose proof (proj2 (sv_wf _ Hs) _ _ Hid) as Hno. by rewrite Hno.
Qed.

(** ** The whole request *)

Definition parse_method (method : bytes) : http_method :=
  default count_ (List.find (fun m => bytes_eqb method (to_string m)) [get; post; put; del; patch; head; connect; trace; options]).

Definition request_path (url : bytes) : bytes :=
  match base_unescaper url (unescaper cfg) with
  | Ok (u, _) => normalize_path (standardize_url u)
  | _ => []
  end.

Definition body_step (form : bool) (r : R) (chunk : bytes) : R :=
  let r := if negb form || put_processed_data_to_content cfg then grow_content r chunk else r in
  if form then mhd_post_process r chunk else r.

(** The request a handler sees: the body chunks are read only for the methods
    that have one, and parsed only when they are a form. *)
Definition request_of (url method version : bytes) (content_type : option bytes) (chunks : list bytes) : R :=
  let r := if method_has_body (parse_method method)
    then foldl (body_step (post_process_enabled cfg && is_form mhd_create_post_processor content_type))
           (set_content_size_limit (first_request cfg) (content_size_limit cfg)) chunks
    else first_request cfg in
  set_version (set_method (set_path r (request_path url)) method) version.

(** Waiting for the body or its end. *)
Record waiting (m : http_method) (path : bytes) (form : bool) (r : R) (w : world) (s : dstate) : Prop := {
  wa_world : world_of s = w;
  wa_mhd : mhd s = [];
  wa_url : standardized_url (conn s) = path;
  wa_method : method_enum (conn s) = m;
  wa_callback : match callback (conn s) with Some c => c = m | None => m = count_ end;
  wa_request : request (conn s) = Some r;
  wa_response : response (conn s) = None;
  wa_skip : skip_handler (conn s) = false;
  wa_body : has_body (conn s) = method_has_body m;
  wa_pp : has_body (conn s) = true -> pp (conn s) = form;
}.

Lemma first_ok url method ct w :
  hook_free w ->
  exists s b, answer_first mhd_create_post_processor cfg url method ct (DState new_conn w [] []) = (s, Ok b)
    /\ waiting (parse_method method) (request_path url) (post_process_enabled cfg && is_form mhd_create_post_processor ct)
         (if method_has_body (parse_method method) then set_content_size_limit (first_request cfg) (content_size_limit cfg) else first_request cfg) w s.
Proof.
  intros Hf. unfold answer_first, request_path, parse_method. destruct (base_unescaper_ok url (unescaper cfg)) as (u & n & ->).
  unfold requests_answer_first_step. rewrite server_gate_free by done. unfold resolve_method_callback.
  destruct (List.find _ _) as [m|]; simpl.
  - rewrite orb_false_r. destruct (method_has_body m) eqn:Em; simpl; eexists _, _; (split; [done|]); by constructor.
  - eexists _, _. split; [done|]. by constructor.
Qed.

Lemma chunk_ok m path form r w s chunk :
  hook_free w -> waiting m path form r w s ->
  exists s' b, answer_chunk mhd_post_process cfg chunk s = (s', Ok b)
    /\ waiting m path form (if method_has_body m then body_step form r chunk else r) w s'.
Proof.
  intros Hf Hw. destruct Hw. unfold answer_chunk. rewrite wa_body0, wa_skip0.
  destruct (method_has_body m) eqn:Em; cbn [negb].
  - rewrite wa_world0, server_gate_free, wa_request0, wa_pp0 by (done || by rewrite wa_body0).
    eexists _, _. split; [done|]. constructor; simpl; try done. by rewrite wa_body0.
  - eexists _, _. split; [done|]. constructor; try done. by rewrite Em.
Qed.

Lemma chunks_ok m path form w chunks r s :
  hook_free w -> waiting m path form r w s ->
  exists s', answer_chunks mhd_post_process cfg chunks s = (s', Ok ())
    /\ waiting m path form (if method_has_body m then foldl (body_step form) r chunks else r) w s'.
Proof.
  intros Hf. revert r s. induction chunks as [|c chunks IH]; intros r s Hw.
  - exists s. split; [done|]. by destruct (method_has_body m).
  - cbn [answer_chunks]. unfold mbind, stx_bind. destruct (chunk_ok m path form r w s c Hf Hw) as (s1 & b & -> & Hw1).
    destruct (IH _ _ Hw1) as (s2 & -> & Hw2). exists s2. split; [done|]. by destruct (method_has_body m).
Qed.

(** The steps put together. *)
Lemma request_reply url method version ct chunks (w : world) q ev :
  quiet -> default_pages -> serving w -> hook_free w ->
  delivery (code_reply (parse_method method) (request_path url) (request_of url method version ct chunks) w) = Some (q, ev) ->
  exists s', answer_to_connection mhd_queues mhd_create_post_processor mhd_post_process cfg url method version ct chunks (DState new_conn w [] [])
      = (s', Ok (mhd_queues ev))
    /\ mhd s' = [ev; MhdDestroy q].
Proof.
  intros Hq Hd Hs Hf Hdel. unfold answer_to_connection, mbind, stx_bind.
  destruct (first_ok url method ct w Hf) as (s1 & b & -> & Hw1).
  destruct (chunks_ok _ _ _ w chunks _ s1 Hf Hw1) as (s2 & -> & Hw2).
  set (r0 := if method_has_body (parse_method method) then _ else _) in Hw2.
  assert (Hr0 : request_of url method version ct chunks = set_version (set_method (set_path r0 (request_path url)) method) version)
    by (unfold request_of, r0; by destruct (method_has_body (parse_method method))).
  rewrite Hr0 in Hdel. clearbody r0. destruct Hw2.
  unfold answer_end, get_request, mbind, stx_bind, stx_modify. rewrite wa_request0, wa_url0.
  edestruct (finalize_ok (set_version (set_method (set_path r0 (request_path url)) method) version)) as (s' & E & Hm); [done..| | | | | | | | |];
    [..|exists s'; split; [exact E|rewrite Hm; simpl; by rewrite wa_mhd0]]; simpl; rewrite ?wa_world0, ?wa_method0, ?wa_url0; done.
Qed.

(** A lookup changes the route cache only. *)
Lemma lookup_only_cache m path (w : world) :
  cache_inv (routes_ (srv w)) -> exists c, set_srv w (fst (lookup m path (srv w))) = with_route_cache c w.
Proof.
  intros Hi. unfold lookup, lift_table.
  destruct (lookup_v2_ok (routes_ (srv w)) m path Hi) as (t' & r & -> & _ & (E1 & E2 & E3) & _).
  exists (route_lru_cache t'). unfold with_route_cache. simpl. do 2 f_equal.
  destruct t', (routes_ (srv w)); simpl in *; by subst.
Qed.

Lemma resource_reply_code id res m r w resp :
  resource_reply id res m r w = Some resp -> handler_reply (snd (run_resource id res m r w)) = resp.
Proof.
  unfold resource_reply, handler_reply. destruct (never_called res m); [done|].
  destruct (snd (run_resource id res m r w)) as [e|a]; [congruence|]. destruct (_ =? _)%Z; congruence.
Qed.

Lemma reply_code m path r w c resp :
  set_srv w (fst (lookup m path (srv w))) = with_route_cache c w ->
  reply m path r (with_route_cache c w) = Some resp -> code_reply m path r w = resp.
Proof.
  intros Hc. unfold reply, code_reply. rewrite Hc.
  change (resolve (routes_ (srv (with_route_cache c w)))) with (resolve (set_cache (routes_ (srv w)) c)).
  rewrite <-(resolve_proper _ _ (set_cache_same (routes_ (srv w)) c) _ _ eq_refl).
  change (heap (srv (with_route_cache c w))) with (heap (srv w)).
  destruct (resolve _ _) as [[[ms [id|] pre] caps]|]; [|congruence..].
  destruct (heap (srv w) !! id) as [res|]; [|congruence].
  destruct (is_allowed _ _); [apply resource_reply_code|congruence].
Qed.


End Spec.

Section Examples.
#[local] Existing Instances literal_engine len_hash len_hash_ok accepts_all all_inline log_request tame_code.

Lemma tame_quiet : quiet.
Proof. by intros w id m h r Hw. Qed.

Lemma demo_serving : serving (demo_world hello_route).
Proof.
  constructor; [exact demo_wf| |].
  - pose proof (new_server_sim server0 eq_refl) as Hs.
    assert (Hc : op_compiles (OpOnMethods get_set (bs "/hello/{x}") (Some 1))) by done.
    destruct (server_exec_sim plain_cfg _ server0 server0 Hc Hs) as [_ (_ & _ & _ & Hi)]. exact Hi.
  - assert (Hf : bool_decide (map_Forall (fun _ r => cached_allow_valid_ (res_mask r) = false) (heap (srv (demo_world hello_route)))) = true)
      by (vm_compute; reflexivity).
    apply bool_decide_eq_true in Hf. intros id res Hid Hv. by rewrite (Hf _ _ Hid) in Hv.
Qed.

Lemma demo_hook_free : hook_free (demo_world hello_route).
Proof. constructor; [by intros []|done..]. Qed.

Definition hello_response : mhd_response :=
  MhdResponse (create_from_buffer_static (bs "hello")) [(http_header_content_type, bs "text/plain")] [].

Lemma hello_delivery_ok : delivery (demo_config None) (plain_page (bs "hello")) = Some (hello_response, MhdQueue 200 hello_response).
Proof. vm_compute. reflexivity. Qed.

Lemma hello_reply c r :
  reply (demo_config None) get (bs "/hello/x") r (with_route_cache c (demo_world hello_route)) = Some (plain_page (bs "hello")).
Proof. vm_compute. reflexivity. Qed.


End Examples.
