(* ===== verification/EndToEnd.v ===== *)
(** * From the registrations to the replies

    The composition of the route tables, the registrations and the dispatch: a
    server configured with handlers on literal paths, whatever was registered,
    refused, removed or requested before, answers as an abstract router does
    that maps a canonical path and a method to a handler. *)

From S2P Require Import Prelude HttpUtils HttpMethod Paths RouteCache Regex SegmentTrie HttpEndpoint RouteTable Registration.
From S2P Require Import Cookie OrderedMap HttpResponse HookBus Request Dispatch DispatchSafety DispatchSpec.
Import HttpUtils.Unescape HttpUtils.HttpUtils MethodSetOps ResourceMask RouteTable.RouteTable Registration.Registration.
Import Cookie.Cookie HttpResponse.Response HookBus.Hooks Dispatch.Dispatch.

Module Router.

(** ** The abstract router *)

Abbreviation router := (gmap bytes (http_method -> option nat)).

(** The handlers bound at a path, none when the path is not bound. *)
Definition bound (rt : router) (key : bytes) : http_method -> option nat := default (fun _ => None) (rt !! key).

Definition bind_methods (ms : method_set) (h : nat) (hs : http_method -> option nat) : http_method -> option nat :=
  fun m => if bool_decide (m <> count_) && contains ms m then Some h else hs m.

(** A registration is refused when it names no method, no handler, an impossible
    path, or a method its path already has a handler for. *)
Definition accepts (rt : router) (ms : method_set) (p : bytes) (h : option nat) : bool :=
  negb (empty ms) && bool_decide (is_Some h) && negb (bool_decide (NUL ∈ p)) && (Z.of_nat (length p) <=? 8192)%Z
  && negb (existsb (fun m => bool_decide (is_Some (bound rt (canonicalize_lookup_path p) m))) (for_each_requested_method ms)).

Definition router_exec (rt : router) (op : server_op nat) : router * bool :=
  match op with
  | OpOnMethods ms p h =>
      match h with
      | Some f => if accepts rt ms p h then (<[canonicalize_lookup_path p := bind_methods ms f (bound rt (canonicalize_lookup_path p))]> rt, true) else (rt, false)
      | None => (rt, false)
      end
  | OpUnregister p _ => (base.delete (canonicalize_lookup_path p) rt, true)
  | _ => (rt, true)
  end.

Fixpoint router_run (ops : list (server_op nat)) (rt : router) : router * list bool :=
  match ops with
  | [] => (rt, [])
  | op :: ops =>
      let '(rt, ok) := router_exec rt op in
      let '(rt, oks) := router_run ops rt in (rt, ok :: oks)
  end.

(** Registrations of handlers and removals at literal paths, and lookups. *)
Definition literal_op (op : server_op nat) : Prop :=
  match op with
  | OpOnMethods _ p _ | OpUnregister p false => p <> [] /\ literal_path p /\ literal_path (canonicalize_lookup_path p)
  | OpLookup _ _ => True
  | _ => False
  end.

End Router.
Import Router.

Section Refinement.
Context `{RegexEngine, StdHash, !StdHashOk}.
Implicit Types (s : server nat) (t : route_table).

(** ** Tables with exact routes only *)

Lemma has_terminus_empty key pre : Trie.has_terminus_at (Trie.empty_node (T := route_entry)) key pre = false.
Proof.
  destruct (represents_empty (T := route_entry)) as [Hok Hr]. rewrite has_terminus_at_spec by done.
  rewrite Hr, lookup_empty. done.
Qed.

Lemma resolve_exact t p :
  param_and_prefix_routes_ t = Trie.empty_node -> regex_routes_ t = [] ->
  resolve t p = (fun e => (e, [])) <$> exact_routes_ t !! p.
Proof.
  intros Ht Hre. unfold resolve, lookup_radix_regex. destruct (exact_routes_ t !! p); [done|]. rewrite Ht, Hre.
  destruct (Trie.find Trie.empty_node p) as [r|] eqn:E; [|done].
  apply find_terminus in E as (pat & i & Hpat & _). destruct (represents_empty (T := route_entry)) as [_ Hr].
  by rewrite Hr, lookup_empty in Hpat.
Qed.

(** The slots of a lambda resource are the handlers of a path. *)
Definition holds (mask : resource_mask) (slots : list (option nat)) (hs : http_method -> option nat) : Prop :=
  length slots = Z.to_nat (method_index count_) /\ cached_allow_valid_ mask = false /\ is_allowed mask count_ = false
  /\ forall m, m <> count_ -> is_allowed mask m = bool_decide (is_Some (hs m)) /\ slots !! Z.to_nat (method_index m) = Some (hs m).

Record routed (s : server nat) (rt : router) : Prop := {
  ro_trie : param_and_prefix_routes_ (routes_ s) = Trie.empty_node;
  ro_regex : regex_routes_ (routes_ s) = [];
  ro_keys key : exact_routes_ (routes_ s) !! key = None <-> rt !! key = None;
  ro_route key e hs : exact_routes_ (routes_ s) !! key = Some e -> rt !! key = Some hs ->
    exists id mask slots, handler e = Some id /\ heap s !! id = Some (LambdaResource mask slots) /\ holds mask slots hs;
  ro_apart key key' e e' id : exact_routes_ (routes_ s) !! key = Some e -> exact_routes_ (routes_ s) !! key' = Some e' ->
    handler e = Some id -> handler e' = Some id -> key = key';
  ro_fresh id : is_Some (heap s !! id) -> id < next_id s;
  ro_heap id r : heap s !! id = Some r -> cached_allow_valid_ (res_mask r) = false /\ is_allowed (res_mask r) count_ = false;
}.

Lemma holds_none : holds (disallow_all new_resource) (replicate (Z.to_nat (method_index count_)) None) (fun _ => None).
Proof. split_and!; try done. intros m Hm. split; [by destruct m|]. by destruct m. Qed.

Lemma set_slot_holds mask slots hs m h : holds mask slots hs -> m <> count_ ->
  exists mask' slots', set_slot (mask, slots) m h = Ok (mask', slots')
    /\ holds mask' slots' (fun m' => if decide (m' = m) then Some h else hs m').
Proof.
  intros (Hl & Hv & Hc & Hs) Hm. unfold set_slot. cbn [fst snd]. rewrite Hl.
  assert (Hlt : Z.to_nat (method_index m) < Z.to_nat (method_index count_)) by (destruct m; cbn; lia || done).
  rewrite (proj2 (Nat.ltb_lt _ _)) by done. do 2 eexists. split; [done|].
  assert (Hal : forall x, is_allowed (set_allowing mask m true) x = is_allowed mask x || bool_decide (m = x)).
  { intros x. unfold is_allowed, set_allowing. rewrite decide_False by done. cbn. by rewrite contains_set. }
  split_and!.
  - by rewrite length_insert.
  - unfold set_allowing. by rewrite decide_False.
  - rewrite Hal, Hc. by rewrite bool_decide_false.
  - intros x Hx. destruct (Hs x Hx) as [Ha Hsl]. rewrite Hal, Ha. destruct (decide (x = m)) as [->|Hne].
    + rewrite (bool_decide_true (m = m)), orb_true_r by done. split; [by rewrite bool_decide_true by eauto|].
      apply list_lookup_insert_eq. lia.
    + rewrite (bool_decide_false (m = x)), orb_false_r by done. split; [done|].
      rewrite list_lookup_insert_ne; [done|]. intros Hi. apply Hne, method_index_inj.
      pose proof (method_index_range m). pose proof (method_index_range x). lia.
Qed.

Lemma holds_ext mask slots hs hs' : (forall m, m <> count_ -> hs m = hs' m) -> holds mask slots hs -> holds mask slots hs'.
Proof. intros He (Hl & Hv & Hc & Hs). split_and!; try done. intros m Hm. rewrite <- He by done. by apply Hs. Qed.

Lemma fill_slots_holds l h mask slots hs : holds mask slots hs -> Forall (fun m => m <> count_) l ->
  exists mask' slots', fill_slots l h (mask, slots) = Ok (mask', slots')
    /\ holds mask' slots' (fun m => if bool_decide (m ∈ l) then Some h else hs m).
Proof.
  intros Hh Hl. unfold fill_slots. revert mask slots hs Hh. induction Hl as [|x l Hx Hl IH]; intros mask slots hs Hh; [by do 2 eexists|].
  cbn [foldl mbind outcome_bind]. destruct (set_slot_holds mask slots hs x h Hh Hx) as (mask1 & slots1 & -> & Hx1).
  destruct (IH _ _ _ Hx1) as (mask2 & slots2 & E & Hx2). do 2 eexists. split; [exact E|].
  eapply holds_ext; [|exact Hx2]. intros m _. cbn. destruct (decide (m = x)) as [->|Hne].
  - rewrite (bool_decide_true (x ∈ x :: l)) by set_solver. by case_bool_decide.
  - destruct (decide (m ∈ l)); [rewrite !bool_decide_true by set_solver|rewrite !bool_decide_false by set_solver]; done.
Qed.

Lemma requested_spec ms m : m ∈ for_each_requested_method ms <-> m <> count_ /\ contains ms m = true.
Proof. unfold for_each_requested_method. rewrite list_elem_of_In, filter_In, <- list_elem_of_In, <- all_methods_complete. done. Qed.

Lemma fill_requested ms h mask slots hs : holds mask slots hs ->
  exists mask' slots', fill_slots (for_each_requested_method ms) h (mask, slots) = Ok (mask', slots')
    /\ holds mask' slots' (bind_methods ms h hs).
Proof.
  intros Hh. destruct (fill_slots_holds (for_each_requested_method ms) h mask slots hs Hh) as (mask' & slots' & E & H').
  { apply Forall_forall. by intros m [? _]%requested_spec. }
  do 2 eexists. split; [exact E|]. eapply holds_ext; [|exact H']. intros m Hm. unfold bind_methods.
  rewrite (bool_decide_true (m <> count_)) by done. cbn. destruct (contains ms m) eqn:Ec; case_bool_decide as Hb; try done.
  - exfalso. by apply Hb, requested_spec.
  - by apply requested_spec in Hb as [_ Hb]; congruence.
Qed.

(** ** The operations *)

(** Binding a path to a resource that no other path has. *)
Lemma routed_bind s rt t key e id mask slots hs next :
  routed s rt -> param_and_prefix_routes_ t = Trie.empty_node -> regex_routes_ t = [] ->
  exact_routes_ t = <[key := e]> (exact_routes_ (routes_ s)) -> handler e = Some id -> holds mask slots hs ->
  (forall key' e', key' <> key -> exact_routes_ (routes_ s) !! key' = Some e' -> handler e' <> Some id) ->
  id < next -> next_id s <= next ->
  routed (Server t (<[id := LambdaResource mask slots]> (heap s)) next) (<[key := hs]> rt).
Proof.
  intros [] Ht Hr He Hid Hh Hother Hlt Hn. constructor; cbn [routes_ heap next_id]; rewrite ?He; auto.
  - intros key'. destruct (decide (key = key')) as [->|Hk]; [repeat rewrite lookup_insert_eq; split; intros [=]|do 2 rewrite lookup_insert_ne by done; apply ro_keys0].
  - intros key' e' hs'. destruct (decide (key = key')) as [->|Hk].
    + repeat rewrite lookup_insert_eq. intros [= <-] [= <-]. exists id, mask, slots. by rewrite lookup_insert_eq.
    + do 2 rewrite lookup_insert_ne by done. intros Ha Hb. destruct (ro_route0 _ _ _ Ha Hb) as (id' & mask' & slots' & Hi & Hhp & Hx).
      exists id', mask', slots'. split; [done|]. split; [|done]. rewrite lookup_insert_ne; [done|]. intros ->. by eapply Hother.
  - intros k1 k2 e1 e2 id'. destruct (decide (key = k1)) as [<-|H1k], (decide (key = k2)) as [<-|H2k];
      rewrite ?lookup_insert_eq, ?lookup_insert_ne by done; [by intros| | |by apply ro_apart0].
    + intros [= <-] Hk2 Hi1 Hi2. exfalso. eapply Hother; [|exact Hk2|]; [done|congruence].
    + intros Hk1 [= <-] Hi1 Hi2. exfalso. eapply Hother; [|exact Hk1|]; [done|congruence].
  - intros x. destruct (decide (id = x)) as [<-|Hx]; [by intros|]. rewrite lookup_insert_ne by done. intros Hs%ro_fresh0. lia.
  - intros x r. destruct (decide (id = x)) as [<-|Hx]; [|rewrite lookup_insert_ne by done; apply ro_heap0].
    rewrite lookup_insert_eq. intros [= <-]. by destruct Hh as (_ & ? & ? & _).
Qed.

Lemma validate_plain cfg ms p (f : nat) : plain_config cfg ->
  validate_on_methods_inputs_ cfg ms p (Some f)
  = if empty ms then Throw (invalid_argument (bs "route(method_set, ...) requires at least one method bit set"))
    else if bool_decide (NUL ∈ p) then Throw (invalid_argument (bs "Route path must not contain embedded null bytes"))
    else if (8192 <? Z.of_nat (length p))%Z then Throw (invalid_argument (bs "Route path exceeds maximum length of 8192 bytes"))
    else Ok ().
Proof. intros [Hs _]. unfold validate_on_methods_inputs_. by rewrite Hs. Qed.

Lemma overlap_spec mask slots hs l : holds mask slots hs -> Forall (fun m => m <> count_) l ->
  existsb (has_slot mask) l = existsb (fun m => bool_decide (is_Some (hs m))) l.
Proof.
  intros (_ & _ & _ & Hs) Hl. induction Hl as [|m l Hm _ IH]; [done|]. cbn. unfold has_slot at 1. rewrite (proj1 (Hs m Hm)). by rewrite IH.
Qed.

Lemma requested_real ms : Forall (fun m => m <> count_) (for_each_requested_method ms).
Proof. apply Forall_forall. by intros m [? _]%requested_spec. Qed.

Lemma on_methods_routed cfg ms p h s rt :
  plain_config cfg -> p <> [] -> literal_path p -> routed s rt ->
  is_ok (snd (on_methods_ cfg ms p h s)) = snd (router_exec rt (OpOnMethods ms p h))
  /\ routed (fst (on_methods_ cfg ms p h s)) (fst (router_exec rt (OpOnMethods ms p h))).
Proof.
  intros Hc Hne Hp Hs. unfold on_methods_, router_exec. destruct h as [f|]; [|unfold mbind, stx_bind, stx_lift, validate_on_methods_inputs_; by destruct (empty ms)].
  unfold mbind, stx_bind, stx_lift. rewrite validate_plain by done. unfold accepts.
  destruct (empty ms); cbn [negb andb fst snd is_ok]; [done|].
  destruct (bool_decide (NUL ∈ p)); cbn [negb andb fst snd is_ok]; [by rewrite ?andb_false_r|].
  rewrite bool_decide_true by (by eexists). cbn [andb]. rewrite Z.leb_antisym.
  destruct (8192 <? Z.of_nat (length p))%Z; cbn [negb andb fst snd is_ok]; [done|].
  destruct Hc as [_ ->]. destruct (literal_endpoint p false Hne Hp) as (idx & -> & Hk & Hpars & Hre).
  set (key := canonicalize_lookup_path p) in *. unfold prepare_or_create_lambda_shim, find_v2_entry_by_path_. rewrite Hpars, Hk. cbn [is_empty negb].
  pose proof Hs as []. destruct (exact_routes_ (routes_ s) !! key) as [e|] eqn:Ee.
  - assert (Hrt : is_Some (rt !! key)) by (destruct (rt !! key) eqn:E; [by eexists|]; apply ro_keys0 in E; congruence).
    destruct Hrt as [hs Hhs]. destruct (ro_route0 _ _ _ Ee Hhs) as (id & mask & slots & Hid & Hhp & Hh).
    rewrite Hid. cbn [mbind option_bind]. rewrite Hhp. cbn [fmap option_fmap option_map].
    rewrite (overlap_spec _ _ _ _ Hh (requested_real ms)). unfold bound. rewrite Hhs. cbn [default].
    destruct (existsb _ _); cbn [negb fst snd is_ok]; [done|].
    unfold commit_handlers_to_shim. rewrite Hhp. destruct (fill_requested ms f mask slots hs Hh) as (mask' & slots' & -> & Hh').
    unfold lift_table, upsert_v2_table_entry_locked_. rewrite Hpars, Hk. cbn [is_empty negb routes_ with_routes modify_table].
    unfold update_existing_v2_entry. rewrite Ee. cbn [fst snd is_ok heap next_id]. split; [done|].
    eapply (routed_bind s rt _ key (merge_entry e ms id)); try done.
    + intros key' e' Hne' He' Hid'. by apply Hne', (ro_apart0 _ _ _ _ _ He' Ee Hid').
    + by apply ro_fresh0.
  - assert (Hrt : rt !! key = None) by (by apply ro_keys0). rewrite Hre. unfold mbind, stx_bind, alloc, mret, stx_ret.
    unfold bound. rewrite Hrt. cbn [default].
    assert (Hno : forall l : list http_method, existsb (fun m => bool_decide (is_Some (@None nat))) l = false) by (by induction l).
    rewrite Hno. cbn [negb fst snd is_ok].
    unfold commit_handlers_to_shim. cbn [heap]. rewrite lookup_insert_eq. unfold new_lambda_resource.
    destruct (fill_requested ms f _ _ _ holds_none) as (mask' & slots' & -> & Hh').
    unfold lift_table, upsert_v2_table_entry_locked_. rewrite Hpars. cbn [is_empty negb routes_ with_routes modify_table heap next_id].
    unfold insert_fresh_v2_entry, classify_route_tier, reject_terminus_collision. rewrite Hpars, Hre, Hk. cbn [is_empty negb].
    rewrite ro_trie0, has_terminus_empty. cbn [fst snd is_ok heap next_id routes_]. split; [done|].
    rewrite insert_insert_eq. eapply (routed_bind s rt _ key (make_non_prefix_entry ms (next_id s))); try done; try (cbn; lia).
    + cbn. unfold emplace. by rewrite Ee.
    + intros key' e' Hne' He' Hid'. pose proof (ro_keys0 key') as Hkk. destruct (rt !! key') as [hs|] eqn:E; [|by rewrite (proj2 Hkk) in He'].
      destruct (ro_route0 _ _ _ He' E) as (id & mask & slots & Hi & Hhp & _). rewrite Hi in Hid'. injection Hid' as ->.
      assert (Hlt : next_id s < next_id s) by (apply ro_fresh0; by eexists). lia.
Qed.

Lemma unregister_routed cfg p s rt :
  plain_config cfg -> p <> [] -> literal_path p -> routed s rt ->
  is_ok (snd (unregister_impl_ cfg p false s)) = true
  /\ routed (fst (unregister_impl_ cfg p false s)) (base.delete (canonicalize_lookup_path p) rt).
Proof.
  intros [_ Hc] Hne Hp Hs. unfold unregister_impl_, mbind, stx_bind, stx_lift. rewrite Hc.
  destruct (literal_endpoint p false Hne Hp) as (idx & -> & Hk & Hpars & Hre). rewrite Hpars, Hk. cbn [is_empty negb modify_table fst snd is_ok].
  split; [done|]. set (key := canonicalize_lookup_path p). destruct Hs. constructor; cbn; auto.
  - by rewrite ro_regex0.
  - intros key'. destruct (decide (key = key')) as [->|Hkk]; [repeat rewrite lookup_delete_eq; by split|do 2 rewrite lookup_delete_ne by done; apply ro_keys0].
  - intros key' e hs He Hrt. apply lookup_delete_Some in He as [_ He]. apply lookup_delete_Some in Hrt as [_ Hrt]. by eapply ro_route0.
  - intros key1 key2 e1 e2 id He1 He2. apply lookup_delete_Some in He1 as [_ He1]. apply lookup_delete_Some in He2 as [_ He2]. by eapply ro_apart0.
Qed.

Lemma lookup_routed m p s rt : cache_inv (routes_ s) -> routed s rt ->
  is_ok (snd (lookup m p s)) = true /\ routed (fst (lookup m p s)) rt.
Proof.
  intros Hi []. unfold lookup, lift_table. destruct (lookup_v2_ok (routes_ s) m p Hi) as (t' & r & -> & _ & (He & Ht & Hr) & _).
  split; [done|]. constructor; cbn; rewrite <- ?He, <- ?Ht, <- ?Hr; auto.
Qed.

Lemma exec_routed cfg op s rt :
  plain_config cfg -> literal_op op -> cache_inv (routes_ s) -> routed s rt ->
  is_ok (snd (server_exec cfg op s)) = snd (router_exec rt op) /\ routed (fst (server_exec cfg op s)) (fst (router_exec rt op)).
Proof.
  intros Hc Hop Hi Hs. destruct op as [mask|p res family|p family|p|ms p h|m p]; cbn [literal_op] in Hop; try done.
  - destruct family; [done|]. destruct Hop as (Hne & Hp & _). destruct (unregister_routed cfg p s rt Hc Hne Hp Hs) as [Ho Hr].
    cbn [server_exec update_op router_exec fst snd]. unfold silent, mbind, stx_bind. destruct (unregister_impl_ cfg p false s) as [s' [[]|e|]]; done.
  - destruct Hop as (Hne & Hp & _). destruct (on_methods_routed cfg ms p h s rt Hc Hne Hp Hs) as [Ho Hr].
    cbn [server_exec update_op]. unfold silent, mbind, stx_bind. destruct (on_methods_ cfg ms p h s) as [s' [[]|e|]]; done.
  - destruct (lookup_routed m p s rt Hi Hs) as [Ho Hr]. cbn [server_exec router_exec fst snd]. unfold mbind, stx_bind.
    destruct (lookup m p s) as [s' [r|e|]]; done.
Qed.

Lemma literal_compiles key : literal_path key -> constraints_compile key = true.
Proof.
  intros Hp. unfold constraints_compile. apply forallb_forall. intros seg Hin%list_elem_of_In. unfold literal_path in Hp.
  rewrite Forall_forall in Hp. unfold segment_compiles, Trie.is_wildcard_segment.
  by rewrite (bool_decide_false (hd_error seg = _)), andb_false_r by (by apply Hp).
Qed.

Lemma cache_inv_sim s : cache_inv (routes_ s) -> sim s s.
Proof. intros Hi. split; [exists (route_lru_cache (routes_ s)); by destruct (routes_ s)|]. by split_and!. Qed.

Lemma exec_inv cfg op s : literal_op op -> cache_inv (routes_ s) -> server_ok s ->
  cache_inv (routes_ (fst (server_exec cfg op s))) /\ server_ok (fst (server_exec cfg op s)).
Proof.
  intros Hop Hi Hok. split.
  - assert (Hc : op_compiles op).
    { destruct op as [| |p []| |ms p h|]; try done; cbn; apply literal_compiles, Hop. }
    by destruct (server_exec_sim cfg op s s Hc (cache_inv_sim s Hi)) as [_ (_ & _ & _ & ?)].
  - apply (triple_exec cfg op s Hok). by destruct op as [| |p []| |ms p h|]; try done; apply Hop.
Qed.

(** Running the operations is running the router. *)
Lemma run_routed cfg ops s rt :
  plain_config cfg -> Forall literal_op ops -> cache_inv (routes_ s) -> server_ok s -> routed s rt ->
  let s' := fst (run server_exec cfg ops s) in
  map is_ok (snd (run server_exec cfg ops s)) = snd (router_run ops rt)
  /\ routed s' (fst (router_run ops rt)) /\ cache_inv (routes_ s') /\ server_ok s'.
Proof.
  intros Hc Hops. revert s rt. induction Hops as [|op ops Hop Hops IH]; intros s rt Hi Hok Hr; [done|]. cbn [run router_run].
  destruct (exec_routed cfg op s rt Hc Hop Hi Hr) as [Ho Hr']. destruct (exec_inv cfg op s Hop Hi Hok) as [Hi' Hok'].
  destruct (server_exec cfg op s) as [s1 o], (router_exec rt op) as [rt1 ok]. cbn [fst snd] in *.
  destruct (IH s1 rt1 Hi' Hok' Hr') as (E & H').
  destruct (run server_exec cfg ops s1) as [s2 os], (router_run ops rt1) as [rt2 oks]. cbn [fst snd] in *. split; [|done].
  cbn. by rewrite Ho, E.
Qed.

Lemma new_routed s : new_server = Ok s -> routed s ∅.
Proof.
  unfold new_server. destruct (LruCache.new_cache _); [|done..]. intros [= <-]. constructor; cbn; try done.
  all: intros *; rewrite ?lookup_empty; try done.
Qed.

End Refinement.

(** ** Replies *)

Section Replies.
Context `{RegexEngine, StdHash, !StdHashOk, MhdCreate, BodyFits} {R : Type} `{HttpRequest R} {App : Type}.
Context (mhd_queues : mhd_event -> bool) (mhd_create_post_processor : bytes -> bool) (mhd_post_process : R -> bytes -> R).
Context (cfg : Dispatch.config).
Context `{!@UserCode _ R App}.

#[local] Abbreviation world := (@Dispatch.world _ App).

(** What the router answers: 404 for a path that is not bound, 405 with the bound
    methods for a method that is not, and otherwise what the handler makes of
    the request.  The router promises nothing for a response without a status,
    nor for the handlers of [connect] and [trace]. *)
Definition router_allow (hs : http_method -> option nat) : bytes :=
  join (bs ", ") (map to_string (List.filter (fun m => bool_decide (is_Some (hs m))) all_methods)).

Definition router_reply (rt : router) (m : http_method) (path : bytes) (r : R) (w : world) : option http_response :=
  match rt !! canonicalize_lookup_path path with
  | None => Some (page (bs "Not Found") 404)
  | Some hs =>
      match (if decide (m = count_) then None else hs m) with
      | Some h =>
          if bool_decide (m = connect \/ m = trace) then None
          else match snd (user_handler h r w) with
               | inl e => Some (internal_page cfg (what e))
               | inr resp => if (status_code_ resp =? -1)%Z then None else Some resp
               end
      | None =>
          let p := page (bs "Method not Allowed") 405 in
          Some (if is_empty (router_allow hs) then p
                else set_headers p (insert_or_assign header_comparator http_header_allow (router_allow hs) (headers_ p)))
      end
  end.

Lemma allow_page_router mask slots hs : holds mask slots hs -> format_allow_header (methods_allowed_ mask) = router_allow hs.
Proof.
  intros (_ & _ & _ & Hs). rewrite format_allow_header_join. unfold router_allow. do 2 f_equal. apply filter_ext_in.
  intros m Hm. apply list_elem_of_In, all_methods_complete in Hm. apply (Hs m Hm).
Qed.

Lemma called_methods m : m <> count_ -> ~ (m = connect \/ m = trace) -> m ∈ [get; post; put; del; patch; options; head].
Proof. intros Hc Hm. destruct m; try done; try (apply (bool_decide_unpack _); vm_compute; exact I); exfalso; apply Hm; auto. Qed.

Lemma reply_routed rt m path r (w : world) : routed (srv w) rt -> reply cfg m path r w = router_reply rt m path r w.
Proof.
  intros []. unfold reply, router_reply. rewrite resolve_exact by done. set (key := canonicalize_lookup_path path).
  destruct (exact_routes_ (routes_ (srv w)) !! key) as [e|] eqn:Ee; cbn [fmap option_fmap option_map].
  - destruct (rt !! key) as [hs|] eqn:Ert; [|by apply ro_keys0 in Ert; congruence].
    destruct (ro_route0 _ _ _ Ee Ert) as (id & mask & slots & Hid & Hhp & Hh). destruct e as [ms hd pre]. cbn in Hid. subst hd. rewrite Hhp. cbn [res_mask].
    unfold allow_page. rewrite (allow_page_router _ _ _ Hh). destruct Hh as (_ & _ & Hc & Hs). destruct (decide (m = count_)) as [->|Hm].
    + by rewrite Hc.
    + destruct (Hs m Hm) as [Ha Hsl]. rewrite Ha. destruct (hs m) as [h|] eqn:Eh; [|done]. rewrite bool_decide_true by (by eexists).
      unfold resource_reply. cbn [never_called]. destruct (bool_decide (m = connect \/ m = trace)) eqn:Hnc; [done|]. apply bool_decide_eq_false in Hnc.
      unfold run_resource, with_captures. cbn [foldl].
      by rewrite Hsl, (bool_decide_true (m ∈ _)) by (by apply called_methods).
  - apply ro_keys0 in Ee. by rewrite Ee.
Qed.

Lemma routed_cache rt c (w : world) : routed (srv w) rt -> routed (srv (with_route_cache c w)) rt.
Proof. intros []. by constructor. Qed.

Lemma routed_serving rt (w : world) : routed (srv w) rt -> cache_inv (routes_ (srv w)) -> server_ok (srv w) -> serving w.
Proof.
  intros [] Hi Hok. constructor; [|done|].
  - split; [done|]. intros id r Hr. by destruct (ro_heap0 _ _ Hr).
  - intros id r Hr Hv. destruct (ro_heap0 _ _ Hr). congruence.
Qed.


End Replies.


Section Examples.
#[local] Existing Instances literal_engine len_hash len_hash_ok accepts_all all_inline log_request tame_code.

(** A path bound twice with one method refused, and another bound and removed. *)
Definition shop_routes : list (server_op nat) :=
  [OpOnMethods get_set (bs "/cart") (Some 1); OpOnMethods post_set (bs "cart/") (Some 2); OpOnMethods get_set (bs "/cart") (Some 3);
   OpLookup get (bs "/cart"); OpOnMethods get_set (bs "/old") (Some 4); OpUnregister (bs "/old") false; OpLookup get (bs "/old")].

Definition shop_world : @world _ unit := demo_world shop_routes.

Definition shop_reply (c : LruCache.route_cache (route_entry * list (bytes * bytes))) (url method : bytes) (r : list (bytes * bytes))
    : option http_response :=
  router_reply (demo_config None) (fst (router_run shop_routes ∅)) (parse_method method) (request_path (demo_config None) url) r
    (with_route_cache c shop_world).
Definition not_allowed_response : mhd_response :=
  MhdResponse (create_from_buffer_static (bs "Method not Allowed")) [(http_header_allow, bs "GET, POST"); (http_header_content_type, bs "text/plain")] [].

Definition not_allowed : http_response :=
  set_headers (page (bs "Method not Allowed") 405)
    (insert_or_assign header_comparator http_header_allow (bs "GET, POST") (headers_ (page (bs "Method not Allowed") 405))).

Lemma shop_reply_ok c r : shop_reply c (bs "/cart/") (bs "DELETE") r = Some not_allowed.
Proof. by vm_compute. Qed.

Lemma shop_delivery_ok : delivery (demo_config None) not_allowed = Some (not_allowed_response, MhdQueue 405 not_allowed_response).
Proof. by vm_compute. Qed.

(** A path that is not bound any more. *)
Example shop_reply_old c r : shop_reply c (bs "/old") (bs "GET") r = Some (page (bs "Not Found") 404).
Proof. by vm_compute. Qed.

Lemma shop_literal : Forall literal_op shop_routes.
Proof.
  assert (Hl : forall p, forallb (fun part => negb (bool_decide (hd_error part = Some "{"%char))) (tokenize_url p "/") = true -> literal_path p).
  { intros p Hp. apply Forall_forall. intros part Hin Hh. apply list_elem_of_In in Hin. rewrite forallb_forall in Hp.
    specialize (Hp _ Hin). by rewrite bool_decide_true in Hp. }
  assert (Hop : forall p, p <> [] ->
    forallb (fun q => forallb (fun part => negb (bool_decide (hd_error part = Some "{"%char))) (tokenize_url q "/")) [p; canonicalize_lookup_path p] = true ->
    p <> [] /\ literal_path p /\ literal_path (canonicalize_lookup_path p)).
  { intros p Hne Hp. cbn [forallb] in Hp. rewrite andb_true_r in Hp. apply andb_true_iff in Hp as [? ?]. split; [done|]. split; by apply Hl. }
  repeat constructor; cbn [literal_op]; try done; by (apply Hop; [done|vm_compute]).
Qed.


End Examples.
