(* ===== verification/HookOrder.v ===== *)
(** * The order of hooks

    [hook_phase.hpp] lists the phases in firing order.  Here user code records its
    calls, whatever else it does, and the calls of one request are shown to come
    in that order: through [request_pipeline.cpp], [request_dispatcher.cpp],
    [hook_dispatcher.cpp] and [response_materializer.cpp]. *)

From Stdlib Require Import Sorted.
From S2P Require Import Prelude HttpUtils HttpMethod Paths RouteCache Regex HttpEndpoint RouteTable Registration.
From S2P Require Import Cookie OrderedMap HttpResponse HookBus Request Dispatch.
Import HttpUtils.Unescape HttpUtils.HttpUtils MethodSetOps RouteTable.RouteTable Registration.Registration.
Import HttpResponse.Response HookBus.Hooks Dispatch.Dispatch.

Module HookOrder.

(** ** Calls and their order *)

(** A hook called in a phase, and whether it returned a response; or the code of a
    resource, or the handler of the 404 or 405 page, and whether it threw. *)
Inductive hook_call : Type :=
| Hooked (p : hook_phase) (f : nat) (responded : bool)
| Ran (threw : bool).

(** Whether user code threw. *)
Definition is_thrown {A} (r : exn + A) : bool := match r with inl _ => true | inr _ => false end.

(** The phase of a context structure. *)
Definition ctx_phase (c : hook_ctx) : hook_phase :=
  match c with
  | request_received_ctx => request_received
  | body_chunk_ctx _ _ _ => body_chunk
  | route_resolved_ctx _ _ => route_resolved
  | before_handler_ctx _ _ _ => before_handler
  | handler_exception_ctx _ => handler_exception
  | after_handler_ctx => after_handler
  | response_sent_ctx _ _ => response_sent
  | request_completed_ctx _ => request_completed
  end.

(** A stage is the first phase that may still fire.  The handler comes with the
    last phase before it. *)
Definition call_stage (c : hook_call) : nat := phase_index (match c with Hooked p _ _ => p | Ran _ => before_handler end).

(** The phases in which a response ends the request early. *)
Definition answers_early (p : hook_phase) : bool :=
  match p with request_received | body_chunk | before_handler => true | _ => false end.

(** The stage after a hook: its own phase, after an early answer [response_sent],
    after a response for an exception [after_handler]. *)
Definition after_hook (p : hook_phase) (responded : bool) : nat :=
  phase_index (if responded then if answers_early p then response_sent else match p with handler_exception => after_handler | _ => p end
               else p).

(** After the handler, [handler_exception]. *)
Definition next_stage (c : hook_call) : nat :=
  match c with Ran _ => phase_index handler_exception | Hooked p _ responded => after_hook p responded end.

(** The stage a sequence of calls leads to, if it is in order. *)
Fixpoint stage_after (q : nat) (t : list hook_call) : option nat :=
  match t with
  | [] => Some q
  | c :: t => if q <=? call_stage c then stage_after (next_stage c) t else None
  end.

Definition first_stage : nat := phase_index request_received.

Definition in_order (t : list hook_call) : Prop := is_Some (stage_after first_stage t).

End HookOrder.
Import HookOrder.

Lemma next_stage_ge c : call_stage c <= next_stage c.
Proof. destruct c as [[] f []|]; cbn; lia. Qed.

Lemma stage_after_app q t t' : stage_after q (t ++ t') = stage_after q t ≫= fun q' => stage_after q' t'.
Proof. revert q. induction t as [|c t IH]; intros q; cbn; [done|]. destruct (q <=? call_stage c); [apply IH|done]. Qed.

(** Later calls have later stages. *)
Lemma stage_after_ge q t q' : stage_after q t = Some q' -> q <= q' /\ Forall (fun c => q <= call_stage c) t.
Proof.
  revert q. induction t as [|c t IH]; intros q E; cbn in E; [by simplify_eq|].
  destruct (Nat.leb_spec q (call_stage c)); [|done]. destruct (IH _ E) as [Hq Ht]. pose proof (next_stage_ge c).
  split; [lia|]. constructor; [done|]. eapply Forall_impl; [exact Ht|]. cbn. lia.
Qed.

Lemma stage_after_weaken q q0 t q' : stage_after q t = Some q' -> q0 <= q -> exists q1, stage_after q0 t = Some q1 /\ q1 <= q'.
Proof.
  intros E Hq. destruct t as [|c t]; cbn in *; [simplify_eq; eauto|].
  destruct (Nat.leb_spec q (call_stage c)); [|done]. rewrite (proj2 (Nat.leb_le _ _)) by lia. eauto.
Qed.

(** ** What an ordered sequence means *)

Lemma ordered_sorted q t q' : stage_after q t = Some q' -> StronglySorted le (call_stage <$> t).
Proof.
  revert q. induction t as [|c t IH]; intros q E; cbn in E; [constructor|].
  destruct (q <=? call_stage c); [|done]. cbn. constructor; [by eapply IH|].
  apply Forall_fmap. eapply Forall_impl; [apply (stage_after_ge _ _ _ E)|]. cbn. intros x Hx. pose proof (next_stage_ge c). lia.
Qed.

(** After an early answer only observers of the response are called. *)
Lemma ordered_early q t1 p f t2 q' : stage_after q (t1 ++ Hooked p f true :: t2) = Some q' -> answers_early p = true ->
  Forall (fun c => phase_index response_sent <= call_stage c) t2.
Proof.
  rewrite stage_after_app. destruct (stage_after q t1) as [q1|]; cbn; [|done]. destruct (q1 <=? _); [|done]. intros E Hp.
  destruct p; try discriminate Hp; apply (stage_after_ge _ _ _ E).
Qed.

(** The handler runs once, after all hooks before it. *)
Lemma ordered_once q t1 b t2 q' : stage_after q (t1 ++ Ran b :: t2) = Some q' -> forall b', Ran b' ∉ t1 /\ Ran b' ∉ t2.
Proof.
  rewrite stage_after_app. destruct (stage_after q t1) as [q1|] eqn:E1; cbn; [|done]. destruct (Nat.leb_spec q1 5); [|done]. intros E b'.
  split; intros Hin.
  - apply list_elem_of_split in Hin as (l1 & l2 & ->). rewrite stage_after_app in E1.
    destruct (stage_after q l1) as [q2|]; cbn in E1; [|done]. destruct (q2 <=? 5); [|done].
    apply stage_after_ge in E1 as [? _]. cbn in *. lia.
  - apply stage_after_ge in E as [_ Hf]. rewrite Forall_forall in Hf. apply Hf in Hin. cbn in Hin. lia.
Qed.

(** ** User code that records its calls *)

Section Recorded.
Context `{RegexEngine, StdHash, MhdCreate, BodyFits} {R : Type} `{HttpRequest R} {App : Type}.
Context (mhd_queues : mhd_event -> bool) (mhd_create_post_processor : bytes -> bool) (mhd_post_process : R -> bytes -> R).
Context (cfg : Dispatch.config).
Context `{!@UserCode _ R App}.

#[local] Abbreviation world := (@Dispatch.world _ App).
#[local] Abbreviation dstate := (@Dispatch.dstate _ R App).
#[local] Abbreviation hook_env := (@Dispatch.hook_env _ R App).

(** Each hook, resource and page handler adds its call to the record; a hook leaves
    its context in place. *)
Class Recording (calls : App -> list hook_call) : Prop := {
  rec_hook f e : calls (app (he_world (fst (user_hook f e))))
    = calls (app (he_world e)) ++ [Hooked (ctx_phase (he_ctx e)) f (match snd (user_hook f e) with inr (Some _) => true | _ => false end)];
  rec_ctx f e : ctx_phase (he_ctx (fst (user_hook f e))) = ctx_phase (he_ctx e);
  rec_render id m r w : calls (app (fst (user_render id m r w))) = calls (app w) ++ [Ran (is_thrown (snd (user_render id m r w)))];
  rec_handler h r w : calls (app (fst (user_handler h r w))) = calls (app w) ++ [Ran (is_thrown (snd (user_handler h r w)))];
  rec_error h r msg w : calls (app (fst (user_error_handler h r msg w))) = calls (app w);
}.

Context (calls : App -> list hook_call) `{!Recording calls}.
#[local] Abbreviation run_code := (hook_code cfg).

(** The calls since [base] are in order and lead to a stage up to [q]. *)
Context (base : list hook_call).

Definition reached (q : nat) (w : world) : Prop :=
  exists t q', calls (app w) = base ++ t /\ stage_after first_stage t = Some q' /\ q' <= q.

Lemma reached_weaken q q' w : reached q w -> q <= q' -> reached q' w.
Proof. intros (t & q0 & Ht & E & Hq) Hle. exists t, q0. split; [done|]. split; [done|lia]. Qed.

Lemma reached_call q w w' c : reached q w -> q <= call_stage c -> calls (app w') = calls (app w) ++ [c] -> reached (next_stage c) w'.
Proof.
  intros (t & q0 & Ht & E & Hq) Hc Hw. exists (t ++ [c]), (next_stage c). split; [by rewrite Hw, Ht, app_assoc|].
  split; [|done]. rewrite stage_after_app, E. cbn. by rewrite (proj2 (Nat.leb_le _ _)) by lia.
Qed.

Lemma reached_same q w w' : app w' = app w -> reached q w -> reached q w'.
Proof. intros E (t & q0 & Ht & Hr). exists t, q0. by rewrite E. Qed.

Lemma app_log msg (w : world) : app (log_dispatch_error cfg msg w) = app w.
Proof. unfold log_dispatch_error. by destruct (has_log_error cfg). Qed.

(** *** Firing *)

(** A hook environment in a phase, at a stage. *)
Definition env_at (p : hook_phase) (q : nat) (e : hook_env) : Prop := ctx_phase (he_ctx e) = p /\ reached q (he_world e).

(** After hooks that return, or not, a response. *)
Definition fired_to (p : hook_phase) (e : hook_env) (answered : bool) : Prop := env_at p (after_hook p answered) e.

Definition is_answered {A} (o : option A) : bool := match o with Some _ => true | None => false end.

Lemma call_guarded_at p q subject f e : env_at p q e -> q <= phase_index p ->
  let '(e', sc) := @call_guarded hook_env run_code subject f e in fired_to p e' (is_answered sc).
Proof.
  intros [Hp Hr] Hq. unfold call_guarded. cbn. pose proof (rec_hook f e) as Hc. pose proof (rec_ctx f e) as Hx.
  rewrite Hp in Hc, Hx. destruct (user_hook f e) as [e' [ex|[r|]]]; cbn in *; (split; [done|]).
  - eapply reached_same; [apply app_log|]. exact (reached_call q _ _ (Hooked p f false) Hr Hq Hc).
  - exact (reached_call q _ _ (Hooked p f true) Hr Hq Hc).
  - exact (reached_call q _ _ (Hooked p f false) Hr Hq Hc).
Qed.

Lemma run_short_circuit_at p subject l e : env_at p (phase_index p) e ->
  let '(e', sc) := @run_short_circuit hook_env run_code subject l e in fired_to p e' (is_answered sc).
Proof.
  revert e. induction l as [|x l IH]; intros e He; cbn [run_short_circuit]; [done|].
  pose proof (call_guarded_at p _ subject (fn x) e He (Nat.le_refl _)) as Hg.
  destruct (call_guarded subject (fn x) e) as [e' [r|]]; [done|]. by apply IH.
Qed.

(** A phase whose hooks only observe. *)
Definition observes (p : hook_phase) : bool := match p with route_resolved | response_sent | request_completed => true | _ => false end.

Lemma observed_stage p b : observes p = true -> after_hook p b = phase_index p.
Proof. by destruct p, b. Qed.

Lemma run_void_at p subject l e : observes p = true -> env_at p (phase_index p) e ->
  env_at p (phase_index p) (@run_void hook_env run_code subject l e).
Proof.
  intros Hp. unfold run_void. revert e. induction l as [|x l IH]; intros e He; [done|]. cbn [foldl]. apply IH.
  pose proof (call_guarded_at p _ subject (fn x) e He (Nat.le_refl _)) as Hg.
  destruct (call_guarded subject (fn x) e) as [e' sc]. unfold fired_to in Hg. by rewrite observed_stage in Hg.
Qed.

Lemma fire_void_at p name l e : observes p = true -> env_at p (phase_index p) e ->
  env_at p (phase_index p) (@fire_hooks_for_phase hook_env run_code name l e).
Proof. intros Hp He. unfold fire_hooks_for_phase. destruct (is_empty l); [done|by apply run_void_at]. Qed.

Lemma fire_sc_at p name l e : env_at p (phase_index p) e ->
  let '(e', sc) := @fire_short_circuit_hooks_for_phase hook_env run_code name l e in fired_to p e' (is_answered sc).
Proof. intros He. unfold fire_short_circuit_hooks_for_phase. destruct (is_empty l); [done|by apply run_short_circuit_at]. Qed.

Lemma fire_handler_exception_at b e : env_at handler_exception 6 e ->
  let '(e', sc) := @fire_handler_exception hook_env run_code b e in fired_to handler_exception e' (is_answered sc).
Proof.
  intros He. unfold fire_handler_exception.
  pose proof (run_short_circuit_at handler_exception (hook_subject (bs "handler_exception")) (hooks_handler_exception_ b) e He) as Hs.
  destruct (run_short_circuit _ _ e) as [e' [r|]]; [done|]. destruct (handler_exception_alias_ b) as [f|]; [|done].
  by apply (call_guarded_at handler_exception 6).
Qed.

Lemma fire_response_sent_at b e : env_at response_sent 8 e -> env_at response_sent 8 (@fire_response_sent hook_env run_code b e).
Proof.
  intros He. unfold fire_response_sent. pose proof (fire_void_at response_sent (bs "response_sent") (hooks_response_sent_ b) e eq_refl He) as Hv.
  destruct (log_access_alias_ b) as [f|]; [|done].
  pose proof (call_guarded_at response_sent 8 (bs "log_access alias") f _ Hv (Nat.le_refl _)) as Hg.
  destruct (call_guarded _ f _) as [e' sc]. unfold fired_to in Hg. by rewrite observed_stage in Hg.
Qed.

(** An optional firing of the phase, before or after another one. *)
Lemma gated_at p (b : bool) (f : hook_env -> hook_env * option http_response) e :
  (forall e, env_at p (phase_index p) e -> let '(e', sc) := f e in fired_to p e' (is_answered sc)) -> env_at p (phase_index p) e ->
  let '(e', sc) := if b then f e else (e, None) in fired_to p e' (is_answered sc).
Proof. intros Hf He. destruct b; [by apply Hf|done]. Qed.

Lemma env_of_at (s : dstate) ctx resp q : reached q (world_of s) -> env_at (ctx_phase ctx) q (env_of ctx resp s).
Proof. by intros Hs. Qed.

(** *** Steps of dispatch *)

Definition at_stage (q : nat) (s : dstate) : Prop := reached q (world_of s).

(** From stage [q] to stage [q'], however the step ends. *)
Definition moves {A} (q : nat) (f : stx dstate A) (q' : nat) : Prop := forall s, at_stage q s -> at_stage q' (fst (f s)).

Lemma moves_weaken {A} q0 q (f : stx dstate A) q' q1 : moves q f q' -> q0 <= q -> q' <= q1 -> moves q0 f q1.
Proof. intros Hf Hq0 Hq1 s Hs. eapply reached_weaken; [apply Hf; eapply reached_weaken; [exact Hs|done]|done]. Qed.

Lemma moves_keep {A} q (f : stx dstate A) : (forall s, app (world_of (fst (f s))) = app (world_of s)) -> moves q f q.
Proof. intros Hf s Hs. eapply reached_same; [apply Hf|done]. Qed.

Lemma moves_bind {A B} q q1 q' (f : stx dstate A) (g : A -> stx dstate B) :
  moves q f q1 -> (forall a, moves q1 (g a) q') -> q1 <= q' -> moves q (f ≫= g) q'.
Proof.
  intros Hf Hg Hq s Hs. specialize (Hf s Hs). unfold mbind, stx_bind. destruct (f s) as [s' [a|e|]]; cbn in *;
    [by apply Hg|by eapply reached_weaken..].
Qed.

Lemma moves_try {A} q q1 q' (f : stx dstate A) (h : exn -> stx dstate A) :
  moves q f q1 -> (forall e, moves q1 (h e) q') -> q1 <= q' -> moves q (stx_try f h) q'.
Proof.
  intros Hf Hh Hq s Hs. specialize (Hf s Hs). unfold stx_try. destruct (f s) as [s' [a|e|]]; cbn in *;
    [by eapply reached_weaken|by apply Hh|by eapply reached_weaken].
Qed.

Definition never_throws {A} (f : stx dstate A) : Prop := forall s e, snd (f s) <> Throw e.

(** The catch block of a step that throws nothing. *)
Lemma moves_try_dead {A} q q' (f : stx dstate A) (h : exn -> stx dstate A) : moves q f q' -> never_throws f -> moves q (stx_try f h) q'.
Proof.
  intros Hf Hn s Hs. specialize (Hf s Hs). specialize (Hn s). unfold stx_try. destruct (f s) as [s' [a|e|]]; [done| |done]. by destruct (Hn e).
Qed.

Lemma moves_when q q' b (f : stx dstate unit) : moves q f q' -> q <= q' -> moves q (stx_when b f) q'.
Proof. intros Hf Hq. destruct b; [done|]. intros s Hs. by eapply reached_weaken. Qed.

Lemma moves_ret {A} q (a : A) : moves q (mret a) q.
Proof. by apply moves_keep. Qed.

Lemma moves_lift {A} q (o : outcome A) : moves q (stx_lift o) q.
Proof. by apply moves_keep. Qed.

Lemma moves_emplace q r : moves q (emplace_response r) q.
Proof. by apply moves_keep. Qed.

Lemma moves_get_request q : moves q get_request q.
Proof. apply moves_keep. intros s. unfold get_request. by destruct (request (conn s)). Qed.

Lemma moves_log q msg : moves q (log_error cfg msg) q.
Proof. apply moves_keep. intros s. apply app_log. Qed.

Lemma moves_modify q (f : dstate -> dstate) : (forall s, at_stage q s -> at_stage q (f s)) -> moves q (stx_modify f) q.
Proof. intros Hf s Hs. by apply Hf. Qed.

(** A call of a resource or of a page handler. *)
Lemma moves_ran {A} q (f : world -> world * (exn + A)) : (forall w, calls (app (fst (f w))) = calls (app w) ++ [Ran (is_thrown (snd (f w)))]) -> q <= 5 ->
  moves q (user_call f) 6.
Proof.
  intros Hf Hq s Hs. unfold user_call. specialize (Hf (world_of s)). destruct (f (world_of s)) as [w r]. exact (reached_call q _ w (Ran (is_thrown r)) Hs Hq Hf).
Qed.

Lemma moves_not_found q : q <= 5 -> moves q (not_found_page cfg) 6.
Proof.
  intros Hq. unfold not_found_page. destruct (not_found_handler cfg) as [h|].
  - eapply moves_bind; [apply moves_get_request| |lia]. intros r. apply moves_ran; [apply rec_handler|done].
  - eapply moves_bind; [apply moves_lift| |lia]. intros r. eapply moves_weaken; [apply (moves_lift 6)|lia|lia].
Qed.

Lemma moves_method_not_allowed q : q <= 5 -> moves q (method_not_allowed_page cfg) 6.
Proof.
  intros Hq. unfold method_not_allowed_page. destruct (method_not_allowed_handler cfg) as [h|].
  - eapply moves_bind; [apply moves_get_request| |lia]. intros r. apply moves_ran; [apply rec_handler|done].
  - eapply moves_bind; [apply moves_lift| |lia]. intros r. eapply moves_weaken; [apply (moves_lift 6)|lia|lia].
Qed.

Lemma moves_internal_error q msg force : moves q (internal_error_page cfg msg force) q.
Proof.
  unfold internal_error_page. destruct force; [apply moves_lift|]. destruct (internal_error_handler cfg) as [h|].
  - eapply moves_bind; [apply moves_get_request| |done]. intros r s Hs. unfold user_call.
    pose proof (rec_error h r msg (world_of s)) as He. destruct (user_error_handler h r msg (world_of s)) as [w o].
    destruct Hs as (t & q' & Ht & Hr). exists t, q'. cbn in *. by rewrite He.
  - eapply moves_bind; [apply moves_lift|intros; apply moves_lift|done].
Qed.

Lemma moves_run_safely q msg : moves q (run_internal_error_handler_safely cfg msg) q.
Proof.
  eapply moves_try; [apply moves_internal_error| |done]. intros e. eapply moves_bind; [apply moves_log|intros; apply moves_internal_error|done].
Qed.

(** The page of the error handler, stored as the response. *)
Lemma moves_safe_page q msg : moves q (r ← run_internal_error_handler_safely cfg msg; emplace_response r) q.
Proof. eapply moves_bind; [apply moves_run_safely|intros; apply moves_emplace|done]. Qed.

Lemma route_resolved_stage found hrm (s : dstate) : at_stage 4 s -> at_stage 4 (fire_route_resolved_gated cfg found hrm s).
Proof.
  intros Hs. unfold fire_route_resolved_gated. destruct (negb _); [done|]. set (ctx := route_resolved_ctx _ _).
  exact (proj2 (fire_void_at route_resolved _ _ _ eq_refl (env_of_at s ctx None 4 Hs))).
Qed.

(** The server's chain and then, unless it answered, the route's. *)
Lemma before_handler_stage hrm (s : dstate) : at_stage 5 s ->
  let '(s', o) := fire_before_handler_gated cfg hrm s in at_stage (match o with Ok true => 8 | _ => 5 end) s'.
Proof.
  intros Hs. unfold fire_before_handler_gated. destruct (_ && _); [done|]. set (ctx := before_handler_ctx _ _ _).
  pose proof (gated_at before_handler (server_gate before_handler (world_of s)) (@fire_before_handler hook_env run_code (hooks_ (world_of s)))
    _ (fire_sc_at before_handler _ _) (env_of_at s ctx None 5 Hs)) as H1'.
  destruct (if server_gate _ _ then _ else _) as [e [r|]]; [exact (proj2 H1')|].
  pose proof (gated_at before_handler (route_gate (Some hrm) before_handler (world_of s))
    (@route_fire_before_handler hook_env run_code (route_table_of (Some hrm) (he_world e))) _ (run_short_circuit_at before_handler _ _) H1') as H2'.
  destruct (if route_gate _ _ _ then _ else _) as [e' [r|]]; exact (proj2 H2').
Qed.

(** Here the route's chain runs whether the server's answered or not. *)
Lemma after_handler_stage hrm (s : dstate) : at_stage 7 s -> at_stage 7 (fire_after_handler_gated cfg hrm s).
Proof.
  intros Hs. unfold fire_after_handler_gated. destruct (_ && _); [done|]. destruct (response (conn s)) as [r|]; [|done].
  pose proof (gated_at after_handler (server_gate after_handler (world_of s)) (@fire_after_handler hook_env run_code (hooks_ (world_of s)))
    _ (fire_sc_at after_handler _ _) (env_of_at s after_handler_ctx (Some r) 7 Hs)) as H1'.
  destruct (if server_gate _ _ then _ else _) as [e sc].
  assert (He : env_at after_handler 7 e) by (by destruct sc). clear H1'.
  set (s1 := match sc with Some r0 => _ | None => _ end). set (e1 := HookEnv _ _ _ _).
  assert (He1 : env_at after_handler 7 e1) by (unfold e1, s1; destruct sc; exact He).
  pose proof (gated_at after_handler (route_gate hrm after_handler (world_of s))
    (@route_fire_after_handler hook_env run_code (route_table_of hrm (he_world e1))) _ (run_short_circuit_at after_handler _ _) He1) as H2'.
  destruct (if route_gate _ _ _ then _ else _) as [e2 [r2|]]; exact (proj2 H2').
Qed.

Lemma response_sent_stage hrm (s : dstate) : at_stage 8 s -> at_stage 8 (fire_response_sent_gated cfg hrm s).
Proof.
  intros Hs. unfold fire_response_sent_gated. destruct (_ && _); [done|]. destruct (response (conn s)) as [r|]; [|done].
  set (e := env_of _ _ s). assert (He : env_at response_sent 8 e) by exact (conj eq_refl Hs).
  pose proof (fire_response_sent_at (hooks_ (world_of s)) e He) as H1'. destruct (route_gate _ _ _); [|exact (proj2 H1')].
  exact (proj2 (run_void_at response_sent _ _ _ eq_refl H1')).
Qed.

Lemma request_completed_stage alive completed_ok (s : dstate) : at_stage 9 s ->
  at_stage 9 (request_completed_callback cfg alive completed_ok s).
Proof.
  intros Hs. unfold request_completed_callback. assert (Hf : at_stage 9 (fire_request_completed_gated cfg alive completed_ok s)); [|exact Hf].
  unfold fire_request_completed_gated. destruct (_ && _); [done|]. set (e := env_of _ _ s).
  assert (He : env_at request_completed 9 e) by exact (conj eq_refl Hs).
  set (e1 := if server_gate _ _ then _ else _).
  assert (He1 : env_at request_completed 9 e1) by (unfold e1; destruct (server_gate _ _); [by apply fire_void_at|done]).
  clearbody e1. destruct (route_gate _ _ _); [|exact (proj2 He1)]. exact (proj2 (run_void_at request_completed _ _ _ eq_refl He1)).
Qed.

(** ** The handler and its exceptions *)

Lemma moves_handle_exception msg : moves 6 (handle_dispatch_exception cfg msg) 7.
Proof.
  intros s Hs. unfold handle_dispatch_exception. destruct (_ || _).
  2: { eapply reached_weaken; [exact (moves_safe_page 6 msg s Hs)|lia]. }
  set (ctx := handler_exception_ctx msg).
  pose proof (gated_at handler_exception (server_gate handler_exception (world_of s)
      || bool_decide (is_Some (handler_exception_alias_ (hooks_ (world_of s))))) (@fire_handler_exception hook_env run_code (hooks_ (world_of s)))
    _ (fire_handler_exception_at _) (env_of_at s ctx None 6 Hs)) as H1'.
  destruct (if _ || _ then _ else _) as [e [r|]]; [exact (proj2 H1')|].
  pose proof (gated_at handler_exception (route_gate (resource_weak_ (conn s)) handler_exception (world_of s))
    (@route_fire_handler_exception hook_env run_code (route_table_of (resource_weak_ (conn s)) (he_world e))) _
    (run_short_circuit_at handler_exception _ _) H1') as H2'.
  destruct (if route_gate _ _ _ then _ else _) as [e' [r|]]; [exact (proj2 H2')|].
  eapply reached_weaken; [exact (proj2 H2')|cbn; lia].
Qed.

Lemma moves_invoke q id : q <= 5 -> moves q (invoke_callback id) 6.
Proof.
  intros Hq s Hs. unfold invoke_callback.
  assert (Hskip : at_stage 6 s) by (eapply reached_weaken; [exact Hs|lia]).
  assert (Hcall : forall f : R -> world -> world * (exn + http_response),
    (forall r w, calls (app (fst (f r w))) = calls (app w) ++ [Ran (is_thrown (snd (f r w)))]) ->
    at_stage 6 (fst ((r ← get_request; user_call (f r) : stx dstate http_response) s))).
  { intros f Hf. refine (moves_bind q q 6 _ _ (moves_get_request q) _ _ s Hs); [|lia]. intros r. by apply moves_ran. }
  destruct (callback (conn s)) as [m|]; [|done].
  destruct (heap (srv (world_of s)) !! id) as [[mask|mask slots]|]; [|destruct (bool_decide _); [|done]|done].
  - apply Hcall. intros. apply rec_render.
  - destruct (slots !! _) as [[h|]|]; [apply Hcall; intros; apply rec_handler|exact Hskip..].
Qed.

Lemma moves_allow_header q id : moves q (allow_header_of id) q.
Proof. apply moves_keep. intros s. unfold allow_header_of. by repeat case_match. Qed.

Lemma moves_with_header q key value : moves q (response_with_header key value) q.
Proof.
  apply moves_keep. intros s. unfold response_with_header. destruct (response (conn s)) as [r|]; [|done]. by destruct (with_header r key value).
Qed.

Lemma moves_run_handler id : moves 5 (run_handler cfg id) 6.
Proof.
  unfold run_handler. eapply (moves_bind 5 5); [by apply moves_modify| |lia]. intros _.
  eapply (moves_bind 5 5); [by apply moves_keep| |lia]. intros [].
  - eapply (moves_bind 5 6); [by apply moves_invoke| |lia]. intros r.
    eapply (moves_bind 6 6); [apply moves_emplace| |lia]. intros _. apply moves_when; [apply moves_safe_page|done].
  - eapply (moves_bind 5 6); [by apply moves_method_not_allowed| |lia]. intros r.
    eapply (moves_bind 6 6); [apply moves_emplace| |lia]. intros _.
    eapply (moves_bind 6 6); [apply moves_allow_header| |lia]. intros text. apply moves_when; [apply moves_with_header|done].
Qed.

Lemma moves_dispatch id : moves 5 (dispatch_resource_handler cfg id) 7.
Proof.
  unfold dispatch_resource_handler. eapply (moves_try 5 6); [apply moves_run_handler| |lia].
  intros []; (eapply (moves_bind 6 6); [apply moves_log|intros _; apply moves_handle_exception|lia]).
Qed.

(** ** The response *)

Lemma try_materialize_quiet : never_throws (try_materialize : stx dstate _).
Proof.
  intros s e. unfold try_materialize. destruct (response (conn s)) as [r|]; [|done]. destruct (body_ r) as [b|]; [|done].
  by destruct (materialize b) as [[b' m] ev].
Qed.

Lemma never_throws_bind {A B} (f : stx dstate A) (g : A -> stx dstate B) : never_throws f -> (forall a, never_throws (g a)) -> never_throws (f ≫= g).
Proof.
  intros Hf Hg s e. specialize (Hf s). unfold mbind, stx_bind. destruct (f s) as [s' [a|x|]]; [apply Hg| |done]. by destruct (Hf x).
Qed.

Lemma run_safely_quiet msg : never_throws (run_internal_error_handler_safely cfg msg).
Proof. intros s e. unfold run_internal_error_handler_safely, stx_try. by destruct (internal_error_page cfg msg false s) as [s' [r|x|]]. Qed.

Lemma moves_materialize q : moves q (try_materialize : stx dstate _) q.
Proof.
  apply moves_keep. intros s. unfold try_materialize. destruct (response (conn s)) as [r|]; [|done]. destruct (body_ r) as [b|]; [|done].
  by destruct (materialize b) as [[b' m] ev].
Qed.

Lemma moves_emplace_materialize q r : moves q (emplace_and_materialize r) q.
Proof. eapply moves_bind; [apply moves_emplace|intros; apply moves_materialize|done]. Qed.

(** Nothing throws before the catch block of the fallback. *)
Lemma moves_raw q : moves q (get_raw_response_with_fallback cfg) q.
Proof.
  unfold get_raw_response_with_fallback. apply moves_try_dead.
  - eapply moves_bind; [apply moves_materialize| |done]. intros [raw|]; [apply moves_ret|].
    eapply moves_bind; [apply moves_run_safely|intros; apply moves_emplace_materialize|done].
  - apply never_throws_bind; [apply try_materialize_quiet|]. intros [raw|]; [by intros s e|].
    apply never_throws_bind; [apply run_safely_quiet|]. intros r. apply never_throws_bind; [by intros s e|intros; apply try_materialize_quiet].
Qed.

Lemma moves_queue raw res : moves 8 (queue_raw mhd_queues cfg raw res) 8.
Proof.
  intros s Hs. unfold queue_raw. destruct (response (conn s)) as [r|]; [|done].
  destruct (r ← decorate_mhd_response raw r; _) as [[q ev]|e|]; [|done..]. exact (response_sent_stage res (on_mhd ev s) Hs).
Qed.

Lemma moves_materialize_and_queue res : moves 8 (materialize_and_queue_response mhd_queues cfg res) 8.
Proof.
  unfold materialize_and_queue_response. eapply moves_bind; [apply moves_raw| |done]. intros [raw|]; [apply moves_queue|].
  eapply moves_bind; [apply moves_log| |done]. intros _. eapply moves_bind; [apply moves_internal_error| |done]. intros r.
  eapply moves_bind; [apply moves_emplace_materialize| |done]. intros [raw|]; [apply moves_queue|apply moves_ret].
Qed.

(** ** The callbacks *)

Lemma moves_resolve q : moves q resolve_resource_for_request q.
Proof.
  apply moves_keep. intros s. unfold resolve_resource_for_request. destruct (lookup _ _ _) as [sv [r|e|]]; [|done..].
  destruct (negb _); [done|]. destruct (handler _) as [id|]; [|done]. by destruct (_ || _).
Qed.

Lemma moves_before_then {A} id (f g : stx dstate A) : moves 8 f 8 -> moves 5 g 8 ->
  moves 5 (responded ← fire_before_handler_gated cfg id; if responded : bool then f else g) 8.
Proof.
  intros Hf Hg s Hs. pose proof (before_handler_stage id s Hs) as Hb. unfold mbind, stx_bind.
  destruct (fire_before_handler_gated cfg id s) as [s' [[]|e|]]; [by apply Hf|by apply Hg|..]; (eapply reached_weaken; [exact Hb|lia]).
Qed.

Lemma moves_finalize s : at_stage (if skip_handler (conn s) then 8 else 4) s -> at_stage 8 (fst (finalize_answer mhd_queues cfg s)).
Proof.
  unfold finalize_answer. destruct (skip_handler (conn s)); [apply moves_materialize_and_queue|].
  refine (moves_bind 4 4 8 _ _ (moves_resolve 4) _ _ s); [|lia]. intros [id|].
  - eapply (moves_bind 4 4); [by apply moves_modify| |lia]. intros _.
    eapply (moves_bind 4 4); [apply moves_modify; intros s0 Hs0; by destruct (_ || _)| |lia]. intros _.
    eapply (moves_bind 4 5); [eapply (moves_weaken 4 4 _ 4); [apply moves_modify, route_resolved_stage|lia..]| |lia]. intros _.
    apply moves_before_then; [apply moves_materialize_and_queue|].
    eapply (moves_bind 5 7); [apply moves_dispatch| |lia]. intros _.
    eapply (moves_bind 7 8); [eapply (moves_weaken 7 7 _ 7); [apply moves_modify, after_handler_stage|lia..]| |lia].
    intros _. apply moves_materialize_and_queue.
  - eapply (moves_bind 4 4); [apply moves_modify, route_resolved_stage| |lia]. intros _.
    eapply (moves_bind 4 4); [by apply moves_keep| |lia]. intros has.
    eapply (moves_bind 4 6).
    { apply moves_when; [|lia]. eapply (moves_bind 4 6); [apply moves_not_found; lia|intros; apply moves_emplace|lia]. }
    2: lia. intros _. eapply (moves_bind 6 8); [|intros _; apply moves_materialize_and_queue|lia].
    eapply (moves_weaken 6 7 _ 7); [apply moves_modify, after_handler_stage|lia..].
Qed.

(** While the body comes in. *)
Definition streaming (s : dstate) : Prop := at_stage (if skip_handler (conn s) then 8 else 3) s.

Lemma streaming_end s : streaming s -> at_stage 8 s.
Proof. unfold streaming. destruct (skip_handler (conn s)); [done|]. intros Hs. eapply reached_weaken; [exact Hs|lia]. Qed.

Lemma first_stages url method ct s : at_stage 2 s -> skip_handler (conn s) = false ->
  streaming (fst (answer_first mhd_create_post_processor cfg url method ct s)).
Proof.
  intros Hs Hk. unfold answer_first. assert (Hbase : streaming s) by (unfold streaming; rewrite Hk; eapply reached_weaken; [exact Hs|lia]).
  destruct (base_unescaper url (unescaper cfg)) as [[t_url n]|e|]; [|done..]. unfold requests_answer_first_step. cbn zeta.
  set (s1 := on_conn _ (on_conn (resolve_method_callback method) _)).
  assert (Hk1 : skip_handler (conn s1) = false) by (unfold s1; cbn; unfold resolve_method_callback; by destruct (List.find _ _)).
  assert (Hs1 : at_stage 2 s1) by exact Hs. clearbody s1.
  pose proof (gated_at request_received (server_gate request_received (world_of s1)) (@fire_request_received hook_env run_code (hooks_ (world_of s1)))
    _ (fire_sc_at request_received _ _) (env_of_at s1 request_received_ctx None 2 Hs1)) as H1'.
  unfold fire_request_received_phase. destruct (server_gate _ _).
  - destruct (fire_request_received _ _) as [e [r|]]; [exact (proj2 H1')|].
    assert (Hend : streaming (leave_request e s1)).
    { unfold streaming. cbn. rewrite Hk1. eapply reached_weaken; [exact (proj2 H1')|cbn; lia]. }
    destruct (negb _); [exact Hend|]. by destruct (request _).
  - assert (Hend : streaming s1) by (unfold streaming; rewrite Hk1; eapply reached_weaken; [exact Hs1|lia]).
    destruct (negb _); [exact Hend|]. by destruct (request _).
Qed.

Lemma chunk_stages chunk s : streaming s -> streaming (fst (answer_chunk mhd_post_process cfg chunk s)).
Proof.
  intros Hs. unfold answer_chunk. destruct (negb (has_body _)); [done|]. unfold streaming in Hs.
  destruct (skip_handler (conn s)) eqn:Hk; [unfold streaming; cbn; by rewrite Hk|]. unfold fire_body_chunk_phase.
  set (s1 := on_conn _ s). set (ctx := body_chunk_ctx _ _ _).
  pose proof (gated_at body_chunk (server_gate body_chunk (world_of s)) (@fire_body_chunk hook_env run_code (hooks_ (world_of s1)))
    _ (fire_sc_at body_chunk _ _) (env_of_at s1 ctx None 3 Hs)) as H1'.
  destruct (server_gate _ _).
  - destruct (fire_body_chunk _ _) as [e [r|]]; [exact (proj2 H1')|].
    assert (Hend : streaming (leave_request e s1)) by (unfold streaming; cbn; rewrite Hk; exact (proj2 H1')).
    by destruct (request _).
  - assert (Hend : streaming s) by (unfold streaming; by rewrite Hk). by destruct (request _).
Qed.

Lemma end_stages method version s : streaming s -> at_stage 8 (fst (answer_end mhd_queues cfg method version s)).
Proof.
  intros Hs. unfold answer_end, get_request, mbind, stx_bind. destruct (request (conn s)) as [r|]; [|by apply streaming_end].
  apply moves_finalize. unfold streaming in Hs. cbn. destruct (skip_handler (conn s)); [done|]. eapply reached_weaken; [exact Hs|lia].
Qed.

Lemma answer_stages url method version ct chunks s : at_stage 2 s -> skip_handler (conn s) = false ->
  at_stage 8 (fst (answer_to_connection mhd_queues mhd_create_post_processor mhd_post_process cfg url method version ct chunks s)).
Proof.
  intros Hs Hk. unfold answer_to_connection. pose proof (first_stages url method ct s Hs Hk) as H1'. unfold mbind at 1, stx_bind at 1.
  destruct (answer_first _ _ _ _ _ s) as [s1 [b|e|]]; [|by apply streaming_end..]. cbn in H1'. clear Hs Hk b. revert s1 H1'.
  induction chunks as [|c chunks IH]; intros s1 H1'; cbn [answer_chunks]; [by apply end_stages|].
  pose proof (chunk_stages c s1 H1') as H2'. specialize (IH (fst (answer_chunk mhd_post_process cfg c s1)) H2').
  unfold mbind, stx_bind in *. destruct (answer_chunk mhd_post_process cfg c s1) as [s2 [b|e|]]; [exact IH|by apply streaming_end..].
Qed.

End Recorded.

(** ** Any user code, with a record *)

Section Observed.
Context `{RegexEngine} {R App : Type} (code : @UserCode _ R App).

#[local] Abbreviation recorded := (App * list hook_call)%type.

(** The world without the record, and with one. *)
Definition strip (w : @Dispatch.world _ recorded) : @Dispatch.world _ App :=
  World (srv w) (hooks_ w) (route_tables w) (fst (app w)) (error_lines w).
Definition dress (l : list hook_call) (w : @Dispatch.world _ App) : @Dispatch.world _ recorded :=
  World (srv w) (hooks_ w) (route_tables w) (app w, l) (error_lines w).

Definition ran_code {A} (f : @Dispatch.world _ App -> @Dispatch.world _ App * A) (l : A -> list hook_call) (w : @Dispatch.world _ recorded) :
    @Dispatch.world _ recorded * A :=
  let '(w', a) := f (strip w) in (dress (snd (app w) ++ l a) w', a).

Definition observed : @UserCode _ R recorded := {|
  user_hook f e :=
    let '(e', r) := @user_hook _ _ _ code f (HookEnv (he_ctx e) (he_request e) (he_response e) (strip (he_world e))) in
    (HookEnv (he_ctx e) (he_request e') (he_response e')
       (dress (snd (app (he_world e)) ++ [Hooked (ctx_phase (he_ctx e)) f (match r with inr (Some _) => true | _ => false end)]) (he_world e')), r);
  user_render id m r := ran_code (@user_render _ _ _ code id m r) (fun o => [Ran (is_thrown o)]);
  user_handler h r := ran_code (@user_handler _ _ _ code h r) (fun o => [Ran (is_thrown o)]);
  user_error_handler h r msg := ran_code (@user_error_handler _ _ _ code h r msg) (fun _ => []);
|}.

Lemma observed_records : @Recording _ R recorded observed snd.
Proof.
  constructor; cbn.
  - intros f e. by destruct (user_hook f _).
  - intros f e. by destruct (user_hook f _).
  - intros id m r w. unfold ran_code. by destruct (user_render id m r _).
  - intros h r w. unfold ran_code. by destruct (user_handler h r _).
  - intros h r msg w. unfold ran_code. destruct (user_error_handler h r msg _). cbn. by rewrite app_nil_r.
Qed.

End Observed.

Section Order.
Context `{RegexEngine, StdHash, MhdCreate, BodyFits} {R : Type} `{HttpRequest R} {App : Type}.
Context (mhd_queues : mhd_event -> bool) (mhd_create_post_processor : bytes -> bool) (mhd_post_process : R -> bytes -> R).
Context (cfg : Dispatch.config) (code : @UserCode _ R App).
#[local] Instance observed_code : @UserCode _ R (App * list hook_call) := observed code.

(** C7: Whatever hooks and handlers do (respond, throw, add and remove hooks,
    change routes), the calls made for one request, up to its completion, come in
    the order of the phases of [hook_phase]; a response from a hook before the
    handler skips everything up to [response_sent]; and the handler, or the page
    handler in its place, runs at most once, after every hook of the phases before
    it and before those of the phases after it. *)
Theorem hooks_fire_in_order url method version ct chunks alive completed_ok (w : world) :
  let s1 := fst (answer_to_connection mhd_queues mhd_create_post_processor mhd_post_process cfg url method version ct chunks (DState new_conn w [] [])) in
  exists t, snd (app (world_of (request_completed_callback cfg alive completed_ok s1))) = snd (app w) ++ t
  /\ StronglySorted le (call_stage <$> t)
  /\ (forall t1 p f t2, t = t1 ++ Hooked p f true :: t2 -> answers_early p = true ->
        Forall (fun c => phase_index response_sent <= call_stage c) t2)
  /\ (forall t1 b t2, t = t1 ++ Ran b :: t2 -> (forall b', Ran b' ∉ t1 ++ t2) /\ Forall (fun c => phase_index before_handler < call_stage c) t2).
Proof.
  intros s1. pose proof (observed_records code) as Hrec.
  assert (H0' : @at_stage _ R (App * list hook_call) snd (snd (app w)) 2 (DState new_conn w [] [])) by (exists [], 2; by rewrite app_nil_r).
  pose proof (answer_stages mhd_queues mhd_create_post_processor mhd_post_process cfg snd (snd (app w)) url method version ct chunks _ H0' eq_refl) as H1'.
  assert (H2' : at_stage snd (snd (app w)) 9 s1) by (eapply reached_weaken; [exact H1'|lia]).
  destruct (request_completed_stage cfg snd (snd (app w)) alive completed_ok s1 H2') as (t & q & Ht & E & _).
  exists t. split; [exact Ht|]. split; [by eapply ordered_sorted|]. split.
  - intros t1 p f t2 -> Hp. by eapply ordered_early.
  - intros t1 b t2 ->. pose proof (ordered_once _ _ _ _ _ E) as Hn. split; [intros b' [Hin|Hin]%elem_of_app; by destruct (Hn b')|].
    rewrite stage_after_app in E. destruct (stage_after first_stage t1) as [q1|]; cbn in E; [|done]. destruct (q1 <=? 5); [|done].
    eapply Forall_impl; [apply (stage_after_ge _ _ _ E)|]. cbn. lia.
Qed.

End Order.
