(* ===== verification/HookTrace.v ===== *)
(** * What observers see

    When hooks only observe (they may throw, but neither respond nor touch the
    server), the calls of a request are known exactly: each phase calls each of its
    hooks once, the server's in the order of their registration and then the
    route's, whatever the handler does; the hooks for exceptions are called when it
    throws, and only then. *)

From Stdlib Require Import Sorted.
From S2P Require Import Prelude HttpUtils HttpMethod Paths RouteCache Regex HttpEndpoint RouteTable Registration.
From S2P Require Import Cookie OrderedMap HttpResponse HookBus Request Dispatch DispatchSafety DispatchSpec HookOrder.
Import HttpUtils.Unescape HttpUtils.HttpUtils MethodSetOps ResourceMask RouteTable.RouteTable Registration.Registration.
Import HttpResponse.Response HookBus.Hooks Dispatch.Dispatch HookOrder.

Module HookTrace.

(** The calls of hooks that do not respond. *)
Definition fired (p : hook_phase) (l : list phase_entry) : list hook_call := (fun x => Hooked p (fn x) false) <$> l.

(** The hooks of a resource's table. *)
Definition route_vec (tables : gmap nat resource_hook_table) (res : option nat) (p : hook_phase) : list phase_entry :=
  match res ≫= fun id => tables !! id with Some t => rt_vec t p | None => [] end.

Definition alias_calls (p : hook_phase) (alias : option nat) : list hook_call :=
  match alias with Some f => [Hooked p f false] | None => [] end.

(** The resource a lookup leads to. *)
Definition routed_to `{RegexEngine, StdHash} (m : http_method) (path : bytes) (sv : server nat) : option nat :=
  match lookup m path sv with
  | (_, Ok r) => if found r then handler (lr_entry r) else None
  | _ => None
  end.

(** The calls once the response is queued, for a bus and route tables. *)
Definition sent_calls (b : hook_bus) (tables : gmap nat resource_hook_table) (res : option nat) : list hook_call :=
  fired response_sent (vec b response_sent) ++ alias_calls response_sent (log_access_alias_ b)
  ++ fired response_sent (route_vec tables res response_sent).

(** The calls for an exception of the handler. *)
Definition exception_calls (b : hook_bus) (tables : gmap nat resource_hook_table) (res : option nat) : list hook_call :=
  fired handler_exception (vec b handler_exception) ++ alias_calls handler_exception (handler_exception_alias_ b)
  ++ fired handler_exception (route_vec tables res handler_exception).

(** The calls when the request is over; the route's hooks need their resource. *)
Definition completed_calls (b : hook_bus) (tables : gmap nat resource_hook_table) (res : option nat) (alive : nat -> bool) : list hook_call :=
  fired request_completed (vec b request_completed)
  ++ fired request_completed (route_vec tables (res ≫= fun id => if alive id then Some id else None) request_completed).

(** A resource's own code is called for every method, a lambda resource's handler
    for those that have one. *)
Definition calls_handler (r : resource nat) (m : http_method) : bool :=
  match r with
  | UserResource _ => true
  | LambdaResource _ slots => match slots !! Z.to_nat (method_index m) with Some (Some _) => true | _ => false end
  end.

(** Whether there is a handler to call: of the resource, or of the page in its place. *)
Definition handler_due `{RegexEngine} (cfg : Dispatch.config) (sv : server nat) (res : option nat) (m : http_method) : bool :=
  match res with
  | None => bool_decide (is_Some (not_found_handler cfg))
  | Some id =>
      match heap sv !! id ≫= fun r => if is_allowed (res_mask r) m then Some r else None with
      | Some r => calls_handler r m
      | None => bool_decide (is_Some (method_not_allowed_handler cfg))
      end
  end.

(** The calls of the handler, when one is due, and for its exception. *)
Definition handler_calls (due threw : bool) (exceptions : list hook_call) : list hook_call :=
  if due then Ran threw :: (if threw then exceptions else []) else [].

(** The calls from the resolution of the route on; [h] are those of the handler and
    for its exception. *)
Definition dispatch_calls (b : hook_bus) (tables : gmap nat resource_hook_table) (res : option nat) (h : list hook_call) : list hook_call :=
  let both p := fired p (vec b p) ++ fired p (route_vec tables res p) in
  fired route_resolved (vec b route_resolved) ++ (if bool_decide (is_Some res) then both before_handler else [])
  ++ h ++ both after_handler ++ sent_calls b tables res.

(** The calls of a request with so many chunks of a body. *)
Definition request_calls (b : hook_bus) (tables : gmap nat resource_hook_table) (chunks : nat) (res : option nat) (h : list hook_call) : list hook_call :=
  fired request_received (vec b request_received)
  ++ concat (replicate chunks (fired body_chunk (vec b body_chunk)))
  ++ dispatch_calls b tables res h.

(** The cached Allow headers of resources are those of their masks. *)
Definition allow_ok `{RegexEngine} (sv : server nat) : Prop := forall id r, heap sv !! id = Some r -> cache_ok (res_mask r).

(** No route to a lambda resource by a method it never calls. *)
Definition called_route `{RegexEngine} (sv : server nat) (m : http_method) (res : option nat) : Prop :=
  forall id r, res = Some id -> heap sv !! id = Some r -> is_allowed (res_mask r) m = true -> never_called r m = false.

End HookTrace.
Import HookTrace.

Section Passive.
Context `{RegexEngine, StdHash, MhdCreate, BodyFits} {R : Type} `{HttpRequest R} {App : Type}.
Context (mhd_queues : mhd_event -> bool) (mhd_create_post_processor : bytes -> bool) (mhd_post_process : R -> bytes -> R).
Context (cfg : Dispatch.config).
Context `{!@UserCode _ R App} (calls : App -> list hook_call).

#[local] Abbreviation world := (@Dispatch.world _ App).
#[local] Abbreviation dstate := (@Dispatch.dstate _ R App).
#[local] Abbreviation hook_env := (@Dispatch.hook_env _ R App).
#[local] Abbreviation run_code := (hook_code cfg).

(** The hooks of the world stay, its resources stay well formed, and the calls
    grow by [t]. *)
Definition same_hooks (w w' : world) (t : list hook_call) : Prop :=
  hooks_ w' = hooks_ w /\ route_tables w' = route_tables w /\ calls (app w') = calls (app w) ++ t /\ (allow_ok (srv w) -> allow_ok (srv w')).

(** Hooks observe and record; handlers leave the hooks alone. *)
Class Passive : Prop := {
  pas_hook f e : let '(e', r) := user_hook f e in
    match r with inr (Some _) => False | _ => True end /\ he_ctx e' = he_ctx e /\ he_response e' = he_response e
    /\ srv (he_world e') = srv (he_world e)
    /\ same_hooks (he_world e) (he_world e') [Hooked (ctx_phase (he_ctx e)) f false];
  pas_render id m r w : same_hooks w (fst (user_render id m r w)) [Ran (is_thrown (snd (user_render id m r w)))];
  pas_handler h r w : same_hooks w (fst (user_handler h r w)) [Ran (is_thrown (snd (user_handler h r w)))];
  pas_error h r msg w : same_hooks w (fst (user_error_handler h r msg w)) [];
}.
Context `{!Passive}.

(** The bus and the tables, which do not change. *)
Context (b : hook_bus) (tables : gmap nat resource_hook_table) (base : list hook_call).
Context (Hb : bus_ok b) (Htables : forall id t, tables !! id = Some t -> table_ok t).

Record kept (sv : server nat) (t : list hook_call) (w : world) : Prop := {
  kp_bus : hooks_ w = b;
  kp_tables : route_tables w = tables;
  kp_srv : srv w = sv;
  kp_calls : calls (app w) = base ++ t;
  kp_allow : allow_ok sv;
}.

Lemma kept_after sv t w w' l : kept sv t w -> same_hooks w w' l -> kept (srv w') (t ++ l) w'.
Proof.
  intros [E1 E2 E3 E4 E5] (F1 & F2 & F3 & F4). constructor; [by rewrite F1|by rewrite F2|done| |]; [by rewrite F3, E4, app_assoc|].
  apply F4. by rewrite E3.
Qed.

Lemma kept_log sv t w msg : kept sv t w -> kept sv t (log_dispatch_error cfg msg w).
Proof. intros []. unfold log_dispatch_error. by destruct (has_log_error cfg). Qed.

(** *** Firing *)

Definition env_kept (p : hook_phase) (resp : option http_response) (sv : server nat) (t : list hook_call) (e : hook_env) : Prop :=
  ctx_phase (he_ctx e) = p /\ he_response e = resp /\ kept sv t (he_world e).

Lemma call_guarded_kept p resp sv t subject f e : env_kept p resp sv t e ->
  let '(e', sc) := @call_guarded hook_env run_code subject f e in sc = None /\ env_kept p resp sv (t ++ [Hooked p f false]) e'.
Proof.
  intros (Hp & Hr & Hk). unfold call_guarded. cbn. pose proof (pas_hook f e) as Hc. destruct (user_hook f e) as [e' r].
  destruct Hc as (Hno & Hx & Hy & Hsv & Hs). rewrite Hp in Hs. pose proof (kept_after _ _ _ _ _ Hk Hs) as Hk'. rewrite Hsv, (kp_srv _ _ _ Hk) in Hk'.
  unfold env_kept. destruct r as [ex|[r|]]; [|done|]; cbn; rewrite Hx, Hy; split_and!; try done. by apply kept_log.
Qed.

Lemma run_void_kept p resp sv t subject l e : env_kept p resp sv t e ->
  env_kept p resp sv (t ++ fired p l) (@run_void hook_env run_code subject l e).
Proof.
  unfold run_void. revert t e. induction l as [|x l IH]; intros t e He; cbn [foldl]; [by rewrite app_nil_r|].
  pose proof (call_guarded_kept p resp sv t subject (fn x) e He) as Hc. destruct (call_guarded subject (fn x) e) as [e' sc].
  change (fired p (x :: l)) with ([Hooked p (fn x) false] ++ fired p l). rewrite app_assoc. apply IH, Hc.
Qed.

Lemma run_short_circuit_kept p resp sv t subject l e : env_kept p resp sv t e ->
  let '(e', sc) := @run_short_circuit hook_env run_code subject l e in sc = None /\ env_kept p resp sv (t ++ fired p l) e'.
Proof.
  revert t e. induction l as [|x l IH]; intros t e He; cbn [run_short_circuit]; [by rewrite app_nil_r|].
  pose proof (call_guarded_kept p resp sv t subject (fn x) e He) as Hc. destruct (call_guarded subject (fn x) e) as [e' sc].
  destruct Hc as [-> He']. specialize (IH _ _ He'). by rewrite <- app_assoc in IH.
Qed.

Lemma fire_void_kept p resp sv t name l e : env_kept p resp sv t e ->
  env_kept p resp sv (t ++ fired p l) (@fire_hooks_for_phase hook_env run_code name l e).
Proof. intros He. unfold fire_hooks_for_phase. destruct l; [by rewrite app_nil_r|by apply run_void_kept]. Qed.

Lemma fire_sc_kept p resp sv t name l e : env_kept p resp sv t e ->
  let '(e', sc) := @fire_short_circuit_hooks_for_phase hook_env run_code name l e in sc = None /\ env_kept p resp sv (t ++ fired p l) e'.
Proof. intros He. unfold fire_short_circuit_hooks_for_phase. destruct l; [by rewrite app_nil_r|by apply run_short_circuit_kept]. Qed.

(** A closed gate means that there is nothing to fire. *)
Lemma gate_closed p : has_hooks_for b p = false -> vec b p = [].
Proof. intros Hg. destruct (vec b p) eqn:E; [done|]. by rewrite (bo_armed b Hb p) in Hg by (by rewrite E). Qed.

Lemma route_gate_closed res p (w : world) : route_tables w = tables -> route_gate res p w = false -> route_vec tables res p = [].
Proof.
  intros Hw. unfold route_gate, hook_table_raw_, route_vec. rewrite Hw. destruct (res ≫= _) as [t|] eqn:E; [|done]. intros Hg.
  destruct res as [id|]; [|done]. cbn in E. pose proof (to_gate t (Htables _ _ E) p) as Ht.
  destruct (rt_vec t p); [done|]. rewrite (proj2 Ht) in Hg; done.
Qed.

Lemma route_vec_of res p (w : world) : route_tables w = tables -> rt_vec (route_table_of res w) p = route_vec tables res p.
Proof. intros Hw. unfold route_table_of, hook_table_raw_, route_vec. rewrite Hw. destruct (res ≫= _); [done|]. by destruct p. Qed.

(** An optional firing whose gate may be closed. *)
Lemma gated_kept p resp sv t (g : bool) (f : hook_env -> hook_env * option http_response) l e :
  env_kept p resp sv t e -> (g = false -> l = []) ->
  (let '(e', sc) := f e in sc = None /\ env_kept p resp sv (t ++ fired p l) e') ->
  let '(e', sc) := if g then f e else (e, None) in sc = None /\ env_kept p resp sv (t ++ fired p l) e'.
Proof. intros He Hg Hf. destruct g; [done|]. rewrite Hg by done. by rewrite app_nil_r. Qed.


Lemma fire_response_sent_kept resp sv t e : env_kept response_sent resp sv t e ->
  env_kept response_sent resp sv (t ++ fired response_sent (vec b response_sent) ++ alias_calls response_sent (log_access_alias_ b))
    (@fire_response_sent hook_env run_code b e).
Proof.
  intros He. unfold fire_response_sent. pose proof (fire_void_kept _ _ _ _ (bs "response_sent") (hooks_response_sent_ b) e He) as Hv.
  rewrite app_assoc. destruct (log_access_alias_ b) as [f|]; [|by rewrite app_nil_r].
  pose proof (call_guarded_kept _ _ _ _ (bs "log_access alias") f _ Hv) as Hg. destruct (call_guarded _ f _). apply Hg.
Qed.

(** *** Steps *)

(** What dispatch reads of the connection: the method, its member pointer, and what
    is kept of the resource for the end of the request. *)
Definition view (c : @connection_context R) : http_method * option http_method * bool * option nat :=
  (method_enum c, callback c, route_has_hook_table_ c, resource_weak_ c).

Definition has_table (res : option nat) : bool := bool_decide (is_Some (res ≫= fun id => tables !! id)).

Definition view_for (m : http_method) (res : option nat) : http_method * option http_method * bool * option nat :=
  (m, if decide (m = count_) then None else Some m, has_table res,
   if has_table res || has_hooks_for b request_completed then res else None).

(** The calls so far are [t], for a request routed to [res]. *)
Definition on_server (m : http_method) (res : option nat) (sv : server nat) (t : list hook_call) (s : dstate) : Prop :=
  kept sv t (world_of s) /\ view (conn s) = view_for m res.

Definition traced (m : http_method) (res : option nat) (t : list hook_call) (s : dstate) : Prop := exists sv, on_server m res sv t s.

Definition filled (s : dstate) : Prop := is_Some (response (conn s)).

(** However a step ends. *)
Definition keeps {A} (P : dstate -> Prop) (f : stx dstate A) : Prop := forall s, P s -> P (fst (f s)).

(** A step that returns, or throws. *)
Definition outs {A} (P : dstate -> Prop) (f : stx dstate A) (Q : A -> dstate -> Prop) (E : dstate -> Prop) : Prop :=
  forall s, P s -> match f s with (s', Ok a) => Q a s' | (s', Throw _) => E s' | (_, Undefined) => True end.

Definition ends {A} (P : dstate -> Prop) (f : stx dstate A) (Q : A -> dstate -> Prop) : Prop := outs P f Q (fun _ => True).

Lemma bind_keeps {A B} P (f : stx dstate A) (g : A -> stx dstate B) : keeps P f -> (forall a, keeps P (g a)) -> keeps P (f ≫= g).
Proof. intros Hf Hg s Hs. specialize (Hf s Hs). unfold mbind, stx_bind. destruct (f s) as [s' [a|e|]]; [by apply Hg|done..]. Qed.

Lemma keeps_try {A} P (f : stx dstate A) h : keeps P f -> (forall e, keeps P (h e)) -> keeps P (stx_try f h).
Proof. intros Hf Hh s Hs. specialize (Hf s Hs). unfold stx_try. destruct (f s) as [s' [a|e|]]; [done|by apply Hh|done]. Qed.

Lemma keeps_quiet_try {A} P (f : stx dstate A) h : keeps P f -> never_throws f -> keeps P (stx_try f h).
Proof.
  intros Hf Hn s Hs. specialize (Hf s Hs). specialize (Hn s). unfold stx_try. destruct (f s) as [s' [a|e|]]; [done| |done]. by destruct (Hn e).
Qed.

Lemma outs_bind {A B} P Q S' E (f : stx dstate A) (g : A -> stx dstate B) :
  outs P f Q E -> (forall a, outs (Q a) (g a) S' E) -> outs P (f ≫= g) S' E.
Proof. intros Hf Hg s Hs. specialize (Hf s Hs). unfold mbind, stx_bind. destruct (f s) as [s1 [a|e|]]; [by apply Hg|done..]. Qed.

Lemma outs_try {A} P Q E E' (f : stx dstate A) h : outs P f Q E' -> (forall e, outs E' (h e) Q E) -> outs P (stx_try f h) Q E.
Proof. intros Hf Hh s Hs. specialize (Hf s Hs). unfold stx_try. destruct (f s) as [s1 [a|e|]]; [done|by apply Hh|done]. Qed.

Lemma outs_keeps {A} P E (f : stx dstate A) : keeps P f -> never_throws f -> outs P f (fun _ => P) E.
Proof. intros Hf Hn s Hs. specialize (Hf s Hs). specialize (Hn s). destruct (f s) as [s' [a|e|]]; [done| |done]. by destruct (Hn e). Qed.

Lemma ends_keeps {A} P (f : stx dstate A) : keeps P f -> ends P f (fun _ => P).
Proof. intros Hf s Hs. specialize (Hf s Hs). by destruct (f s) as [s' [a|e|]]. Qed.

Lemma outs_modify P f Q E : (forall s, P s -> Q tt (f s)) -> outs P (stx_modify f) Q E.
Proof. intros Hf s Hs. by apply Hf. Qed.

Lemma outs_weaken {A} (P P' E E' : dstate -> Prop) (f : stx dstate A) (Q Q' : A -> dstate -> Prop) :
  outs P' f Q' E' -> (forall s, P s -> P' s) -> (forall a s, Q' a s -> Q a s) -> (forall s, E' s -> E s) -> outs P f Q E.
Proof. intros Hf HP HQ HE s Hs. specialize (Hf s (HP s Hs)). destruct (f s) as [s' [a|e|]]; auto. Qed.

Lemma outs_when P E c (f : stx dstate unit) (Q : dstate -> Prop) : outs P f (fun _ => Q) E -> (forall s, P s -> Q s) -> outs P (stx_when c f) (fun _ => Q) E.
Proof. intros Hf HP. destruct c; [done|]. intros s Hs. by apply HP. Qed.

Lemma outs_and {A} P1 P2 (f : stx dstate A) Q1 Q2 E1 E2 : outs P1 f Q1 E1 -> outs P2 f Q2 E2 ->
  outs (fun s => P1 s /\ P2 s) f (fun a s => Q1 a s /\ Q2 a s) (fun s => E1 s /\ E2 s).
Proof. intros H1' H2' s [Hs1 Hs2]. specialize (H1' s Hs1). specialize (H2' s Hs2). by destruct (f s) as [s' [a|e|]]. Qed.

Lemma ends_true {A} (f : stx dstate A) : ends (fun _ => True) f (fun _ _ => True).
Proof. intros s _. by destruct (f s) as [s' [a|e|]]. Qed.

(** Steps that leave the world and the connection's view alone, or only log. *)
Lemma traced_same m res t s s' : world_of s' = world_of s -> view (conn s') = view (conn s) -> traced m res t s -> traced m res t s'.
Proof. intros E1 E2 (sv & Hk & Hv). exists sv. unfold on_server. by rewrite E1, E2. Qed.

Lemma keeps_traced_world {A} m res t (f : stx dstate A) :
  (forall s, world_of (fst (f s)) = world_of s /\ view (conn (fst (f s))) = view (conn s)) -> keeps (traced m res t) f.
Proof. intros Hf s Hs. destruct (Hf s). by eapply traced_same. Qed.

Lemma traced_call m res t s w l : traced m res t s -> same_hooks (world_of s) w l -> traced m res (t ++ l) (on_world (fun _ => w) s).
Proof. intros (sv & Hk & Hv) Hw. eexists. split; [by eapply kept_after|done]. Qed.

Lemma keeps_log m res t msg : keeps (traced m res t) (log_error cfg msg).
Proof. intros s (sv & Hk & Hv). exists sv. split; [by apply kept_log|done]. Qed.

Lemma get_request_world (s : dstate) : world_of (fst (get_request s)) = world_of s /\ view (conn (fst (get_request s))) = view (conn s).
Proof. unfold get_request. by destruct (request (conn s)). Qed.

Lemma get_request_quiet : never_throws (get_request : stx dstate R).
Proof. intros s e. unfold get_request. by destruct (request (conn s)). Qed.

(** Code of the user that is the handler. *)
Lemma handler_outs {A} m res t (f : R -> world -> world * (exn + A)) :
  (forall r w, same_hooks w (fst (f r w)) [Ran (is_thrown (snd (f r w)))]) ->
  outs (traced m res t) (r ← get_request; user_call (f r)) (fun _ => traced m res (t ++ [Ran false])) (traced m res (t ++ [Ran true])).
Proof.
  intros Hf. eapply outs_bind; [apply outs_keeps, get_request_quiet; apply keeps_traced_world, get_request_world|].
  intros r s Hs. unfold user_call. specialize (Hf r (world_of s)).
  destruct (f r (world_of s)) as [w [e|a]]; by apply traced_call.
Qed.

Lemma tri_outs {A} P (f : stx dstate A) Q E : tri P f Q E -> outs P f Q E.
Proof. intros Hf s Hs. specialize (Hf s Hs). by destruct (f s) as [s' [a|e|]]. Qed.

Lemma text_outs m res t text code E : (100 <= code <= 599)%Z ->
  outs (traced m res t) (r ← stx_lift (string_response text (bs "text/plain")); stx_lift (with_status r code) : stx dstate http_response)
    (fun _ => traced m res t) E.
Proof. intros Hc. by apply tri_outs, string_page_tri. Qed.

(** The pages in place of a handler. *)
Definition page_calls (due : bool) (threw : bool) : list hook_call := if due then [Ran threw] else [].

Lemma not_found_outs m res t :
  let due := bool_decide (is_Some (not_found_handler cfg)) in
  outs (traced m res t) (not_found_page cfg) (fun _ => traced m res (t ++ page_calls due false)) (fun _ => True).
Proof.
  unfold not_found_page. destruct (not_found_handler cfg) as [h|]; cbn [page_calls].
  - rewrite bool_decide_true by (by eexists). eapply outs_weaken; [apply (handler_outs m res t (fun r => user_handler h r))|done..].
    intros. apply pas_handler.
  - rewrite bool_decide_false by (by intros []). rewrite app_nil_r. by apply text_outs.
Qed.

Lemma method_not_allowed_outs m res t :
  let due := bool_decide (is_Some (method_not_allowed_handler cfg)) in
  outs (traced m res t) (method_not_allowed_page cfg) (fun _ => traced m res (t ++ page_calls due false))
    (fun s => due = true /\ traced m res (t ++ [Ran true]) s).
Proof.
  unfold method_not_allowed_page. destruct (method_not_allowed_handler cfg) as [h|]; cbn [page_calls].
  - rewrite bool_decide_true by (by eexists). eapply outs_weaken; [apply (handler_outs m res t (fun r => user_handler h r))|done..].
    intros. apply pas_handler.
  - rewrite bool_decide_false by (by intros []). rewrite app_nil_r. by apply text_outs.
Qed.

(** The page for an internal error adds no call. *)
Lemma keeps_internal_error m res t msg force : keeps (traced m res t) (internal_error_page cfg msg force).
Proof.
  unfold internal_error_page. destruct force; [by apply keeps_traced_world|]. destruct (internal_error_handler cfg) as [h|].
  - apply bind_keeps; [apply keeps_traced_world, get_request_world|]. intros r s Hs. unfold user_call.
    pose proof (pas_error h r msg (world_of s)) as He. destruct (user_error_handler h r msg (world_of s)) as [w o].
    rewrite <- (app_nil_r t). by apply traced_call.
  - apply bind_keeps; [by apply keeps_traced_world|]. intros r. by apply keeps_traced_world.
Qed.

Lemma keeps_run_safely m res t msg : keeps (traced m res t) (run_internal_error_handler_safely cfg msg).
Proof.
  apply keeps_try; [apply keeps_internal_error|]. intros e. apply bind_keeps; [apply keeps_log|]. intros _. apply keeps_internal_error.
Qed.

Lemma keeps_emplace m res t r : keeps (traced m res t) (emplace_response r).
Proof. by apply keeps_traced_world. Qed.

Lemma keeps_safe_page m res t msg : keeps (traced m res t) (r ← run_internal_error_handler_safely cfg msg; emplace_response r).
Proof. apply bind_keeps; [apply keeps_run_safely|]. intros. apply keeps_emplace. Qed.

Lemma safe_page_quiet msg : never_throws (r ← run_internal_error_handler_safely cfg msg; emplace_response r).
Proof. apply never_throws_bind; [apply run_safely_quiet|]. by intros r s e. Qed.

(** *** Phases *)

Lemma env_of_kept ctx resp sv t (s : dstate) : kept sv t (world_of s) -> env_kept (ctx_phase ctx) resp sv t (env_of ctx resp s).
Proof. by intros Hk. Qed.

Lemma route_resolved_kept m res sv t found hrm s : on_server m res sv t s ->
  on_server m res sv (t ++ fired route_resolved (vec b route_resolved)) (fire_route_resolved_gated cfg found hrm s).
Proof.
  intros [Hk Hv]. unfold fire_route_resolved_gated, server_gate. rewrite (kp_bus _ _ _ Hk). destruct (has_hooks_for b route_resolved) eqn:Hg.
  - split; [|exact Hv]. set (ctx := route_resolved_ctx _ _).
    apply (fire_void_kept route_resolved None sv t (bs "route_resolved") (hooks_route_resolved_ b) (env_of ctx None s)). by apply env_of_kept.
  - by rewrite (gate_closed _ Hg), app_nil_r.
Qed.

(** The chain of the route after the one of the server. *)
Lemma route_chain_kept p resp sv t res (w : world) subject f e : route_tables w = tables -> env_kept p resp sv t e ->
  f = @run_short_circuit hook_env run_code subject (rt_vec (route_table_of res (he_world e)) p) ->
  let '(e', sc) := if route_gate res p w then f e else (e, None) in sc = None /\ env_kept p resp sv (t ++ fired p (route_vec tables res p)) e'.
Proof.
  intros Hw He ->. apply gated_kept; [done|by apply route_gate_closed|].
  rewrite <- (route_vec_of res p (he_world e)) by apply He. by apply run_short_circuit_kept.
Qed.

Lemma server_chain_kept p resp sv t name f e : env_kept p resp sv t e ->
  f = @fire_short_circuit_hooks_for_phase hook_env run_code name (vec b p) ->
  let '(e', sc) := if has_hooks_for b p then f e else (e, None) in sc = None /\ env_kept p resp sv (t ++ fired p (vec b p)) e'.
Proof. intros He ->. apply gated_kept; [done|apply gate_closed|by apply fire_sc_kept]. Qed.

Lemma before_handler_kept m sv t id s : on_server m (Some id) sv t s ->
  let '(s', o) := fire_before_handler_gated cfg id s in o = Ok false
  /\ on_server m (Some id) sv (t ++ fired before_handler (vec b before_handler) ++ fired before_handler (route_vec tables (Some id) before_handler)) s'.
Proof.
  intros [Hk Hv]. pose proof Hk as [E1 E2 _ _ _]. unfold fire_before_handler_gated, server_gate. rewrite E1. destruct (_ && _) eqn:Hg.
  - apply andb_true_iff in Hg as [Hg1%negb_true_iff Hg2%negb_true_iff].
    by rewrite (gate_closed _ Hg1), (route_gate_closed _ _ _ E2 Hg2), app_nil_r.
  - set (ctx := before_handler_ctx _ _ _). clear Hg.
    pose proof (server_chain_kept _ _ _ _ _ (@fire_before_handler hook_env run_code b) _ (env_of_kept ctx None sv t s Hk) eq_refl) as H1'.
    destruct (if has_hooks_for _ _ then _ else _) as [e sc]. destruct H1' as [-> H1'].
    pose proof (route_chain_kept _ _ _ _ (Some id) _ _ (@route_fire_before_handler hook_env run_code (route_table_of (Some id) (he_world e))) _ E2 H1' eq_refl) as H2'.
    destruct (if route_gate _ _ _ then _ else _) as [e' sc]. destruct H2' as [-> (_ & _ & H2')]. split; [done|]. rewrite app_assoc. by split.
Qed.

Lemma after_handler_kept m res t s : traced m res t s -> filled s ->
  traced m res (t ++ fired after_handler (vec b after_handler) ++ fired after_handler (route_vec tables res after_handler)) (fire_after_handler_gated cfg res s).
Proof.
  intros (sv & Hk & Hv) [r Hr]. pose proof Hk as [E1 E2 _ _ _]. unfold fire_after_handler_gated, server_gate. rewrite E1, Hr. destruct (_ && _) eqn:Hg.
  - apply andb_true_iff in Hg as [Hg1%negb_true_iff Hg2%negb_true_iff].
    rewrite (gate_closed _ Hg1), (route_gate_closed _ _ _ E2 Hg2), app_nil_r. by exists sv.
  - clear Hg.
    pose proof (server_chain_kept _ _ _ _ _ (@fire_after_handler hook_env run_code b) _ (env_of_kept after_handler_ctx (Some r) sv t s Hk) eq_refl) as H1'.
    destruct (if has_hooks_for _ _ then _ else _) as [e sc]. destruct H1' as [-> H1']. cbn zeta.
    set (s1 := leave_response e s). set (e1 := HookEnv _ _ _ _).
    assert (He1 : env_kept after_handler (he_response e) sv (t ++ fired after_handler (vec b after_handler)) e1) by (unfold e1; split_and!; [apply H1'|done|apply H1']).
    pose proof (route_chain_kept _ _ _ _ res _ _ (@route_fire_after_handler hook_env run_code (route_table_of res (he_world e1))) _ E2 He1 eq_refl) as H2'.
    destruct (if route_gate _ _ _ then _ else _) as [e' sc]. destruct H2' as [-> (_ & _ & H2')]. exists sv. rewrite app_assoc. by split.
Qed.

Lemma response_sent_kept m res t s : traced m res t s -> filled s -> traced m res (t ++ sent_calls b tables res) (fire_response_sent_gated cfg res s).
Proof.
  intros (sv & Hk & Hv) [r Hr]. pose proof Hk as [E1 E2 _ _ _]. unfold fire_response_sent_gated, server_gate, sent_calls. rewrite E1, Hr.
  destruct (negb (_ || _) && _) eqn:Hg.
  - apply andb_true_iff in Hg as [[Hg1 Hg2]%negb_true_iff%orb_false_iff Hg3%negb_true_iff%bool_decide_eq_false].
    rewrite (gate_closed _ Hg1), (route_gate_closed _ _ _ E2 Hg2). destruct (log_access_alias_ b); [by destruct Hg3|]. exists sv. by rewrite app_nil_r.
  - clear Hg. set (e := env_of _ _ s). assert (He : env_kept response_sent (Some r) sv t e) by (by split_and!).
    pose proof (fire_response_sent_kept _ _ _ _ He) as H1'. rewrite !app_assoc in *. exists sv. split; [|exact Hv].
    destruct (route_gate res response_sent (world_of s)) eqn:Hg2; [|rewrite (route_gate_closed _ _ _ E2 Hg2), app_nil_r; apply H1'].
    rewrite <- (route_vec_of res response_sent (he_world (@fire_response_sent hook_env run_code b e))) by apply H1'.
    by apply (run_void_kept response_sent (Some r)).
Qed.

(** What is kept of the resource has its hooks. *)
Lemma route_vec_kept res p : route_vec tables (if has_table res || has_hooks_for b request_completed then res else None) p = route_vec tables res p.
Proof.
  destruct (has_table res) eqn:Ht; [done|]. destruct (has_hooks_for _ _); [done|]. unfold route_vec, has_table in *.
  apply bool_decide_eq_false in Ht. cbn. destruct (res ≫= _) as [t|]; [|done]. destruct Ht. by eexists.
Qed.

Lemma fire_exception_kept sv t e : env_kept handler_exception None sv t e ->
  let '(e', sc) := if has_hooks_for b handler_exception || bool_decide (is_Some (handler_exception_alias_ b))
    then @fire_handler_exception hook_env run_code b e else (e, None) in
  sc = None /\ env_kept handler_exception None sv
    (t ++ fired handler_exception (vec b handler_exception) ++ alias_calls handler_exception (handler_exception_alias_ b)) e'.
Proof.
  intros He. destruct (_ || _) eqn:Hg.
  - unfold fire_handler_exception. pose proof (run_short_circuit_kept _ _ _ _ (hook_subject (bs "handler_exception")) (vec b handler_exception) _ He) as H1'.
    cbn [vec] in *. destruct (run_short_circuit _ _ _) as [e' sc]. destruct H1' as [-> H1']. rewrite app_assoc.
    destruct (handler_exception_alias_ b) as [f|]; [|by rewrite app_nil_r]. by apply (call_guarded_kept handler_exception).
  - apply orb_false_iff in Hg as [Hg Ha%bool_decide_eq_false]. rewrite (gate_closed _ Hg).
    destruct (handler_exception_alias_ b); [by destruct Ha|]. by rewrite app_nil_r.
Qed.

(** An exception calls the hooks for exceptions, and no others. *)
Lemma exception_traced m res t msg s : traced m res t s -> traced m res (t ++ exception_calls b tables res) (fst (handle_dispatch_exception cfg msg s)).
Proof.
  intros (sv & Hk & Hv). pose proof Hk as [E1 E2 _ _ _]. pose proof Hv as [= _ _ _ Hw]. unfold handle_dispatch_exception, server_gate, exception_calls.
  rewrite E1, Hw. set (weak := if _ || _ then res else None) in *. rewrite <- (route_vec_kept res). fold weak. clearbody weak. set (ctx := handler_exception_ctx msg).
  pose proof (fire_exception_kept sv t _ (env_of_kept ctx None sv t s Hk)) as H1'.
  set (chain := has_hooks_for b handler_exception || _) in *. clearbody chain.
  destruct (chain || route_gate weak handler_exception (world_of s)) eqn:Hgate.
  - destruct (if chain then _ else _) as [e sc]. destruct H1' as [-> H1'].
    pose proof (route_chain_kept _ _ _ _ weak _ _ (@route_fire_handler_exception hook_env run_code (route_table_of weak (he_world e))) _ E2 H1' eq_refl) as H2'.
    destruct (if route_gate _ _ _ then _ else _) as [e' sc]. destruct H2' as [-> (_ & _ & H2')]. rewrite <- !app_assoc in H2'.
    assert (Hs' : traced m res (t ++ fired handler_exception (vec b handler_exception) ++ alias_calls handler_exception (handler_exception_alias_ b)
      ++ fired handler_exception (route_vec tables weak handler_exception)) (leave_const e' s)) by (exists sv; by split).
    refine (bind_keeps _ _ _ (keeps_internal_error m res _ [] true) (fun r => keeps_emplace m res _ r) _ Hs').
  - apply orb_false_iff in Hgate as [Hg Hr]. rewrite Hg in H1'. destruct H1' as [_ (_ & _ & H1')].
    rewrite (route_gate_closed _ _ _ E2 Hr), app_nil_r.
    apply keeps_safe_page. exists sv. by split.
Qed.

(** The outcomes of the step in the goal. *)
Ltac outcomes s a := match goal with |- match ?x with _ => _ end => destruct x as [s [a|?|]] end.

(** *** The handler *)

Lemma called_seven m : m <> count_ -> ~ (m = connect \/ m = trace) -> m ∈ [get; post; put; del; patch; options; head].
Proof. intros Hc Hm. destruct m; try done; try (apply (bool_decide_unpack _); vm_compute; exact I); exfalso; apply Hm; auto. Qed.

(** The member pointer calls the handler that is due. *)
Lemma invoke_outs m sv t id r : heap sv !! id = Some r -> never_called r m = false ->
  outs (on_server m (Some id) sv t) (invoke_callback id)
    (fun _ => traced m (Some id) (t ++ page_calls (calls_handler r m) false))
    (fun s => calls_handler r m = true /\ traced m (Some id) (t ++ [Ran true]) s).
Proof.
  intros Hr Hn s [Hk Hv]. unfold invoke_callback. pose proof Hv as [= _ Hcb _ _]. rewrite Hcb, (kp_srv _ _ _ Hk), Hr.
  assert (Hs : traced m (Some id) t s) by (exists sv; by split).
  destruct (decide (m = count_)) as [->|Hm]; [done|].
  assert (Hcall : forall f : R -> world -> world * (exn + http_response), (forall r w, same_hooks w (fst (f r w)) [Ran (is_thrown (snd (f r w)))]) ->
    match (r ← get_request; user_call (f r) : stx dstate http_response) s with
    | (s', Ok _) => traced m (Some id) (t ++ page_calls true false) s'
    | (s', Throw _) => true = true /\ traced m (Some id) (t ++ [Ran true]) s'
    | (_, Undefined) => True
    end).
  { intros f Hf. pose proof (handler_outs m (Some id) t f Hf s Hs) as Ho. by outcomes s' a. }
  destruct r as [mask|mask slots]; [apply Hcall; intros; apply pas_render|].
  cbn [never_called calls_handler] in *. apply bool_decide_eq_false in Hn. rewrite (bool_decide_true (m ∈ _)) by (by apply called_seven).
  destruct (slots !! _) as [[h|]|]; [apply Hcall; intros; apply pas_handler|..]; cbn [page_calls]; rewrite app_nil_r;
    exact (text_outs m (Some id) t (bs "Internal Server Error: unregistered method slot invoked") 500 (fun s => false = true /\ traced m (Some id) (t ++ [Ran true]) s) ltac:(lia) s Hs).
Qed.

Lemma allow_outs m res t id E : outs (traced m res t) (allow_header_of id) (fun text s => field_ok text = true /\ traced m res t s) E.
Proof.
  intros s (sv & Hk & Hv). unfold allow_header_of. rewrite (kp_srv _ _ _ Hk). destruct (heap sv !! id) as [r|] eqn:Hr; [|done].
  pose proof (kp_allow _ _ _ Hk id r Hr) as Hok. destruct (get_allow_header_ok _ Hok) as [Ht _].
  pose proof (resource_step_ok _ OpGetAllowHeader Hok) as Hok'. cbn [resource_step] in Hok'. destruct (get_allow_header (res_mask r)) as [mask text]. cbn [fst snd] in *.
  split; [rewrite Ht; apply allow_field_ok|]. eexists. split; [|exact Hv]. destruct Hk as [E1 E2 E3 E4 E5]. constructor; try done.
  intros id' r'. cbn. destruct (decide (id = id')) as [<-|Hne]; [rewrite lookup_insert_eq; intros [= <-]; by destruct r|].
  rewrite lookup_insert_ne by done. rewrite ?E3. apply E5.
Qed.

Lemma with_header_outs m res t key value E : field_ok value = true -> key = http_header_allow ->
  outs (traced m res t) (response_with_header key value) (fun _ => traced m res t) E.
Proof.
  intros Hv -> s Hs. unfold response_with_header. destruct (response (conn s)) as [r|]; [|done]. unfold with_header, validate_http_field.
  apply negb_true_iff in Hv. by rewrite Hv.
Qed.

(** Running the handler, when one is due. *)
Lemma run_handler_outs m sv t id :
  (forall r, heap sv !! id = Some r -> is_allowed (res_mask r) m = true -> never_called r m = false) ->
  let due := handler_due cfg sv (Some id) m in
  outs (on_server m (Some id) sv t) (run_handler cfg id) (fun _ => traced m (Some id) (t ++ page_calls due false))
    (fun s => due = true /\ traced m (Some id) (t ++ [Ran true]) s).
Proof.
  intros Hn due. unfold run_handler. eapply (outs_bind _ (fun _ => on_server m (Some id) sv t)); [by apply outs_modify|]. intros _.
  eapply (outs_bind _ (fun allowed s => on_server m (Some id) sv t s
    /\ allowed = match heap sv !! id with Some r => is_allowed (res_mask r) m | None => false end)).
  { intros s [Hk Hv]. unfold stx_gets, resource_allows. rewrite (kp_srv _ _ _ Hk). by pose proof Hv as [= -> _ _ _]. }
  intros [] s [Hs Ha]; revert s Hs.
  - unfold due, handler_due. destruct (heap sv !! id) as [r|] eqn:Hr; [|done]. cbn [mbind option_bind]. rewrite <- Ha.
    eapply outs_bind; [by apply invoke_outs; [|apply Hn]|]. intros resp. eapply outs_bind; [apply outs_keeps; [apply keeps_emplace|by intros s e]|].
    intros ?. apply outs_when; [|done]. apply outs_keeps; [apply keeps_safe_page|apply safe_page_quiet].
  - assert (Hd : due = bool_decide (is_Some (method_not_allowed_handler cfg))).
    { unfold due, handler_due. destruct (heap sv !! id) as [r|]; [|done]. cbn [mbind option_bind]. by rewrite <- Ha. }
    rewrite Hd. eapply (outs_weaken _ (traced m (Some id) t)); [|by intros s Hs; exists sv|intros ? ? Hq; exact Hq|intros ? Hq; exact Hq].
    eapply outs_bind; [apply method_not_allowed_outs|]. intros resp. eapply outs_bind; [apply outs_keeps; [apply keeps_emplace|by intros s e]|].
    intros ?. eapply outs_bind; [apply allow_outs|]. intros text s [Ht Hs]. revert s Hs.
    apply outs_when; [by apply with_header_outs|done].
Qed.

Lemma dispatch_traced m sv t id :
  (forall r, heap sv !! id = Some r -> is_allowed (res_mask r) m = true -> never_called r m = false) ->
  ends (on_server m (Some id) sv t) (dispatch_resource_handler cfg id)
    (fun _ s => exists threw, traced m (Some id) (t ++ handler_calls (handler_due cfg sv (Some id) m) threw (exception_calls b tables (Some id))) s).
Proof.
  intros Hn. unfold dispatch_resource_handler. eapply outs_try.
  - eapply outs_weaken; [by apply run_handler_outs|done| |intros s Hs; exact Hs]. intros ? s Hs. exists false. by destruct (handler_due _ _ _ _).
  - intros e s [Hd Hs]. rewrite Hd.
    assert (Hend : forall msg, match (_ ← log_error cfg msg; handle_dispatch_exception cfg (what e)) s with
      | (s', Ok _) => exists threw, traced m (Some id) (t ++ handler_calls true threw (exception_calls b tables (Some id))) s' | _ => True end).
    { intros msg. unfold mbind, stx_bind. pose proof (keeps_log m (Some id) _ msg s Hs) as Hs'. cbn [log_error stx_modify fst] in *.
      pose proof (exception_traced m (Some id) _ (what e) _ Hs') as Hx. unfold log_error, stx_modify.
      destruct (handle_dispatch_exception cfg (what e) _) as [s' [a|x|]]; [|done..]. exists true. by rewrite <- app_assoc in Hx. }
    specialize (Hend). destruct e; cbn [what] in *.
    all: match goal with |- context [log_error cfg ?msg] => specialize (Hend msg) end; by outcomes s' a.
Qed.

(** A handler that returns leaves a response. *)
Lemma ends_emplace P (f : stx dstate http_response) : ends P (r ← f; emplace_response r) (fun _ => filled).
Proof. intros s _. unfold mbind, stx_bind. destruct (f s) as [s1 [a|e|]]; [|done..]. by eexists. Qed.

Lemma ends_emplaced P r : ends P (emplace_response r) (fun _ => filled).
Proof. intros s _. by eexists. Qed.

Lemma exception_fills msg : ends (fun _ => True) (handle_dispatch_exception cfg msg) (fun _ => filled).
Proof.
  intros s _. unfold handle_dispatch_exception. destruct (_ || _); [|by apply (ends_emplace (fun _ => True))].
  destruct (if _ || _ then _ else _) as [e [r|]]; [by eexists|].
  destruct (if route_gate _ _ _ then _ else _) as [e' [r|]]; [by eexists|]. by apply (ends_emplace (fun _ => True)).
Qed.

Lemma allow_header_filled id : keeps filled (allow_header_of id).
Proof. intros s Hs. unfold allow_header_of. destruct (heap (srv (world_of s)) !! id) as [r|]; [|done]. by destruct (get_allow_header (res_mask r)). Qed.

Lemma with_header_filled key value : keeps filled (response_with_header key value).
Proof.
  intros s [r Hr]. unfold response_with_header. rewrite Hr. destruct (with_header r key value); by eexists.
Qed.

Lemma dispatch_fills id : ends (fun _ => True) (dispatch_resource_handler cfg id) (fun _ => filled).
Proof.
  apply (outs_try _ _ _ (fun _ => True)); [|intros []; (eapply outs_bind; [apply ends_true|intros ?; apply exception_fills])].
  eapply outs_bind; [apply ends_true|]. intros ?. eapply outs_bind; [apply ends_true|]. intros [].
  - eapply outs_bind; [apply ends_true|]. intros r. eapply outs_bind; [apply ends_emplaced|].
    intros ?. apply outs_when; [|done]. apply ends_emplace.
  - eapply outs_bind; [apply ends_true|]. intros r. eapply outs_bind; [apply ends_emplaced|].
    intros ?. eapply outs_bind; [apply ends_keeps, allow_header_filled|]. intros text. apply outs_when; [apply ends_keeps, with_header_filled|done].
Qed.

(** *** The response *)

Lemma materialize_world (s : dstate) : world_of (fst (try_materialize s)) = world_of s /\ view (conn (fst (try_materialize s))) = view (conn s).
Proof.
  unfold try_materialize. destruct (response (conn s)) as [r|]; [|done]. destruct (body_ r) as [bd|]; [|done]. by destruct (materialize bd) as [[? ?] ?].
Qed.

Lemma keeps_emplace_materialize m res t r : keeps (traced m res t) (emplace_and_materialize r).
Proof. apply bind_keeps; [apply keeps_emplace|]. intros _. apply keeps_traced_world, materialize_world. Qed.

Lemma keeps_raw m res t : keeps (traced m res t) (get_raw_response_with_fallback cfg).
Proof.
  apply keeps_quiet_try.
  - apply bind_keeps; [apply keeps_traced_world, materialize_world|]. intros [raw|]; [by apply keeps_traced_world|].
    apply bind_keeps; [apply keeps_run_safely|]. intros r. apply keeps_emplace_materialize.
  - apply never_throws_bind; [apply try_materialize_quiet|]. intros [raw|]; [by intros s e|].
    apply never_throws_bind; [apply run_safely_quiet|]. intros r. apply never_throws_bind; [by intros s e|intros; apply try_materialize_quiet].
Qed.

Lemma queue_sent m t raw res : ends (traced m res t) (queue_raw mhd_queues cfg raw res) (fun _ => traced m res (t ++ sent_calls b tables res)).
Proof.
  intros s Hs. unfold queue_raw. destruct (response (conn s)) as [r|] eqn:Hr; [|done].
  destruct (x ← decorate_mhd_response raw r; _) as [[x ev]|e|]; [|done..].
  apply (response_sent_kept m res t (on_mhd ev s)); [exact Hs|by exists r].
Qed.

Lemma materialize_sent m t res :
  ends (traced m res t) (materialize_and_queue_response mhd_queues cfg res) (fun q s => q = true -> traced m res (t ++ sent_calls b tables res) s).
Proof.
  assert (Hq : forall raw, ends (traced m res t) (queue_raw mhd_queues cfg raw res) (fun q s => q = true -> traced m res (t ++ sent_calls b tables res) s)).
  { intros raw. eapply outs_weaken; [apply queue_sent|done|by intros q s|done]. }
  eapply outs_bind; [apply ends_keeps, keeps_raw|]. intros [raw|]; [apply Hq|].
  eapply outs_bind; [apply ends_keeps, keeps_log|]. intros ?. eapply outs_bind; [apply ends_keeps, keeps_internal_error|]. intros r.
  eapply outs_bind; [apply ends_keeps, keeps_emplace_materialize|]. intros [raw|]; [apply Hq|]. by intros s _.
Qed.

(** *** The callbacks *)

(** Before dispatch: what was read of the request line, and the calls so far. *)
Record reading (m : http_method) (path : bytes) (sv : server nat) (t : list hook_call) (s : dstate) : Prop := {
  rd_view : view (conn s) = (m, if decide (m = count_) then None else Some m, false, None);
  rd_path : standardized_url (conn s) = path;
  rd_body : has_body (conn s) = method_has_body m;
  rd_skip : skip_handler (conn s) = false;
  rd_response : response (conn s) = None;
  rd_kept : kept sv t (world_of s);
}.

(** Routed, with nothing kept of the resource yet. *)
Definition resolved (m : http_method) (path : bytes) (sv : server nat) (t : list hook_call) (res : option nat) (s : dstate) : Prop :=
  res = routed_to m path sv /\ view (conn s) = (m, if decide (m = count_) then None else Some m, false, None)
  /\ response (conn s) = None /\ exists sv', heap sv' = heap sv /\ kept sv' t (world_of s).

Lemma resolve_traced m path sv t : ends (reading m path sv t) resolve_resource_for_request (resolved m path sv t).
Proof.
  intros s [Hv Hp _ _ Hr Hk]. pose proof Hk as [E1 E2 E3 E4 E5]. pose proof Hv as [= Hm _ _ _]. unfold resolve_resource_for_request, resolved, routed_to.
  rewrite Hm, Hp, E3. pose proof (lookup_heap m path sv) as Hh.
  destruct (lookup m path sv) as [sv' [r|e|]]; [|done..]. cbn [fst] in Hh.
  assert (Hk' : kept sv' t (set_srv (world_of s) sv')) by (constructor; try done; intros id x; rewrite Hh; apply E5).
  destruct (found r); [|by split_and!; [..|exists sv']]. destruct (handler (lr_entry r)) as [id|]; [|by split_and!; [..|exists sv']].
  cbn. destruct (_ || _); (split_and!; [done|exact Hv|done|by exists sv']).
Qed.

(** The hooks after the handler, and the response. *)
Lemma finish_traced m t res : ends (fun s => traced m res t s /\ filled s)
  (_ ← stx_modify (fire_after_handler_gated cfg res); materialize_and_queue_response mhd_queues cfg res)
  (fun q s => q = true -> traced m res (t
     ++ (fired after_handler (vec b after_handler) ++ fired after_handler (route_vec tables res after_handler)) ++ sent_calls b tables res) s).
Proof.
  eapply (outs_bind _ (fun _ => traced m res (t ++ fired after_handler (vec b after_handler) ++ fired after_handler (route_vec tables res after_handler)))).
  - apply outs_modify. intros s [Ht Hr]. by apply after_handler_kept.
  - intros ?. eapply outs_weaken; [apply materialize_sent|done| |done]. intros q s Hs Hq. specialize (Hs Hq). by rewrite <- !app_assoc in *.
Qed.

Definition both (p : hook_phase) (res : option nat) : list hook_call := fired p (vec b p) ++ fired p (route_vec tables res p).

Lemma found_traced m sv t id :
  (forall r, heap sv !! id = Some r -> is_allowed (res_mask r) m = true -> never_called r m = false) ->
  ends (on_server m (Some id) sv t)
  (responded ← fire_before_handler_gated cfg id;
   if responded : bool then materialize_and_queue_response mhd_queues cfg (Some id)
   else _ ← dispatch_resource_handler cfg id; _ ← stx_modify (fire_after_handler_gated cfg (Some id)); materialize_and_queue_response mhd_queues cfg (Some id))
  (fun q s => q = true -> exists threw, traced m (Some id) (t ++ both before_handler (Some id)
     ++ handler_calls (handler_due cfg sv (Some id) m) threw (exception_calls b tables (Some id))
     ++ both after_handler (Some id) ++ sent_calls b tables (Some id)) s).
Proof.
  intros Hn. eapply (outs_bind _ (fun responded s => responded = false /\ on_server m (Some id) sv (t ++ both before_handler (Some id)) s)).
  { intros s Hs. pose proof (before_handler_kept m sv t id s Hs) as Hb'. destruct (fire_before_handler_gated cfg id s) as [s1 o]. by destruct Hb' as [-> Hs1]. }
  intros responded s [-> Hs]. revert s Hs.
  eapply outs_bind; [eapply outs_weaken; [apply outs_and; [exact (dispatch_traced m sv (t ++ both before_handler (Some id)) id Hn)|apply dispatch_fills]|intros s Hs; split; [exact Hs|exact I]|intros a s Hs; exact Hs|done]|].
  intros _ s [[threw Ht] Hf]. pose proof (finish_traced m _ (Some id) s (conj Ht Hf)) as Hfin.
  outcomes s' q; [|done..]. intros Hq. exists threw. specialize (Hfin Hq). unfold both in *. by rewrite <- !app_assoc in *.
Qed.

Lemma missing_traced m sv t : ends (fun s => on_server m None sv t s /\ response (conn s) = None)
  (has ← stx_gets (fun s => bool_decide (is_Some (response (conn s))));
   _ ← stx_when (negb has) (r ← not_found_page cfg; emplace_response r);
   _ ← stx_modify (fire_after_handler_gated cfg None); materialize_and_queue_response mhd_queues cfg None)
  (fun q s => q = true -> traced m None (t ++ page_calls (handler_due cfg sv None m) false
     ++ both after_handler None ++ sent_calls b tables None) s).
Proof.
  eapply (outs_bind _ (fun has s => has = false /\ traced m None t s)).
  { intros s [Hs Hr]. unfold stx_gets. rewrite Hr. split; [by apply bool_decide_false; intros []|by exists sv]. }
  intros has s [-> Hs]. revert s Hs. cbn [negb stx_when].
  eapply (outs_bind _ (fun _ s => traced m None (t ++ page_calls (handler_due cfg sv None m) false) s /\ filled s)).
  { eapply outs_weaken; [apply outs_and; [|apply (ends_emplace (fun _ => True))]|intros s Hs; split; [exact Hs|exact I]|intros a s Hs; exact Hs|done].
    eapply outs_bind; [apply not_found_outs|]. intros r. apply ends_keeps, keeps_emplace. }
  intros _. eapply outs_weaken; [apply finish_traced|intros s Hs; exact Hs| |done]. intros q s Hs Hq. specialize (Hs Hq). unfold both. by rewrite <- !app_assoc in *.
Qed.

Lemma bind_modify {A} f (g : unit -> stx dstate A) s : (stx_modify f ≫= g) s = g tt (f s).
Proof. done. Qed.

(** The calls of a request routed to [res]. *)
Definition answered_calls (m : http_method) (res : option nat) (sv : server nat) (t : list hook_call) (q : bool) (s : dstate) : Prop :=
  q = true -> exists threw, traced m res (t ++ dispatch_calls b tables res
    (handler_calls (handler_due cfg sv res m) threw (exception_calls b tables res))) s.

Lemma handler_due_heap sv sv' res m : heap sv' = heap sv -> handler_due cfg sv' res m = handler_due cfg sv res m.
Proof. intros E. unfold handler_due. by rewrite E. Qed.

Lemma finalize_traced m path sv t : called_route sv m (routed_to m path sv) ->
  ends (reading m path sv t) (finalize_answer mhd_queues cfg) (answered_calls m (routed_to m path sv) sv t).
Proof.
  intros Hn s Hs. unfold finalize_answer. rewrite (rd_skip _ _ _ _ _ Hs).
  refine (outs_bind _ _ (answered_calls m (routed_to m path sv) sv t) _ _ _ (resolve_traced m path sv t) _ s Hs).
  clear s Hs. intros res s (-> & Hv & Hr & sv' & Hh & Hk). unfold answered_calls, dispatch_calls.
  rewrite <- (handler_due_heap sv sv') by done. destruct (routed_to m path sv) as [id|].
  - rewrite !bind_modify. set (s1 := if _ || _ then _ else _).
    assert (Hs1 : on_server m (Some id) sv' t s1).
    { assert (Et : bool_decide (is_Some (hook_table_raw_ (Some id) (world_of s))) = has_table (Some id)) by (unfold has_table, hook_table_raw_; by rewrite (kp_tables _ _ _ Hk)).
      unfold s1, server_gate. cbn [conn world_of on_conn with_has_table route_has_hook_table_]. rewrite Et, (kp_bus _ _ _ Hk).
      pose proof Hv as [= E1 E2 E3 E4]. split; [destruct (has_table (Some id) || _); exact Hk|].
      unfold view_for. destruct (has_table (Some id) || _); unfold view; cbn; by rewrite ?E1, ?E2, ?E4. }
    clearbody s1. pose proof (found_traced m sv' (t ++ fired route_resolved (vec b route_resolved)) id) as Hf. rewrite Hh in Hf.
    specialize (Hf (fun r => Hn id r eq_refl) _ (route_resolved_kept m (Some id) sv' t true (Some id) _ Hs1)).
    outcomes s' q; [|done..]. intros Hq. destruct (Hf Hq) as [threw Ht]. exists threw.
    rewrite <- app_assoc in Ht. exact Ht.
  - rewrite bind_modify. assert (Hs1 : on_server m None sv' t s) by (split; [done|]; rewrite Hv; unfold view_for; by destruct (_ || _)).
    pose proof (route_resolved_kept m None sv' t false None _ Hs1) as Hs2.
    assert (Hr2 : response (conn (fire_route_resolved_gated cfg false None s)) = None) by (unfold fire_route_resolved_gated; by destruct (negb _)).
    pose proof (missing_traced m sv' _ _ (conj Hs2 Hr2)) as Hf.
    outcomes s' q; [|done..]. intros Hq. exists false. specialize (Hf Hq).
    rewrite <- app_assoc in Hf. exact Hf.
Qed.

(** *** Reading *)

(** Hooks and the body leave what was read of the request line. *)
Lemma reading_more m path sv t t' s s' : reading m path sv t s ->
  (view (conn s'), standardized_url (conn s'), has_body (conn s'), skip_handler (conn s'), response (conn s'))
    = (view (conn s), standardized_url (conn s), has_body (conn s), skip_handler (conn s), response (conn s)) ->
  kept sv t' (world_of s') -> reading m path sv t' s'.
Proof. intros [] [= F1 F2 F3 F4 F5 F6 F7 F8] Hk. constructor; unfold view in *; congruence. Qed.

(** The hooks that get the request before dispatch. *)
Lemma request_chain_kept m path sv t p ctx name (f : hook_env -> hook_env * option http_response) s s1 : reading m path sv t s ->
  f = @fire_short_circuit_hooks_for_phase hook_env run_code name (vec (hooks_ (world_of s1)) p) -> ctx_phase ctx = p ->
  s1 = s \/ (exists n, s1 = on_conn (with_seen n) s) ->
  let '(s', sc) := if server_gate p (world_of s) then let '(e, sc) := f (env_of ctx None s1) in (leave_request e s1, sc) else (s, None) in
  sc = None /\ reading m path sv (t ++ fired p (vec b p)) s'.
Proof.
  intros Hs Hf Hp Hs1. pose proof (rd_kept _ _ _ _ _ Hs) as Hk. unfold server_gate. rewrite (kp_bus _ _ _ Hk).
  assert (Hk1 : kept sv t (world_of s1)) by (by destruct Hs1 as [->|[n ->]]).
  destruct (has_hooks_for b p) eqn:Hg; [|by rewrite (gate_closed _ Hg), app_nil_r]. rewrite (kp_bus _ _ _ Hk1) in Hf. subst f.
  pose proof (fire_sc_kept p None sv t name (vec b p) (env_of ctx None s1)) as H1'. subst p.
  destruct (fire_short_circuit_hooks_for_phase _ _ _) as [e sc]. destruct (H1' (env_of_kept ctx None sv t s1 Hk1)) as [-> (_ & _ & Hk')].
  split; [done|]. eapply reading_more; [exact Hs| |exact Hk']. by destruct Hs1 as [->|[n ->]].
Qed.

Lemma first_traced url method ct (w : world) sv : kept sv [] w ->
  ends (fun s => s = DState new_conn w [] []) (answer_first mhd_create_post_processor cfg url method ct)
    (fun _ => reading (parse_method method) (request_path cfg url) sv (fired request_received (vec b request_received))).
Proof.
  intros Hk s ->. unfold answer_first, request_path, parse_method. destruct (base_unescaper url (unescaper cfg)) as [[u n]|e|]; [|done..].
  unfold requests_answer_first_step, resolve_method_callback. cbn zeta. set (s1 := on_conn _ (on_conn (fun c => _) _)).
  assert (Hs1 : reading (default count_ (List.find (fun m => bytes_eqb method (to_string m)) [get; post; put; del; patch; head; connect; trace; options]))
    (normalize_path (standardize_url u)) sv [] s1).
  { unfold s1. destruct (List.find _ _) as [m|] eqn:Em; cbn; constructor; try done; cbn; [|by rewrite orb_false_r].
    apply List.find_some in Em as [Hin _]. unfold view. cbn. by rewrite decide_False by (intros ->; simpl in Hin; intuition discriminate). }
  clearbody s1. unfold fire_request_received_phase.
  pose proof (request_chain_kept _ _ _ _ request_received request_received_ctx _ (@fire_request_received hook_env run_code (hooks_ (world_of s1))) _ s1 Hs1
    eq_refl eq_refl (or_introl eq_refl)) as H1'.
  destruct (if server_gate _ _ then _ else _) as [s2 sc]. destruct H1' as [-> Hs2].
  destruct (negb _); [done|]. destruct (request _); [|done]. by eapply reading_more; [exact Hs2| |apply Hs2].
Qed.

Lemma chunk_traced m path sv t c : ends (reading m path sv t) (answer_chunk mhd_post_process cfg c)
  (fun _ => reading m path sv (t ++ if method_has_body m then fired body_chunk (vec b body_chunk) else [])).
Proof.
  intros s Hs. unfold answer_chunk. rewrite (rd_body _ _ _ _ _ Hs), (rd_skip _ _ _ _ _ Hs).
  destruct (method_has_body m); [|by rewrite app_nil_r]. cbn [negb]. unfold fire_body_chunk_phase. cbn zeta.
  set (s1 := on_conn (with_seen _) s). set (ctx := body_chunk_ctx _ _ _).
  pose proof (request_chain_kept _ _ _ _ body_chunk ctx _ (@fire_body_chunk hook_env run_code (hooks_ (world_of s1))) _ s1 Hs
    eq_refl eq_refl (or_intror (ex_intro _ _ eq_refl))) as H1'.
  destruct (if server_gate _ _ then _ else _) as [s2 sc]. destruct H1' as [-> Hs2].
  destruct (request _); [|done]. by eapply reading_more; [exact Hs2| |apply Hs2].
Qed.

Lemma chunks_traced m path sv t chunks : ends (reading m path sv t) (answer_chunks mhd_post_process cfg chunks)
  (fun _ => reading m path sv (t ++ concat (replicate (if method_has_body m then length chunks else 0) (fired body_chunk (vec b body_chunk))))).
Proof.
  revert t. induction chunks as [|c chunks IH]; intros t; cbn [answer_chunks].
  - intros s Hs. destruct (method_has_body m); by rewrite app_nil_r.
  - eapply outs_bind; [apply chunk_traced|]. intros ?. eapply outs_weaken; [apply IH|done| |done]. intros ? s. cbn.
    rewrite <- app_assoc. by destruct (method_has_body m).
Qed.

Lemma end_traced m path sv t method version : called_route sv m (routed_to m path sv) ->
  ends (reading m path sv t) (answer_end mhd_queues cfg method version) (answered_calls m (routed_to m path sv) sv t).
Proof.
  intros Hn s Hs. unfold answer_end, get_request, mbind at 1, stx_bind at 1. destruct (request (conn s)) as [r|]; [|done].
  rewrite bind_modify. apply finalize_traced; [done|]. by eapply reading_more; [exact Hs| |apply Hs].
Qed.

(** The whole request, to the queued response. *)
Lemma answer_traced url method ct version chunks (w : world) sv : kept sv [] w ->
  let m := parse_method method in let path := request_path cfg url in
  called_route sv m (routed_to m path sv) ->
  ends (fun s => s = DState new_conn w [] [])
    (answer_to_connection mhd_queues mhd_create_post_processor mhd_post_process cfg url method version ct chunks)
    (answered_calls m (routed_to m path sv) sv (fired request_received (vec b request_received)
       ++ concat (replicate (if method_has_body m then length chunks else 0) (fired body_chunk (vec b body_chunk))))).
Proof.
  intros Hk m path Hn. unfold answer_to_connection. eapply outs_bind; [by apply first_traced|].
  intros ?. eapply outs_bind; [by apply chunks_traced|]. intros []. by apply end_traced.
Qed.

(** The end of the request. *)
Lemma completed_traced m res t alive completed_ok s : traced m res t s ->
  calls (app (world_of (request_completed_callback cfg alive completed_ok s))) = base ++ t ++ completed_calls b tables res alive.
Proof.
  intros (sv & Hk & Hv). pose proof Hk as [E1 E2 _ _ _]. pose proof Hv as [= _ _ Ht Hw].
  unfold request_completed_callback, fire_request_completed_gated, completed_calls, server_gate. cbn [world_of on_fds on_conn]. rewrite E1, Ht, Hw.
  set (live := if has_hooks_for b request_completed || has_table res then _ else _).
  assert (Hl : route_vec tables live request_completed = route_vec tables (res ≫= fun id => if alive id then Some id else None) request_completed).
  { unfold live. rewrite orb_comm. destruct (has_table res) eqn:Hr; cbn [orb]; [done|]. destruct (has_hooks_for _ _); [done|].
    unfold has_table in Hr. apply bool_decide_eq_false in Hr. unfold route_vec. destruct res as [id|]; [|done]. cbn in *.
    destruct (alive id); [|done]. cbn. destruct (tables !! id); [|done]. destruct Hr. by eexists. }
  rewrite <- Hl. clearbody live. destruct (_ && _) eqn:Hg.
  - apply andb_true_iff in Hg as [Hg1%negb_true_iff Hg2%negb_true_iff].
    rewrite (gate_closed _ Hg1), (route_gate_closed _ _ _ E2 Hg2). cbn. by rewrite app_nil_r, (kp_calls _ _ _ Hk).
  - clear Hg. cbn [leave_const world_of on_world]. set (e0 := env_of _ _ s).
    assert (He : env_kept request_completed (response (conn s)) sv t e0) by (by split_and!).
    assert (He1 : env_kept request_completed (response (conn s)) sv (t ++ fired request_completed (vec b request_completed))
      (if has_hooks_for b request_completed then @fire_request_completed hook_env run_code b e0 else e0)).
    { destruct (has_hooks_for b request_completed) eqn:Hg; [by apply fire_void_kept|]. by rewrite (gate_closed _ Hg), app_nil_r. }
    set (e1 := if has_hooks_for _ _ then _ else _) in *. clearbody e1. rewrite (app_assoc t).
    destruct (route_gate live request_completed (world_of s)) eqn:Hg2; [|rewrite (route_gate_closed _ _ _ E2 Hg2), app_nil_r; apply (kp_calls _ _ _ (proj2 (proj2 He1)))].
    rewrite <- (route_vec_of live request_completed (he_world e1)) by apply He1.
    apply (run_void_kept request_completed (response (conn s)) sv _ (route_subject (bs "request_completed"))
      (rt_vec (route_table_of live (he_world e1)) request_completed) e1 He1).
Qed.

End Passive.

Section Observers.
Context `{RegexEngine, StdHash, MhdCreate, BodyFits} {R : Type} `{HttpRequest R} {App : Type}.
Context (mhd_queues : mhd_event -> bool) (mhd_create_post_processor : bytes -> bool) (mhd_post_process : R -> bytes -> R).
Context (cfg : Dispatch.config).
Context `{!@UserCode _ R App} (calls : App -> list hook_call) `{!@Passive _ R App _ calls}.

(** C8: When the hooks only observe (they may throw, but neither respond nor touch
    the bus, the tables or the routes) and the response is queued, the calls made
    for the request are known exactly.  Each registered hook of a phase that the
    request goes through is called exactly once there, the server's in the order
    of their registration, then those of the route: [request_received];
    [body_chunk] once per chunk, for the methods that have a body;
    [route_resolved]; for a route [before_handler]; the handler, or that of the
    404 or 405 page, once; when it throws, and only then, [handler_exception]
    with the alias of the error page; [after_handler]; [response_sent] with the
    access log; and, at the end of the request, [request_completed], the route's
    hooks as long as its resource lives.  TRACE and CONNECT to a lambda resource
    are left out, as is a not-found handler that throws (no response is queued). *)
Theorem observers_see_each_phase url method version ct chunks alive completed_ok (w : @Dispatch.world _ App) (s' : @Dispatch.dstate _ R App) :
  bus_ok (hooks_ w) -> (forall id t, route_tables w !! id = Some t -> table_ok t) -> allow_ok (srv w) ->
  let m := parse_method method in
  let res := routed_to m (request_path cfg url) (srv w) in
  called_route (srv w) m res ->
  answer_to_connection mhd_queues mhd_create_post_processor mhd_post_process cfg url method version ct chunks (DState new_conn w [] []) = (s', Ok true) ->
  exists threw,
  let t := request_calls (hooks_ w) (route_tables w) (if method_has_body m then length chunks else 0) res
    (handler_calls (handler_due cfg (srv w) res m) threw (exception_calls (hooks_ w) (route_tables w) res)) in
  calls (app (world_of s')) = calls (app w) ++ t
  /\ calls (app (world_of (request_completed_callback cfg alive completed_ok s')))
     = calls (app w) ++ t ++ completed_calls (hooks_ w) (route_tables w) res alive.
Proof.
  intros Hb Htables Hallow m res Hn E.
  assert (Hk : kept calls (hooks_ w) (route_tables w) (calls (app w)) (srv w) [] w) by (constructor; [done..|by rewrite app_nil_r|done]).
  pose proof (answer_traced mhd_queues mhd_create_post_processor mhd_post_process cfg calls (hooks_ w) (route_tables w) (calls (app w)) Hb Htables
    url method ct version chunks w (srv w) Hk Hn _ eq_refl) as Hall. rewrite E in Hall. destruct (Hall eq_refl) as [threw Ht].
  exists threw. cbn zeta. rewrite <- app_assoc in Ht. split; [by destruct Ht as (sv & [] & _)|].
  by eapply completed_traced.
Qed.

End Observers.

(** ** A concrete request *)

Section Watched.
#[local] Existing Instances literal_engine len_hash len_hash_ok accepts_all all_inline log_request.
#[local] Instance watched_code : @UserCode _ (list (bytes * bytes)) (unit * list hook_call) := observed tame_code.

Lemma watched_passive : @Passive _ (list (bytes * bytes)) (unit * list hook_call) watched_code snd.
Proof. constructor; intros; cbn; split_and!; try done; unfold same_hooks; cbn; by split_and!. Qed.

(** Hooks 1 to 8 of the server, 9 the access log, 10 the alias of the error page,
    11 to 13 of the route, whose handler throws. *)
Definition watched_ops : list bus_op :=
  [BusAdd on_request_received request_received (Some 1); BusAdd on_route_resolved route_resolved (Some 2);
   BusAdd on_before_handler before_handler (Some 3); BusAdd on_before_handler before_handler (Some 4);
   BusAdd on_after_handler after_handler (Some 5); BusAdd on_response_sent response_sent (Some 6);
   BusAdd on_handler_exception handler_exception (Some 7); BusAdd on_request_completed request_completed (Some 8);
   BusLogAlias 9; BusExceptionAlias 10].

Definition watched_table : resource_hook_table :=
  fst (append_impl request_completed 13 (fst (append_impl handler_exception 12 (fst (append_impl before_handler 11 new_table))))).

Definition watched_tables : gmap nat resource_hook_table := {[0 := watched_table]}.

Definition watched_world : @Dispatch.world _ (unit * list hook_call) :=
  World (srv (demo_world [OpOnMethods get_set (bs "/hello/{x}") (Some 2)])) (foldl bus_exec new_bus watched_ops) watched_tables (tt, []) [].

#[local] Abbreviation watched_answer := (answer_to_connection (fun _ => true) (fun _ => true) (fun r _ => r) (demo_config None)
  (bs "/hello/x") (bs "GET") (bs "HTTP/1.1") None [] (DState new_conn watched_world [] [])).

#[local] Abbreviation watched_end := (request_completed_callback (demo_config None) (fun _ => true) true (fst watched_answer)).

(** The calls of that request. *)
Example watched_calls : snd (app (world_of watched_end)) =
  [Hooked request_received 1 false; Hooked route_resolved 2 false; Hooked before_handler 3 false; Hooked before_handler 4 false;
   Hooked before_handler 11 false; Ran true; Hooked handler_exception 7 false; Hooked handler_exception 10 false;
   Hooked handler_exception 12 false; Hooked after_handler 5 false; Hooked response_sent 6 false; Hooked response_sent 9 false;
   Hooked request_completed 8 false; Hooked request_completed 13 false].
Proof. by vm_compute. Qed.

Lemma watched_bus_ok : bus_ok (hooks_ watched_world).
Proof. eapply br_ok, (bus_exec_registry_all watched_ops 0 new_bus (1%Z, [])); [cbn; lia|apply new_bus_registry]. Qed.

Lemma noted_append_ok p f t : rt_phase p = true -> table_ok t -> (rt_next_slot_id_ t < 2 ^ 64 - 1)%Z -> table_ok (fst (append_impl p f t)).
Proof. intros Hp Ht Hn. pose proof (append_impl_ok p f t Hp Ht Hn) as Ha. destruct (append_impl p f t) as [t' id]. apply Ha. Qed.

Lemma watched_tables_ok id t : watched_tables !! id = Some t -> table_ok t.
Proof.
  unfold watched_tables. intros [<- <-]%lookup_singleton_Some. unfold watched_table.
  repeat (apply noted_append_ok; [done| |by vm_compute]). apply new_table_ok.
Qed.

Lemma watched_allow_ok : allow_ok (srv watched_world).
Proof.
  assert (Hf : bool_decide (map_Forall (fun _ r => cached_allow_valid_ (res_mask r) = false) (heap (srv watched_world))) = true)
    by (vm_compute; reflexivity).
  apply bool_decide_eq_true in Hf. intros id r Hid Hv. by rewrite (Hf _ _ Hid) in Hv.
Qed.

Lemma watched_ok : snd watched_answer = Ok true.
Proof. by vm_compute. Qed.

Lemma watched_route : routed_to (parse_method (bs "GET")) (request_path (demo_config None) (bs "/hello/x")) (srv watched_world) = Some 0.
Proof. by vm_compute. Qed.

Lemma watched_body : method_has_body (parse_method (bs "GET")) = false.
Proof. by vm_compute. Qed.

Lemma watched_called : called_route (srv watched_world) get (Some 0).
Proof.
  intros id r [= <-] Hr _. assert (Hn : (fun r => never_called r get) <$> heap (srv watched_world) !! 0 = Some false) by (vm_compute; reflexivity).
  rewrite Hr in Hn. by injection Hn.
Qed.

Lemma watched_due : handler_due (demo_config None) (srv watched_world) (Some 0) (parse_method (bs "GET")) = true.
Proof. by vm_compute. Qed.

Lemma observers_see_each_phase_witness :
  exists threw, snd (app (world_of watched_end)) =
    request_calls (hooks_ watched_world) (route_tables watched_world) 0 (Some 0)
      (handler_calls true threw (exception_calls (hooks_ watched_world) (route_tables watched_world) (Some 0)))
    ++ completed_calls (hooks_ watched_world) (route_tables watched_world) (Some 0) (fun _ => true).
Proof.
  assert (E : watched_answer = (fst watched_answer, Ok true)) by (by rewrite <- watched_ok, <- surjective_pairing).
  pose proof watched_called as Hn. rewrite <- watched_route in Hn.
  destruct (@observers_see_each_phase _ _ _ _ _ _ _ (fun _ => true) (fun _ => true) (fun r _ => r) (demo_config None) _ snd watched_passive
    (bs "/hello/x") (bs "GET") (bs "HTTP/1.1") None [] (fun _ => true) true watched_world (fst watched_answer)
    watched_bus_ok watched_tables_ok watched_allow_ok Hn E) as (threw & _ & Hc).
  rewrite watched_route, watched_body, watched_due in Hc. by exists threw.
Defined.

End Watched.

(** ** A response does not end every chain

    The phase [after_handler] goes on with the hooks of the route when a hook of the
    server has responded; [before_handler] stops there. *)

Section Answering.
#[local] Existing Instances literal_engine len_hash len_hash_ok accepts_all all_inline log_request.

(** Hook 5 responds. *)
Definition answering_code : @UserCode _ (list (bytes * bytes)) unit := {|
  user_hook f e := (e, inr (if f =? 5 then Some (plain_page (bs "replaced")) else None));
  user_render := @user_render _ _ _ tame_code;
  user_handler := @user_handler _ _ _ tame_code;
  user_error_handler := @user_error_handler _ _ _ tame_code;
|}.
#[local] Instance answering_observed : @UserCode _ (list (bytes * bytes)) (unit * list hook_call) := observed answering_code.

(** The calls with the hook on the server and hook 8 on the route. *)
Definition answering_calls (o : overload) (p : hook_phase) : list hook_call :=
  snd (app (world_of (fst (answer_to_connection (fun _ => true) (fun _ => true) (fun r _ => r) (demo_config None)
    (bs "/hello/x") (bs "GET") (bs "HTTP/1.1") None []
    (DState new_conn (World (srv (demo_world hello_route)) (fst (add o p (Some 5) new_bus)) {[0 := fst (append_impl p 8 new_table)]} (tt, []) []) [] []))))).

Theorem after_handler_chain_continues :
  answering_calls on_after_handler after_handler = [Ran false; Hooked after_handler 5 true; Hooked after_handler 8 false]
  /\ answering_calls on_before_handler before_handler = [Hooked before_handler 5 true].
Proof. split; vm_compute; reflexivity. Qed.

End Answering.
