(* ===== verification/ResourceClass.v ===== *)
(** * Classes of resources

    [http_resource.hpp]: the virtual methods of a resource.  A subclass overrides
    some of the nine [render_*] and perhaps [render], which the others call; what
    it overrides decides how dispatch answers its requests. *)

From S2P Require Import Prelude HttpUtils HttpMethod Paths RouteCache Regex HttpEndpoint RouteTable Registration.
From S2P Require Import Cookie OrderedMap HttpResponse HookBus Request Dispatch DispatchSafety DispatchSpec.
Import HttpUtils.HttpUtils MethodSetOps ResourceMask RouteTable.RouteTable Registration.Registration.
Import HttpResponse.Response HookBus.Hooks Dispatch.Dispatch.

Module ResourceClass.
Section ResourceClass.
Context `{RegexEngine} {R App : Type}.

#[local] Abbreviation world := (@Dispatch.world _ App).
#[local] Abbreviation member := (R -> world -> world * (exn + http_response)).

(** What a subclass overrides: some [render_*], by their method, and [render]. *)
Record subclass : Type := Subclass {
  overrides : http_method -> option member;
  render_override : option member;
}.

(** [http_resource::render] returns [http_response{}]. *)
Definition render (c : subclass) : member := fun r w =>
  match render_override c with Some f => f r w | None => (w, inr new_response) end.

(** [render_get] ... [render_connect], through the virtual table. *)
Definition render_method (c : subclass) (m : http_method) : member := fun r w =>
  match overrides c m with Some f => f r w | None => render c r w end.

(** The user code of a server whose resources are of these classes. *)
Definition with_classes (classes : nat -> subclass) (code : @UserCode _ R App) : @UserCode _ R App := {|
  user_hook := @user_hook _ _ _ code;
  user_render id m r w := render_method (classes id) m r w;
  user_handler := @user_handler _ _ _ code;
  user_error_handler := @user_error_handler _ _ _ code;
|}.

End ResourceClass.
End ResourceClass.
Import ResourceClass.

Section Answers.
Context `{RegexEngine, StdHash, !StdHashOk, MhdCreate, BodyFits} {R : Type} `{HttpRequest R} {App : Type}.
Context (mhd_queues : mhd_event -> bool) (mhd_create_post_processor : bytes -> bool) (mhd_post_process : R -> bytes -> R).
Context (cfg : Dispatch.config) (classes : nat -> @subclass _ R App) (code : @UserCode _ R App).

#[local] Abbreviation world := (@Dispatch.world _ App).
#[local] Instance class_code : @UserCode _ R App := with_classes classes code.

(** The response of a class: the most specific override, [render], or the 500
    page of a response without a status. *)
Definition class_reply (c : subclass) (m : http_method) (r : R) (w : world) : http_response :=
  match overrides c m, render_override c with
  | Some f, _ | None, Some f => handler_reply cfg (snd (f r w))
  | None, None => internal_page cfg (bs "handler returned null response")
  end.

Lemma class_reply_render c m r w : handler_reply cfg (snd (render_method c m r w)) = class_reply c m r w.
Proof. unfold render_method, render, class_reply. by destruct (overrides c m), (render_override c). Qed.

(** [code_reply] on a route to a resource of a class. *)
Lemma reply_of_class m path r (w : world) ms id fam caps mask :
  resolve (routes_ (srv w)) (canonicalize_lookup_path path) = Some (RouteEntry ms (Some id) fam, caps) ->
  heap (srv w) !! id = Some (UserResource mask) -> is_allowed mask m = true ->
  code_reply cfg m path r w = class_reply (classes id) m (with_captures caps r) (set_srv w (fst (lookup m path (srv w)))).
Proof. intros Hr Hh Ha. unfold code_reply. rewrite Hr, Hh. cbn [res_mask]. rewrite Ha. apply class_reply_render. Qed.

(** Without hooks and custom error pages, a request for a method its resource
    allows is answered with what the class of the resource makes of it. *)
Theorem subclass_answers url method version ct chunks (w : world) ms id fam caps mask q ev :
  quiet -> default_pages cfg -> serving w -> hook_free w ->
  resolve (routes_ (srv w)) (canonicalize_lookup_path (request_path cfg url)) = Some (RouteEntry ms (Some id) fam, caps) ->
  heap (srv w) !! id = Some (UserResource mask) -> is_allowed mask (parse_method method) = true ->
  delivery cfg (class_reply (classes id) (parse_method method)
    (with_captures caps (request_of mhd_create_post_processor mhd_post_process cfg url method version ct chunks))
    (set_srv w (fst (lookup (parse_method method) (request_path cfg url) (srv w))))) = Some (q, ev) ->
  exists s', answer_to_connection mhd_queues mhd_create_post_processor mhd_post_process cfg url method version ct chunks (DState new_conn w [] [])
      = (s', Ok (mhd_queues ev))
    /\ mhd s' = [ev; MhdDestroy q].
Proof.
  intros Hq Hd Hs Hf Hr Hh Ha Hdel. apply request_reply; [done..|]. by rewrite (reply_of_class _ _ _ w ms id fam caps mask).
Qed.

End Answers.

Section Examples.
#[local] Existing Instances literal_engine len_hash len_hash_ok accepts_all all_inline log_request.

(** Resource 0 overrides nothing, resource 1 [render] and [render_post]. *)
Definition demo_classes (id : nat) : @subclass _ (list (bytes * bytes)) unit :=
  match id with
  | 1 => Subclass (fun m => if bool_decide (m = post) then Some (fun _ w => (w, inr (plain_page (bs "posted")))) else None)
           (Some (fun _ w => (w, inr (plain_page (bs "rendered")))))
  | _ => Subclass (fun _ => None) None
  end.

#[local] Instance demo_class_code : @UserCode _ (list (bytes * bytes)) unit := with_classes demo_classes tame_code.

Definition class_routes : list (server_op nat) :=
  [OpNewResource new_resource; OpRegister (bs "/bare") (Some 0) false; OpNewResource new_resource; OpRegister (bs "/full") (Some 1) false].

Definition class_answer (url method : bytes) : list (Z * mhd_create) * outcome bool :=
  let '(s, o) := answer_to_connection (fun _ => true) (fun _ => true) (fun r _ => r) (demo_config None) url method (bs "HTTP/1.1") None []
    (DState new_conn (demo_world class_routes) [] []) in
  (omap (fun e => match e with MhdQueue code r => Some (code, content r) | _ => None end) (mhd s), o).

Example full_get : class_answer (bs "/full") (bs "GET") = ([(200%Z, create_from_buffer_static (bs "rendered"))], Ok true).
Proof. by vm_compute. Qed.

Example full_post : class_answer (bs "/full") (bs "POST") = ([(200%Z, create_from_buffer_static (bs "posted"))], Ok true).
Proof. by vm_compute. Qed.

(** A class without overrides answers 500, not 405. *)
Theorem bare_class_is_not_405 :
  class_answer (bs "/bare") (bs "GET") = ([(500%Z, create_from_buffer_static (bs "Internal Server Error"))], Ok true).
Proof. by vm_compute. Qed.

End Examples.
