(* ===== verification/Diagnostics.v ===== *)
(** * Diagnostic output

    The dump of request bodies that an environment variable turns on
    ([detail/webserver_body_pipeline.cpp]): the variable is read once, [start]
    prints a warning, and the second step of a request writes the chunk it is
    about to keep.  Several threads start servers and receive chunks at a time;
    each atomic access and each write to a stream is a step.  Also the text form
    of a response ([http_response.cpp]) and [load_file] ([http_utils.cpp]). *)

From S2P Require Import Prelude HttpUtils HttpMethod Paths RouteCache Regex HttpEndpoint RouteTable Registration.
From S2P Require Import Cookie OrderedMap HttpResponse HookBus Request Dispatch.
Import HttpUtils.HttpUtils HttpResponse.Response HookBus.Hooks.

Module Diagnostics.

(** ** The switch *)

(** What the process keeps: the variable, the function-local static
    [enabled], [g_debug_dump_warning_emitted], and what was written to the two
    streams and to the error loggers. *)
Record process : Type := Process {
  env : option bytes;
  enabled : option bool;
  warning_emitted : bool;
  stderr : bytes;
  stdout : bytes;
  logged : list (nat * bytes);
}.

Definition set_env (v : option bytes) (s : process) : process :=
  Process v (enabled s) (warning_emitted s) (stderr s) (stdout s) (logged s).
Definition set_enabled (b : bool) (s : process) : process :=
  Process (env s) (Some b) (warning_emitted s) (stderr s) (stdout s) (logged s).
Definition set_emitted (s : process) : process :=
  Process (env s) (enabled s) true (stderr s) (stdout s) (logged s).
Definition write_stderr (t : bytes) (s : process) : process :=
  Process (env s) (enabled s) (warning_emitted s) (stderr s ++ t) (stdout s) (logged s).
Definition write_stdout (t : bytes) (s : process) : process :=
  Process (env s) (enabled s) (warning_emitted s) (stderr s) (stdout s ++ t) (logged s).
Definition call_logger (sink : nat) (t : bytes) (s : process) : process :=
  Process (env s) (enabled s) (warning_emitted s) (stderr s) (stdout s) (logged s ++ [(sink, t)]).

(** The initialiser of [enabled]. *)
Definition opt_in_value (v : option bytes) : bool :=
  match v with None => false | Some v => negb (is_empty v) && negb (bool_decide (v = bs "0")) end.

Definition debug_dump_request_body_opted_in : stx process bool := fun s =>
  match enabled s with
  | Some b => (s, Ok b)
  | None => let b := opt_in_value (env s) in (set_enabled b s, Ok b)
  end.

Definition msg : bytes :=
  bs "[libhttpserver] SECURITY WARNING: LIBHTTPSERVER_DEBUG_DUMP_REQUEST_BODY is set. Raw request bodies will be written to stdout, including credentials, session cookies, and PII. Unset the variable for production deployments. See docs/debug-env-vars.md.".

(** What is written for a chunk, in three writes. *)
Definition dump_writes (chunk : bytes) : list bytes := [bs "Writing content: "; chunk; [LF]].

(** Where a thread is: in [maybe_warn_debug_dump_request_body] on behalf of a
    server with an error logger or without, past it with [MHD_start_daemon]
    called, or in the second step of a request. *)
Inductive task : Type :=
| Starting (sink : option nat)
| Claiming (sink : option nat)
| Printing (sink : option nat)
| Forwarding (sink : option nat)
| Serving
| Receiving (chunk : bytes)
| Dumping (writes : list bytes)
| Received.

Section Switch.
(** Whether an error logger throws on what it is given. *)
Context (logger_throws : nat -> bytes -> option exn).

(** [if (auto sink = get_error_logger()) try { sink(msg); } catch (...) {}] *)
Definition forward (sink : option nat) : stx process unit :=
  match sink with
  | None => mret ()
  | Some id => stx_try
      (fun s => (call_logger id msg s, match logger_throws id msg with Some e => Throw e | None => Ok () end))
      (fun _ => mret ())
  end.

Definition advance (t : task) : stx process task :=
  match t with
  | Starting sink => b ← debug_dump_request_body_opted_in; mret (if b : bool then Claiming sink else Serving)
  | Claiming sink => fun s => if warning_emitted s then (s, Ok Serving) else (set_emitted s, Ok (Printing sink))
  | Printing sink => _ ← stx_modify (write_stderr (msg ++ [LF])); mret (Forwarding sink)
  | Forwarding sink => _ ← forward sink; mret Serving
  | Receiving chunk => b ← debug_dump_request_body_opted_in; mret (if b : bool then Dumping (dump_writes chunk) else Received)
  | Dumping (w :: ws) => _ ← stx_modify (write_stdout w); mret (Dumping ws)
  | Dumping [] => mret Received
  | Serving => mret Serving
  | Received => mret Received
  end.

(** Any thread may call [setenv], start a server, or, once a server runs,
    receive a chunk. *)
Inductive step : process * list task -> process * list task -> Prop :=
| st_setenv s ts v : step (s, ts) (set_env v s, ts)
| st_start s ts sink : step (s, ts) (s, ts ++ [Starting sink])
| st_chunk s ts chunk : Serving ∈ ts -> step (s, ts) (s, ts ++ [Receiving chunk])
| st_run s ts i t s' t' : ts !! i = Some t -> advance t s = (s', Ok t') -> step (s, ts) (s', <[i := t']> ts).

End Switch.

Definition launched (v : option bytes) : process := Process v None false [] [] [].

(** ** The chunk that is dumped *)

Section Chunks.
Context `{RegexEngine, StdHash, MhdCreate, BodyFits} {R : Type} `{HttpRequest R} {App : Type}.
Context (mhd_post_process : R -> bytes -> R) (cfg : Dispatch.config) `{!@Dispatch.UserCode _ R App}.

(** The text the second step writes for a chunk: none when the request takes no
    body, has its response, or gets it from a body hook. *)
Definition dumped (opted_in : bool) (chunk : bytes) (s : Dispatch.dstate) : bytes :=
  if negb (Dispatch.has_body (Dispatch.conn s)) then []
  else if Dispatch.skip_handler (Dispatch.conn s) then []
  else
    let '(s, sc) := if Dispatch.server_gate body_chunk (Dispatch.world_of s)
                    then Dispatch.fire_body_chunk_phase cfg chunk s else (s, None) in
    match sc with
    | Some _ => []
    | None => if opted_in then concat (dump_writes chunk) else []
    end.

End Chunks.

(** ** The text of a response *)

(** An [int] in a stream. *)
Definition print_int (z : Z) : bytes := if (z <? 0)%Z then bs "-" ++ dec (- z) else dec z.

(** [operator<<] *)
Definition print_response (r : http_response) : http_response * bytes :=
  let r := ensure_cookie_mirror_ r in
  (r, bs "Response [response_code:" ++ print_int (status_code_ r) ++ bs "]" ++ [LF]
      ++ Request.Request.dump_header_map (bs "Headers") (headers_ r)
      ++ Request.Request.dump_header_map (bs "Footers") (footers_ r)
      ++ Request.Request.dump_header_map (bs "Cookies") (cookies_ r)).

(** ** Loading a file *)

(** A file that opens has an end position and contents; [reserve] throws when it
    cannot hold as many bytes as the position says. *)
Definition load_file (reserve_throws : Z -> option exn) (file : option (Z * bytes)) : outcome bytes :=
  match file with
  | None => Throw (invalid_argument (bs "Unable to open file"))
  | Some (tell, data) =>
      match reserve_throws (wrap64 tell) with Some e => Throw e | None => Ok data end
  end.

End Diagnostics.
Import Diagnostics.

(** ** The warning *)

Definition warning_line : bytes := msg ++ [LF].

(** A thread that has claimed the warning and not finished with it. *)
Definition warns (t : task) : bool := match t with Printing _ | Forwarding _ => true | _ => false end.

(** A thread that knows the switch is on. *)
Definition opted (t : task) : bool := match t with Claiming _ | Dumping _ => true | _ => warns t end.

Definition receives (t : task) : bool := match t with Receiving _ | Dumping _ | Received => true | _ => false end.

(** How far the warning is, given the thread at it, if any. *)
Definition progress (s : process) (w : option task) : Prop :=
  match w with
  | Some (Printing _) => stderr s = [] /\ logged s = []
  | Some _ => stderr s = warning_line /\ logged s = []
  | None => stderr s = warning_line /\ (logged s = [] \/ exists id, logged s = [(id, msg)])
  end.

Record dump_ok (s : process) (ts : list task) : Prop := {
  do_off : enabled s <> Some true -> stdout s = [] /\ warning_emitted s = false /\ forall i t, ts !! i = Some t -> opted t = false;
  do_unclaimed : warning_emitted s = false ->
    stderr s = [] /\ logged s = [] /\ (enabled s = Some true -> Serving ∉ ts) /\ forall i t, ts !! i = Some t -> warns t = false;
  do_claimed : warning_emitted s = true ->
    (exists i t, ts !! i = Some t /\ warns t = true /\ progress s (Some t))
    \/ progress s None /\ forall i t, ts !! i = Some t -> warns t = false;
  do_unique : forall i j t u, ts !! i = Some t -> ts !! j = Some u -> warns t = true -> warns u = true -> i = j;
  do_serving : Serving ∈ ts -> enabled s <> None;
  do_receivers : forall i t, ts !! i = Some t -> receives t = true -> Serving ∈ ts;
  do_stdout : stdout s <> [] -> Serving ∈ ts;
}.

Lemma dump_ok_launched v : dump_ok (launched v) [].
Proof. split; simpl; intros; try done; try (by rewrite lookup_nil in *); set_solver. Qed.

Lemma dump_ok_setenv v s ts : dump_ok s ts -> dump_ok (set_env v s) ts.
Proof. intros []. by split. Qed.

(** A thread that only begins. *)
Lemma dump_ok_spawn s ts t :
  dump_ok s ts -> opted t = false -> t <> Serving -> (receives t = true -> Serving ∈ ts) -> dump_ok s (ts ++ [t]).
Proof.
  intros [A B C D E F G] Ht Hn Hr.
  assert (Hw : warns t = false) by (by destruct t).
  assert (L : forall i u, (ts ++ [t]) !! i = Some u -> u = t \/ ts !! i = Some u).
  { intros i u [Hu|[_ Hu]]%lookup_app_Some; [by right|]. left. apply list_elem_of_lookup_2, list_elem_of_singleton in Hu. done. }
  assert (M : Serving ∈ ts ++ [t] <-> Serving ∈ ts) by set_solver.
  split; try rewrite M; auto.
  - intros H. destruct (A H) as (? & ? & Q). repeat split; auto. intros i u [->|Hu]%L; eauto.
  - intros H. destruct (B H) as (? & ? & ? & Q). split_and!; [done..|]. intros i u [->|Hu]%L; eauto.
  - intros H. destruct (C H) as [(i & u & Hu & ? & ?)|[? Q]]; [left|right].
    + exists i, u. split; [by apply lookup_app_l_Some|done].
    + split; [done|]. intros i u [->|Hu]%L; eauto.
  - intros i j u u' [->|Hu]%L [->|Hu']%L; try congruence. eauto.
  - intros i u [->|Hu]%L; rewrite M; eauto.
Qed.

(** Thread [i] becomes [t']. *)
Lemma serving_kept (ts : list task) i t t' : ts !! i = Some t -> t <> Serving \/ t' = Serving -> Serving ∈ ts -> Serving ∈ <[i := t']> ts.
Proof.
  intros Hi Ht [j Hj]%list_elem_of_lookup. destruct (decide (j = i)) as [->|Hn].
  - rewrite Hi in Hj. injection Hj as ->. destruct Ht as [ ? | -> ]; [done|]. rewrite list_insert_id by done. by apply list_elem_of_lookup_2 with i.
  - apply list_elem_of_lookup_2 with j. by rewrite list_lookup_insert_ne.
Qed.

Lemma serving_new (ts : list task) i t' : Serving ∈ <[i := t']> ts -> t' = Serving \/ Serving ∈ ts.
Proof.
  intros [j Hj]%list_elem_of_lookup. destruct (insert_cases _ _ _ _ _ Hj) as [[_ <-]|[_ H]]; [by left|].
  right. by apply list_elem_of_lookup_2 with j.
Qed.

Lemma others_kept (ts : list task) i t' (P : task -> bool) :
  (forall j u, ts !! j = Some u -> P u = false) -> P t' = false -> forall j u, <[i := t']> ts !! j = Some u -> P u = false.
Proof. intros H H' j u Hj. destruct (insert_cases _ _ _ _ _ Hj) as [[_ ->]|[_ Hu]]; eauto. Qed.

(** An opted-in thread shows that the switch is on. *)
Lemma opted_enabled s ts i t : dump_ok s ts -> ts !! i = Some t -> opted t = true -> enabled s = Some true.
Proof.
  intros D Hi Ho. destruct (enabled s) as [[]|] eqn:E; [done|..];
    destruct (do_off s ts D ltac:(congruence)) as (_ & _ & Q); apply Q in Hi; congruence.
Qed.

Lemma dump_ok_resolve s ts b : dump_ok s ts -> enabled s = None -> dump_ok (set_enabled b s) ts.
Proof.
  intros [A B C D E F G] He. destruct A as (A1 & A2 & A3); [congruence|].
  destruct (B A2) as (? & ? & ? & ?).
  split; simpl; auto; intros; split_and?; auto. intros _ Hin. by apply E in Hin.
Qed.

(** The thread moves and the process stays as it is. *)
Lemma dump_ok_move s ts i t t' :
  dump_ok s ts -> ts !! i = Some t -> t <> Serving \/ t' = Serving -> warns t = false -> warns t' = false ->
  (opted t' = true -> enabled s = Some true) ->
  (t' = Serving -> enabled s = Some false \/ enabled s = Some true /\ warning_emitted s = true) ->
  (receives t' = true -> Serving ∈ ts) -> dump_ok s (<[i := t']> ts).
Proof.
  intros [A B C D E F G] Hi Hs Hw Hw' Ho Ht Hr. pose proof (serving_kept ts i t t' Hi Hs) as K.
  split; auto.
  - intros H. destruct (A H) as (? & ? & Q). split_and!; [done..|].
    apply (others_kept ts i t' opted Q). destruct (opted t'); [|done]. by destruct (H (Ho eq_refl)).
  - intros H. destruct (B H) as (? & ? & ? & Q). split_and!; [done..| |by apply (others_kept ts i t' warns Q)].
    intros Hn [->|Hin]%serving_new; [|tauto]. destruct (Ht eq_refl) as [|[]]; congruence.
  - intros H. destruct (C H) as [(j & u & Hu & ? & ?)|[? Q]]; [left|right].
    + exists j, u. rewrite list_lookup_insert_ne by congruence. done.
    + split; [done|]. by apply (others_kept ts i t' warns Q).
  - intros j k u v Hj Hk Hu Hv.
    destruct (insert_cases _ _ _ _ _ Hj) as [[-> ->]|[? Hj']]; [congruence|].
    destruct (insert_cases _ _ _ _ _ Hk) as [[-> ->]|[? Hk']]; [congruence|]. eauto.
  - intros [->|Hin]%serving_new; [|auto]. destruct (Ht eq_refl) as [|[]]; congruence.
  - intros j u Hj Hu. destruct (insert_cases _ _ _ _ _ Hj) as [[-> ->]|[? Hj']]; eauto.
Qed.

(** Nobody else is at the warning. *)
Lemma warner_alone s ts i t : dump_ok s ts -> ts !! i = Some t -> warns t = true ->
  forall j u, ts !! j = Some u -> j <> i -> warns u = false.
Proof. intros D Hi Ht j u Hj Hn. destruct (warns u) eqn:E; [|done]. by destruct Hn; eapply do_unique. Qed.

Lemma dump_ok_claim s ts i sink :
  dump_ok s ts -> ts !! i = Some (Claiming sink) -> warning_emitted s = false ->
  dump_ok (set_emitted s) (<[i := Printing sink]> ts).
Proof.
  intros D Hi He. pose proof (opted_enabled s ts i _ D Hi eq_refl) as Hon.
  destruct D as [A B C D E F G]. destruct (B He) as (B1 & B2 & B3 & B4).
  pose proof (serving_kept ts i (Claiming sink) (Printing sink) Hi ltac:(by left)) as K.
  split; simpl; auto; try congruence.
  - intros _. left. exists i, (Printing sink). rewrite list_lookup_insert_eq by eauto using lookup_lt_Some. done.
  - intros j k u v Hj Hk Hu Hv.
    destruct (insert_cases _ _ _ _ _ Hj) as [[-> ->]|[? Hj']]; [|apply B4 in Hj'; congruence].
    destruct (insert_cases _ _ _ _ _ Hk) as [[-> ->]|[? Hk']]; [done|apply B4 in Hk'; congruence].
  - intros j u Hj Hu. destruct (insert_cases _ _ _ _ _ Hj) as [[-> ->]|[? Hj']]; [done|eauto].
Qed.

(** The thread at the warning goes on, to [s'], and may leave it. *)
Lemma dump_ok_warner s s' ts i t t' :
  dump_ok s ts -> ts !! i = Some t -> warns t = true -> receives t' = false -> opted t' = warns t' ->
  enabled s' = enabled s -> warning_emitted s' = warning_emitted s -> stdout s' = stdout s ->
  (progress s (Some t) -> progress s' (if warns t' then Some t' else None)) ->
  dump_ok s' (<[i := t']> ts).
Proof.
  intros D Hi Hw Hr Ho E1 E2 E3 Hp. pose proof (warner_alone s ts i t D Hi Hw) as Hal.
  pose proof (opted_enabled s ts i t D Hi ltac:(by destruct t)) as Hon.
  pose proof (lookup_lt_Some _ _ _ Hi) as Hl. destruct D as [A B C D E F G].
  assert (Hem : warning_emitted s = true).
  { apply not_false_iff_true. intros He. destruct (B He) as (_ & _ & _ & Q). apply Q in Hi. congruence. }
  assert (Hpr : progress s (Some t)).
  { destruct (C Hem) as [(j & u & Hu & Hwu & ?)|[_ Q]]; [|apply Q in Hi; congruence].
    rewrite (D j i u t) in Hu by done. congruence. }
  pose proof (serving_kept ts i t t' Hi ltac:(left; by destruct t)) as K.
  split; rewrite ?E1, ?E2, ?E3; auto; try congruence.
  - intros _. destruct (warns t') eqn:Hw'; [left|right].
    + exists i, t'. rewrite list_lookup_insert_eq by done. auto.
    + split; [auto|]. intros j u Hj. destruct (insert_cases _ _ _ _ _ Hj) as [[-> ->]|[? Hj']]; eauto.
  - intros j k u v Hj Hk Hu Hv.
    destruct (insert_cases _ _ _ _ _ Hj) as [[-> ->]|[? Hj']];
      destruct (insert_cases _ _ _ _ _ Hk) as [[-> ->]|[? Hk']]; try done; try congruence.
    + apply Hal in Hk'; congruence.
    + apply Hal in Hj'; congruence.
    + eauto.
  - intros j u Hj Hu. destruct (insert_cases _ _ _ _ _ Hj) as [[-> ->]|[? Hj']]; [congruence|eauto].
Qed.

Lemma dump_ok_write s ts i w ws :
  dump_ok s ts -> ts !! i = Some (Dumping (w :: ws)) -> dump_ok (write_stdout w s) (<[i := Dumping ws]> ts).
Proof.
  intros D Hi. pose proof (opted_enabled s ts i _ D Hi eq_refl) as Hon.
  pose proof (do_receivers s ts D i _ Hi eq_refl) as Hs.
  apply (dump_ok_move (write_stdout w s) ts i (Dumping (w :: ws))); try done; [|by left].
  destruct D. by split.
Qed.

Section Runs.
Context (logger_throws : nat -> bytes -> option exn).

(** A logger that throws does not stop [start]. *)
Lemma forward_returns sink s :
  forward logger_throws sink s = (match sink with Some id => call_logger id msg s | None => s end, Ok ()).
Proof. destruct sink as [id|]; [|done]. unfold forward, stx_try. by destruct (logger_throws id msg). Qed.

Lemma advance_returns t s : exists s' t', advance logger_throws t s = (s', Ok t').
Proof.
  destruct t as [sink|sink|sink|sink| |chunk|[|w ws]|]; try (by do 2 eexists).
  - unfold advance, debug_dump_request_body_opted_in, mbind, stx_bind. destruct (enabled s); by do 2 eexists.
  - unfold advance. destruct (warning_emitted s); by do 2 eexists.
  - unfold advance, mbind, stx_bind. rewrite forward_returns. by do 2 eexists.
  - unfold advance, debug_dump_request_body_opted_in, mbind, stx_bind. destruct (enabled s); by do 2 eexists.
Qed.

(** Reading the switch settles it. *)
Lemma opted_in_settles s ts s' b :
  dump_ok s ts -> debug_dump_request_body_opted_in s = (s', Ok b) ->
  dump_ok s' ts /\ enabled s' = Some b /\ (enabled s <> None -> s' = s).
Proof.
  unfold debug_dump_request_body_opted_in. intros D E. destruct (enabled s) eqn:He; simplify_eq/=; [by split_and!|].
  split_and!; auto using dump_ok_resolve. done.
Qed.

Lemma dump_ok_run s ts i t s' t' :
  dump_ok s ts -> ts !! i = Some t -> advance logger_throws t s = (s', Ok t') -> dump_ok s' (<[i := t']> ts).
Proof.
  intros D Hi E. destruct t as [sink|sink|sink|sink| |chunk|[|w ws]|];
    unfold advance, mbind, stx_bind, stx_modify, mret, stx_ret in E; rewrite ?forward_returns in E.
  - destruct (debug_dump_request_body_opted_in s) as [s1 [b| |]] eqn:Eb; simplify_eq/=.
    destruct (opted_in_settles _ _ _ _ D Eb) as (D1 & E1 & _).
    apply (dump_ok_move _ _ _ _ _ D1 Hi); try (by destruct b); [by left|].
    intros Hb. left. by destruct b.
  - destruct (warning_emitted s) eqn:He; simplify_eq/=; [|by apply dump_ok_claim].
    apply (dump_ok_move _ _ _ _ _ D Hi); try done; [by right|].
    right. split; [|done]. by eapply opted_enabled.
  - simplify_eq/=. eapply (dump_ok_warner s); try done. intros [E1 E2]. cbn. rewrite E1. done.
  - simplify_eq/=.
    eapply (dump_ok_warner s); try done; [by destruct sink..|]. intros [E1 E2].
    destruct sink as [id|]; cbn; rewrite E1; [|by auto]. rewrite E2. split; [done|]. right. by exists id.
  - simplify_eq/=. by rewrite list_insert_id.
  - destruct (debug_dump_request_body_opted_in s) as [s1 [b| |]] eqn:Eb; simplify_eq/=.
    destruct (opted_in_settles _ _ _ _ D Eb) as (D1 & E1 & _).
    pose proof (do_receivers s ts D i _ Hi eq_refl) as Hs.
    apply (dump_ok_move _ _ _ _ _ D1 Hi); try (by destruct b). by left.
  - simplify_eq/=. pose proof (do_receivers _ ts D i _ Hi eq_refl) as Hs. apply (dump_ok_move _ _ _ _ _ D Hi); try done. by left.
  - simplify_eq/=. by apply dump_ok_write.
  - simplify_eq/=. by rewrite list_insert_id.
Qed.

Lemma dump_ok_step x y : step logger_throws x y -> dump_ok x.1 x.2 -> dump_ok y.1 y.2.
Proof.
  intros [s ts v|s ts sink|s ts chunk Hs|s ts i t s' t' Hi E] D; simpl in *.
  - by apply dump_ok_setenv.
  - by apply dump_ok_spawn.
  - by apply dump_ok_spawn.
  - by eapply dump_ok_run.
Qed.

Lemma advance_keeps_switch t s s' t' b :
  enabled s = Some b -> advance logger_throws t s = (s', Ok t') -> enabled s' = Some b.
Proof.
  intros Hb. destruct t as [sink|sink|sink|sink| |chunk|[|w ws]|];
    unfold advance, debug_dump_request_body_opted_in, mbind, stx_bind, stx_modify, mret, stx_ret; rewrite ?Hb, ?forward_returns; intros E;
    repeat case_match; by simplify_eq/=.
Qed.

Lemma step_keeps_switch b x y : step logger_throws x y -> enabled x.1 = Some b -> enabled y.1 = Some b.
Proof. intros []; simpl; eauto using advance_keeps_switch. Qed.

(** However threads start servers, receive chunks and call [setenv], a
    process in which the switch was off when it was first read writes no chunk
    and no warning; otherwise the warning goes to standard error at most once
    and to at most one error logger after that, and it is there whenever
    something was dumped, unless the thread that claimed it is just about to print
    it.  The switch never changes after its first reading, and no step fails, even
    when a logger throws. *)
Theorem debug_dump_warned_once v s ts :
  rtc (step logger_throws) (launched v, []) (s, ts) ->
  (enabled s <> Some true -> stdout s = [] /\ stderr s = [] /\ logged s = [])
  /\ (stderr s = [] /\ logged s = []
      \/ stderr s = warning_line /\ (logged s = [] \/ exists id, logged s = [(id, msg)]))
  /\ (stdout s <> [] -> (forall sink, Printing sink ∉ ts) -> stderr s = warning_line)
  /\ (forall b s' ts', enabled s = Some b -> rtc (step logger_throws) (s, ts) (s', ts') -> enabled s' = Some b)
  /\ (forall t s, exists s' t', advance logger_throws t s = (s', Ok t')).
Proof.
  intros Hr. assert (D : dump_ok s ts).
  { apply (rtc_preserves _ (fun x => dump_ok x.1 x.2) _ _ dump_ok_step Hr), dump_ok_launched. }
  split_and!.
  - intros H. destruct (do_off s ts D H) as (? & He & _). destruct (do_unclaimed s ts D He) as (? & ? & _). done.
  - destruct (warning_emitted s) eqn:He; [|left; by destruct (do_unclaimed s ts D He) as (? & ? & _)].
    destruct (do_claimed s ts D He) as [(i & t & _ & Hw & Hp)|[Hp _]]; [|by right].
    destruct t; try done; [by left|right]. destruct Hp. auto.
  - intros Hd Hn. destruct (warning_emitted s) eqn:He.
    + destruct (do_claimed s ts D He) as [(i & t & Hi & Hw & Hp)|[[Hp _] _]]; [|done].
      destruct t; try done; [|by destruct Hp]. apply list_elem_of_lookup_2 in Hi. by apply Hn in Hi.
    + pose proof (do_stdout s ts D Hd). destruct (do_unclaimed s ts D He) as (_ & _ & Q & _).
      destruct (enabled s) as [[]|] eqn:Hb; [by destruct Q|..];
        destruct (do_off s ts D ltac:(congruence)) as (? & _); congruence.
  - intros b s' ts' Hb Hr'. apply (rtc_preserves _ (fun x => enabled x.1 = Some b) _ _ (step_keeps_switch b) Hr' Hb).
  - intros. apply advance_returns.
Qed.

End Runs.

(** A run, as what is done next. *)
Inductive command : Type := SetEnv (v : option bytes) | Start (sink : option nat) | Chunk (chunk : bytes) | Run (i : nat).

Section Play.
Context (logger_throws : nat -> bytes -> option exn).

Definition play_one (c : command) (x : process * list task) : option (process * list task) :=
  match c with
  | SetEnv v => Some (set_env v x.1, x.2)
  | Start sink => Some (x.1, x.2 ++ [Starting sink])
  | Chunk chunk => if existsb (fun t => match t with Serving => true | _ => false end) x.2 then Some (x.1, x.2 ++ [Receiving chunk]) else None
  | Run i => t ← x.2 !! i; match advance logger_throws t x.1 with (s, Ok t') => Some (s, <[i := t']> x.2) | _ => None end
  end.

Definition play (cs : list command) (x : process * list task) : option (process * list task) :=
  foldl (fun o c => x ← o; play_one c x) (Some x) cs.

Lemma play_one_step c x y : play_one c x = Some y -> step logger_throws x y.
Proof.
  destruct x as [s ts], c as [v|sink|chunk|i]; simpl; intros E.
  - simplify_eq. constructor.
  - simplify_eq. constructor.
  - destruct (existsb _ ts) eqn:Ex; simplify_eq. constructor.
    apply existsb_exists in Ex as (t & Hin & Ht). destruct t; try done. by apply list_elem_of_In.
  - destruct (ts !! i) as [t|] eqn:Hi; simplify_eq/=.
    destruct (advance logger_throws t s) as [s' [t'| |]] eqn:Ea; simplify_eq/=. by eapply st_run.
Qed.

Lemma play_reach cs x y : play cs x = Some y -> rtc (step logger_throws) x y.
Proof.
  revert x. induction cs as [|c cs IH]; intros x E; unfold play in E; simpl in E; [by injection E as ->|]. destruct (play_one c x) as [z|] eqn:Ez.
  - eapply rtc_l; [by apply play_one_step with c|]. by apply IH.
  - exfalso. clear -E. by induction cs.
Qed.

End Play.

(** A server with a logger that throws starts and receives a chunk. *)
Definition one_server : list command :=
  [Start (Some 7); Run 0; Run 0; Run 0; Run 0; Chunk (bs "pw=1"); SetEnv None; Run 1; Run 1; Run 1; Run 1; Run 1].

Definition throwing (id : nat) (m : bytes) : option exn := Some unknown_exception.

Lemma debug_dump_warned_once_witness :
  exists s ts, play throwing one_server (launched (Some (bs "1")), []) = Some (s, ts)
  /\ stdout s = bs "Writing content: pw=1" ++ [LF] /\ logged s = [(7, msg)] /\ stderr s = warning_line.
Proof.
  destruct (play throwing one_server (launched (Some (bs "1")), [])) as [[s ts]|] eqn:E; [|by vm_compute in E].
  exists s, ts. split; [done|].
  assert (Hout : stdout s = bs "Writing content: pw=1" ++ [LF] /\ logged s = [(7, msg)]
    /\ existsb (fun t => match t with Printing _ => true | _ => false end) ts = false).
  { vm_compute in E. injection E as <- <-. by vm_compute. }
  destruct Hout as (H1 & H2 & H3). split_and!; [done..|].
  apply (debug_dump_warned_once throwing (Some (bs "1")) s ts (play_reach _ _ _ _ E)).
  - rewrite H1. by vm_compute.
  - intros sink Hin. apply not_true_iff_false in H3. apply H3, existsb_exists. exists (Printing sink).
    split; [by apply list_elem_of_In|done].
Defined.

(** Two servers start at once: the second one runs, and its chunk is dumped,
    before the first has printed the warning it claimed. *)
Lemma dump_before_warning : exists s ts,
  rtc (step throwing) (launched (Some (bs "1")), []) (s, ts)
  /\ stderr s = [] /\ stdout s = bs "Writing content: pw=1" ++ [LF].
Proof.
  destruct (play throwing [Start None; Run 0; Run 0; Start None; Run 1; Run 1; Chunk (bs "pw=1"); Run 2; Run 2; Run 2; Run 2]
    (launched (Some (bs "1")), [])) as [[s ts]|] eqn:E; [|by vm_compute in E].
  exists s, ts. split; [by eapply play_reach|]. vm_compute in E. injection E as <- <-. by vm_compute.
Qed.

(** ** Chunks, responses, files *)

Section Chunks.
Context `{RegexEngine, StdHash, MhdCreate, BodyFits} {R : Type} `{HttpRequest R} {App : Type}.
Context (mhd_post_process : R -> bytes -> R) (cfg : Dispatch.config) `{!@Dispatch.UserCode _ R App}.

(** The chunks that are dumped are those the request gets. *)
Lemma dumped_when_kept chunk s s' b :
  Dispatch.answer_chunk mhd_post_process cfg chunk s = (s', Ok b) ->
  dumped cfg true chunk s
  = if Dispatch.has_body (Dispatch.conn s') && negb (Dispatch.skip_handler (Dispatch.conn s'))
    then concat (dump_writes chunk) else [].
Proof.
  unfold Dispatch.answer_chunk, dumped.
  destruct (Dispatch.has_body (Dispatch.conn s)) eqn:Hb; simpl; [|intros [= <- _]; by rewrite Hb].
  destruct (Dispatch.skip_handler (Dispatch.conn s)) eqn:Hk; simpl; [intros [= <- _]; by rewrite Hb, Hk|].
  set (x := if Dispatch.server_gate body_chunk (Dispatch.world_of s) then Dispatch.fire_body_chunk_phase cfg chunk s else (s, None)). assert (Hx : Dispatch.has_body (Dispatch.conn x.1) = true /\ Dispatch.skip_handler (Dispatch.conn x.1) = false).
  { subst x. destruct (Dispatch.server_gate _ _); [|done]. unfold Dispatch.fire_body_chunk_phase.
    destruct (fire_body_chunk _ _). done. }
  destruct x as [s1 [r|]]; simpl in *; destruct Hx as [Hb1 Hk1].
  - intros E. unfold Dispatch.emplace_response, mbind, stx_bind, stx_modify, mret, stx_ret in E. simplify_eq/=.
    by rewrite Hb1.
  - destruct (Dispatch.request (Dispatch.conn s1)); intros E; simplify_eq/=. by rewrite Hb1, Hk1.
Qed.

End Chunks.

(** The number of lines of a text. *)
Definition line_feeds (t : bytes) : nat := length (filter (fun c => c = LF) t).

Lemma line_feeds_app a b : line_feeds (a ++ b) = line_feeds a + line_feeds b.
Proof. unfold line_feeds. by rewrite filter_app, length_app. Qed.

Lemma field_ok_no_lf t : field_ok t = true -> line_feeds t = 0.
Proof.
  unfold field_ok, line_feeds. intros H%negb_true_iff. apply length_zero_iff_nil. induction t as [|c t IH]; [done|].
  simpl in H. apply orb_false_iff in H as [Hc Ht]. rewrite filter_cons_False; [by apply IH|].
  intros ->. by vm_compute in Hc.
Qed.

Definition fields_ok (m : list (bytes * bytes)) : Prop := Forall (fun kv => field_ok kv.1 = true /\ field_ok kv.2 = true) m.

(** One line for a map that is not empty. *)
Lemma dump_header_map_lines prefix m :
  field_ok prefix = true -> fields_ok m ->
  line_feeds (Request.Request.dump_header_map prefix m) = if is_empty m then 0 else 1.
Proof.
  intros Hp Hm. unfold Request.Request.dump_header_map, Request.Request.dump_map_redacted.
  destruct (is_empty m); [done|]. rewrite !line_feeds_app, (field_ok_no_lf prefix Hp).
  assert (Hz : line_feeds (flat_map (fun kv => fst kv ++ bs ":" ++ Request.Request.quoted (snd kv) ++ bs " ") m) = 0); [|by rewrite Hz].
  induction Hm as [|[k v] m [Hk Hv] _ IH]; [done|]. simpl in Hk, Hv. cbn [flat_map]. unfold Request.Request.quoted in *.
  rewrite !line_feeds_app. cbn [fst snd]. by rewrite (field_ok_no_lf k), (field_ok_no_lf v), IH.
Qed.

(** The text of a response has one line and one more for each map that is not
    empty: no field can start a line of its own. *)
Lemma response_text_lines r :
  let (r', text) := print_response r in
  fields_ok (headers_ r') -> fields_ok (footers_ r') -> fields_ok (cookies_ r') ->
  exists rest, text = bs "Response [response_code:" ++ print_int (status_code_ r) ++ bs "]" ++ [LF] ++ rest
  /\ line_feeds rest = (if is_empty (headers_ r') then 0 else 1) + (if is_empty (footers_ r') then 0 else 1)
                       + (if is_empty (cookies_ r') then 0 else 1).
Proof.
  unfold print_response. intros Hh Hf Hc. eexists. split.
  - assert (Hs : status_code_ (ensure_cookie_mirror_ r) = status_code_ r) by (unfold ensure_cookie_mirror_; by case_match).
    by rewrite Hs.
  - rewrite !line_feeds_app, !dump_header_map_lines by done. lia.
Qed.

(** Printing fills the mirror and changes nothing else. *)
Lemma print_response_reads r :
  headers_ (print_response r).1 = headers_ r /\ footers_ (print_response r).1 = footers_ r
  /\ structured_cookies_ (print_response r).1 = structured_cookies_ r /\ body_ (print_response r).1 = body_ r.
Proof. unfold print_response, ensure_cookie_mirror_; simpl. by case_match. Qed.
