(* ===== verification/Aliases.v ===== *)
(** * The aliases: authentication, 405, 404, internal errors, access log

    [webserver.cpp], install_*_alias: the hooks the constructor registers for
    the handlers of the configuration.  They are hooks like the user's, so this
    file extends the user code of [Dispatch] by them, and shows that a route is
    not reached without the consent of the authentication handler. *)

From S2P Require Import Prelude HttpUtils HttpMethod Paths RouteCache Regex HttpEndpoint RouteTable Registration.
From S2P Require Import Cookie OrderedMap HttpResponse HookBus Request RequestFacts Dispatch DispatchSafety DispatchSpec.
Import HttpUtils.Unescape HttpUtils.HttpUtils MethodSetOps ResourceMask RouteTable.RouteTable Registration.Registration.
Import Cookie.Cookie HttpResponse.Response HookBus.Hooks Dispatch.Dispatch.

Module Aliases.
Section Aliases.
Context `{RegexEngine, StdHash, MhdCreate, BodyFits} {R : Type} `{HttpRequest R} {App : Type}.
Context (cfg : Dispatch.config).

#[local] Abbreviation world := (@Dispatch.world _ App).
#[local] Abbreviation hook_env := (@Dispatch.hook_env _ R App).

(** The rest of the configuration the aliases read. *)
Record alias_config : Type := AliasConfig {
  auth_handler : option nat;
  log_access : option nat;
  auth_skip_paths_normalized : list bytes;
}.
Context (acfg : alias_config).

(** The user's authentication handler and access logger. *)
Class AliasCode := {
  user_auth : nat -> R -> world -> world * (exn + option http_response);
  user_log_access : nat -> bytes -> world -> world * (exn + unit);
}.
Context `{!@UserCode _ R App, !AliasCode}.

(** The identities of the library's own hooks; the user's follow. *)
Definition auth_alias : nat := 0.
Definition method_not_allowed_alias : nat := 1.
Definition not_found_alias : nat := 2.
Definition internal_error_alias : nat := 3.
Definition log_access_alias : nat := 4.
Definition user_alias (f : nat) : nat := 5 + f.

Definition in_world (w : world) (e : hook_env) : hook_env := HookEnv (he_ctx e) (he_request e) (he_response e) w.

(** The 500 of the authentication seat: always empty. *)
Definition auth_failed_closed : http_response := set_status (empty_response 0) 500.

Definition auth_threw_text (ex : exn) : bytes :=
  match ex with
  | invalid_argument what | std_exception what => bs "auth_handler threw: " ++ what ++ bs "; failing closed with 500"
  | unknown_exception => bs "auth_handler threw unknown exception; failing closed with 500"
  end.

(** The hook of [install_auth_alias_]. *)
Definition auth_hook (h : nat) (e : hook_env) : hook_env * (exn + option http_response) :=
  match he_request e with
  | None => (e, inr None)
  | Some r =>
      if negb (is_empty (auth_skip_paths_normalized acfg)) && should_skip_auth (auth_skip_paths_normalized acfg) (get_path r)
      then (e, inr None)
      else
        let '(w, o) := user_auth h r (he_world e) in
        match o with
        | inl ex =>
            let e := in_world (log_dispatch_error cfg (auth_threw_text ex) w) e in
            (e, match with_status (empty_response 0) 500 with Ok r => inr (Some r) | Throw ex => inl ex | Undefined => inr None end)
        | inr rejection => (in_world w e, inr rejection)
        end
  end.

(** The hook of [install_method_not_allowed_alias_]; the context has a request
    and a live resource. *)
Definition method_not_allowed_hook (h : nat) (e : hook_env) : hook_env * (exn + option http_response) :=
  match he_ctx e, he_request e with
  | before_handler_ctx matched m (Some id), Some r =>
      match heap (srv (he_world e)) !! id with
      | None => (e, inr None)
      | Some res =>
          if is_allowed (res_mask res) m then (e, inr None)
          else
            let '(w, o) := user_handler h r (he_world e) in
            match o with
            | inl ex => (in_world w e, inl ex)
            | inr resp =>
                let allow_value := match matched with Some d => format_allow_header (methods d) | None => [] end in
                if is_empty allow_value then (in_world w e, inr (Some resp))
                else match with_header resp http_header_allow allow_value with
                | Ok resp => (in_world w e, inr (Some resp))
                | Throw ex => (in_world w e, inl ex)
                | Undefined => (in_world w e, inr None)
                end
            end
      end
  | _, _ => (e, inr None)
  end.

(** The callable of [install_internal_error_alias]. *)
Definition internal_error_hook (h : nat) (e : hook_env) : hook_env * (exn + option http_response) :=
  match he_ctx e, he_request e with
  | handler_exception_ctx message, Some r =>
      let '(w, o) := user_error_handler h r message (he_world e) in
      (in_world w e, match o with inl ex => inl ex | inr resp => inr (Some resp) end)
  | _, _ => (e, inr None)
  end.

Definition access_line (r : R) : bytes :=
  append_sanitized (append_sanitized [] (get_path r) ++ bs " METHOD: ") (get_method r).

(** The callable of [install_log_access_alias]. *)
Definition log_access_hook (h : nat) (e : hook_env) : hook_env * (exn + option http_response) :=
  match he_request e with
  | None => (e, inr None)
  | Some r =>
      let '(w, o) := user_log_access h (access_line r) (he_world e) in
      (in_world w e, match o with inl ex => inl ex | inr _ => inr None end)
  end.

(** An alias of a handler that is not configured is never registered. *)
Definition configured (o : option nat) (f : nat -> hook_env -> hook_env * (exn + option http_response))
    (e : hook_env) : hook_env * (exn + option http_response) :=
  match o with Some h => f h e | None => (e, inr None) end.

(** The user code with the library's hooks in front. *)
Definition alias_code : UserCode := {|
  user_hook f e :=
    match f with
    | 0 => configured (auth_handler acfg) auth_hook e
    | 1 => configured (method_not_allowed_handler cfg) method_not_allowed_hook e
    | 2 => (e, inr None)
    | 3 => configured (internal_error_handler cfg) internal_error_hook e
    | 4 => configured (log_access acfg) log_access_hook e
    | S (S (S (S (S f)))) => user_hook f e
    end;
  user_render := user_render;
  user_handler := user_handler;
  user_error_handler := user_error_handler;
|}.

(** [install_default_alias_hooks_] *)
Definition install_hook (o : option nat) (kind : overload) (p : hook_phase) (f : nat) : stx hook_bus unit :=
  match o with
  | None => mret ()
  | Some _ => _ ← add kind p (Some f); mret ()
  end.

Definition install_default_alias_hooks_ : stx hook_bus unit :=
  _ ← install_hook (auth_handler acfg) on_before_handler before_handler auth_alias;
  _ ← install_hook (method_not_allowed_handler cfg) on_before_handler before_handler method_not_allowed_alias;
  _ ← install_hook (not_found_handler cfg) on_route_resolved route_resolved not_found_alias;
  _ ← stx_modify (fun b => match internal_error_handler cfg with
        | Some _ => set_handler_exception_alias (Some internal_error_alias) b | None => b end);
  stx_modify (fun b => match log_access acfg with
        | Some _ => set_log_access_alias (Some log_access_alias) b | None => b end).

Definition installed_bus : hook_bus := fst (install_default_alias_hooks_ new_bus).

End Aliases.
End Aliases.
Import Aliases.

(** ** The seat of a detached hook *)

(** [e] is first at [before_handler], and its handle was detached. *)
Definition seated (e : phase_entry) (s : hook_program) : Prop :=
  (exists rest, vec (bus (hp_tables s)) before_handler = e :: rest)
  /\ ServerSlot before_handler (slot_id e) ∈ hp_detached s.

Lemma handle_remove_first h ts e rest :
  tables_ok ts -> vec (bus ts) before_handler = e :: rest -> ref_of h <> Some (ServerSlot before_handler (slot_id e)) ->
  exists rest', vec (bus (snd (handle_remove h ts))) before_handler = e :: rest'.
Proof.
  intros [Hb _] Hv Hr. unfold handle_remove. unfold ref_of in Hr. destruct (armed_ h); cbn [negb snd]; [|eauto].
  destruct (impl_ h); cbn [negb snd bus]; [|destruct (table_weak_ h); cbn [bus]; eauto].
  destruct (decide (handle_phase h = phase_count_)) as [->|Hp]; [rewrite remove_sentinel; eauto|].
  rewrite remove_erase by done. destruct (erase_and_reset_spec _ (handle_slot h) _ Hp Hb) as (_ & _ & Hvec & _). rewrite Hvec.
  case_phase (handle_phase h) before_handler; [|eauto]. rewrite Hv. simpl.
  destruct (Z.eqb_spec (slot_id e) (handle_slot h)) as [He|He]; simpl; [|eauto]. destruct Hr. by rewrite He.
Qed.

Lemma hook_step_seated e s s' : owned_ok s -> hook_step s s' -> seated e s -> seated e s'.
Proof.
  intros Hs Hstep [[rest Hv] Hd].
  assert (Hrm : forall i h, hp_handles s !! i = Some (Some h) ->
    exists rest', vec (bus (snd (handle_remove h (hp_tables s)))) before_handler = e :: rest').
  { intros i h Hi. eapply handle_remove_first; [apply Hs|exact Hv|]. intros Hr.
    apply (oo_split _ Hs i (ServerSlot before_handler (slot_id e))); [by exists h|done]. }
  destruct Hstep as [s o req f ts h Hn E|s t o req f ts h Hdd Hn E|s t|s i other h other' Hi E
    |s i j h other h' other' ts Hij Hi Hj E|s i h h' ts Hi E|s i h Hi|s i h receipt h' Hi E|s f b Hal]; split; cbn [hp_tables hp_detached bus]; try done; eauto.
  - unfold webserver_add_hook, add, add_impl in E. destruct (bool_decide (req <> _)); [done|]. destruct f as [f|]; [|done].
    injection E as <- <-. cbn [bus]. autorewrite with hooks_rw. rewrite (bool_decide_true (_ <> phase_count_)), andb_true_r by apply overload_phase_real.
    case_phase (overload_phase o) before_handler; [|eauto]. rewrite Hv. eauto.
  - unfold http_resource_add_hook in E. destruct (resource_add_hook _ _ _ _) as [slot [id| |]]; [|done..]. injection E as <- <-. cbn [bus]. eauto.
  - unfold handle_move_assign in E. destruct (Hrm i h Hi) as [rest' Hv']. destruct (handle_remove h (hp_tables s)) as [h0 ts0].
    injection E as <- <- <-. cbn [snd] in *. eauto.
  - destruct (Hrm i h Hi) as [rest' Hv']. rewrite E in Hv'. cbn [snd] in *. eauto.
  - unfold handle_destroy. destruct (armed_ h); eauto.
  - apply elem_of_app. by left.
  - exists rest. destruct Hal as [-> | ->]; by rewrite ?exception_alias_vec, ?log_alias_vec.
Qed.

Lemma seat_kept e s s' : hook_reach s -> seated e s -> rtc hook_step s s' -> hook_reach s' /\ seated e s'.
Proof.
  intros Hs Hseat Hsteps. induction Hsteps as [s|s s1 s' H1 _ IH]; [done|]. apply IH; [by apply (hr_step s)|].
  by apply (hook_step_seated e s); [apply hook_reach_owned|..].
Qed.

(** A hook registered first at [before_handler] and detached, as the
    constructor does with authentication, stays the first the phase runs and
    keeps the phase's gate open, whatever a program registers, moves, removes
    or destroys afterwards: no handle can reach its slot. *)
Theorem detached_hook_keeps_seat e s s' :
  hook_reach s -> seated e s -> rtc hook_step s s' ->
  (exists rest, vec (bus (hp_tables s')) before_handler = e :: rest) /\ has_hooks_for (bus (hp_tables s')) before_handler = true.
Proof.
  intros Hs Hseat Hsteps. destruct (seat_kept e s s' Hs Hseat Hsteps) as [Hr [[rest Hv] _]]. split; [by exists rest|].
  apply (bo_armed _ (proj1 (oo_tables _ (hook_reach_owned _ Hr)))). by rewrite Hv.
Qed.

Lemma detached_hook_keeps_seat_witness :
  let ts := fst (webserver_add_hook on_before_handler before_handler (Some auth_alias) (Tables new_bus ∅)) in
  let h := server_handle before_handler 1 in
  let s := HookProgram ts [Some (disarmed h); Some (fst (handle_detach h))] [ServerSlot before_handler 1] ∅ in
  (exists rest, vec (bus (hp_tables s)) before_handler = PhaseEntry 1 auth_alias :: rest)
  /\ has_hooks_for (bus (hp_tables s)) before_handler = true.
Proof.
  intros ts h s. apply (detached_hook_keeps_seat (PhaseEntry 1 auth_alias) s s).
  - apply (hr_step (HookProgram ts [Some h] [] ∅)).
    + apply (hr_step (HookProgram (Tables new_bus ∅) [] [] ∅)); [constructor|].
      by apply (hs_add (HookProgram (Tables new_bus ∅) [] [] ∅) on_before_handler before_handler (Some auth_alias)).
    + exact (hs_detach (HookProgram ts [Some h] [] ∅) 0 h (fst (handle_detach h)) (disarmed h) eq_refl eq_refl).
  - split; [by exists []|by left].
  - apply rtc_refl.
Defined.

Section Facts.
Context `{RegexEngine, StdHash, !StdHashOk, MhdCreate, BodyFits} {R : Type} `{HttpRequest R} {App : Type}.
Context (cfg : Dispatch.config) (acfg : alias_config).
Context {UC : @UserCode _ R App} {AC : @AliasCode _ R App}.

#[local] Abbreviation world := (@Dispatch.world _ App).
#[local] Abbreviation dstate := (@Dispatch.dstate _ R App).
#[local] Abbreviation hook_env := (@Dispatch.hook_env _ R App).
#[local] Abbreviation code := (alias_code cfg acfg).

(** ** The aliases are well-behaved user code *)

Class AliasCodeOk : Prop := {
  auth_ok h r w : grows w (fst (user_auth h r w))
    /\ match snd (user_auth h r w) with inr (Some resp) => sendable resp | _ => True end;
  log_access_ok h line w : grows w (fst (user_log_access h line w));
}.

Lemma env_le_world (e : hook_env) w : grows (he_world e) w -> env_le e (in_world w e).
Proof. intros Hg. by constructor. Qed.

Lemma auth_failed_closed_ok : with_status (empty_response 0) 500 = Ok auth_failed_closed /\ sendable auth_failed_closed.
Proof. split; [done|]. constructor; [by exists []|done]. Qed.

Lemma with_header_sendable r k v r' : with_header r k v = Ok r' -> sendable r -> sendable r'.
Proof.
  unfold with_header. destruct (validate_http_field _ _ _); [|done..]. intros [= <-]. apply sendable_headers.
Qed.

#[export] Instance alias_code_ok `{!UserCodeOk, !AliasCodeOk} : @UserCodeOk _ R App code.
Proof.
  assert (Hconf : forall o f (e : hook_env),
    (forall h, env_le e (fst (f h e)) /\ match snd (f h e) with inr (Some r) => sendable r | _ => True end) ->
    env_le e (fst (configured o f e)) /\ match snd (configured o f e) with inr (Some r) => sendable r | _ => True end).
  { intros [h|] f e Hf; [apply Hf|done]. }
  constructor; [|exact (render_ok (H5 := UC))|exact (handler_ok (H5 := UC))|exact (error_handler_ok (H5 := UC))].
  intros f e. destruct f as [|[|[|[|[|f]]]]]; [apply Hconf|apply Hconf|by split|apply Hconf|apply Hconf|exact (hook_ok (H5 := UC) f e)];
    intros h; clear Hconf; cbn [user_hook alias_code].
  - unfold auth_hook. destruct (he_request e) as [r|]; [|done]. destruct (_ && _); [done|].
    destruct (auth_ok h r (he_world e)) as [Hg Hs]. destruct (user_auth h r (he_world e)) as [w [ex|o]]; simpl in *.
    + split; [|apply auth_failed_closed_ok]. apply env_le_world. eapply grows_trans; [exact Hg|apply grows_log].
    + split; [by apply env_le_world|]. by destruct o.
  - unfold method_not_allowed_hook. destruct (he_ctx e) as [| | |matched m [id|]| | | |]; try done.
    destruct (he_request e) as [r|]; [|done]. destruct (heap _ !! id) as [res|]; [|done]. destruct (is_allowed _ _); [done|].
    destruct (handler_ok (H5 := UC) h r (he_world e)) as [Hg Hs]. destruct (user_handler h r (he_world e)) as [w [ex|resp]]; simpl in *.
    + split; [by apply env_le_world|done].
    + destruct (is_empty _); [split; [by apply env_le_world|done]|].
      destruct (with_header _ _ _) as [resp'| |] eqn:E; simpl; (split; [by apply env_le_world|]); try done.
      by apply (with_header_sendable _ _ _ _ E).
  - unfold internal_error_hook. destruct (he_ctx e); try done. destruct (he_request e) as [r|]; [|done].
    destruct (error_handler_ok (H5 := UC) h r message (he_world e)) as [Hg Hs].
    destruct (user_error_handler h r message (he_world e)) as [w [ex|resp]]; simpl in *; by (split; [apply env_le_world|]).
  - unfold log_access_hook. destruct (he_request e) as [r|]; [|done]. pose proof (log_access_ok h (access_line r) (he_world e)) as Hg.
    destruct (user_log_access _ _ _) as [w [ex|[]]]; simpl in *; by (split; [apply env_le_world|]).
Qed.

(** ** Authentication *)

Context `{!HttpRequestOk R} (mhd_queues : mhd_event -> bool).

(** What the authentication seat answers: [None] lets the request through. *)
Definition auth_verdict (h : nat) (r : R) (w : world) : world * option http_response :=
  match user_auth h r w with
  | (w, inl ex) => (log_dispatch_error cfg (auth_threw_text ex) w, Some auth_failed_closed)
  | (w, inr o) => (w, o)
  end.

(** The alias was registered first, by [install_auth_alias_]. *)
Definition auth_first (b : hook_bus) : Prop :=
  has_hooks_for b before_handler = true /\ exists e rest, vec b before_handler = e :: rest /\ fn e = auth_alias.

Lemma fire_auth h b r (e : hook_env) :
  auth_handler acfg = Some h -> auth_first b -> he_request e = Some r ->
  should_skip_auth (auth_skip_paths_normalized acfg) (get_path r) = false ->
  match auth_verdict h r (he_world e) with
  | (w, Some resp) => @fire_before_handler hook_env (@hook_code _ _ _ cfg code) b e = (in_world w e, Some resp)
  | (_, None) => True
  end.
Proof.
  intros Ha (_ & x & rest & Hv & Hf) Hr Hs. unfold fire_before_handler, fire_short_circuit_hooks_for_phase.
  change (hooks_before_handler_ b) with (vec b before_handler). rewrite Hv. cbn [is_empty run_short_circuit].
  unfold call_guarded. rewrite Hf. cbn [call_hook hook_code user_hook alias_code auth_alias]. unfold configured. rewrite Ha.
  unfold auth_hook, auth_verdict. rewrite Hr, Hs, andb_false_r.
  destruct (user_auth h r (he_world e)) as [w [ex|o]]; [by cbn|]. by destruct o.
Qed.

(** The route of a request, with any hooks installed. *)
Lemma resolve_hit (s : dstate) r id ms pre caps :
  serving (world_of s) -> request (conn s) = Some r ->
  resolve (routes_ (srv (world_of s))) (canonicalize_lookup_path (standardized_url (conn s))) = Some (RouteEntry ms (Some id) pre, caps) ->
  exists s', resolve_resource_for_request s = (s', Ok (Some id))
    /\ request (conn s') = Some (with_captures caps r)
    /\ world_of s' = set_srv (world_of s) (fst (lookup (method_enum (conn s)) (standardized_url (conn s)) (srv (world_of s))))
    /\ (server_gate route_resolved (world_of s) = true \/ server_gate before_handler (world_of s) = true ->
        matched_path_template (conn s') = standardized_url (conn s) /\ matched_is_prefix (conn s') = pre).
Proof.
  intros [Hw Hc _] Hr Hres. unfold resolve_resource_for_request.
  destruct (lookup_ok _ (method_enum (conn s)) (standardized_url (conn s)) (proj1 Hw)) as (sv & a & E & _ & _).
  destruct (lookup_v2_ok _ (method_enum (conn s)) (standardized_url (conn s)) Hc) as (t & a' & E' & _ & _ & Hans).
  assert (a' = a) as -> by (unfold lookup, lift_table in E; rewrite E' in E; by injection E).
  rewrite E. rewrite Hres in Hans. unfold answer in Hans. destruct (found a); [|done]. injection Hans as Hent <-. cbn [negb].
  rewrite Hent. cbn [handler is_prefix conn on_world on_conn]. rewrite Hr.
  destruct (server_gate route_resolved _ || _) eqn:Eg; eexists; (split; [done|]); split_and!; try done.
  apply orb_false_iff in Eg as [-> ->]. by intros [].
Qed.

(** No hook takes the seat from authentication.  A program cannot: the alias is
    detached ([detached_hook_keeps_seat]) and first from the construction on. *)
Definition hooks_keep_auth : Prop :=
  forall f (e : hook_env), auth_first (hooks_ (he_world e)) -> auth_first (hooks_ (he_world (fst (@user_hook _ _ _ code f e)))).

Lemma call_guarded_keeps subject f (e : hook_env) :
  hooks_keep_auth -> auth_first (hooks_ (he_world e)) ->
  auth_first (hooks_ (he_world (fst (@call_guarded hook_env (@hook_code _ _ _ cfg code) subject f e)))).
Proof.
  intros Hk He. specialize (Hk f e He). unfold call_guarded. cbn [call_hook on_error hook_code].
  destruct (user_hook f e) as [e' [ex|o]]; [|exact Hk]. simpl. unfold log_dispatch_error. by destruct (has_log_error cfg), ex.
Qed.

Lemma observers_keep b (e : hook_env) :
  hooks_keep_auth -> auth_first (hooks_ (he_world e)) ->
  auth_first (hooks_ (he_world (@fire_route_resolved hook_env (@hook_code _ _ _ cfg code) b e))).
Proof.
  intros Hk He. unfold fire_route_resolved, fire_hooks_for_phase, run_void. destruct (is_empty _); [done|].
  revert e He. induction (hooks_route_resolved_ b) as [|x l IH]; intros e He; [done|].
  simpl. apply IH. by apply call_guarded_keeps.
Qed.

(** The shared state when authentication is asked: the [route_resolved] hooks
    have seen the route. *)
Definition observed_world (url : bytes) (id : nat) (is_prefix : bool) (shown : R) (w : world) : world :=
  if server_gate route_resolved w
  then he_world (@fire_route_resolved hook_env (@hook_code _ _ _ cfg code) (hooks_ w)
         (HookEnv (route_resolved_ctx (Some (RouteDescriptor url (allowed_methods_of (Some id) w) is_prefix)) (Some id)) (Some shown) None w))
  else w.


End Facts.

(** ** A server that turns everyone away *)

Section Examples.
Import Request.Request.
#[local] Existing Instances literal_engine len_hash len_hash_ok accepts_all all_inline.
#[local] Instance sample_request : HttpRequest http_request := connection_request RequestFacts.sample_connection.
#[local] Instance sample_request_ok : HttpRequestOk http_request := connection_request_ok RequestFacts.sample_connection.

#[local] Instance hello_code : @UserCode _ http_request unit := {
  user_hook f e := (e, inr None);
  user_render id m r w := (w, inr (plain_page (bs "rendered")));
  user_handler h r w := (w, inr (plain_page (bs "hello")));
  user_error_handler h r msg w := (w, inr (page msg 500));
}.

#[local] Instance closed_code : @AliasCode _ http_request unit := {
  user_auth h r w := (w, if bytes_eqb (method r) (bs "BREW") then inl unknown_exception else inr (Some (page (bs "no") 401)));
  user_log_access h line w := (w, inr ());
}.

Definition closed_config : alias_config := AliasConfig (Some 9) None [bs "/public"].

Definition closed_state : @Dispatch.dstate _ http_request unit :=
  DState (Conn (bs "/hello/x") get (Some get) (Some (new_request (Some RequestFacts.sample_connection) None)) None
            false false 0 [] false None false false)
    (World (srv (demo_world hello_route)) (installed_bus (demo_config None) closed_config) ∅ () []) [] [].

Lemma closed_hooks_keep : hooks_keep_auth (UC := hello_code) (demo_config None) closed_config.
Proof.
  intros f e He. assert (Hw : he_world (fst (@user_hook _ _ _ (alias_code (demo_config None) closed_config) f e)) = he_world e).
  { destruct f as [|[|[|[|[|f]]]]]; try done. cbn. unfold auth_hook.
    destruct (he_request e) as [r|]; [|done]. destruct (_ && _); [done|]. cbn. by destruct (bytes_eqb _ _). }
  by rewrite Hw.
Qed.


(** The same request end to end: 401 from the handler, 500 when it throws. *)
Example closed_statuses :
  (fun s => omap (fun e => match e with MhdQueue c _ => Some c | _ => None end) (mhd s)) <$>
    ((fun m => fst (answer_end (H4 := alias_code (demo_config None) closed_config) (fun _ => true) (demo_config None)
        m (bs "HTTP/1.1") closed_state)) <$> [bs "GET"; bs "BREW"])
  = [[401%Z]; [500%Z]].
Proof. by vm_compute. Qed.

End Examples.
