(* ===== verification/Config.v ===== *)
(** * Configuration and daemon options

    [create_webserver.hpp], [create_webserver_setters.hpp],
    [create_webserver.cpp] and [daemon_lifecycle.cpp]: the builder with its
    checks, and the option array and flags handed to libmicrohttpd.  The fields
    of [webserver_config] are named by enumerations, one per type. *)

From S2P Require Import Prelude HttpUtils HttpMethod Paths RouteCache Regex HttpEndpoint RouteTable Registration.
From S2P Require Import Cookie OrderedMap IpAddress HttpResponse HookBus Request Upload Dispatch Aliases.
Import HttpUtils.HttpUtils IpAddress.Ip Upload.Upload.

(** The features the library is built with. *)
Class Features := {
  have_bauth : bool;
  have_dauth : bool;
  have_gnutls : bool;
  have_websocket : bool;
  (** [MHD_OPTION_HTTPS_CERT_CALLBACK] is defined *)
  have_cert_callback : bool;
}.

(** [inet_pton]: the octets of an address, if the text is one. *)
Class InetPton := {
  inet_pton4 : bytes -> option (list Z);
  inet_pton6 : bytes -> option (list Z);
}.

Module Config.

(** The [int] fields that must not be negative. *)
Inductive int_field : Type :=
| max_threads | max_connections | memory_limit | connection_timeout | per_IP_connection_limit
| max_thread_stack_size | nonce_nc_size | listen_backlog | address_reuse | tcp_fastopen_queue_size.

(** The [size_t] fields. *)
Inductive size_field : Type :=
| content_size_limit | max_args_count | max_args_bytes | connection_memory_increment.

Inductive bool_field : Type :=
| use_ssl | use_ipv6 | use_dual_stack | debug | pedantic | expose_exception_messages | expose_credentials_in_logs
| basic_auth_enabled | digest_auth_enabled | regex_checking | ip_access_control_enabled | post_process_enabled
| put_processed_data_to_content | generate_random_filename_on_upload | deferred_enabled | single_resource | tcp_nodelay
| no_listen_socket | no_thread_safety | turbo | suppress_date_header | sigpipe_handled_by_app | no_alpn.

Inductive text_field : Type :=
| https_mem_key | https_mem_cert | https_mem_trust | https_priorities | digest_auth_random | file_upload_dir
| https_mem_dhparams | https_key_password | https_priorities_append.

(** The callables; each set one is an identity. *)
Inductive call_field : Type :=
| log_access | log_error | validator | psk_cred_handler | not_found_handler | method_not_allowed_handler
| internal_error_handler | file_cleanup_callback | auth_handler | sni_callback.

#[export] Instance int_field_eq_dec : EqDecision int_field.
Proof. solve_decision. Defined.
#[export] Instance size_field_eq_dec : EqDecision size_field.
Proof. solve_decision. Defined.
#[export] Instance bool_field_eq_dec : EqDecision bool_field.
Proof. solve_decision. Defined.
#[export] Instance text_field_eq_dec : EqDecision text_field.
Proof. solve_decision. Defined.
#[export] Instance call_field_eq_dec : EqDecision call_field.
Proof. solve_decision. Defined.

Inductive start_method_T : Type := INTERNAL_SELECT | THREAD_PER_CONNECTION | EXTERNAL_SELECT.

#[export] Instance start_method_eq_dec : EqDecision start_method_T.
Proof. solve_decision. Defined.

Definition start_method_value (m : start_method_T) : Z :=
  match m with INTERNAL_SELECT => 65544 | THREAD_PER_CONNECTION => 65540 | EXTERNAL_SELECT => 65536 end.

Inductive cred_type_T : Type := NONE | CERTIFICATE | ANON | SRP | PSK | IA.

#[export] Instance cred_type_eq_dec : EqDecision cred_type_T.
Proof. solve_decision. Defined.

Definition cred_type_value (c : cred_type_T) : Z :=
  match c with NONE => -1 | CERTIFICATE => 1 | ANON => 2 | SRP => 3 | PSK => 4 | IA => 5 end.

Record webserver_config : Type := WebserverConfig {
  port : Z;
  start_method : start_method_T;
  ints : int_field -> Z;
  sizes : size_field -> Z;
  switches : bool_field -> bool;
  texts : text_field -> bytes;
  calls : call_field -> option nat;
  unescaper : option (bytes -> bytes);
  bind_address : option sockaddr;
  bind_socket : Z;
  cred_type : cred_type_T;
  default_policy : policy_T;
  file_upload_target : file_upload_target_T;
  auth_skip_paths : list bytes;
  client_discipline_level : Z;
}.

Definition update {K V} `{EqDecision K} (k : K) (v : V) (f : K -> V) : K -> V :=
  fun k' => if decide (k' = k) then v else f k'.

Section Config.
Context `{Features}.

(** The member initialisers. *)
Definition default_config : webserver_config := {|
  port := 9898;
  start_method := INTERNAL_SELECT;
  ints f := match f with connection_timeout => 180 | _ => 0 end;
  sizes f := match f with content_size_limit => 2 ^ 64 - 1 | _ => 0 end;
  switches f := match f with
    | basic_auth_enabled => have_bauth | digest_auth_enabled => have_dauth
    | regex_checking | ip_access_control_enabled | post_process_enabled | put_processed_data_to_content => true
    | _ => false end;
  texts f := match f with file_upload_dir => bs "/tmp" | _ => [] end;
  calls _ := None;
  unescaper := None;
  bind_address := None;
  bind_socket := 0;
  cred_type := NONE;
  default_policy := ACCEPT;
  file_upload_target := FILE_UPLOAD_MEMORY_ONLY;
  auth_skip_paths := [];
  client_discipline_level := -1;
|}%Z.

Definition int_name (f : int_field) : bytes :=
  bs (match f with
  | max_threads => "max_threads" | max_connections => "max_connections" | memory_limit => "memory_limit"
  | connection_timeout => "connection_timeout" | per_IP_connection_limit => "per_IP_connection_limit"
  | max_thread_stack_size => "max_thread_stack_size" | nonce_nc_size => "nonce_nc_size" | listen_backlog => "listen_backlog"
  | address_reuse => "address_reuse" | tcp_fastopen_queue_size => "tcp_fastopen_queue_size" end).

(** [std::to_string(int64_t)] *)
Definition to_string (z : Z) : bytes := if (z <? 0)%Z then bs "-" ++ dec (- z) else dec z.

Definition throw_invalid (name : bytes) (value : Z) (range : bytes) : outcome webserver_config :=
  Throw (invalid_argument (name ++ bs ": " ++ to_string value ++ bs " out of range " ++ range)).

(** The setters of [create_webserver], one constructor per kind. *)
Inductive setter : Type :=
| SetPort (v : Z)
| SetStartMethod (v : start_method_T)
| SetInt (f : int_field) (v : Z)
| SetSize (f : size_field) (v : Z)
| SetBool (f : bool_field) (enable : bool)
(** [listen_socket], [thread_safety], [alpn] store the negated flag *)
| SetNegated (f : bool_field) (enable : bool)
| SetText (f : text_field) (v : bytes)
(** [https_mem_key], [https_mem_cert], [https_mem_trust] load a file *)
| LoadText (f : text_field) (v : outcome bytes)
| SetCall (f : call_field) (v : option nat)
| SetUnescaper (v : option (bytes -> bytes))
| SetBindAddress (v : option sockaddr)
| SetBindAddressText (ip : bytes)
| SetBindSocket (v : Z)
| SetCredType (v : cred_type_T)
| SetDefaultPolicy (v : policy_T)
| SetFileUploadTarget (v : file_upload_target_T)
| SetAuthSkipPaths (v : list bytes)
| SetClientDisciplineLevel (v : Z).

Context `{InetPton}.

(** [bind_address(const std::string&)]: the port is the one set so far. *)
Definition bind_address_text (ip : bytes) (c : webserver_config) : outcome webserver_config :=
  let with_address a ipv6 :=
    WebserverConfig (port c) (start_method c) (ints c) (sizes c)
      (if ipv6 : bool then update use_ipv6 true (switches c) else switches c) (texts c) (calls c) (unescaper c)
      (Some a) (bind_socket c) (cred_type c) (default_policy c) (file_upload_target c) (auth_skip_paths c) (client_discipline_level c) in
  match inet_pton4 ip with
  | Some o => Ok (with_address (AF_INET o (htons (port c))) false)
  | None =>
      match inet_pton6 ip with
      | Some o => Ok (with_address (AF_INET6 o (htons (port c))) true)
      | None => Throw (invalid_argument (bs "bind_address: invalid IP address: " ++ ip))
      end
  end.

Definition apply_setter (s : setter) (c : webserver_config) : outcome webserver_config :=
  let 'WebserverConfig po st iv zs bv ts cs un ba sk cr dp ft sp cd := c in
  match s with
  | SetPort v =>
      if (v <? 0)%Z || (65535 <? v)%Z then throw_invalid (bs "port") v (bs "[0, 65535]")
      else Ok (WebserverConfig v st iv zs bv ts cs un ba sk cr dp ft sp cd)
  | SetStartMethod v => Ok (WebserverConfig po v iv zs bv ts cs un ba sk cr dp ft sp cd)
  | SetInt f v =>
      if (v <? 0)%Z then Throw (invalid_argument (int_name f ++ bs ": " ++ to_string v ++ bs " must be >= 0"))
      else Ok (WebserverConfig po st (update f v iv) zs bv ts cs un ba sk cr dp ft sp cd)
  | SetSize f v => Ok (WebserverConfig po st iv (update f v zs) bv ts cs un ba sk cr dp ft sp cd)
  | SetBool f v => Ok (WebserverConfig po st iv zs (update f v bv) ts cs un ba sk cr dp ft sp cd)
  | SetNegated f v => Ok (WebserverConfig po st iv zs (update f (negb v) bv) ts cs un ba sk cr dp ft sp cd)
  | SetText f v =>
      if bool_decide (f = file_upload_dir) && is_empty v
      then Throw (invalid_argument (bs "file_upload_dir: must not be empty"))
      else Ok (WebserverConfig po st iv zs bv (update f v ts) cs un ba sk cr dp ft sp cd)
  | LoadText f v => v ← v; Ok (WebserverConfig po st iv zs bv (update f v ts) cs un ba sk cr dp ft sp cd)
  | SetCall f v => Ok (WebserverConfig po st iv zs bv ts (update f v cs) un ba sk cr dp ft sp cd)
  | SetUnescaper v => Ok (WebserverConfig po st iv zs bv ts cs v ba sk cr dp ft sp cd)
  | SetBindAddress v => Ok (WebserverConfig po st iv zs bv ts cs un v sk cr dp ft sp cd)
  | SetBindAddressText ip => bind_address_text ip c
  | SetBindSocket v => Ok (WebserverConfig po st iv zs bv ts cs un ba v cr dp ft sp cd)
  | SetCredType v => Ok (WebserverConfig po st iv zs bv ts cs un ba sk v dp ft sp cd)
  | SetDefaultPolicy v => Ok (WebserverConfig po st iv zs bv ts cs un ba sk cr v ft sp cd)
  | SetFileUploadTarget v => Ok (WebserverConfig po st iv zs bv ts cs un ba sk cr dp v sp cd)
  | SetAuthSkipPaths v => Ok (WebserverConfig po st iv zs bv ts cs un ba sk cr dp ft v cd)
  | SetClientDisciplineLevel v =>
      if (v <? -1)%Z then throw_invalid (bs "client_discipline_level") v (bs ">= -1")
      else Ok (WebserverConfig po st iv zs bv ts cs un ba sk cr dp ft sp v)
  end.

(** A chain of setters. *)
Fixpoint apply_setters (l : list setter) (c : webserver_config) : outcome webserver_config :=
  match l with
  | [] => Ok c
  | s :: l => c ← apply_setter s c; apply_setters l c
  end.

End Config.
End Config.
Import Config.

(** ** What libmicrohttpd is asked for *)

(** The values of the flags are libmicrohttpd's. *)
Class MhdFlags := {
  MHD_USE_SSL : Z; MHD_USE_IPv6 : Z; MHD_USE_DUAL_STACK : Z; MHD_USE_DEBUG : Z; MHD_USE_PEDANTIC_CHECKS : Z;
  MHD_USE_SUSPEND_RESUME : Z; MHD_USE_NO_LISTEN_SOCKET : Z; MHD_USE_NO_THREAD_SAFETY : Z; MHD_USE_TURBO : Z;
  MHD_USE_SUPPRESS_DATE_NO_CLOCK : Z; MHD_ALLOW_UPGRADE : Z; MHD_USE_TCP_FASTOPEN : Z;
}.

Module Daemon.

Inductive mhd_option : Type :=
| MHD_OPTION_NOTIFY_COMPLETED | MHD_OPTION_NOTIFY_CONNECTION | MHD_OPTION_URI_LOG_CALLBACK | MHD_OPTION_EXTERNAL_LOGGER
| MHD_OPTION_UNESCAPE_CALLBACK | MHD_OPTION_CONNECTION_TIMEOUT | MHD_OPTION_LISTEN_SOCKET | MHD_OPTION_THREAD_POOL_SIZE
| MHD_OPTION_CONNECTION_LIMIT | MHD_OPTION_CONNECTION_MEMORY_LIMIT | MHD_OPTION_PER_IP_CONNECTION_LIMIT
| MHD_OPTION_THREAD_STACK_SIZE | MHD_OPTION_NONCE_NC_SIZE | MHD_OPTION_HTTPS_MEM_KEY | MHD_OPTION_HTTPS_MEM_CERT
| MHD_OPTION_HTTPS_MEM_TRUST | MHD_OPTION_HTTPS_PRIORITIES | MHD_OPTION_DIGEST_AUTH_RANDOM | MHD_OPTION_HTTPS_CRED_TYPE
| MHD_OPTION_GNUTLS_PSK_CRED_HANDLER | MHD_OPTION_HTTPS_CERT_CALLBACK | MHD_OPTION_LISTEN_BACKLOG_SIZE
| MHD_OPTION_LISTENING_ADDRESS_REUSE | MHD_OPTION_CONNECTION_MEMORY_INCREMENT | MHD_OPTION_TCP_FASTOPEN_QUEUE_SIZE
| MHD_OPTION_SIGPIPE_HANDLED_BY_APP | MHD_OPTION_TLS_NO_ALPN | MHD_OPTION_CLIENT_DISCIPLINE_LVL | MHD_OPTION_HTTPS_MEM_DHPARAMS
| MHD_OPTION_HTTPS_KEY_PASSWORD | MHD_OPTION_HTTPS_PRIORITIES_APPEND | MHD_OPTION_END.

#[export] Instance mhd_option_eq_dec : EqDecision mhd_option.
Proof. solve_decision. Defined.

(** The value of an item: a number, one of the library's callbacks, a C string,
    a text with its size. *)
Inductive option_value : Type :=
| OptInt (v : Z)
| OptCallback
| OptText (s : bytes)
| OptSized (s : bytes).

Record MHD_OptionItem : Type := make_option { opt : mhd_option; val : option_value }.

(** A [size_t] as the [intptr_t] of an item. *)
Definition as_intptr (z : Z) : Z := if (z <? 2 ^ 63)%Z then z else (z - 2 ^ 64)%Z.

Definition push_if (b : bool) (o : mhd_option) (v : option_value) : list MHD_OptionItem :=
  if b then [make_option o v] else [].

Section Daemon.
Context `{Features} (c : webserver_config).

(** [bind_socket] of the lifecycle: the configured one unless zero. *)
Definition lifecycle_socket : option Z := if (bind_socket c =? 0)%Z then None else Some (bind_socket c).

Definition nonzero (f : int_field) : bool := negb (ints c f =? 0)%Z.

Definition add_base_mhd_options : list MHD_OptionItem :=
  [make_option MHD_OPTION_NOTIFY_COMPLETED OptCallback;
   make_option MHD_OPTION_NOTIFY_CONNECTION OptCallback;
   make_option MHD_OPTION_URI_LOG_CALLBACK OptCallback;
   make_option MHD_OPTION_EXTERNAL_LOGGER OptCallback;
   make_option MHD_OPTION_UNESCAPE_CALLBACK OptCallback;
   make_option MHD_OPTION_CONNECTION_TIMEOUT (OptInt (ints c connection_timeout))]
  ++ match lifecycle_socket with Some s => [make_option MHD_OPTION_LISTEN_SOCKET (OptInt s)] | None => [] end
  ++ push_if (nonzero max_threads) MHD_OPTION_THREAD_POOL_SIZE (OptInt (ints c max_threads))
  ++ push_if (nonzero max_connections) MHD_OPTION_CONNECTION_LIMIT (OptInt (ints c max_connections))
  ++ push_if (nonzero memory_limit) MHD_OPTION_CONNECTION_MEMORY_LIMIT (OptInt (ints c memory_limit))
  ++ push_if (nonzero per_IP_connection_limit) MHD_OPTION_PER_IP_CONNECTION_LIMIT (OptInt (ints c per_IP_connection_limit))
  ++ push_if (nonzero max_thread_stack_size) MHD_OPTION_THREAD_STACK_SIZE (OptInt (ints c max_thread_stack_size))
  ++ push_if (have_dauth && nonzero nonce_nc_size) MHD_OPTION_NONCE_NC_SIZE (OptInt (ints c nonce_nc_size)).

Definition has_text (f : text_field) : bool := negb (is_empty (texts c f)).

Definition add_tls_mhd_options : list MHD_OptionItem :=
  (if switches c use_ssl then
     [make_option MHD_OPTION_HTTPS_MEM_KEY (OptText (texts c https_mem_key));
      make_option MHD_OPTION_HTTPS_MEM_CERT (OptText (texts c https_mem_cert))]
     ++ push_if (has_text https_mem_trust) MHD_OPTION_HTTPS_MEM_TRUST (OptText (texts c https_mem_trust))
     ++ push_if (has_text https_priorities) MHD_OPTION_HTTPS_PRIORITIES (OptText (texts c https_priorities))
   else [])
  ++ push_if (have_dauth && has_text digest_auth_random) MHD_OPTION_DIGEST_AUTH_RANDOM (OptSized (texts c digest_auth_random)).

Definition has_call (f : call_field) : bool := match calls c f with Some _ => true | None => false end.

Definition add_gnutls_mhd_options : list MHD_OptionItem :=
  if have_gnutls then
    push_if (bool_decide (cred_type c <> NONE)) MHD_OPTION_HTTPS_CRED_TYPE (OptInt (cred_type_value (cred_type c)))
    ++ push_if (has_call psk_cred_handler && switches c use_ssl) MHD_OPTION_GNUTLS_PSK_CRED_HANDLER OptCallback
    ++ push_if (have_cert_callback && (has_call sni_callback && switches c use_ssl)) MHD_OPTION_HTTPS_CERT_CALLBACK OptCallback
  else [].

Definition add_extended_mhd_options : list MHD_OptionItem :=
  push_if (0 <? ints c listen_backlog)%Z MHD_OPTION_LISTEN_BACKLOG_SIZE (OptInt (ints c listen_backlog))
  ++ push_if (nonzero address_reuse) MHD_OPTION_LISTENING_ADDRESS_REUSE (OptInt (ints c address_reuse))
  ++ push_if (0 <? sizes c connection_memory_increment)%Z MHD_OPTION_CONNECTION_MEMORY_INCREMENT
       (OptInt (as_intptr (sizes c connection_memory_increment)))
  ++ push_if (0 <? ints c tcp_fastopen_queue_size)%Z MHD_OPTION_TCP_FASTOPEN_QUEUE_SIZE (OptInt (ints c tcp_fastopen_queue_size))
  ++ push_if (switches c sigpipe_handled_by_app) MHD_OPTION_SIGPIPE_HANDLED_BY_APP (OptInt 1)
  ++ push_if (switches c no_alpn) MHD_OPTION_TLS_NO_ALPN (OptInt 1)
  ++ push_if (0 <=? client_discipline_level c)%Z MHD_OPTION_CLIENT_DISCIPLINE_LVL (OptInt (client_discipline_level c)).

Definition add_https_extra_options : list MHD_OptionItem :=
  push_if (has_text https_mem_dhparams) MHD_OPTION_HTTPS_MEM_DHPARAMS (OptText (texts c https_mem_dhparams))
  ++ push_if (has_text https_key_password) MHD_OPTION_HTTPS_KEY_PASSWORD (OptText (texts c https_key_password))
  ++ push_if (has_text https_priorities_append) MHD_OPTION_HTTPS_PRIORITIES_APPEND (OptText (texts c https_priorities_append)).

Definition build_mhd_option_array : list MHD_OptionItem :=
  add_base_mhd_options ++ add_tls_mhd_options ++ add_gnutls_mhd_options ++ add_extended_mhd_options
  ++ add_https_extra_options ++ [make_option MHD_OPTION_END (OptInt 0)].

Context `{MhdFlags} (ws_empty use_fastopen : bool).

Definition flag_if (b : bool) (f : Z) (flags : Z) : Z := if b then Z.lor flags f else flags.

Definition compose_transport_flags : Z :=
  flag_if (switches c use_dual_stack) MHD_USE_DUAL_STACK
    (flag_if (switches c use_ipv6) MHD_USE_IPv6 (flag_if (switches c use_ssl) MHD_USE_SSL 0)).

Definition compose_runtime_flags : Z :=
  let flags := flag_if (switches c debug) MHD_USE_DEBUG 0 in
  let flags := flag_if (switches c pedantic) MHD_USE_PEDANTIC_CHECKS flags in
  let flags := flag_if (switches c deferred_enabled) MHD_USE_SUSPEND_RESUME flags in
  let flags := flag_if (switches c no_listen_socket) MHD_USE_NO_LISTEN_SOCKET flags in
  let flags := flag_if (switches c no_thread_safety) MHD_USE_NO_THREAD_SAFETY flags in
  let flags := flag_if (switches c turbo) MHD_USE_TURBO flags in
  let flags := flag_if (switches c suppress_date_header) MHD_USE_SUPPRESS_DATE_NO_CLOCK flags in
  flag_if (have_websocket && negb ws_empty) MHD_ALLOW_UPGRADE flags.

Definition compose_start_flags : Z :=
  flag_if use_fastopen MHD_USE_TCP_FASTOPEN
    (Z.lor (Z.lor (start_method_value (start_method c)) compose_transport_flags) compose_runtime_flags).

End Daemon.
End Daemon.
Import Daemon.

(** ** The configuration of the components *)

Definition registration_config (c : webserver_config) : Registration.config :=
  Registration.Config (switches c single_resource) (switches c regex_checking).

Definition upload_config_of (c : webserver_config) : upload_config :=
  UploadConfig (file_upload_target c) (texts c file_upload_dir) (switches c generate_random_filename_on_upload).

Definition dispatch_config (c : webserver_config) (digest_opaque : bytes) : Dispatch.config := {|
  Dispatch.not_found_handler := calls c not_found_handler;
  Dispatch.method_not_allowed_handler := calls c method_not_allowed_handler;
  Dispatch.internal_error_handler := calls c internal_error_handler;
  Dispatch.has_log_error := has_call c log_error;
  Dispatch.expose_exception_messages := switches c expose_exception_messages;
  Dispatch.post_process_enabled := switches c post_process_enabled;
  Dispatch.put_processed_data_to_content := switches c put_processed_data_to_content;
  Dispatch.unescaper := unescaper c;
  Dispatch.digest_opaque_ := digest_opaque;
  Dispatch.file_cleanup_callback := calls c file_cleanup_callback;
  Dispatch.expose_credentials_in_logs := switches c expose_credentials_in_logs;
  Dispatch.content_size_limit := sizes c content_size_limit;
|}.

Definition alias_config_of (c : webserver_config) : outcome Aliases.alias_config :=
  skip ← normalize_auth_skip_paths (auth_skip_paths c);
  Ok (Aliases.AliasConfig (calls c auth_handler) (calls c log_access) skip).

(** ** The builder keeps the settings in range *)

Section Builder.
Context `{Features, InetPton}.

Record in_range (c : webserver_config) : Prop := {
  ir_port : (0 <= port c <= 65535)%Z;
  ir_ints f : (0 <= ints c f)%Z;
  ir_upload_dir : texts c file_upload_dir <> [];
}.

(** Only the three certificate texts are loaded from files. *)
Definition typed (s : setter) : Prop :=
  match s with LoadText f _ => f = https_mem_key \/ f = https_mem_cert \/ f = https_mem_trust | _ => True end.

Lemma apply_setter_in_range s c c' : typed s -> in_range c -> apply_setter s c = Ok c' -> in_range c'.
Proof.
  intros Ht [Hp Hi Hu]. destruct c as [po st iv zv bv ts cs un ba sk cr dp ft sp cd]. cbn in Hp, Hi, Hu.
  destruct s; cbn [apply_setter]; intros E; try (injection E as <-; by constructor).
  - destruct ((v <? 0)%Z || (65535 <? v)%Z) eqn:Ev; [done|]. injection E as <-. bool_prop. constructor; try done; cbn; lia.
  - destruct (v <? 0)%Z eqn:Ev; [done|]. injection E as <-. bool_prop. constructor; try done. cbn. intros f'.
    unfold update. case_decide; [done|apply Hi].
  - destruct (bool_decide (f = file_upload_dir) && is_empty v) eqn:Ev; [done|]. injection E as <-. constructor; try done. cbn.
    unfold update. destruct (decide (file_upload_dir = f)) as [<-|Hf]; [|done]. cbn in Ev. by apply is_empty_false.
  - destruct v as [v| |]; [|done..]. injection E as <-. constructor; try done. cbn. unfold update.
    destruct (decide (file_upload_dir = f)) as [<-|Hf]; [|done]. by destruct Ht as [?|[?|?]].
  - unfold bind_address_text in E. destruct (inet_pton4 ip); [injection E as <-; by constructor|].
    destruct (inet_pton6 ip); [injection E as <-; by constructor|done].
  - destruct (v <? -1)%Z; [done|]. injection E as <-. by constructor.
Qed.

(** C39: Whatever chain of setters a program calls on a new builder, a chain that
    does not throw leaves a port that fits sixteen bits, a directory for uploads,
    and none of the ten limits negative ([int_field]: the limits on threads,
    connections, memory, stack, nonces and timeouts, the two queue lengths and
    the address reuse).  It says nothing of the two other settings of type [int]:
    the listening socket and the discipline level may be negative
    ([negative_settings_accepted]). *)
Theorem built_config_in_range l c :
  Forall typed l -> apply_setters l default_config = Ok c -> in_range c.
Proof.
  assert (Hd : in_range default_config).
  { constructor; cbn; [lia|intros []; cbn; lia|done]. }
  revert Hd. generalize default_config. intros c0 Hc0 Hl. revert c0 Hc0.
  induction Hl as [|s l Hs Hl IH]; intros c0 Hc0 E; [by injection E as <-|].
  cbn [apply_setters] in E. destruct (apply_setter s c0) as [c1| |] eqn:E1; [|done..].
  by apply (IH c1 (apply_setter_in_range s c0 c1 Hs Hc0 E1)).
Qed.

End Builder.

(** ** The option array *)

Section Options.
Context `{Features} (c : webserver_config).

Definition values (o : mhd_option) (l : list MHD_OptionItem) : list option_value :=
  val <$> List.filter (fun i => bool_decide (opt i = o)) l.

Definition given (b : bool) (v : option_value) : list option_value := if b then [v] else [].

(** The reference: what the configuration says of each option. *)
Definition wanted (o : mhd_option) : list option_value :=
  let number f := given (nonzero c f) (OptInt (ints c f)) in
  let positive f := given (0 <? ints c f)%Z (OptInt (ints c f)) in
  let text f := given (has_text c f) (OptText (texts c f)) in
  let tls := switches c use_ssl in
  match o with
  | MHD_OPTION_NOTIFY_COMPLETED | MHD_OPTION_NOTIFY_CONNECTION | MHD_OPTION_URI_LOG_CALLBACK | MHD_OPTION_EXTERNAL_LOGGER
  | MHD_OPTION_UNESCAPE_CALLBACK => [OptCallback]
  | MHD_OPTION_CONNECTION_TIMEOUT => [OptInt (ints c connection_timeout)]
  | MHD_OPTION_LISTEN_SOCKET => given (negb (bind_socket c =? 0)%Z) (OptInt (bind_socket c))
  | MHD_OPTION_THREAD_POOL_SIZE => number max_threads
  | MHD_OPTION_CONNECTION_LIMIT => number max_connections
  | MHD_OPTION_CONNECTION_MEMORY_LIMIT => number memory_limit
  | MHD_OPTION_PER_IP_CONNECTION_LIMIT => number per_IP_connection_limit
  | MHD_OPTION_THREAD_STACK_SIZE => number max_thread_stack_size
  | MHD_OPTION_NONCE_NC_SIZE => if have_dauth then number nonce_nc_size else []
  | MHD_OPTION_HTTPS_MEM_KEY => given tls (OptText (texts c https_mem_key))
  | MHD_OPTION_HTTPS_MEM_CERT => given tls (OptText (texts c https_mem_cert))
  | MHD_OPTION_HTTPS_MEM_TRUST => if tls then text https_mem_trust else []
  | MHD_OPTION_HTTPS_PRIORITIES => if tls then text https_priorities else []
  | MHD_OPTION_DIGEST_AUTH_RANDOM => given (have_dauth && has_text c digest_auth_random) (OptSized (texts c digest_auth_random))
  | MHD_OPTION_HTTPS_CRED_TYPE => given (have_gnutls && bool_decide (cred_type c <> NONE)) (OptInt (cred_type_value (cred_type c)))
  | MHD_OPTION_GNUTLS_PSK_CRED_HANDLER => given (have_gnutls && has_call c psk_cred_handler && tls) OptCallback
  | MHD_OPTION_HTTPS_CERT_CALLBACK => given (have_gnutls && have_cert_callback && has_call c sni_callback && tls) OptCallback
  | MHD_OPTION_LISTEN_BACKLOG_SIZE => positive listen_backlog
  | MHD_OPTION_LISTENING_ADDRESS_REUSE => number address_reuse
  | MHD_OPTION_CONNECTION_MEMORY_INCREMENT =>
      given (0 <? sizes c connection_memory_increment)%Z (OptInt (as_intptr (sizes c connection_memory_increment)))
  | MHD_OPTION_TCP_FASTOPEN_QUEUE_SIZE => positive tcp_fastopen_queue_size
  | MHD_OPTION_SIGPIPE_HANDLED_BY_APP => given (switches c sigpipe_handled_by_app) (OptInt 1)
  | MHD_OPTION_TLS_NO_ALPN => given (switches c no_alpn) (OptInt 1)
  | MHD_OPTION_CLIENT_DISCIPLINE_LVL => given (0 <=? client_discipline_level c)%Z (OptInt (client_discipline_level c))
  | MHD_OPTION_HTTPS_MEM_DHPARAMS => text https_mem_dhparams
  | MHD_OPTION_HTTPS_KEY_PASSWORD => text https_key_password
  | MHD_OPTION_HTTPS_PRIORITIES_APPEND => text https_priorities_append
  | MHD_OPTION_END => []
  end.

Lemma values_app o l l' : values o (l ++ l') = values o l ++ values o l'.
Proof. unfold values. by rewrite List.filter_app, fmap_app. Qed.

Lemma values_push o b o' v : values o (push_if b o' v) = if decide (o' = o) then given b v else [].
Proof. unfold values, push_if. destruct b; [|by case_decide]. simpl. case_decide; [by rewrite bool_decide_true|by rewrite bool_decide_false]. Qed.

Lemma values_cons o i l : values o (i :: l) = (if decide (opt i = o) then [val i] else []) ++ values o l.
Proof. unfold values. simpl. case_decide; [by rewrite bool_decide_true|by rewrite bool_decide_false]. Qed.

(** The array without its last item. *)
Definition options_before_end : list MHD_OptionItem :=
  add_base_mhd_options c ++ add_tls_mhd_options c ++ add_gnutls_mhd_options c ++ add_extended_mhd_options c ++ add_https_extra_options c.

(** The option array ends in the only end marker, and before it holds every
    option the configuration asks for exactly once, with the configured value,
    and no other: in particular no key, certificate or credential callback
    unless TLS is on. *)
Theorem option_array_matches_config o :
  build_mhd_option_array c = options_before_end ++ [make_option MHD_OPTION_END (OptInt 0)]
  /\ values o options_before_end = wanted o.
Proof.
  split; [unfold build_mhd_option_array, options_before_end; by rewrite <-!app_assoc|].
  unfold options_before_end, add_base_mhd_options, add_tls_mhd_options, add_gnutls_mhd_options, add_extended_mhd_options,
    add_https_extra_options, lifecycle_socket.
  rewrite !values_app, !values_cons.
  destruct (bind_socket c =? 0)%Z eqn:Es, (switches c use_ssl) eqn:Et, have_gnutls eqn:Eg;
    rewrite ?values_app, ?values_cons, ?values_push; destruct o; cbn [opt val decide]; unfold wanted, given, nonzero, has_text; rewrite ?Es, ?Et, ?Eg; simpl;
    rewrite ?app_nil_r, ?andb_false_r, ?andb_true_r; try reflexivity; try (by destruct have_dauth).
Qed.

End Options.

(** ** Examples *)

(** Every feature, and one address of each kind. *)
Definition full_build : Features := Build_Features true true true true true.
Definition loopback_pton : InetPton :=
  Build_InetPton (fun s => if bytes_eqb s (bs "127.0.0.1") then Some [127; 0; 0; 1]%Z else None)
    (fun s => if bytes_eqb s (bs "::1") then Some (replicate 15 0 ++ [1])%Z else None).

Lemma built_config_in_range_witness :
  exists c, apply_setters (H0 := loopback_pton) [SetPort 8080; SetInt max_threads 4; SetBindAddressText (bs "::1")] (default_config (H := full_build)) = Ok c
    /\ port c = 8080%Z /\ switches c use_ipv6 = true /\ in_range c.
Proof.
  eexists. split; [reflexivity|]. split; [done|]. split; [done|].
  apply (@built_config_in_range full_build loopback_pton [SetPort 8080; SetInt max_threads 4; SetBindAddressText (bs "::1")]); [|reflexivity].
  by repeat constructor.
Defined.

(** The port chosen after the bind address does not reach it, and the daemon
    binds to the address. *)
Theorem port_after_bind_address_ignored :
  match apply_setters (H0 := loopback_pton) [SetBindAddressText (bs "127.0.0.1"); SetPort 8080] (default_config (H := full_build)) with
  | Ok c => port c = 8080%Z /\ bind_address c = Some (AF_INET [127; 0; 0; 1]%Z (htons 9898))
  | _ => False
  end.
Proof. by vm_compute. Qed.

(** A negative socket and a negative discipline level are accepted, though every
    setter of an [int] is documented to refuse them; the socket is then handed to
    libmicrohttpd as it is. *)
Theorem negative_settings_accepted :
  match apply_setters (H0 := loopback_pton) [SetBindSocket (-5); SetClientDisciplineLevel (-1)] (default_config (H := full_build)) with
  | Ok c => bind_socket c = (-5)%Z /\ client_discipline_level c = (-1)%Z
      /\ values MHD_OPTION_LISTEN_SOCKET (build_mhd_option_array (H := full_build) c) = [OptInt (-5)]
      /\ values MHD_OPTION_CLIENT_DISCIPLINE_LVL (build_mhd_option_array (H := full_build) c) = []
  | _ => False
  end.
Proof. by vm_compute. Qed.
