(* ===== verification/Lifecycle.v ===== *)
(** * The life of a server

    [webserver.cpp], construction, start and stop: which daemon a server holds,
    the calls that reach it, and the hand-over between a blocked [start] and
    [stop].  Also the small callbacks of [webserver_callbacks.cpp] that do not
    belong to a request: connection notices and the error logger. *)

From S2P Require Import Prelude HttpUtils HttpMethod Paths RouteCache Regex HttpEndpoint RouteTable Registration.
From S2P Require Import Cookie OrderedMap IpAddress HttpResponse HookBus Request Upload Dispatch Aliases Config.
Import HttpUtils.HttpUtils IpAddress.Ip HookBus.Hooks Config.Config Config.Daemon.

Module Lifecycle.

(** What the server does to daemons, in order. *)
Inductive daemon_event : Type :=
| StartDaemon (d : option nat)
| StopDaemon (d : option nat)
| UseDaemon (d : nat)
| ShutdownSocket (s : Z).

Record lifecycle : Type := LifecycleState {
  daemon : option nat;
  running : bool;
  (** the daemons of this process that run *)
  live : gset nat;
  log : list daemon_event;
}.

Definition new_lifecycle : lifecycle := LifecycleState None false ∅ [].

Section Lifecycle.
Context `{Features, MhdFlags}.

(** [MHD_start_daemon]: flags, port, address and options give a handle or null. *)
Context (mhd_start_daemon : gset nat -> Z -> Z -> option sockaddr -> list MHD_OptionItem -> option nat).
Context (c : webserver_config) (ws_empty use_fastopen : bool).

(** [feature_unavailable] *)
Definition feature_unavailable (feature build_flag : bytes) : exn :=
  std_exception (bs "feature '" ++ feature ++ bs "' unavailable: built without " ++ build_flag).

(** The checks of the constructor. *)
Definition check_features : outcome unit :=
  if negb have_gnutls && switches c use_ssl then Throw (feature_unavailable (bs "tls") (bs "HAVE_GNUTLS"))
  else if negb have_bauth && switches c basic_auth_enabled then Throw (feature_unavailable (bs "basic_auth") (bs "HAVE_BAUTH"))
  else if negb have_dauth && switches c digest_auth_enabled then Throw (feature_unavailable (bs "digest_auth") (bs "HAVE_DAUTH"))
  else Ok ().

Definition features : bool * bool * bool * bool := (have_bauth, have_dauth, have_gnutls, have_websocket).

(** [start(false)], and [start(true)] up to the wait. *)
Definition start : stx lifecycle unit := fun s =>
  if bool_decide (start_method c = THREAD_PER_CONNECTION)
     && (nonzero c max_threads || nonzero c max_thread_stack_size)
  then (s, Throw (invalid_argument (bs "Cannot specify maximum number of threads when using a thread per connection")))
  else
    let d := mhd_start_daemon (live s) (compose_start_flags c ws_empty use_fastopen)
      (match bind_address c with None => port c | Some _ => 1%Z end) (bind_address c) (build_mhd_option_array c) in
    let events := log s ++ [StartDaemon d] in
    match d with
    | None => (LifecycleState None (running s) (live s) events,
        Throw (invalid_argument (bs "Unable to connect daemon to port: " ++ dec (port c))))
    | Some d => (LifecycleState (Some d) true ({[d]} ∪ live s) events, Ok ())
    end.

Definition is_running (s : lifecycle) : bool := running s.

Definition stop : stx lifecycle bool := fun s =>
  if negb (running s) then (s, Ok false)
  else
    let live' := match daemon s with Some d => live s ∖ {[d]} | None => live s end in
    let events := log s ++ [StopDaemon (daemon s)]
      ++ match lifecycle_socket c with Some fd => [ShutdownSocket fd] | None => [] end in
    (LifecycleState None false live' events, Ok true).

(** [quiesce], [get_listen_fd], [get_active_connections], [get_bound_port],
    [run], [run_wait], [get_timeout] and [add_connection]: a default
    without a daemon, otherwise what libmicrohttpd answers. *)
Definition call_daemon {A} (default_answer : A) (mhd : nat -> A) : stx lifecycle A := fun s =>
  match daemon s with
  | None => (s, Ok default_answer)
  | Some d => (LifecycleState (daemon s) (running s) (live s) (log s ++ [UseDaemon d]), Ok (mhd d))
  end.

Definition quiesce (mhd_quiesce_daemon : nat -> Z) : stx lifecycle Z := call_daemon (-1)%Z mhd_quiesce_daemon.
Definition get_listen_fd (info : nat -> option Z) : stx lifecycle Z := call_daemon (-1)%Z (fun d => default (-1)%Z (info d)).
Definition get_active_connections (info : nat -> option Z) : stx lifecycle Z := call_daemon 0%Z (fun d => default 0%Z (info d)).
Definition get_bound_port (info : nat -> option Z) : stx lifecycle Z := call_daemon 0%Z (fun d => default 0%Z (info d)).
Definition run (mhd_run : nat -> bool) : stx lifecycle bool := call_daemon false mhd_run.
Definition run_wait (mhd_run_wait : nat -> Z -> bool) (millisec : Z) : stx lifecycle bool :=
  call_daemon false (fun d => mhd_run_wait d millisec).
Definition get_timeout (mhd_get_timeout : nat -> option Z) : stx lifecycle (option Z) := call_daemon None mhd_get_timeout.
Definition add_connection (mhd_add_connection : nat -> Z -> option sockaddr -> bool) (socket : Z) (addr : option sockaddr)
    : stx lifecycle bool := call_daemon false (fun d => mhd_add_connection d socket addr).

(** [get_fdset] fills three sets of descriptors and gives the largest. *)
Definition get_fdset {F} (mhd_get_fdset : nat -> F -> F * option Z) (sets : F) : stx lifecycle (F * option Z) :=
  call_daemon (sets, None) (fun d => mhd_get_fdset d sets).

(** [MHD_stop_daemon] is what waits. *)
Definition stop_and_wait : stx lifecycle unit := _ ← stop; mret ().

(** The destructor stops the server. *)
Definition destroy_webserver (s : lifecycle) : lifecycle := fst (stop s).

(** What a program does with a server. *)
Inductive lifecycle_op : Type :=
| OpStart
| OpStop
| OpStopAndWait
| OpCall.

Definition lifecycle_exec (op : lifecycle_op) (s : lifecycle) : lifecycle :=
  match op with
  | OpStart => fst (start s)
  | OpStop => fst (stop s)
  | OpStopAndWait => fst (stop_and_wait s)
  | OpCall => fst (call_daemon () (fun _ => ()) s)
  end.

End Lifecycle.

(** ** Callbacks outside a request *)

(** [error_log]: the message libmicrohttpd formats, [None] when [vsnprintf]
    fails.  [vsnprintf] writes at most [size - 1] characters and a NUL, and
    returns the full length; its failure is read as a length no string has. *)
Definition vsnprintf (size : nat) (text : bytes) (buffer : bytes) : bytes :=
  let written := take (size - 1) text ++ [NUL] in written ++ drop (length written) buffer.

(** [msg.resize(n)] *)
Definition resize (n : nat) (s : bytes) : bytes := take n s ++ replicate (n - length s) NUL.

Definition error_log (length_error_what : bytes) (text : option bytes) : outcome bytes :=
  match text with
  | None => Throw (std_exception length_error_what)
  | Some text =>
      let msg := vsnprintf 80 text (replicate 80 NUL) in
      let r := length text in
      let msg := if 80 <? r then vsnprintf r text (resize r msg) else msg in
      Ok (resize r msg)
  end.

(** [uri_log]: the context of a request begins with its target, the empty text
    for a null pointer. *)
Definition uri_log (uri : option bytes) : bytes := default [] uri.

(** [unescaper_func]: the length up to the NUL; the text is left alone. *)
Definition unescaper_func (s : option bytes) : nat :=
  match s with None => 0 | Some s => match find_char NUL s with Some n => n | None => length s end end.

(** [connection_notify]: the connection's limits live between the two notices. *)
Inductive notification : Type := MHD_CONNECTION_NOTIFY_STARTED | MHD_CONNECTION_NOTIFY_CLOSED.

Definition connection_notify {W} `{HookCode W} (c : webserver_config) (b : hook_bus) (toe : notification)
    (socket_context : option (Z * Z)) (w : W) : option (Z * Z) * W :=
  match toe with
  | MHD_CONNECTION_NOTIFY_STARTED =>
      (Some (sizes c max_args_count, sizes c max_args_bytes),
       if has_hooks_for b connection_opened then fire_connection_opened b w else w)
  | MHD_CONNECTION_NOTIFY_CLOSED =>
      (None, if has_hooks_for b connection_closed then fire_connection_closed b w else w)
  end.

End Lifecycle.
Import Lifecycle.

(** ** Daemons are stopped once *)

(** Replaying a log: the daemons alive after it, if each call was made on a live
    one. *)
Definition replay_event (alive : option (gset nat)) (e : daemon_event) : option (gset nat) :=
  match alive with
  | None => None
  | Some alive =>
      match e with
      | StartDaemon (Some d) => if decide (d ∈ alive) then None else Some ({[d]} ∪ alive)
      | StartDaemon None => Some alive
      | StopDaemon (Some d) => if decide (d ∈ alive) then Some (alive ∖ {[d]}) else None
      | StopDaemon None => None
      | UseDaemon d => if decide (d ∈ alive) then Some alive else None
      | ShutdownSocket _ => Some alive
      end
  end.

Definition replay (l : list daemon_event) : option (gset nat) := foldl replay_event (Some ∅) l.

Section Life.
Context `{Features, MhdFlags}.
Context (mhd_start_daemon : gset nat -> Z -> Z -> option sockaddr -> list MHD_OptionItem -> option nat).
Context (c : webserver_config) (ws_empty use_fastopen : bool).

(** A new daemon is none of those that run. *)
Hypothesis start_fresh : forall alive flags p a o d, mhd_start_daemon alive flags p a o = Some d -> d ∉ alive.

(** Programs that do not start a running server. *)
Inductive lifecycle_reach : lifecycle -> Prop :=
| lr_new : lifecycle_reach new_lifecycle
| lr_op s op : lifecycle_reach s -> (op = OpStart -> running s = false) ->
    lifecycle_reach (lifecycle_exec mhd_start_daemon c ws_empty use_fastopen op s).

Record life_ok (s : lifecycle) : Prop := {
  lo_running : running s = true -> exists d, daemon s = Some d /\ live s = {[d]};
  lo_stopped : running s = false -> daemon s = None /\ live s = ∅;
  lo_log : replay (log s) = Some (live s);
}.

Lemma replay_snoc l l' : replay (l ++ l') = foldl replay_event (replay l) l'.
Proof. unfold replay. by rewrite foldl_app. Qed.

Lemma start_life_ok s : life_ok s -> running s = false -> life_ok (fst (start mhd_start_daemon c ws_empty use_fastopen s)).
Proof.
  intros [Hr Hs Hl] Hrun. unfold start. destruct (_ && _); [done|]. cbv zeta. destruct (Hs Hrun) as [Hd Hlive].
  destruct (mhd_start_daemon _ _ _ _ _) as [d|] eqn:E; constructor; cbn [fst running daemon live log]; try done.
  - intros _. exists d. split; [done|]. rewrite Hlive. set_solver.
  - rewrite replay_snoc, Hl. cbn [foldl replay_event]. apply start_fresh in E. by rewrite decide_False.
  - intros Hr'. congruence.
  - by rewrite replay_snoc, Hl.
Qed.

Lemma stop_life_ok s : life_ok s -> life_ok (fst (stop c s)) /\ live (fst (stop c s)) = ∅.
Proof.
  intros [Hr Hs Hl]. unfold stop. destruct (running s) eqn:Hrun; cbn [negb fst]; [|split; [constructor; rewrite ?Hrun; done|by apply Hs]].
  destruct (Hr eq_refl) as (d & -> & Hlive). assert (He : live s ∖ {[d]} = ∅) by set_solver.
  split; [|done]. constructor; cbn [running daemon live log]; [done|done|].
  rewrite replay_snoc, Hl. cbn [app foldl replay_event]. rewrite decide_True by set_solver. rewrite He.
  by destruct (lifecycle_socket c).
Qed.

Lemma lifecycle_reach_ok s : lifecycle_reach s -> life_ok s.
Proof.
  induction 1 as [|s op _ IH Hop]; [by constructor|]. destruct op; cbn [lifecycle_exec].
  - apply start_life_ok; [done|by apply Hop].
  - by apply stop_life_ok.
  - unfold stop_and_wait, mbind, stx_bind. pose proof (proj1 (stop_life_ok s IH)) as Hs. by destruct (stop c s) as [s' [u|e|]].
  - unfold call_daemon. destruct (daemon s) as [d|] eqn:Ed; cbn [fst]; [|done]. destruct IH as [Hr Hs Hl].
    constructor; cbn [running daemon live log]; rewrite ?Ed in *; try done.
    rewrite replay_snoc, Hl. cbn [foldl replay_event]. rewrite decide_True; [done|].
    destruct (running s); [|by destruct Hs]. destruct (Hr eq_refl) as (? & [= <-] & ->). set_solver.
Qed.

(** C23: A server that is started only while stopped never loses a daemon: every
    call reaches a daemon that runs, a second [stop] does nothing, and after the
    destructor each daemon it started has been stopped, once. *)
Theorem daemons_stopped_once s :
  lifecycle_reach s ->
  replay (log s) = Some (live s)
  /\ replay (log (destroy_webserver c s)) = Some ∅
  /\ stop c (destroy_webserver c s) = (destroy_webserver c s, Ok false).
Proof.
  intros Hs%lifecycle_reach_ok. destruct (stop_life_ok s Hs) as [Hok He]. split; [apply Hs|]. unfold destroy_webserver.
  split; [by rewrite (lo_log _ Hok), He|]. unfold stop at 1.
  assert (Hrun : running (fst (stop c s)) = false) by (unfold stop; by destruct (running s) eqn:E).
  by rewrite Hrun.
Qed.

End Life.

Lemma resize_prefix n a b : length a = n -> resize n (a ++ b) = a.
Proof. intros <-. unfold resize. rewrite take_app_length, length_app. replace (length a - _) with 0 by lia. apply app_nil_r. Qed.

(** The error logger receives the formatted message when it has fewer than 80
    characters; a longer one arrives with its last character replaced by NUL. *)
Theorem error_log_text w text :
  error_log w (Some text) =
    Ok (if length text <? 80 then text else take (length text - 1) text ++ [NUL]).
Proof.
  unfold error_log. cbv zeta. f_equal. destruct (Nat.ltb_spec (length text) 80) as [Hlt|Hge].
  - rewrite (proj2 (Nat.ltb_ge 80 (length text))) by lia. unfold vsnprintf. rewrite (take_ge text) by lia.
    rewrite <-app_assoc. by apply resize_prefix.
  - assert (Hw : length (take (length text - 1) text ++ [NUL]) = length text) by (rewrite length_app, length_take; simpl; lia).
    destruct (Nat.ltb_spec 80 (length text)) as [Hgt|Hle]; unfold vsnprintf; [by apply resize_prefix|].
    replace (length text) with 80 in * by lia. by apply resize_prefix.
Qed.

(** ** A blocked [start] and [stop]

    The two threads from the moment [start(true)] has set [running]: each step is
    one call or test of the code between which the other may run.  [pthread]'s
    condition variable wakes a sleeper on a signal, and may wake it without. *)

Module Handover.

Inductive party : Type := Starter | Stopper.

Inductive starter_pc : Type := SLock | STest | SSleep | SWake | SUnlock | SReturned.
Inductive stopper_pc : Type := PTest | PLock | PClear | PSignal | PUnlock | PReturned.

Record handover : Type := Hand {
  h_running : bool;
  mutexwait : option party;
  starter : starter_pc;
  stopper : stopper_pc;
}.

(** The label tells a wake-up without a signal. *)
Inductive hand_step : bool -> handover -> handover -> Prop :=
| hs_lock r p : hand_step false (Hand r None SLock p) (Hand r (Some Starter) STest p)
| hs_wait o p : hand_step false (Hand true o STest p) (Hand true None SSleep p)
| hs_leave o p : hand_step false (Hand false o STest p) (Hand false o SUnlock p)
| hs_relock r p : hand_step false (Hand r None SWake p) (Hand r (Some Starter) STest p)
| hs_unlock r o p : hand_step false (Hand r o SUnlock p) (Hand r None SReturned p)
| hs_spurious r o p : hand_step true (Hand r o SSleep p) (Hand r o SWake p)
| hp_test o s : hand_step false (Hand true o s PTest) (Hand true o s PLock)
| hp_idle o s : hand_step false (Hand false o s PTest) (Hand false o s PReturned)
| hp_lock r s : hand_step false (Hand r None s PLock) (Hand r (Some Stopper) s PClear)
| hp_clear r o s : hand_step false (Hand r o s PClear) (Hand false o s PSignal)
| hp_signal r o s : hand_step false (Hand r o s PSignal) (Hand r o (match s with SSleep => SWake | s => s end) PUnlock)
| hp_unlock r o s : hand_step false (Hand r o s PUnlock) (Hand r None s PReturned).

Definition both_running : handover := Hand true None SLock PTest.

(** A run with [n] ordinary steps and [k] wake-ups without a signal. *)
Inductive hand_run : nat -> nat -> handover -> Prop :=
| run_nil : hand_run 0 0 both_running
| run_step n k s s' : hand_run n k s -> hand_step false s s' -> hand_run (S n) k s'
| run_spurious n k s s' : hand_run n k s -> hand_step true s s' -> hand_run n (S k) s'.

End Handover.
Import Handover.

Definition starter_holds (p : starter_pc) : bool := match p with STest | SUnlock => true | _ => false end.
Definition stopper_holds (p : stopper_pc) : bool := match p with PClear | PSignal | PUnlock => true | _ => false end.

(** The mutex has the owner the threads' positions say; the flag is cleared
    exactly by the stopper; no sleeper is left behind. *)
Record hand_ok (s : handover) : Prop := {
  ho_owner : mutexwait s = if starter_holds (starter s) then Some Starter else if stopper_holds (stopper s) then Some Stopper else None;
  ho_excl : starter_holds (starter s) && stopper_holds (stopper s) = false;
  ho_flag : h_running s = match stopper s with PTest | PLock | PClear => true | _ => false end;
  ho_sleep : starter s = SSleep -> match stopper s with PUnlock | PReturned => False | _ => True end;
  ho_left : match starter s with SUnlock | SReturned => h_running s = false | _ => True end;
}.

Lemma hand_step_ok b s s' : hand_step b s s' -> hand_ok s -> hand_ok s'.
Proof.
  intros Hstep [Ho He Hf Hs Hl]. destruct Hstep; cbn in *; constructor; cbn in *; try done;
    repeat match goal with
    | p : stopper_pc |- _ => destruct p; cbn in *; try done
    | p : starter_pc |- _ => destruct p; cbn in *; try done
    end; try naive_solver.
Qed.

(** Ordinary steps go down, a wake-up without a signal goes up by two. *)
Definition hand_measure (s : handover) : nat :=
  (match stopper s with PTest => 5 | PLock => 4 | PClear => 3 | PSignal => 2 | PUnlock => 1 | PReturned => 0 end)
  + (if h_running s
     then match starter s with SLock | SWake => 9 | STest => 8 | SSleep => 7 | SUnlock => 2 | SReturned => 0 end
     else match starter s with SLock | SWake => 4 | STest => 3 | SSleep => 5 | SUnlock => 1 | SReturned => 0 end).

Lemma hand_step_measure b s s' :
  hand_ok s -> hand_step b s s' -> if b then hand_measure s' <= hand_measure s + 2 else hand_measure s' < hand_measure s.
Proof.
  intros [_ _ Hf _ _] Hs. destruct Hs; unfold hand_measure; cbn in *;
    repeat match goal with p : starter_pc |- _ => destruct p | p : stopper_pc |- _ => destruct p end; cbn in *; subst; try done; lia.
Qed.

Lemma hand_run_ok n k s : hand_run n k s -> hand_ok s /\ n + hand_measure s <= 14 + 2 * k.
Proof.
  induction 1 as [|n k s s' _ [Hok Hm] Hs|n k s s' _ [Hok Hm] Hs].
  - split; [by constructor|done].
  - split; [by apply (hand_step_ok _ _ _ Hs)|]. apply hand_step_measure in Hs; [lia|done].
  - split; [by apply (hand_step_ok _ _ _ Hs)|]. apply hand_step_measure in Hs; [lia|done].
Qed.

Lemma hand_progress s : hand_ok s -> starter s = SReturned /\ stopper s = PReturned \/ exists s', hand_step false s s'.
Proof.
  intros [Ho He Hf Hs Hl]. destruct s as [r o st sp]; cbn in *.
  destruct st, sp; cbn in *; subst; try done; try (by left); right; eauto using hand_step; by destruct (Hs eq_refl).
Qed.

(** C22: A blocked [start] returns once [stop] is called: no interleaving loses
    the wake-up or deadlocks, and with [k] wake-ups without a signal both calls
    have returned after at most [14 + 2 k] steps. *)
Theorem blocked_start_returns n k s :
  hand_run n k s ->
  n <= 14 + 2 * k
  /\ (starter s = SReturned /\ stopper s = PReturned \/ exists s', hand_step false s s')
  /\ (starter s = SReturned -> h_running s = false).
Proof.
  intros [Hok Hm]%hand_run_ok. split; [lia|]. split; [by apply hand_progress|].
  intros E. pose proof (ho_left _ Hok) as Hl. by rewrite E in Hl.
Qed.

Lemma blocked_start_returns_witness :
  hand_run 10 0 (Hand false None SReturned PReturned) /\ 10 <= 14 + 2 * 0
  /\ h_running (Hand false None SReturned PReturned) = false.
Proof.
  assert (Hr : hand_run 10 0 (Hand false None SReturned PReturned)).
  { eapply run_step; [|apply (hs_unlock _ (Some Starter))]. eapply run_step; [|apply hs_leave]. eapply run_step; [|apply hs_relock].
    eapply run_step; [|apply (hp_unlock _ (Some Stopper))]. eapply run_step; [|apply (hp_signal _ _ SSleep)].
    eapply run_step; [|apply (hp_clear true)]. eapply run_step; [|apply hp_lock]. eapply run_step; [|apply hp_test].
    eapply run_step; [|apply (hs_wait (Some Starter))]. eapply run_step; [|apply hs_lock]. apply run_nil. }
  destruct (blocked_start_returns 10 0 _ Hr) as (Hn & _ & Hf). split; [exact Hr|]. split; [exact Hn|by apply Hf].
Defined.

(** ** Examples *)

(** libmicrohttpd refuses a second daemon on a port in use. *)
Definition one_daemon (alive : gset nat) (flags p : Z) (a : option sockaddr) (o : list MHD_OptionItem) : option nat :=
  if decide (alive = ∅) then Some 0 else None.

Definition no_flags : MhdFlags := Build_MhdFlags 0 0 0 0 0 0 0 0 0 0 0 0.

Definition demo_start : stx lifecycle unit :=
  start (H := full_build) (H0 := no_flags) one_daemon (default_config (H := full_build)) true false.

Definition demo_stop : stx lifecycle bool := stop (default_config (H := full_build)).

Lemma daemons_stopped_once_witness :
  let s := lifecycle_exec (H := full_build) (H0 := no_flags) one_daemon (default_config (H := full_build)) true false OpStart new_lifecycle in
  running s = true /\ replay (log (destroy_webserver (default_config (H := full_build)) s)) = Some ∅.
Proof.
  intros s. split; [done|].
  apply (@daemons_stopped_once full_build no_flags one_daemon (default_config (H := full_build)) true false); [|by apply lr_op; [apply lr_new|]].
  unfold one_daemon. intros alive _ _ _ _ d. case_decide as E; [|done]. intros [= <-]. subst alive. set_solver.
Defined.

(** Starting a running server again: the failed call forgets the daemon that
    still runs, and no later [stop] or destructor reaches it. *)
Theorem second_start_orphans_daemon :
  let s1 := fst (demo_start new_lifecycle) in
  let '(s2, o) := demo_start s1 in
  let s3 := fst (demo_stop s2) in
  is_ok o = false /\ running s2 = true /\ daemon s2 = None
  /\ snd (demo_stop s2) = Ok true /\ elements (live s3) = [0] /\ daemon s3 = None.
Proof. vm_compute. repeat split. Qed.
