(* ===== verification/Connection.v ===== *)
(** * The memory of a connection

    [detail/connection_state.hpp], [detail/connection_context.hpp],
    [detail/secure_zero.hpp], the constructor of [http_request] and the callbacks
    of [webserver_callbacks.cpp] that create and destroy the objects of a
    connection and its requests.  Objects are identities in a memory; destroying
    one that is not there, or reaching an object in an arena that was reset or
    deleted, is undefined.  Shown: the order in which libmicrohttpd makes its
    callbacks never leads there, leaks nothing, and leaves no byte of a request
    in the memory the next one gets.  The hooks these callbacks fire are in
    [Lifecycle] and [Dispatch]. *)

From S2P Require Import Prelude.

Module Connection.

Definition ARENA_INITIAL_BYTES : nat := 8192.

(** [connection_state]: the initial buffer, where the arena has got to in it,
    whether it has gone on to blocks of its own, and the objects that live in
    it. *)
Record connection_state : Type := ConnectionState {
  initial_buffer_ : list Z;
  bump : nat;
  overflowed : bool;
  objects : gset nat;
}.

Definition new_connection_state : connection_state := ConnectionState (replicate ARENA_INITIAL_BYTES 0%Z) 0 false ∅.

(** [secure_zero], the loop of the portable branch. *)
Fixpoint secure_zero_from (i n : nat) (p : list Z) : list Z :=
  match n with 0 => p | S n => secure_zero_from (S i) n (<[i := 0%Z]> p) end.

Definition secure_zero (p : list Z) (n : nat) : list Z := if n =? 0 then p else secure_zero_from 0 n p.

(** [reset_arena]: [release] gives the memory of every object back. *)
Definition reset_arena (cs : connection_state) : connection_state :=
  ConnectionState (secure_zero (initial_buffer_ cs) ARENA_INITIAL_BYTES) 0 false ∅.

(** An allocation of the arena after [skip] bytes of padding, and what is written
    to it.  What does not fit goes to a new block, and so does all that
    follows. *)
Definition arena_write (skip : nat) (data : list Z) (cs : connection_state) : connection_state :=
  let at_ := bump cs + skip in
  if overflowed cs || (ARENA_INITIAL_BYTES <? at_ + length data)
  then ConnectionState (initial_buffer_ cs) (bump cs) true (objects cs)
  else ConnectionState (list_inserts at_ data (initial_buffer_ cs)) (at_ + length data) false (objects cs).

(** Where the implementation of a request is, which is what its deleter goes
    by. *)
Inductive impl_place : Type :=
| delete_impl_heap (p : nat)
| destroy_impl_arena (state p : nat).

(** [connection_context]: what of it owns something, and whether [ws] is set. *)
Record owned_objects : Type := Context {
  ctx_request : option impl_place;
  ctx_pp : option nat;
  ctx_ws : bool;
}.

(** All live objects, and the two pointers libmicrohttpd keeps. *)
Record memory : Type := Memory {
  states : gmap nat connection_state;
  contexts : gmap nat owned_objects;
  heap_impls : gset nat;
  post_processors : gset nat;
  fresh_id : nat;
  socket_context : option nat;
  con_cls : option nat;
}.

Definition no_memory : memory := Memory ∅ ∅ ∅ ∅ 0 None None.

Definition set_states (m : memory) (v : gmap nat connection_state) : memory :=
  Memory v (contexts m) (heap_impls m) (post_processors m) (fresh_id m) (socket_context m) (con_cls m).
Definition set_contexts (m : memory) (v : gmap nat owned_objects) : memory :=
  Memory (states m) v (heap_impls m) (post_processors m) (fresh_id m) (socket_context m) (con_cls m).
Definition set_heap_impls (m : memory) (v : gset nat) : memory :=
  Memory (states m) (contexts m) v (post_processors m) (fresh_id m) (socket_context m) (con_cls m).
Definition set_post_processors (m : memory) (v : gset nat) : memory :=
  Memory (states m) (contexts m) (heap_impls m) v (fresh_id m) (socket_context m) (con_cls m).
Definition set_socket_context (m : memory) (v : option nat) : memory :=
  Memory (states m) (contexts m) (heap_impls m) (post_processors m) (fresh_id m) v (con_cls m).
Definition set_con_cls (m : memory) (v : option nat) : memory :=
  Memory (states m) (contexts m) (heap_impls m) (post_processors m) (fresh_id m) (socket_context m) v.

Definition new_id : stx memory nat := fun m =>
  (Memory (states m) (contexts m) (heap_impls m) (post_processors m) (S (fresh_id m)) (socket_context m) (con_cls m), Ok (fresh_id m)).

(** Reaching an object through a pointer to it. *)
Definition deref {A} (o : option A) : stx memory A := fun m => (m, match o with Some a => Ok a | None => Undefined end).

(** ** Connections *)

(** [connection_notify], [MHD_CONNECTION_NOTIFY_STARTED]. *)
Definition notify_started : stx memory unit :=
  p ← new_id;
  _ ← stx_modify (fun m => set_states m (<[p := new_connection_state]> (states m)));
  stx_modify (fun m => set_socket_context m (Some p)).

(** [MHD_CONNECTION_NOTIFY_CLOSED]; deleting a null pointer does nothing. *)
Definition notify_closed : stx memory unit :=
  sc ← stx_gets socket_context;
  _ ← match sc with
      | Some p =>
          sts ← stx_gets states;
          _ ← deref (sts !! p);
          stx_modify (fun m => set_states m (delete p (states m)))
      | None => mret ()
      end;
  stx_modify (fun m => set_socket_context m None).

(** ** Requests *)

Definition uri_log : stx memory unit :=
  p ← new_id;
  _ ← stx_modify (fun m => set_contexts m (<[p := Context None None false]> (contexts m)));
  stx_modify (fun m => set_con_cls m (Some p)).

(** [static_cast<connection_context*>( *con_cls)], reached. *)
Definition the_context : stx memory (nat * owned_objects) :=
  cls ← stx_gets con_cls;
  p ← deref cls;
  cs ← stx_gets contexts;
  c ← deref (cs !! p);
  mret (p, c).

(** [pick_resource]: the arena of the connection, or [None] for the heap. *)
Definition pick_resource (m : memory) : option nat := socket_context m.

(** The constructor of [http_request]. *)
Definition new_http_request : stx memory impl_place :=
  res ← stx_gets pick_resource;
  p ← new_id;
  match res with
  | None => _ ← stx_modify (fun m => set_heap_impls m ({[p]} ∪ heap_impls m)); mret (delete_impl_heap p)
  | Some st =>
      sts ← stx_gets states;
      cs ← deref (sts !! st);
      _ ← stx_modify (fun m => set_states m
            (<[st := ConnectionState (initial_buffer_ cs) (bump cs) (overflowed cs) ({[p]} ∪ objects cs)]> (states m)));
      mret (destroy_impl_arena st p)
  end.

(** Reaching the implementation: it lives. *)
Definition reach_impl (i : impl_place) : stx memory unit := fun m =>
  match i with
  | delete_impl_heap p => (m, if decide (p ∈ heap_impls m) then Ok () else Undefined)
  | destroy_impl_arena st p =>
      (m, match states m !! st with
          | Some cs => if decide (p ∈ objects cs) then Ok () else Undefined
          | None => Undefined
          end)
  end.

(** The deleter of [impl_]. *)
Definition delete_impl (i : impl_place) : stx memory unit :=
  _ ← reach_impl i;
  stx_modify (fun m =>
    match i with
    | delete_impl_heap p => set_heap_impls m (heap_impls m ∖ {[p]})
    | destroy_impl_arena st p =>
        set_states m (alter (fun cs => ConnectionState (initial_buffer_ cs) (bump cs) (overflowed cs) (objects cs ∖ {[p]})) st (states m))
    end).

(** The first [answer_to_connection]: [requests_answer_first_step], with or
    without a post-processor. *)
Definition first_call (creates_pp : bool) : stx memory unit :=
  '(p, c) ← the_context;
  i ← new_http_request;
  pp ← (if creates_pp then (q ← new_id; _ ← stx_modify (fun m => set_post_processors m ({[q]} ∪ post_processors m)); mret (Some q))
        else mret None);
  stx_modify (fun m => set_contexts m (<[p := Context (Some i) pp true]> (contexts m))).

(** What the request stores in its arena as it is read: arguments, views,
    credentials. *)
Definition request_stores (skip : nat) (data : list Z) : stx memory unit :=
  '(_, c) ← the_context;
  i ← deref (ctx_request c);
  _ ← reach_impl i;
  match i with
  | delete_impl_heap _ => mret ()
  | destroy_impl_arena st _ => stx_modify (fun m => set_states m (alter (arena_write skip data) st (states m)))
  end.

(** [MHD_destroy_post_processor], on what [pp] holds. *)
Definition destroy_post_processor (pp : option nat) : stx memory unit :=
  match pp with
  | None => mret ()
  | Some q =>
      qs ← stx_gets post_processors;
      _ ← deref (if decide (q ∈ qs) then Some () else None);
      stx_modify (fun m => set_post_processors m (post_processors m ∖ {[q]}))
  end.

(** The dispatcher and a [body_chunk] hook that answers give the post-processor
    back early. *)
Definition drop_pp : stx memory unit :=
  '(p, c) ← the_context;
  _ ← destroy_post_processor (ctx_pp c);
  stx_modify (fun m => set_contexts m (<[p := Context (ctx_request c) None (ctx_ws c)]> (contexts m))).

(** The hooks of [request_completed] look at the request. *)
Definition fire_completed (c : owned_objects) : stx memory unit :=
  if ctx_ws c then (i ← deref (ctx_request c); reach_impl i) else mret ().

(** [request_completed]. *)
Definition request_completed : stx memory unit :=
  cls ← stx_gets con_cls;
  _ ← match cls with
      | None => mret ()
      | Some p =>
          '(_, c) ← the_context;
          _ ← fire_completed c;
          (** [~connection_context], then its members *)
          _ ← destroy_post_processor (ctx_pp c);
          _ ← match ctx_request c with Some i => delete_impl i | None => mret () end;
          stx_modify (fun m => set_contexts m (delete p (contexts m)))
      end;
  _ ← stx_modify (fun m => set_con_cls m None);
  sc ← stx_gets socket_context;
  match sc with
  | None => mret ()
  | Some st =>
      sts ← stx_gets states;
      _ ← deref (sts !! st);
      stx_modify (fun m => set_states m (alter reset_arena st (states m)))
  end.

(** ** The order of the callbacks *)

Inductive callback : Type :=
| CbStarted
| CbUriLog
| CbFirst (creates_pp : bool)
| CbStore (skip : nat) (data : list Z)
| CbDropPP
| CbCompleted
| CbClosed.

Definition callback_exec (cb : callback) : stx memory unit :=
  match cb with
  | CbStarted => notify_started
  | CbUriLog => uri_log
  | CbFirst pp => first_call pp
  | CbStore skip data => request_stores skip data
  | CbDropPP => drop_pp
  | CbCompleted => request_completed
  | CbClosed => notify_closed
  end.

Fixpoint callbacks_exec (l : list callback) : stx memory unit :=
  match l with [] => mret () | cb :: l => _ ← callback_exec cb; callbacks_exec l end.

End Connection.
Import Connection.

(** The order libmicrohttpd documents: a connection is announced before its
    requests and closed after the last is completed; a request is logged, then
    answered in one or more calls, then completed, also when it was never
    answered.  A server may also be given a connection that was not announced. *)
Inductive stage : Type := NoRequest | Logged | Answering.

Definition next_stage (ph : bool * stage) (cb : callback) : option (bool * stage) :=
  match cb, ph with
  | CbStarted, (false, NoRequest) => Some (true, NoRequest)
  | CbUriLog, (b, NoRequest) => Some (b, Logged)
  | CbFirst _, (b, Logged) => Some (b, Answering)
  | (CbStore _ _ | CbDropPP), (b, Answering) => Some (b, Answering)
  | CbCompleted, (b, (Logged | Answering)) => Some (b, NoRequest)
  | CbClosed, (true, NoRequest) => Some (false, NoRequest)
  | _, _ => None
  end.

Fixpoint in_order (ph : bool * stage) (l : list callback) : option (bool * stage) :=
  match l with
  | [] => Some ph
  | cb :: l => match next_stage ph cb with Some ph => in_order ph l | None => None end
  end.

(** ** Zeroing *)

Lemma secure_zero_from_spec n i p : i + n = length p ->
  secure_zero_from i n p = take i p ++ replicate n 0%Z.
Proof.
  revert i p. induction n as [|n IH]; intros i p Hl; cbn [secure_zero_from].
  - by rewrite app_nil_r, take_ge by lia.
  - rewrite IH by (rewrite length_insert; lia).
    rewrite (take_S_r _ i 0%Z) by (apply list_lookup_insert_eq; lia).
    by rewrite take_insert_ge, <-app_assoc by lia.
Qed.

Lemma reset_arena_new cs : length (initial_buffer_ cs) = ARENA_INITIAL_BYTES -> reset_arena cs = new_connection_state.
Proof.
  intros Hl. unfold reset_arena, secure_zero, new_connection_state. destruct (_ =? 0) eqn:E; [by apply Nat.eqb_eq in E|].
  by rewrite secure_zero_from_spec by done.
Qed.

Lemma arena_write_length skip data cs : length (initial_buffer_ (arena_write skip data cs)) = length (initial_buffer_ cs).
Proof. unfold arena_write. destruct (_ || _); [done|]. apply length_inserts. Qed.

Lemma arena_write_objects skip data cs : objects (arena_write skip data cs) = objects cs.
Proof. unfold arena_write. by destruct (_ || _). Qed.

(** ** What lives at each stage *)

(** The states of an open connection, with the arena as [Q] says. *)
Definition open_ok (m : memory) (started : bool) (Q : option nat -> connection_state -> Prop) : Prop :=
  if started then exists p cs, socket_context m = Some p /\ states m = {[p := cs]} /\ Q (Some p) cs
  else socket_context m = None /\ states m = ∅ /\ Q None new_connection_state.

Definition request_live (m : memory) (i : impl_place) (arena : option nat) (cs : connection_state) : Prop :=
  match arena, i with
  | Some st, destroy_impl_arena st' id => st' = st /\ objects cs = {[id]} /\ heap_impls m = ∅
      /\ length (initial_buffer_ cs) = ARENA_INITIAL_BYTES
  | None, delete_impl_heap id => heap_impls m = {[id]}
  | _, _ => False
  end.

Definition pp_live (m : memory) (pp : option nat) : Prop :=
  post_processors m = match pp with Some q => {[q]} | None => ∅ end.

Definition stage_ok (ph : bool * stage) (m : memory) : Prop :=
  match ph.2 with
  | NoRequest => con_cls m = None /\ contexts m = ∅ /\ heap_impls m = ∅ /\ post_processors m = ∅
      /\ open_ok m ph.1 (fun _ cs => cs = new_connection_state)
  | Logged => heap_impls m = ∅ /\ post_processors m = ∅
      /\ (exists q, con_cls m = Some q /\ contexts m = {[q := Context None None false]})
      /\ open_ok m ph.1 (fun _ cs => cs = new_connection_state)
  | Answering => exists q i pp, con_cls m = Some q /\ contexts m = {[q := Context (Some i) pp true]}
      /\ pp_live m pp /\ open_ok m ph.1 (request_live m i)
  end.

Lemma new_state_objects : objects new_connection_state = ∅.
Proof. done. Qed.

Lemma new_state_length : length (initial_buffer_ new_connection_state) = ARENA_INITIAL_BYTES.
Proof. apply length_replicate. Qed.

#[local] Opaque ARENA_INITIAL_BYTES reset_arena new_connection_state arena_write.

#[local] Ltac open_state :=
  repeat match goal with
    | H : _ /\ _ |- _ => destruct H
    | H : exists _, _ |- _ => destruct H
    | i : impl_place |- _ => destruct i; cbn in *; try done
    end; subst.

#[local] Ltac run_callback :=
  unfold notify_started, notify_closed, uri_log, first_call, request_stores, drop_pp, request_completed, the_context, new_http_request,
    fire_completed, delete_impl, destroy_post_processor, pick_resource, mbind, stx_bind, mret, stx_ret, stx_gets, stx_modify, deref, new_id; cbn;
  repeat (first [rewrite lookup_singleton_eq|rewrite decide_True by set_solver|rewrite insert_empty|rewrite insert_singleton_eq
    |rewrite alter_singleton_eq|rewrite delete_singleton_eq]; cbn);
  eexists; split; [reflexivity|]; unfold stage_ok, open_ok, pp_live; cbn.

#[local] Ltac settle :=
  cbn; lazymatch goal with
  | |- exists _, _ => eexists; settle
  | |- _ /\ _ => split; [settle|settle]
  | |- reset_arena _ = _ => apply reset_arena_new; settle
  | |- context [new_connection_state] => first [reflexivity|by rewrite new_state_objects, right_id_L by apply _|apply new_state_length]
  | |- objects (arena_write _ _ _) = _ => by rewrite arena_write_objects
  | |- length (initial_buffer_ (arena_write _ _ _)) = _ => by rewrite arena_write_length
  | |- _ => first [reflexivity|eassumption|set_solver]
  end.

Lemma callback_ok ph cb ph' m :
  stage_ok ph m -> next_stage ph cb = Some ph' ->
  exists m', callback_exec cb m = (m', Ok ()) /\ stage_ok ph' m'.
Proof.
  destruct ph as [b st], m as [sts ctxs hi pps n sc cls]. intros Hs Hn.
  destruct cb as [| |creates|skip data| | |], b, st; cbn in Hn; try discriminate; injection Hn as <-; cbn in Hs |- *; open_state.
  all: try destruct creates; try match goal with pp : option nat |- _ => destruct pp end;
    try match goal with H : pp_live _ _ |- _ => unfold pp_live in H; cbn in H; subst end.
  all: run_callback.

  all: settle.
Qed.

(** C13: From its announcement to its close, with any number of requests, answered,
    short-circuited or never answered, the callbacks of a connection in
    libmicrohttpd's order destroy and reach only objects that live.  Whatever the
    requests store, each one finds the arena as it was when the connection was
    made, all zeros; and once a request is completed nothing of it is left, once
    the connection is closed nothing at all. *)
Theorem connection_memory_safe l open st :
  in_order (false, NoRequest) l = Some (open, st) ->
  exists m, callbacks_exec l no_memory = (m, Ok ())
    /\ (st <> Answering -> heap_impls m = ∅ /\ post_processors m = ∅
         /\ forall p cs, states m !! p = Some cs -> cs = new_connection_state)
    /\ (st = NoRequest -> contexts m = ∅ /\ con_cls m = None)
    /\ (open = false -> states m = ∅ /\ socket_context m = None).
Proof.
  assert (Hrun : forall l ph m ph', stage_ok ph m -> in_order ph l = Some ph' ->
    exists m', callbacks_exec l m = (m', Ok ()) /\ stage_ok ph' m').
  { clear. induction l as [|cb l IH]; intros ph m ph' Hs; cbn [in_order callbacks_exec].
    - intros [= <-]. by exists m.
    - destruct (next_stage ph cb) as [ph1|] eqn:E; [|done]. intros Hl.
      destruct (callback_ok ph cb ph1 m Hs E) as (m1 & E1 & Hs1). destruct (IH _ _ _ Hs1 Hl) as (m' & E' & Hs').
      exists m'. unfold mbind, stx_bind. by rewrite E1. }
  intros Hl. destruct (Hrun l (false, NoRequest) no_memory (open, st)) as (m & E & Hs); [by split_and!|done|].
  exists m. split; [done|]. clear Hl E Hrun.
  assert (Hnew : forall b, open_ok m b (fun _ cs => cs = new_connection_state) ->
    forall p cs, states m !! p = Some cs -> cs = new_connection_state).
  { intros [] Ho p cs; cbn in Ho.
    - destruct Ho as (p' & cs' & _ & -> & ->). by intros [_ <-]%lookup_singleton_Some.
    - destruct Ho as (_ & -> & _). by rewrite lookup_empty. }
  destruct st; cbn in Hs.
  - destruct Hs as (? & ? & ? & ? & Ho). split_and!; [eauto|done|]. intros ->. by destruct Ho as (? & ? & _).
  - destruct Hs as (? & ? & _ & Ho). split_and!; [eauto|done|]. intros ->. by destruct Ho as (? & ? & _).
  - destruct Hs as (? & ? & ? & _ & _ & _ & Ho). split_and!; [done|done|]. intros ->. by destruct Ho as (? & ? & _).
Qed.

(** Two requests on one connection, the first with a form and a short-circuit, the
    second never answered. *)
Definition two_requests : list callback :=
  [CbStarted; CbUriLog; CbFirst true; CbStore 3 [104; 105]%Z; CbDropPP; CbCompleted; CbUriLog].

Lemma connection_memory_safe_witness :
  in_order (false, NoRequest) two_requests = Some (true, Logged)
  /\ exists m, callbacks_exec two_requests no_memory = (m, Ok ()) /\ heap_impls m = ∅
      /\ forall p cs, states m !! p = Some cs -> cs = new_connection_state.
Proof.
  assert (Hl : in_order (false, NoRequest) two_requests = Some (true, Logged)) by reflexivity. split; [exact Hl|].
  destruct (connection_memory_safe two_requests true Logged Hl) as (m & E & Hm & _). exists m. split; [exact E|].
  assert (Hst : Logged <> Answering) by discriminate. destruct (Hm Hst) as (H1 & _ & H3). split; [exact H1|exact H3].
Defined.

(** What a request stores stays in the arena until the request is
    completed, and not after. *)
Example stored_then_zeroed :
  let stored l := match callbacks_exec l no_memory with
    | (m, Ok _) => map (fun kv => take 5 (initial_buffer_ (snd kv))) (map_to_list (states m)) | _ => [] end in
  stored (take 4 two_requests) = [[0; 0; 0; 104; 105]%Z] /\ stored two_requests = [[0; 0; 0; 0; 0]%Z].
Proof. by vm_compute. Qed.
