(* ===== verification/WebSocket.v ===== *)
(** * WebSockets

    [ws_registry.cpp], [websocket_upgrader.cpp] and [websocket_handler.cpp], built
    with websocket support: the registry of handlers, the handshake, and the
    session that runs on the upgraded socket.  libmicrohttpd's frame encoder and
    decoder, the socket and the user's handlers are parameters. *)

From S2P Require Import Prelude HttpUtils.
Import HttpUtils.HttpUtils.

(** [encode]: the frame of a payload, if libmicrohttpd makes one.  [send]: what the
    socket answers for the rest of a buffer, after [n] earlier calls. *)
Inductive frame_kind : Type := TextFrame | BinaryFrame | PingFrame | PongFrame | CloseFrame (code : Z).

Inductive decode_status : Type :=
| STATUS_TEXT_FRAME | STATUS_BINARY_FRAME | STATUS_PING_FRAME | STATUS_CLOSE_FRAME | STATUS_OK | STATUS_OTHER.

Class WsLibrary (Stream : Type) := {
  encode : frame_kind -> bytes -> option bytes;
  send : nat -> bytes -> Z;
  (** status, bytes consumed, payload *)
  decode : Stream -> bytes -> Stream * decode_status * nat * option bytes;
}.

Module WebSocket.

(** ** The registry *)

#[local] Abbreviation registry := (gmap bytes nat).

Definition try_register (url_key : bytes) (handler : nat) (r : registry) : registry * bool :=
  match r !! url_key with Some _ => (r, false) | None => (<[url_key := handler]> r, true) end.
Definition unregister (url_key : bytes) (r : registry) : registry := delete url_key r.
Definition find (url : bytes) (r : registry) : option nat := r !! url.
Definition registry_empty (r : registry) : bool := bool_decide (r = ∅).

Definition register_ws_resource (resource : bytes) (handler : option nat) : stx registry unit := fun r =>
  match handler with
  | None => (r, Throw (invalid_argument (bs "The websocket_handler pointer cannot be null")))
  | Some h =>
      let '(r, ok) := try_register (standardize_url resource) h r in
      (r, if ok : bool then Ok () else Throw (invalid_argument (bs "A websocket_handler is already registered at this path")))
  end.

Definition unregister_ws_resource (resource : bytes) (r : registry) : registry := unregister (standardize_url resource) r.

(** ** The handshake *)

Definition lower (c : ascii) : ascii := if ((65 <=? code c) && (code c <=? 90))%Z then chr (code c + 32) else c.

Definition equal_nocase (a b : bytes) : bool := bytes_eqb (map lower a) (map lower b).

(** [strcasestr(s, needle) != nullptr] *)
Fixpoint strcasestr (s needle : bytes) : bool :=
  equal_nocase (take (length needle) s) needle
  || match s with [] => false | _ :: s => strcasestr s needle end.

Definition validate_websocket_handshake (header : bytes -> option bytes) : option bytes :=
  match header (bs "Connection"), header (bs "Sec-WebSocket-Version"), header (bs "Sec-WebSocket-Key") with
  | Some connection_header, Some ws_version, Some ws_key =>
      if strcasestr connection_header (bs "Upgrade") && bytes_eqb ws_version (bs "13") && negb (is_empty ws_key)
      then Some ws_key else None
  | _, _, _ => None
  end.

(** What [try_handle] does with the request: leaves it to the dispatcher, makes an
    upgrade response that it drops again before doing so, answers 400, or queues
    the upgrade for a handler with the accept header.  [Upgrade] turns this into
    the calls of libmicrohttpd. *)
Inductive upgrade_outcome : Type :=
| NotHandled
| Abandoned (handler : nat)
| BadRequest
| Upgrading (handler : nat) (accept_header : bytes).

(** libmicrohttpd may fail to make the response or the accept header. *)
Definition complete_websocket_upgrade (mhd_creates : nat -> bool) (create_accept_header : bytes -> option bytes)
    (url ws_key : bytes) (r : registry) : upgrade_outcome :=
  match find url r with
  | None => NotHandled
  | Some h =>
      if negb (mhd_creates h) then NotHandled
      else match create_accept_header ws_key with
      | None => Abandoned h
      | Some accept => Upgrading h accept
      end
  end.

Definition try_handle (header : bytes -> option bytes) (mhd_creates : nat -> bool) (create_accept_header : bytes -> option bytes)
    (url : bytes) (r : registry) : upgrade_outcome :=
  match header (bs "Upgrade") with
  | Some u =>
      if equal_nocase u (bs "websocket") then
        match validate_websocket_handshake header with
        | None => BadRequest
        | Some key => complete_websocket_upgrade mhd_creates create_accept_header url key r
        end
      else NotHandled
  | None => NotHandled
  end.

(** ** Sessions *)

(** What happens on the socket and to the resources of a session. *)
Inductive ws_event : Type :=
| Wire (kind : frame_kind) (data : bytes) (complete : bool)
| FreeFrame
| FreeStream
| CloseUpgrade.

Inductive handler_event : Type :=
| on_open
| on_message (text : bytes)
| on_binary (data : bytes)
| on_ping (payload : bytes)
| on_close (code : Z) (reason : bytes).

Inductive session_op : Type :=
| OpSendText (msg : bytes)
| OpSendBinary (data : bytes)
| OpSendPing (payload : bytes)
| OpSendPong (payload : bytes)
| OpClose (code : Z) (reason : bytes).

(** How [upgrade_handler] ends: it returns; or an exception leaves it, and since
    nothing catches it there and libmicrohttpd, which is C, called it, the process
    terminates; or it ran into undefined behaviour. *)
Inductive session_end : Type :=
| Ended
| Terminated (e : exn)
| Wild.

Section Session.
Context {Stream App : Type} `{WsLibrary Stream}.

Record session : Type := Session {
  valid : bool;
  ws_stream : Stream;
  sends : nat;
  events : list ws_event;
}.

Definition emit (e : ws_event) (s : session) : session := Session (valid s) (ws_stream s) (sends s) (events s ++ [e]).
Definition invalidate (s : session) : session := Session false (ws_stream s) (sends s) (events s).

(** The loop of [send_all]; [done] is what went out.  The fuel is the length of
    the data: every call but the last sends at least one byte. *)
Fixpoint send_loop (fuel : nat) (data done : bytes) (n : nat) : bytes * bool * nat :=
  match fuel with
  | 0 => (done, is_empty data, n)
  | S fuel =>
      if is_empty data then (done, true, n)
      else
        let ret := send n data in
        if (ret <=? 0)%Z then (done, false, S n)
        else send_loop fuel (drop (Z.to_nat ret) data) (done ++ take (Z.to_nat ret) data) (S n)
  end.

Definition send_all (kind : frame_kind) (data : bytes) (s : session) : session * bool :=
  let '(out, ok, n) := send_loop (length data) data [] (sends s) in
  (Session (valid s) (ws_stream s) n (events s ++ [Wire kind out ok]), ok).

(** [send_text], [send_binary]: a frame that cannot be encoded is dropped. *)
Definition send_data (kind : frame_kind) (payload : bytes) (s : session) : session :=
  if negb (valid s) then s
  else match encode kind payload with
  | None => s
  | Some frame =>
      let '(s, ok) := send_all kind frame s in
      emit FreeFrame (if ok : bool then s else invalidate s)
  end.

(** [send_ping], [send_pong]: one that cannot be encoded ends the session. *)
Definition send_control_frame (kind : frame_kind) (payload : bytes) (s : session) : session :=
  if negb (valid s) then s
  else match encode kind payload with
  | None => invalidate s
  | Some frame =>
      let '(s, ok) := send_all kind frame s in
      emit FreeFrame (if ok : bool then s else invalidate s)
  end.

Definition close_session (code : Z) (reason : bytes) (s : session) : session :=
  if negb (valid s) then s
  else
    let s := invalidate s in
    match encode (CloseFrame code) reason with
    | None => s
    | Some frame => emit FreeFrame (fst (send_all (CloseFrame code) frame s))
    end.

Definition session_exec (op : session_op) (s : session) : session :=
  match op with
  | OpSendText m => send_data TextFrame m s
  | OpSendBinary d => send_data BinaryFrame d s
  | OpSendPing p => send_control_frame PingFrame p s
  | OpSendPong p => send_control_frame PongFrame p s
  | OpClose code reason => close_session code reason s
  end.

(** The user's handler: calls on the session, seeing [is_valid()] after each, up
    to its return or throw. *)
Inductive handler_program : Type :=
| Return (a : App)
| Raise (e : exn)
| Do (op : session_op) (k : bool -> handler_program).

Fixpoint run_program (p : handler_program) (s : session) : session * (exn + App) :=
  match p with
  | Return a => (s, inr a)
  | Raise e => (s, inl e)
  | Do op k => let s := session_exec op s in run_program (k (valid s)) s
  end.

(** The handlers of [websocket_handler] that do nothing by default, and
    [on_ping]. *)
Definition default_handler (ev : handler_event) (a : App) : handler_program :=
  match ev with on_ping payload => Do (OpSendPong payload) (fun _ => Return a) | _ => Return a end.

Context (handler : handler_event -> App -> handler_program).

(** The state of the upgrade handler: the user's data and the session. *)
#[local] Abbreviation ws_state := (App * session)%type.

Definition call_handler (ev : handler_event) : stx ws_state unit := fun '(a, s) =>
  let '(s, o) := run_program (handler ev a) s in
  match o with inr a => ((a, s), Ok ()) | inl e => ((a, s), Throw e) end.

Definition on_session (f : session -> session) : stx ws_state unit := stx_modify (fun '(a, s) => (a, f s)).

Definition byte_at (d : bytes) (i : nat) : Z := default 0%Z (code <$> d !! i).

Definition handle_close_frame (frame : bytes) : stx ws_state unit :=
  let '(close_code, close_reason) :=
    if 2 <=? length frame then (Z.lor (Z.shiftl (byte_at frame 0) 8) (byte_at frame 1), drop 2 frame)
    else (1000%Z, []) in
  _ ← call_handler (on_close close_code close_reason);
  on_session (close_session close_code close_reason).

Definition free_frame (frame : option bytes) : stx ws_state unit :=
  match frame with Some _ => on_session (emit FreeFrame) | None => mret () end.

(** A data or control frame comes with its payload. *)
Definition dispatch_websocket_frame (status : decode_status) (frame : option bytes) : stx ws_state unit :=
  let payload := default [] frame in
  match status with
  | STATUS_TEXT_FRAME => _ ← call_handler (on_message payload); on_session (emit FreeFrame)
  | STATUS_BINARY_FRAME => _ ← call_handler (on_binary payload); on_session (emit FreeFrame)
  | STATUS_PING_FRAME => _ ← call_handler (on_ping payload); on_session (emit FreeFrame)
  | STATUS_CLOSE_FRAME => _ ← handle_close_frame payload; on_session (emit FreeFrame)
  | STATUS_OK => free_frame frame
  | STATUS_OTHER => _ ← free_frame frame; on_session (close_session 1002 (bs "Protocol error"))
  end.

Definition set_stream (st : Stream) (s : session) : session := Session (valid s) st (sends s) (events s).

(** The decoding loop; each round but the last consumes a byte, so the length of
    the buffer is fuel enough. *)
Fixpoint decode_loop (fuel : nat) (buf : bytes) : stx ws_state unit := fun '(a, s) =>
  match fuel with
  | 0 => ((a, s), Ok ())
  | S fuel =>
      if is_empty buf || negb (valid s) then ((a, s), Ok ())
      else
        let '(st, status, step, frame) := decode (ws_stream s) buf in
        (_ ← dispatch_websocket_frame status frame;
         if step =? 0 then mret () else decode_loop fuel (drop step buf)) (a, set_stream st s)
  end.

Definition decode_websocket_buffer (buf : bytes) : stx ws_state unit := decode_loop (length buf) buf.

(** The receive loop over what the socket delivers, up to its end. *)
Fixpoint receive_loop (input : list bytes) : stx ws_state unit := fun '(a, s) =>
  match input with
  | [] => ((a, s), Ok ())
  | buf :: input =>
      if negb (valid s) then ((a, s), Ok ())
      else (_ ← decode_websocket_buffer buf; receive_loop input) (a, s)
  end.

(** The destructor of the session. *)
Definition destroy_session (s : session) : session := emit CloseUpgrade (emit FreeStream s).

(** [upgrade_handler]: [stream] is what [MHD_websocket_stream_init] makes.  The
    destructor of the session runs when the function returns; when the process
    terminates nothing says that the stack is unwound. *)
Definition upgrade_handler (stream : option Stream) (extra_in : bytes) (input : list bytes) (a : App) : list ws_event * session_end :=
  match stream with
  | None => ([CloseUpgrade], Ended)
  | Some st =>
      let '((_, s), o) :=
        (_ ← call_handler on_open;
         _ ← (if is_empty extra_in then mret () else decode_websocket_buffer extra_in);
         receive_loop input) (a, Session true st 0 []) in
      match o with
      | Ok _ => (events (destroy_session s), Ended)
      | Throw e => (events s, Terminated e)
      | Undefined => (events s, Wild)
      end
  end.

End Session.
End WebSocket.
Import WebSocket.

(** ** Registration and handshake *)

(** Registering makes the standardised URL find the handler, leaves the others
    alone, and refuses a second handler. *)
Lemma register_ws_resource_spec resource h r :
  let k := standardize_url resource in
  register_ws_resource resource (Some h) r =
    match r !! k with
    | Some _ => (r, Throw (invalid_argument (bs "A websocket_handler is already registered at this path")))
    | None => (<[k := h]> r, Ok ())
    end.
Proof. unfold register_ws_resource, try_register. cbv zeta. by destruct (r !! standardize_url resource). Qed.

(** A well-formed websocket handshake. *)
Definition handshake (header : bytes -> option bytes) (key : bytes) : Prop :=
  exists u c, header (bs "Upgrade") = Some u /\ equal_nocase u (bs "websocket") = true
    /\ header (bs "Connection") = Some c /\ strcasestr c (bs "Upgrade") = true
    /\ header (bs "Sec-WebSocket-Version") = Some (bs "13")
    /\ header (bs "Sec-WebSocket-Key") = Some key /\ key <> [].

Definition asks_websocket (header : bytes -> option bytes) : Prop :=
  exists u, header (bs "Upgrade") = Some u /\ equal_nocase u (bs "websocket") = true.

Lemma validate_handshake header key :
  asks_websocket header -> validate_websocket_handshake header = Some key <-> handshake header key.
Proof.
  intros (u & Eu & Ew). unfold validate_websocket_handshake, handshake. split.
  - destruct (header (bs "Connection")) as [c|] eqn:Ec; [|done].
    destruct (header (bs "Sec-WebSocket-Version")) as [v|] eqn:Ev; [|done].
    destruct (header (bs "Sec-WebSocket-Key")) as [k|] eqn:Ek; [|done].
    destruct (_ && _) eqn:E; [|done]. intros [= ->]. bool_prop.
    match goal with H : bytes_eqb v _ = true |- _ => apply bytes_eqb_true in H as -> end.
    match goal with H : is_empty key = false |- _ => apply is_empty_false in H end. by exists u, c.
  - intros (u' & c & E1 & _ & -> & -> & -> & -> & Hk). by destruct key.
Qed.

Lemma handshake_asks header key : handshake header key -> asks_websocket header.
Proof. intros (u & _ & E & Ew & _). by exists u. Qed.

Lemma handshake_key header k k' : handshake header k -> handshake header k' -> k = k'.
Proof. intros (? & ? & _ & _ & _ & _ & _ & E & _) (? & ? & _ & _ & _ & _ & _ & E' & _). by simplify_eq. Qed.

(** A request is upgraded exactly when it is a well-formed websocket handshake for
    a URL with a registered handler (and libmicrohttpd makes the response and its
    accept header); one that asks for a websocket otherwise is answered with 400;
    any other is left to the dispatcher. *)
Lemma handshake_decides header creates accept url r :
  match try_handle header creates accept url r with
  | Upgrading h a => exists k, handshake header k /\ r !! url = Some h /\ creates h = true /\ accept k = Some a
  | BadRequest => asks_websocket header /\ forall k, ~ handshake header k
  | NotHandled => ~ asks_websocket header \/ exists k, handshake header k
      /\ match r !! url with Some h => creates h = false | None => True end
  | Abandoned h => exists k, handshake header k /\ r !! url = Some h /\ creates h = true /\ accept k = None
  end.
Proof.
  unfold try_handle. destruct (header (bs "Upgrade")) as [u|] eqn:Eu; [|left; intros (? & ? & _); by simplify_eq].
  destruct (equal_nocase u (bs "websocket")) eqn:Ew; [|left; intros (u' & ? & ?); simplify_eq; by rewrite Ew in *].
  assert (Ha : asks_websocket header) by by exists u.
  destruct (validate_websocket_handshake header) as [k|] eqn:Ev.
  2: { split; [done|]. intros k Hk%(validate_handshake _ _ Ha). by rewrite Ev in Hk. }
  apply (validate_handshake _ _ Ha) in Ev. unfold complete_websocket_upgrade, find.
  destruct (r !! url) as [h|] eqn:Er; [|right; by exists k]. destruct (creates h) eqn:Ec; cbn [negb]; [|right; by exists k].
  destruct (accept k) as [a|] eqn:Ea; by exists k.
Qed.

Section Wire.
Context {Stream App : Type} `{WsLibrary Stream}.
Implicit Types s : @session Stream.

(** What goes out is a prefix of the data, the whole of it exactly when the loop
    succeeds. *)
Lemma send_loop_prefix fuel data done n out ok n' :
  length data <= fuel -> send_loop fuel data done n = (out, ok, n') ->
  exists rest, done ++ data = out ++ rest /\ (if ok then rest = [] else rest <> []).
Proof.
  revert data done n. induction fuel as [|fuel IH]; intros data done n Hl; cbn [send_loop].
  { destruct data; [|simpl in Hl; lia]. intros [= <- <- <-]. by exists []. }
  destruct data as [|b data]; cbn [is_empty]; [intros [= <- <- <-]; by exists []|].
  destruct (send n (b :: data) <=? 0)%Z eqn:E; [intros [= <- <- <-]; by exists (b :: data)|]. bool_prop.
  intros Hs. apply IH in Hs as (rest & Hr & Hok).
  - exists rest. split; [|done]. by rewrite <-Hr, <-app_assoc, take_drop.
  - rewrite length_drop. simpl in *. lia.
Qed.

(** [send_all] puts on the socket a prefix of the frame, in order and without
    repetition however the socket splits it: the whole frame when it reports
    success, and less than the frame when it reports failure. *)
Theorem send_all_delivers kind data s :
  exists out rest ok, events (fst (send_all kind data s)) = events s ++ [Wire kind out ok]
    /\ snd (send_all kind data s) = ok /\ data = out ++ rest /\ (if ok then rest = [] else rest <> []).
Proof.
  unfold send_all. destruct (send_loop (length data) data [] (sends s)) as [[out ok] n] eqn:E.
  apply send_loop_prefix in E as (rest & Hr & Hok); [|done]. by exists out, rest, ok.
Qed.

(** ** What a session puts on the wire *)

Definition whole (e : ws_event) : Prop :=
  match e with Wire (CloseFrame _) _ _ => False | Wire _ _ ok => ok = true | FreeFrame => True | _ => False end.

Definition silent (e : ws_event) : Prop := e = FreeFrame.

(** Whole frames, and at most one last frame: the close frame or a broken one. *)
Definition disciplined (l : list ws_event) : Prop :=
  exists before after, l = before ++ after /\ Forall whole before
    /\ (after = [] \/ exists k d ok rest, after = Wire k d ok :: rest /\ Forall silent rest).

Record session_ok s : Prop := {
  sk_open : valid s = true -> Forall whole (events s);
  sk_shape : disciplined (events s);
}.

Lemma disciplined_free l : disciplined l -> disciplined (l ++ [FreeFrame]).
Proof.
  intros (before & after & -> & Hb & Ha). destruct Ha as [-> |(k & d & ok & rest & -> & Hr)].
  - exists (before ++ [FreeFrame]), []. rewrite !app_nil_r. split_and!; [done| |by left]. apply Forall_app. by repeat constructor.
  - exists before, (Wire k d ok :: rest ++ [FreeFrame]). rewrite <-app_assoc. split_and!; [done..|]. right.
    exists k, d, ok, (rest ++ [FreeFrame]). split; [done|]. apply Forall_app. by repeat constructor.
Qed.

Lemma session_ok_free s : session_ok s -> session_ok (emit FreeFrame s).
Proof.
  intros [Ho Hs]. constructor; cbn [emit valid events]; [|by apply disciplined_free].
  intros Hv. apply Forall_app. split; [by apply Ho|by repeat constructor].
Qed.

Lemma session_ok_invalidate s : session_ok s -> session_ok (invalidate s).
Proof. intros [Ho Hs]. by constructor. Qed.

(** A frame sent from an open session: the session stays open only after a whole
    frame that is not a close frame. *)
Lemma send_all_ok kind data s :
  Forall whole (events s) ->
  let s' := fst (send_all kind data s) in
  valid s' = valid s /\ session_ok (invalidate s')
  /\ (snd (send_all kind data s) = true -> (forall c, kind <> CloseFrame c) -> session_ok s').
Proof.
  intros Hw. unfold send_all. destruct (send_loop (length data) data [] (sends s)) as [[out ok] n]. cbn [fst snd valid].
  assert (Hd : disciplined (events s ++ [Wire kind out ok])).
  { exists (events s), [Wire kind out ok]. split_and!; [done..|]. right. by exists kind, out, ok, []. }
  split; [done|]. split; [by constructor|]. intros -> Hk. constructor; [|done]. intros _. apply Forall_app. split; [done|].
  repeat constructor. destruct kind; cbn [whole]; try done. by destruct (Hk code).
Qed.

Lemma session_exec_ok op s : session_ok s -> session_ok (session_exec op s).
Proof.
  intros Hs. assert (Hcommon : forall kind frame, (forall c, kind <> CloseFrame c) -> valid s = true ->
    session_ok (let '(s1, ok) := send_all kind frame s in emit FreeFrame (if ok : bool then s1 else invalidate s1))).
  { intros kind frame Hk Hv. destruct (send_all_ok kind frame s) as (_ & Hi & Ho); [by apply Hs|].
    destruct (send_all kind frame s) as [s1 ok]. apply session_ok_free. cbn [fst snd] in *. destruct ok; [by apply Ho|done]. }
  destruct op; cbn [session_exec]; unfold send_data, send_control_frame, close_session;
    (destruct (valid s) eqn:Hv; cbn [negb]; [|done]); (destruct (encode _ _) as [frame|]; [|by first [done|apply session_ok_invalidate]]);
    try (by apply Hcommon).
  apply session_ok_free. destruct (send_all_ok (CloseFrame code) frame (invalidate s)) as (Hv' & Hi & _); [by apply Hs|].
  destruct (send_all (CloseFrame code) frame (invalidate s)) as [s1 ok]. cbn [fst] in *. by destruct s1; cbn in Hv'; subst.
Qed.

Lemma run_program_ok (p : @handler_program App) s : session_ok s -> session_ok (fst (run_program p s)).
Proof.
  revert s. induction p as [a|e|op k IH]; intros s Hs; [done..|]. cbn [run_program]. by apply IH, session_exec_ok.
Qed.

Context (handler : handler_event -> App -> @handler_program App).

(** An exception that one of the user's handlers throws. *)
Definition raised (e : exn) : Prop := exists ev a s, snd (run_program (handler ev a) s) = inl e.

(** Steps that keep the discipline, never run into undefined behaviour and throw
    only what a handler threw. *)
Definition keeps_wire (f : stx (App * @session Stream) unit) : Prop :=
  forall a s, session_ok s -> session_ok (snd (fst (f (a, s))))
    /\ match snd (f (a, s)) with Ok _ => True | Throw e => raised e | Undefined => False end.

Lemma keeps_bind f g : keeps_wire f -> keeps_wire g -> keeps_wire (_ ← f; g).
Proof.
  intros Hf Hg a s Hs. unfold mbind, stx_bind. specialize (Hf a s Hs).
  destruct (f (a, s)) as [[a1 s1] [[]| |]]; cbn [fst snd] in *; [by apply Hg, Hf|done..].
Qed.

Lemma keeps_call ev : keeps_wire (call_handler handler ev).
Proof.
  intros a s Hs. unfold call_handler. pose proof (run_program_ok (handler ev a) s Hs).
  destruct (run_program (handler ev a) s) as [s1 [e|a1]] eqn:E; [|done]. split; [done|]. exists ev, a, s. by rewrite E.
Qed.

Lemma keeps_session f : (forall s, session_ok s -> session_ok (f s)) -> keeps_wire (on_session f).
Proof. intros Hf a s Hs. split; [by apply Hf|done]. Qed.

Lemma keeps_ret : keeps_wire (mret ()).
Proof. by intros a s Hs. Qed.

Lemma keeps_dispatch status frame : keeps_wire (dispatch_websocket_frame handler status frame).
Proof.
  assert (Hfree : keeps_wire (on_session (emit FreeFrame))) by apply keeps_session, session_ok_free.
  assert (Hclose : forall code reason, keeps_wire (on_session (close_session code reason))).
  { intros code reason. apply keeps_session. intros s. apply (session_exec_ok (OpClose code reason)). }
  assert (Hf : keeps_wire (free_frame frame)) by (destruct frame; [done|apply keeps_ret]).
  destruct status; cbn [dispatch_websocket_frame]; try (by apply keeps_bind; [apply keeps_call|]); [|done|by apply keeps_bind].
  apply keeps_bind; [|done]. unfold handle_close_frame. destruct (2 <=? _); by apply keeps_bind; [apply keeps_call|].
Qed.

Lemma session_ok_stream st s : session_ok s -> session_ok (set_stream st s).
Proof. intros [Ho Hs]. by constructor. Qed.

Lemma keeps_decode fuel buf : keeps_wire (decode_loop handler fuel buf).
Proof.
  revert buf. induction fuel as [|fuel IH]; intros buf a s Hs; cbn [decode_loop]; [done|].
  destruct (is_empty buf || negb (valid s)); [done|]. destruct (decode (ws_stream s) buf) as [[[st status] step] frame].
  apply (keeps_bind (dispatch_websocket_frame handler status frame) (if step =? 0 then mret () else decode_loop handler fuel (drop step buf)));
    [apply keeps_dispatch| |by apply session_ok_stream]. destruct (step =? 0); [apply keeps_ret|apply IH].
Qed.

Lemma keeps_receive input : keeps_wire (receive_loop handler input).
Proof.
  induction input as [|buf input IH]; intros a s Hs; cbn [receive_loop]; [done|].
  destruct (negb (valid s)); [done|].
  apply (keeps_bind (decode_websocket_buffer handler buf) (receive_loop handler input)); [apply keeps_decode|done|done].
Qed.

(** C36: Whatever the client sends and whatever the user's handlers do, a session
    puts whole frames on the wire followed by at most one last frame, the close
    frame or one the socket broke off; nothing follows it.  Unless a handler
    throws, the session ends by freeing the frame stream and closing the
    connection, once each.  (A handler that throws terminates the process:
    [throwing_handler_terminates].) *)
Theorem session_wire_discipline stream extra_in input a :
  exists l, disciplined l
    /\ match upgrade_handler handler stream extra_in input a with
       | (out, Ended) => out = l ++ (match stream with Some _ => [FreeStream] | None => [] end) ++ [CloseUpgrade]
       | (out, Terminated e) => out = l /\ raised e
       | (_, Wild) => False
       end.
Proof.
  unfold upgrade_handler. destruct stream as [st|]; [|exists []; split; [by exists [], []; auto|done]].
  set (f := _ ← call_handler handler on_open; _).
  assert (Hf : keeps_wire f).
  { apply keeps_bind; [apply keeps_call|]. apply keeps_bind; [|apply keeps_receive].
    destruct (is_empty extra_in); [apply keeps_ret|apply keeps_decode]. }
  assert (Hs0 : session_ok (Session true st 0 [])) by (constructor; [done|]; by exists [], []; auto).
  destruct (Hf a _ Hs0) as [Hs Ho]. destruct (f (a, Session true st 0 [])) as [[a1 s1] o]. cbn [fst snd] in *.
  exists (events s1). split; [apply Hs|]. destruct o; [|done|done]. cbn [destroy_session emit events]. by rewrite <-app_assoc.
Qed.

(** C38: Decoding a buffer terminates: each round consumes a byte or is the last,
    so with the length of the buffer as fuel, or any more, the loop ends by its
    own condition and gives the same result. *)
Theorem decode_loop_terminates fuel buf st :
  length buf <= fuel -> decode_loop handler fuel buf st = decode_websocket_buffer handler buf st.
Proof.
  unfold decode_websocket_buffer.
  assert (Hgen : forall n fuel buf st, length buf <= n -> length buf <= fuel -> decode_loop handler fuel buf st = decode_loop handler n buf st).
  { clear. induction n as [|n IH]; intros [|fuel] buf [a s] Hn Hf; cbn [decode_loop]; [done| | |].
    - destruct buf; [done|simpl in Hn; lia].
    - destruct buf; [done|simpl in Hf; lia].
    - destruct buf as [|b buf]; [done|]. cbn [is_empty orb]. destruct (negb (valid s)); [done|].
      destruct (decode (ws_stream s) (b :: buf)) as [[[st status] step] frame]. unfold mbind, stx_bind.
      destruct (dispatch_websocket_frame handler status frame (a, set_stream st s)) as [s1 [[]| |]]; [|done..].
      destruct (step =? 0) eqn:E; [done|]. bool_prop. apply IH; rewrite length_drop; simpl in *; lia. }
  intros Hl. by apply Hgen.
Qed.

End Wire.

(** ** Examples *)

(** Frames of one byte: [t] a text, [p] a ping, [c] a close, anything else none; a
    socket that takes two bytes at a time. *)
Definition toy_library : WsLibrary unit := {|
  encode kind payload := Some (bs "[" ++ payload ++ bs "]");
  send n data := Z.min 2 (Z.of_nat (length data));
  decode st data :=
    match data with
    | c :: _ =>
        ((), if ascii_eqb c "t" then STATUS_TEXT_FRAME else if ascii_eqb c "p" then STATUS_PING_FRAME
             else if ascii_eqb c "c" then STATUS_CLOSE_FRAME else STATUS_OK, 1, Some [c])
    | [] => ((), STATUS_OK, 0, None)
    end;
|}.

(** Counts its messages and answers pings. *)
Definition counting_handler (ev : handler_event) (n : nat) : @handler_program nat :=
  match ev with on_message _ => Return (S n) | ev => default_handler ev n end.

Example ping_then_close :
  upgrade_handler (H := toy_library) counting_handler (Some ()) [] [bs "tp"; bs "ctt"; bs "p"] 0
  = ([FreeFrame; Wire PongFrame (bs "[p]") true; FreeFrame; FreeFrame;
      Wire (CloseFrame 1000) (bs "[]") true; FreeFrame; FreeFrame; FreeStream; CloseUpgrade], Ended).
Proof. by vm_compute. Qed.

(** A handler that throws on its second message takes the process down. *)
Theorem throwing_handler_terminates :
  upgrade_handler (H := toy_library)
    (fun ev n => match ev with on_message _ => if n =? 1 then Raise (std_exception (bs "boom")) else Return (S n) | _ => Return n end)
    (Some ()) [] [bs "tt"; bs "t"] 0
  = ([FreeFrame], Terminated (std_exception (bs "boom"))).
Proof. by vm_compute. Qed.

Lemma decode_loop_terminates_witness :
  length (bs "tpt") <= 7
  /\ decode_loop (H := toy_library) counting_handler 7 (bs "tpt") (0, Session true () 0 [])
     = decode_websocket_buffer (H := toy_library) counting_handler (bs "tpt") (0, Session true () 0 []).
Proof.
  assert (Hl : length (bs "tpt") <= 7) by (simpl; lia). split; [exact Hl|].
  exact (decode_loop_terminates (H := toy_library) counting_handler 7 (bs "tpt") _ Hl).
Defined.
