(* ===== verification/Upgrade.v ===== *)
(** * Websocket requests in the dispatcher

    [request_dispatcher.cpp], [finalize_answer] with websocket support: the probe
    that comes before everything else, and the calls of libmicrohttpd that
    [websocket_upgrader.cpp] makes for its outcome.  Shown: what a server without
    hooks does with a handshake, and two cases where the probe overrides an answer
    that would otherwise have been given: that of a hook of an earlier phase, and
    that of the authentication handler. *)

From S2P Require Import Prelude HttpMethod RouteCache Regex Registration.
From S2P Require Import HttpResponse HookBus Request RequestFacts Dispatch DispatchSafety DispatchSpec Aliases WebSocket.
Import MethodSetOps Registration.Registration HttpResponse.Response HookBus.Hooks Dispatch.Dispatch WebSocket.WebSocket.

Module Upgrade.

Section Upgrade.
Context `{RegexEngine, StdHash, MhdCreate, BodyFits} {R : Type} `{HttpRequest R} {App : Type}.
Context (mhd_queues : mhd_event -> bool) (mhd_create_post_processor : bytes -> bool) (mhd_post_process : R -> bytes -> R).
Context (cfg : Dispatch.config) `{!@UserCode _ R App}.

#[local] Abbreviation dstate := (@Dispatch.dstate _ R App).

(** The headers of the request, the accept header libmicrohttpd computes from a
    key, and the registered handlers. *)
Context (header : bytes -> option bytes) (create_accept_header : bytes -> option bytes) (ws_ : gmap bytes nat).

Definition bad_response : mhd_response := MhdResponse (create_from_persistent_buffer []) [] [].

Definition upgrade_response (handler : nat) (accept_header : option bytes) : mhd_response :=
  MhdResponse (create_for_upgrade handler)
    ((bs "Upgrade", bs "websocket") :: match accept_header with Some a => [(bs "Sec-WebSocket-Accept", a)] | None => [] end) [].

(** [MHD_queue_response] and [MHD_destroy_response]. *)
Definition queue_and_destroy (status : Z) (r : mhd_response) : stx dstate bool := fun s =>
  (on_mhd (MhdDestroy r) (on_mhd (MhdQueue status r) s), Ok (mhd_queues (MhdQueue status r))).

(** A null response is refused. *)
Definition perform (o : upgrade_outcome) : stx dstate (option bool) :=
  match o with
  | NotHandled => mret None
  | Abandoned h => _ ← stx_modify (on_mhd (MhdDestroy (upgrade_response h None))); mret None
  | BadRequest =>
      if mhd_accepts (content bad_response) then b ← queue_and_destroy 400 bad_response; mret (Some b)
      else mret (Some false)
  | Upgrading h accept => b ← queue_and_destroy 101 (upgrade_response h (Some accept)); mret (Some b)
  end.

Definition upgrade_outcome_of (s : dstate) : upgrade_outcome :=
  try_handle header (fun h => mhd_accepts (create_for_upgrade h)) create_accept_header (standardized_url (conn s)) ws_.

Definition try_ws_upgrade : stx dstate (option bool) := fun s => perform (upgrade_outcome_of s) s.

Definition ws_finalize_answer : stx dstate bool :=
  ws_result ← try_ws_upgrade;
  match ws_result with
  | Some b => mret b
  | None => Dispatch.finalize_answer mhd_queues cfg
  end.

(** The callbacks of a request, as in [Dispatch], with this last step. *)
Definition ws_answer_end (method version : bytes) : stx dstate bool :=
  r ← get_request;
  _ ← stx_modify (fun s =>
        on_conn (with_request (Some (set_version (set_method (set_path r (standardized_url (conn s))) method) version))) s);
  ws_finalize_answer.

Definition ws_answer_to_connection (url method version : bytes) (content_type : option bytes) (chunks : list bytes)
    : stx dstate bool :=
  _ ← answer_first mhd_create_post_processor cfg url method content_type;
  _ ← answer_chunks mhd_post_process cfg chunks;
  ws_answer_end method version.

End Upgrade.
End Upgrade.
Import Upgrade.

Section Facts.
Context `{RegexEngine, StdHash, !StdHashOk, MhdCreate, BodyFits} {R : Type} `{HttpRequest R} {App : Type}.
Context (mhd_queues : mhd_event -> bool) (mhd_create_post_processor : bytes -> bool) (mhd_post_process : R -> bytes -> R).
Context (cfg : Dispatch.config) `{!@UserCode _ R App} `{!@UserCodeOk _ R App _}.
Context (header : bytes -> option bytes) (create_accept_header : bytes -> option bytes) (ws_ : gmap bytes nat).

#[local] Abbreviation world := (@Dispatch.world _ App).
#[local] Abbreviation dstate := (@Dispatch.dstate _ R App).
#[local] Abbreviation before_end url method ct chunks :=
  (_ ← answer_first mhd_create_post_processor cfg url method ct; answer_chunks mhd_post_process cfg chunks).
#[local] Abbreviation answer url method version ct chunks :=
  (ws_answer_to_connection mhd_queues mhd_create_post_processor mhd_post_process cfg header create_accept_header ws_
     url method version ct chunks).

(** ** The path of a request does not change *)

Lemma resolve_method_url method (c : @connection_context R) : standardized_url (resolve_method_callback method c) = standardized_url c.
Proof. unfold resolve_method_callback. by destruct (List.find _ _). Qed.

Lemma first_step_url ct (s : dstate) :
  standardized_url (conn (fst (requests_answer_first_step mhd_create_post_processor cfg ct s))) = standardized_url (conn s).
Proof.
  unfold requests_answer_first_step.
  destruct (if server_gate request_received _ then _ else _) as [s1 sc] eqn:E.
  assert (Hu : standardized_url (conn s1) = standardized_url (conn s)).
  { destruct (server_gate request_received _); [|by simplify_eq]. unfold fire_request_received_phase in E. by destruct (fire_request_received _ _); simplify_eq. }
  rewrite <-Hu. destruct sc; [done|]. destruct (negb _); [done|]. by destruct (request (conn s1)).
Qed.

Lemma first_url url method ct s :
  standardized_url (conn (fst (answer_first mhd_create_post_processor cfg url method ct s))) = request_path cfg url.
Proof.
  unfold answer_first, request_path. destruct (base_unescaper_ok url (unescaper cfg)) as (u & n & ->).
  rewrite first_step_url. apply resolve_method_url.
Qed.

Lemma chunk_url chunk (s : dstate) :
  standardized_url (conn (fst (answer_chunk mhd_post_process cfg chunk s))) = standardized_url (conn s).
Proof.
  unfold answer_chunk. destruct (negb _); [done|]. destruct (skip_handler _); [done|].
  destruct (if server_gate body_chunk _ then _ else _) as [s1 sc] eqn:E.
  assert (Hu : standardized_url (conn s1) = standardized_url (conn s)).
  { destruct (server_gate body_chunk _); [|by simplify_eq]. unfold fire_body_chunk_phase in E. by destruct (fire_body_chunk _ _); simplify_eq. }
  rewrite <-Hu. destruct sc; [done|]. by destruct (request (conn s1)).
Qed.

Lemma chunks_url chunks (s : dstate) :
  standardized_url (conn (fst (answer_chunks mhd_post_process cfg chunks s))) = standardized_url (conn s).
Proof.
  revert s. induction chunks as [|c chunks IH]; intros s; [done|]. simpl. unfold mbind, stx_bind.
  pose proof (chunk_url c s) as Hc. destruct (answer_chunk _ _ c s) as [s1 [b|e|]]; [|done..]. by rewrite IH.
Qed.

(** The state before the last callback. *)
Lemma before_end_ok url method ct chunks (w : world) :
  wf_server (srv w) ->
  exists s, before_end url method ct chunks (DState new_conn w [] []) = (s, Ok ())
    /\ good [] None s /\ standardized_url (conn s) = request_path cfg url.
Proof.
  intros Hw. unfold mbind, stx_bind.
  pose proof (answer_first_tri mhd_create_post_processor cfg url method ct w Hw _ eq_refl) as T1.
  pose proof (first_url url method ct (DState new_conn w [] [])) as U1.
  destruct (answer_first _ _ url method ct _) as [s1 [b|e|]]; [|done..].
  pose proof (answer_chunks_tri mhd_post_process cfg [] chunks s1 T1) as T2. pose proof (chunks_url chunks s1) as U2.
  destruct (answer_chunks _ _ chunks s1) as [s2 [[]|e|]]; [|done..]. exists s2. cbn [fst] in U1, U2. split; [done|]. by rewrite U2.
Qed.

Lemma answer_split url method version ct chunks s s1 :
  before_end url method ct chunks s = (s1, Ok ()) ->
  answer url method version ct chunks s
  = ws_answer_end mhd_queues cfg header create_accept_header ws_ method version s1.
Proof.
  unfold ws_answer_to_connection, mbind, stx_bind. destruct (answer_first _ _ url method ct s) as [s2 [b|e|]]; [|done..].
  by intros ->.
Qed.

(** ** Upgrades *)

(** The last callback when no hook runs before it: the request is all that has
    changed, and the probe sees the path of the request. *)
Lemma free_before_end url method version ct chunks (w : world) :
  hook_free w ->
  exists s, before_end url method ct chunks (DState new_conn w [] []) = (s, Ok ())
    /\ world_of s = w /\ mhd s = []
    /\ exists r, answer url method version ct chunks (DState new_conn w [] [])
         = ws_finalize_answer mhd_queues cfg header create_accept_header ws_ (on_conn (with_request (Some r)) s)
    /\ Dispatch.answer_to_connection mhd_queues mhd_create_post_processor mhd_post_process cfg url method version ct chunks (DState new_conn w [] [])
         = Dispatch.finalize_answer mhd_queues cfg (on_conn (with_request (Some r)) s)
    /\ standardized_url (conn s) = request_path cfg url.
Proof.
  intros Hf. destruct (first_ok mhd_create_post_processor cfg url method ct w Hf) as (s1 & b & E1 & Hw1).
  destruct (chunks_ok mhd_post_process cfg _ _ _ w chunks _ s1 Hf Hw1) as (s2 & E2 & Hw2).
  exists s2. unfold ws_answer_to_connection, Dispatch.answer_to_connection, ws_answer_end, answer_end, get_request, mbind, stx_bind, stx_modify.
  rewrite E1, E2. destruct Hw2 as [Ww Wm Wu _ _ Wr _ _ _ _]. rewrite Wr. split_and!; [done..|]. eexists. by split_and!.
Qed.


(** With websockets, too, a request is answered once and safely; a response that
    was made for an upgrade and not used is released. *)
Theorem websocket_server_answers_once url method version ct chunks (w : world) :
  wf_server (srv w) ->
  match answer url method version ct chunks (DState new_conn w [] []) with
  | (s, Ok b) => exists m, (m = [] \/ exists h, m = [MhdDestroy (upgrade_response h None)])
      /\ (answered mhd_queues m b s \/ (mhd s = m /\ b = false /\ mhd_accepts (content bad_response) = false))
  | (_, Throw _) => not_found_throws cfg
  | (_, Undefined) => False
  end.
Proof.
  intros Hw. destruct (before_end_ok url method ct chunks w Hw) as (s & E & Hg & Hu).
  rewrite (answer_split _ _ _ _ _ _ _ E). destruct (g_request _ _ _ Hg) as [q Hq].
  unfold ws_answer_end, get_request, mbind, stx_bind. rewrite Hq. unfold stx_modify.
  set (s1 := on_conn _ s). assert (Hg1 : good [] None s1) by (by destruct Hg; constructor). clearbody s1. clear s E Hg Hu Hq.
  unfold ws_finalize_answer, try_ws_upgrade, mbind, stx_bind.
  assert (Hend : forall m s, good m None s -> (m = [] \/ exists h, m = [MhdDestroy (upgrade_response h None)]) ->
    match Dispatch.finalize_answer mhd_queues cfg s with
    | (s, Ok b) => exists m, (m = [] \/ exists h, m = [MhdDestroy (upgrade_response h None)])
        /\ (answered mhd_queues m b s \/ (mhd s = m /\ b = false /\ mhd_accepts (content bad_response) = false))
    | (_, Throw _) => not_found_throws cfg | (_, Undefined) => False end).
  { intros m s Hs Hm. pose proof (finalize_tri mhd_queues cfg m s Hs) as Hf.
    destruct (Dispatch.finalize_answer _ _ s) as [s' [b|e|]]; [|done..]. exists m. auto. }
  assert (Hone : forall status r, one_response mhd_queues [] (mhd_queues (MhdQueue status r)) (on_mhd (MhdDestroy r) (on_mhd (MhdQueue status r) s1))).
  { intros status r. exists (MhdQueue status r), r. simpl. by rewrite (g_mhd _ _ _ Hg1). }
  destruct (upgrade_outcome_of _ _ _ s1) as [|h| |h a]; cbn [perform].
  - apply (Hend []); auto.
  - apply (Hend [MhdDestroy (upgrade_response h None)]); eauto. destruct Hg1. constructor; simpl; try done. by rewrite g_mhd.
  - destruct (mhd_accepts (content bad_response)) eqn:Ea; [|exists []; split; [by left|right; split_and!; [apply Hg1|done|done]]].
    exists []. split; [by left|]. left. left. apply Hone.
  - exists []. split; [by left|]. left. left. apply Hone.
Qed.

End Facts.

Section Examples.
#[local] Existing Instances literal_engine len_hash len_hash_ok accepts_all all_inline log_request.

(** Hooks that refuse every request. *)
Definition closed_code : @UserCode _ (list (bytes * bytes)) unit := {|
  user_hook f e := (e, inr (Some (page (bs "no") 403)));
  user_render id m r w := (w, inr (plain_page (bs "rendered")));
  user_handler h r w := (w, inr (plain_page (bs "hello")));
  user_error_handler h r msg w := (w, inr (page msg 500));
|}.
#[local] Existing Instance closed_code.

Lemma closed_code_ok : @UserCodeOk _ _ _ closed_code.
Proof.
  constructor.
  - intros f e. split; [by constructor|apply page_sendable].
  - intros id m r w. split; [apply grows_refl|apply page_sendable].
  - intros h r w. split; [apply grows_refl|apply page_sendable].
  - intros h r msg w. split; [apply grows_refl|apply page_sendable].
Qed.

#[local] Existing Instance closed_code_ok.

Definition closed_world : @world _ unit :=
  World (fst (exec_all hello_route)) (fst (add on_request_received request_received (Some 1) new_bus)) ∅ () [].

Definition ws_headers (name : bytes) : option bytes :=
  if bytes_eqb name (bs "Upgrade") then Some (bs "WebSocket")
  else if bytes_eqb name (bs "Connection") then Some (bs "keep-alive, Upgrade")
  else if bytes_eqb name (bs "Sec-WebSocket-Version") then Some (bs "13")
  else if bytes_eqb name (bs "Sec-WebSocket-Key") then Some (bs "dGhlIHNhbXBsZSBub25jZQ==") else None.

(** The same without a key. *)
Definition keyless_headers (name : bytes) : option bytes :=
  if bytes_eqb name (bs "Sec-WebSocket-Key") then None else ws_headers name.

Definition closed_answer (header : bytes -> option bytes) :=
  ws_answer_to_connection (fun _ => true) (fun _ => true) (fun r _ => r) (demo_config None) header (fun k => Some (bs "accept-" ++ k))
    {[bs "/chat" := 7]} (bs "/chat") (bs "GET") (bs "HTTP/1.1") None [] (DState new_conn closed_world [] []).


(** A [request_received] hook that answers 403 stops a plain request, but not the
    same request with a websocket handshake: it is upgraded. *)
Theorem rejected_request_upgraded :
  let statuses o := match o with
    | (s, Ok _) => Some (omap (fun e => match e with MhdQueue c _ => Some c | _ => None end) (mhd s)) | _ => None end in
  statuses (closed_answer (fun _ => None)) = Some [403%Z] /\ statuses (closed_answer ws_headers) = Some [101%Z].
Proof. by vm_compute. Qed.

End Examples.

Section Unauthenticated.
#[local] Existing Instances literal_engine len_hash len_hash_ok accepts_all all_inline
  Aliases.sample_request Aliases.hello_code Aliases.closed_code.
#[local] Instance aliased_code : @UserCode _ Request.Request.http_request unit := Aliases.Aliases.alias_code (demo_config None) Aliases.closed_config.

Definition authenticated_answer (header : bytes -> option bytes) :=
  ws_answer_to_connection (fun _ => true) (fun _ => true) (fun r _ => r) (demo_config None) header (fun k => Some (bs "accept-" ++ k))
    {[bs "/hello/x" := 7]} (bs "/hello/x") (bs "GET") (bs "HTTP/1.1") None []
    (DState new_conn (world_of Aliases.closed_state) [] []).

(** On a server whose authentication handler rejects every request, a plain
    request is answered with its 401, and the same request with a websocket
    handshake is upgraded: the handler is not asked. *)
Theorem upgrade_not_authenticated :
  let statuses o := match o with
    | (s, Ok _) => Some (omap (fun e => match e with MhdQueue c _ => Some c | _ => None end) (mhd s)) | _ => None end in
  statuses (authenticated_answer (fun _ => None)) = Some [401%Z] /\ statuses (authenticated_answer ws_headers) = Some [101%Z].
Proof. by vm_compute. Qed.

End Unauthenticated.
