(* ===== verification/Tls.v ===== *)
(** * TLS callbacks and digest tokens

    [webserver_callbacks.cpp] (the SNI callback and its cache of credentials),
    [http_request_impl_tls.cpp] (the fields of a client certificate),
    [http_request_auth.cpp] (the digest checks) and the opaque value of
    [webserver_impl.cpp].  Built with GnuTLS and digest authentication; both
    libraries are parameters. *)

From S2P Require Import Prelude HttpUtils Cookie OrderedMap HttpResponse Request.
Import HttpUtils.StringUtilities HttpUtils.HttpUtils Request.Request.

(** GnuTLS on the certificate of a session.  A text getter answers, for the size
    of a buffer, the size it needs or wrote and what it wrote, [None] on failure. *)
Inductive x509_text : Type := subject_dn | issuer_dn | common_name.

Record x509 : Type := X509 {
  get_text : x509_text -> nat -> nat * option bytes;
  get_fingerprint : option (list Z);
  activation_time : Z;
  expiration_time : Z;
}.

(** A session: the first peer certificate if one was sent, its import, and the
    answer of the verification. *)
Record tls_session : Type := TlsSession {
  has_peer_certificate : bool;
  imported : option x509;
  verify_peers2 : option Z;
}.

Module Tls.

(** ** Hexadecimal texts *)

Definition kHex : bytes := bs "0123456789abcdef".
Definition hex_digit (z : Z) : ascii := default NUL (kHex !! Z.to_nat z).

(** [%02x] *)
Definition hex_octet (z : Z) : bytes := [hex_digit (Z.land (Z.shiftr z 4) 15); hex_digit (Z.land z 15)].

(** [generate_random_hex_opaque_] over the samples of the random device. *)
Definition sample_octets (sample : Z) : list Z := map (fun b => Z.land (Z.shiftr sample (Z.of_nat b * 8)) 255) (seq 0 4).

Definition generate_random_hex_opaque_ (rd : nat -> Z) : bytes :=
  flat_map (fun i => flat_map hex_octet (sample_octets (rd i))) (seq 0 8).

(** ** Client certificates *)

Definition pop_nul (b : bytes) : bytes := match last b with Some c => if ascii_eqb c NUL then removelast b else b | None => b end.

(** The buffer after a call wrote [w] to it. *)
Definition filled (size : nat) (w : bytes) : bytes := w ++ replicate (size - length w) NUL.

Definition extract_x509_string (cert : x509) (field : x509_text) : bytes :=
  let size := fst (get_text cert field 0) in
  match snd (get_text cert field size) with
  | None => []
  | Some w => pop_nul (filled size w)
  end.

Definition extract_x509_common_name (cert : x509) : bytes :=
  let cn_size := fst (get_text cert common_name 0) in
  if cn_size =? 0 then []
  else match snd (get_text cert common_name cn_size) with
  | None => []
  | Some w => pop_nul (filled cn_size w)
  end.

Definition extract_x509_fingerprint_sha256 (cert : x509) : bytes :=
  match get_fingerprint cert with None => [] | Some l => flat_map hex_octet l end.

Definition verify_peer_certificate (s : tls_session) : bool :=
  match verify_peers2 s with Some status => (status =? 0)%Z | None => false end.

Record cert_fields : Type := CertFields {
  client_cert_fields_cached : bool;
  client_cert_dn : bytes;
  client_cert_issuer_dn : bytes;
  client_cert_cn : bytes;
  client_cert_fingerprint_sha256 : bytes;
  client_cert_not_before : Z;
  client_cert_not_after : Z;
  client_cert_verified : bool;
}.

Definition no_cert_fields : cert_fields := CertFields false [] [] [] [] (-1) (-1) false.

(** [has_tls_session], [has_client_certificate]; [local] is the test request's
    flag, [conn] the connection's answer if there is a connection. *)
Definition has_tls_session (local : bool) (conn : option (option tls_session)) : bool :=
  match conn with None => local | Some info => bool_decide (is_Some info) end.

Definition get_tls_session (conn : option (option tls_session)) : option tls_session := default None conn.

Definition has_client_certificate (local : bool) (conn : option (option tls_session)) : bool :=
  has_tls_session local conn && match get_tls_session conn with Some s => has_peer_certificate s | None => false end.

(** [scoped_x509_cert::init_from_session] *)
Definition init_from_session (s : tls_session) : option x509 := if has_peer_certificate s then imported s else None.

Definition populate_all_cert_fields (conn : option (option tls_session)) (f : cert_fields) : cert_fields :=
  if client_cert_fields_cached f then f
  else match get_tls_session conn with
  | None => CertFields true (client_cert_dn f) (client_cert_issuer_dn f) (client_cert_cn f) (client_cert_fingerprint_sha256 f)
      (client_cert_not_before f) (client_cert_not_after f) (client_cert_verified f)
  | Some s =>
      match init_from_session s with
      | None => CertFields true (client_cert_dn f) (client_cert_issuer_dn f) (client_cert_cn f) (client_cert_fingerprint_sha256 f)
          (client_cert_not_before f) (client_cert_not_after f) (client_cert_verified f)
      | Some cert =>
          CertFields true (extract_x509_string cert subject_dn) (extract_x509_string cert issuer_dn)
            (extract_x509_common_name cert) (extract_x509_fingerprint_sha256 cert)
            (activation_time cert) (expiration_time cert) (verify_peer_certificate s)
      end
  end.

Definition is_client_cert_verified (conn : option (option tls_session)) (f : cert_fields) : cert_fields * bool :=
  let f := populate_all_cert_fields conn f in (f, client_cert_verified f).

(** ** Digest checks *)

(** [WRONG_HEADER], the answer without a connection. *)
Definition WRONG_HEADER : Z := -1.

(** [check_digest_auth] and [check_digest_auth_digest]; [mhd_check] is
    libmicrohttpd's check of the realm, the user name and the secret. *)
Definition check_digest_auth (mhd_check : mhd_connection -> bytes -> bytes -> bytes -> Z) (realm secret : bytes)
    : stx http_request Z := fun r =>
  match connection_ (impl r) with
  | None => (r, Ok WRONG_HEADER)
  | Some c => (user ← get_digested_user; mret (mhd_check c realm user secret)) r
  end.

(** ** Certificates by server name *)

(** Where a handshake is in the callback: it probes the cache under the shared
    lock, asks the user and GnuTLS for credentials, and publishes them under the
    exclusive lock. *)
Inductive handshake : Type :=
| Probing (name : bytes)
| Loading (name : bytes)
| Publishing (name : bytes) (creds : nat)
| Served (name : bytes) (creds : option nat).

(** The credentials in use by GnuTLS are numbers, [next] the first unused. *)
Record sni_state : Type := Sni {
  sni_credentials_cache : gmap bytes nat;
  allocated : gset nat;
  freed : list nat;
  next : nat;
  handshakes : list handshake;
}.

Definition new_sni : sni_state := Sni ∅ ∅ [] 0 [].

(** The user's callback, GnuTLS's allocation and its reading of the pair. *)
Record sni_code : Type := SniCode {
  sni_callback : bytes -> bytes * bytes;
  allocate_credentials : nat -> bool;
  set_x509_key_mem : bytes -> bytes -> bool;
}.

Section Sni.
Context (u : sni_code).

(** [gnutls_certificate_free_credentials]: undefined on what is not allocated. *)
Definition free_credentials (c : nat) : stx sni_state unit := fun s =>
  if decide (c ∈ allocated s)
  then (Sni (sni_credentials_cache s) (allocated s ∖ {[c]}) (freed s ++ [c]) (next s) (handshakes s), Ok ())
  else (s, Undefined).

(** One block of the callback. *)
Definition sni_advance (h : handshake) : stx sni_state handshake := fun s =>
  match h with
  | Probing name =>
      (s, Ok (match sni_credentials_cache s !! name with Some c => Served name (Some c) | None => Loading name end))
  | Loading name =>
      let '(cert_pem, key_pem) := sni_callback u name in
      if is_empty cert_pem || is_empty key_pem then (s, Ok (Served name None))
      else if negb (allocate_credentials u (next s)) then (s, Ok (Served name None))
      else
        let c := next s in
        let s := Sni (sni_credentials_cache s) ({[c]} ∪ allocated s) (freed s) (S c) (handshakes s) in
        if set_x509_key_mem u cert_pem key_pem then (s, Ok (Publishing name c))
        else (_ ← free_credentials c; mret (Served name None)) s
  | Publishing name c =>
      match sni_credentials_cache s !! name with
      | Some c' => (_ ← free_credentials c; mret (Served name (Some c'))) s
      | None => (Sni (<[name := c]> (sni_credentials_cache s)) (allocated s) (freed s) (next s) (handshakes s), Ok (Served name (Some c)))
      end
  | Served _ _ => (s, Ok h)
  end.

Definition with_handshakes (l : list handshake) (s : sni_state) : sni_state :=
  Sni (sni_credentials_cache s) (allocated s) (freed s) (next s) l.

(** Handshakes begin at any time, on any thread, and interleave. *)
Inductive sni_step : sni_state -> sni_state -> Prop :=
| sn_begin s name : sni_step s (with_handshakes (handshakes s ++ [Probing name]) s)
| sn_run s i h s' h' :
    handshakes s !! i = Some h -> sni_advance h s = (s', Ok h') ->
    sni_step s (with_handshakes (<[i := h']> (handshakes s)) s').

(** The destructor frees what the cache holds. *)
Definition destroy_cache : stx sni_state unit := fun s =>
  foldr (fun c rest => _ ← free_credentials c; rest)
    (stx_modify (fun s => Sni ∅ (allocated s) (freed s) (next s) (handshakes s)))
    (snd <$> map_to_list (sni_credentials_cache s)) s.

End Sni.
End Tls.
Import Tls.

(** ** Texts *)

Lemma hex_octet_read z : (0 <= z < 256)%Z ->
  exists a b, hex_octet z = [a; b] /\ (16 * hex_char_to_val a + hex_char_to_val b)%Z = z.
Proof.
  intros Hz. eexists _, _. split; [reflexivity|].
  assert (Hall : forallb (fun n => let z := Z.of_nat n in
    (16 * hex_char_to_val (hex_digit (Z.land (Z.shiftr z 4) 15)) + hex_char_to_val (hex_digit (Z.land z 15)) =? z)%Z) (seq 0 256) = true) by by vm_compute.
  rewrite forallb_forall in Hall. specialize (Hall (Z.to_nat z)). cbv zeta in Hall. rewrite Z2Nat.id in Hall by lia.
  apply Z.eqb_eq, Hall, in_seq. lia.
Qed.

(** Reading pairs of hexadecimal digits. *)
Fixpoint read_hex (s : bytes) : list Z :=
  match s with a :: b :: s => (16 * hex_char_to_val a + hex_char_to_val b)%Z :: read_hex s | _ => [] end.

(** The fingerprint text of a certificate reads back, two digits an octet, to
    the fingerprint GnuTLS computed; it is empty only when there is none. *)
Theorem fingerprint_roundtrip cert l :
  get_fingerprint cert = Some l -> Forall (fun z => 0 <= z < 256)%Z l ->
  read_hex (extract_x509_fingerprint_sha256 cert) = l
  /\ length (extract_x509_fingerprint_sha256 cert) = 2 * length l.
Proof.
  intros E Hl. unfold extract_x509_fingerprint_sha256. rewrite E. clear E. induction Hl as [|z l Hz Hl [IH1 IH2]]; [done|].
  cbn [flat_map]. destruct (hex_octet_read z Hz) as (a & b & -> & Hab). cbn [app read_hex length]. rewrite Hab, IH1, IH2. split; [done|lia].
Qed.

(** What the GnuTLS manual says of a text getter: it needs one more byte than
    the text, and writes the text when it has them. *)
Definition text_getter (cert : x509) (field : x509_text) (text : bytes) : Prop :=
  fst (get_text cert field 0) = S (length text)
  /\ forall n, S (length text) <= n -> snd (get_text cert field n) = Some text.

Lemma pop_filled text : pop_nul (filled (S (length text)) text) = text.
Proof.
  unfold filled, pop_nul. replace (S (length text) - length text) with 1 by lia. cbn [replicate].
  rewrite last_snoc, ascii_eqb_refl. apply removelast_last.
Qed.

Lemma extract_text cert field text : text_getter cert field text ->
  extract_x509_string cert field = text
  /\ (field = common_name -> extract_x509_common_name cert = text).
Proof.
  intros [Hs Ht]. unfold extract_x509_string, extract_x509_common_name. split; [|intros ->]; rewrite Hs, Ht by done; [|cbn [Nat.eqb]]; apply pop_filled.
Qed.

(** A request without a verified client certificate is never reported as
    verified. *)
Lemma verified_needs_certificate conn :
  snd (is_client_cert_verified conn no_cert_fields) = true ->
  exists s cert, conn = Some (Some s) /\ has_peer_certificate s = true /\ imported s = Some cert /\ verify_peers2 s = Some 0%Z.
Proof.
  unfold is_client_cert_verified, populate_all_cert_fields. cbn [client_cert_fields_cached no_cert_fields].
  destruct conn as [[s|]|]; cbn [get_tls_session from_option default]; [|done..].
  unfold init_from_session. unfold get_tls_session. cbn. destruct (has_peer_certificate s) eqn:Eh; [|done].
  destruct (imported s) as [cert|] eqn:Ei; [|done]. cbn. unfold verify_peer_certificate.
  destruct (verify_peers2 s) as [z|] eqn:Ev; [|done]. intros ->%Z.eqb_eq. by exists s, cert.
Qed.

(** ** Credentials have one owner *)

Definition publishing (h : handshake) : option nat := match h with Publishing _ c => Some c | _ => None end.

(** The cache and the handshakes about to publish. *)
Definition owners (s : sni_state) : list nat := (snd <$> map_to_list (sni_credentials_cache s)) ++ omap publishing (handshakes s).

Record sni_ok (s : sni_state) : Prop := {
  sn_owners : NoDup (owners s);
  sn_allocated c : c ∈ allocated s <-> c ∈ owners s;
  sn_freed : NoDup (freed s);
  sn_dead c : c ∈ freed s -> c ∉ allocated s /\ c < next s;
  sn_next c : c ∈ allocated s -> c < next s;
  sn_served name c : Served name (Some c) ∈ handshakes s -> sni_credentials_cache s !! name = Some c;
}.

Lemma omap_insert {A B} (f : A -> option B) l i h h' : l !! i = Some h ->
  exists rest, omap f l ≡ₚ option_list (f h) ++ rest /\ omap f (<[i := h']> l) ≡ₚ option_list (f h') ++ rest.
Proof.
  intros Hi. exists (omap f (take i l ++ drop (S i) l)). rewrite insert_take_drop by by eapply lookup_lt_Some.
  rewrite <-(take_drop_middle l i h Hi) at 1. rewrite !omap_app. cbn [omap list_omap].
  assert (Ho : forall (h : A) a b, a ++ match f h with Some y => y :: b | None => b end ≡ₚ option_list (f h) ++ a ++ b).
  { intros h0 a b. destruct (f h0) as [y|]; cbn [option_list app]; [|done]. symmetry. exact (Permutation_middle a b y). }
  split; apply Ho.
Qed.

Lemma elem_insert {A} (l : list A) i x y : y ∈ <[i := x]> l -> y = x \/ y ∈ l.
Proof.
  intros (j & Hj)%list_elem_of_lookup. destruct (decide (i = j)) as [->|Hij].
  - apply list_lookup_insert_Some in Hj as [(_ & -> & _)|(? & _)]; [by left|done].
  - rewrite list_lookup_insert_ne in Hj by done. right. by apply list_elem_of_lookup_2 in Hj.
Qed.

(** A step that changes neither the cache nor the credentials. *)
Lemma sni_ok_move s i h h' :
  sni_ok s -> handshakes s !! i = Some h -> publishing h = publishing h' ->
  (forall name c, h' = Served name (Some c) -> sni_credentials_cache s !! name = Some c) ->
  sni_ok (with_handshakes (<[i := h']> (handshakes s)) s).
Proof.
  intros [Ho Ha Hf Hd Hn Hs] Hi Hp Hserved. destruct (omap_insert publishing _ i h h' Hi) as (rest & E1 & E2).
  assert (E : owners (with_handshakes (<[i := h']> (handshakes s)) s) ≡ₚ owners s) by (unfold owners; cbn; by rewrite E1, E2, Hp).
  constructor; cbn; try done.
  - by rewrite E.
  - intros c. by rewrite E.
  - intros name c [Heq|Hin]%elem_insert; [by apply Hserved|by apply Hs].
Qed.

(** Credentials that were allocated and freed within one step. *)
Lemma sni_ok_discard s : sni_ok s ->
  sni_ok (Sni (sni_credentials_cache s) (({[next s]} ∪ allocated s) ∖ {[next s]}) (freed s ++ [next s]) (S (next s)) (handshakes s)).
Proof.
  intros [Ho Ha Hf Hd Hn Hs]. assert (Hfresh : next s ∉ allocated s) by (intros Hin%Hn; lia).
  assert (He : ({[next s]} ∪ allocated s) ∖ {[next s]} = allocated s) by set_solver.
  constructor; cbn; rewrite ?He; try done.
  - apply NoDup_app. split; [done|]. split; [|by apply NoDup_singleton]. intros c Hc ->%list_elem_of_singleton.
    apply Hd in Hc as [_ Hlt]. lia.
  - intros c [Hc| ->%list_elem_of_singleton]%elem_of_app; [|split; [done|lia]]. apply Hd in Hc as [? ?]. split; [done|lia].
  - intros c Hc%Hn. lia.
Qed.

Lemma sni_ok_allocate s i h name :
  sni_ok s -> handshakes s !! i = Some h -> publishing h = None ->
  sni_ok (with_handshakes (<[i := Publishing name (next s)]> (handshakes s))
    (Sni (sni_credentials_cache s) ({[next s]} ∪ allocated s) (freed s) (S (next s)) (handshakes s))).
Proof.
  intros [Ho Ha Hf Hd Hn Hs] Hi Hp. assert (Hfresh : next s ∉ allocated s) by (intros Hin%Hn; lia).
  destruct (omap_insert publishing _ i h (Publishing name (next s)) Hi) as (rest & E1 & E2). rewrite Hp in E1. cbn in E1, E2.
  assert (E : owners (with_handshakes (<[i := Publishing name (next s)]> (handshakes s))
      (Sni (sni_credentials_cache s) ({[next s]} ∪ allocated s) (freed s) (S (next s)) (handshakes s))) ≡ₚ next s :: owners s).
  { unfold owners. cbn. rewrite E2, E1. symmetry. apply Permutation_middle. }
  constructor; cbn; try done.
  - rewrite E. constructor; [by rewrite <-Ha|done].
  - intros c. rewrite E, elem_of_cons, <-Ha. set_solver.
  - intros c Hc. destruct (Hd c Hc) as [? ?]. split; [|lia]. intros [->%elem_of_singleton|?]%elem_of_union; [lia|done].
  - intros c [->%elem_of_singleton|Hc%Hn]%elem_of_union; lia.
  - intros name' c [?|Hin]%elem_insert; [done|by apply Hs].
Qed.

(** The loser of a race drops its credentials. *)
Lemma sni_ok_lose s i name c c' :
  sni_ok s -> handshakes s !! i = Some (Publishing name c) -> sni_credentials_cache s !! name = Some c' ->
  c ∈ allocated s
  /\ sni_ok (with_handshakes (<[i := Served name (Some c')]> (handshakes s))
       (Sni (sni_credentials_cache s) (allocated s ∖ {[c]}) (freed s ++ [c]) (next s) (handshakes s))).
Proof.
  intros [Ho Ha Hf Hd Hn Hs] Hi Hc'. destruct (omap_insert publishing _ i _ (Served name (Some c')) Hi) as (rest & E1 & E2). cbn in E1, E2.
  assert (E0 : owners s ≡ₚ c :: (snd <$> map_to_list (sni_credentials_cache s)) ++ rest).
  { unfold owners. rewrite E1. symmetry. apply Permutation_middle. }
  assert (Hc : c ∈ allocated s) by (rewrite Ha, E0; by left). split; [done|].
  rewrite E0 in Ho. apply NoDup_cons in Ho as [Hnot Ho].
  constructor; cbn; try done.
  - unfold owners. cbn. by rewrite E2.
  - intros d. rewrite elem_of_difference, Ha, E0, elem_of_cons. unfold owners. cbn. rewrite E2. set_solver.
  - apply NoDup_app. split; [done|]. split; [|by apply NoDup_singleton]. intros d Hdf ->%list_elem_of_singleton. by apply Hd in Hdf as [? _].
  - intros d [Hdf| ->%list_elem_of_singleton]%elem_of_app; [|split; [set_solver|by apply Hn]]. destruct (Hd d Hdf). set_solver.
  - intros d [Hda _]%elem_of_difference. by apply Hn.
  - intros name' d [[= -> ->]|Hin]%elem_insert; [done|by apply Hs].
Qed.

(** The winner's credentials move into the cache. *)
Lemma sni_ok_publish s i name c :
  sni_ok s -> handshakes s !! i = Some (Publishing name c) -> sni_credentials_cache s !! name = None ->
  sni_ok (with_handshakes (<[i := Served name (Some c)]> (handshakes s))
       (Sni (<[name := c]> (sni_credentials_cache s)) (allocated s) (freed s) (next s) (handshakes s))).
Proof.
  intros [Ho Ha Hf Hd Hn Hs] Hi Hc'. destruct (omap_insert publishing _ i _ (Served name (Some c)) Hi) as (rest & E1 & E2). cbn in E1, E2.
  assert (E : owners (with_handshakes (<[i := Served name (Some c)]> (handshakes s))
       (Sni (<[name := c]> (sni_credentials_cache s)) (allocated s) (freed s) (next s) (handshakes s))) ≡ₚ owners s).
  { unfold owners. cbn. rewrite E1, E2, map_to_list_insert by done. cbn. apply Permutation_middle. }
  constructor; cbn; try done.
  - by rewrite E.
  - intros d. by rewrite E.
  - intros name' d [[= -> ->]|Hin]%elem_insert; [apply lookup_insert_eq|]. apply Hs in Hin.
    rewrite lookup_insert_ne; [done|]. congruence.
Qed.

Section Credentials.
Context (u : sni_code).

(** Every block of a handshake is defined and keeps the ownership. *)
Lemma sni_advance_ok s i h :
  sni_ok s -> handshakes s !! i = Some h ->
  exists s' h', sni_advance u h s = (s', Ok h') /\ sni_ok (with_handshakes (<[i := h']> (handshakes s)) s') /\ handshakes s' = handshakes s.
Proof.
  intros Hs Hi. destruct h as [name|name|name c|name o]; cbn [sni_advance].
  - eexists _, _. split; [done|]. split; [|done].
    destruct (sni_credentials_cache s !! name) as [c|] eqn:E; apply (sni_ok_move s i (Probing name)); try done.
    by intros ? ? [= <- <-].
  - destruct (sni_callback u name) as [cert_pem key_pem].
    assert (Hnone : sni_ok (with_handshakes (<[i := Served name None]> (handshakes s)) s)) by by apply (sni_ok_move s i (Loading name)).
    destruct (_ || _); [by eexists _, _|]. destruct (negb _); [by eexists _, _|].
    destruct (set_x509_key_mem u cert_pem key_pem).
    + eexists _, _. split; [done|]. split; [|done]. by apply (sni_ok_allocate s i (Loading name)).
    + unfold free_credentials, mbind, stx_bind. cbn [allocated]. rewrite decide_True by set_solver. eexists _, _. split; [done|]. split; [|done].
      pose proof (sni_ok_discard s Hs) as Hd. by apply (sni_ok_move _ i (Loading name) (Served name None)) in Hd.
  - destruct (sni_credentials_cache s !! name) as [c'|] eqn:E.
    + destruct (sni_ok_lose s i name c c') as [Hc Hok]; [done..|]. unfold free_credentials, mbind, stx_bind.
      rewrite decide_True by done. eexists _, _. by split.
    + eexists _, _. split; [done|]. split; [|done]. by apply sni_ok_publish.
  - eexists _, _. split; [done|]. split; [|done]. apply (sni_ok_move s i (Served name o)); [done..|]. intros name' c [= -> ->].
    by apply (sn_served _ Hs), (list_elem_of_lookup_2 _ i).
Qed.

Lemma sni_step_ok s s' : sni_step u s s' -> sni_ok s -> sni_ok s'.
Proof.
  intros Hstep Hs. destruct Hstep as [s name|s i h s' h' Hi Ha].
  - destruct Hs as [Ho Hall Hf Hd Hn Hsv]. assert (E : owners (with_handshakes (handshakes s ++ [Probing name]) s) = owners s).
    { unfold owners. cbn. rewrite omap_app. cbn. by rewrite app_nil_r. }
    constructor; [by rewrite E|intros c; rewrite E; apply Hall|done..|].
    cbn. intros name' c [Hin|Hin%list_elem_of_singleton]%elem_of_app; [by apply Hsv|done].
  - destruct (sni_advance_ok s i h Hs Hi) as (s1 & h1 & E & Hok & _). rewrite E in Ha. by injection Ha as <- <-.
Qed.

(** Freeing a list of owned credentials. *)
Lemma free_all l s :
  NoDup l -> (forall c, c ∈ l -> c ∈ allocated s) ->
  exists s', foldr (fun c rest => _ ← free_credentials c; rest)
    (stx_modify (fun s => Sni ∅ (allocated s) (freed s) (next s) (handshakes s))) l s = (s', Ok ())
    /\ allocated s' = allocated s ∖ list_to_set l /\ freed s' = freed s ++ l.
Proof.
  intros Hl. revert s. induction Hl as [|c l Hc Hl IH]; intros s Hs.
  { eexists. split; [done|]. cbn. rewrite app_nil_r. set_solver. }
  cbn [foldr]. unfold mbind, stx_bind at 1. unfold free_credentials at 1. rewrite decide_True by (apply Hs; by left).
  destruct (IH (Sni (sni_credentials_cache s) (allocated s ∖ {[c]}) (freed s ++ [c]) (next s) (handshakes s))) as (s' & E & Ha & Hf).
  { intros d Hd. cbn. assert (d <> c) by congruence. specialize (Hs d). set_solver. }
  exists s'. split; [exact E|]. rewrite Ha, Hf. cbn. rewrite <-app_assoc. split; [set_solver|done].
Qed.

(** C20: However the handshakes of any number of threads interleave, no block of
    the callback frees credentials twice or uses freed ones; every handshake of a
    name that is served from the cache or published gets the credentials the
    cache holds for it; and once the handshakes are over, the destructor frees
    all that is left, so that each credential allocated is freed exactly once. *)
Theorem sni_credentials_freed_once s :
  rtc (sni_step u) new_sni s ->
  (forall h, h ∈ handshakes s -> is_ok (snd (sni_advance u h s)) = true)
  /\ (forall name c, Served name (Some c) ∈ handshakes s -> sni_credentials_cache s !! name = Some c /\ c ∈ allocated s)
  /\ ((forall h, h ∈ handshakes s -> publishing h = None) ->
      exists s', destroy_cache s = (s', Ok ()) /\ allocated s' = ∅ /\ NoDup (freed s')).
Proof.
  intros Hr. assert (Hs : sni_ok s).
  { assert (Hnew : sni_ok new_sni) by (constructor; cbn; try (by constructor); set_solver).
    induction Hr as [|x y z Hxy _ IH]; [done|]. by apply IH, (sni_step_ok x). }
  split_and!.
  - intros h (i & Hi)%list_elem_of_lookup. by destruct (sni_advance_ok s i h Hs Hi) as (s' & h' & -> & _).
  - intros name c Hin. pose proof (sn_served _ Hs _ _ Hin) as Hc. split; [done|]. apply (sn_allocated _ Hs).
    apply elem_of_app. left. apply list_elem_of_fmap. exists (name, c). split; [done|]. by apply elem_of_map_to_list.
  - intros Hnone. destruct Hs as [Ho Ha Hf Hd Hn Hsv].
    assert (E : owners s = snd <$> map_to_list (sni_credentials_cache s)).
    { unfold owners. replace (omap publishing (handshakes s)) with (@nil nat); [apply app_nil_r|]. clear -Hnone.
      induction (handshakes s) as [|h l IH]; [done|]. cbn. rewrite (Hnone h) by by left. apply IH. intros h' Hh'. apply Hnone. by right. }
    rewrite E in Ho. destruct (free_all (snd <$> map_to_list (sni_credentials_cache s)) s) as (s' & Es & Has & Hfs); [done| |].
    { intros c Hc. by rewrite Ha, E. }
    exists s'. split; [exact Es|]. split.
    + rewrite Has. apply set_eq. intros c. rewrite elem_of_difference, Ha, E, elem_of_list_to_set. set_solver.
    + rewrite Hfs. apply NoDup_app. split; [done|]. split; [|done]. intros c Hc Hc'. apply Hd in Hc as [Hna _]. by rewrite Ha, E in Hna.
Qed.

End Credentials.

(** ** Examples *)

Definition demo_sni : sni_code := SniCode (fun _ => (bs "cert", bs "key")) (fun _ => true) (fun _ _ => true).

(** Handshakes run in turn. *)
Fixpoint sni_schedule (l : list nat) (s : sni_state) : sni_state :=
  match l with
  | [] => s
  | i :: l =>
      match handshakes s !! i with
      | Some h =>
          match sni_advance demo_sni h s with
          | (s', Ok h') => sni_schedule l (with_handshakes (<[i := h']> (handshakes s)) s')
          | _ => s
          end
      | None => s
      end
  end.

Lemma sni_schedule_reach l s : rtc (sni_step demo_sni) s (sni_schedule l s).
Proof.
  revert s. induction l as [|i l IH]; intros s; cbn [sni_schedule]; [apply rtc_refl|].
  destruct (handshakes s !! i) as [h|] eqn:Ei; [|apply rtc_refl]. destruct (sni_advance demo_sni h s) as [s' [h'| |]] eqn:Ea; [|apply rtc_refl..].
  eapply rtc_l; [by apply (sn_run _ s i h)|apply IH].
Qed.

(** Two handshakes of one name both load credentials. *)
Definition sni_race : sni_state := Sni ∅ ∅ [] 0 [Probing (bs "example.org"); Probing (bs "example.org")].

Definition sni_raced : sni_state := sni_schedule [0; 1; 0; 1; 0; 1] sni_race.

Lemma sni_raced_reach : rtc (sni_step demo_sni) new_sni sni_raced.
Proof.
  eapply rtc_l; [apply (sn_begin _ _ (bs "example.org"))|]. eapply rtc_l; [apply (sn_begin _ _ (bs "example.org"))|].
  apply (sni_schedule_reach [0; 1; 0; 1; 0; 1]).
Qed.

Lemma sni_credentials_freed_once_witness :
  handshakes sni_raced = [Served (bs "example.org") (Some 0); Served (bs "example.org") (Some 0)]
  /\ freed sni_raced = [1]
  /\ exists s', destroy_cache sni_raced = (s', Ok ()) /\ allocated s' = ∅ /\ NoDup (freed s').
Proof.
  assert (Hh : handshakes sni_raced = [Served (bs "example.org") (Some 0); Served (bs "example.org") (Some 0)]) by (vm_compute; reflexivity).
  split; [exact Hh|]. split; [vm_compute; reflexivity|].
  apply (sni_credentials_freed_once demo_sni sni_raced sni_raced_reach). rewrite Hh.
  intros h [->|[->|[]%not_elem_of_nil]%elem_of_cons]%elem_of_cons; done.
Defined.

Definition demo_certificate : x509 := X509 (fun _ n => (12, if 12 <=? n then Some (bs "CN=example") else None)) (Some [0; 171; 255]%Z) 0 0.

Lemma fingerprint_roundtrip_witness :
  extract_x509_fingerprint_sha256 demo_certificate = bs "00abff"
  /\ read_hex (extract_x509_fingerprint_sha256 demo_certificate) = [0; 171; 255]%Z.
Proof.
  split; [vm_compute; reflexivity|]. apply (fingerprint_roundtrip demo_certificate [0; 171; 255]%Z eq_refl).
  repeat constructor; done.
Defined.

(** The opaque value has 64 digits, twice what its comment says. *)
Theorem opaque_has_64_digits rd : length (generate_random_hex_opaque_ rd) = 64.
Proof. done. Qed.
