(* ===== verification/ClientCert.v ===== *)
(** * The client certificate of a request

    [http_request_impl_tls.cpp] and the accessors of [http_request_auth.cpp]:
    the owner of the GnuTLS certificate object, the filling of the cached fields
    step by step, with an allocation of each string that may fail, and what each
    accessor makes of it.  [Tls] has the values; here are the object's lifetime
    and the error paths. *)

From S2P Require Import Prelude HttpUtils Cookie OrderedMap HttpResponse Request Tls.
Import Tls.

Module ClientCert.

(** Certificate objects of GnuTLS, the cached fields, and the allocations of
    strings made so far. *)
Record cert_state : Type := CertState {
  fields : cert_fields;
  live_crts : gset nat;
  freed_crts : list nat;
  next_crt : nat;
  string_allocs : nat;
}.

Definition set_fields (f : cert_fields -> cert_fields) (s : cert_state) : cert_state :=
  CertState (f (fields s)) (live_crts s) (freed_crts s) (next_crt s) (string_allocs s).

(** ** [scoped_x509_cert] *)

Record scoped_x509_cert : Type := Scoped { cert_ : option nat; valid_ : bool }.

Definition empty_scoped : scoped_x509_cert := Scoped None false.

Definition gnutls_x509_crt_deinit (id : nat) (s : cert_state) : cert_state :=
  CertState (fields s) (live_crts s ∖ {[id]}) (freed_crts s ++ [id]) (next_crt s) (string_allocs s).

Definition release (c : scoped_x509_cert) (s : cert_state) : cert_state :=
  match cert_ c with Some id => gnutls_x509_crt_deinit id s | None => s end.

Definition move_construct (other : scoped_x509_cert) : scoped_x509_cert * scoped_x509_cert := (other, empty_scoped).

(** [a = std::move(b)] for two objects: the new [a], the new [b]. *)
Definition move_assign (a b : scoped_x509_cert) (s : cert_state) : scoped_x509_cert * scoped_x509_cert * cert_state :=
  (b, empty_scoped, release a s).

Section ClientCert.
(** [gnutls_x509_crt_init], and the allocations of strings that succeed. *)
Context (crt_init_ok : bool) (can_allocate : nat -> bool) (conn : option (option tls_session)).

Definition init_from_session (session : tls_session) (c : scoped_x509_cert) (s : cert_state) : scoped_x509_cert * bool * cert_state :=
  if negb (has_peer_certificate session) then (c, false, s)
  else if negb crt_init_ok then (Scoped None (valid_ c), false, s)
  else
    let id := next_crt s in
    let s := CertState (fields s) ({[id]} ∪ live_crts s) (freed_crts s) (S id) (string_allocs s) in
    match imported session with
    | None => (Scoped None (valid_ c), false, gnutls_x509_crt_deinit id s)
    | Some _ => (Scoped (Some id) true, true, s)
    end.

(** ** [populate_all_cert_fields] *)

Definition bad_alloc : exn := std_exception (bs "std::bad_alloc").

Definition allocate : stx cert_state unit := fun s =>
  (CertState (fields s) (live_crts s) (freed_crts s) (next_crt s) (S (string_allocs s)),
   if can_allocate (string_allocs s) then Ok () else Throw bad_alloc).

(** A text is extracted to a string, which is assigned to its field. *)
Definition assign_field (set : bytes -> cert_fields -> cert_fields) (text : bytes) : stx cert_state unit :=
  _ ← allocate; _ ← allocate; stx_modify (set_fields (set text)).

Definition set_cached (f : cert_fields) : cert_fields :=
  CertFields true (client_cert_dn f) (client_cert_issuer_dn f) (client_cert_cn f) (client_cert_fingerprint_sha256 f)
    (client_cert_not_before f) (client_cert_not_after f) (client_cert_verified f).
Definition set_verified (v : bool) (f : cert_fields) : cert_fields :=
  CertFields (client_cert_fields_cached f) (client_cert_dn f) (client_cert_issuer_dn f) (client_cert_cn f) (client_cert_fingerprint_sha256 f)
    (client_cert_not_before f) (client_cert_not_after f) v.
Definition set_dn (x : bytes) (f : cert_fields) : cert_fields :=
  CertFields (client_cert_fields_cached f) x (client_cert_issuer_dn f) (client_cert_cn f) (client_cert_fingerprint_sha256 f)
    (client_cert_not_before f) (client_cert_not_after f) (client_cert_verified f).
Definition set_issuer (x : bytes) (f : cert_fields) : cert_fields :=
  CertFields (client_cert_fields_cached f) (client_cert_dn f) x (client_cert_cn f) (client_cert_fingerprint_sha256 f)
    (client_cert_not_before f) (client_cert_not_after f) (client_cert_verified f).
Definition set_cn (x : bytes) (f : cert_fields) : cert_fields :=
  CertFields (client_cert_fields_cached f) (client_cert_dn f) (client_cert_issuer_dn f) x (client_cert_fingerprint_sha256 f)
    (client_cert_not_before f) (client_cert_not_after f) (client_cert_verified f).
Definition set_fingerprint (x : bytes) (f : cert_fields) : cert_fields :=
  CertFields (client_cert_fields_cached f) (client_cert_dn f) (client_cert_issuer_dn f) (client_cert_cn f) x
    (client_cert_not_before f) (client_cert_not_after f) (client_cert_verified f).
Definition set_times (a b : Z) (f : cert_fields) : cert_fields :=
  CertFields (client_cert_fields_cached f) (client_cert_dn f) (client_cert_issuer_dn f) (client_cert_cn f) (client_cert_fingerprint_sha256 f)
    a b (client_cert_verified f).

(** The body after the certificate was imported. *)
Definition fill_fields (session : tls_session) (cert : x509) : stx cert_state unit :=
  _ ← stx_modify (set_fields (set_verified (verify_peer_certificate session)));
  _ ← assign_field set_dn (extract_x509_string cert subject_dn);
  _ ← assign_field set_issuer (extract_x509_string cert issuer_dn);
  _ ← assign_field set_cn (extract_x509_common_name cert);
  _ ← assign_field set_fingerprint (extract_x509_fingerprint_sha256 cert);
  stx_modify (set_fields (set_times (activation_time cert) (expiration_time cert))).

(** The destructor of the certificate object runs on every way out. *)
Definition populate : stx cert_state unit := fun s =>
  if client_cert_fields_cached (fields s) then (s, Ok ())
  else
    let s := set_fields set_cached s in
    match get_tls_session conn with
    | None => (release empty_scoped s, Ok ())
    | Some session =>
        let '(c, _, s) := init_from_session session empty_scoped s in
        match valid_ c, imported session with
        | true, Some cert => let '(s, o) := fill_fields session cert s in (release c s, o)
        | _, _ => (release c s, Ok ())
        end
    end.

(** ** The accessors *)

Definition get_field {A} (f : cert_fields -> A) : stx cert_state A := _ ← populate; stx_gets (fun s => f (fields s)).

Definition get_client_cert_dn : stx cert_state bytes := get_field client_cert_dn.
Definition get_client_cert_issuer_dn : stx cert_state bytes := get_field client_cert_issuer_dn.
Definition get_client_cert_cn : stx cert_state bytes := get_field client_cert_cn.
Definition get_client_cert_fingerprint_sha256 : stx cert_state bytes := get_field client_cert_fingerprint_sha256.
Definition is_client_cert_verified : stx cert_state bool := stx_try (get_field client_cert_verified) (fun _ => mret false).
Definition get_client_cert_not_before : stx cert_state Z := stx_try (get_field client_cert_not_before) (fun _ => mret (-1)%Z).
Definition get_client_cert_not_after : stx cert_state Z := stx_try (get_field client_cert_not_after) (fun _ => mret (-1)%Z).

Inductive accessor : Type := AskDn | AskIssuer | AskCn | AskFingerprint | AskVerified | AskNotBefore | AskNotAfter.

Definition ask (a : accessor) : stx cert_state unit :=
  match a with
  | AskDn => _ ← get_client_cert_dn; mret ()
  | AskIssuer => _ ← get_client_cert_issuer_dn; mret ()
  | AskCn => _ ← get_client_cert_cn; mret ()
  | AskFingerprint => _ ← get_client_cert_fingerprint_sha256; mret ()
  | AskVerified => _ ← is_client_cert_verified; mret ()
  | AskNotBefore => _ ← get_client_cert_not_before; mret ()
  | AskNotAfter => _ ← get_client_cert_not_after; mret ()
  end.

(** A handler that asks for one field after another, whatever is thrown. *)
Definition after_asking (l : list accessor) : cert_state -> cert_state := fun s => foldl (fun s a => fst (ask a s)) s l.

End ClientCert.

Definition unasked : cert_state := CertState no_cert_fields ∅ [] 0 0.

End ClientCert.
Import ClientCert.

Section Facts.
Context (crt_init_ok : bool) (can_allocate : nat -> bool) (conn : option (option tls_session)).

(** ** What a request can report *)

(** The session and its certificate, when one was sent and could be imported. *)
Definition true_cert : option (tls_session * x509) :=
  session ← get_tls_session conn;
  cert ← (if has_peer_certificate session && crt_init_ok then imported session else None);
  Some (session, cert).

(** The assignments of the filling, and the fields after the first [k] of them. *)
Definition assignments (session : tls_session) (cert : x509) : list (cert_fields -> cert_fields) :=
  [set_verified (verify_peer_certificate session); set_dn (extract_x509_string cert subject_dn);
   set_issuer (extract_x509_string cert issuer_dn); set_cn (extract_x509_common_name cert);
   set_fingerprint (extract_x509_fingerprint_sha256 cert); set_times (activation_time cert) (expiration_time cert)].

Definition stage (k : nat) : cert_fields :=
  match true_cert with
  | Some (session, cert) => foldl (fun f g => g f) (set_cached no_cert_fields) (take k (assignments session cert))
  | None => set_cached no_cert_fields
  end.

(** With all allocations the fields are [Tls]'s. *)
Lemma stage_all : crt_init_ok = true -> stage 6 = populate_all_cert_fields conn no_cert_fields.
Proof.
  intros Hc. unfold stage, true_cert, populate_all_cert_fields, init_from_session. cbn [client_cert_fields_cached no_cert_fields].
  destruct (get_tls_session conn) as [session|]; cbn [mbind option_bind]; [|done]. unfold Tls.init_from_session. rewrite Hc, andb_true_r.
  by destruct (has_peer_certificate session), (imported session).
Qed.

(** Nothing but the fields and the count of allocations changes. *)
Definition same_crts (s s' : cert_state) : Prop := live_crts s' = live_crts s /\ freed_crts s' = freed_crts s /\ next_crt s' = next_crt s.

Definition out_of_memory {A} (o : outcome A) : Prop := o = Throw bad_alloc /\ exists n, can_allocate n = false.

(** A step makes the first of the assignments [gs], all of them or until memory runs out. *)
Definition runs (gs : list (cert_fields -> cert_fields)) (m : stx cert_state unit) : Prop :=
  forall s, exists s' o k, m s = (s', o) /\ same_crts s s' /\ k <= length gs
    /\ fields s' = foldl (fun f g => g f) (fields s) (take k gs) /\ (o = Ok () /\ k = length gs \/ out_of_memory o).

Lemma runs_modify g : runs [g] (stx_modify (set_fields g)).
Proof. intros s. eexists _, _, 1. split; [done|]. split; [done|]. cbn. split; [lia|]. split; [done|by left]. Qed.

Lemma runs_assign set text : runs [set text] (assign_field can_allocate set text).
Proof.
  intros s. unfold assign_field, allocate, mbind, stx_bind, stx_modify.
  destruct (can_allocate (string_allocs s)) eqn:E1; [cbn; destruct (can_allocate (S (string_allocs s))) eqn:E2|].
  1: eexists _, _, 1. 2, 3: eexists _, _, 0. all: split; [done|]; split; [done|]; cbn; split; [lia|]; split; [done|].
  - by left.
  - right. split; [done|by eexists].
  - right. split; [done|by eexists].
Qed.

Lemma runs_seq gs gs' m m' : runs gs m -> runs gs' m' -> runs (gs ++ gs') (m ≫= fun _ => m').
Proof.
  intros Hm Hm' s. unfold mbind, stx_bind. destruct (Hm s) as (s1 & o1 & k1 & -> & C1 & Hk1 & F1 & [[-> ->]|Ho]).
  - destruct (Hm' s1) as (s2 & o2 & k2 & -> & C2 & Hk2 & F2 & Ho2). exists s2, o2, (length gs + k2). rewrite length_app.
    split; [done|]. split; [unfold same_crts in *; naive_solver congruence|]. split; [lia|]. split.
    + rewrite F2, F1, firstn_all, take_app_add, foldl_app. done.
    + destruct Ho2 as [[-> ->]|Ho2]; [by left|by right].
  - destruct Ho as [-> Hn]. exists s1, (Throw bad_alloc), k1. rewrite length_app. split; [done|]. split; [done|]. split; [lia|].
    split; [|by right]. rewrite take_app_le by done. done.
Qed.

Lemma fill_runs session cert : runs (assignments session cert) (fill_fields can_allocate session cert).
Proof.
  apply (runs_seq [_] (_ :: _)); [apply runs_modify|]. do 4 (apply (runs_seq [_] (_ :: _)); [apply runs_assign|]). apply runs_modify.
Qed.

(** ** The invariant of the accessors *)

(** Between two accessors no certificate object is left and each was freed once. *)
Record cert_ok (s : cert_state) : Prop := {
  co_live : live_crts s = ∅;
  co_freed : freed_crts s = seq 0 (next_crt s);
  co_fields : fields s = no_cert_fields \/ exists k, k <= 6 /\ fields s = stage k;
}.

Lemma unasked_ok : cert_ok unasked.
Proof. constructor; [done|done|by left]. Qed.

Lemma stage_cached k : client_cert_fields_cached (stage k) = true.
Proof.
  unfold stage. destruct true_cert as [[session cert]|]; [|done]. unfold assignments.
  do 7 (destruct k as [|k]; [done|]). done.
Qed.

(** Filling the fields: it returns or throws for want of memory, and what it
    filled are the true values. *)
Lemma cert_populate_ok s : cert_ok s ->
  exists s' o, populate crt_init_ok can_allocate conn s = (s', o) /\ cert_ok s' /\ client_cert_fields_cached (fields s') = true
    /\ (o = Ok () \/ out_of_memory o)
    /\ ((forall n, can_allocate n = true) -> fields s = no_cert_fields \/ fields s = stage 6 -> o = Ok () /\ fields s' = stage 6).
Proof.
  intros [Hl Hf Hfs]. unfold populate. destruct (client_cert_fields_cached (fields s)) eqn:Ec.
  { exists s, (Ok ()). split; [done|]. split; [by constructor|]. split; [done|]. split; [by left|]. intros _ [Hn|Hn]; [by rewrite Hn in Ec|done]. }
  destruct Hfs as [Hfs|(k & _ & Hfs)]; [|by rewrite Hfs, stage_cached in Ec].
  destruct s as [f lv fr nx al]. cbn in *. subst f lv fr.
  assert (Hnone : true_cert = None -> forall k, stage k = set_cached no_cert_fields) by (intros Ht k; unfold stage; by rewrite Ht).
  assert (Hempty : forall s', true_cert = None -> live_crts s' = ∅ -> freed_crts s' = seq 0 (next_crt s') -> fields s' = set_cached no_cert_fields ->
    exists s'' o, (s', Ok ()) = (s'', o) /\ cert_ok s'' /\ client_cert_fields_cached (fields s'') = true
      /\ (o = Ok () \/ out_of_memory o)
      /\ ((forall n, can_allocate n = true) -> no_cert_fields = no_cert_fields \/ no_cert_fields = stage 6 -> o = Ok () /\ fields s'' = stage 6)).
  { intros s' Ht H1 H2 H3. exists s', (Ok ()). split; [done|]. split; [constructor; [done|done|]; right; exists 0; split; [lia|]; by rewrite Hnone|].
    rewrite H3. split; [done|]. split; [by left|]. intros _ _. by rewrite Hnone. }
  unfold true_cert in *. destruct (get_tls_session conn) as [session|] eqn:Es; cbn [mbind option_bind] in *; [|by apply Hempty].
  unfold init_from_session. destruct (has_peer_certificate session) eqn:Eh; cbn [negb andb] in *; [|by apply Hempty].
  destruct crt_init_ok eqn:Ecr; cbn [negb] in *; [|by apply Hempty].
  destruct (imported session) as [cert|] eqn:Ei; cbn [mbind option_bind valid_ empty_scoped] in *.
  2: { apply Hempty; [done|cbn; set_solver|cbn -[seq]; by rewrite seq_S|done]. }
  match goal with |- context [fill_fields _ _ _ ?x] => destruct (fill_runs session cert x) as (s1 & o & k & -> & (C1 & C2 & C3) & Hk & F & Ho) end.
  cbn [fields set_fields] in F. assert (Hst : fields s1 = stage k) by (unfold stage, true_cert; rewrite Es, F; cbn; by rewrite Eh, Ecr, Ei).
  eexists _, o. split; [done|]. split; [|split; [|split]].
  - constructor; cbn -[seq]; rewrite ?C1, ?C2, ?C3; cbn -[seq]; [set_solver|by rewrite seq_S|]. right. by exists k.
  - cbn. rewrite Hst. apply stage_cached.
  - destruct Ho as [[-> _]|Ho]; [by left|by right].
  - intros Hall _. destruct Ho as [[-> ->]|[-> [n Hn]]]; [done|]. by rewrite Hall in Hn.
Qed.

Lemma get_field_ok {A} (f : cert_fields -> A) s : cert_ok s ->
  exists s' o, get_field crt_init_ok can_allocate conn f s = (s', o) /\ cert_ok s' /\ client_cert_fields_cached (fields s') = true
    /\ (o = Ok (f (fields s')) \/ out_of_memory o)
    /\ ((forall n, can_allocate n = true) -> fields s = no_cert_fields \/ fields s = stage 6 -> fields s' = stage 6).
Proof.
  intros Hs. unfold get_field, mbind, stx_bind. destruct (cert_populate_ok s Hs) as (s' & o & -> & Hs' & Hc & [->|[-> Hm]] & Ha).
  - do 2 eexists. split; [done|]. split; [done|]. split; [done|]. split; [by left|]. intros H1 H2. by apply Ha.
  - do 2 eexists. split; [done|]. split; [done|]. split; [done|]. split; [by right|]. intros H1 H2. by destruct (Ha H1 H2).
Qed.

Lemma ask_ok a s : cert_ok s ->
  cert_ok (fst (ask crt_init_ok can_allocate conn a s))
  /\ ((forall n, can_allocate n = true) -> fields s = no_cert_fields \/ fields s = stage 6 ->
      fields (fst (ask crt_init_ok can_allocate conn a s)) = stage 6).
Proof.
  intros Hs. destruct a; cbn [ask];
    unfold get_client_cert_dn, get_client_cert_issuer_dn, get_client_cert_cn, get_client_cert_fingerprint_sha256,
      is_client_cert_verified, get_client_cert_not_before, get_client_cert_not_after, stx_try, mbind, stx_bind;
    match goal with |- context [get_field _ _ _ ?f s] => destruct (get_field_ok f s Hs) as (s' & o & -> & Hs' & _ & [->|[-> _]] & Ha) end;
    split; try exact Hs'; exact Ha.
Qed.

Lemma after_asking_ok l s : cert_ok s -> cert_ok (after_asking crt_init_ok can_allocate conn l s).
Proof. revert s. induction l as [|a l IH]; intros s Hs; [done|]. by apply IH, ask_ok. Qed.

Lemma after_asking_all l s : (forall n, can_allocate n = true) -> cert_ok s -> fields s = no_cert_fields \/ fields s = stage 6 ->
  l <> [] \/ fields s = stage 6 -> fields (after_asking crt_init_ok can_allocate conn l s) = stage 6.
Proof.
  intros Ha. revert s. induction l as [|a l IH]; intros s Hs Hf Hl; [by destruct Hl|].
  destruct (ask_ok a s Hs) as [Hs' Hf']. specialize (Hf' Ha Hf). apply IH; auto.
Qed.

(** No field says anything false: it is empty (a time is -1), or it is that of the
    certificate the peer sent. *)
Definition truthful (f : cert_fields) : Prop :=
  let own := snd <$> true_cert in
  (client_cert_dn f = [] \/ Some (client_cert_dn f) = (fun c => extract_x509_string c subject_dn) <$> own)
  /\ (client_cert_issuer_dn f = [] \/ Some (client_cert_issuer_dn f) = (fun c => extract_x509_string c issuer_dn) <$> own)
  /\ (client_cert_cn f = [] \/ Some (client_cert_cn f) = extract_x509_common_name <$> own)
  /\ (client_cert_fingerprint_sha256 f = [] \/ Some (client_cert_fingerprint_sha256 f) = extract_x509_fingerprint_sha256 <$> own)
  /\ (client_cert_not_before f = (-1)%Z \/ Some (client_cert_not_before f) = activation_time <$> own)
  /\ (client_cert_not_after f = (-1)%Z \/ Some (client_cert_not_after f) = expiration_time <$> own).

Lemma stage_truthful k : truthful (stage k).
Proof.
  unfold stage, truthful. destruct true_cert as [[session cert]|]; [|by split_and!; left]. cbn [fmap option_fmap option_map snd].
  unfold assignments. do 6 (destruct k as [|k]; [split_and!; cbn; auto|]). destruct k; split_and!; cbn; auto.
Qed.

Lemma stage_verdict k : client_cert_verified (stage k) = true ->
  exists session cert, true_cert = Some (session, cert) /\ verify_peers2 session = Some 0%Z.
Proof.
  unfold stage. destruct true_cert as [[session cert]|]; [|done]. intros Hv. exists session, cert. split; [done|].
  assert (Hvp : verify_peer_certificate session = true) by (unfold assignments in Hv; destruct k as [|k]; [done|]; by do 6 (destruct k as [|k]; [exact Hv|])).
  unfold verify_peer_certificate in Hvp. destruct (verify_peers2 session) as [z|]; [|done]. by apply Z.eqb_eq in Hvp as ->.
Qed.

(** C21: However many accessors a handler calls, and whichever allocation fails on
    the way: no certificate object is left and each was freed exactly once; no
    field says anything false, each being empty or the certificate's own; the
    verdict does not throw and is positive only for a certificate GnuTLS
    verified; and when memory suffices every field is exactly the certificate's.
    (A field that a failed allocation left empty is not filled later:
    [failed_fill_is_forgotten].) *)
Theorem cert_fields_survive_failures l :
  let s := after_asking crt_init_ok can_allocate conn l unasked in
  live_crts s = ∅ /\ freed_crts s = seq 0 (next_crt s)
  /\ truthful (fields s)
  /\ (exists v, snd (is_client_cert_verified crt_init_ok can_allocate conn s) = Ok v
      /\ (v = true -> exists session cert, true_cert = Some (session, cert) /\ verify_peers2 session = Some 0%Z))
  /\ ((forall n, can_allocate n = true) -> crt_init_ok = true -> l <> [] -> fields s = populate_all_cert_fields conn no_cert_fields).
Proof.
  intros s. assert (Hs : cert_ok s) by (apply after_asking_ok, unasked_ok). split; [apply Hs|]. split; [apply Hs|]. split.
  { destruct (co_fields _ Hs) as [->|(k & _ & ->)]; [by split_and!; left|apply stage_truthful]. }
  split.
  - unfold is_client_cert_verified, stx_try. destruct (get_field_ok client_cert_verified s Hs) as (s' & o & -> & Hs' & Hc & [->|[-> _]] & _); [|by exists false].
    exists (client_cert_verified (fields s')). split; [done|]. intros Hv.
    destruct (co_fields _ Hs') as [E|(k & _ & E)]; rewrite E in Hv; [done|by apply (stage_verdict k)].
  - intros Ha Hc Hl. rewrite <- stage_all by done. apply after_asking_all; [done|apply unasked_ok|by left|by left].
Qed.

End Facts.

(** A session with a verified certificate. *)
Definition demo_cert : x509 :=
  X509 (fun field n => let text := match field with subject_dn => bs "CN=a" | issuer_dn => bs "CN=ca" | common_name => bs "a" end in
          (S (length text), if n <=? length text then None else Some text)) (Some [1; 255]%Z) 10 20.
Definition demo_session : tls_session := TlsSession true (Some demo_cert) (Some 0%Z).

Example cert_dn_asked :
  snd (get_client_cert_dn true (fun _ => true) (Some (Some demo_session)) unasked) = Ok (bs "CN=a").
Proof. by vm_compute. Qed.

(** The failure of an allocation is forgotten: the first question about the
    verdict is answered no for want of memory, the same question asked again is
    answered yes, and the subject of that verified certificate is then empty. *)
Lemma failed_fill_is_forgotten :
  let s := after_asking true (fun n => negb (n =? 0)) (Some (Some demo_session)) [AskVerified] unasked in
  snd (is_client_cert_verified true (fun n => negb (n =? 0)) (Some (Some demo_session)) unasked) = Ok false
  /\ snd (is_client_cert_verified true (fun n => negb (n =? 0)) (Some (Some demo_session)) s) = Ok true
  /\ snd (get_client_cert_dn true (fun n => negb (n =? 0)) (Some (Some demo_session)) s) = Ok [].
Proof. by vm_compute. Qed.
