(* ===== verification/Construction.v ===== *)
(** * The construction of a server

    The constructor of [webserver.cpp] and what it calls: the skip list, the checks
    of the build, the SIGPIPE handler and the hooks the library installs for the
    configured handlers.  Here the components start, each in the state its own
    theorems begin with. *)

From S2P Require Import Prelude HttpUtils HttpMethod Paths RouteCache Regex HttpEndpoint RouteTable Registration.
From S2P Require Import Cookie OrderedMap IpAddress HttpResponse HookBus Request Upload Dispatch DispatchSafety DispatchSpec.
From S2P Require Import Aliases Config Lifecycle Tls.
Import HttpUtils.HttpUtils RouteTable.RouteTable Registration.Registration.
Import HookBus.Hooks Dispatch.Dispatch Aliases.Aliases Config.Config Config.Daemon Lifecycle.Lifecycle Tls.Tls.

Module Construction.

(** ** The process *)

(** What the constructor changes outside the server. *)
Record process_state : Type := ProcessState { sigpipe_caught : bool; stderr_text : bytes }.

(** [ignore_sigpipe]: [failure] is the text of the error of [sigaction], if any. *)
Definition ignore_sigpipe (failure : option bytes) : stx process_state unit :=
  match failure with
  | None => stx_modify (fun p => ProcessState true (stderr_text p))
  | Some text => stx_modify (fun p => ProcessState (sigpipe_caught p) (stderr_text p ++ bs "Failed to install SIGPIPE handler: " ++ text ++ [LF]))
  end.

(** ** The library's hooks *)

(** [add_hook(phase, fn).detach()]: the handle and the receipt are temporaries. *)
Definition add_detached (o : overload) (f : nat) (s : hook_program) : hook_program :=
  match webserver_add_hook o (overload_phase o) (Some f) (hp_tables s) with
  | (ts, Ok h) =>
      let '(receipt, h') := handle_detach h in
      HookProgram (handle_destroy h' (handle_destroy receipt ts)) (hp_handles s ++ [None; None]) (hp_detached s ++ opt_list (ref_of h)) (hp_dead s)
  | _ => s
  end.

Definition when_configured (handler : option nat) (f : hook_program -> hook_program) (s : hook_program) : hook_program :=
  match handler with Some _ => f s | None => s end.

Definition with_bus (f : hook_bus -> hook_bus) (s : hook_program) : hook_program :=
  HookProgram (Tables (f (bus (hp_tables s))) (routes (hp_tables s))) (hp_handles s) (hp_detached s) (hp_dead s).

(** [install_default_alias_hooks_] with its handles. *)
Definition constructor_hooks (cfg : Dispatch.config) (acfg : alias_config) : hook_program :=
  let s := HookProgram (Tables new_bus ∅) [] [] ∅ in
  let s := when_configured (Aliases.auth_handler acfg) (add_detached on_before_handler auth_alias) s in
  let s := when_configured (Dispatch.method_not_allowed_handler cfg) (add_detached on_before_handler method_not_allowed_alias) s in
  let s := when_configured (Dispatch.not_found_handler cfg) (add_detached on_route_resolved not_found_alias) s in
  let s := when_configured (Dispatch.internal_error_handler cfg) (with_bus (set_handler_exception_alias (Some internal_error_alias))) s in
  when_configured (Aliases.log_access acfg) (with_bus (set_log_access_alias (Some log_access_alias))) s.

(** ** The server *)

Section Server.
Context `{RegexEngine, StdHash, Features}.

Record webserver : Type := Webserver {
  ws_config : Dispatch.config;
  ws_aliases : alias_config;
  ws_registration : Registration.config;
  ws_socket : option Z;
  ws_routes : server nat;
  ws_hooks : hook_program;
  ws_life : lifecycle;
}.

(** [webserver(params)]; [rd] are the samples of the random device. *)
Definition construct_webserver (rd : nat -> Z) (sigpipe_failure : option bytes) (c : webserver_config) : stx process_state webserver :=
  acfg ← stx_lift (alias_config_of c);
  table ← stx_lift new_server;
  let cfg := dispatch_config c (if have_dauth then generate_random_hex_opaque_ rd else []) in
  _ ← stx_lift (check_features c);
  _ ← ignore_sigpipe sigpipe_failure;
  mret (Webserver cfg acfg (registration_config c) (lifecycle_socket c) table (constructor_hooks cfg acfg) new_lifecycle).

End Server.

End Construction.
Import Construction.

(** ** The hooks after construction *)

Lemma insert_last {A} (l : list A) x y : <[length l := y]> (l ++ [x]) = l ++ [y].
Proof. rewrite insert_app_r_alt by lia. by rewrite Nat.sub_diag. Qed.

Lemma add_detached_reach o f s : hook_reach s -> (next_slot_id_ (bus (hp_tables s)) < 2 ^ 64 - 1)%Z -> hook_reach (add_detached o f s).
Proof.
  intros Hs Hn. unfold add_detached. destruct (webserver_add_hook o (overload_phase o) (Some f) (hp_tables s)) as [ts [h|e|]] eqn:E; [|done..].
  unfold handle_detach. set (receipt := HookHandle _ _ _ _ _). set (l := hp_handles s). set (d := hp_detached s ++ opt_list (ref_of h)).
  assert (H1' : hook_reach (HookProgram ts (l ++ [Some h]) (hp_detached s) (hp_dead s))) by (by eapply hr_step, hs_add).
  assert (H2' : hook_reach (HookProgram ts ((l ++ [Some (disarmed h)]) ++ [Some receipt]) d (hp_dead s))).
  { rewrite <- (insert_last l (Some h)). refine (hr_step _ _ H1' (hs_detach (HookProgram ts (l ++ [Some h]) _ _) (length l) h receipt (disarmed h) _ eq_refl)).
    cbn. by rewrite lookup_app_r, Nat.sub_diag by lia. }
  assert (H3' : hook_reach (HookProgram ts ((l ++ [Some (disarmed h)]) ++ [None]) d (hp_dead s))).
  { rewrite <- (insert_last _ (Some receipt)).
    refine (hr_step _ _ H2' (hs_destroy (HookProgram ts (_ ++ [Some receipt]) d _) (length (l ++ [Some (disarmed h)])) receipt _)).
    cbn. by rewrite lookup_app_r, Nat.sub_diag by lia. }
  rewrite <- app_assoc in H3'. replace (l ++ [None; None]) with (<[length l := None]> (l ++ [Some (disarmed h); None])).
  - refine (hr_step _ _ H3' (hs_destroy (HookProgram ts (l ++ [Some (disarmed h); None]) d _) (length l) (disarmed h) _)).
    cbn. by rewrite lookup_app_r, Nat.sub_diag by lia.
  - rewrite insert_app_r_alt by lia. by rewrite Nat.sub_diag.
Qed.

(** What [add_detached] does to the bus. *)
Lemma add_detached_bus o f s :
  bus (hp_tables (add_detached o f s)) = fst (add o (overload_phase o) (Some f) (bus (hp_tables s))).
Proof.
  unfold add_detached, webserver_add_hook, add, add_impl. rewrite bool_decide_false by (intros Hn; by apply Hn). done.
Qed.

Lemma with_alias_reach s f b : hook_reach s ->
  b = set_handler_exception_alias (Some f) (bus (hp_tables s)) \/ b = set_log_access_alias (Some f) (bus (hp_tables s)) ->
  hook_reach (with_bus (fun _ => b) s).
Proof. intros Hs Hb. by apply (hr_step s), (hs_alias s f b). Qed.

Lemma constructor_hooks_reach cfg acfg : hook_reach (constructor_hooks cfg acfg).
Proof.
  unfold constructor_hooks. set (s0 := HookProgram _ _ _ _). assert (H0' : hook_reach s0) by constructor.
  destruct (Aliases.auth_handler acfg), (Dispatch.method_not_allowed_handler cfg), (Dispatch.not_found_handler cfg),
    (Dispatch.internal_error_handler cfg), (Aliases.log_access acfg); cbn [when_configured];
  repeat first [exact H0' | apply add_detached_reach; [|vm_compute; reflexivity]
    | refine (with_alias_reach _ log_access_alias _ _ (or_intror eq_refl)) | refine (with_alias_reach _ internal_error_alias _ _ (or_introl eq_refl))].
Qed.

(** The bus is the one [Aliases] starts from. *)
Lemma constructor_bus cfg acfg : bus (hp_tables (constructor_hooks cfg acfg)) = installed_bus cfg acfg.
Proof.
  unfold constructor_hooks, installed_bus, install_default_alias_hooks_, install_hook.
  by destruct (Aliases.auth_handler acfg), (Dispatch.method_not_allowed_handler cfg), (Dispatch.not_found_handler cfg),
    (Dispatch.internal_error_handler cfg), (Aliases.log_access acfg).
Qed.

(** Authentication has the first seat, and its handle is gone. *)
Lemma constructor_seated cfg acfg h : Aliases.auth_handler acfg = Some h -> seated (PhaseEntry 1 auth_alias) (constructor_hooks cfg acfg).
Proof.
  intros Ha. unfold constructor_hooks. rewrite Ha.
  destruct (Dispatch.method_not_allowed_handler cfg), (Dispatch.not_found_handler cfg),
    (Dispatch.internal_error_handler cfg), (Aliases.log_access acfg); (split; [by eexists|by left]).
Qed.

(** ** When construction fails, and what it leaves *)

Section Facts.
Context `{RegexEngine, StdHash, !StdHashOk, Features}.

Definition escaped (entry : bytes) : Prop := "%"%char ∈ entry.

(** A feature that the configuration asks for and the build lacks. *)
Definition missing (c : webserver_config) (e : exn) : Prop :=
  (switches c use_ssl = true /\ have_gnutls = false /\ e = feature_unavailable (bs "tls") (bs "HAVE_GNUTLS"))
  \/ (switches c basic_auth_enabled = true /\ have_bauth = false /\ e = feature_unavailable (bs "basic_auth") (bs "HAVE_BAUTH"))
  \/ (switches c digest_auth_enabled = true /\ have_dauth = false /\ e = feature_unavailable (bs "digest_auth") (bs "HAVE_DAUTH")).

(** A server that [construct_webserver] returns for a configuration: it can route,
    and authentication keeps the first seat of [before_handler] whatever the program
    does with hooks from here on. *)
Record starts_sound (c : webserver_config) (ws : webserver) : Prop := {
  ss_routes : wf_server (ws_routes ws) /\ cache_inv (routes_ (ws_routes ws)) /\ heap (ws_routes ws) = ∅;
  ss_hooks s : rtc hook_step (ws_hooks ws) s -> bus_ok (bus (hp_tables s));
  ss_auth s : is_Some (calls c auth_handler) -> rtc hook_step (ws_hooks ws) s -> auth_first (bus (hp_tables s));
  ss_bus : bus (hp_tables (ws_hooks ws)) = installed_bus (ws_config ws) (ws_aliases ws);
  ss_skip : Forall2 (fun entry n => normalize_skip_entry entry = Ok n) (auth_skip_paths c) (auth_skip_paths_normalized (ws_aliases ws));
}.

Lemma skip_entry_ok entry : ~ escaped entry <-> exists n, normalize_skip_entry entry = Ok n.
Proof.
  unfold escaped, normalize_skip_entry. case_bool_decide as Hp; [split; [done|by intros [n ?]]|]. split; [|done]. intros _.
  destruct (ends_with_slash_star entry); [|by eexists]. destruct (length entry =? 2); [by eexists|]. destruct (bytes_eqb _ _); by eexists.
Qed.

(** The skip list is normalised, or one of its entries is escaped and named in the
    exception. *)
Lemma skip_paths_outcome l : match normalize_auth_skip_paths l with
  | Ok _ => Forall (fun entry => ~ escaped entry) l
  | Throw e => Exists (fun entry => escaped entry /\ e = invalid_argument (skip_entry_error entry)) l
  | Undefined => False
  end.
Proof.
  induction l as [|entry l IH]; cbn; [done|]. unfold mbind, outcome_bind. destruct (normalize_skip_entry entry) as [n|e|] eqn:E.
  - assert (Hn : ~ escaped entry) by (apply skip_entry_ok; by exists n).
    destruct (normalize_auth_skip_paths l) as [ns|e|]; [by constructor|by right|done].
  - revert E. unfold normalize_skip_entry. case_bool_decide; [|by repeat case_match]. intros [= <-]. by left.
  - revert E. unfold normalize_skip_entry. by repeat case_match.
Qed.

Lemma check_features_outcome c : match check_features c with
  | Ok _ => forall e, ~ missing c e
  | Throw e => missing c e
  | Undefined => False
  end.
Proof.
  unfold check_features, missing.
  destruct (negb have_gnutls && switches c use_ssl) eqn:E1; [apply andb_true_iff in E1 as [?%negb_true_iff ?]; by left|].
  destruct (negb have_bauth && switches c basic_auth_enabled) eqn:E2; [apply andb_true_iff in E2 as [?%negb_true_iff ?]; by right; left|].
  destruct (negb have_dauth && switches c digest_auth_enabled) eqn:E3; [apply andb_true_iff in E3 as [?%negb_true_iff ?]; by right; right|].
  intros e [(A & B & _)|[(A & B & _)|(A & B & _)]]; by rewrite A, B in *.
Qed.

Lemma new_server_some : exists s : server nat, new_server = Ok s /\ heap s = ∅.
Proof. by eexists. Qed.

Lemma start_sound c opaque skip (table : server nat) :
  normalize_auth_skip_paths (auth_skip_paths c) = Ok skip -> new_server = Ok table -> heap table = ∅ ->
  let cfg := dispatch_config c opaque in
  let acfg := AliasConfig (calls c auth_handler) (calls c log_access) skip in
  starts_sound c (Webserver cfg acfg (registration_config c) (lifecycle_socket c) table (constructor_hooks cfg acfg) new_lifecycle).
Proof.
  intros Hskip Htable Hheap cfg acfg.
  assert (Hreach : forall s, rtc hook_step (constructor_hooks cfg acfg) s -> hook_reach s).
  { intros s Hs. pose proof (constructor_hooks_reach cfg acfg) as H0'. revert H0'. induction Hs as [|s s1 s2 H1' _ IH]; [done|].
    intros H0'. by eapply IH, hr_step. }
  assert (Hbus : forall s, rtc hook_step (constructor_hooks cfg acfg) s -> bus_ok (bus (hp_tables s))).
  { intros s Hs. apply (proj1 (oo_tables _ (hook_reach_owned _ (Hreach s Hs)))). }
  constructor; cbn [ws_routes ws_hooks ws_aliases ws_config]; try done.
  - split_and!; [|apply (new_server_sim table Htable)|done]. split; [by apply new_server_ok|]. intros id r. by rewrite Hheap.
  - intros s [h Hh] Hs. destruct (seat_kept (PhaseEntry 1 auth_alias) _ s (constructor_hooks_reach cfg acfg) (constructor_seated cfg acfg h Hh) Hs) as [_ [[rest Hv] _]].
    split; [apply (bo_armed _ (Hbus s Hs)); by rewrite Hv|]. by eexists _, rest.
  - apply constructor_bus.
  - by apply normalize_auth_skip_paths_Forall2.
Qed.

(** C6: Construction fails exactly when an entry of the skip list holds a percent sign
    or the configuration asks for a feature the build lacks, and then it has not
    touched the process.  Otherwise the server starts with an empty, well-formed
    route table and with the hooks of the configured handlers; and if there is an
    authentication handler, its hook is the first of [before_handler] and stays it,
    whatever the program registers, removes, moves, detaches or destroys later. *)
Theorem construction_sound rd sigpipe_failure c p :
  match construct_webserver rd sigpipe_failure c p with
  | (p', Ok ws) =>
      (Forall (fun entry => ~ escaped entry) (auth_skip_paths c) /\ forall e, ~ missing c e)
      /\ sigpipe_caught p' = (sigpipe_caught p || negb (bool_decide (is_Some sigpipe_failure)))
      /\ starts_sound c ws
  | (p', Throw e) => p' = p /\ (Exists escaped (auth_skip_paths c) \/ missing c e)
  | (_, Undefined) => False
  end.
Proof.
  unfold construct_webserver. set (opaque := if have_dauth then _ else _). clearbody opaque.
  unfold mbind at 1, stx_bind at 1, stx_lift at 1. pose proof (skip_paths_outcome (auth_skip_paths c)) as Hsk. unfold alias_config_of.
  destruct (normalize_auth_skip_paths (auth_skip_paths c)) as [skip|e|] eqn:Eskip; [|split; [done|left; by eapply Exists_impl; [exact Hsk|intros ? [? _]]]|done].
  change (x ← Ok skip; Ok (AliasConfig (calls c auth_handler) (calls c log_access) x))
    with (Ok (AliasConfig (calls c auth_handler) (calls c log_access) skip)).
  cbv iota beta. destruct new_server_some as (table & Etable & Hheap). unfold mbind at 1, stx_bind at 1, stx_lift at 1. rewrite Etable.
  unfold mbind at 1, stx_bind at 1, stx_lift at 1. pose proof (check_features_outcome c) as Hf.
  destruct (check_features c) as [u|e|]; [|by split; [|right]|done]. unfold mbind at 1, stx_bind at 1, ignore_sigpipe, stx_modify.
  pose proof (start_sound c opaque skip table Eskip Etable Hheap) as Hstart.
  destruct sigpipe_failure; (split_and!; [done..| |exact Hstart]); cbn; [by rewrite orb_false_r|by rewrite orb_true_r].
Qed.

End Facts.
