(* ===== verification/TestRequests.v ===== *)
(** * Test requests

    [create_test_request.hpp] and [create_test_request.cpp]: the builder's
    setters, and the theorem that every accessor of the built request returns
    what the calls said, by the rules of the containers the builder keeps. *)

From S2P Require Import Prelude HttpUtils Cookie OrderedMap HttpResponse Request RequestFacts Tls.
Import HttpUtils.StringUtilities HttpUtils.HttpUtils HttpResponse.Response Request.Request Tls.

#[local] Abbreviation header_map := (list (bytes * bytes)).

Module TestRequests.

(** A call of a setter. *)
Inductive call : Type :=
| CMethod (x : bytes)
| CPath (x : bytes)
| CVersion (x : bytes)
| CContent (x : bytes)
| CHeader (key value : bytes)
| CFooter (key value : bytes)
| CCookie (key value : bytes)
| CArg (key value : bytes)
| CQuerystring (x : bytes)
| CUser (x : bytes)
| CPass (x : bytes)
| CDigestedUser (x : bytes)
| CRequestor (x : bytes)
| CRequestorPort (port : Z)
| CTlsEnabled (enabled : bool)
| CExpose (enable : bool).

Definition new_builder : create_test_request :=
  TestRequest (bs "GET") (bs "/") (bs "HTTP/1.1") [] [] [] [] [] [] [] [] [] (bs "127.0.0.1") 0 false false.

(** [m[key] = value] *)
Definition set_entry (key value : bytes) (m : header_map) : header_map := insert_or_assign header_comparator key value m.

Definition apply_call (t : create_test_request) (c : call) : create_test_request :=
  let '(TestRequest me pa ve co he fo ck ar qs us pw du re po tl ex) := t in
  match c with
  | CMethod x => TestRequest x pa ve co he fo ck ar qs us pw du re po tl ex
  | CPath x => TestRequest me x ve co he fo ck ar qs us pw du re po tl ex
  | CVersion x => TestRequest me pa x co he fo ck ar qs us pw du re po tl ex
  | CContent x => TestRequest me pa ve x he fo ck ar qs us pw du re po tl ex
  | CHeader k v => TestRequest me pa ve co (set_entry k v he) fo ck ar qs us pw du re po tl ex
  | CFooter k v => TestRequest me pa ve co he (set_entry k v fo) ck ar qs us pw du re po tl ex
  | CCookie k v => TestRequest me pa ve co he fo (set_entry k v ck) ar qs us pw du re po tl ex
  | CArg k v => TestRequest me pa ve co he fo ck (append_arg ar k v) qs us pw du re po tl ex
  | CQuerystring x => TestRequest me pa ve co he fo ck ar x us pw du re po tl ex
  | CUser x => TestRequest me pa ve co he fo ck ar qs x pw du re po tl ex
  | CPass x => TestRequest me pa ve co he fo ck ar qs us x du re po tl ex
  | CDigestedUser x => TestRequest me pa ve co he fo ck ar qs us pw x re po tl ex
  | CRequestor x => TestRequest me pa ve co he fo ck ar qs us pw du x po tl ex
  | CRequestorPort x => TestRequest me pa ve co he fo ck ar qs us pw du re x tl ex
  | CExpose x => TestRequest me pa ve co he fo ck ar qs us pw du re po tl x
  | CTlsEnabled x => TestRequest me pa ve co he fo ck ar qs us pw du re po x ex
  end.

Definition configured (calls : list call) : create_test_request := foldl apply_call new_builder calls.

Definition build_request (calls : list call) : http_request := build (configured calls).

End TestRequests.
Import TestRequests.

(** ** What the calls say *)

(** The argument of the last call that [sel] selects. *)
Definition last_call {A} (sel : call -> option A) (d : A) (calls : list call) : A :=
  foldl (fun acc c => default acc (sel c)) d calls.

(** The values of the selected calls, in order. *)
Definition all_calls {A} (sel : call -> option A) (calls : list call) : list A := omap sel calls.

Definition for_key (key : bytes) (kv : option (bytes * bytes)) : option bytes :=
  kv ≫= fun kv => if equivb header_comparator (fst kv) key then Some (snd kv) else None.

Definition header_call (c : call) : option (bytes * bytes) := match c with CHeader k v => Some (k, v) | _ => None end.
Definition footer_call (c : call) : option (bytes * bytes) := match c with CFooter k v => Some (k, v) | _ => None end.
Definition cookie_call (c : call) : option (bytes * bytes) := match c with CCookie k v => Some (k, v) | _ => None end.

Definition arg_call (key : bytes) (c : call) : option bytes :=
  match c with CArg k v => if decide (k = key) then Some v else None | _ => None end.

(** A field that each call sets or leaves. *)
Lemma field_last {A} (field : create_test_request -> A) (sel : call -> option A) :
  (forall b c, field (apply_call b c) = default (field b) (sel c)) ->
  forall calls b, field (foldl apply_call b calls) = last_call sel (field b) calls.
Proof.
  intros Hf calls. induction calls as [|c calls IH]; intros b; [done|]. cbn [foldl]. rewrite IH. unfold last_call. cbn [foldl]. by rewrite Hf.
Qed.

(** The maps of the builder. *)
Lemma map_last (field : create_test_request -> header_map) (sel : call -> option (bytes * bytes)) key :
  (forall b c, field (apply_call b c) = match sel c with Some (k, v) => set_entry k v (field b) | None => field b end) ->
  forall calls b, sorted header_comparator (field b) ->
  map_find header_comparator key (field (foldl apply_call b calls))
  = last_call (fun c => Some <$> for_key key (sel c)) (map_find header_comparator key (field b)) calls.
Proof.
  intros Hf calls. induction calls as [|c calls IH]; intros b Hb; [done|]. cbn [foldl]. unfold last_call. cbn [foldl].
  assert (Hs : sorted header_comparator (field (apply_call b c))).
  { rewrite Hf. destruct (sel c) as [[k v]|]; [|done]. by apply insert_or_assign_sorted; [apply _|]. }
  rewrite IH by done. unfold last_call. f_equal. rewrite Hf. destruct (sel c) as [[k v]|]; [|done].
  unfold set_entry. rewrite map_find_insert; [|apply _|done]. cbn. by destruct (equivb header_comparator k key).
Qed.

Lemma args_sorted calls b : args_ok (t_args b) -> args_ok (t_args (foldl apply_call b calls)).
Proof.
  revert b. induction calls as [|c calls IH]; intros b Hb; [done|]. cbn [foldl]. apply IH.
  destruct b, c; cbn; try done. by apply append_ok.
Qed.

Lemma args_all key calls b : args_ok (t_args b) ->
  default [] (arg_find key (t_args (foldl apply_call b calls)))
  = default [] (arg_find key (t_args b)) ++ all_calls (arg_call key) calls.
Proof.
  revert b. induction calls as [|c calls IH]; intros b Hb; [by rewrite app_nil_r|]. cbn [foldl].
  rewrite IH by (by apply (args_sorted [c])). unfold all_calls. cbn [omap list_omap].
  destruct b, c; cbn [arg_call apply_call t_args]; try done.
  cbn in Hb. unfold append_arg. rewrite find_update by apply Hb. destruct (decide (key = key0)) as [->|Hk].
  - rewrite decide_True by done. cbn. by rewrite <- app_assoc.
  - by rewrite decide_False by done.
Qed.

(** The copy of the arguments into the request. *)
Lemma copied_args m acc key : sorted arg_comparator m -> args_ok acc -> Forall (fun kv => snd kv <> []) m ->
  default [] (arg_find key (foldl append_args acc m)) = default [] (arg_find key acc) ++ default [] (arg_find key m).
Proof.
  intros Hm Hacc Hne. revert acc Hacc. induction Hm as [|[k v] m Hm IH Hall]; intros acc Hacc; [by rewrite app_nil_r|].
  apply Forall_cons in Hne as [Hv Hne]. cbn [foldl].
  assert (Hok : args_ok (append_args acc (k, v))) by (apply update_ok; [|done]; intros [|]; [done|done]).
  rewrite IH by done. unfold append_args at 1. cbn [fst snd]. rewrite find_update by apply Hacc.
  assert (Hrest : arg_find k m = None).
  { unfold arg_find. apply (map_find_below arg_comparator). exact Hall. }
  change (arg_find key ((k, v) :: m)) with (if arg_comparator k key then arg_find key m else if arg_comparator key k then None else Some v). pose proof (arg_equiv k key) as He. unfold equivb in He.
  destruct (decide (key = k)) as [->|Hk].
  - rewrite Hrest. rewrite (sw_irrefl arg_comparator). cbn. by rewrite app_nil_r.
  - rewrite bool_decide_false in He by done. destruct (arg_comparator k key) eqn:E1; [done|].
    destruct (arg_comparator key k) eqn:E2; [|done]. cbn.
    assert (Hb : arg_find key m = None).
    { unfold arg_find. apply (map_find_below arg_comparator). eapply Forall_impl; [exact Hall|]. intros [k' v'] Hlt. cbn in *. by apply (sw_trans arg_comparator _ k). }
    by rewrite Hb.
Qed.

(** C34: Whatever the setters were called with, in any order and any number of
    times, the built request returns it: the last method in upper case, the last
    path, version, body, query string, credentials, peer address and port; the
    last header, footer and cookie of each name (names compared without case);
    all the values of each argument in the order of their calls; and the session
    flag of the last [tls_enabled]. *)
Theorem test_request_round_trip calls :
  let r := build_request calls in
  let last {A} (sel : call -> option A) (d : A) := last_call sel d calls in
  method r = to_upper_copy (last (fun c => match c with CMethod x => Some x | _ => None end) (bs "GET"))
  /\ path r = last (fun c => match c with CPath x => Some x | _ => None end) (bs "/")
  /\ version r = last (fun c => match c with CVersion x => Some x | _ => None end) (bs "HTTP/1.1")
  /\ content r = bounded SIZE_MAX (last (fun c => match c with CContent x => Some x | _ => None end) [])
  /\ (forall key, request_get_header key r = default [] (last (fun c => Some <$> for_key key (header_call c)) None)
       /\ request_get_footer key r = default [] (last (fun c => Some <$> for_key key (footer_call c)) None)
       /\ request_get_cookie key r = default [] (last (fun c => Some <$> for_key key (cookie_call c)) None)
       /\ snd (get_arg key r) = Ok (all_calls (arg_call key) calls)
       /\ snd (get_arg_flat key r) = Ok (get_flat_value (all_calls (arg_call key) calls)))
  /\ snd (get_querystring r) = Ok (last (fun c => match c with CQuerystring x => Some x | _ => None end) [])
  /\ snd (get_user r) = Ok (last (fun c => match c with CUser x => Some x | _ => None end) [])
  /\ snd (get_pass r) = Ok (last (fun c => match c with CPass x => Some x | _ => None end) [])
  /\ snd (get_digested_user r) = Ok (last (fun c => match c with CDigestedUser x => Some x | _ => None end) [])
  /\ snd (get_requestor r) = Ok (last (fun c => match c with CRequestor x => Some x | _ => None end) (bs "127.0.0.1"))
  /\ snd (get_requestor_port r) = Ok (last (fun c => match c with CRequestorPort x => Some x | _ => None end) 0%Z)
  /\ connection_ (impl r) = None
  /\ has_tls_session (tls_enabled_local (locals (impl r))) None
     = last (fun c => match c with CTlsEnabled x => Some x | _ => None end) false.
Proof.
  intros r last. unfold r, last, build_request, configured. clear r last.
  assert (Hok : args_ok (t_args new_builder)) by (split; constructor).
  assert (Hargs : forall key, default [] (arg_find key (unescaped_args (args (impl (build (foldl apply_call new_builder calls))))))
    = all_calls (arg_call key) calls).
  { intros key. pose proof (args_sorted calls _ Hok) as [Hs Hn]. cbn [build impl args unescaped_args request_set_expose on_impl].
    rewrite copied_args; [|done|split; constructor|done]. by rewrite args_all. }
  assert (Hbuilt : args_ok (unescaped_args (args (impl (build (foldl apply_call new_builder calls))))))
    by (apply append_args_ok; [apply (args_sorted calls _ Hok)|apply args_ok_nil]).
  split; [apply (f_equal to_upper_copy), (field_last (fun b => t_method b)); by intros [] []|].
  split; [apply (field_last (fun b => t_path b)); by intros [] []|].
  split; [apply (field_last (fun b => t_version b)); by intros [] []|].
  split; [apply (f_equal (bounded SIZE_MAX)), (field_last (fun b => t_content b)); by intros [] []|].
  split.
  { intros key. split_and!.
    - unfold request_get_header, get_connection_value. cbn. f_equal.
      apply (map_last (fun b => t_headers b) header_call key); [by intros [] []|constructor].
    - unfold request_get_footer, get_connection_value. cbn. f_equal.
      apply (map_last (fun b => t_footers b) footer_call key); [by intros [] []|constructor].
    - unfold request_get_cookie, get_connection_value. cbn. f_equal.
      apply (map_last (fun b => t_cookies b) cookie_call key); [by intros [] []|constructor].
    - by apply (f_equal Ok).
    - rewrite <- Hargs. set (r := build _) in *. assert (Hp : populate_args r = (r, Ok ())) by done.
      unfold get_arg_flat, mbind, stx_bind. rewrite Hp. unfold stx_get, stx_lift, first_value, get_flat_value. cbn [snd].
      destruct (arg_find key (unescaped_args (args (impl r)))) as [[|]|] eqn:Ef; [|done..].
      by destruct (args_find_nonempty _ key [] Hbuilt Ef). }
  split.
  { trans (Ok (t_querystring (foldl apply_call new_builder calls))); [|apply (f_equal Ok), (field_last (fun b => t_querystring b)); by intros [] []].
    unfold get_querystring. cbn. by destruct (t_querystring _). }
  split; [apply (f_equal Ok), (field_last (fun b => t_user b)); by intros [] []|].
  split; [apply (f_equal Ok), (field_last (fun b => t_pass b)); by intros [] []|].
  split; [apply (f_equal Ok), (field_last (fun b => t_digested_user b)); by intros [] []|].
  split; [apply (f_equal Ok), (field_last (fun b => t_requestor b)); by intros [] []|].
  split; [apply (f_equal Ok), (field_last (fun b => t_requestor_port b)); by intros [] []|].
  split; [done|apply (field_last (fun b => t_tls_enabled b)); by intros [] []].
Qed.
